(* ===== verification/_CoqProject ===== *)
-Q . S2P
Prelude.v
F64.v
Config.v
Model.v
Placement.v
Events.v
Refusal.v
Async.v
Traced.v
Json.v
Inventory.v
Kube.v
Sync.v
Recovery.v
App.v
Engine.v
Publish.v
Replace.v
Head.v
Fencing.v
Promote.v
Moves.v
Replicate.v
Base64.v
Records.v
Store.v
Leadership.v
Migrate.v
Rebalance.v
Expand.v
Backups.v
Owned.v
VmMigrate.v
VmSteps.v
VmDisk.v
Reconcile.v
Settings.v
Registry.v
Snapshots.v
Volumes.v
StateFile.v
Components.v
Auth.v
Views.v
Connections.v
