(* ===== verification/Prelude.v ===== *)
(** * A verification of stormstorage

    stormstorage is the storage control plane of a set of Storm nodes: it
    keeps a federation of nodes, places the legs of distributed volumes on
    them, assembles the legs into a RAID1 on a head node, exports the result
    to consumers, fences and promotes heads, moves, migrates, rebalances,
    expands, snapshots and backs up volumes, and moves the disk of a running
    VM. It is never in the data path: everything is a record of its own and
    calls to the storage engines of the nodes over HTTP. This development is
    a model of the program in src/src/ (Rust), definition by definition, and
    the theorems that make it correct.

    ** The parts, and how they interact

    One process is an [App] (App.v, [AppState] of api/mod.rs): the federation
    state, the event ring, the inventories, the claims on volumes, the
    refusing engines and the readings of the heads. Three kinds of task work
    on it at the same time. The API's handlers ([Auth] decides which instance
    runs which, and with what token). The poll ([Registry.poll_once]), which
    reads every node and ends with the reconciler's pass ([Reconcile]). Tasks
    a handler or the reconciler spawned (a leg's rebuild, an export). They
    share the state under a lock they let go of at every [.await], and
    claims on names that keep two from working on the same volume. A change
    counts a revision (a few do not) and is then written to the state file
    ([StateFile]) or the fleet store ([Store]), and pushed to peers
    ([Replicate]).

    A handler is therefore a [prog] (Async.v): atomic steps on the state,
    calls to the outside, spawned tasks. It is executable against an
    environment function ([run], [sched]), and [pool_steps] interleaves any
    number of them with arbitrary answers. Safety under interleaving is
    proved one handler at a time: [guar] bounds what a handler's steps do,
    [wp] is a weakest precondition under a rely, [pool_guar] and
    [pool_parallel] compose them, and [Owned] does the same for tasks that
    change a record only under its claim. Where a theorem speaks of what was
    asked and answered, [Traced] keeps it: [traced_steps] and [twp] for an
    interleaving, [asked] for one program alone.

    ** The files

    Shared by all:
    - [Prelude]: this header; record update, results, machine integers,
      ordered maps, text, sorting, and their lemmas.
    - [F64]: the binary64 numbers of the scores and rates ([SpecFloat]).
    - [Async], [Traced], [Owned]: handlers, their interleaving, the history
      of their calls, and the proof rules.
    - [Json]: the interface of [serde_json]'s values.

    The records and the pure decisions:
    - [Config], [Settings] (config.rs): the configuration with its defaults,
      environment, validation; which token goes to which engine.
    - [Model] (model.rs): the federation's records and what is computed of
      them. [Events] (events.rs): the event ring. [Refusal] (refusal.rs):
      the back-off from an engine that refuses the token.
    - [Placement] (placement.rs): where legs go.
    - [Inventory] (inventory.rs): slabs, volumes and tiers of a node.
    - [Kube] (kube.rs): the claims of PVs, members, published Endpoints.
    - [Sync] (head.rs, its pure part): what each copy of a volume is worth,
      and the records a fence, promote, prestage or window writes.
    - [Recovery] (orchestrate.rs, its pure part): what the reconciler decides.

    The handlers:
    - [App]: the state, the calls, claims. [Engine] (engine.rs): every call
      to an engine.
    - [Publish], [Replace] (orchestrate.rs): exports; assembling, moving and
      retiring legs. [Moves]: what moving a leg does.
    - [Head] (head.rs): fence, promote, reassemble, windows, rates.
      [Fencing], [Promote]: what they keep, beside each other and alone.
    - [Replicate] (replicate.rs): peers. [Migrate] (migrate.rs), [Rebalance]
      (rebalance.rs), [Expand] (expand.rs), [Backups] (backup.rs and
      api/backups.rs), [VmMigrate], [VmSteps] and [VmDisk] (vmmigrate.rs
      and api/vmmigrations.rs), [Snapshots] (api/snapshots.rs), [Volumes]
      (api/mod.rs: volumes).
    - [Reconcile] (orchestrate.rs, [reconcile]): the pass that runs them.
      [Registry] (registry.rs): the nodes, their polls, the poll as a whole.

    The state outside memory, and the edge:
    - [StateFile] (model.rs [save] and [load_state], api/mod.rs
      [persist_file], main.rs): state.json, over a model of the file system.
    - [Base64], [Records], [Store], [Leadership] (store.rs): the fleet store
      in etcd: encoding, records, election, writes, loads; what they keep.
    - [Components] (components.rs): the feed of the consoles. [Auth]
      (api/auth.rs, the router, the forwarding of writes). [Views]
      (api/mod.rs and the listings of api/): the answers.
    - [Connections] (engine.rs, store.rs, kube.rs): the HTTP clients and
      their certificates, the address published.

    Names are the source's where Rocq allows; a definition's comment names
    the function where it does not. A struct is a record whose fields have
    the source's names, with a prefix where two records share one.

    ** What is shown

    - Placement: a plan names distinct failure domains with room, fails only
      when there is no such choice, and is the greedy optimum.
    - Bounded structures against their history: the event ring, the refusals
      of an engine, the health of a node are what the history of operations
      says.
    - Replication of data: a copy counts as in sync only on evidence; an
      automatic re-head goes only to such a copy, at the current epoch;
      where a fence wins, no other wins at that epoch or below, before or
      after, and an epoch never goes back; a promote alone leaves a volume headed at the fenced epoch or the record as it
      was.
    - Work on volumes: a leg's replacement ends with the new leg in the place
      of the old or the old one kept; an expand records the new size only
      after every engine took it and the served volume was read back at it;
      a rebalance keeps to the watermarks with what it promised counted; a
      finished backup has its point, its base and no job; all of them, and
      migration, do nothing to other records; creating
      and deleting volumes, snapshots, groups and clones keeps every
      reference; a live migration moves along the edges of its state machine
      only, under any interleaving, and never loses the disk while engines
      say the truth about a delete.
    - Durability: what a save returned [Ok] for survives a power cut, however
      many saves run at once; records round-trip through the store; a write
      to the fleet store refines an assignment of the records; one writer's
      peers hold what it held at their revision and converge when a change
      counts one; who leads was granted its lease and created the leader
      key.
    - The edge: only a request with the token changes anything, on the
      instance that leads, after one hop; tokens go where they may; an https
      engine is sent to only when its CA verifies it; the feed is closed
      under its relations.
    - Where the code does something else than it says, a theorem or an
      example shows it: a lost answer to the last delete of a live migration
      lets an abort delete the other copy ([VmDisk.lost_answer_loses_disk]),
      a promote writes back over a fence
      ([Fencing.promote_overwrites_fence]), a backup stopped under the cycle
      ends the polling task ([Backups.stop_panics_poll]), a snapshot outlives
      its volume ([Volumes.snapshot_outlives_volume]), a CA renewed during
      the start is not taken up ([Connections.renewal_missed_at_start]), two
      overlapping saves leave a link behind
      ([StateFile.overlapping_saves_leave_a_link]), an API token with space
      around it locks out ([Auth.spaced_token_locks_out]), a single leg no
      host sees is expanded without being read back
      ([Expand.expand_unread]), a change that counts no revision is dropped
      by the peers it is sent to ([Replicate.one_writer_converges_witness]),
      a state file that is not UTF-8 stops the start
      ([StateFile.bad_state_file_set_aside]).

    ** Numbers, fuel and bounds

    A [u64] or [u32] is a [Z]; arithmetic that can leave the type is written
    with its wrap-around or saturation ([u64_add], [u64_saturating_mul], …),
    a release build being what is modelled. Times are nanoseconds. A [BTreeMap]
    is a [gmap] walked in the order of its keys ([bt_list]). A [String] is a
    [string] of its UTF-8 bytes; where the code goes by characters (what is
    white space to [trim] or in a host NQN) they are taken together by
    [chars].

    Loops without a structural bound take one: the walk up the parents of an
    engine volume is cut at 64 by the code itself; text functions take the
    text's length, which each of their rounds shortens; the rounds of a wait
    for a rebuild are the fuel of [Replace.wait_rounds], whose [None] is "not
    done yet": [Moves.wait_gives_up] shows that a wait ends within the rounds
    it takes to sleep through its timeout twice, and every theorem about a
    handler that waits holds for any fuel. A request travels at most one hop
    between instances ([Auth.request_handled_once]).

    ** What is assumed

    Answers from outside are arbitrary where safety is shown; a theorem that
    needs more says so in a hypothesis, and its witness discharges it. The
    libraries and services are interfaces: [Json] and [Deserialize] (parsed
    JSON), [Serde] and [ToJson] (derived JSON; [Serde] reads back what it
    wrote), [HttpShow] and [FloatText] (texts of a library), [Stormview]
    (the feed's types), [Tls] and [Names] (certificates, clients, URLs,
    names). Parsers of TOML, addresses and IPs, files and environment
    variables are arguments of [Settings]. etcd executes the transactions it
    is sent ([Leadership]); the file system of [StateFile] is a journaled one
    (a directory's changes reach the disk in order; a file's content only by
    a sync). The hash of a token is a function.

    ** Not modelled

    - main.rs beyond the state file, lib.rs: the argument parser, the log
      filter, the listener and the shutdown signal are glue.
    - Log lines, which nothing reads; the embedded page.
    - What axum, serde, reqwest and tokio do inside: extractors, body
      parsing, percent-decoding, timeouts, the fairness of the scheduler.
    - Two threads inside one atomic step: a lock's section is one step.
    - The tests, the end-to-end scripts and the medium under test/. *)

From stdpp Require Export base numbers option list gmap strings fin_maps sorting pretty.
From stdpp Require Import options.

(** ** Record update

    [r <| f := v |>] is [r] with the field [f] replaced, [r <| f ::= g |>]
    with [g] applied to it: the assignments [r.f = v] of the Rust code. A
    record type opts in with one [Eta] instance, the eta expansion of its
    constructor. *)

Class Eta (R : Type) := eta_expand : R → R.

Class Setter {R T : Type} (proj : R → T) := set_field : (T → T) → R → R.
Arguments set_field {R T} proj {_} _ _ /.

Ltac derive_setter :=
  match goal with
  | |- @Setter ?R ?T ?proj =>
      let i := constr:(_ : Eta R) in
      let body := eval hnf in i in
      match eval pattern proj in body with
      | ?f _ => exact (λ g r, f (λ r', g (proj r')) r)
      end
  end.

#[export] Hint Extern 0 (Setter _) => derive_setter : typeclass_instances.

Declare Scope storm_scope.
Delimit Scope storm_scope with storm.
Notation "r <| f ::= g |>" := (set_field f g r)
  (at level 1, f at next level, left associativity, format "r  <| f  ::=  g |>") : storm_scope.
Notation "r <| f := v |>" := (set_field f (λ _, v) r)
  (at level 1, f at next level, left associativity, format "r  <| f  :=  v |>") : storm_scope.
Open Scope storm_scope.

(** ** Results

    Rust's [Result<T, E>]. *)

Inductive result (T E : Type) : Type :=
  | Ok (v : T)
  | Err (e : E).
Arguments Ok {T E} v.
Arguments Err {T E} e.

Definition result_bind {T U E} (r : result T E) (f : T → result U E) : result U E :=
  match r with
  | Ok v => f v
  | Err e => Err e
  end.

(** [let? x := e in k] is [let x = e?; k]. *)
Notation "'let?' x := e 'in' k" := (result_bind e (λ x, k))
  (at level 10, x pattern, e at level 200, k at level 200) : storm_scope.

Definition ok_or {T E} (o : option T) (e : E) : result T E :=
  match o with Some v => Ok v | None => Err e end.

Definition is_ok {T E} (r : result T E) : bool :=
  match r with Ok _ => true | Err _ => false end.

Definition is_err {T E} (r : result T E) : bool := negb (is_ok r).

Definition map_err {T E F} (f : E → F) (r : result T E) : result T F :=
  match r with Ok v => Ok v | Err e => Err (f e) end.

(** ** Option combinators *)

Definition is_some_and {A} (p : A → bool) (o : option A) : bool :=
  match o with Some a => p a | None => false end.

Definition map_or {A B} (d : B) (f : A → B) (o : option A) : B :=
  match o with Some a => f a | None => d end.

Definition is_some {A} (o : option A) : bool :=
  match o with Some _ => true | None => false end.

Definition is_none {A} (o : option A) : bool := negb (is_some o).

Definition opt_filter {A} (p : A → bool) (o : option A) : option A :=
  match o with Some a => if p a then Some a else None | None => None end.

Definition opt_or {A} (o o' : option A) : option A :=
  match o with Some a => Some a | None => o' end.

Definition unwrap_or {A} (d : A) (o : option A) : A :=
  match o with Some a => a | None => d end.

(** Decidable equality as a boolean: [a == b]. *)
Definition eqb {A} `{EqDecision A} (a b : A) : bool := bool_decide (a = b).
Infix "==" := eqb (at level 70, no associativity) : storm_scope.
Notation "a != b" := (negb (eqb a b)) (at level 70, no associativity) : storm_scope.

(** ** Machine integers

    A [u64] or [u32] is a [Z]; arithmetic that can leave the type is written
    with the wrap-around of a release build or, where the source says so,
    saturating. *)

Definition u32_max : Z := 2 ^ 32 - 1.
Definition u64_max : Z := 2 ^ 64 - 1.
Definition u64_add (a b : Z) : Z := (a + b) mod 2 ^ 64.
Definition u32_add (a b : Z) : Z := (a + b) mod 2 ^ 32.
Definition u64_saturating_mul (a b : Z) : Z := Z.min (a * b) u64_max.
Definition u32_saturating_sub (a b : Z) : Z := Z.max (a - b) 0.
Definition as_u32 (a : Z) : Z := a mod 2 ^ 32.
Definition is_u64 (a : Z) : Prop := (0 ≤ a ≤ u64_max)%Z.

(** ** Lists *)

Definition find_first {A} (p : A → bool) (l : list A) : option A := List.find p l.

Fixpoint position {A} (p : A → bool) (l : list A) : option nat :=
  match l with
  | [] => None
  | x :: l => if p x then Some 0%nat else S <$> position p l
  end.

(** [iter_mut().find(p)] followed by an assignment: the first match is
    replaced, nothing happens when there is none. *)
Fixpoint update_first {A} (p : A → bool) (f : A → A) (l : list A) : list A :=
  match l with
  | [] => []
  | x :: l => if p x then f x :: l else x :: update_first p f l
  end.

Fixpoint chunks_fuel {A} (fuel n : nat) (l : list A) : list (list A) :=
  match fuel, l with
  | _, [] => []
  | O, _ => []
  | S fuel, _ => take n l :: chunks_fuel fuel n (drop n l)
  end.

(** [slice::chunks]: [length l] rounds are enough for a positive size. *)
Definition chunks {A} (n : nat) (l : list A) : list (list A) := chunks_fuel (length l) n l.

(** [slice::sort_by]: stable, so an element goes before the first one that
    is not smaller; the result is the only stable sorted order when [cmp]
    is a total preorder, which [sort_by] requires. *)
Fixpoint sort_insert {A} (cmp : A → A → comparison) (x : A) (l : list A) : list A :=
  match l with
  | [] => [x]
  | y :: l' => match cmp x y with
               | Gt => y :: sort_insert cmp x l'
               | _ => x :: l
               end
  end.

Definition sort_by {A} (cmp : A → A → comparison) (l : list A) : list A :=
  foldr (sort_insert cmp) [] l.

(** [Ordering::then_with]. *)
Definition cmp_then (c d : comparison) : comparison :=
  match c with Eq => d | _ => c end.

(** ** Ordered maps

    A [BTreeMap<String, V>] is a [gmap string V] iterated in the byte order
    of its keys. *)

Definition key_le {V} (a b : string * V) : Prop := String.le a.1 b.1.
#[export] Instance key_le_dec {V} (a b : string * V) : Decision (key_le a b).
Proof. unfold key_le. apply _. Defined.

Definition bt_list {V} (m : gmap string V) : list (string * V) :=
  merge_sort key_le (map_to_list m).
Definition bt_keys {V} (m : gmap string V) : list string := (bt_list m).*1.
Definition bt_values {V} (m : gmap string V) : list V := (bt_list m).*2.

(** A [BTreeSet<String>] iterated in order. *)
Definition bs_list (s : gset string) : list string := merge_sort String.le (elements s).

(** [for v in m.values_mut()]: each value is rewritten in key order while an
    accumulator is threaded through. *)
Definition bt_for_mut {V S} (f : V → S → V * S) (m : gmap string V) (s : S) : gmap string V * S :=
  foldl (λ '(m, s) '(k, v), let '(v', s') := f v s in (<[k := v']> m, s')) (m, s) (bt_list m).

(** [BTreeMap::retain] on the key and the value. *)
Definition bt_retain {V} (p : string → V → bool) (m : gmap string V) : gmap string V :=
  filter (λ kv, p kv.1 kv.2 = true) m.

(** ** Text: [format!] pieces *)

Definition quote_char : string := String (Ascii.ascii_of_nat 34) EmptyString.

(** [{:?}] of a string, for text whose characters need no escape but the
    quote and the backslash. *)
Fixpoint escape (s : string) : string :=
  match s with
  | EmptyString => EmptyString
  | String c s =>
      let n := Ascii.nat_of_ascii c in
      if (n =? 34)%nat || (n =? 92)%nat then String (Ascii.ascii_of_nat 92) (String c (escape s))
      else String c (escape s)
  end.
Definition debug_str (s : string) : string := (quote_char +:+ escape s +:+ quote_char)%string.

(** [str::join]. *)
Fixpoint join (sep : string) (l : list string) : string :=
  match l with
  | [] => EmptyString
  | [x] => x
  | x :: l => (x +:+ sep +:+ join sep l)%string
  end.

Fixpoint str_ends_with_rev (c : Ascii.ascii) (s : list Ascii.ascii) : list Ascii.ascii :=
  match s with
  | x :: s' => if Ascii.eqb x c then str_ends_with_rev c s' else s
  | [] => []
  end.

(** [str::trim_end_matches(c)]. *)
Definition trim_end_matches (c : Ascii.ascii) (s : string) : string :=
  String.string_of_list_ascii (rev (str_ends_with_rev c (rev (String.list_ascii_of_string s)))).

(** [str::chars]: the characters of a text, each as its bytes (a byte from
    0x80 to 0xbf goes on with the character before). *)
Definition continues (s : string) : bool :=
  match s with String c _ => let n := Ascii.nat_of_ascii c in (128 <=? n)%nat && (n <=? 191)%nat | EmptyString => false end.
Fixpoint chars (s : string) : list string :=
  match s with
  | EmptyString => []
  | String b s =>
      match chars s with
      | c :: cs => if continues c then String b c :: cs else String b EmptyString :: c :: cs
      | [] => [String b EmptyString]
      end
  end.
(** [char::is_whitespace]: Unicode's White_Space, in UTF-8 (U+0009 to
    U+000D, U+0020, U+0085, U+00A0, U+1680, U+2000 to U+200A, U+2028, U+2029,
    U+202F, U+205F, U+3000). *)
Definition of_codes (l : list nat) : string := String.string_of_list_ascii (map Ascii.ascii_of_nat l).
Definition WHITE_SPACE : list string :=
  map of_codes
    ([[9]; [10]; [11]; [12]; [13]; [32]; [194; 133]; [194; 160]; [225; 154; 128]]
     ++ map (λ n, [226; 128; 128 + n]) (List.seq 0 11)
     ++ [[226; 128; 168]; [226; 128; 169]; [226; 128; 175]; [226; 129; 159]; [227; 128; 128]])%nat.
Definition is_whitespace (c : string) : bool := existsb (String.eqb c) WHITE_SPACE.
(** [u8::is_ascii_whitespace]: not the vertical tab. *)
Definition is_ascii_whitespace (c : Ascii.ascii) : bool :=
  existsb (Nat.eqb (Ascii.nat_of_ascii c)) [32; 9; 10; 12; 13]%nat.

Fixpoint drop_while {A} (p : A → bool) (l : list A) : list A :=
  match l with x :: l' => if p x then drop_while p l' else l | [] => [] end.
Fixpoint take_while {A} (p : A → bool) (l : list A) : list A :=
  match l with x :: l' => if p x then x :: take_while p l' else [] | [] => [] end.
(** [str::trim]. *)
Definition trim (s : string) : string :=
  join EmptyString (rev (drop_while is_whitespace (rev (drop_while is_whitespace (chars s))))).

(** [str::starts_with] and what follows ([str::strip_prefix]). *)
Fixpoint strip_prefix (p s : string) : option string :=
  match p, s with
  | EmptyString, _ => Some s
  | String a p, String b s => if Ascii.eqb a b then strip_prefix p s else None
  | _, EmptyString => None
  end.
Definition starts_with (p s : string) : bool := is_some (strip_prefix p s).

(** [str::ends_with]. *)
Definition str_rev (s : string) : string :=
  String.string_of_list_ascii (rev (String.list_ascii_of_string s)).
Definition ends_with (p s : string) : bool := starts_with (str_rev p) (str_rev s).

(** [str::trim_start_matches]; as many rounds as characters. *)
Fixpoint trim_start_fuel (fuel : nat) (p s : string) : string :=
  match fuel with
  | O => s
  | S fuel => match strip_prefix p s with Some rest => trim_start_fuel fuel p rest | None => s end
  end.
Definition trim_start_matches (p s : string) : string := trim_start_fuel (String.length s) p s.

(** What comes before the first character of [cs]. *)
Fixpoint take_until (cs : list Ascii.ascii) (s : string) : string :=
  match s with
  | EmptyString => EmptyString
  | String c s => if existsb (Ascii.eqb c) cs then EmptyString else String c (take_until cs s)
  end.

(** [str::replace] of a non-empty pattern; as many rounds as characters. *)
Fixpoint str_replace_fuel (fuel : nat) (pat to s : string) : string :=
  match fuel, s with
  | O, _ | _, EmptyString => s
  | S fuel, String c s' =>
      match strip_prefix pat s with
      | Some rest => (to +:+ str_replace_fuel fuel pat to rest)%string
      | None => String c (str_replace_fuel fuel pat to s')
      end
  end.
Definition str_replace (pat to s : string) : string := str_replace_fuel (String.length s) pat to s.

(** [str::to_ascii_lowercase]; also [to_lowercase] of the uuids and state
    words it is used on, which are ASCII. *)
Definition lower_ascii (c : Ascii.ascii) : Ascii.ascii :=
  let n := Ascii.nat_of_ascii c in
  if (65 <=? n)%nat && (n <=? 90)%nat then Ascii.ascii_of_nat (n + 32) else c.
Fixpoint lowercase (s : string) : string :=
  match s with
  | EmptyString => EmptyString
  | String c s => String (lower_ascii c) (lowercase s)
  end.
Definition eq_ignore_ascii_case (a b : string) : bool := lowercase a == lowercase b.

(** [str::contains]. *)
Fixpoint contains (sub s : string) : bool :=
  starts_with sub s || match s with EmptyString => false | String _ s => contains sub s end.

Definition slash : Ascii.ascii := Ascii.ascii_of_nat 47.
(** [str::split_once] at a character and at a non-empty text; [rsplit_once]
    at a character. *)
Fixpoint split_once (c : Ascii.ascii) (s : string) : option (string * string) :=
  match s with
  | EmptyString => None
  | String x s => if Ascii.eqb x c then Some (EmptyString, s)
                  else (λ '(a, b), (String x a, b)) <$> split_once c s
  end.
Fixpoint split_once_str (sep s : string) : option (string * string) :=
  match strip_prefix sep s, s with
  | Some r, _ => Some (EmptyString, r)
  | None, EmptyString => None
  | None, String x s => (λ '(a, b), (String x a, b)) <$> split_once_str sep s
  end.
Fixpoint rsplit_once (c : Ascii.ascii) (s : string) : option (string * string) :=
  match s with
  | EmptyString => None
  | String x s => match rsplit_once c s with
                  | Some (a, b) => Some (String x a, b)
                  | None => if Ascii.eqb x c then Some (EmptyString, s) else None
                  end
  end.
(** [chars().all(p)]. *)
Definition all_chars (p : Ascii.ascii → bool) (s : string) : bool := forallb p (String.list_ascii_of_string s).
Definition is_digit (c : Ascii.ascii) : bool := let n := Ascii.nat_of_ascii c in (48 <=? n)%nat && (n <=? 57)%nat.
Definition is_lower (c : Ascii.ascii) : bool := let n := Ascii.nat_of_ascii c in (97 <=? n)%nat && (n <=? 122)%nat.

(** ** Facts: booleans and options *)

Lemma eqb_true {A} `{EqDecision A} (a b : A) : (a == b) = true ↔ a = b.
Proof. unfold eqb. apply bool_decide_eq_true. Qed.

Lemma eqb_prop {A} `{EqDecision A} (a b : A) : (a == b) = true → a = b.
Proof. apply eqb_true. Qed.

Lemma neqb_prop {A} `{EqDecision A} (a b : A) : (a != b) = true → a ≠ b.
Proof. unfold eqb. rewrite negb_true_iff. apply bool_decide_eq_false. Qed.

Lemma eqb_false {A} `{EqDecision A} (a b : A) : (a == b) = false ↔ a ≠ b.
Proof. unfold eqb. apply bool_decide_eq_false. Qed.

Lemma eqb_refl {A} `{EqDecision A} (a : A) : (a == a) = true.
Proof. by apply eqb_true. Qed.

Lemma eqb_nprop {A} `{EqDecision A} (a b : A) : (a == b) = false → a ≠ b.
Proof. apply eqb_false. Qed.

Lemma neqb_nprop {A} `{EqDecision A} (a b : A) : (a != b) = false → a = b.
Proof. rewrite negb_false_iff. apply eqb_prop. Qed.

Lemma if_same_nil {A} (b : bool) : (if b then [] else []) = @nil A.
Proof. by destruct b. Qed.

Lemma eqb_Some {A} `{EqDecision A} (a b : A) : (Some a == Some b) = (a == b).
Proof. unfold eqb. apply bool_decide_ext. split; [by intros [=]|by intros ->]. Qed.

Lemma neqb_true {A} `{EqDecision A} (a b : A) : (a != b) = true ↔ a ≠ b.
Proof. rewrite negb_true_iff. apply eqb_false. Qed.

Lemma neqb_false {A} `{EqDecision A} (a b : A) : (a != b) = false ↔ a = b.
Proof. rewrite negb_false_iff. apply eqb_true. Qed.

Lemma is_some_and_true {A} (p : A → bool) (o : option A) :
  is_some_and p o = true ↔ ∃ a, o = Some a ∧ p a = true.
Proof. destruct o; simpl; split; [eauto|intros (? & [= <-] & ?); done|done|intros (? & ? & ?); done]. Qed.

Lemma is_some_true {A} (o : option A) : is_some o = true ↔ is_Some o.
Proof. destruct o; unfold is_some; split; intros H; try done; by destruct H. Qed.

Lemma is_some_false {A} (o : option A) : is_some o = false ↔ o = None.
Proof. by destruct o. Qed.

Lemma is_none_true {A} (o : option A) : is_none o = true ↔ o = None.
Proof. by destruct o. Qed.

Lemma is_none_false {A} (o : option A) : is_none o = false ↔ is_Some o.
Proof. unfold is_none. rewrite negb_false_iff. apply is_some_true. Qed.

Lemma opt_filter_Some {A} (p : A → bool) (o : option A) (a : A) :
  opt_filter p o = Some a ↔ o = Some a ∧ p a = true.
Proof. destruct o as [x|]; simpl; [destruct (p x) eqn:?|]; split; [intros [= <-]|intros [[= <-] ?]|intros [=]|intros [[= <-] ?]|intros [=]|intros [[=] ?]]; try done; congruence. Qed.

Lemma result_bind_Ok {T U E} (r : result T E) (f : T → result U E) (u : U) :
  result_bind r f = Ok u ↔ ∃ t, r = Ok t ∧ f t = Ok u.
Proof. destruct r; simpl; split; [eauto|intros (? & [= <-] & ?); done|done|intros (? & ? & ?); done]. Qed.

(** ** Facts: lists *)

Lemma elem_of_filterb {A} (p : A → bool) (l : list A) (x : A) :
  x ∈ List.filter p l ↔ x ∈ l ∧ p x = true.
Proof. rewrite !list_elem_of_In. apply filter_In. Qed.

Lemma existsb_true {A} (p : A → bool) (l : list A) :
  existsb p l = true ↔ ∃ x, x ∈ l ∧ p x = true.
Proof. rewrite existsb_exists. by setoid_rewrite list_elem_of_In. Qed.

Lemma existsb_false {A} (p : A → bool) (l : list A) :
  existsb p l = false ↔ ∀ x, x ∈ l → p x = false.
Proof.
  rewrite <-not_true_iff_false, existsb_true. split.
  - intros H x Hx. destruct (p x) eqn:E; [|done]. exfalso. eauto.
  - intros H (x & Hx & Hp). rewrite H in Hp; done.
Qed.

Lemma forallb_true {A} (p : A → bool) (l : list A) :
  forallb p l = true ↔ ∀ x, x ∈ l → p x = true.
Proof. rewrite forallb_forall. by setoid_rewrite list_elem_of_In. Qed.

Lemma find_first_Some {A} (p : A → bool) (l : list A) (x : A) :
  find_first p l = Some x → x ∈ l ∧ p x = true.
Proof.
  intros H. apply find_some in H as [H Hp]. by rewrite list_elem_of_In.
Qed.

Lemma find_first_None {A} (p : A → bool) (l : list A) :
  find_first p l = None ↔ ∀ x, x ∈ l → p x = false.
Proof.
  split.
  - intros H x Hx. apply (find_none _ _ H). by apply list_elem_of_In.
  - induction l as [|y l IH]; intros H; simpl; [done|].
    unfold find_first in *. simpl. rewrite (H y) by left.
    apply IH. intros x Hx. apply H. by right.
Qed.

Lemma find_first_is_Some {A} (p : A → bool) (l : list A) (x : A) :
  x ∈ l → p x = true → is_Some (find_first p l).
Proof.
  intros Hx Hp. destruct (find_first p l) eqn:E; [done|].
  rewrite (proj1 (find_first_None p l) E x Hx) in Hp. done.
Qed.

Lemma position_Some {A} (p : A → bool) (l : list A) (i : nat) :
  position p l = Some i → ∃ x, l !! i = Some x ∧ p x = true.
Proof.
  revert i. induction l as [|y l IH]; intros i; simpl; [done|].
  destruct (p y) eqn:E; [intros [= <-]; by exists y|].
  destruct (position p l) as [j|]; simpl; [|done]. intros [= <-]. by apply IH.
Qed.

Lemma update_first_length {A} (p : A → bool) (f : A → A) (l : list A) :
  length (update_first p f l) = length l.
Proof. induction l as [|x l IH]; simpl; [done|]. destruct (p x); simpl; congruence. Qed.

(** A projection the replacement keeps is kept on the whole list. *)
Lemma update_first_map {A B} (g : A → B) (p : A → bool) (f : A → A) (l : list A) :
  (∀ x, p x = true → g (f x) = g x) → map g (update_first p f l) = map g l.
Proof.
  intros H. induction l as [|x l IH]; simpl; [done|].
  destruct (p x) eqn:E; simpl; [by rewrite H|by rewrite IH].
Qed.

Lemma elem_of_update_first {A} (p : A → bool) (f : A → A) (l : list A) (y : A) :
  y ∈ update_first p f l → y ∈ l ∨ ∃ x, x ∈ l ∧ p x = true ∧ y = f x.
Proof.
  induction l as [|x l IH]; simpl; [by left|].
  destruct (p x) eqn:E; rewrite !elem_of_cons.
  - intros [->|H]; [right; exists x; by rewrite elem_of_cons; auto|by auto].
  - intros [->|H]; [by auto|]. destruct (IH H) as [?|(z & ? & ? & ?)]; [by auto|].
    right. exists z. rewrite elem_of_cons. by auto.
Qed.

(** A replacement that still matches is found in the place of the first. *)
Lemma find_first_update_first {A} (p : A → bool) (f : A → A) (l : list A) :
  (∀ x, p x = true → p (f x) = true) → find_first p (update_first p f l) = f <$> find_first p l.
Proof.
  intros H. induction l as [|x l IH]; [done|]. unfold find_first in *. simpl.
  destruct (p x) eqn:E; simpl; [by rewrite H|by rewrite E].
Qed.

Lemma update_first_idem {A} (p : A → bool) (f : A → A) (l : list A) :
  (∀ x, p x = true → p (f x) = true ∧ f (f x) = f x) →
  update_first p f (update_first p f l) = update_first p f l.
Proof.
  intros H. induction l as [|x l IH]; simpl; [done|].
  destruct (p x) eqn:E; simpl; [destruct (H x E) as [-> ->]; done|by rewrite E, IH].
Qed.

Lemma chunks_fuel_concat {A} (fuel n : nat) (l : list A) :
  0 < n → length l ≤ fuel → concat (chunks_fuel fuel n l) = l.
Proof.
  intros Hn. revert l. induction fuel as [|fuel IH]; intros [|x l] Hl; simpl in *; [done|lia|done|].
  rewrite IH; [apply take_drop|]. rewrite length_drop. simpl. lia.
Qed.

Lemma chunks_concat {A} (n : nat) (l : list A) : 0 < n → concat (chunks n l) = l.
Proof. intros. by apply chunks_fuel_concat. Qed.

Lemma chunks_length {A} (n : nat) (l : list A) (c : list A) : c ∈ chunks n l → length c ≤ n.
Proof.
  unfold chunks. generalize (length l) as fuel. intros fuel. revert l.
  induction fuel as [|fuel IH]; intros [|x l]; simpl; try (intros ?%not_elem_of_nil; done).
  rewrite elem_of_cons. intros [->|H]; [|by eapply IH].
  rewrite length_take. lia.
Qed.

(** ** Facts: the stable sort *)

Section sort.
Context {A : Type} (cmp : A → A → comparison).
Lemma sort_insert_perm x l : sort_insert cmp x l ≡ₚ x :: l.
Proof.
  induction l as [|y l IH]; simpl; [done|]. destruct (cmp x y); [done..|].
  rewrite IH. apply Permutation_swap.
Qed.
Lemma sort_by_perm l : sort_by cmp l ≡ₚ l.
Proof. induction l as [|x l IH]; simpl; [done|]. by rewrite sort_insert_perm, IH. Qed.
(** On the elements compared, [cmp] is a total preorder. *)
Context (P : A → Prop).
Context (cmp_flip : ∀ x y, P x → P y → cmp x y = Gt → cmp y x ≠ Gt).
Context (cmp_trans : ∀ x y z, P x → P y → P z → cmp x y ≠ Gt → cmp y z ≠ Gt → cmp x z ≠ Gt).
Let le x y := cmp x y ≠ Gt.
Lemma sort_insert_sorted x l :
  P x → Forall P l → StronglySorted le l → StronglySorted le (sort_insert cmp x l).
Proof using cmp_flip cmp_trans.
  intros Hx HP Hl. induction Hl as [|y l Hl IH Hy]; simpl; [repeat constructor|].
  apply Forall_cons in HP as [HPy HPl].
  destruct (cmp x y) eqn:E.
  3: { constructor; [by apply IH|].
       rewrite sort_insert_perm. constructor; [by apply cmp_flip|done]. }
  all: assert (le x y) by (unfold le; congruence);
    constructor; [by constructor|]; constructor; [done|];
    rewrite Forall_forall in HPl, Hy |- *; intros z Hz;
    apply (cmp_trans x y z); [done|done|by apply HPl|done|by apply Hy].
Qed.
Lemma sort_by_sorted l : Forall P l → StronglySorted le (sort_by cmp l).
Proof using cmp_flip cmp_trans.
  induction 1 as [|x l Hx HP IH]; simpl; [constructor|].
  apply sort_insert_sorted; [done| |done].
  by rewrite sort_by_perm.
Qed.
End sort.

Lemma StronglySorted_lookup {A} (R : relation A) (l : list A) (i j : nat) (x y : A) :
  StronglySorted R l → (i < j)%nat → l !! i = Some x → l !! j = Some y → R x y.
Proof.
  intros Hl. revert i j. induction Hl as [|z l Hl IH Hz]; intros i j Hij Hi Hj; [done|].
  destruct j as [|j]; [lia|]. destruct i as [|i]; simpl in *.
  - simplify_eq. rewrite Forall_forall in Hz. apply Hz. by eapply list_elem_of_lookup_2.
  - eapply IH; [|done..]. lia.
Qed.

(** ** Facts: ordered maps *)

Section btree.
Context {V : Type}.
Implicit Types (m : gmap string V) (k : string) (v : V).
#[local] Instance key_le_total : Total (@key_le V).
Proof. intros a b. unfold key_le. apply (total String.le). Qed.
#[local] Instance key_le_trans : Transitive (@key_le V).
Proof. intros a b c. unfold key_le. apply transitivity. Qed.
Lemma bt_list_perm m : bt_list m ≡ₚ map_to_list m.
Proof. apply merge_sort_Permutation. Qed.
Lemma elem_of_bt_list m k v : (k, v) ∈ bt_list m ↔ m !! k = Some v.
Proof. rewrite bt_list_perm. apply elem_of_map_to_list. Qed.
Lemma bt_list_NoDup m : NoDup (bt_list m).*1.
Proof. rewrite bt_list_perm. apply NoDup_fst_map_to_list. Qed.
Lemma bt_list_sorted m : StronglySorted key_le (bt_list m).
Proof. apply StronglySorted_merge_sort; apply _. Qed.
Lemma elem_of_bt_values m v : v ∈ bt_values m ↔ ∃ k, m !! k = Some v.
Proof.
  unfold bt_values. rewrite list_elem_of_fmap. setoid_rewrite <-elem_of_bt_list.
  split; [intros ([k v'] & -> & ?); by exists k|intros [k ?]; by exists (k, v)].
Qed.
Lemma elem_of_bt_keys m k : k ∈ bt_keys m ↔ is_Some (m !! k).
Proof.
  unfold bt_keys. rewrite list_elem_of_fmap. unfold is_Some. setoid_rewrite <-elem_of_bt_list.
  split; [intros ([k' v] & -> & ?); by exists v|intros [v ?]; by exists (k, v)].
Qed.
Lemma bt_keys_NoDup m : NoDup (bt_keys m).
Proof. apply bt_list_NoDup. Qed.
Lemma bt_keys_sorted m : StronglySorted String.le (bt_keys m).
Proof.
  unfold bt_keys. pose proof (bt_list_sorted m) as H. induction H as [|x l H IH Hx]; simpl; [constructor|].
  constructor; [done|]. rewrite Forall_fmap. done.
Qed.
Lemma bt_retain_lookup (p : string → V → bool) m k v :
  bt_retain p m !! k = Some v ↔ m !! k = Some v ∧ p k v = true.
Proof. unfold bt_retain. by rewrite map_lookup_filter_Some. Qed.
Lemma bt_retain_lookup_None (p : string → V → bool) m k :
  bt_retain p m !! k = None ↔ ∀ v, m !! k = Some v → p k v = false.
Proof.
  unfold bt_retain. rewrite map_lookup_filter_None. split.
  - intros [H|H] v Hv; [congruence|]. specialize (H _ Hv). simpl in H. by destruct (p k v).
  - intros H. destruct (m !! k) as [v|] eqn:E; [|by left]. right.
    intros v' [= <-]. simpl. by rewrite H.
Qed.
(** The loop over the values with an accumulator: when the new value does
    not depend on the accumulator, the map is the pointwise image… *)
Context {S : Type} (f : V → S → V * S).
Definition bt_fold_step : gmap string V * S → string * V → gmap string V * S :=
  λ '(m, s) '(k, v), let '(v', s') := f v s in (<[k := v']> m, s').
Lemma bt_for_mut_unfold m s : bt_for_mut f m s = foldl bt_fold_step (m, s) (bt_list m).
Proof. done. Qed.
Lemma bt_fold_map_ne l m s k :
  k ∉ l.*1 → (foldl bt_fold_step (m, s) l).1 !! k = m !! k.
Proof.
  revert m s. induction l as [|[k' v] l IH]; intros m s; simpl; [done|].
  rewrite not_elem_of_cons. intros [Hk Hl]. destruct (f v s) as [v' s'].
  rewrite IH by done. by rewrite lookup_insert_ne.
Qed.
Lemma bt_fold_map (g : V → V) l m s k v :
  (∀ v s, (f v s).1 = g v) → NoDup l.*1 → (k, v) ∈ l →
  (foldl bt_fold_step (m, s) l).1 !! k = Some (g v).
Proof.
  intros Hf. revert m s. induction l as [|[k' v'] l IH]; intros m s; simpl;
    [intros _ ?%not_elem_of_nil; done|].
  rewrite NoDup_cons. intros [Hk' Hl]. rewrite elem_of_cons.
  destruct (f v' s) as [w s'] eqn:E. intros [[= -> ->]|Hin].
  - rewrite bt_fold_map_ne by done. rewrite lookup_insert_eq.
    by rewrite <-(Hf v' s), E.
  - by apply IH.
Qed.
Lemma bt_for_mut_map (g : V → V) m s :
  (∀ v s, (f v s).1 = g v) → (bt_for_mut f m s).1 = g <$> m.
Proof.
  intros Hf. rewrite bt_for_mut_unfold. apply map_eq. intros k. rewrite lookup_fmap.
  destruct (m !! k) as [v|] eqn:E; simpl.
  - apply bt_fold_map; [done|apply bt_list_NoDup|]. by apply elem_of_bt_list.
  - rewrite bt_fold_map_ne; [done|]. change (k ∉ bt_keys m).
    rewrite elem_of_bt_keys, E. by intros [? ?].
Qed.
(** …and the accumulator is a fold over the values in key order. *)
Lemma bt_fold_acc l m s :
  (foldl bt_fold_step (m, s) l).2 = foldl (λ s v, (f v s).2) s l.*2.
Proof.
  revert m s. induction l as [|[k v] l IH]; intros m s; simpl; [done|].
  destruct (f v s) as [v' s'] eqn:E. simpl. apply IH.
Qed.
Lemma bt_for_mut_acc m s :
  (bt_for_mut f m s).2 = foldl (λ s v, (f v s).2) s (bt_values m).
Proof. rewrite bt_for_mut_unfold. apply bt_fold_acc. Qed.
(** A property of the accumulator the body keeps is kept by the loop. *)
Lemma bt_for_mut_inv (I : S → Prop) m s :
  I s → (∀ k v s, m !! k = Some v → I s → I (f v s).2) → I (bt_for_mut f m s).2.
Proof.
  intros Hs Hf. rewrite bt_for_mut_acc.
  assert (∀ v, v ∈ bt_values m → ∃ k, m !! k = Some v) as Hin
    by (intros v; by rewrite elem_of_bt_values).
  revert s Hs. induction (bt_values m) as [|v l IH]; intros s Hs; simpl; [done|].
  destruct (Hin v) as [k Hk]; [by left|].
  apply IH; [intros w ?; apply Hin; by right|]. by eapply Hf.
Qed.
End btree.

Lemma elem_of_bs_list (s : gset string) x : x ∈ bs_list s ↔ x ∈ s.
Proof. unfold bs_list. by rewrite merge_sort_Permutation, elem_of_elements. Qed.

(** A fold that only appends: what it gathered is what each step gives. *)
Lemma foldl_gather {A B} (h : A → list B) (l : list A) (s : list B) :
  foldl (λ s x, s ++ h x) s l = s ++ concat (map h l).
Proof.
  revert s. induction l as [|x l IH]; intros s; simpl; [by rewrite app_nil_r|].
  by rewrite IH, app_assoc.
Qed.

(** A measure of the accumulator that every step extends by a list. *)
Lemma foldl_gather_proj {S A B} (step : S → A → S) (proj : S → list B) (h : A → list B) (l : list A) (s : S) :
  (∀ s x, proj (step s x) = proj s ++ h x) →
  proj (foldl step s l) = proj s ++ concat (map h l).
Proof.
  intros H. revert s. induction l as [|x l IH]; intros s; simpl; [by rewrite app_nil_r|].
  by rewrite IH, H, app_assoc.
Qed.

(** A flag that any step may raise. *)
Lemma foldl_flag_proj {S A} (step : S → A → S) (proj : S → bool) (h : A → bool) (l : list A) (s : S) :
  (∀ s x, proj (step s x) = proj s || h x) →
  proj (foldl step s l) = proj s || existsb h l.
Proof.
  intros H. revert s. induction l as [|x l IH]; intros s; simpl; [by rewrite orb_false_r|].
  by rewrite IH, H, orb_assoc.
Qed.

(** A loop over the values that gathers a list. *)
Lemma bt_for_mut_gather {V B} (f : V → list B → V * list B) (h : V → list B) (m : gmap string V) (s : list B) :
  (∀ v s, (f v s).2 = s ++ h v) → (bt_for_mut f m s).2 = s ++ concat (map h (bt_values m)).
Proof.
  intros H. rewrite bt_for_mut_acc.
  apply (foldl_gather_proj (λ s v, (f v s).2) (λ s, s) h). intros s' v. apply H.
Qed.

Lemma elem_of_concat_map {A B} (h : A → list B) (l : list A) (b : B) :
  b ∈ concat (map h l) ↔ ∃ a, a ∈ l ∧ b ∈ h a.
Proof.
  induction l as [|x l IH]; simpl; [split; [intros ?%not_elem_of_nil|intros (? & ?%not_elem_of_nil & _)]; done|].
  rewrite elem_of_app, IH. setoid_rewrite elem_of_cons. naive_solver.
Qed.

(** ** Facts: machine integers *)

Lemma u64_add_small a b : (0 ≤ a + b ≤ u64_max)%Z → u64_add a b = (a + b)%Z.
Proof. unfold u64_add, u64_max. intros. apply Z.mod_small. lia. Qed.

Lemma u32_add_small a b : (0 ≤ a + b ≤ u32_max)%Z → u32_add a b = (a + b)%Z.
Proof. unfold u32_add, u32_max. intros. apply Z.mod_small. lia. Qed.

Lemma u64_add_range a b : is_u64 (u64_add a b).
Proof. unfold is_u64, u64_add, u64_max. pose proof (Z.mod_pos_bound (a + b) (2 ^ 64)). lia. Qed.

(** ** Automation

    [storm] splits the boolean guards of a definition into propositions;
    the database holds the rewriting facts it uses. *)

Create Rewrite HintDb storm.

#[export] Hint Rewrite @eqb_true @eqb_false @neqb_true @neqb_false @is_some_and_true
  @is_some_true @is_some_false @is_none_true @is_none_false @opt_filter_Some
  @elem_of_filterb @existsb_true @existsb_false @forallb_true
  andb_true_iff orb_false_iff negb_true_iff negb_false_iff : storm.

Ltac bools := autorewrite with storm in *; destruct_and?.

(** Case analysis on the scrutinee of the match or [if] at the head. *)
Ltac case_head :=
  match goal with
  | |- context [match ?x with _ => _ end] => destruct x eqn:?
  end.
Ltac case_head_in H :=
  match type of H with
  | context [match ?x with _ => _ end] => destruct x eqn:?
  end.

(** ** Facts: text *)

Lemma append_assoc (a b c : string) : ((a +:+ b) +:+ c = a +:+ (b +:+ c))%string.
Proof. induction a as [|x a IH]; [done|]. exact (f_equal (String x) IH). Qed.
Lemma append_empty (a : string) : (a +:+ "" = a)%string.
Proof. induction a as [|x a IH]; [done|]. exact (f_equal (String x) IH). Qed.
Lemma strip_prefix_iff p s r : strip_prefix p s = Some r ↔ s = (p +:+ r)%string.
Proof.
  revert s. induction p as [|a p IH]; intros s; cbn [strip_prefix].
  { change ("" +:+ r)%string with r. split; [by intros [= ->]|by intros ->]. }
  change (String a p +:+ r)%string with (String a (p +:+ r)).
  destruct s as [|b s]; [done|]. destruct (Ascii.eqb_spec a b) as [<-|Hne].
  - rewrite IH. split; [by intros ->|by intros [= ->]].
  - split; [done|]. intros [= E _]. by destruct Hne.
Qed.
Lemma starts_with_iff p s : starts_with p s = true ↔ ∃ r, s = (p +:+ r)%string.
Proof.
  unfold starts_with. destruct (strip_prefix p s) as [r|] eqn:E; simpl.
  - apply strip_prefix_iff in E. split; [eauto|done].
  - split; [done|]. intros (r & Hr%strip_prefix_iff). congruence.
Qed.
Lemma contains_iff p s : contains p s = true ↔ ∃ a b, s = (a +:+ (p +:+ b))%string.
Proof.
  revert s. induction s as [|c s IH]; simpl; rewrite orb_true_iff, starts_with_iff.
  - split.
    + intros [[r ->]|]; [|done]. exists ""%string, r. done.
    + intros (a & b & E). destruct a; [|done]. left. exists b. exact E.
  - rewrite IH. split.
    + intros [[r ->]|(a & b & ->)]; [by exists ""%string, r|by exists (String c a), b].
    + intros (a & b & E). destruct a as [|x a]; [left; exists b; exact E|]. right. injection E as <- ->. by exists a, b.
Qed.
Lemma list_ascii_app (a b : string) :
  String.list_ascii_of_string (a +:+ b) = String.list_ascii_of_string a ++ String.list_ascii_of_string b.
Proof. induction a as [|c a IH]; [done|]. exact (f_equal (cons c) IH). Qed.
Lemma string_of_list_app (a b : list Ascii.ascii) :
  String.string_of_list_ascii (a ++ b) = (String.string_of_list_ascii a +:+ String.string_of_list_ascii b)%string.
Proof. induction a as [|c a IH]; [done|]. exact (f_equal (String c) IH). Qed.
Lemma str_rev_app (a b : string) : str_rev (a +:+ b) = (str_rev b +:+ str_rev a)%string.
Proof. unfold str_rev. by rewrite list_ascii_app, rev_app_distr, string_of_list_app. Qed.
Lemma str_rev_involutive s : str_rev (str_rev s) = s.
Proof.
  unfold str_rev. rewrite String.list_ascii_of_string_of_list_ascii, rev_involutive.
  apply String.string_of_list_ascii_of_string.
Qed.
Lemma ends_with_iff p s : ends_with p s = true ↔ ∃ r, s = (r +:+ p)%string.
Proof.
  unfold ends_with. rewrite starts_with_iff. split.
  - intros (r & Hr). exists (str_rev r). by rewrite <-(str_rev_involutive s), Hr, str_rev_app, str_rev_involutive.
  - intros (r & ->). exists (str_rev r). apply str_rev_app.
Qed.

Lemma split_once_app c a b :
  c ∉ String.list_ascii_of_string a → split_once c (a +:+ String c b)%string = Some (a, b).
Proof.
  induction a as [|x a IH]; simpl.
  { intros _. by rewrite Ascii.eqb_refl. }
  rewrite not_elem_of_cons. intros [Hx Ha]. rewrite (proj2 (Ascii.eqb_neq x c)) by done.
  by rewrite IH.
Qed.
Lemma split_once_slash a b : slash ∉ String.list_ascii_of_string a → split_once slash (a +:+ ("/" +:+ b))%string = Some (a, b).
Proof. apply split_once_app. Qed.
Lemma split_once_none c s : c ∉ String.list_ascii_of_string s → split_once c s = None.
Proof.
  induction s as [|x s IH]; simpl; [done|]. rewrite not_elem_of_cons. intros [Hx Hs].
  rewrite (proj2 (Ascii.eqb_neq x c)) by done. by rewrite IH.
Qed.

(** ** Facts: lists of lists *)

Lemma NoDup_concat_map {A B} (f : A → list B) (l : list A) :
  NoDup l → (∀ x, x ∈ l → NoDup (f x)) → (∀ x y b, x ∈ l → y ∈ l → b ∈ f x → b ∈ f y → x = y) →
  NoDup (concat (map f l)).
Proof.
  induction l as [|x l IH]; intros Hl Hf Hd; simpl; [constructor|].
  apply NoDup_cons in Hl as [Hx Hl]. apply NoDup_app. split; [apply Hf; by left|]. split.
  - intros b Hb Hc. apply elem_of_concat_map in Hc as (y & Hy & Hby). apply Hx.
    by rewrite (Hd x y b ltac:(by left) ltac:(by right) Hb Hby).
  - apply IH; [done| |]; intros; [apply Hf|eapply Hd]; eauto using list_elem_of_further.
Qed.
(** Groups told apart by a tag of their members. *)
Lemma NoDup_tagged {A T} (tag : A → T) (gs : list (T * list A)) :
  NoDup gs.*1 → Forall (λ g, NoDup g.2 ∧ ∀ x, x ∈ g.2 → tag x = g.1) gs → NoDup (concat gs.*2).
Proof.
  induction gs as [|[t g] gs IH]; intros Ht Hg; simpl; [constructor|].
  apply NoDup_cons in Ht as [Hn Ht]. apply Forall_cons in Hg as [[Hd Htag] Hg]. apply NoDup_app.
  split; [done|]. split; [|by apply IH]. intros x Hx Hc. apply Hn. simpl in *. rewrite <-(Htag x Hx).
  clear IH Ht Hn. induction gs as [|[t' g'] gs IH]; simpl in *; [by apply not_elem_of_nil in Hc|].
  apply Forall_cons in Hg as [[_ Htag'] Hg]. apply elem_of_app in Hc as [Hc|Hc].
  - rewrite (Htag' x Hc). left.
  - right. by apply IH.
Qed.
Lemma concat_cons_perm {A B} (f : A → B) (g : A → list B) (l : list A) :
  concat (map (λ x, f x :: g x) l) ≡ₚ map f l ++ concat (map g l).
Proof.
  induction l as [|x l IH]; simpl; [done|]. rewrite IH. constructor.
  rewrite !app_assoc. f_equiv. apply Permutation_app_comm.
Qed.
