(* ===== verification/F64.v ===== *)
(** * Binary64 arithmetic

    Rust's [f64], as IEEE 754 binary64 with round to nearest even: the
    standard library's [SpecFloat] at precision 53 and maximal exponent
    1024. It has one NaN (payloads are never read by the program), computes,
    and needs no axiom. The comparison of two non-NaN numbers is shown to be
    a total preorder, which is what sorting and "best so far" loops use. *)

From Stdlib Require Import Floats.SpecFloat.
From S2P Require Import Prelude.
From stdpp Require Import options.

Local Open Scope Z_scope.

Abbreviation f64 := spec_float (only parsing).
Abbreviation f32 := spec_float (only parsing).

Definition prec : Z := 53.
Definition emax : Z := 1024.

Definition fadd (x y : f64) : f64 := SFadd prec emax x y.
Definition fsub (x y : f64) : f64 := SFsub prec emax x y.
Definition fmul (x y : f64) : f64 := SFmul prec emax x y.
Definition fdiv (x y : f64) : f64 := SFdiv prec emax x y.

(** [n as f64] for a [u64] (or [usize]): rounded to nearest even. *)
Definition of_u64 (n : Z) : f64 := binary_normalize prec emax n 0 false.

Definition f0 : f64 := S754_zero false.
Definition f1 : f64 := of_u64 1.

Definition is_nan (x : f64) : bool := match x with S754_nan => true | _ => false end.

(** [partial_cmp]: [None] when either is NaN. *)
Definition partial_cmp (x y : f64) : option comparison := SFcompare x y.
Definition flt (x y : f64) : bool := SFltb x y.
Definition fle (x y : f64) : bool := SFleb x y.
Definition fgt (x y : f64) : bool := flt y x.
Definition fge (x y : f64) : bool := fle y x.
Definition feq (x y : f64) : bool := SFeqb x y.

(** [f64::max]: the other operand when one is NaN. *)
Definition fmax (x y : f64) : f64 :=
  if is_nan x then y else if is_nan y then x else if flt x y then y else x.

(** [f64::clamp]: NaN stays NaN. *)
Definition clamp (x lo hi : f64) : f64 :=
  let x := if flt x lo then lo else x in
  if fgt x hi then hi else x.

Definition fsum (l : list f64) : f64 := foldl fadd f0 l.

(** [(lo..=hi).contains(&x)]. *)
Definition in_range (lo hi x : f64) : bool := fle lo x && fle x hi.

(** [f64::round]: to the nearest integer, halves away from zero. *)
Definition fround (x : f64) : f64 :=
  match x with
  | S754_finite s m e =>
      if 0 <=? e then x
      else let d := 2 ^ (- e) in
           let q := (2 * Zpos m + d) / (2 * d) in
           if q =? 0 then S754_zero s else binary_normalize prec emax (if s then - q else q) 0 s
  | _ => x
  end.

(** [x as f32]: rounded to binary32. *)
Definition as_f32 (x : f64) : f32 :=
  match x with
  | S754_finite s m e => binary_normalize 24 128 (if s then Zneg m else Zpos m) e s
  | _ => x
  end.

(** ** The order of non-NaN numbers

    A number's key: class and sign, then exponent, then mantissa (negated
    for negative numbers). [SFcompare] is the lexicographic order of keys. *)

Definition key (x : f64) : Z * Z * Z :=
  match x with
  | S754_infinity true => (-2, 0, 0)
  | S754_finite true m e => (-1, - e, - Zpos m)
  | S754_zero _ => (0, 0, 0)
  | S754_finite false m e => (1, e, Zpos m)
  | S754_infinity false => (2, 0, 0)
  | S754_nan => (3, 0, 0)
  end.

Definition lex (a b : Z * Z * Z) : comparison :=
  cmp_then (a.1.1 ?= b.1.1) (cmp_then (a.1.2 ?= b.1.2) (a.2 ?= b.2)).

Lemma partial_cmp_key x y :
  is_nan x = false → is_nan y = false → partial_cmp x y = Some (lex (key x) (key y)).
Proof.
  unfold partial_cmp, lex.
  destruct x as [[]|[]| |[] m e], y as [[]|[]| |[] m' e']; simpl; try done; intros _ _; f_equal.
  - rewrite Z.compare_opp, (Z.compare_antisym e e').
    by destruct (e ?= e').
  - destruct (e ?= e'); done.
Qed.

Lemma lex_refl a : lex a a = Eq.
Proof. unfold lex. by rewrite !Z.compare_refl. Qed.

Lemma lex_antisym a b : lex b a = CompOpp (lex a b).
Proof.
  unfold lex. rewrite (Z.compare_antisym a.1.1), (Z.compare_antisym a.1.2), (Z.compare_antisym a.2).
  by destruct (a.1.1 ?= b.1.1), (a.1.2 ?= b.1.2), (a.2 ?= b.2).
Qed.

Lemma lex_Lt a b :
  lex a b = Lt ↔ a.1.1 < b.1.1 ∨ a.1.1 = b.1.1 ∧ (a.1.2 < b.1.2 ∨ a.1.2 = b.1.2 ∧ a.2 < b.2).
Proof.
  unfold lex, cmp_then.
  destruct (Z.compare_spec a.1.1 b.1.1), (Z.compare_spec a.1.2 b.1.2), (Z.compare_spec a.2 b.2);
    split; intros; try done; lia.
Qed.

Lemma lex_Eq a b : lex a b = Eq ↔ a = b.
Proof.
  destruct a as [[a1 a2] a3], b as [[b1 b2] b3]. unfold lex, cmp_then; simpl.
  destruct (Z.compare_spec a1 b1), (Z.compare_spec a2 b2), (Z.compare_spec a3 b3);
    split; intros; try done; simplify_eq; try done; lia.
Qed.

Lemma lex_Gt a b : lex a b = Gt ↔ lex b a = Lt.
Proof. rewrite (lex_antisym a b). by destruct (lex a b). Qed.

Lemma lex_not_Gt_trans a b c : lex a b ≠ Gt → lex b c ≠ Gt → lex a c ≠ Gt.
Proof. rewrite !lex_Gt, !lex_Lt. lia. Qed.

Lemma lex_flip a b : lex a b = Gt → lex b a ≠ Gt.
Proof. rewrite !lex_Gt, !lex_Lt. lia. Qed.

(** ** Comparisons in terms of keys *)

Lemma flt_key x y : is_nan x = false → is_nan y = false →
  flt x y = true ↔ lex (key x) (key y) = Lt.
Proof.
  intros. unfold flt, SFltb. change (SFcompare x y) with (partial_cmp x y).
  rewrite partial_cmp_key by done. by destruct (lex (key x) (key y)).
Qed.

Lemma feq_key x y : is_nan x = false → is_nan y = false →
  feq x y = true ↔ key x = key y.
Proof.
  intros. unfold feq, SFeqb. change (SFcompare x y) with (partial_cmp x y).
  rewrite partial_cmp_key, <-lex_Eq by done. by destruct (lex (key x) (key y)).
Qed.

Lemma flt_nan_l x y : is_nan x = true → flt x y = false.
Proof. by destruct x. Qed.

Lemma flt_nan_r x y : is_nan y = true → flt x y = false.
Proof. by destruct y, x. Qed.

Lemma flt_irrefl x : flt x x = false.
Proof.
  destruct (is_nan x) eqn:E; [by apply flt_nan_l|].
  apply not_true_iff_false. rewrite flt_key, lex_refl by done. done.
Qed.

Lemma flt_trans x y z : flt x y = true → flt y z = true → flt x z = true.
Proof.
  intros Hxy Hyz.
  destruct (is_nan x) eqn:Ex; [by rewrite flt_nan_l in Hxy|].
  destruct (is_nan y) eqn:Ey; [by rewrite flt_nan_r in Hxy|].
  destruct (is_nan z) eqn:Ez; [by rewrite flt_nan_r in Hyz|].
  rewrite flt_key in * by done. rewrite lex_Lt in *. lia.
Qed.

Lemma flt_fle x y : flt x y = true → fle x y = true.
Proof. unfold flt, fle, SFltb, SFleb. by destruct (SFcompare x y) as [[]|]. Qed.

(** A number that is not below the other is at least it (no NaN). *)
Lemma flt_false_fge x y : is_nan x = false → is_nan y = false → flt x y = false → fle y x = true.
Proof.
  intros Hx Hy H. unfold fle, SFleb. change (SFcompare y x) with (partial_cmp y x).
  rewrite partial_cmp_key by done.
  apply not_true_iff_false in H. rewrite flt_key in H by done.
  destruct (lex (key y) (key x)) eqn:E; [done..|]. by apply lex_Gt in E.
Qed.

(** What is at most the other is not above it, and what compares is a number. *)
Lemma fle_not_flt x y : fle x y = true → flt y x = false.
Proof.
  intros H. destruct (is_nan x) eqn:Ex; [by apply flt_nan_r|]. destruct (is_nan y) eqn:Ey; [by apply flt_nan_l|].
  apply not_true_iff_false. rewrite flt_key by done. intros Hlt.
  unfold fle, SFleb in H. change (SFcompare x y) with (partial_cmp x y) in H.
  rewrite partial_cmp_key, lex_antisym, Hlt in H by done. done.
Qed.
Lemma fle_not_nan x y : fle x y = true → is_nan x = false ∧ is_nan y = false.
Proof. destruct x as [[]|[]| |[] ? ?], y as [[]|[]| |[] ? ?]; done. Qed.
Lemma not_fle_flt x y : is_nan x = false → is_nan y = false → fle y x = false → flt x y = true.
Proof.
  intros Hx Hy H. apply not_false_iff_true. intros Hlt. by rewrite (flt_false_fge _ _ Hx Hy Hlt) in H.
Qed.

Lemma of_u64_0 : of_u64 0 = f0.
Proof. done. Qed.

Lemma feq_refl x : is_nan x = false → feq x x = true.
Proof. intros. by apply feq_key. Qed.
