(* ===== verification/Config.v ===== *)
(** * Configuration (src/config.rs)

    The configuration records the control logic reads: a storage node
    ([NodeConfig]), a pool and its selector, recovery, and the federation's
    rungs; the label defaults, the selector's matching, the rebuild rates
    and the token search order. Parsing TOML, the TLS and Kubernetes
    sections and file access are not here. *)

From S2P Require Import Prelude F64.
From stdpp Require Import options.

Local Open Scope string_scope.

(** ** Recovery *)

Inductive BandwidthClass := Low | Normal | High | Unthrottled.
#[export] Instance BandwidthClass_eq_dec : EqDecision BandwidthClass.
Proof. solve_decision. Defined.

Record RecoveryConfig := MkRecoveryConfig {
  enabled : option bool;
  cooldown_secs : Z;
  rebuild_timeout_secs : Z;
  rate_low : Z;
  rate_normal : Z;
  rate_high : Z;
  max_dual_attach_secs : Z;
  rehead : bool;
  rehead_after_secs : Z;
}.

Definition RecoveryConfig_default : RecoveryConfig :=
  {| enabled := None;
     cooldown_secs := 300;
     rebuild_timeout_secs := 3600;
     rate_low := Z.shiftl 50 20;
     rate_normal := Z.shiftl 200 20;
     rate_high := Z.shiftl 1 30;
     max_dual_attach_secs := 3600;
     rehead := false;
     rehead_after_secs := 120 |}.

Definition rate (rc : RecoveryConfig) (class : BandwidthClass) : Z :=
  match class with
  | Low => rate_low rc
  | Normal => rate_normal rc
  | High => rate_high rc
  | Unthrottled => 0
  end.

Definition active (rc : RecoveryConfig) (has_peers : bool) : bool :=
  unwrap_or (negb has_peers) (enabled rc).

(** ** The federation's rungs *)

Definition FederationConfig_default : list string :=
  ["site"; "building"; "room"; "row"; "rack"; "multicluster"; "cluster"; "node"].

(** ** Polling *)

Record PollConfig := MkPollConfig {
  interval_secs : Z;
  fail_threshold : Z;
}.

Definition PollConfig_default : PollConfig := {| interval_secs := 15; fail_threshold := 3 |}.

(** ** Nodes *)

Record NodeConfig := MkNodeConfig {
  nc_name : string;
  nc_engine_url : string;
  nc_api_token : option string;
  nc_token_file : option string;
  nc_ca_file : option string;
  nc_labels : gmap string string;
  nc_tier : option string;
}.
#[export] Instance NodeConfig_eq_dec : EqDecision NodeConfig.
Proof. solve_decision. Defined.

(** [entry(k).or_insert_with(v)]. *)
Definition or_insert (k v : string) (m : gmap string string) : gmap string string :=
  match m !! k with Some _ => m | None => <[k := v]> m end.

Definition effective_labels (n : NodeConfig) : gmap string string :=
  let l := nc_labels n in
  let l := or_insert "node" (nc_name n) l in
  or_insert "cluster" (nc_name n) l.

(** ** Legs *)

(** [LegsConfig::host_nqn_for]: the host NQN of head [node]. *)
Definition host_nqn_for (host_nqn node : string) : string := str_replace "{node}" node host_nqn.

(** ** Pools *)

Record Selector := MkSelector {
  sel_tier : option string;
  sel_labels : gmap string string;
  sel_nodes : list string;
}.

Definition Selector_default : Selector := {| sel_tier := None; sel_labels := ∅; sel_nodes := [] |}.

(** [Selector::matches]. *)
Definition matches (s : Selector) (node : NodeConfig) : bool :=
  let eff := effective_labels node in
  (match sel_tier s with Some t => nc_tier node == Some t | None => true end)
  && forallb (λ '(k, v), eff !! k == Some v) (bt_list (sel_labels s))
  && (match sel_nodes s with [] => true | _ => existsb (λ n, n == nc_name node) (sel_nodes s) end).

Record PoolConfig := MkPoolConfig {
  pool_name : string;
  pool_selector : Selector;
  pool_replicas : Z;
  pool_rung : string;
  high_watermark : option f64;
  low_watermark : option f64;
  max_moves : Z;
}.

Definition default_max_moves : Z := 1.
Definition default_replicas : Z := 2.
Definition default_rung : string := "node".

(** [Config::pool]. *)
Definition pool (pools : list PoolConfig) (name : string) : option PoolConfig :=
  find_first (λ p, pool_name p == name) pools.

(** ** The configuration the control logic reads *)

Record Config := MkConfig {
  recovery : RecoveryConfig;
  poll : PollConfig;
  rungs : list string;
  io_weight : f64;
  pools : list PoolConfig;
  legs_host_nqn : string;
  peers : list string;
}.

(** ** Engine tokens

    The environment and the files are arguments: [read path] is what
    reading the file gives (its text, or the error as text). [trim] is
    [str::trim]. *)
Section tokens.
Context (read : string → result string string) (trim : string → string).
Context (is_this_machine : string → bool).
Context (DEFAULT_TOKEN_FILES : list string).
(** [Vec::dedup]: consecutive repeats removed. *)
Fixpoint dedup (l : list string) : list string :=
  match l with
  | [] => []
  | x :: l' => match dedup l' with
               | y :: t => if x == y then y :: t else x :: y :: t
               | [] => [x]
               end
  end.
Definition token_files (config env : option string) : list string :=
  dedup (map trim (option_list config ++ option_list env) ++ DEFAULT_TOKEN_FILES).
Fixpoint token_search_files (files : list string) (why : list string) : option string * string :=
  match files with
  | [] => (None, "no token: " +:+ join "; " why)
  | path :: files =>
      match read path with
      | Ok s => if trim s != "" then (Some (trim s), path)
                else token_search_files files (why ++ [path +:+ " is empty"])
      | Err e => token_search_files files (why ++ [path +:+ ": " +:+ e])
      end
  end.
Definition token_search (env_token : option string) (files : list string) : option string * string :=
  match env_token with
  | Some t => (Some (trim t), "$STORMBLOCK_API_TOKEN")
  | None => token_search_files files []
  end.
(** [LocalConfig::token_for]: [env] gives the non-blank variables. *)
Definition token_for (env : string → option string) (shared_token_file token_file : option string)
    (url : string) : option string * string :=
  let shared := token_search (env "STORMBLOCK_API_TOKEN") (option_list shared_token_file) in
  if is_some shared.1 then shared
  else if negb (is_this_machine url) then
    (None, "no shared token for an engine on another machine (" +:+ shared.2
           +:+ ") — a minted token means nothing to a peer: set $STORMBLOCK_API_TOKEN or [local] shared_token_file to the cluster's api_token, or the node's api_token/token_file")
  else token_search None (token_files token_file (env "STORMBLOCK_TOKEN_FILE")).
End tokens.

(** ** Facts *)

Lemma or_insert_lookup (k v : string) (m : gmap string string) : or_insert k v m !! k = Some (unwrap_or v (m !! k)).
Proof. unfold or_insert. destruct (m !! k) eqn:E; [done|]. by rewrite lookup_insert_eq. Qed.

Lemma or_insert_lookup_ne (k k' v : string) (m : gmap string string) : k ≠ k' → or_insert k v m !! k' = m !! k'.
Proof. intros. unfold or_insert. destruct (m !! k); [done|]. by rewrite lookup_insert_ne. Qed.

Lemma effective_labels_node n :
  effective_labels n !! "node" = Some (unwrap_or (nc_name n) (nc_labels n !! "node")).
Proof. unfold effective_labels. rewrite or_insert_lookup_ne by done. apply or_insert_lookup. Qed.

Lemma effective_labels_cluster n :
  effective_labels n !! "cluster" = Some (unwrap_or (nc_name n) (nc_labels n !! "cluster")).
Proof. unfold effective_labels. by rewrite or_insert_lookup, or_insert_lookup_ne. Qed.

Lemma effective_labels_config n k v : nc_labels n !! k = Some v → effective_labels n !! k = Some v.
Proof.
  intros H. unfold effective_labels.
  destruct (decide ("cluster" = k)) as [<-|Hc].
  { by rewrite or_insert_lookup, or_insert_lookup_ne, H. }
  rewrite or_insert_lookup_ne by done.
  destruct (decide ("node" = k)) as [<-|Hn]; [by rewrite or_insert_lookup, H|].
  by rewrite or_insert_lookup_ne.
Qed.

Lemma matches_true s n :
  matches s n = true ↔
    (∀ t, sel_tier s = Some t → nc_tier n = Some t)
    ∧ (∀ k v, sel_labels s !! k = Some v → effective_labels n !! k = Some v)
    ∧ (sel_nodes s = [] ∨ nc_name n ∈ sel_nodes s).
Proof.
  unfold matches. rewrite !andb_true_iff, forallb_true. split.
  - intros [[Ht Hl] Hn]. split; [|split].
    + intros t E. rewrite E in Ht. by apply eqb_prop.
    + intros k v E. apply eqb_true. by apply (Hl (k, v)), elem_of_bt_list.
    + destruct (sel_nodes s) as [|x l]; [by left|right].
      apply existsb_true in Hn as (y & Hy & <-%eqb_prop). done.
  - intros (Ht & Hl & Hn). split; [split|].
    + destruct (sel_tier s) as [t|]; [|done]. by apply eqb_true, Ht.
    + intros [k v]. rewrite elem_of_bt_list. intros E. by apply eqb_true, Hl.
    + destruct Hn as [->|Hn]; [done|]. destruct (sel_nodes s) as [|x l] eqn:E; [done|].
      rewrite <-E. apply existsb_true. exists (nc_name n). rewrite E. split; [done|apply eqb_refl].
Qed.
