(* ===== verification/Model.v ===== *)
(** * The federation's state (src/model.rs)

    Nodes, distributed volumes and their legs, exports, snapshots, backups
    and live migrations as the code's structs and enums, with the pure
    operations on them: labels, the size a leg is made at, a clone's parent
    and a volume's dependents, the overlay of configured nodes, I/O rates
    and the RAID profile of a create.

    A [SystemTime] or [Instant] is a number of nanoseconds; a [u64] or [u32]
    is a [Z]. *)

From S2P Require Import Prelude F64 Config.
From stdpp Require Import options.

Local Open Scope string_scope.

Abbreviation time := Z (only parsing).
(** A [Duration] of whole seconds, in nanoseconds. *)
Definition secs (n : Z) : Z := (n * 10 ^ 9)%Z.

(** ** Attach coordinates (src/engine.rs, [AttachedLeg]) *)

Record AttachedLeg := MkAttachedLeg {
  nqn : string;
  traddr : string;
  trsvcid : Z;
  nsid : Z;
  host_nqn : option string;
}.
#[export] Instance AttachedLeg_eq_dec : EqDecision AttachedLeg.
Proof. solve_decision. Defined.

Definition drive_uri (a : AttachedLeg) : string :=
  let u := "nvme-tcp://" +:+ traddr a +:+ ":" +:+ pretty (trsvcid a) +:+ "/" +:+ nqn a
           +:+ "?nsid=" +:+ pretty (nsid a) in
  match host_nqn a with
  | Some h => u +:+ "&hostnqn=" +:+ h
  | None => u
  end.

(** ** Nodes *)

Inductive NodeSource := Static | Registered | Local | Member.
#[export] Instance NodeSource_eq_dec : EqDecision NodeSource.
Proof. solve_decision. Defined.

Record IoLoad := MkIoLoad { iops : f64; busy : f64; io_at : time }.
Record IoSample := MkIoSample { sample_count : f64; sample_sum : f64; sample_at : time }.

Record NodeStatus := MkNodeStatus {
  healthy : bool;
  last_ok : option time;
  consecutive_failures : Z;
  total_bytes : Z;
  free_bytes : Z;
  engine_topology : gmap string string;
  ns_volumes : Z;
  source : NodeSource;
  io : option IoLoad;
  io_sample : option IoSample;
}.
#[export] Instance NodeStatus_eta : Eta NodeStatus := λ r,
  MkNodeStatus (healthy r) (last_ok r) (consecutive_failures r) (total_bytes r) (free_bytes r)
    (engine_topology r) (ns_volumes r) (source r) (io r) (io_sample r).

(** [NodeStatus::new]. *)
Definition NodeStatus_new (src : NodeSource) : NodeStatus :=
  {| healthy := false; last_ok := None; consecutive_failures := 0; total_bytes := 0;
     free_bytes := 0; engine_topology := ∅; ns_volumes := 0; source := src; io := None;
     io_sample := None |}.

Record Node := MkNode { config : NodeConfig; status : NodeStatus }.
#[export] Instance Node_eta : Eta Node := λ r, MkNode (config r) (status r).

(** [Duration::as_secs_f64] of [ns] nanoseconds. *)
Definition as_secs_f64 (ns : Z) : f64 :=
  fadd (of_u64 (ns / 10 ^ 9)) (fdiv (of_u64 (ns mod 10 ^ 9)) (of_u64 (10 ^ 9))).

(** [io_rate]; [now] is the [SystemTime] it stamps. *)
Definition io_rate (prev : option IoSample) (cur : IoSample) (now : time) : option IoLoad :=
  match prev with
  | None => None
  | Some p =>
      if (sample_at cur <? sample_at p)%Z then None else
      let dt := as_secs_f64 (sample_at cur - sample_at p) in
      if fle dt f0 || flt (sample_count cur) (sample_count p) || flt (sample_sum cur) (sample_sum p)
      then None
      else Some {| iops := fdiv (fsub (sample_count cur) (sample_count p)) dt;
                   busy := fdiv (fsub (sample_sum cur) (sample_sum p)) dt;
                   io_at := now |}
  end.

(** [Node::labels]: the engine's topology, overridden by the config's. *)
Definition labels (n : Node) : gmap string string :=
  foldl (λ l '(k, v), <[k := v]> l) (engine_topology (status n))
    (bt_list (effective_labels (config n))).

(** ** Volumes *)

Inductive LegState := Created | LegFailed | Lost.
#[export] Instance LegState_eq_dec : EqDecision LegState.
Proof. solve_decision. Defined.

Definition LegState_debug (s : LegState) : string :=
  match s with Created => "Created" | LegFailed => "Failed" | Lost => "Lost" end.

Record Leg := MkLeg {
  leg_node : string;
  leg_volume_id : option string;
  leg_state : LegState;
  leg_message : option string;
  leg_master_node : option string;
  leg_export : option AttachedLeg;
  leg_drive_uuid : option string;
  leg_member_uuid : option string;
  leg_epoch : option Z;
}.
#[export] Instance Leg_eta : Eta Leg := λ r,
  MkLeg (leg_node r) (leg_volume_id r) (leg_state r) (leg_message r) (leg_master_node r)
    (leg_export r) (leg_drive_uuid r) (leg_member_uuid r) (leg_epoch r).

Inductive AssemblyState := SingleLeg | PendingEngineSupport | Assembled | Degraded | Clone.
#[export] Instance AssemblyState_eq_dec : EqDecision AssemblyState.
Proof. solve_decision. Defined.

Definition AssemblyState_debug (s : AssemblyState) : string :=
  match s with
  | SingleLeg => "SingleLeg" | PendingEngineSupport => "PendingEngineSupport"
  | Assembled => "Assembled" | Degraded => "Degraded" | Clone => "Clone"
  end.

(** [matches!(a, Assembled | Degraded)]: the volume has an array. *)
Definition mirrored (a : AssemblyState) : bool :=
  match a with Assembled | Degraded => true | _ => false end.

Record Replacement := MkReplacement {
  rep_from : string;
  rep_leg : Leg;
  rep_reason : string;
  rep_started_at : time;
}.

Record Orphan := MkOrphan {
  orphan_node : string;
  orphan_volume_id : string;
  orphan_master_node : option string;
  of_volume : string;
  orphan_reason : string;
  orphan_since : time;
}.

Inductive ExportState := ExNone | Published | ExFailed | Revoking.
#[export] Instance ExportState_eq_dec : EqDecision ExportState.
Proof. solve_decision. Defined.

Record HostServe := MkHostServe {
  hs_host_nqn : string;
  dhchap : bool;
  hs_coordinates : option AttachedLeg;
  hs_coordinates_changed : bool;
  served_at : option time;
  hs_message : option string;
}.
#[export] Instance HostServe_eta : Eta HostServe := λ r,
  MkHostServe (hs_host_nqn r) (dhchap r) (hs_coordinates r) (hs_coordinates_changed r)
    (served_at r) (hs_message r).

Record PendingWithdraw := MkPendingWithdraw {
  pw_node : string;
  pw_local_id : option string;
  pw_name : string;
  pw_host_nqn : string;
}.
#[export] Instance PendingWithdraw_eq_dec : EqDecision PendingWithdraw.
Proof. solve_decision. Defined.

Record Export := MkExport {
  ex_state : ExportState;
  ex_volume_id : option string;
  ex_node : option string;
  ex_master_node : option string;
  ex_coordinates : option AttachedLeg;
  published_at : option time;
  coordinates_changed : bool;
  ex_message : option string;
  adopted : bool;
  hosts : list HostServe;
  per_host : bool;
  local_id : option string;
  withdrawing : list PendingWithdraw;
  gone : bool;
}.
#[export] Instance Export_eta : Eta Export := λ r,
  MkExport (ex_state r) (ex_volume_id r) (ex_node r) (ex_master_node r) (ex_coordinates r)
    (published_at r) (coordinates_changed r) (ex_message r) (adopted r) (hosts r) (per_host r)
    (local_id r) (withdrawing r) (gone r).

Definition Export_default : Export :=
  {| ex_state := ExNone; ex_volume_id := None; ex_node := None; ex_master_node := None;
     ex_coordinates := None; published_at := None; coordinates_changed := false;
     ex_message := None; adopted := false; hosts := []; per_host := false; local_id := None;
     withdrawing := []; gone := false |}.

Record DualAttach := MkDualAttach {
  target_node : string;
  da_epoch : Z;
  opened_at : time;
  expires_at : time;
}.

Record StaleHead := MkStaleHead {
  sh_node : string;
  sh_array_id : string;
  sh_drive_uris : list string;
  sh_of_volume : string;
  sh_epoch : Z;
  sh_since : time;
  served_v1 : option string;
}.

Record Expansion := MkExpansion {
  to_bytes : Z;
  exp_started_at : time;
  array_bytes_before : option Z;
  array_grown : bool;
  slab_short : option string;
  exp_message : option string;
}.
#[export] Instance Expansion_eta : Eta Expansion := λ r,
  MkExpansion (to_bytes r) (exp_started_at r) (array_bytes_before r) (array_grown r)
    (slab_short r) (exp_message r).

Inductive VolumeSource := SrcSnapshot (id : string) | SrcVolume (id : string).
Record CloneOf := MkCloneOf { clone_source : VolumeSource; clone_parent : string }.

Inductive MigrationState := Moving | WaitingHandover.
#[export] Instance MigrationState_eq_dec : EqDecision MigrationState.
Proof. solve_decision. Defined.

Record Migration := MkMigration {
  to_pool : string;
  from_pool : option string;
  mig_started_at : time;
  mig_state : MigrationState;
  mig_message : option string;
}.
#[export] Instance Migration_eta : Eta Migration := λ r,
  MkMigration (to_pool r) (from_pool r) (mig_started_at r) (mig_state r) (mig_message r).

Record DistVolume := MkDistVolume {
  name : string;
  size_bytes : Z;
  vol_pool : option string;
  replicas : Z;
  rung : string;
  legs : list Leg;
  assembly : AssemblyState;
  head : option string;
  array_id : option string;
  created_at : time;
  replacing : option Replacement;
  next_releg_after : option time;
  next_assemble_after : option time;
  export : Export;
  epoch : Z;
  fenced : bool;
  bandwidth_class : BandwidthClass;
  extent_size_bytes : option Z;
  rate_pending : bool;
  dual_attach : option DualAttach;
  migration : option Migration;
  clone_of : option CloneOf;
  expanding : option Expansion;
}.
#[export] Instance DistVolume_eta : Eta DistVolume := λ r,
  MkDistVolume (name r) (size_bytes r) (vol_pool r) (replicas r) (rung r) (legs r) (assembly r)
    (head r) (array_id r) (created_at r) (replacing r) (next_releg_after r)
    (next_assemble_after r) (export r) (epoch r) (fenced r) (bandwidth_class r)
    (extent_size_bytes r) (rate_pending r) (dual_attach r) (migration r) (clone_of r)
    (expanding r).

Definition first_epoch : Z := 1.

(** [DistVolume::leg_bytes]. *)
Definition leg_bytes (v : DistVolume) : Z :=
  map_or (size_bytes v) (λ x, Z.max (to_bytes x) (size_bytes v)) (expanding v).

(** The record a create makes (src/api/mod.rs, [create_volume]). *)
Definition new_volume (nm : string) (size : Z) (pool : option string) (reps : Z) (rg : string)
    (ls : list Leg) (now : time) (hs : list HostServe) (class : option BandwidthClass)
    (extent : option Z) : DistVolume :=
  {| name := nm; size_bytes := size; vol_pool := pool; replicas := reps; rung := rg; legs := ls;
     assembly := if (length ls <=? 1)%nat then SingleLeg else PendingEngineSupport;
     head := None; array_id := None; created_at := now; replacing := None; next_releg_after := None;
     next_assemble_after := None;
     export := Export_default <| per_host := match hs with [] => false | _ => true end |> <| hosts := hs |>;
     epoch := 1; fenced := false; bandwidth_class := unwrap_or Normal class;
     extent_size_bytes := extent; rate_pending := false; dual_attach := None; migration := None;
     clone_of := None; expanding := None |}.

(** A created leg (same place). *)
Definition new_leg (node : string) (vid master : option string) : Leg :=
  {| leg_node := node; leg_volume_id := vid; leg_state := Created; leg_message := None;
     leg_master_node := master; leg_export := None; leg_drive_uuid := None;
     leg_member_uuid := None; leg_epoch := None |}.

(** ** Snapshots *)

Record Snapshot := MkSnapshot {
  snap_id : string;
  snap_name : string;
  source_volume_id : string;
  snap_size_bytes : Z;
  snap_ready : bool;
  snap_created_at_ms : Z;
  group_snapshot_id : option string;
  snap_parent : string;
  snap_node : string;
  snap_engine_name : string;
  snap_engine_id : option string;
}.

Record GroupSnapshot := MkGroupSnapshot {
  gs_id : string;
  gs_name : string;
  gs_members : list string;
  gs_ready : bool;
  gs_created_at_ms : Z;
  gs_node : string;
  gs_engine_id : option string;
}.

(** ** Backups *)

Record BackupPolicy := MkBackupPolicy {
  bp_pool : option string;
  bp_tier : option string;
  bp_node : option string;
  bp_interval_secs : Z;
  bp_keep : Z;
}.

Inductive BackupState := Idle | Shipping | WaitingEngine | BkFailed.

Record ShipSnapshot := MkShipSnapshot {
  ship_node : string;
  ship_engine_name : string;
  ship_engine_id : option string;
  ship_taken_at_ms : Z;
}.

Record ShipJob := MkShipJob {
  job_id : string;
  job_snapshot : ShipSnapshot;
  job_bytes_total : Z;
  job_bytes_done : Z;
}.

Record BackupPoint := MkBackupPoint {
  point_name : string;
  point_taken_at_ms : Z;
  point_engine_id : option string;
}.

Record Backup := MkBackup {
  bk_volume : string;
  bk_size_bytes : Z;
  bk_policy : option BackupPolicy;
  bk_node : option string;
  target_volume_id : option string;
  target_master : option string;
  target_attach : option AttachedLeg;
  attached_for : option string;
  bk_base : option ShipSnapshot;
  bk_job : option ShipJob;
  points : list BackupPoint;
  bk_state : BackupState;
  bk_message : option string;
  next_at_ms : Z;
  source_deleted : bool;
}.

Definition backup_target_name (volume : string) : string := volume +:+ "-backup".

(** ** Live migrations of node volumes *)

Record TargetPlacement := MkTargetPlacement { tp_kind : string; tp_name : string; tp_id : string }.

Inductive VmMigrationState :=
  | Starting | Copying | Synced | CutOver | Completed | Aborted | VmFailed.

Definition terminal (s : VmMigrationState) : bool :=
  match s with Completed | Aborted => true | _ => false end.

Record VmMigration := MkVmMigration {
  vm_id : string;
  vm_source_node : string;
  source_volume_id_ : string;
  source_name : string;
  vm_size_bytes : Z;
  vm_target_node : string;
  target_name : string;
  vm_target_volume_id : option string;
  target_local_id : option string;
  vm_target_attach : option AttachedLeg;
  vm_placement : option TargetPlacement;
  mirror_target : option string;
  vm_state : VmMigrationState;
  bytes_total : Z;
  bytes_remaining : Z;
  vm_message : option string;
  aborting : bool;
  started_at_ms : Z;
  updated_at_ms : Z;
}.

(** ** The federation *)

Record FedState := MkFedState {
  revision : Z;
  nodes : gmap string Node;
  volumes : gmap string DistVolume;
  orphans : list Orphan;
  stale_heads : list StaleHead;
  snapshots : gmap string Snapshot;
  group_snapshots : gmap string GroupSnapshot;
  backups : gmap string Backup;
  vm_migrations : gmap string VmMigration;
}.
#[export] Instance FedState_eta : Eta FedState := λ r,
  MkFedState (revision r) (nodes r) (volumes r) (orphans r) (stale_heads r) (snapshots r)
    (group_snapshots r) (backups r) (vm_migrations r).

Definition FedState_default : FedState := MkFedState 0 ∅ ∅ [] [] ∅ ∅ ∅ ∅.

(** [fed.revision += 1]. *)
Definition bump (fed : FedState) : FedState := fed <| revision ::= λ r, u64_add r 1 |>.

(** [FedState::parent_of]. *)
Definition parent_of (fed : FedState) (vol : DistVolume) : option DistVolume :=
  match clone_of vol with
  | None => Some vol
  | Some c => volumes fed !! clone_parent c
  end.

(** [FedState::dependents_of]. *)
Definition dependents_of (fed : FedState) (nm : string) : list string :=
  map (λ v, "clone " +:+ name v)
    (List.filter (λ v, is_some_and (λ c, clone_parent c == nm) (clone_of v)) (bt_values (volumes fed)))
  ++ map (λ s, "snapshot " +:+ snap_name s)
    (List.filter (λ s, (snap_parent s == nm) || (source_volume_id s == nm)) (bt_values (snapshots fed))).

(** [FedState::apply_config_nodes]. *)
Definition apply_config_node (fed : FedState) (nc : NodeConfig) : FedState :=
  match nodes fed !! nc_name nc with
  | Some n => fed <| nodes ::= <[nc_name nc := n <| config := nc |> <| status ::= λ s, s <| source := Static |> |>]> |>
  | None => fed <| nodes ::= <[nc_name nc := MkNode nc (NodeStatus_new Static)]> |>
  end.
Definition apply_config_nodes (fed : FedState) (configured : list NodeConfig) : FedState :=
  foldl apply_config_node fed configured.

(** [fed.nodes.get(n).is_some_and(|x| x.status.healthy)]. *)
Definition node_healthy (fed : FedState) (n : string) : bool :=
  is_some_and (λ x, healthy (status x)) (nodes fed !! n).

(** [fed.volumes.get_mut(name)] followed by an assignment. *)
Definition update_volume (fed : FedState) (nm : string) (f : DistVolume → DistVolume) : FedState :=
  fed <| volumes ::= alter f nm |>.

(** ** RAID profiles *)

Inductive RaidProfile := RaidNone | Mirror | Parity1 | Parity2.
#[export] Instance RaidProfile_eq_dec : EqDecision RaidProfile.
Proof. solve_decision. Defined.

(** [RaidProfile::of]; a leg count is cast to [u32]. *)
Definition RaidProfile_of (vol : DistVolume) : RaidProfile :=
  if (1 <? Z.max (replicas vol) (as_u32 (Z.of_nat (length (legs vol)))))%Z then Mirror else RaidNone.

(** [RaidProfile::replicas]. *)
Definition RaidProfile_replicas (p : RaidProfile) (asked pool_default : option Z) : result Z string :=
  match p with
  | RaidNone =>
      match asked with
      | None => Ok 1%Z
      | Some n =>
          if (n =? 1)%Z then Ok 1%Z
          else Err ("raid " +:+ debug_str "none" +:+ " is one leg; replicas " +:+ pretty n +:+ " asks for a mirror")
      end
  | Mirror =>
      match asked with
      | Some n =>
          if (n <? 2)%Z then Err ("raid " +:+ debug_str "mirror" +:+ " needs at least 2 replicas, not " +:+ pretty n)
          else Ok n
      | None => Ok (Z.max (unwrap_or 2%Z pool_default) 2)
      end
  | Parity1 | Parity2 =>
      Err ("parity volumes are not built yet (stormstorage#72: a parity engine on the head and replace-member for parity arrays come first); use "
           +:+ debug_str "mirror" +:+ " or " +:+ debug_str "none")
  end.

(** ** Facts *)

(** A well-formed federation keys every node and volume by its own name. *)
Record fed_wf (fed : FedState) : Prop := {
  wf_nodes : ∀ k n, nodes fed !! k = Some n → nc_name (config n) = k;
  wf_volumes : ∀ k v, volumes fed !! k = Some v → name v = k;
}.

Lemma foldl_insert_lookup (l : list (string * string)) (m : gmap string string) (k : string) :
  NoDup l.*1 →
  foldl (λ l '(k, v), <[k := v]> l) m l !! k =
    match (list_to_map l : gmap string string) !! k with Some v => Some v | None => m !! k end.
Proof.
  revert m. induction l as [|[k' v'] l IH]; intros m; simpl; [by rewrite lookup_empty|].
  rewrite NoDup_cons. intros [Hk' Hl]. rewrite IH by done.
  destruct (decide (k' = k)) as [->|Hne].
  - rewrite lookup_insert_eq. by rewrite (not_elem_of_list_to_map_1 l k Hk'), lookup_insert_eq.
  - by rewrite !lookup_insert_ne.
Qed.

Lemma list_to_map_bt_list {V} (m : gmap string V) : list_to_map (bt_list m) = m.
Proof.
  apply map_eq. intros k. apply option_eq. intros v.
  rewrite <-elem_of_list_to_map by apply bt_list_NoDup. apply elem_of_bt_list.
Qed.

Lemma labels_lookup (n : Node) (k : string) :
  labels n !! k =
    match effective_labels (config n) !! k with
    | Some v => Some v
    | None => engine_topology (status n) !! k
    end.
Proof. unfold labels. rewrite foldl_insert_lookup by apply bt_list_NoDup. by rewrite list_to_map_bt_list. Qed.

(** The configured labels win, and a node always has a [node] label. *)
Lemma labels_config_wins (n : Node) (k v : string) :
  nc_labels (config n) !! k = Some v → labels n !! k = Some v.
Proof. intros H. rewrite labels_lookup. by rewrite (effective_labels_config _ _ _ H). Qed.

Lemma labels_has_node (n : Node) : is_Some (labels n !! "node").
Proof. rewrite labels_lookup, effective_labels_node. done. Qed.

Lemma leg_bytes_ge (v : DistVolume) : (size_bytes v ≤ leg_bytes v)%Z.
Proof. unfold leg_bytes. destruct (expanding v); simpl; lia. Qed.

Lemma node_healthy_true (fed : FedState) (n : string) :
  node_healthy fed n = true ↔ ∃ x, nodes fed !! n = Some x ∧ healthy (status x) = true.
Proof. unfold node_healthy. apply is_some_and_true. Qed.

Lemma update_volume_lookup (fed : FedState) (nm : string) (f : DistVolume → DistVolume) (k : string) :
  volumes (update_volume fed nm f) !! k =
    if decide (nm = k) then f <$> volumes fed !! k else volumes fed !! k.
Proof. unfold update_volume. simpl. rewrite lookup_alter. by destruct (decide (nm = k)) as [<-|]. Qed.

Lemma dependents_of_nil (fed : FedState) (nm : string) :
  dependents_of fed nm = [] ↔
    (∀ k v c, volumes fed !! k = Some v → clone_of v = Some c → clone_parent c ≠ nm)
    ∧ (∀ k s, snapshots fed !! k = Some s → snap_parent s ≠ nm ∧ source_volume_id s ≠ nm).
Proof.
  unfold dependents_of. split.
  - intros [Hc%map_eq_nil Hs%map_eq_nil]%app_eq_nil. split.
    + intros k v c Hv Hvc Hp.
      assert (v ∈ @nil DistVolume) as []%not_elem_of_nil. rewrite <-Hc, elem_of_filterb, elem_of_bt_values.
      split; [by eauto|]. rewrite Hvc. simpl. by apply eqb_true.
    + intros k s Hk.
      assert (¬ (snap_parent s = nm ∨ source_volume_id s = nm)) as Hn; [|by split; intros ?; apply Hn; auto].
      intros Hor. assert (s ∈ @nil Snapshot) as []%not_elem_of_nil.
      rewrite <-Hs, elem_of_filterb, elem_of_bt_values. split; [by eauto|].
      by rewrite orb_true_iff, !eqb_true.
  - intros [Hc Hs].
    assert (∀ {A} (p : A → bool) l, (∀ x, x ∈ l → p x = false) → List.filter p l = []) as Hf.
    { intros A p l. induction l as [|x l IH]; simpl; intros H; [done|].
      rewrite (H x) by left. apply IH. intros y ?. apply H. by right. }
    rewrite !Hf; [done| |].
    + intros s (k & Hk)%elem_of_bt_values. destruct (Hs k s Hk).
      by rewrite orb_false_iff, !eqb_false.
    + intros v (k & Hk)%elem_of_bt_values. destruct (clone_of v) as [c|] eqn:E; simpl; [|done].
      apply eqb_false. by eapply Hc.
Qed.

Lemma apply_config_node_lookup (fed : FedState) (nc : NodeConfig) (k : string) :
  nodes (apply_config_node fed nc) !! k =
    if decide (nc_name nc = k)
    then Some (MkNode nc (match nodes fed !! k with
                          | Some n => (status n) <| source := Static |>
                          | None => NodeStatus_new Static
                          end))
    else nodes fed !! k.
Proof.
  unfold apply_config_node. destruct (decide (nc_name nc = k)) as [<-|Hne].
  - destruct (nodes fed !! nc_name nc); simpl; by rewrite lookup_insert_eq.
  - destruct (nodes fed !! nc_name nc); simpl; by rewrite lookup_insert_ne.
Qed.
