(* ===== verification/Placement.v ===== *)
(** * Placement (src/placement.rs)

    Which nodes a volume's legs go to: one node per failure domain at a
    rung, the best-scoring node of each domain, the best-scoring domains
    first. The functions are pure; scores are binary64 numbers.

    Shown: a plan that succeeds picks exactly the asked number of fitting
    candidates in pairwise distinct domains; it succeeds exactly when such a
    choice exists; without NaN scores the choice is the greedy optimum; and
    a preferred node that fits leads, with the same guarantees. *)

From S2P Require Import Prelude F64.
From stdpp Require Import options.

Local Open Scope string_scope.

Record Candidate := MkCandidate {
  cand_name : string;
  cand_labels : gmap string string;
  cand_free_bytes : Z;
  cand_total_bytes : Z;
  io_busy : option f64;
}.

(** [Candidate::free_ratio]. *)
Definition free_ratio (c : Candidate) : f64 :=
  if (cand_total_bytes c =? 0)%Z then f0
  else fdiv (of_u64 (cand_free_bytes c)) (of_u64 (cand_total_bytes c)).

(** The loop of [domain_at]: the labels of the rungs down to [rung]. *)
Fixpoint domain_parts (labels : gmap string string) (rungs : list string) (rung : string) : list string :=
  match rungs with
  | [] => []
  | r :: rungs =>
      option_list (labels !! r) ++ (if r == rung then [] else domain_parts labels rungs rung)
  end.

Definition domain_at (labels : gmap string string) (rungs : list string) (rung : string) : string :=
  match domain_parts labels rungs rung with
  | [] => unwrap_or "?" (labels !! "node")
  | parts => join "/" parts
  end.

Definition scores (cands : list Candidate) (io_weight : f64) : gmap string f64 :=
  let w := clamp io_weight f0 f1 in
  let known := map (λ b, fmax b f0) (omap io_busy cands) in
  let max := foldl fmax f0 known in
  let mean := match known with
              | [] => f0
              | _ => fdiv (fsum known) (of_u64 (Z.of_nat (length known)))
              end in
  foldl (λ m c,
    let busy := unwrap_or mean ((λ b, fmax b f0) <$> io_busy c) in
    let cold := if fgt max f0 then fsub f1 (fdiv busy max) else f1 in
    <[cand_name c := fadd (fmul (fsub f1 w) (free_ratio c)) (fmul w cold)]> m) ∅ cands.

(** [let s = |c| score.get(&c.name).copied().unwrap_or(0.0)]. *)
Definition score_of (score : gmap string f64) (c : Candidate) : f64 :=
  unwrap_or f0 (score !! cand_name c).

Definition fits (size_bytes : Z) (c : Candidate) : bool := (size_bytes <=? cand_free_bytes c)%Z.

(** [c] replaces [cur]: [s(c) > s(cur) || (s(c) == s(cur) && c.name < cur.name)]. *)
Definition better (s : Candidate → f64) (c cur : Candidate) : bool :=
  fgt (s c) (s cur) || (feq (s c) (s cur) && String.ltb (cand_name c) (cand_name cur)).

Definition best_step (s : Candidate → f64) (dom : Candidate → string)
    (domains : gmap string Candidate) (c : Candidate) : gmap string Candidate :=
  let d := dom c in
  let replace := match domains !! d with
                 | None => true
                 | Some cur => better s c cur
                 end in
  if replace then <[d := c]> domains else domains.

(** The order of [picks.sort_by]. *)
Definition pick_cmp (s : Candidate → f64) (a b : Candidate) : comparison :=
  cmp_then (unwrap_or Eq (partial_cmp (s b) (s a))) (String.compare (cand_name a) (cand_name b)).

Definition plan (candidates : list Candidate) (rungs : list string) (rung : string)
    (replicas size_bytes : Z) (io_weight : f64) : result (list string) string :=
  let fitting := List.filter (fits size_bytes) candidates in
  match fitting with
  | [] => Err ("no node with " +:+ pretty size_bytes +:+ " bytes free ("
               +:+ pretty (Z.of_nat (length candidates)) +:+ " candidates)")
  | _ =>
      let score := scores fitting io_weight in
      let s := score_of score in
      let domains :=
        foldl (best_step s (λ c, domain_at (cand_labels c) rungs rung)) ∅ fitting in
      if (as_u32 (Z.of_nat (size domains)) <? replicas)%Z then
        Err ("need " +:+ pretty replicas +:+ " distinct domains at rung " +:+ debug_str rung
             +:+ ", found " +:+ pretty (Z.of_nat (size domains)) +:+ ": ["
             +:+ join ", " (bt_keys domains) +:+ "]")
      else
        let picks := sort_by (pick_cmp s) (bt_values domains) in
        Ok (map cand_name (take (Z.to_nat replicas) picks))
  end.

Definition plan_preferring (candidates : list Candidate) (rungs : list string) (rung : string)
    (replicas size_bytes : Z) (io_weight : f64) (prefer : option string)
    : result (list string * bool) string :=
  let fallback :=
    let? p := plan candidates rungs rung replicas size_bytes io_weight in Ok (p, false) in
  match p ← prefer; find_first (λ c, cand_name c == p) candidates with
  | Some p =>
      if fits size_bytes p && (1 <=? replicas)%Z then
        let d := domain_at (cand_labels p) rungs rung in
        let rest := List.filter (λ c, domain_at (cand_labels c) rungs rung != d) candidates in
        let others := if (replicas =? 1)%Z then Ok []
                      else plan rest rungs rung (replicas - 1) size_bytes io_weight in
        match others with
        | Ok others => Ok (cand_name p :: others, true)
        | Err _ => fallback
        end
      else fallback
  | None => fallback
  end.

(** ** Examples: the unit tests of the source *)

Definition ex_cand (n : string) (ls : list (string * string)) (free total : Z) : Candidate :=
  {| cand_name := n; cand_labels := list_to_map ls; cand_free_bytes := free;
     cand_total_bytes := total; io_busy := None |}.
Definition ex_rungs : list string := ["site"; "rack"; "cluster"; "node"].
(** [0.3] as binary64. *)
Definition ex_w : f64 := fdiv (of_u64 3) (of_u64 10).
Definition ex_cands : list Candidate :=
  [ex_cand "a1" [("rack", "r1"); ("node", "a1")] 50 100;
   ex_cand "a2" [("rack", "r1"); ("node", "a2")] 90 100;
   ex_cand "b1" [("rack", "r2"); ("node", "b1")] 60 100].

Example spreads_across_distinct_domains :
  plan ex_cands ex_rungs "rack" 2 10 ex_w = Ok ["a2"; "b1"].
Proof. vm_compute. reflexivity. Qed.

Example hot_nodes_shed_new_legs :
  let hot n free b := {| cand_name := n; cand_labels := {["node" := n]}; cand_free_bytes := free;
                         cand_total_bytes := 100; io_busy := Some (of_u64 b) |} in
  plan [hot "a" 90%Z 8%Z; hot "b" 50%Z 1%Z] ex_rungs "node" 1 1 ex_w = Ok ["a"]
  ∧ plan [hot "a" 90%Z 8%Z; hot "b" 50%Z 1%Z] ex_rungs "node" 1 1 (fdiv f1 (of_u64 2)) = Ok ["b"].
Proof. split; vm_compute; reflexivity. Qed.

Example insufficient_domains_is_a_hard_error :
  is_err (plan (take 2 ex_cands) ex_rungs "rack" 2 10 ex_w) = true
  ∧ plan (take 2 ex_cands) ex_rungs "node" 2 10 ex_w = Ok ["a2"; "a1"].
Proof. split; vm_compute; reflexivity. Qed.

(** ** The order of scored candidates *)

Lemma string_compare_antisym (a b : string) : String.compare b a = CompOpp (String.compare a b).
Proof. rewrite (String.compare_antisym a b). by destruct (String.compare b a). Qed.

Lemma string_compare_Gt_leb (a b : string) : String.compare a b ≠ Gt ↔ String.le a b.
Proof. unfold String.le, String.leb. by destruct (String.compare a b). Qed.

Lemma string_compare_trans (a b c : string) :
  String.compare a b ≠ Gt → String.compare b c ≠ Gt → String.compare a c ≠ Gt.
Proof. rewrite !string_compare_Gt_leb. apply transitivity. Qed.

Section order.
Context (s : Candidate → f64).
(** The candidates whose score is a number. *)
Definition scored (c : Candidate) : Prop := is_nan (s c) = false.
Lemma pick_cmp_key a b : scored a → scored b →
  pick_cmp s a b = cmp_then (lex (key (s b)) (key (s a))) (String.compare (cand_name a) (cand_name b)).
Proof. intros Ha Hb. unfold pick_cmp. by rewrite partial_cmp_key. Qed.
Lemma pick_cmp_antisym a b : scored a → scored b → pick_cmp s b a = CompOpp (pick_cmp s a b).
Proof.
  intros. rewrite !pick_cmp_key, (lex_antisym (key (s b)) (key (s a))) by done.
  rewrite (string_compare_antisym (cand_name a)).
  by destruct (lex (key (s b)) (key (s a))).
Qed.
Lemma pick_cmp_flip a b : scored a → scored b → pick_cmp s a b = Gt → pick_cmp s b a ≠ Gt.
Proof. intros ?? H. rewrite pick_cmp_antisym by done. by rewrite H. Qed.
Lemma cmp_then_not_Gt c d : cmp_then c d ≠ Gt ↔ c = Lt ∨ c = Eq ∧ d ≠ Gt.
Proof. destruct c; simpl; split; intros; destruct_or?; destruct_and?; auto; done. Qed.
Lemma pick_cmp_trans a b c : scored a → scored b → scored c →
  pick_cmp s a b ≠ Gt → pick_cmp s b c ≠ Gt → pick_cmp s a c ≠ Gt.
Proof.
  intros Ha Hb Hc. rewrite !pick_cmp_key, !cmp_then_not_Gt, !lex_Eq, !lex_Lt by done.
  intros [H1|[E1 N1]] [H2|[E2 N2]].
  - left. lia.
  - left. rewrite E2. lia.
  - left. rewrite <-E1. lia.
  - right. split; [congruence|]. by eapply string_compare_trans.
Qed.
Lemma better_pick_cmp a b : scored a → scored b → better s a b = true ↔ pick_cmp s a b = Lt.
Proof.
  intros Ha Hb. rewrite pick_cmp_key by done. unfold better, fgt.
  rewrite orb_true_iff, andb_true_iff.
  rewrite flt_key, feq_key, <-lex_Eq by done. rewrite (lex_antisym (key (s b)) (key (s a))).
  unfold String.ltb.
  destruct (lex (key (s b)) (key (s a))), (String.compare (cand_name a) (cand_name b)); simpl;
    split; intros; destruct_or?; destruct_and?; auto; done.
Qed.
Lemma not_better_pick_cmp a b : scored a → scored b → better s a b = false ↔ pick_cmp s b a ≠ Gt.
Proof.
  intros. rewrite <-not_true_iff_false, better_pick_cmp, (pick_cmp_antisym a b) by done.
  by destruct (pick_cmp s a b).
Qed.
End order.

(** ** The best candidate of each domain *)

Ltac case_replace :=
  match goal with |- context [if ?b then _ else _] => destruct b eqn:? end.

Section best.
Context (s : Candidate → f64) (dom : Candidate → string).
Implicit Types (l : list Candidate) (m : gmap string Candidate).
Definition best l : gmap string Candidate := foldl (best_step s dom) ∅ l.
Lemma best_snoc l c : best (l ++ [c]) = best_step s dom (best l) c.
Proof. unfold best. by rewrite foldl_snoc. Qed.
Lemma best_step_lookup m c d x :
  best_step s dom m c !! d = Some x → m !! d = Some x ∨ x = c ∧ dom c = d.
Proof.
  unfold best_step. case_replace; [|by left].
  destruct (decide (dom c = d)) as [<-|]; [rewrite lookup_insert_eq|rewrite lookup_insert_ne by done].
  - intros [= ->]. by right.
  - by left.
Qed.
Lemma best_elem l d x : best l !! d = Some x → x ∈ l ∧ dom x = d.
Proof.
  induction l as [|c l IH] using rev_ind; [unfold best; simpl; by rewrite lookup_empty|].
  rewrite best_snoc, elem_of_app, list_elem_of_singleton.
  intros [H|[-> <-]]%best_step_lookup; [|by auto]. destruct (IH H). auto.
Qed.
Lemma best_covers l x : x ∈ l → is_Some (best l !! dom x).
Proof.
  induction l as [|c l IH] using rev_ind; [intros ?%not_elem_of_nil; done|].
  rewrite best_snoc, elem_of_app, list_elem_of_singleton. unfold best_step. intros [H| ->].
  - destruct (IH H) as [y Hy]. case_replace; [|by exists y].
    destruct (decide (dom c = dom x)) as [->|]; [rewrite lookup_insert_eq|rewrite lookup_insert_ne by done];
      by eexists.
  - destruct (best l !! dom c) as [y|] eqn:E; [|by rewrite lookup_insert_eq].
    destruct (better s c y); [by rewrite lookup_insert_eq|by exists y].
Qed.
Lemma pick_cmp_refl x : scored s x → pick_cmp s x x ≠ Gt.
Proof. intros. rewrite pick_cmp_key, lex_refl by done. by apply string_compare_Gt_leb. Qed.
(** One step: the domain's candidate is at least the old one and the new. *)
Lemma best_step_improves m c y :
  scored s c → (∀ z, m !! dom c = Some z → scored s z) →
  best_step s dom m c !! dom c = Some y →
  pick_cmp s y c ≠ Gt ∧ (∀ z, m !! dom c = Some z → pick_cmp s y z ≠ Gt).
Proof.
  intros Hc Hm. unfold best_step. destruct (m !! dom c) as [cur|] eqn:E.
  - pose proof (Hm _ eq_refl) as Hcur. case_replace.
    + rewrite lookup_insert_eq. intros [= <-]. split; [by apply pick_cmp_refl|].
      intros z [= <-]. apply better_pick_cmp in Heqb; [congruence|done..].
    + rewrite E. intros [= <-]. split; [by apply not_better_pick_cmp|].
      intros z [= <-]. by apply pick_cmp_refl.
  - rewrite lookup_insert_eq. intros [= <-]. split; [by apply pick_cmp_refl|done].
Qed.
Lemma best_step_lookup_ne m c d : dom c ≠ d → best_step s dom m c !! d = m !! d.
Proof. intros. unfold best_step. case_replace; [by rewrite lookup_insert_ne|done]. Qed.
(** Without NaN, no candidate of a domain beats the one kept for it. *)
Lemma best_optimal l x y :
  Forall (scored s) l → x ∈ l → best l !! dom x = Some y → pick_cmp s y x ≠ Gt.
Proof.
  revert y. induction l as [|c l IH] using rev_ind; [intros y _ ?%not_elem_of_nil; done|].
  intros y [HF Hc]%Forall_app Hx%elem_of_app. rewrite best_snoc.
  rewrite Forall_singleton in Hc.
  assert (∀ z, best l !! dom c = Some z → scored s z) as Hz.
  { intros z [Hz _]%best_elem. by eapply Forall_forall in HF. }
  destruct (decide (dom c = dom x)) as [Hd|Hd].
  - rewrite <-Hd. intros Hy. pose proof Hy as Hy'.
    apply best_step_improves in Hy as [Hyc Hyz]; [|done..].
    destruct Hx as [Hx|Hx%list_elem_of_singleton]; [|by subst].
    destruct (best_covers l x Hx) as [z Hbz]. rewrite <-Hd in Hbz.
    apply (pick_cmp_trans s y z x); [|by apply Hz|by eapply Forall_forall in HF|by apply Hyz|].
    + apply best_step_lookup in Hy' as [Hy'|[-> _]]; [by apply Hz|done].
    + apply IH; [done..|]. by rewrite <-Hd.
  - rewrite best_step_lookup_ne by done.
    destruct Hx as [Hx|Hx%list_elem_of_singleton]; [by apply IH|by subst].
Qed.
Lemma best_values l : Forall (λ c, c ∈ l) (bt_values (best l)).
Proof.
  apply Forall_forall. intros c (d & Hd)%elem_of_bt_values. by apply best_elem in Hd as [? _].
Qed.
Lemma best_values_domains l : dom <$> bt_values (best l) = bt_keys (best l).
Proof.
  unfold bt_values, bt_keys. rewrite <-list_fmap_compose. apply list_fmap_ext.
  intros i [d c] Hi%list_elem_of_lookup_2. apply elem_of_bt_list, best_elem in Hi as [_ ?]. done.
Qed.
Lemma best_values_NoDup l : NoDup (dom <$> bt_values (best l)).
Proof. rewrite best_values_domains. apply bt_keys_NoDup. Qed.
(** Any choice of one candidate per domain is no longer than [best]. *)
Lemma best_size l (cs : list Candidate) :
  Forall (λ c, c ∈ l) cs → NoDup (dom <$> cs) → (length cs ≤ size (best l))%nat.
Proof.
  intros Hcs Hnd.
  rewrite <-length_map_to_list, <-(length_fmap fst), <-(length_fmap dom).
  apply submseteq_length, NoDup_submseteq; [done|].
  intros d (c & -> & Hc)%list_elem_of_fmap. rewrite Forall_forall in Hcs.
  destruct (best_covers l c (Hcs _ Hc)) as [x Hx].
  apply list_elem_of_fmap. exists (dom c, x). split; [done|]. by apply elem_of_map_to_list.
Qed.
Lemma best_values_length l : length (bt_values (best l)) = size (best l).
Proof. unfold bt_values. rewrite length_fmap, bt_list_perm, length_map_to_list. done. Qed.
Lemma best_size_le l : (size (best l) ≤ length l)%nat.
Proof.
  induction l as [|c l IH] using rev_ind; [done|].
  rewrite best_snoc, length_app. simpl. unfold best_step.
  case_replace; [|lia].
  rewrite map_size_insert. destruct (best l !! dom c); simpl; lia.
Qed.
End best.

(** ** What a plan promises

    A placement of a volume's legs: [n] fitting candidates in pairwise
    distinct failure domains at the rung. *)

Definition domain_of (rungs : list string) (rung : string) (c : Candidate) : string :=
  domain_at (cand_labels c) rungs rung.

Record spread (candidates : list Candidate) (rungs : list string) (rung : string)
    (n size_bytes : Z) (cs : list Candidate) : Prop := {
  spread_length : length cs = Z.to_nat n;
  spread_fits : Forall (λ c, c ∈ candidates ∧ (size_bytes ≤ cand_free_bytes c)%Z) cs;
  spread_domains : NoDup (domain_of rungs rung <$> cs);
}.

Section plan.
Context (candidates : list Candidate) (rungs : list string) (rung : string).
Context (replicas size_bytes : Z) (io_weight : f64).
Definition fitting : list Candidate := List.filter (fits size_bytes) candidates.
Definition plan_score : Candidate → f64 := score_of (scores fitting io_weight).
Definition plan_domains : gmap string Candidate := best plan_score (domain_of rungs rung) fitting.
Definition plan_picks : list Candidate :=
  take (Z.to_nat replicas) (sort_by (pick_cmp plan_score) (bt_values plan_domains)).
Lemma elem_of_fitting c : c ∈ fitting ↔ c ∈ candidates ∧ (size_bytes ≤ cand_free_bytes c)%Z.
Proof. unfold fitting, fits. rewrite elem_of_filterb. by rewrite Z.leb_le. Qed.
Lemma plan_Ok_inv picks :
  plan candidates rungs rung replicas size_bytes io_weight = Ok picks →
  fitting ≠ [] ∧ (replicas ≤ as_u32 (Z.of_nat (size plan_domains)))%Z
  ∧ picks = map cand_name plan_picks.
Proof.
  unfold plan, plan_picks. fold fitting.
  destruct fitting as [|f fs] eqn:E; [done|]. rewrite <-E.
  change (foldl _ ∅ fitting) with plan_domains. fold plan_score.
  destruct (Z.ltb_spec (as_u32 (Z.of_nat (size plan_domains))) replicas); [done|].
  intros [= <-]. split; [by rewrite E|done].
Qed.
Lemma as_u32_le n : (as_u32 (Z.of_nat n) ≤ Z.of_nat n)%Z.
Proof. unfold as_u32. apply Z.mod_le; lia. Qed.
Lemma plan_domains_perm :
  sort_by (pick_cmp plan_score) (bt_values plan_domains) ≡ₚ bt_values plan_domains.
Proof. apply sort_by_perm. Qed.
Lemma plan_picks_elem c : c ∈ plan_picks → c ∈ bt_values plan_domains.
Proof.
  unfold plan_picks. intros H%elem_of_take. destruct H as (i & H%list_elem_of_lookup_2 & _).
  by rewrite plan_domains_perm in H.
Qed.
Lemma plan_picks_spread :
  (replicas ≤ as_u32 (Z.of_nat (size plan_domains)))%Z →
  spread candidates rungs rung replicas size_bytes plan_picks.
Proof.
  intros Hn. pose proof (as_u32_le (size plan_domains)). split.
  - unfold plan_picks. rewrite length_take, (Permutation_length plan_domains_perm).
    unfold plan_domains. rewrite best_values_length. fold plan_domains. lia.
  - apply Forall_forall. intros c Hc. apply elem_of_fitting.
    pose proof (best_values plan_score (domain_of rungs rung) fitting) as HF.
    rewrite Forall_forall in HF. by apply HF, plan_picks_elem.
  - apply (sublist_NoDup _ (domain_of rungs rung <$>
      sort_by (pick_cmp plan_score) (bt_values plan_domains))).
    + rewrite plan_domains_perm. apply best_values_NoDup.
    + apply fmap_sublist, sublist_take.
Qed.
End plan.

Lemma plan_elem candidates rungs rung replicas size_bytes io_weight picks p :
  plan candidates rungs rung replicas size_bytes io_weight = Ok picks → p ∈ picks →
  ∃ c, c ∈ candidates ∧ (size_bytes ≤ cand_free_bytes c)%Z ∧ p = cand_name c.
Proof.
  intros H Hp. apply plan_Ok_inv in H as (_ & Hn & ->). apply list_elem_of_fmap in Hp as (c & -> & Hc).
  destruct (plan_picks_spread _ _ _ _ _ _ Hn) as [_ Hf _]. rewrite Forall_forall in Hf.
  destruct (Hf c Hc). by exists c.
Qed.

Lemma plan_ok_spread candidates rungs rung replicas size_bytes io_weight picks :
  plan candidates rungs rung replicas size_bytes io_weight = Ok picks →
  ∃ cs, picks = map cand_name cs ∧ spread candidates rungs rung replicas size_bytes cs.
Proof.
  intros H. apply plan_Ok_inv in H as (_ & Hn & ->). eexists. split; [done|]. by apply plan_picks_spread.
Qed.

(** C13: a plan that succeeds names exactly the asked number of candidates
    with room for the volume, in pairwise distinct failure domains at the
    rung: losing one domain loses at most one leg. *)
Theorem plan_spreads candidates rungs rung replicas size_bytes io_weight picks
  (H : plan candidates rungs rung replicas size_bytes io_weight = Ok picks) :
  ∃ cs, picks = map cand_name cs ∧ spread candidates rungs rung replicas size_bytes cs.
Proof. by eapply plan_ok_spread. Qed.

Lemma plan_spreads_witness :
  ∃ cs, ["a2"; "b1"] = map cand_name cs ∧ spread ex_cands ex_rungs "rack" 2 10 cs.
Proof. apply (plan_spreads ex_cands ex_rungs "rack" 2 10 ex_w). vm_compute. reflexivity. Defined.

Lemma plan_ok_iff candidates rungs rung replicas size_bytes io_weight
  (Hlen : (Z.of_nat (length candidates) ≤ u32_max)%Z) :
  is_ok (plan candidates rungs rung replicas size_bytes io_weight) = true ↔
    (∃ c, c ∈ candidates ∧ (size_bytes ≤ cand_free_bytes c)%Z)
    ∧ ∃ cs, spread candidates rungs rung replicas size_bytes cs.
Proof.
  split.
  - destruct (plan _ _ _ _ _ _) as [picks|] eqn:E; [intros _|done].
    pose proof E as (Hf & Hn & ->)%plan_Ok_inv. split; [|eexists; by apply plan_picks_spread].
    destruct (fitting candidates size_bytes) as [|c l] eqn:E'; [done|].
    exists c. apply elem_of_fitting. rewrite E'. by left.
  - intros [(c & Hc) (cs & [Hl Hfit Hnd])]. apply elem_of_fitting in Hc.
    unfold plan. fold (fitting candidates size_bytes).
    destruct (fitting candidates size_bytes) as [|f fs] eqn:E; [by apply not_elem_of_nil in Hc|].
    rewrite <-E in *. set (D := foldl _ ∅ _).
    assert (length cs ≤ size D)%nat.
    { apply best_size; [|done]. rewrite Forall_forall in Hfit |- *.
      intros x Hx. by apply elem_of_fitting, Hfit. }
    assert (size D ≤ length candidates)%nat.
    { etrans; [apply best_size_le|]. apply sublist_length. unfold fitting.
      clear. induction candidates as [|x l IH]; simpl; [done|]. destruct (fits size_bytes x); by constructor. }
    unfold as_u32. rewrite Z.mod_small by (unfold u32_max in Hlen; lia).
    destruct (Z.ltb_spec (Z.of_nat (size D)) replicas); [lia|done].
Qed.

(** With one replica to place, one candidate with room is enough. *)
Lemma plan_one candidates rungs rung size_bytes io_weight :
  (Z.of_nat (length candidates) ≤ u32_max)%Z →
  match plan candidates rungs rung 1 size_bytes io_weight with
  | Ok picks => ∃ c, picks = [cand_name c] ∧ c ∈ candidates ∧ (size_bytes ≤ cand_free_bytes c)%Z
  | Err _ => ∀ c, c ∈ candidates → (cand_free_bytes c < size_bytes)%Z
  end.
Proof.
  intros Hlen. pose proof (plan_ok_iff candidates rungs rung 1 size_bytes io_weight Hlen) as Hok.
  destruct (plan _ _ _ _ _ _) as [picks|e] eqn:E.
  - apply plan_Ok_inv in E as (_ & Hn & ->). destruct (plan_picks_spread _ _ _ _ _ _ Hn) as [Hl Hf _].
    destruct (plan_picks _ _ _ _ _ _) as [|c [|? ?]]; simpl in Hl; try lia.
    apply Forall_cons in Hf as [[? ?] _]. exists c. done.
  - intros c Hc. destruct (Z.lt_ge_cases (cand_free_bytes c) size_bytes) as [?|Hge]; [done|].
    exfalso. assert (is_ok (@Err (list string) _ e) = true) as Hf; [|discriminate Hf]. apply Hok.
    split; [by exists c|]. exists [c]. split; [done|by repeat constructor|]. apply NoDup_singleton.
Qed.

(** C15: a plan fails only when it has to: with fewer than 2^32 candidates it
    succeeds exactly when some candidate has room and some choice of the
    asked number of fitting candidates in distinct domains exists. *)
Theorem plan_succeeds_iff candidates rungs rung replicas size_bytes io_weight
  (Hlen : (Z.of_nat (length candidates) ≤ u32_max)%Z) :
  is_ok (plan candidates rungs rung replicas size_bytes io_weight) = true ↔
    (∃ c, c ∈ candidates ∧ (size_bytes ≤ cand_free_bytes c)%Z)
    ∧ ∃ cs, spread candidates rungs rung replicas size_bytes cs.
Proof. exact (plan_ok_iff candidates rungs rung replicas size_bytes io_weight Hlen). Qed.

Lemma plan_succeeds_iff_witness :
  is_ok (plan ex_cands ex_rungs "rack" 2 10 ex_w) = true.
Proof.
  apply (proj2 (plan_succeeds_iff ex_cands ex_rungs "rack" 2 10 ex_w ltac:(vm_compute; done))).
  split; [exists (ex_cand "a1" [("rack", "r1"); ("node", "a1")] 50 100); split; [by left|by vm_compute]|].
  exists [ex_cand "a1" [("rack", "r1"); ("node", "a1")] 50 100;
          ex_cand "b1" [("rack", "r2"); ("node", "b1")] 60 100].
  split; [done| |by apply (bool_decide_unpack _); vm_compute].
  repeat constructor; by vm_compute.
Defined.

Lemma sorted_not_better s l : StronglySorted (λ a b, pick_cmp s a b ≠ Gt) l → (∀ x, x ∈ l → scored s x) →
  StronglySorted (λ a b, better s b a = false) l.
Proof.
  intros Hs. induction Hs as [|x l Hs IH Hx]; intros Hps; [constructor|]. constructor.
  - apply IH. intros y Hy. apply Hps. by right.
  - rewrite Forall_forall in Hx |- *. intros y Hy.
    apply not_better_pick_cmp; [apply Hps; by right|apply Hps; by left|by apply Hx].
Qed.

(** C14: with no NaN score the plan is the greedy optimum, ties by name: the
    picks are in score order; no fitting candidate beats the pick of its
    own domain; and none outside the picked domains beats any pick. *)
Theorem plan_greedy_optimal candidates rungs rung replicas size_bytes io_weight picks
  (H : plan candidates rungs rung replicas size_bytes io_weight = Ok picks)
  (Hscored : Forall (scored (plan_score candidates size_bytes io_weight)) (fitting candidates size_bytes)) :
  let s := plan_score candidates size_bytes io_weight in
  let dom := domain_of rungs rung in
  ∃ cs, picks = map cand_name cs
    ∧ StronglySorted (λ a b, better s b a = false) cs
    ∧ ∀ p c, p ∈ cs → c ∈ candidates → (size_bytes ≤ cand_free_bytes c)%Z →
        dom c = dom p ∨ dom c ∉ dom <$> cs → better s c p = false.
Proof.
  intros s dom. pose proof H as (_ & Hn & ->)%plan_Ok_inv.
  eexists; split; [done|]. set (D := plan_domains candidates rungs rung size_bytes io_weight).
  assert (∀ c, c ∈ bt_values D → c ∈ fitting candidates size_bytes ∧ scored s c) as HD.
  { intros c Hc. pose proof (best_values s dom (fitting candidates size_bytes)) as HF.
    rewrite Forall_forall in HF, Hscored. split; [by apply HF|]. by apply Hscored, HF. }
  pose proof (sort_by_perm (pick_cmp s) (bt_values D)) as Hperm.
  assert (StronglySorted (λ a b, pick_cmp s a b ≠ Gt) (sort_by (pick_cmp s) (bt_values D))) as Hsort.
  { apply (sort_by_sorted _ (scored s)); [by apply pick_cmp_flip|by apply pick_cmp_trans|].
    apply Forall_forall. intros c Hc. by apply HD. }
  pose proof Hsort as Hsplit. rewrite <-(take_drop (Z.to_nat replicas) (sort_by _ _)) in Hsplit.
  assert (∀ x, x ∈ plan_picks candidates rungs rung replicas size_bytes io_weight → scored s x) as Hps.
  { intros x Hx%plan_picks_elem. by apply HD. }
  split.
  - apply StronglySorted_app in Hsplit as (_ & Hs & _). by apply sorted_not_better.
  - intros p c Hp Hc Hf Hdom.
    assert (c ∈ fitting candidates size_bytes) as Hcf by by apply elem_of_fitting.
    assert (scored s c) as Hsc by (rewrite Forall_forall in Hscored; by apply Hscored).
    apply not_better_pick_cmp; [done|by apply Hps|].
    destruct (best_covers s dom _ _ Hcf) as [cur Hcur].
    pose proof (best_optimal s dom _ _ _ Hscored Hcf Hcur) as Hopt.
    destruct Hdom as [Hdom|Hdom].
    + apply plan_picks_elem in Hp. apply elem_of_bt_values in Hp as (d & Hd).
      pose proof Hd as [_ Hdp]%best_elem. change (dom p = d) in Hdp.
      change (best s dom (fitting candidates size_bytes) !! d = Some p) in Hd.
      assert (p = cur) as -> by congruence. done.
    + assert (cur ∈ bt_values D) as HcurD by (apply elem_of_bt_values; by exists (dom c)).
      apply (pick_cmp_trans s p cur c); [by apply Hps|by apply HD|done| |done].
      apply best_elem in Hcur as [_ Hdc]. apply StronglySorted_app in Hsplit as (Hbound & _ & _).
      apply Hbound; [done|].
      assert (cur ∈ sort_by (pick_cmp s) (bt_values D)) as Hin by by rewrite Hperm.
      rewrite <-(take_drop (Z.to_nat replicas) (sort_by _ _)) in Hin.
      apply elem_of_app in Hin as [Hin|Hin]; [|done]. exfalso. apply Hdom.
      apply list_elem_of_fmap. by exists cur.
Qed.

Lemma plan_greedy_optimal_witness :
  let s := plan_score ex_cands 10 ex_w in
  ∃ cs, ["a2"; "b1"] = map cand_name cs
    ∧ StronglySorted (λ a b, better s b a = false) cs
    ∧ ∀ p c, p ∈ cs → c ∈ ex_cands → (10 ≤ cand_free_bytes c)%Z →
        domain_of ex_rungs "rack" c = domain_of ex_rungs "rack" p
        ∨ domain_of ex_rungs "rack" c ∉ domain_of ex_rungs "rack" <$> cs → better s c p = false.
Proof.
  apply (plan_greedy_optimal ex_cands ex_rungs "rack" 2 10 ex_w); [vm_compute; reflexivity|].
  unfold scored. vm_compute. repeat constructor.
Defined.

Lemma plan_rest_spread candidates rungs rung replicas size_bytes p cs :
  p ∈ candidates → (size_bytes ≤ cand_free_bytes p)%Z → (1 ≤ replicas)%Z →
  spread (List.filter (λ c, domain_of rungs rung c != domain_of rungs rung p) candidates)
    rungs rung (replicas - 1) size_bytes cs →
  spread candidates rungs rung replicas size_bytes (p :: cs).
Proof.
  intros Hp Hf Hr [Hl Hfit Hnd]. rewrite Forall_forall in Hfit.
  assert (∀ c, c ∈ cs → domain_of rungs rung c ≠ domain_of rungs rung p) as Hne.
  { intros c Hc. destruct (Hfit c Hc) as [[_ H]%elem_of_filterb _]. by apply neqb_prop. }
  split.
  - simpl. rewrite Hl. lia.
  - constructor; [done|]. apply Forall_forall. intros c Hc.
    destruct (Hfit c Hc) as [[? _]%elem_of_filterb ?]. done.
  - simpl. constructor; [|done]. intros (c & E & Hc)%list_elem_of_fmap. by apply (Hne c Hc).
Qed.

(** Planning with a preferred node keeps the promise of a plan; when it
    reports that the preference led, the preferred node is the first pick
    (the head), and when it does not, the picks are the plain plan's. *)
Lemma plan_preferring_spreads candidates rungs rung replicas size_bytes io_weight prefer picks led
  (H : plan_preferring candidates rungs rung replicas size_bytes io_weight prefer = Ok (picks, led)) :
  (∃ cs, picks = map cand_name cs ∧ spread candidates rungs rung replicas size_bytes cs)
  ∧ (if led then ∃ p, prefer = Some p ∧ List.head picks = Some p
     else plan candidates rungs rung replicas size_bytes io_weight = Ok picks).
Proof.
  unfold plan_preferring in H. set (F := result_bind _ _) in H.
  assert (F = Ok (picks, led) → (∃ cs, picks = map cand_name cs ∧ spread candidates rungs rung replicas size_bytes cs)
    ∧ led = false ∧ plan candidates rungs rung replicas size_bytes io_weight = Ok picks) as HF.
  { intros (p & Hp & [= -> <-])%result_bind_Ok. split; [|done]. by eapply plan_ok_spread. }
  assert (F = Ok (picks, led) → (∃ cs, picks = map cand_name cs ∧ spread candidates rungs rung replicas size_bytes cs)
    ∧ (if led then ∃ p, prefer = Some p ∧ List.head picks = Some p
       else plan candidates rungs rung replicas size_bytes io_weight = Ok picks)) as HF'.
  { intros HFk. destruct (HF HFk) as (? & -> & ?). done. }
  clear HF. destruct prefer as [pn|]; simpl in H; [|by apply HF'].
  destruct (find_first _ candidates) as [p|] eqn:Ep; [|by apply HF'].
  apply find_first_Some in Ep as [Hp <-%eqb_prop].
  destruct (fits size_bytes p) eqn:Ef; simpl in H; [|by apply HF'].
  destruct (Z.leb_spec 1 replicas) as [Hr|]; [|by apply HF'].
  apply Z.leb_le in Ef.
  destruct (replicas =? 1)%Z eqn:E1.
  - injection H as <- <-. split; [|by eauto]. exists [p]. split; [done|].
    apply plan_rest_spread; [done..|]. apply Z.eqb_eq in E1 as ->. split; [done|by constructor|by apply NoDup_nil].
  - destruct (plan (List.filter _ _) rungs rung _ _ _) as [others|] eqn:Eo; [|exact (HF' H)].
    injection H as <- <-. apply plan_ok_spread in Eo as (cs & -> & Hs). split; [|by eauto].
    exists (p :: cs). split; [done|]. by apply plan_rest_spread.
Qed.

Lemma plan_preferring_spreads_witness :
  (∃ cs, ["a1"; "b1"] = map cand_name cs ∧ spread ex_cands ex_rungs "rack" 2 10 cs)
  ∧ ∃ p, Some "a1" = Some p ∧ List.head ["a1"; "b1"] = Some p.
Proof. apply (plan_preferring_spreads ex_cands ex_rungs "rack" 2 10 ex_w (Some "a1") _ true). vm_compute. reflexivity. Defined.
