(* ===== verification/Events.v ===== *)
(** * The event ring (src/events.rs)

    A bounded log of numbered events. Shown: the ring is the last [cap]
    events of everything ever pushed, numbered consecutively from 1, so
    [since] misses nothing newer than the number asked for that is still
    within the last [cap]. *)

From S2P Require Import Prelude Model.
From stdpp Require Import options.

Inductive Severity := Info | Warning | Error.
#[export] Instance Severity_eq_dec : EqDecision Severity.
Proof. solve_decision. Defined.

Record Event := MkEvent {
  seq : Z;
  ev_time : time;
  subject : option string;
  severity : Severity;
  kind : string;
  message : string;
}.

Record EventLog := MkEventLog {
  next_seq : Z;
  ring : list Event;
  cap : nat;
}.
#[export] Instance EventLog_eta : Eta EventLog := λ r, MkEventLog (next_seq r) (ring r) (cap r).

Definition EventLog_new (c : nat) : EventLog := {| next_seq := 1; ring := []; cap := c |}.

(** [EventLog::push]; [now] is the [SystemTime] it stamps. *)
Definition push (log : EventLog) (now : time) (subj : option string) (sev : Severity)
    (k msg : string) : EventLog * Z :=
  let s := next_seq log in
  let log := log <| next_seq := u64_add (next_seq log) 1 |> in
  let log := if (length (ring log) =? cap log)%nat then log <| ring ::= tail |> else log in
  let log := log <| ring ::= λ r, r ++ [MkEvent s now subj sev k msg] |> in
  (log, s).

Definition since (log : EventLog) (s : Z) : list Event :=
  List.filter (λ e, (s <? seq e)%Z) (ring log).

(** [next_seq - 1]. *)
Definition latest_seq (log : EventLog) : Z := (next_seq log - 1) mod 2 ^ 64.

(** ** The abstract log: everything pushed, in order *)

(** What one push is given. *)
Record Entry := MkEntry {
  en_time : time; en_subject : option string; en_severity : Severity; en_kind : string; en_message : string
}.

Definition number (i : nat) (e : Entry) : Event :=
  MkEvent (Z.of_nat i + 1) (en_time e) (en_subject e) (en_severity e) (en_kind e) (en_message e).

Definition history (es : list Entry) : list Event := imap number es.

Definition push_entry (log : EventLog) (e : Entry) : EventLog :=
  (push log (en_time e) (en_subject e) (en_severity e) (en_kind e) (en_message e)).1.

Definition run (c : nat) (es : list Entry) : EventLog := foldl push_entry (EventLog_new c) es.

(** The last [n] elements. *)
Definition lastn {A} (n : nat) (l : list A) : list A := drop (length l - n) l.

(** ** Facts *)

Lemma history_snoc es e : history (es ++ [e]) = history es ++ [number (length es) e].
Proof.
  unfold history. rewrite imap_app. simpl. do 2 f_equal. unfold number, compose. f_equal. lia.
Qed.

Lemma history_length es : length (history es) = length es.
Proof. apply length_imap. Qed.

Lemma run_snoc c es e : run c (es ++ [e]) = push_entry (run c es) e.
Proof. unfold run. by rewrite foldl_snoc. Qed.

Lemma lastn_snoc {A} (n : nat) (l : list A) (x : A) :
  (0 < n)%nat →
  lastn n (l ++ [x]) = (if (length (lastn n l) =? n)%nat then tail (lastn n l) else lastn n l) ++ [x].
Proof.
  intros Hn. unfold lastn. rewrite length_app, length_drop. simpl.
  destruct (Nat.eqb_spec (length l - (length l - n)) n) as [E|E].
  - rewrite drop_app_le by lia. replace (tail (drop (length l - n) l)) with (drop (S (length l - n)) l).
    + do 2 f_equal. lia.
    + generalize (length l - n)%nat. clear. induction l as [|y l IH]; intros [|k]; simpl; try done.
  - rewrite drop_app_le by lia. do 2 f_equal. lia.
Qed.

(** C33: after any pushes to a ring of positive capacity, the ring holds
    exactly the last [cap] events, numbered consecutively from 1, and
    [since] answers with those of them newer than the number given. *)
Theorem ring_refines_history (c : nat) (es : list Entry) (s : Z)
  (Hc : (0 < c)%nat) (Hlen : (Z.of_nat (length es) < u64_max)%Z) :
  ring (run c es) = lastn c (history es)
  ∧ latest_seq (run c es) = Z.of_nat (length es)
  ∧ since (run c es) s = List.filter (λ e, (s <? seq e)%Z) (lastn c (history es)).
Proof.
  assert (ring (run c es) = lastn c (history es)
    ∧ next_seq (run c es) = (Z.of_nat (length es) + 1)%Z ∧ cap (run c es) = c) as (Hr & Hn & _).
  { induction es as [|e es IH] using rev_ind; [done|].
    rewrite length_app in *. simpl in Hlen. destruct IH as (Hr & Hn & Hcap); [lia|].
    rewrite run_snoc, history_snoc, lastn_snoc by done. unfold push_entry, push. simpl.
    rewrite Hr, Hn, Hcap, u64_add_small by lia.
    destruct (Nat.eqb_spec (length (lastn c (history es))) c); simpl;
      rewrite ?Hr; repeat split; lia || done. }
  split; [done|split].
  - unfold latest_seq. rewrite Hn. rewrite Z.mod_small; unfold u64_max in *; lia.
  - unfold since. by rewrite Hr.
Qed.

Lemma ring_refines_history_witness :
  let e m := MkEntry 0 None Info "t" m in
  let es := [e "e0"; e "e1"; e "e2"; e "e3"] in
  ring (run 2 es) = lastn 2 (history es) ∧ latest_seq (run 2 es) = Z.of_nat (length es)
  ∧ since (run 2 es) 3 = List.filter (λ e, (3 <? seq e)%Z) (lastn 2 (history es)).
Proof. apply (ring_refines_history 2 _ 3); [lia|vm_compute; done]. Defined.
