(* ===== verification/Refusal.v ===== *)
(** * Engines that refuse the token (src/refusal.rs)

    Per engine URL: after a 401/403 the engine is left alone for a time that
    doubles up to five minutes, a different token is tried at once, and the
    refusals are reported first and then at most every five minutes.

    The hash of a token ([DefaultHasher]) is a parameter: all that is used
    of it is whether two fingerprints are equal. *)

From S2P Require Import Prelude Model.
From stdpp Require Import options.

Local Open Scope Z_scope.

Definition MAX_BACKOFF : Z := secs 300.
Definition REPORT_EVERY : Z := secs 300.

(** The longest [Duration]. *)
Definition duration_max : Z := u64_max * 10 ^ 9 + 999999999.

Record Refusal := MkRefusal {
  r_token : Z;
  r_count : Z;
  retry_at : time;
  reported_at : time;
  unreported : Z;
}.
#[export] Instance Refusal_eta : Eta Refusal := λ r,
  MkRefusal (r_token r) (r_count r) (retry_at r) (reported_at r) (unreported r).

Abbreviation Refusals := (gmap string Refusal).

Inductive Report := First | Still (n : Z) | Quiet.

Definition key (url : string) : string := trim_end_matches (Ascii.ascii_of_nat 47) url.

(** The wait after the [count]-th refusal in a row. *)
Definition backoff (interval count : Z) : Z :=
  Z.min (Z.min (Z.max interval (secs 1) * Z.shiftl 1 (Z.min count 16)) duration_max) MAX_BACKOFF.

Section refusals.
Context (fingerprint : option string → Z).

Definition may_call (engines : Refusals) (url : string) (token : option string) (now : time) : bool :=
  match engines !! key url with
  | None => true
  | Some r => negb (r_token r =? fingerprint token) || (retry_at r <=? now)
  end.

Definition retry_in (engines : Refusals) (url : string) (now : time) : option Z :=
  (λ r, Z.max (retry_at r - now) 0) <$> engines !! key url.

(** What [refused] does to one engine's entry. *)
Definition refuse_entry (r : Refusal) (fp interval : Z) (now : time) : Refusal * Report :=
  let first := (r_count r =? 0) || negb (r_token r =? fp) in
  let r := if first then r <| r_token := fp |> <| r_count := 0 |> <| unreported := 0 |> else r in
  let r := r <| r_count ::= λ c, u32_add c 1 |> in
  let r := r <| retry_at := now + backoff interval (r_count r) |> in
  if first then (r <| reported_at := now |>, First)
  else
    let r := r <| unreported ::= λ n, u32_add n 1 |> in
    if REPORT_EVERY <=? Z.max (now - reported_at r) 0 then
      (r <| reported_at := now |> <| unreported := 0 |>, Still (unreported r))
    else (r, Quiet).

Definition refused (engines : Refusals) (url : string) (token : option string) (interval : Z)
    (now : time) : Refusals * Report :=
  let fp := fingerprint token in
  let r := unwrap_or {| r_token := fp; r_count := 0; retry_at := now; reported_at := now;
                        unreported := 0 |} (engines !! key url) in
  let '(r, rep) := refuse_entry r fp interval now in
  (<[key url := r]> engines, rep).

Definition accepted (engines : Refusals) (url : string) : Refusals * bool :=
  (delete (key url) engines, is_some (engines !! key url)).

(** ** Facts *)

Lemma backoff_bounds interval count : 1 ≤ count → secs 1 ≤ backoff interval count ≤ MAX_BACKOFF.
Proof.
  intros Hc. unfold backoff. rewrite Z.shiftl_1_l.
  assert (2 ≤ 2 ^ Z.min count 16) by (apply (Z.pow_le_mono_r 2 1); lia).
  assert (secs 1 ≤ MAX_BACKOFF ∧ MAX_BACKOFF ≤ duration_max ∧ 0 ≤ secs 1) as (? & ? & ?)
    by (vm_compute; repeat split; discriminate).
  assert (Z.max interval (secs 1) ≤ Z.max interval (secs 1) * 2 ^ Z.min count 16) by nia.
  lia.
Qed.

(** While nothing saturates the wait is the poll interval doubled per refusal. *)
Lemma backoff_doubles interval count :
  secs 1 ≤ interval → 0 ≤ count ≤ 16 → interval * 2 ^ count ≤ MAX_BACKOFF →
  backoff interval count = interval * 2 ^ count.
Proof.
  intros Hi Hc Hb. unfold backoff. rewrite Z.shiftl_1_l, (Z.max_l interval) by done.
  rewrite (Z.min_l count) by lia.
  assert (MAX_BACKOFF ≤ duration_max) by (vm_compute; discriminate). lia.
Qed.

(** A refusal holds calls with the same token off for the back-off and no
    longer, leaves a token with another fingerprint free to be tried at
    once, and touches no other engine. *)
Theorem refused_then_may_call engines url token interval now engines' rep
  (H : refused engines url token interval now = (engines', rep)) :
  (∃ r, engines' !! key url = Some r
    ∧ retry_at r = now + backoff interval (r_count r)
    ∧ (∀ t, may_call engines' url token t = (now + backoff interval (r_count r) <=? t))
    ∧ (∀ token' t, fingerprint token' ≠ fingerprint token → may_call engines' url token' t = true))
  ∧ (∀ url' token' t, key url' ≠ key url → may_call engines' url' token' t = may_call engines url' token' t).
Proof.
  unfold refused in H. destruct (refuse_entry _ _ _ _) as [r rep'] eqn:E. injection H as <- <-.
  assert (r_token r = fingerprint token ∧ retry_at r = now + backoff interval (r_count r)) as [Ht Hr].
  { unfold refuse_entry in E. set (r0 := unwrap_or _ _) in E.
    destruct ((r_count r0 =? 0) || negb (r_token r0 =? fingerprint token)) eqn:Ef; simpl in E.
    - by injection E as <- <-.
    - apply orb_false_iff in Ef as [_ Ef%negb_false_iff%Z.eqb_eq].
      destruct (_ <=? _) in E; by injection E as <- <-. }
  split.
  - exists r. split; [by rewrite lookup_insert_eq|]. split; [done|].
    unfold may_call. rewrite lookup_insert_eq. split; intros *.
    + by rewrite Ht, Z.eqb_refl, Hr.
    + intros Hne. rewrite Ht. by destruct (Z.eqb_spec (fingerprint token) (fingerprint token')).
  - intros url' token' t Hne. unfold may_call. by rewrite lookup_insert_ne.
Qed.

(** ** A run of refusals of one token *)

Fixpoint refuse_run (r : Refusal) (fp interval : Z) (ts : list time) : Refusal * list (time * Report) :=
  match ts with
  | [] => (r, [])
  | t :: ts =>
      let '(r, rep) := refuse_entry r fp interval t in
      let '(r, reps) := refuse_run r fp interval ts in
      (r, (t, rep) :: reps)
  end.

(** What a report accounts for. *)
Definition told (rep : Report) : Z := match rep with First => 1 | Still n => n | Quiet => 0 end.
Definition said (p : time * Report) : bool := match p.2 with Quiet => false | _ => true end.
Definition total_told (reps : list (time * Report)) : Z := foldr (λ p n, told p.2 + n) 0 reps.

(** The moments something was said, each at least [REPORT_EVERY] after [last]. *)
Fixpoint spaced (last : time) (reps : list (time * Report)) : Prop :=
  match reps with
  | [] => True
  | p :: reps => if said p then last + REPORT_EVERY ≤ p.1 ∧ spaced p.1 reps else spaced last reps
  end.

Lemma refuse_run_known r fp interval ts r' reps :
  r_token r = fp → 0 < r_count r → r_count r + Z.of_nat (length ts) < 2 ^ 32 →
  0 ≤ unreported r → unreported r + Z.of_nat (length ts) < 2 ^ 32 →
  refuse_run r fp interval ts = (r', reps) →
  r_token r' = fp ∧ r_count r' = r_count r + Z.of_nat (length ts)
  ∧ total_told reps + unreported r' = unreported r + Z.of_nat (length ts)
  ∧ spaced (reported_at r) reps.
Proof.
  revert r r' reps. induction ts as [|t ts IH]; intros r r' reps Ht Hc Hcl Hu Hul H; simpl in *.
  { injection H as <- <-. simpl. repeat split; lia || done. }
  unfold refuse_entry in H. rewrite Ht, Z.eqb_refl in H.
  destruct (Z.eqb_spec (r_count r) 0) as [?|_]; [lia|]. simpl in H.
  destruct (Z.leb_spec REPORT_EVERY (t - reported_at r `max` 0)) as [Hle|Hgt] in H;
    destruct (Z.leb_spec REPORT_EVERY ((t - reported_at r) `max` 0)) as [Hle'|Hgt'] in H;
    (destruct (refuse_run _ fp interval ts) as [r1 reps1] eqn:E in H; injection H as <- <-;
     apply IH in E as (-> & Hc1 & Hu1 & Hs1); simpl in *;
     rewrite ?u32_add_small in * by (unfold u32_max; lia);
     [|done|lia..]; repeat split; simpl; try lia; try done).
  all: try (unfold REPORT_EVERY, secs in *; lia).
Qed.
(** The same run against the whole table. *)
Fixpoint refused_run (engines : Refusals) (url : string) (token : option string) (interval : Z)
    (ts : list time) : Refusals * list (time * Report) :=
  match ts with
  | [] => (engines, [])
  | t :: ts =>
      let '(engines, rep) := refused engines url token interval t in
      let '(engines, reps) := refused_run engines url token interval ts in
      (engines, (t, rep) :: reps)
  end.

Lemma refused_run_entry engines url token interval ts r :
  engines !! key url = Some r →
  (refused_run engines url token interval ts).1 !! key url
    = Some (refuse_run r (fingerprint token) interval ts).1
  ∧ (refused_run engines url token interval ts).2 = (refuse_run r (fingerprint token) interval ts).2.
Proof.
  revert engines r. induction ts as [|t ts IH]; intros engines r Hr; simpl; [done|].
  unfold refused. rewrite Hr. simpl. destruct (refuse_entry r _ _ _) as [r1 rep].
  specialize (IH (<[key url := r1]> engines) r1). rewrite lookup_insert_eq in IH.
  destruct IH as [IH1 IH2]; [done|].
  destruct (refused_run _ _ _ _ ts), (refuse_run _ _ _ ts). simpl in *. by split; [|f_equal].
Qed.

(** C34: an engine not known to refuse that refuses one token again and again
    is reported at the first refusal and then at most every five minutes;
    the reports and the count not yet reported add up to the refusals, and
    a call it accepts in the end forgets all of it. *)
Theorem refused_run_reports engines url token interval t0 ts engines' reps
  (Hnew : engines !! key url = None)
  (Hlen : 1 + Z.of_nat (length ts) < 2 ^ 32)
  (H : refused_run engines url token interval (t0 :: ts) = (engines', reps)) :
  ∃ r rest, reps = (t0, First) :: rest
    ∧ spaced t0 rest
    ∧ engines' !! key url = Some r
    ∧ r_count r = 1 + Z.of_nat (length ts)
    ∧ total_told reps + unreported r = 1 + Z.of_nat (length ts)
    ∧ accepted engines' url = (delete (key url) engines', true)
    ∧ (∀ token' t, may_call (accepted engines' url).1 url token' t = true).
Proof.
  simpl in H. unfold refused at 1 in H. rewrite Hnew in H. simpl in H.
  set (r1 := MkRefusal _ _ _ _ _) in H.
  pose proof (refused_run_entry (<[key url := r1]> engines) url token interval ts r1) as Hrun.
  rewrite lookup_insert_eq in Hrun. destruct Hrun as [Hm Hreps]; [done|].
  destruct (refused_run _ _ _ _ ts) as [engines1 reps1]. injection H as <- <-. simpl in Hm, Hreps.
  destruct (refuse_run r1 (fingerprint token) interval ts) as [r2 reps2] eqn:E.
  apply refuse_run_known in E as (_ & Hc & Hu & Hs); try (simpl; done || lia).
  simpl in *. subst reps1. exists r2, reps2.
  split; [done|]. split; [done|]. split; [done|]. split; [done|]. split; [simpl; lia|].
  unfold accepted. rewrite Hm. split; [done|].
  intros token' t. unfold may_call. simpl. by rewrite lookup_delete_eq.
Qed.
End refusals.

(** The witnesses take a token's length for its hash. *)
Definition length_fingerprint (token : option string) : Z :=
  Z.of_nat (String.length (unwrap_or EmptyString token)).

Lemma refused_then_may_call_witness :
  let f := length_fingerprint in
  let m := (refused f ∅ "http://n1:9090/" (Some "abc") (secs 10) 0).1 in
  (∃ r, m !! key "http://n1:9090/" = Some r
    ∧ retry_at r = 0 + backoff (secs 10) (r_count r)
    ∧ (∀ t, may_call f m "http://n1:9090/" (Some "abc") t = (0 + backoff (secs 10) (r_count r) <=? t))
    ∧ (∀ token' t, f token' ≠ f (Some "abc") → may_call f m "http://n1:9090/" token' t = true))
  ∧ (∀ url' token' t, key url' ≠ key "http://n1:9090/" →
       may_call f m url' token' t = may_call f ∅ url' token' t).
Proof. eapply refused_then_may_call. apply surjective_pairing. Defined.

Lemma refused_run_reports_witness :
  let ts := [secs 20; secs 400; secs 500] in
  let run := refused_run length_fingerprint ∅ "u" (Some "abc") (secs 10) (0 :: ts) in
  ∃ r rest, run.2 = (0, First) :: rest ∧ spaced 0 rest ∧ run.1 !! key "u" = Some r
    ∧ r_count r = 1 + Z.of_nat (length ts)
    ∧ total_told run.2 + unreported r = 1 + Z.of_nat (length ts)
    ∧ accepted run.1 "u" = (delete (key "u") run.1, true)
    ∧ (∀ token' t, may_call length_fingerprint (accepted run.1 "u").1 "u" token' t = true).
Proof. eapply refused_run_reports; [apply lookup_empty|vm_compute; reflexivity|apply surjective_pairing]. Defined.
