(* ===== verification/Async.v ===== *)
(** * Asynchronous handlers

    A handler of the service is an [async fn]: it takes a lock, reads or
    changes the state, lets it go, waits for an answer from outside (an
    engine, the clock, a peer) and goes on; anything else may run while it
    waits. [prog] is that shape: an [Atomic] step is one lock section, an
    [Invoke] step an [.await] on the outside, a [Spawn] a [tokio::spawn].

    Two readings of a program are given. [run] executes one alone against
    an environment function, for evaluation. [pool_step] interleaves any
    number of them with arbitrary answers from outside, for safety: the
    rely/guarantee predicate [wp] and [guar] is proved one handler at a
    time and [pool_guar] lifts it to every interleaving. *)

From S2P Require Import Prelude.
From stdpp Require Import relations.
From stdpp Require Import options.

Section prog.
Context {E : Type → Type} {S : Type}.

Inductive prog (A : Type) : Type :=
  | Ret (a : A)
  | Atomic {B : Type} (f : S → S * B) (k : B → prog A)
  | Invoke {R : Type} (c : E R) (k : R → prog A)
  | Spawn (p : prog unit) (k : prog A).
End prog.
Arguments prog E S A : clear implicits.
Arguments Ret {E S A} a.
Arguments Atomic {E S A B} f k.
Arguments Invoke {E S A R} c k.
Arguments Spawn {E S A} p k.

Section combinators.
Context {E : Type → Type} {S : Type}.
Fixpoint bind {A B : Type} (p : prog E S A) (k : A → prog E S B) : prog E S B :=
  match p with
  | Ret a => k a
  | Atomic f k' => Atomic f (λ b, bind (k' b) k)
  | Invoke c k' => Invoke c (λ r, bind (k' r) k)
  | Spawn q p => Spawn q (bind p k)
  end.
(** Read the state under its lock. *)
Definition reads {B : Type} (f : S → B) : prog E S B := Atomic (λ s, (s, f s)) Ret.
(** Change it. *)
Definition writes (f : S → S) : prog E S unit := Atomic (λ s, (f s, tt)) Ret.
Definition atomic {B : Type} (f : S → S * B) : prog E S B := Atomic f Ret.
Definition invoke {R : Type} (c : E R) : prog E S R := Invoke c Ret.
Definition spawn (p : prog E S unit) : prog E S unit := Spawn p (Ret tt).
(** [?] on a call's result. *)
Definition bind_ok {A B X : Type} (p : prog E S (result A X)) (k : A → prog E S (result B X))
    : prog E S (result B X) :=
  bind p (λ r, match r with Ok a => k a | Err e => Ret (Err e) end).
(** [for x in l], with what the body carries on. *)
Fixpoint for_fold {A B : Type} (body : B → A → prog E S B) (b : B) (l : list A) : prog E S B :=
  match l with
  | [] => Ret b
  | x :: l => bind (body b x) (λ b, for_fold body b l)
  end.
Definition for_each {A : Type} (body : A → prog E S unit) (l : list A) : prog E S unit :=
  for_fold (λ _, body) tt l.
(** A loop whose body may leave the function with an error. *)
Fixpoint for_try {A B X : Type} (body : B → A → prog E S (result B X)) (b : B) (l : list A)
    : prog E S (result B X) :=
  match l with
  | [] => Ret (Ok b)
  | x :: l => bind_ok (body b x) (λ b, for_try body b l)
  end.
(** A loop over records changed in place ([iter_mut]) that stops at the
    first error: the records as far as it came, and what it gathered. *)
Fixpoint walk {A B X : Type} (f : A → prog E S (A * result B X)) (l : list A)
    : prog E S (list A * result (list B) X) :=
  match l with
  | [] => Ret ([], Ok [])
  | x :: l => bind (f x) (λ '(x, r), match r with
      | Err e => Ret (x :: l, Err e)
      | Ok b => bind (walk f l) (λ '(l, r), Ret (x :: l, match r with Ok bs => Ok (b :: bs) | Err e => Err e end))
      end)
  end.
End combinators.

(** [let! x := p in k] is [let x = p.await; k]; with [let!?] an error
    returns. *)
Notation "'let!' x := p 'in' k" := (bind p (λ x, k))
  (at level 10, x pattern, p at level 200, k at level 200) : storm_scope.
Notation "'let!?' x := p 'in' k" := (bind_ok p (λ x, k))
  (at level 10, x pattern, p at level 200, k at level 200) : storm_scope.
Notation "p ;! k" := (bind p (λ _, k)) (at level 100, right associativity) : storm_scope.

(** ** Alone: the executable reading *)

Section run.
Context {E : Type → Type} {S W : Type}.
Context (env : ∀ R, E R → W → R * W).
(** What the program returns, the state and the outside it leaves, and the
    tasks it spawned. *)
Fixpoint run {A : Type} (p : prog E S A) (s : S) (w : W) : A * S * W * list (prog E S unit) :=
  match p with
  | Ret a => (a, s, w, [])
  | Atomic f k => let '(s, b) := f s in run (k b) s w
  | Invoke c k => let '(r, w) := env _ c w in run (k r) s w
  | Spawn q p => let '(a, s, w, l) := run p s w in (a, s, w, q :: l)
  end.
Lemma run_bind {A B : Type} (p : prog E S A) (k : A → prog E S B) (s : S) (w : W) :
  run (bind p k) s w =
    (let '(a, s1, w1, l1) := run p s w in
     let '(b, s2, w2, l2) := run (k a) s1 w1 in (b, s2, w2, l1 ++ l2)).
Proof.
  revert s w. induction p as [X a|X Y f k' IH|X Y c k' IH|X q IHq p IH]; intros s w; simpl.
  - by destruct (run (k a) s w) as [[[??]?]?].
  - destruct (f s) as [s1 b]. apply IH.
  - destruct (env Y c w) as [r w1]. apply IH.
  - rewrite IH. destruct (run p s w) as [[[a s1] w1] l1]. by destruct (run (k a) s1 w1) as [[[??]?]?].
Qed.
Definition run_value {A} (p : prog E S A) s w : A := (run p s w).1.1.1.
Definition run_state {A} (p : prog E S A) s w : S := (run p s w).1.1.2.
Definition run_world {A} (p : prog E S A) s w : W := (run p s w).1.2.

Lemma run_value_bind {A B : Type} (p : prog E S A) (k : A → prog E S B) s w :
  run_value (bind p k) s w = run_value (k (run_value p s w)) (run_state p s w) (run_world p s w).
Proof.
  unfold run_value, run_state, run_world. rewrite run_bind. destruct (run p s w) as [[[a s1] w1] l1]. simpl.
  by destruct (run (k a) s1 w1) as [[[??]?]?].
Qed.
Lemma run_state_bind {A B : Type} (p : prog E S A) (k : A → prog E S B) s w :
  run_state (bind p k) s w = run_state (k (run_value p s w)) (run_state p s w) (run_world p s w).
Proof.
  unfold run_value, run_state, run_world. rewrite run_bind. destruct (run p s w) as [[[a s1] w1] l1]. simpl.
  by destruct (run (k a) s1 w1) as [[[??]?]?].
Qed.
Lemma run_world_bind {A B : Type} (p : prog E S A) (k : A → prog E S B) s w :
  run_world (bind p k) s w = run_world (k (run_value p s w)) (run_state p s w) (run_world p s w).
Proof.
  unfold run_value, run_state, run_world. rewrite run_bind. destruct (run p s w) as [[[a s1] w1] l1]. simpl.
  by destruct (run (k a) s1 w1) as [[[??]?]?].
Qed.
(** What no call lowers, no program does. *)
Lemma run_world_mono (clock : W → Z) {A : Type} (p : prog E S A) s w :
  (∀ R (c : E R) w, clock w ≤ clock (env R c w).2)%Z → (clock w ≤ clock (run_world p s w))%Z.
Proof.
  intros Hm. unfold run_world. revert s w.
  induction p as [X a|X Y f k' IH|X Y c k' IH|X q IHq p IH]; intros s w; simpl; [lia| | |].
  - destruct (f s) as [s1 b]. apply IH.
  - specialize (Hm _ c w). destruct (env Y c w) as [r w1]. simpl in *.
    etransitivity; [exact Hm|apply IH].
  - specialize (IH s w). by destruct (run p s w) as [[[??]?]?].
Qed.
(** What a run returns and leaves, the outside included. *)
Definition runs {A : Type} (p : prog E S A) (Q : A → S → W → Prop) (s : S) (w : W) : Prop :=
  Q (run_value p s w) (run_state p s w) (run_world p s w).
Lemma runs_bind {A B : Type} (p : prog E S A) (k : A → prog E S B) Q s w :
  runs p (λ a s w, runs (k a) Q s w) s w → runs (bind p k) Q s w.
Proof. unfold runs. by rewrite run_value_bind, run_state_bind, run_world_bind. Qed.
Lemma runs_mono {A : Type} (p : prog E S A) (Q Q' : A → S → W → Prop) s w :
  runs p Q s w → (∀ a s w, Q a s w → Q' a s w) → runs p Q' s w.
Proof. unfold runs. auto. Qed.
Lemma runs_ret {A : Type} (a : A) (Q : A → S → W → Prop) s w : Q a s w → runs (Ret a) Q s w.
Proof. done. Qed.
Lemma runs_reads {A : Type} (f : S → A) (Q : A → S → W → Prop) s w : Q (f s) s w → runs (reads f) Q s w.
Proof. done. Qed.
Lemma runs_writes (f : S → S) (Q : unit → S → W → Prop) s w : Q tt (f s) w → runs (writes f) Q s w.
Proof. done. Qed.
Lemma runs_atomic {A : Type} (f : S → S * A) (Q : A → S → W → Prop) s w :
  Q (f s).2 (f s).1 w → runs (atomic f) Q s w.
Proof. unfold runs, run_value, run_state, run_world. simpl. by destruct (f s). Qed.
Lemma runs_invoke {R : Type} (c : E R) (Q : R → S → W → Prop) s w :
  Q (env R c w).1 s (env R c w).2 → runs (invoke c) Q s w.
Proof. unfold runs, run_value, run_state, run_world. simpl. by destruct (env R c w). Qed.
Lemma runs_bind_ok {A B X : Type} (p : prog E S (result A X)) (k : A → prog E S (result B X)) Q s w :
  runs p (λ r s w, match r with Ok a => runs (k a) Q s w | Err e => Q (Err e) s w end) s w →
  runs (bind_ok p k) Q s w.
Proof. intros Hp. apply runs_bind. eapply runs_mono; [exact Hp|]. by intros [a|e]. Qed.
(** A loop that may stop, with what holds between the rounds. *)
Lemma runs_for_try {A B X : Type} (body : B → A → prog E S (result B X)) (l : list A)
    (I : list A → B → S → W → Prop) (Q : result B X → S → W → Prop) b s w :
  (∀ x l b s w, I (x :: l) b s w →
     runs (body b x) (λ r s w, match r with Ok b => I l b s w | Err e => Q (Err e) s w end) s w) →
  (∀ b s w, I [] b s w → Q (Ok b) s w) → I l b s w → runs (for_try body b l) Q s w.
Proof.
  intros Hb HQ. revert b s w. induction l as [|x l IH]; intros b s w HI; [by apply HQ|].
  simpl. apply runs_bind_ok. eapply runs_mono; [by apply Hb|]. intros [b'|e]; [apply IH|done].
Qed.

(** The pool under a schedule: each number picks the task that steps. *)
Definition sched_step (i : nat) (c : S * W * list (prog E S unit)) : S * W * list (prog E S unit) :=
  let '(s, w, ps) := c in
  match ps !! i with
  | Some (Atomic f k) => let '(s, b) := f s in (s, w, <[i := k b]> ps)
  | Some (Invoke c k) => let '(r, w) := env _ c w in (s, w, <[i := k r]> ps)
  | Some (Spawn q p) => (s, w, <[i := p]> ps ++ [q])
  | _ => c
  end.
Definition sched (is_ : list nat) (c : S * W * list (prog E S unit)) : S * W * list (prog E S unit) :=
  foldl (λ c i, sched_step i c) c is_.
End run.

(** ** Interleaved: the step relation *)

Section pool.
Context {E : Type → Type} {S : Type}.
Inductive pool_step : S * list (prog E S unit) → S * list (prog E S unit) → Prop :=
  | step_atomic s ps i B (f : S → S * B) k :
      ps !! i = Some (Atomic f k) → pool_step (s, ps) ((f s).1, <[i := k (f s).2]> ps)
  | step_invoke s ps i R (c : E R) k r :
      ps !! i = Some (Invoke c k) → pool_step (s, ps) (s, <[i := k r]> ps)
  | step_spawn s ps i q p :
      ps !! i = Some (Spawn q p) → pool_step (s, ps) (s, <[i := p]> ps ++ [q]).
Definition pool_steps := rtc pool_step.

Lemma sched_step_steps {W} (env : ∀ R, E R → W → R * W) i s w ps s' w' ps' :
  sched_step env i (s, w, ps) = (s', w', ps') → pool_steps (s, ps) (s', ps').
Proof.
  simpl. destruct (ps !! i) as [[a|B f k|R c k|q p]|] eqn:Hi.
  - intros [= <- <- <-]. done.
  - destruct (f s) as [s1 b] eqn:Hf. intros [= <- <- <-]. apply rtc_once.
    pose proof (step_atomic s ps i B f k Hi) as H. by rewrite Hf in H.
  - destruct (env R c w) as [r w1]. intros [= <- <- <-]. apply rtc_once. by apply step_invoke with R c.
  - intros [= <- <- <-]. apply rtc_once. by apply step_spawn.
  - intros [= <- <- <-]. done.
Qed.

Lemma sched_steps {W} (env : ∀ R, E R → W → R * W) is_ s w ps s' w' ps' :
  sched env is_ (s, w, ps) = (s', w', ps') → pool_steps (s, ps) (s', ps').
Proof.
  revert s w ps. induction is_ as [|i is_ IH]; intros s w ps; simpl.
  { intros [= <- <- <-]. done. }
  destruct (sched_step env i (s, w, ps)) as [[s1 w1] ps1] eqn:E1.
  unfold sched in *. simpl. simpl in E1. rewrite E1. intros H.
  transitivity (s1, ps1); [by eapply (sched_step_steps env i)|by eapply IH].
Qed.

Lemma sched_sound {W} (env : ∀ R, E R → W → R * W) is_ s w ps :
  pool_steps (s, ps) ((sched env is_ (s, w, ps)).1.1, (sched env is_ (s, w, ps)).2).
Proof.
  destruct (sched env is_ (s, w, ps)) as [[s' w'] ps'] eqn:H. by eapply (sched_steps env is_).
Qed.

(** ** Guarantees *)

(** Every step of [p], from whatever state it finds, satisfies [G]. *)
Fixpoint guar {A : Type} (G : relation S) (p : prog E S A) : Prop :=
  match p with
  | Ret _ => True
  | Atomic f k => ∀ s, G s (f s).1 ∧ guar G (k (f s).2)
  | Invoke c k => ∀ r, guar G (k r)
  | Spawn q p => guar G q ∧ guar G p
  end.

(** What [p] returns and leaves when others change the state between its
    steps only as [Rl] allows, and that its own steps satisfy [G]. *)
Fixpoint wp {A : Type} (Rl G : relation S) (p : prog E S A) (Q : A → S → Prop) (s : S) : Prop :=
  match p with
  | Ret a => Q a s
  | Atomic f k => ∀ s', Rl s s' → G s' (f s').1 ∧ wp Rl G (k (f s').2) Q (f s').1
  | Invoke c k => ∀ r, wp Rl G (k r) Q s
  | Spawn q p => guar G q ∧ wp Rl G p Q s
  end.

Lemma guar_bind {A B : Type} G (p : prog E S A) (k : A → prog E S B) :
  guar G p → (∀ a, guar G (k a)) → guar G (bind p k).
Proof.
  intros Hp Hk. induction p as [X a|X Y f k' IH|X Y c k' IH|X q IHq p IH]; simpl in *.
  - apply Hk.
  - intros s. destruct (Hp s). split; [done|]. by apply IH.
  - intros r. by apply IH.
  - destruct Hp. split; [done|]. by apply IH.
Qed.

Lemma guar_bind_ok {A B X : Type} G (p : prog E S (result A X)) (k : A → prog E S (result B X)) :
  guar G p → (∀ a, guar G (k a)) → guar G (bind_ok p k).
Proof. intros Hp Hk. apply guar_bind; [done|]. by intros [a|e]; simpl. Qed.

Lemma guar_for_fold {A B : Type} G (body : B → A → prog E S B) (l : list A) :
  (∀ b a, guar G (body b a)) → ∀ b, guar G (for_fold body b l).
Proof.
  intros H. induction l as [|x l IH]; intros b; simpl; [done|].
  apply guar_bind; [apply H|done].
Qed.

Lemma guar_for_each {A} G (body : A → prog E S unit) (l : list A) :
  (∀ a, guar G (body a)) → guar G (for_each body l).
Proof. intros H. apply guar_for_fold. done. Qed.

Lemma guar_for_try {A B X : Type} G (body : B → A → prog E S (result B X)) (l : list A) :
  (∀ b a, guar G (body b a)) → ∀ b, guar G (for_try body b l).
Proof.
  intros H. induction l as [|x l IH]; intros b; simpl; [done|].
  apply guar_bind_ok; [apply H|done].
Qed.

Lemma guar_reads {B} G (f : S → B) : (∀ s, G s s) → guar G (reads f).
Proof. intros H s. simpl. auto. Qed.

Lemma guar_writes G (f : S → S) : (∀ s, G s (f s)) → guar G (writes f).
Proof. intros H s. simpl. auto. Qed.

Lemma guar_atomic {B} G (f : S → S * B) : (∀ s, G s (f s).1) → guar G (atomic f).
Proof. intros H s. simpl. auto. Qed.

Lemma guar_invoke {R : Type} G (c : E R) : guar G (invoke c).
Proof. by intros r. Qed.

Lemma guar_spawn G p : guar G p → guar G (spawn p).
Proof. by split. Qed.

Lemma guar_True {A} (p : prog E S A) : guar (λ _ _, True) p.
Proof. induction p as [X a|X Y f k' IH|X Y c k' IH|X q IHq p IH]; simpl; auto. Qed.

Lemma guar_weaken {A} (G G' : relation S) (p : prog E S A) :
  (∀ s s', G s s' → G' s s') → guar G p → guar G' p.
Proof.
  intros HG Hp. induction p as [X a|X Y f k' IH|X Y c k' IH|X q IHq p IH]; simpl in *; [done| | |].
  - intros s. destruct (Hp s). split; [by apply HG|]. by apply IH.
  - intros r. by apply IH.
  - destruct Hp. split; [by apply IHq|]. by apply IH.
Qed.

(** Programs whose steps all satisfy [G], interleaved in any way and
    answered in any way, move the state by [G] steps only. *)
Theorem pool_guar (G : relation S) s ps s' ps' :
  pool_steps (s, ps) (s', ps') → Forall (guar G) ps → rtc G s s' ∧ Forall (guar G) ps'.
Proof.
  intros H. remember (s, ps) as c eqn:Ec. remember (s', ps') as c' eqn:Ec'.
  revert s ps Ec. induction H as [c|c c1 c' H _ IH]; intros s ps Ec Hps.
  { subst c. injection Ec as -> ->. by split. }
  specialize (IH Ec'). destruct H as [s0 ps0 i B f k Hi|s0 ps0 i R c0 k r Hi|s0 ps0 i q p Hi];
    injection Ec as <- <-; pose proof (Forall_lookup_1 _ _ _ _ Hps Hi) as Hg; simpl in Hg.
  - destruct (Hg s0) as [HG Hk].
    destruct (IH _ _ eq_refl) as [Hr Hf]; [by apply Forall_insert|].
    split; [|done]. eapply rtc_l; eauto.
  - by apply (IH _ _ eq_refl), Forall_insert.
  - destruct Hg as [Hq Hp]. apply (IH _ _ eq_refl).
    apply Forall_app. split; [by apply Forall_insert|]. by constructor.
Qed.

(** The same, counting: no more state steps than pool steps. *)
Lemma pool_guar_nsteps (G : relation S) `{!Reflexive G} n s ps s' ps' :
  nsteps pool_step n (s, ps) (s', ps') → Forall (guar G) ps → nsteps G n s s'.
Proof.
  intros H. remember (s, ps) as c eqn:Ec. remember (s', ps') as c' eqn:Ec'.
  revert s ps Ec. induction H as [c|n c c1 c' H _ IH]; intros s ps Ec Hps.
  { subst c. injection Ec as -> ->. constructor. }
  specialize (IH Ec'). subst c. destruct c1 as [s1 ps1].
  destruct (pool_guar G s ps s1 ps1 (rtc_once _ _ H) Hps) as [_ Hps1].
  apply nsteps_l with s1; [|by apply (IH s1 ps1)].
  inversion H as [? ? i B f k Hi|? ? i R c0 k r Hi|? ? i q p Hi]; subst; [|done..].
  apply (Forall_lookup_1 _ _ _ _ Hps Hi).
Qed.

(** An invariant that every guaranteed step keeps holds in every state the
    pool reaches. *)
Corollary pool_invariant (G : relation S) (I : S → Prop) s ps s' ps' :
  (∀ s s', G s s' → I s → I s') → Forall (guar G) ps → I s →
  pool_steps (s, ps) (s', ps') → I s'.
Proof.
  intros HI Hps Hs H. destruct (pool_guar G s ps s' ps' H Hps) as [Hr _].
  clear H Hps. revert Hs. induction Hr as [s|s s1 s2 H1 Hr IH]; intros Hs; [done|].
  apply IH. by eapply HI.
Qed.

(** Every value [p] can return, whatever the state and the answers, is a
    [P]. *)
Fixpoint yields {A : Type} (P : A → Prop) (p : prog E S A) : Prop :=
  match p with
  | Ret a => P a
  | Atomic f k => ∀ s, yields P (k (f s).2)
  | Invoke c k => ∀ r, yields P (k r)
  | Spawn q p => yields P p
  end.

Lemma yields_True {A : Type} (p : prog E S A) : yields (λ _, True) p.
Proof. induction p as [X a|X Y f k' IH|X Y c k' IH|X q IHq p IH]; simpl; auto. Qed.

Lemma yields_mono {A : Type} (P Q : A → Prop) (p : prog E S A) :
  (∀ a, P a → Q a) → yields P p → yields Q p.
Proof. intros HPQ. induction p as [X a|X Y f k' IH|X Y c k' IH|X q IHq p IH]; simpl in *; eauto. Qed.

Lemma yields_bind {A B : Type} (P : A → Prop) (Q : B → Prop) (p : prog E S A) (k : A → prog E S B) :
  yields P p → (∀ a, P a → yields Q (k a)) → yields Q (bind p k).
Proof. intros Hp Hk. induction p as [X a|X Y f k' IH|X Y c k' IH|X q IHq p IH]; simpl in *; eauto. Qed.

Lemma yields_bind_ok {A B X : Type} (P : A → Prop) (Q : result B X → Prop)
  (p : prog E S (result A X)) (k : A → prog E S (result B X)) :
  yields (λ r, match r with Ok a => P a | Err e => Q (Err e) end) p →
  (∀ a, P a → yields Q (k a)) → yields Q (bind_ok p k).
Proof. intros Hp Hk. eapply yields_bind; [exact Hp|]. intros [a|e]; simpl; auto. Qed.

Lemma yields_for_try {A B X : Type} (P : B → Prop) (body : B → A → prog E S (result B X)) (l : list A) :
  (∀ b a, P b → yields (λ r, match r with Ok b => P b | Err _ => True end) (body b a)) →
  ∀ b, P b → yields (λ r, match r with Ok b => P b | Err _ => True end) (for_try body b l).
Proof.
  intros H. induction l as [|x l IH]; intros b Hb; simpl; [done|].
  eapply yields_bind_ok with (P := P); [by apply H|done].
Qed.

(** A guarantee whose rest needs to know what came before. *)
Lemma guar_bind_yields {A B : Type} G (P : A → Prop) (p : prog E S A) (k : A → prog E S B) :
  guar G p → yields P p → (∀ a, P a → guar G (k a)) → guar G (bind p k).
Proof.
  intros Hp Hv Hk. induction p as [X a|X Y f k' IH|X Y c k' IH|X q IHq p IH]; simpl in *; eauto.
  - intros s. destruct (Hp s). eauto.
  - destruct Hp. eauto.
Qed.

Lemma guar_bind_ok_yields {A B X : Type} G (P : A → Prop)
  (p : prog E S (result A X)) (k : A → prog E S (result B X)) :
  guar G p → yields (λ r, match r with Ok a => P a | Err _ => True end) p →
  (∀ a, P a → guar G (k a)) → guar G (bind_ok p k).
Proof. intros Hp Hv Hk. eapply guar_bind_yields; [done|exact Hv|]. intros [a|e]; simpl; auto. Qed.

Lemma guar_bind_reads {A B : Type} G (f : S → A) (k : A → prog E S B) :
  (∀ s, G s s) → (∀ s, guar G (k (f s))) → guar G (bind (reads f) k).
Proof. intros HG Hk s. simpl. auto. Qed.

Lemma guar_bind_ok_reads {A B X : Type} G (f : S → result A X) (k : A → prog E S (result B X)) :
  (∀ s, G s s) → (∀ s a, f s = Ok a → guar G (k a)) → guar G (bind_ok (reads f) k).
Proof. intros HG Hk s. simpl. split; [done|]. destruct (f s) eqn:Hf; simpl; eauto. Qed.

(** ** Requests *)

(** Everything [p] or a task it spawns asks of the outside is a [P]. *)
Fixpoint asks {A : Type} (P : ∀ R, E R → Prop) (p : prog E S A) : Prop :=
  match p with
  | Ret _ => True
  | Atomic f k => ∀ s, asks P (k (f s).2)
  | Invoke c k => P _ c ∧ ∀ r, asks P (k r)
  | Spawn q p => asks P q ∧ asks P p
  end.

Lemma asks_bind {A B : Type} P (p : prog E S A) (k : A → prog E S B) :
  asks P p → (∀ a, asks P (k a)) → asks P (bind p k).
Proof.
  intros Hp Hk. induction p as [X a|X Y f k' IH|X Y c k' IH|X q IHq p IH]; simpl in *; eauto.
  - destruct Hp. eauto.
  - destruct Hp. eauto.
Qed.

Lemma asks_bind_ok {A B X : Type} P (p : prog E S (result A X)) (k : A → prog E S (result B X)) :
  asks P p → (∀ a, asks P (k a)) → asks P (bind_ok p k).
Proof. intros Hp Hk. apply asks_bind; [done|]. by intros [a|e]; simpl. Qed.

Lemma asks_for_fold {A B : Type} P (body : B → A → prog E S B) (l : list A) :
  (∀ b a, asks P (body b a)) → ∀ b, asks P (for_fold body b l).
Proof. intros H. induction l as [|x l IH]; intros b; simpl; [done|]. apply asks_bind; auto. Qed.

Lemma asks_for_try {A B X : Type} P (body : B → A → prog E S (result B X)) (l : list A) :
  (∀ b a, asks P (body b a)) → ∀ b, asks P (for_try body b l).
Proof. intros H. induction l as [|x l IH]; intros b; simpl; [done|]. apply asks_bind_ok; auto. Qed.

Lemma wp_bind {A B : Type} Rl G (p : prog E S A) (k : A → prog E S B) Q s :
  wp Rl G p (λ a, wp Rl G (k a) Q) s → wp Rl G (bind p k) Q s.
Proof.
  revert s. induction p as [X a|X Y f k' IH|X Y c k' IH|X q IHq p IH]; intros s; simpl; [done| | |].
  - intros H s' Hs'. destruct (H s' Hs'). split; [done|]. by apply IH.
  - intros H r. by apply IH.
  - intros [Hq Hp]. split; [done|]. by apply IH.
Qed.

Lemma wp_weaken {A : Type} Rl (G G' : relation S) (p : prog E S A) Q s :
  (∀ s s', G s s' → G' s s') → wp Rl G p Q s → wp Rl G' p Q s.
Proof.
  intros HG. revert s.
  induction p as [X a|X Y f k' IH|X Y c k' IH|X q IHq p IH]; intros s H; simpl in *; [done| | |].
  - intros s' Hs'. destruct (H s' Hs'). split; auto.
  - auto.
  - destruct H as [Hq Hp]. split; [by eapply guar_weaken|auto].
Qed.

Lemma wp_mono {A : Type} Rl G (p : prog E S A) (Q Q' : A → S → Prop) s :
  wp Rl G p Q s → (∀ a s, Q a s → Q' a s) → wp Rl G p Q' s.
Proof.
  intros H HQ. revert s H.
  induction p as [X a|X Y f k' IH|X Y c k' IH|X q IHq p IH]; intros s; simpl; [auto| | |].
  - intros H s' Hs'. destruct (H s' Hs'). split; [done|]. by eapply IH.
  - intros H r. by eapply IH.
  - intros [Hq Hp]. split; [done|]. by eapply IH.
Qed.

(** What a guarantee and a value bound say of a program alone. *)
Lemma guar_wp {A : Type} (G : relation S) (P : A → Prop) (p : prog E S A) s :
  Reflexive G → Transitive G → guar G p → yields P p → wp eq G p (λ a s', G s s' ∧ P a) s.
Proof.
  intros HR HT. revert s.
  induction p as [X a|X Y f k' IH|X Y c k' IH|X q IHq p IH]; intros s Hg Hy; simpl in *; [done| | |].
  - intros s' <-. destruct (Hg s) as [H1 H2]. split; [done|].
    eapply wp_mono; [apply (IH _ P); auto|]. intros a s2 [H3 H4]. split; [by transitivity (f s).1|done].
  - intros r. auto.
  - destruct Hg. split; [done|]. auto.
Qed.

Lemma guar_wp_any {A : Type} (G : relation S) (P : A → Prop) (p : prog E S A) (Q : A → S → Prop) s :
  Reflexive G → Transitive G → guar G p → yields P p → (∀ a s', G s s' → P a → Q a s') →
  wp eq (λ _ _, True) p Q s.
Proof.
  intros HR HT Hg Hy HQ. eapply wp_mono; [eapply wp_weaken; [|by apply (guar_wp G P)]|]; [done|].
  intros a s' [??]. auto.
Qed.

Lemma wp_reads {B : Type} (G : relation S) (f : S → B) (Q : B → S → Prop) s :
  Reflexive G → Q (f s) s → wp eq G (reads f) Q s.
Proof. intros HR H s' <-. simpl. auto. Qed.

Lemma wp_writes (G : relation S) (f : S → S) (Q : unit → S → Prop) s :
  G s (f s) → Q tt (f s) → wp eq G (writes f) Q s.
Proof. intros HG H s' <-. simpl. auto. Qed.

Lemma wp_atomic {B : Type} (G : relation S) (f : S → S * B) (Q : B → S → Prop) s :
  G s (f s).1 → Q (f s).2 (f s).1 → wp eq G (atomic f) Q s.
Proof. intros HG H s' <-. simpl. auto. Qed.

(** Alone ([Rl] is equality) [wp] speaks of what [run] computes. *)
Lemma wp_run {A W : Type} (env : ∀ R, E R → W → R * W) G (p : prog E S A) Q s w :
  wp eq G p Q s → Q (run_value env p s w) (run_state env p s w).
Proof.
  unfold run_value, run_state.
  revert s w. induction p as [X a|X Y f k' IH|X Y c k' IH|X q IHq p IH]; intros s w; simpl; [done| | |].
  - intros H. destruct (H s eq_refl) as [_ H']. destruct (f s) as [s1 b]. by apply IH.
  - intros H. destruct (env Y c w) as [r w1]. by apply IH.
  - intros [_ H]. specialize (IH Q s w H). by destruct (run env p s w) as [[[? ?] ?] ?].
Qed.
End pool.

(** What a guarantee says of a run. *)
Lemma runs_guar {E S A W} (env : ∀ R, E R → W → R * W) (G : relation S) (p : prog E S A) s w :
  Reflexive G → Transitive G → guar G p → runs env p (λ _ s' _, G s s') s w.
Proof.
  intros HR HT Hg. unfold runs. apply (wp_run env G p (λ _ s', G s s')).
  eapply wp_mono; [by apply (guar_wp G (λ _, True)); [..|apply yields_True]|]. by intros a s' [? _].
Qed.

(** Between two programs: what the first guarantees, if it changes nothing,
    and with the outside it leaves. *)
Section alone.
Context {E : Type → Type} {S W : Type} (env : ∀ R, E R → W → R * W).
Lemma runs_step {A B : Type} (G : relation S) (p : prog E S A) (k : A → prog E S B) Q s w :
  Reflexive G → Transitive G → guar G p → (∀ a s' w', G s s' → runs env (k a) Q s' w') → runs env (bind p k) Q s w.
Proof. intros HR HT Hp Hk. apply runs_bind. by apply Hk, (runs_guar env G p s w). Qed.
Lemma run_same {A : Type} (p : prog E S A) s w : guar eq p → run_state env p s w = s.
Proof. intros Hp. symmetry. exact (runs_guar env eq p s w _ _ Hp). Qed.
Lemma runs_same_at {A B : Type} (p : prog E S A) (k : A → prog E S B) Q s w :
  guar eq p → runs env (k (run_value env p s w)) Q s (run_world env p s w) → runs env (bind p k) Q s w.
Proof. intros Hp Hk. apply runs_bind. unfold runs at 1. by rewrite (run_same p s w Hp). Qed.
Lemma runs_same {A B : Type} (p : prog E S A) (k : A → prog E S B) Q s w :
  guar eq p → (∀ w', runs env (k (run_value env p s w)) Q s w') → runs env (bind p k) Q s w.
Proof. intros Hp Hk. by apply runs_same_at. Qed.
End alone.

(** ** Programs that only wait

    A program that changes nothing and spawns nothing keeps every guarantee.
    The class finds the proof along the program's structure. *)

Class Quiet {E S A} (p : prog E S A) := quiet : ∀ G, guar G p.

#[export] Instance quiet_ret {E S A} (a : A) : Quiet (@Ret E S A a).
Proof. by intros G. Qed.
#[export] Instance quiet_invoke {E S R} (c : E R) : Quiet (@invoke E S R c).
Proof. by intros G r. Qed.
#[export] Instance quiet_bind {E S A B} (p : prog E S A) (k : A → prog E S B) :
  Quiet p → (∀ a, Quiet (k a)) → Quiet (bind p k).
Proof. intros Hp Hk G. apply guar_bind; [apply Hp|intros a; apply Hk]. Qed.
#[export] Instance quiet_bind_ok {E S A B X} (p : prog E S (result A X)) (k : A → prog E S (result B X)) :
  Quiet p → (∀ a, Quiet (k a)) → Quiet (bind_ok p k).
Proof. intros Hp Hk G. apply guar_bind_ok; [apply Hp|intros a; apply Hk]. Qed.
#[export] Instance quiet_for_fold {E S A B} (body : B → A → prog E S B) (l : list A) (b : B) :
  (∀ b a, Quiet (body b a)) → Quiet (for_fold body b l).
Proof. intros H G. apply guar_for_fold. intros; apply H. Qed.
#[export] Instance quiet_for_each {E S A} (body : A → prog E S unit) (l : list A) :
  (∀ a, Quiet (body a)) → Quiet (for_each body l).
Proof. intros H. apply quiet_for_fold. intros _ a. apply H. Qed.
#[export] Instance quiet_for_try {E S A B X} (body : B → A → prog E S (result B X)) (l : list A) (b : B) :
  (∀ b a, Quiet (body b a)) → Quiet (for_try body b l).
Proof. intros H G. apply guar_for_try. intros; apply H. Qed.
#[export] Instance quiet_walk {E S A B X} (f : A → prog E S (A * result B X)) (l : list A) :
  (∀ a, Quiet (f a)) → Quiet (walk f l).
Proof.
  intros H G. induction l as [|x l IH]; simpl; [done|].
  apply guar_bind; [apply H|]. intros [y [b|e]]; [|done]. apply guar_bind; [apply IH|]. by intros [].
Qed.
#[export] Hint Extern 3 (Quiet (match ?x with _ => _ end)) => destruct x : typeclass_instances.
#[export] Hint Extern 3 (Quiet (let _ := _ in _)) => cbv zeta : typeclass_instances.

(** ** A program alone *)

(** What [p], run with nothing beside it, returns and leaves. *)
Abbreviation alone p Q s := (wp eq (λ _ _, True) p Q s).

(** A program that only waits, and what it can return. *)
Lemma wp_quiet {E S A B} (p : prog E S A) (k : A → prog E S B) P Q s :
  Quiet p → yields P p → (∀ a, P a → alone (k a) Q s) → alone (bind p k) Q s.
Proof.
  intros Hq Hy Hk. apply wp_bind. apply (guar_wp_any eq P); [apply _..|apply quiet|done|].
  intros a s' <- Ha. by apply Hk.
Qed.

Lemma wp_waits {E S A B} (p : prog E S A) (k : A → prog E S B) Q s :
  Quiet p → (∀ a, alone (k a) Q s) → alone (bind p k) Q s.
Proof. intros Hq Hk. apply (wp_quiet p k (λ _, True)); [done|apply yields_True|auto]. Qed.

(** The same where [?] may end the handler. *)
Lemma wp_waits_ok {E S A B X} (p : prog E S (result A X)) (k : A → prog E S (result B X)) Q s :
  Quiet p → (∀ a, alone (k a) Q s) → (∀ e, Q (Err e) s) → alone (bind_ok p k) Q s.
Proof. intros Hq Hk He. apply wp_waits; [done|]. intros [a|e]; [apply Hk|apply He]. Qed.
Lemma wp_reads_ok {E S A B X} (f : S → result A X) (k : A → prog E S (result B X)) Q s :
  (∀ a, f s = Ok a → alone (k a) Q s) → (∀ e, f s = Err e → Q (Err e) s) → alone (bind_ok (reads f) k) Q s.
Proof. intros Hk He. apply wp_bind, wp_reads; [by intros ? |]. destruct (f s) eqn:E1; [by apply Hk|by apply He]. Qed.

(** ** Together, each with its own rely

    Tasks that each hold up under what the others guarantee hold up
    interleaved, when none starts a task of its own. *)
Section parallel.
Context {E : Type → Type} {S : Type}.
Fixpoint spawnless {B : Type} (p : prog E S B) : Prop :=
  match p with
  | Ret _ => True
  | Atomic f k => ∀ b, spawnless (k b)
  | Invoke c k => ∀ r, spawnless (k r)
  | Spawn q p => False
  end.
Lemma spawnless_bind {B C : Type} (p : prog E S B) (k : B → prog E S C) :
  spawnless p → (∀ b, spawnless (k b)) → spawnless (bind p k).
Proof. intros Hp Hk. induction p; simpl in *; auto. Qed.
Lemma spawnless_bind_ok {B C X : Type} (p : prog E S (result B X)) (k : B → prog E S (result C X)) :
  spawnless p → (∀ b, spawnless (k b)) → spawnless (bind_ok p k).
Proof. intros Hp Hk. apply spawnless_bind; [done|]. by intros []. Qed.

Lemma spawnless_ret {B : Type} (b : B) : spawnless (@Ret E S B b).
Proof. done. Qed.

(** A program with a guarantee that needs nothing of the others: it and they
    move the state by [R]. *)
Lemma guar_wp_rely {A : Type} (G0 Rl0 G' R : relation S) (p : prog E S A) s :
  Reflexive R → Transitive R → (∀ s s', G0 s s' → G' s s') → (∀ s s', G0 s s' → R s s') →
  (∀ s s', Rl0 s s' → R s s') → guar G0 p → wp Rl0 G' p (λ _ s', R s s') s.
Proof.
  intros HR HT HG' HG0 HRl. revert s.
  induction p as [X a|X Y f k' IH|X Y c k' IH|X q IHq p IH]; intros s Hp; simpl in *; [done| | |].
  - intros s1 H1. destruct (Hp s1) as [Hg Hk]. split; [by apply HG'|].
    eapply wp_mono; [by apply IH|]. simpl. intros _ s2 H2. transitivity s1; [by apply HRl|].
    transitivity (f s1).1; [by apply HG0|done].
  - intros r. by apply IH.
  - destruct Hp. split; [by eapply guar_weaken|]. by apply IH.
Qed.

Lemma wp_stable {A : Type} (Rl G : relation S) (p : prog E S A) (Q : A → S → Prop) s s' :
  Transitive Rl → (∀ a s s', Q a s → Rl s s' → Q a s') → wp Rl G p Q s → Rl s s' → wp Rl G p Q s'.
Proof.
  intros Htr Hst Hp HR. induction p as [X a|X Y f k' IH|X Y c k' IH|X q IHq p IH]; simpl in *.
  - by eapply Hst.
  - intros s1 H1. apply Hp. by transitivity s'.
  - intros r. by apply IH.
  - destruct Hp. split; [done|]. by apply IH.
Qed.

Context (Rl G : nat → relation S) (Htr : ∀ i, Transitive (Rl i)).
Context (Hrefl : ∀ i, Reflexive (Rl i)) (HG : ∀ i j s s', i ≠ j → G i s s' → Rl j s s').
Definition holds (s : S) (ps : list (prog E S unit)) : Prop :=
  ∀ i p, ps !! i = Some p → wp (Rl i) (G i) p (λ _ _, True) s ∧ spawnless p.
Lemma holds_insert s s' ps i p p' :
  holds s ps → ps !! i = Some p → (s' = s ∨ G i s s') →
  wp (Rl i) (G i) p' (λ _ _, True) s' → spawnless p' → holds s' (<[i := p']> ps).
Proof using Htr HG.
  intros Hps Hi HG' Hp' Hn j q. destruct (decide (i = j)) as [<-|Hne].
  - rewrite list_lookup_insert_eq by (by eapply lookup_lt_Some). by intros [= <-].
  - rewrite list_lookup_insert_ne by done. intros Hq. destruct (Hps j q Hq) as [Hw Hs]. split; [|done].
    destruct HG' as [->|HG']; [done|]. eapply wp_stable; [apply Htr|done|exact Hw|by eapply HG].
Qed.
(** Every state they pass through is reached by their guaranteed steps. *)
Lemma pool_parallel s ps s' ps' :
  pool_steps (s, ps) (s', ps') → holds s ps → rtc (λ s s', ∃ i, i < length ps ∧ G i s s') s s' ∧ holds s' ps'.
Proof using Htr HG Hrefl.
  intros H. remember (s, ps) as c eqn:Ec. remember (s', ps') as c' eqn:Ec'.
  revert s ps Ec. induction H as [c|c c1 c' H _ IH]; intros s ps Ec Hps.
  { subst c. injection Ec as -> ->. by split. }
  specialize (IH Ec'). destruct H as [s0 ps0 i B f k Hi|s0 ps0 i R c0 k r Hi|s0 ps0 i q p Hi];
    injection Ec as <- <-; destruct (Hps _ _ Hi) as [Hw Hn]; simpl in Hw, Hn.
  - destruct (Hw s0) as [HG' Hk]; [done|].
    destruct (IH _ _ eq_refl) as [Hr Hf].
    { eapply holds_insert; eauto. }
    split; [|done]. rewrite length_insert in Hr. eapply rtc_l; [|exact Hr].
    exists i. split; [by eapply lookup_lt_Some|done].
  - destruct (IH _ _ eq_refl) as [Hr Hf].
    { eapply holds_insert; eauto. }
    rewrite length_insert in Hr. by split.
  - done.
Qed.
End parallel.

(** One step of a proof that a handler keeps a guarantee: along the
    program's structure, leaving what each change must satisfy. *)
Ltac guar_step :=
  lazymatch goal with
  | |- guar _ (bind _ _) => apply guar_bind; [|intros ?]
  | |- guar _ (bind_ok _ _) => apply guar_bind_ok; [|intros ?]
  | |- guar _ (for_fold _ _ _) => apply guar_for_fold; intros ? ?
  | |- guar _ (for_each _ _) => apply guar_for_each; intros ?
  | |- guar _ (for_try _ _ _) => apply guar_for_try; intros ? ?
  | |- guar _ (reads _) => apply guar_reads; intros ?
  | |- guar _ (writes _) => apply guar_writes; intros ?
  | |- guar _ (atomic _) => apply guar_atomic; intros ?
  | |- guar _ (invoke _) => apply guar_invoke
  | |- guar _ (spawn _) => apply guar_spawn
  | |- guar _ (Ret _) => exact I
  | |- guar _ (match ?x with _ => _ end) => destruct x eqn:?
  | |- guar _ (let _ := _ in _) => cbv zeta
  end.
(** One step towards what a program returns. *)
Ltac yield_step :=
  lazymatch goal with
  | |- yields _ (bind _ _) => eapply yields_bind; [apply yields_True|intros ? _]
  | |- yields _ (Ret _) => simpl
  | |- yields _ (match ?x with _ => _ end) => destruct x eqn:?
  | |- yields _ (let _ := _ in _) => cbv zeta
  end.
Create HintDb guar discriminated.
(** The whole walk: lemmas of the database first, then the structure. *)
Ltac guar_auto := repeat first [solve [eauto 2 with guar nocore] | solve [apply quiet] | guar_step].
