(* ===== verification/Traced.v ===== *)
(** * Runs with their history

    [Async] lets the outside answer anything and forgets what it answered.
    Here a step also notes the exchange: which call was made and what came
    back. [twp] proves of one program that it keeps an invariant over the
    state and the history, whatever the others do; [traced_invariant] lifts
    it to every interleaving. A fact of the form "this exchange took place"
    stays true, so a postcondition may speak of the history. *)

From S2P Require Import Prelude Async.
From stdpp Require Import relations.
From stdpp Require Import options.

Section traced.
Context {E : Type → Type} {S : Type}.

Inductive exchange : Type := | Exchange {R : Type} (c : E R) (r : R).
(** The latest first. *)
Abbreviation history := (list exchange).

Inductive traced_step : S * history * list (prog E S unit) → S * history * list (prog E S unit) → Prop :=
  | traced_atomic s h ps i B (f : S → S * B) k :
      ps !! i = Some (Atomic f k) → traced_step (s, h, ps) ((f s).1, h, <[i := k (f s).2]> ps)
  | traced_invoke s h ps i R (c : E R) k r :
      ps !! i = Some (Invoke c k) → traced_step (s, h, ps) (s, Exchange c r :: h, <[i := k r]> ps)
  | traced_spawn s h ps i q p :
      ps !! i = Some (Spawn q p) → traced_step (s, h, ps) (s, h, <[i := p]> ps ++ [q]).
Definition traced_steps := rtc traced_step.

(** A pool's steps are the traced ones with the history left out. *)
Lemma traced_pool c c' : traced_step c c' → pool_step (c.1.1, c.2) (c'.1.1, c'.2).
Proof. intros []; simpl; by econstructor. Qed.

(** What a run makes of the history, by one schedule. *)
Section sched.
Context {W : Type} (env : ∀ R, E R → W → R * W).
Definition traced_sched_step (i : nat) (c : S * history * list (prog E S unit) * W)
    : S * history * list (prog E S unit) * W :=
  let '(s, h, ps, w) := c in
  match ps !! i with
  | Some (Atomic f k) => let '(s, b) := f s in (s, h, <[i := k b]> ps, w)
  | Some (Invoke c k) => let '(r, w) := env _ c w in (s, Exchange c r :: h, <[i := k r]> ps, w)
  | Some (Spawn q p) => (s, h, <[i := p]> ps ++ [q], w)
  | _ => c
  end.
Definition traced_sched (is_ : list nat) (c : S * history * list (prog E S unit) * W)
    : S * history * list (prog E S unit) * W :=
  foldl (λ c i, traced_sched_step i c) c is_.

Lemma traced_sched_step_sound i c : traced_steps c.1 (traced_sched_step i c).1.
Proof.
  destruct c as [[[s h] ps] w]. simpl. destruct (ps !! i) as [[a|B f k|R c k|q p]|] eqn:Hi; try done.
  - destruct (f s) as [s1 b] eqn:Hf. apply rtc_once.
    pose proof (traced_atomic s h ps i B f k Hi) as H. by rewrite Hf in H.
  - destruct (env R c w) as [r w1]. by apply rtc_once, traced_invoke.
  - by apply rtc_once, traced_spawn.
Qed.
Lemma traced_sched_sound is_ c : traced_steps c.1 (traced_sched is_ c).1.
Proof.
  revert c. induction is_ as [|i is_ IH]; intros c; [done|].
  etransitivity; [apply (traced_sched_step_sound i)|apply IH].
Qed.
End sched.

(** ** Invariants over the history *)

Context (I : S → history → Prop).

(** From a state and a history that [I] holds of, however both moved on
    since: every step of [p] keeps [I], and what [p] returns satisfies
    [Q]. *)
Fixpoint twp {A : Type} (p : prog E S A) (Q : A → history → Prop) (h : history) : Prop :=
  match p with
  | Ret a => ∀ h', h ⊆ h' → Q a h'
  | Atomic f k => ∀ s h', h ⊆ h' → I s h' → I (f s).1 h' ∧ twp (k (f s).2) Q h'
  | Invoke c k => ∀ r h', h ⊆ h' → twp (k r) Q (Exchange c r :: h')
  | Spawn q p => twp q (λ _ _, True) h ∧ twp p Q h
  end.

Lemma twp_later {A} (p : prog E S A) Q h h' : h ⊆ h' → twp p Q h → twp p Q h'.
Proof.
  revert h h'. induction p as [X a|X Y f k IH|X Y c k IH|X q IHq p IH]; intros h h' Hh; simpl.
  - intros H h1 H1. apply H. set_solver.
  - intros H s h1 H1. apply H. set_solver.
  - intros H r h1 H1. apply H. set_solver.
  - intros []. eauto.
Qed.
Lemma twp_mono {A} (p : prog E S A) (Q Q' : A → history → Prop) h :
  (∀ a h', h ⊆ h' → Q a h' → Q' a h') → twp p Q h → twp p Q' h.
Proof.
  revert h. induction p as [X a|X Y f k IH|X Y c k IH|X q IHq p IH]; intros h HQ; simpl.
  - auto.
  - intros H s h1 H1 Hs. destruct (H s h1 H1 Hs) as [Hf Hk]. split; [done|].
    eapply IH; [|exact Hk]. intros a h2 H2. apply HQ. set_solver.
  - intros H r h1 H1. eapply IH; [|by apply H]. intros a h2 H2. apply HQ. set_solver.
  - intros []. eauto.
Qed.
Lemma twp_bind {A B} (p : prog E S A) (k : A → prog E S B) Q h :
  twp p (λ a h', twp (k a) Q h') h → twp (bind p k) Q h.
Proof.
  revert h. induction p as [X a|X Y f k' IH|X Y c k' IH|X q IHq p IH]; intros h; simpl.
  - intros H. by apply H.
  - intros H s h1 H1 Hs. destruct (H s h1 H1 Hs). eauto.
  - eauto.
  - intros []. eauto.
Qed.
Lemma twp_ret {A} (a : A) (Q : A → history → Prop) h : (∀ h', h ⊆ h' → Q a h') → twp (Ret a) Q h.
Proof. done. Qed.
Lemma twp_invoke {R : Type} (c : E R) (Q : R → history → Prop) h :
  (∀ r h', h ⊆ h' → Exchange c r ∈ h' → Q r h') → twp (invoke c) Q h.
Proof. intros H r h1 H1 h2 H2. apply H; set_solver. Qed.
Lemma twp_atomic {B : Type} (f : S → S * B) (Q : B → history → Prop) h :
  (∀ s h', h ⊆ h' → I s h' → I (f s).1 h' ∧ ∀ h'', h' ⊆ h'' → Q (f s).2 h'') → twp (atomic f) Q h.
Proof. done. Qed.
Lemma twp_writes (f : S → S) (Q : unit → history → Prop) h :
  (∀ s h', h ⊆ h' → I s h' → I (f s) h') → (∀ h', h ⊆ h' → Q tt h') → twp (writes f) Q h.
Proof. intros Hf HQ s h1 H1 Hs. split; [by apply Hf|]. intros h2 H2. apply HQ. set_solver. Qed.

(** A program that keeps [I] whatever the history. *)
Lemma twp_guar {A} (p : prog E S A) h :
  guar (λ s s', ∀ h, I s h → I s' h) p → twp p (λ _ _, True) h.
Proof.
  revert h. induction p as [X a|X Y f k IH|X Y c k IH|X q IHq p IH]; intros h; simpl; [done| | |].
  - intros H s h1 _ Hs. destruct (H s). auto.
  - auto.
  - intros []. auto.
Qed.
(** The same, before a program that needs nothing of it. *)
Lemma twp_skip {A B} (p : prog E S A) (k : A → prog E S B) Q h :
  guar (λ s s', ∀ h, I s h → I s' h) p → (∀ a h', h ⊆ h' → twp (k a) Q h') → twp (bind p k) Q h.
Proof.
  intros Hp Hk. apply twp_bind. eapply twp_mono; [|by apply twp_guar]. intros a h' Hh _. by apply Hk.
Qed.

Theorem traced_invariant s h ps c' (I_mono : ∀ s h x, I s h → I s (x :: h)) :
  traced_steps (s, h, ps) c' → Forall (λ p, twp p (λ _ _, True) h) ps → I s h → I c'.1.1 c'.1.2.
Proof.
  intros H. remember (s, h, ps) as c eqn:Ec. revert s h ps Ec.
  induction H as [c|c c1 c' H _ IH]; intros s h ps Ec Hps Hs.
  { by subst c. }
  destruct H as [s0 h0 ps0 i B f k Hi|s0 h0 ps0 i R c0 k r Hi|s0 h0 ps0 i q p Hi];
    injection Ec as <- <- <-; pose proof (Forall_lookup_1 _ _ _ _ Hps Hi) as Hp; simpl in Hp.
  - destruct (Hp s0 h0 (reflexivity h0) Hs) as [Hs' Hk]. eapply IH; [done| |done]. by apply Forall_insert.
  - eapply IH; [done| |by apply I_mono]. apply Forall_insert; [|by apply Hp].
    eapply Forall_impl; [exact Hps|]. intros p Hp'. eapply twp_later; [|exact Hp']. set_solver.
  - destruct Hp as [Hq Hp]. eapply IH; [done| |done]. apply Forall_app. split; [by apply Forall_insert|]. by constructor.
Qed.
End traced.
Arguments exchange E : clear implicits.

(** ** One program alone, with the history it makes *)

Section logged.
Context {E : Type → Type} {S W : Type} (env : ∀ R, E R → W → R * W).
(** The outside, noting every exchange. *)
Definition logged (R : Type) (c : E R) (wh : W * list (exchange E)) : R * (W * list (exchange E)) :=
  let '(r, w) := env R c wh.1 in (r, (w, Exchange c r :: wh.2)).
(** The exchanges of a run, the latest first. *)
Definition asked {A : Type} (p : prog E S A) (s : S) (w : W) : list (exchange E) := (run_world logged p s (w, [])).2.

Lemma logged_call {R : Type} (c : E R) wh :
  logged R c wh = ((env R c wh.1).1, ((env R c wh.1).2, Exchange c (env R c wh.1).1 :: wh.2)).
Proof. unfold logged. by destruct (env R c wh.1). Qed.
Lemma logged_run {A : Type} (p : prog E S A) s w h :
  run env p s w = ((run logged p s (w, h)).1.1, (run logged p s (w, h)).1.2.1, (run logged p s (w, h)).2).
Proof.
  revert s w h. induction p as [X a|X Y f k IH|X Y c k IH|X q IHq p IH]; intros s w h; simpl; [done|..].
  - destruct (f s). apply IH.
  - rewrite logged_call. simpl. destruct (env Y c w) as [r w1]. apply IH.
  - rewrite (IH s w h). by destruct (run logged p s (w, h)) as [[[??][??]]?].
Qed.
Lemma logged_value {A : Type} (p : prog E S A) s w h : run_value logged p s (w, h) = run_value env p s w.
Proof. unfold run_value. by rewrite (logged_run p s w h). Qed.
Lemma logged_state {A : Type} (p : prog E S A) s w h : run_state logged p s (w, h) = run_state env p s w.
Proof. unfold run_state. by rewrite (logged_run p s w h). Qed.

(** A run only adds to the history. *)
Lemma runs_history {A : Type} (p : prog E S A) s w :
  runs logged p (λ _ _ w', w.2 `suffix_of` w'.2) s w.
Proof.
  unfold runs, run_world. revert s w. induction p as [X a|X Y f k IH|X Y c k IH|X q IHq p IH]; intros s w; simpl.
  - done.
  - destruct (f s). apply IH.
  - rewrite logged_call. etransitivity; [|apply IH]. by apply suffix_cons_r.
  - specialize (IH s w). by destruct (run logged p s w) as [[[??]?]?].
Qed.
Lemma runs_yields {A : Type} (P : A → Prop) (p : prog E S A) s w : yields P p → runs env p (λ a _ _, P a) s w.
Proof.
  unfold runs, run_value. revert s w. induction p as [X a|X Y f k IH|X Y c k IH|X q IHq p IH]; intros s w; simpl; [done|..].
  - intros Hy. specialize (Hy s). destruct (f s). by apply IH.
  - intros Hy. destruct (env Y c w) as [r w1]. by apply IH.
  - intros Hy. specialize (IH P s w Hy). by destruct (run env p s w) as [[[??]?]?].
Qed.
Lemma runs_and {A : Type} (p : prog E S A) (Q Q' : A → S → W → Prop) s w :
  runs env p Q s w → runs env p Q' s w → runs env p (λ a s w, Q a s w ∧ Q' a s w) s w.
Proof. by split. Qed.
(** What it returns, with what was asked so far. *)
Lemma runs_logged {A : Type} (p : prog E S A) (Q : A → S → list (exchange E) → Prop) s w :
  runs logged p (λ a s' w', Q a s' w'.2) s (w, []) → Q (run_value env p s w) (run_state env p s w) (asked p s w).
Proof. unfold runs, asked. by rewrite logged_value, logged_state. Qed.
End logged.
