(* ===== verification/Json.v ===== *)
(** * What an engine answers with

    The JSON values of the [serde_json] crate, as the interface the code
    uses of them: [Json] gives the accessors ([get], [as_str], …), the
    builders behind [json!] and the text of a value in a message. The
    client's definitions are stated against the class. [Tree] is one
    instance, for evaluation. *)

From S2P Require Import Prelude.
From stdpp Require Import options.

Class Json (J : Type) := {
  j_null : J;
  j_get : string → J → option J;
  j_str : J → option string;
  j_u64 : J → option Z;
  j_i64 : J → option Z;
  j_bool : J → option bool;
  j_array : J → option (list J);
  (** [as_object], in the order a map iterates. *)
  j_object : J → option (list (string * J));
  of_str : string → J;
  of_num : Z → J;
  of_bool : bool → J;
  of_array : list J → J;
  of_object : list (string * J) → J;
  (** [Display]: compact JSON text. *)
  j_show : J → string;
}.

(** ** A concrete JSON *)

Inductive Tree :=
  | TNull
  | TBool (b : bool)
  | TNum (n : Z)
  | TStr (s : string)
  | TArr (l : list Tree)
  | TObj (l : list (string * Tree)).

Fixpoint assoc (k : string) (l : list (string * Tree)) : option Tree :=
  match l with
  | [] => None
  | (k', v) :: l => if k' == k then Some v else assoc k l
  end.

(** The text of a tree, close enough to JSON for a message. *)
Fixpoint tree_show (t : Tree) : string :=
  match t with
  | TNull => "null"
  | TBool b => if b then "true" else "false"
  | TNum n => pretty n
  | TStr s => debug_str s
  | TArr l => "[" +:+ join "," (map tree_show l) +:+ "]"
  | TObj l => "{" +:+ join "," (map (λ '(k, v), debug_str k +:+ ":" +:+ tree_show v) l) +:+ "}"
  end%string.

#[export] Instance Tree_json : Json Tree := {|
  j_null := TNull;
  j_get k t := match t with TObj l => assoc k l | _ => None end;
  j_str t := match t with TStr s => Some s | _ => None end;
  j_u64 t := match t with TNum n => if (0 <=? n)%Z then Some n else None | _ => None end;
  j_i64 t := match t with TNum n => Some n | _ => None end;
  j_bool t := match t with TBool b => Some b | _ => None end;
  j_array t := match t with TArr l => Some l | _ => None end;
  j_object t := match t with TObj l => Some l | _ => None end;
  of_str := TStr;
  of_num := TNum;
  of_bool := TBool;
  of_array := TArr;
  of_object := TObj;
  j_show := tree_show;
|}.

(** [v.get(k).and_then(as_str)] and its kin. *)
Section accessors.
Context {J : Type} `{Json J}.
Definition get_str (k : string) (v : J) : option string := j_get k v ≫= j_str.
Definition get_u64 (k : string) (v : J) : option Z := j_get k v ≫= j_u64.
Definition get_bool (k : string) (v : J) : option bool := j_get k v ≫= j_bool.
Definition get_array (k : string) (v : J) : option (list J) := j_get k v ≫= j_array.
End accessors.
