(* ===== verification/Inventory.v ===== *)
(** * What each node's engine holds (src/inventory.rs)

    Slabs and volumes as the engine reports them, each volume placed on the
    slab(s) it lives on, and the slabs summed per tier. Shown: what each
    answer of [resolve] means (the walk up the parents stops at the first
    ancestor that owns slots and looks at no more than 64), and that the
    tiers partition the slabs: every slab is counted once, in its tier. *)

From S2P Require Import Prelude Model.
From stdpp Require Import options.

(** ** Types *)

Record DriveRef := MkDriveRef { serial : string; wwn : string; dr_model : string; dr_path : string }.

Record Slab := MkSlab {
  slab_id : string;
  slab_tier : string;
  slab_role : string;
  slab_domain : string;
  slab_drive : option DriveRef;
  slot_size : Z;
  total_slots : Z;
  free_slots : Z;
  allocated_slots : Z;
  slab_total_bytes : Z;
  slab_free_bytes : Z;
}.

Definition allocated_bytes (s : Slab) : Z := u64_saturating_mul (allocated_slots s) (slot_size s).

(** [DriveRef::describe]. *)
Definition drive_describe (d : DriveRef) : string :=
  unwrap_or "?"%string (find_first (λ s, s != ""%string) [serial d; wwn d; dr_path d]).

Record Attachment := MkAttachment {
  transport : string;
  at_device : option string;
  mounted_at : option string;
  at_target : option string;
  at_port : option Z;
  at_lun : option Z;
  at_nsid : option Z;
  at_state : option string;
}.

Record SlabPlacement := MkSlabPlacement {
  sp_id : string;
  sp_role : string;
  sp_tier : string;
  sp_domain : string;
  sp_drive : DriveRef;
  sp_node : string;
  sp_state : string;
  sp_array_id : option string;
  sp_legs : Z;
  shared_legs : Z;
  parity_legs : Z;
  sp_bytes : Z;
}.

Record DrivePlacement := MkDrivePlacement {
  dp_drive : DriveRef; dp_node : string; dp_slabs : Z; dp_legs : Z; dp_bytes : Z
}.

Record LegTotals := MkLegTotals {
  lt_policy : string;
  lt_health : string;
  extents : Z;
  expected : Z;
  missing : Z;
  unreadable : Z;
  failed_slabs : list string;
}.

Record ArrayMember := MkArrayMember {
  am_index : Z; am_state : string; am_drive : DriveRef; am_node : string
}.

Record ArrayPlacement := MkArrayPlacement { ap_id : string; ap_level : string; ap_members : list ArrayMember }.

Record Placement := MkPlacement {
  pl_slabs : list SlabPlacement;
  pl_drives : list DrivePlacement;
  pl_legs : LegTotals;
  pl_rebuild : string;
  pl_arrays : list ArrayPlacement;
}.

(** [Placement::bad_slabs] and [Placement::partners_down]. *)
Definition bad_slabs (p : Placement) : nat :=
  length (List.filter (λ s, (sp_state s == "failed"%string) || (sp_state s == "missing"%string)) (pl_slabs p)).
Definition partners_down (p : Placement) : nat :=
  length (List.filter (λ m, (am_state m != "active"%string) && (am_state m != "spare"%string))
            (concat (map ap_members (pl_arrays p)))).

Record Owner := MkOwner { ow_kind : string; ow_namespace : string; ow_name : string; ow_uid : option string }.

(** [Owner::describe]. *)
Definition owner_describe (o : Owner) : string :=
  (if ow_namespace o == "" then ow_kind o +:+ " " +:+ ow_name o
   else ow_kind o +:+ " " +:+ ow_namespace o +:+ "/" +:+ ow_name o)%string.

Record EngineVolume := MkEngineVolume {
  ev_id : string;
  ev_name : string;
  virtual_size_bytes : Z;
  ev_allocated_bytes : Z;
  shared_bytes : Z;
  ev_parent : option string;
  sealed : bool;
  ev_role : string;
  ev_health : string;
  redundancy : string;
  ev_array_id : option string;
  ev_owner : option Owner;
  ev_kind : option string;
  in_use : option bool;
  attachments : list Attachment;
  ev_consumer : option Owner;
  ev_placement : option Placement;
}.

(** [EngineVolume::consumer]. *)
Definition consumer (v : EngineVolume) : option Owner := opt_or (ev_consumer v) (ev_owner v).

Inductive PlacedBy := ByEngine | BySlots | ByParent | ByRole | Unknown.
#[export] Instance PlacedBy_eq_dec : EqDecision PlacedBy.
Proof. solve_decision. Defined.

(** The claim bound to a volume's PV (src/kube.rs). *)
Record ClaimRef := MkClaimRef {
  cr_namespace : string;
  cr_name : string;
  cr_uid : option string;
  cr_phase : option string;
  cr_bound : bool;
}.
Record VolumeClaim := MkVolumeClaim {
  vc_pv : string;
  vc_phase : string;
  vc_reclaim : string;
  vc_capacity : string;
  volume_kind : option string;
  vc_component : option string;
  vc_claim : option ClaimRef;
}.

Record PlacedVolume := MkPlacedVolume {
  pv_volume : EngineVolume;
  pv_slabs : list string;
  placed_by : PlacedBy;
  pv_pv : option VolumeClaim;
}.
#[export] Instance PlacedVolume_eta : Eta PlacedVolume := λ r,
  MkPlacedVolume (pv_volume r) (pv_slabs r) (placed_by r) (pv_pv r).

Record NodeInventory := MkNodeInventory {
  inv_slabs : list Slab;
  inv_volumes : list PlacedVolume;
  fetched_at : option time;
  inv_error : option string;
}.
#[export] Instance NodeInventory_eta : Eta NodeInventory := λ r,
  MkNodeInventory (inv_slabs r) (inv_volumes r) (fetched_at r) (inv_error r).

Definition NodeInventory_default : NodeInventory := MkNodeInventory [] [] None None.

(** ** Placing *)

(** A set of slab ids that is there and not empty. *)
Definition owned (slot_owners : gmap string (gset string)) (id : string) : option (gset string) :=
  opt_filter (λ s : gset string, negb (bool_decide (s = ∅))) (slot_owners !! id).

(** [volumes.iter().map(|v| (id, v)).collect()]: a later one replaces an
    earlier one of the same id. *)
Definition index_by_id (volumes : list EngineVolume) : gmap string EngineVolume :=
  foldl (λ m v, <[ev_id v := v]> m) ∅ volumes.

Fixpoint parent_walk (fuel : nat) (by_id : gmap string EngineVolume)
    (slot_owners : gmap string (gset string)) (cur : option string) : option (gset string) :=
  match fuel, cur with
  | S fuel, Some pid =>
      match owned slot_owners pid with
      | Some s => Some s
      | None => parent_walk fuel by_id slot_owners (by_id !! pid ≫= ev_parent)
      end
  | _, _ => None
  end.

Definition resolve (v : EngineVolume) (by_id : gmap string EngineVolume) (slabs : list Slab)
    (slot_owners : gmap string (gset string)) : list string * PlacedBy :=
  match opt_filter (λ p, match pl_slabs p with [] => false | _ => true end) (ev_placement v) with
  | Some p => (bs_list (list_to_set (map sp_id (pl_slabs p))), ByEngine)
  | None =>
      match owned slot_owners (ev_id v) with
      | Some s => (bs_list s, BySlots)
      | None =>
          match parent_walk 64 by_id slot_owners (ev_parent v) with
          | Some s => (bs_list s, ByParent)
          | None =>
              match (if ev_role v == ""%string then []
                     else List.filter (λ s, slab_role s == ev_role v) slabs) with
              | [s] => ([slab_id s], ByRole)
              | _ => ([], Unknown)
              end
          end
      end
  end.

Definition place (slabs : list Slab) (volumes : list EngineVolume)
    (slot_owners : gmap string (gset string)) : list PlacedVolume :=
  let by_id := index_by_id volumes in
  map (λ v, let '(slabs_of, how) := resolve v by_id slabs slot_owners in
            {| pv_volume := v; pv_slabs := slabs_of; placed_by := how; pv_pv := None |}) volumes.

Definition needs_slot_scan (volumes : list EngineVolume) : bool :=
  existsb (λ v, is_none (ev_placement v)) volumes.

Definition volumes_on (inv : NodeInventory) (slab_id : string) : list PlacedVolume :=
  List.filter (λ v, existsb (λ s, s == slab_id) (pv_slabs v)) (inv_volumes inv).

(** ** Tiers *)

Record TierRollup := MkTierRollup {
  tr_tier : string;
  tr_slabs : list string;
  tr_nodes : list string;
  tr_total_bytes : Z;
  tr_free_bytes : Z;
  tr_allocated_bytes : Z;
  tr_volumes : Z;
}.
#[export] Instance TierRollup_eta : Eta TierRollup := λ r,
  MkTierRollup (tr_tier r) (tr_slabs r) (tr_nodes r) (tr_total_bytes r) (tr_free_bytes r)
    (tr_allocated_bytes r) (tr_volumes r).

Definition TierRollup_new (tier : string) : TierRollup := MkTierRollup tier [] [] 0 0 0 0.

Definition tier_add_slab (node : string) (t : TierRollup) (slab : Slab) : TierRollup :=
  t <| tr_slabs ::= λ l, l ++ [(node +:+ "/" +:+ slab_id slab)%string] |>
    <| tr_nodes ::= λ l, if bool_decide (node ∈ l) then l else l ++ [node] |>
    <| tr_total_bytes ::= λ n, u64_add n (slab_total_bytes slab) |>
    <| tr_free_bytes ::= λ n, u64_add n (slab_free_bytes slab) |>
    <| tr_allocated_bytes ::= λ n, u64_add n (allocated_bytes slab) |>.

Definition tiers_slab (node : string) (out : gmap string TierRollup) (slab : Slab) : gmap string TierRollup :=
  <[slab_tier slab :=
      tier_add_slab node (unwrap_or (TierRollup_new (slab_tier slab)) (out !! slab_tier slab)) slab]> out.

(** One slab id of one volume: counted unless this volume was already seen
    in that tier. *)
Definition tiers_volume_slab (slabs : list Slab) (v : PlacedVolume)
    (st : gmap string TierRollup * gset (string * string)) (sid : string)
    : gmap string TierRollup * gset (string * string) :=
  let '(out, seen) := st in
  match find_first (λ s, slab_id s == sid) slabs with
  | None => (out, seen)
  | Some slab =>
      let k := (slab_tier slab, ev_id (pv_volume v)) in
      if bool_decide (k ∈ seen) then (out, seen)
      else (alter (λ t, t <| tr_volumes ::= Z.add 1 |>) (slab_tier slab) out, {[k]} ∪ seen)
  end.

Definition tiers_node (out : gmap string TierRollup) (kv : string * NodeInventory) : gmap string TierRollup :=
  let '(node, inv) := kv in
  let out := foldl (tiers_slab node) out (inv_slabs inv) in
  (foldl (λ st v, foldl (tiers_volume_slab (inv_slabs inv) v) st (pv_slabs v))
     (out, ∅) (inv_volumes inv)).1.

Definition tiers (all : gmap string NodeInventory) : list TierRollup :=
  bt_values (foldl tiers_node ∅ (bt_list all)).

(** ** Facts: placing *)

(** The ids a walk from [cur] looks at: [nth_ancestor 0] is [cur]. *)
Fixpoint nth_ancestor (by_id : gmap string EngineVolume) (cur : option string) (n : nat) : option string :=
  match n with
  | O => cur
  | S n => nth_ancestor by_id (pid ← cur; by_id !! pid ≫= ev_parent) n
  end.

(** The first of the first [fuel] ancestors that owns slots, and nothing
    when none of them does. *)
Lemma parent_walk_Some fuel by_id owners cur s :
  parent_walk fuel by_id owners cur = Some s ↔
    ∃ n pid, (n < fuel)%nat ∧ nth_ancestor by_id cur n = Some pid ∧ owned owners pid = Some s
      ∧ ∀ m, (m < n)%nat → (nth_ancestor by_id cur m ≫= owned owners) = None.
Proof.
  revert cur. induction fuel as [|fuel IH]; intros cur.
  { simpl. split; [done|]. intros (n & _ & ? & _). lia. }
  destruct cur as [pid|]; simpl.
  2:{ split; [done|]. intros (n & pid & _ & Hn & _). exfalso. revert Hn. clear.
      induction n as [|n IH]; simpl; auto. done. }
  destruct (owned owners pid) as [s'|] eqn:E.
  - split.
    + intros [= <-]. exists 0%nat, pid. split; [lia|]. repeat (split; [done|]). intros m ?. lia.
    + intros (n & pid' & _ & Hn & Ho & Hm). destruct n as [|n]; simpl in *; [congruence|].
      specialize (Hm 0%nat ltac:(lia)). simpl in Hm. congruence.
  - rewrite IH. split.
    + intros (n & pid' & Hn & Ha & Ho & Hm). exists (S n), pid'. simpl. split; [lia|].
      repeat (split; [done|]). intros [|m] ?; simpl; [done|]. apply Hm. lia.
    + intros (n & pid' & Hn & Ha & Ho & Hm). destruct n as [|n]; simpl in *; [congruence|].
      exists n, pid'. split; [lia|]. repeat (split; [done|]). intros m ?. apply (Hm (S m)). lia.
Qed.

Lemma parent_walk_None fuel by_id owners cur :
  parent_walk fuel by_id owners cur = None →
  ∀ n, (n < fuel)%nat → (nth_ancestor by_id cur n ≫= owned owners) = None.
Proof.
  revert cur. induction fuel as [|fuel IH]; intros cur H n Hn; [lia|].
  destruct cur as [pid|]; simpl in H.
  - destruct (owned owners pid) eqn:E; [done|]. destruct n as [|n]; simpl; [done|]. apply IH; [done|lia].
  - clear. induction n as [|n IH]; simpl; auto.
Qed.

Lemma place_volumes slabs volumes owners : map pv_volume (place slabs volumes owners) = volumes.
Proof.
  unfold place. rewrite map_map. rewrite <-(map_id volumes) at 2. apply map_ext.
  intros v. by destruct (resolve _ _ _ _).
Qed.

Lemma index_by_id_Some volumes id v :
  index_by_id volumes !! id = Some v → v ∈ volumes ∧ ev_id v = id.
Proof.
  unfold index_by_id. induction volumes as [|u l IH] using rev_ind; simpl.
  { by rewrite lookup_empty. }
  rewrite foldl_snoc, elem_of_app. destruct (decide (ev_id u = id)) as [<-|Hne].
  - rewrite lookup_insert_eq. intros [= <-]. split; [right; by left|done].
  - rewrite lookup_insert_ne by done. intros H. destruct (IH H). auto.
Qed.

(** What each way of placing a volume claims. *)
Definition placed_right (v : EngineVolume) (by_id : gmap string EngineVolume) (slabs : list Slab)
    (owners : gmap string (gset string)) (l : list string) (how : PlacedBy) : Prop :=
  let engine := ∃ p, ev_placement v = Some p ∧ pl_slabs p ≠ [] in
  let slots := ∃ s, owned owners (ev_id v) = Some s in
  let ancestor n := nth_ancestor by_id (ev_parent v) n ≫= owned owners in
  match how with
  | ByEngine => ∃ p, ev_placement v = Some p ∧ pl_slabs p ≠ [] ∧ ∀ x, x ∈ l ↔ x ∈ map sp_id (pl_slabs p)
  | BySlots => ¬ engine ∧ ∃ s, owned owners (ev_id v) = Some s ∧ ∀ x, x ∈ l ↔ x ∈ s
  | ByParent => ¬ engine ∧ ¬ slots ∧ ∃ n s, (n < 64)%nat ∧ ancestor n = Some s
      ∧ (∀ m, (m < n)%nat → ancestor m = None) ∧ ∀ x, x ∈ l ↔ x ∈ s
  | ByRole => ¬ engine ∧ ¬ slots ∧ (∀ n, (n < 64)%nat → ancestor n = None)
      ∧ ev_role v ≠ ""%string
      ∧ ∃ s, List.filter (λ s, slab_role s == ev_role v) slabs = [s] ∧ l = [slab_id s]
  | Unknown => ¬ engine ∧ ¬ slots ∧ (∀ n, (n < 64)%nat → ancestor n = None) ∧ l = []
  end.

Lemma resolve_right v by_id slabs owners :
  let '(l, how) := resolve v by_id slabs owners in placed_right v by_id slabs owners l how.
Proof.
  unfold resolve, placed_right.
  destruct (opt_filter _ (ev_placement v)) as [p|] eqn:Ep.
  { apply opt_filter_Some in Ep as [Hp Hne]. exists p. split; [done|].
    split; [by destruct (pl_slabs p)|]. intros x. by rewrite elem_of_bs_list, elem_of_list_to_set. }
  assert (¬ ∃ p, ev_placement v = Some p ∧ pl_slabs p ≠ []) as Hne.
  { intros (p & Hp & Hs). rewrite Hp in Ep. simpl in Ep. by destruct (pl_slabs p). }
  destruct (owned owners (ev_id v)) as [s|] eqn:Es.
  { split; [done|]. exists s. split; [done|]. intros x. apply elem_of_bs_list. }
  assert (¬ ∃ s, @None (gset string) = Some s) as Hns by (by intros [? ?]).
  destruct (parent_walk _ _ _ _) as [s|] eqn:Ew.
  { apply parent_walk_Some in Ew as (n & pid & Hn & Ha & Ho & Hm).
    split; [done|]. split; [done|]. exists n, s. split; [done|].
    split; [by rewrite Ha|]. split; [done|]. intros x. apply elem_of_bs_list. }
  pose proof (parent_walk_None _ _ _ _ Ew) as Hnone.
  destruct (ev_role v == ""%string) eqn:Er; [done|].
  destruct (List.filter _ slabs) as [|s [|s' l]] eqn:El; [done| |done].
  repeat (split; [done|]). split; [by apply eqb_nprop in Er|]. by exists s.
Qed.

(** Placing keeps the volumes and their order, and puts each one where
    the first applicable rule says: the engine's own report, the slots it
    owns, the first of its first 64 ancestors that owns slots, the only
    slab of its role; a volume no rule places is left unplaced. *)
Lemma place_spec (slabs : list Slab) (volumes : list EngineVolume) (owners : gmap string (gset string)) :
  map pv_volume (place slabs volumes owners) = volumes
  ∧ ∀ pv, pv ∈ place slabs volumes owners →
      placed_right (pv_volume pv) (index_by_id volumes) slabs owners (pv_slabs pv) (placed_by pv).
Proof.
  split; [apply place_volumes|]. intros pv Hin.
  apply list_elem_of_fmap in Hin as (v & -> & Hv).
  pose proof (resolve_right v (index_by_id volumes) slabs owners) as H.
  by destruct (resolve v _ _ _) as [l how].
Qed.

(** ** Facts: tiers *)

(** Every slab with its node, in the order the nodes and slabs are read. *)
Definition all_slabs (all : gmap string NodeInventory) : list (string * Slab) :=
  concat (map (λ kv, map (pair kv.1) (inv_slabs kv.2)) (bt_list all)).

Definition of_tier (t : string) (l : list (string * Slab)) : list (string * Slab) :=
  List.filter (λ p, slab_tier p.2 == t) l.

Definition no_volumes (r : TierRollup) : TierRollup := r <| tr_volumes := 0%Z |>.

Definition tier_step (t : string) (o : option TierRollup) (p : string * Slab) : option TierRollup :=
  if slab_tier p.2 == t then Some (tier_add_slab p.1 (unwrap_or (TierRollup_new t) o) p.2) else o.

Lemma tiers_slab_lookup node out slab t :
  no_volumes <$> tiers_slab node out slab !! t = tier_step t (no_volumes <$> out !! t) (node, slab).
Proof.
  unfold tiers_slab, tier_step. simpl. destruct (slab_tier slab == t) eqn:E.
  - apply eqb_prop in E as <-. rewrite lookup_insert_eq. by destruct (out !! slab_tier slab).
  - apply eqb_nprop in E. by rewrite lookup_insert_ne.
Qed.

Lemma tiers_slabs_lookup node slabs out t :
  no_volumes <$> foldl (tiers_slab node) out slabs !! t
  = foldl (tier_step t) (no_volumes <$> out !! t) (map (pair node) slabs).
Proof.
  revert out. induction slabs as [|s slabs IH]; intros out; simpl; [done|].
  by rewrite IH, tiers_slab_lookup.
Qed.

Lemma tiers_volume_slab_lookup slabs v st sid t :
  no_volumes <$> (tiers_volume_slab slabs v st sid).1 !! t = no_volumes <$> st.1 !! t.
Proof.
  destruct st as [out seen]. unfold tiers_volume_slab. destruct (find_first _ slabs) as [slab|]; [|done].
  case_bool_decide; [done|]. simpl. rewrite lookup_alter. destruct (decide _) as [->|]; [|done].
  by destruct (out !! t).
Qed.

Lemma tiers_node_lookup out kv t :
  no_volumes <$> tiers_node out kv !! t
  = foldl (tier_step t) (no_volumes <$> out !! t) (map (pair kv.1) (inv_slabs kv.2)).
Proof.
  destruct kv as [node inv]. unfold tiers_node. simpl. rewrite <-tiers_slabs_lookup.
  generalize (foldl (tiers_slab node) out (inv_slabs inv)). clear out. intros out.
  change out with (out, ∅ : gset (string * string)).1 at 2. generalize (out, ∅ : gset (string * string)).
  clear out. induction (inv_volumes inv) as [|v l IH]; intros st; simpl; [done|].
  rewrite IH. clear IH. revert st. induction (pv_slabs v) as [|sid l' IH]; intros st; simpl; [done|].
  by rewrite IH, tiers_volume_slab_lookup.
Qed.

(** What a tier's record sums up, given its slabs. *)
Definition tier_sums (t : string) (l : list (string * Slab)) : option TierRollup :=
  match l with
  | [] => None
  | _ => Some {| tr_tier := t;
                 tr_slabs := map (λ p, p.1 +:+ "/" +:+ slab_id p.2)%string l;
                 tr_nodes := foldl (λ ns p, if bool_decide (p.1 ∈ ns) then ns else ns ++ [p.1]) [] l;
                 tr_total_bytes := foldl (λ n p, u64_add n (slab_total_bytes p.2)) 0%Z l;
                 tr_free_bytes := foldl (λ n p, u64_add n (slab_free_bytes p.2)) 0%Z l;
                 tr_allocated_bytes := foldl (λ n p, u64_add n (allocated_bytes p.2)) 0%Z l;
                 tr_volumes := 0 |}
  end.

Lemma tier_fold t l : foldl (tier_step t) None l = tier_sums t (of_tier t l).
Proof.
  induction l as [|p l IH] using rev_ind; [done|].
  rewrite foldl_snoc, IH. unfold of_tier. rewrite List.filter_app. simpl. unfold tier_step.
  destruct (slab_tier p.2 == t) eqn:E; [|by rewrite app_nil_r].
  generalize (List.filter (λ p, slab_tier p.2 == t) l). intros l'.
  destruct l' as [|q l']; [done|]. simpl. unfold tier_add_slab. simpl.
  by rewrite map_app, !foldl_snoc.
Qed.

Lemma tiers_lookup all t :
  no_volumes <$> foldl tiers_node ∅ (bt_list all) !! t = tier_sums t (of_tier t (all_slabs all)).
Proof.
  rewrite <-tier_fold. unfold all_slabs.
  change (@None TierRollup) with (no_volumes <$> (∅ : gmap string TierRollup) !! t).
  generalize (∅ : gmap string TierRollup). induction (bt_list all) as [|kv l IH]; intros out; simpl; [done|].
  by rewrite IH, foldl_app, tiers_node_lookup.
Qed.

(** The tiers partition the slabs: there is one record per tier some
    slab is in, and it lists that tier's slabs, each once and in the order
    they are read, the nodes that hold them, and their bytes summed (with
    the wrap-around of [u64]). *)
Theorem tiers_partition (all : gmap string NodeInventory) :
  (∀ r, r ∈ tiers all →
     tier_sums (tr_tier r) (of_tier (tr_tier r) (all_slabs all)) = Some (no_volumes r))
  ∧ (∀ n s, (n, s) ∈ all_slabs all → ∃ r, r ∈ tiers all ∧ tr_tier r = slab_tier s
       ∧ (n +:+ "/" +:+ slab_id s)%string ∈ tr_slabs r)
  ∧ NoDup (map tr_tier (tiers all)).
Proof.
  assert (∀ t r, foldl tiers_node ∅ (bt_list all) !! t = Some r →
    tr_tier r = t ∧ tier_sums t (of_tier t (all_slabs all)) = Some (no_volumes r)) as Hl.
  { intros t r Hr. pose proof (tiers_lookup all t) as H. rewrite Hr in H. simpl in H. split; [|done].
    unfold tier_sums in H. destruct (of_tier t _); [done|]. by injection H. }
  split; [|split].
  - intros r [t Hr]%elem_of_bt_values. destruct (Hl t r Hr) as [-> ?]. done.
  - intros n s Hns. assert ((n, s) ∈ of_tier (slab_tier s) (all_slabs all)) as Hin.
    { unfold of_tier. rewrite elem_of_filterb. split; [done|apply eqb_refl]. }
    pose proof (tiers_lookup all (slab_tier s)) as H. unfold tier_sums in H.
    destruct (of_tier (slab_tier s) (all_slabs all)) as [|q l] eqn:E; [by apply not_elem_of_nil in Hin|].
    destruct (foldl tiers_node ∅ (bt_list all) !! slab_tier s) as [r|] eqn:Er; [|done].
    exists r. split; [by apply elem_of_bt_values; eauto|]. split; [by apply Hl|].
    injection H as Hr. change (tr_slabs r) with (tr_slabs (no_volumes r)).
    assert (tr_slabs (no_volumes r) = map (λ p, p.1 +:+ "/" +:+ slab_id p.2)%string (q :: l)) as ->
      by (simpl; congruence).
    apply (list_elem_of_fmap_2 (λ p : string * Slab, p.1 +:+ "/" +:+ slab_id p.2)%string _ _ Hin).
  - unfold tiers, bt_values.
    assert (map tr_tier (bt_list (foldl tiers_node ∅ (bt_list all))).*2 = bt_keys (foldl tiers_node ∅ (bt_list all))) as ->;
      [|apply bt_keys_NoDup].
    unfold bt_keys. rewrite map_map. apply map_ext_in. intros [t r] Hin%list_elem_of_In.
    apply elem_of_bt_list in Hin. by apply Hl.
Qed.
