(* ===== verification/Kube.v ===== *)
(** * The claims of node volumes (src/kube.rs)

    The persistent volumes an apiserver lists, read into one claim per
    volume of a node and joined onto the nodes' inventories; the members of
    the cluster. Shown: the claim kept for a volume is of the first PV that no
    other of its PVs is better than (a pair bound to each other first), so a
    complete pair is never hidden, whatever the order they are listed in. *)

From S2P Require Import Prelude Model Json Inventory.
From stdpp Require Import options.

Local Open Scope string_scope.

Definition DRIVER : string := "stormblock.storm.io".

(** [BTreeMap<(String, String), V>]: the order its entries iterate in. *)
Definition pair_le {V} (a b : (string * string) * V) : Prop :=
  String.le a.1.1 b.1.1 ∧ (a.1.1 = b.1.1 → String.le a.1.2 b.1.2).
#[export] Instance pair_le_dec {V} (a b : (string * string) * V) : Decision (pair_le a b).
Proof. unfold pair_le. apply _. Defined.
Definition pair_list {V} (m : gmap (string * string) V) : list ((string * string) * V) :=
  merge_sort pair_le (map_to_list m).

(** [KubeView]. *)
Record KubeView := MkKubeView {
  kv_claims : gmap (string * string) VolumeClaim;
  kv_fetched_at : option time;
  kv_error : option string;
}.
#[export] Instance KubeView_eta : Eta KubeView := λ r,
  MkKubeView (kv_claims r) (kv_fetched_at r) (kv_error r).
Definition KubeView_default : KubeView := MkKubeView ∅ None None.

(** [VolumeClaim::describe] and [VolumeClaim::complete]. *)
Definition claim_describe (vc : VolumeClaim) : string :=
  match vc_claim vc with Some c => cr_namespace c +:+ "/" +:+ cr_name c | None => "no claim" end.
Definition complete (vc : VolumeClaim) : bool := (vc_phase vc == "Bound") && is_some_and cr_bound (vc_claim vc).

(** [rank]: a pair of booleans in lexicographic order. *)
Definition rank (vc : VolumeClaim) (node : string) : bool * bool :=
  (complete vc, ends_with ("-" +:+ node) (vc_pv vc)).
Definition rank_gt (a b : bool * bool) : bool :=
  (a.1 && negb b.1) || (eqb a.1 b.1 && (a.2 && negb b.2)).

(** [same_node]: names of one machine. *)
Definition short_name (s : string) : string := lowercase (take_until [Ascii.ascii_of_nat 46] s).
Definition same_node (a b : string) : bool := eq_ignore_ascii_case a b || (short_name a == short_name b).

(** [Member]. *)
Record Member := MkMember { mb_name : string; mb_address : string; mb_storage : bool }.

(** [Members]: the engines of the cluster's other members, and this
    machine's member name. *)
Record Members := MkMembers { mem_engines : gset string; mem_local_name : option string }.
Definition Members_default : Members := MkMembers ∅ None.

Section kube.
Context {J : Type} `{Json J}.

(** [v[k]] and [v[0]]: null when it is not there. *)
Definition idx (k : string) (v : J) : J := unwrap_or j_null (j_get k v).
Definition idx0 (v : J) : J := unwrap_or j_null (mbind (M:=option) (lookup 0%nat) (j_array v)).
Definition text (v : J) : option string := opt_filter (λ x, x != "") (j_str v).
Definition items_of (v : J) : list J := unwrap_or [] (j_array v).

Definition affinity_node (spec : J) : option string :=
  let terms := idx "nodeSelectorTerms" (idx "required" (idx "nodeAffinity" spec)) in
  match j_array terms with
  | None => None
  | Some ts =>
      mbind (M:=option) (λ e, j_str (idx0 (idx "values" e)))
        (find_first (λ e, (j_str (idx "key" e) == Some "kubernetes.io/hostname") && (j_str (idx "operator" e) == Some "In"))
           (concat (map (λ t, items_of (idx "matchExpressions" t)) ts)))
  end.

Definition claims_by_name (pvcs : list J) : gmap (string * string) J :=
  foldl (λ m c, let meta := idx "metadata" c in
    match text (idx "name" meta) with
    | Some n => <[(unwrap_or "" (text (idx "namespace" meta)), n) := c]> m
    | None => m
    end) ∅ pvcs.

(** The claim a PV's [claimRef] names. *)
Definition claim_ref (by_name : gmap (string * string) J) (pv_name : string) (spec : J) : option ClaimRef :=
  let r := idx "claimRef" spec in
  match opt_filter (λ n, n != "") (j_str (idx "name" r)) with
  | None => None
  | Some cname =>
      let ns := unwrap_or "" (j_str (idx "namespace" r)) in
      let uid := text (idx "uid" r) in
      let pvc := by_name !! (ns, cname) in
      Some {| cr_namespace := ns; cr_name := cname; cr_uid := uid;
              cr_phase := mbind (M:=option) (λ c, text (idx "phase" (idx "status" c))) pvc;
              cr_bound := is_some_and (λ c, (j_str (idx "volumeName" (idx "spec" c)) == Some pv_name)
                            && (is_none uid || (text (idx "uid" (idx "metadata" c)) == uid))) pvc |}
  end.

(** One PV of the list: the volume of a node it is for, and what it says;
    [None] when it is not one of ours. *)
Definition read_pv (by_name : gmap (string * string) J) (pv : J) : option ((string * string) * VolumeClaim) :=
  let spec := idx "spec" pv in
  let meta := idx "metadata" pv in
  let ann := idx "annotations" meta in
  let labels := idx "labels" meta in
  if negb (j_str (idx "driver" (idx "csi" spec)) == Some DRIVER) then None else
  match text (idx "name" meta) with
  | None => None
  | Some nm =>
      match opt_or (text (idx "storm.io/volume" ann)) (text (idx "volumeHandle" (idx "csi" spec))) with
      | None => None
      | Some volume =>
          match opt_or (text (idx "storm.io/node" ann)) (affinity_node spec) with
          | None => None
          | Some node =>
              Some ((node, volume),
                {| vc_pv := nm;
                   vc_phase := unwrap_or "" (text (idx "phase" (idx "status" pv)));
                   vc_reclaim := unwrap_or "" (text (idx "persistentVolumeReclaimPolicy" spec));
                   vc_capacity := unwrap_or "" (text (idx "storage" (idx "capacity" spec)));
                   volume_kind := text (idx "storm.io/volume-kind" labels);
                   vc_component := text (idx "storm.io/component" labels);
                   vc_claim := claim_ref by_name nm spec |})
          end
      end
  end.

(** The better of two PVs of one volume stays. *)
Definition keep_better (out : gmap (string * string) VolumeClaim) (x : (string * string) * VolumeClaim)
    : gmap (string * string) VolumeClaim :=
  let '(k, vc) := x in
  match out !! k with
  | Some old => if rank_gt (rank vc k.1) (rank old k.1) then <[k := vc]> out else out
  | None => <[k := vc]> out
  end.
Definition view_of (pvs pvcs : list J) : gmap (string * string) VolumeClaim :=
  foldl (λ out pv, match read_pv (claims_by_name pvcs) pv with
    | None => out
    | Some x => keep_better out x
    end) ∅ pvs.

(** [join]. *)
Definition claim_for (node : string) (claims : gmap (string * string) VolumeClaim) (volume : string) : option VolumeClaim :=
  opt_or (claims !! (node, volume))
    (fmap (M:=option) snd (find_first (λ '((n, vol), _), (vol == volume) && same_node n node) (pair_list claims))).
Definition kube_join (node : string) (inv : NodeInventory) (claims : gmap (string * string) VolumeClaim) : NodeInventory :=
  inv <| inv_volumes ::= map (λ v, v <| pv_pv := claim_for node claims (ev_name (pv_volume v)) |>) |>.

(** [members_of]. *)
Definition member_of_item (m : J) : option Member :=
  match text (idx "address" (idx "status" m)) with
  | None => None
  | Some a =>
      match text (idx "name" (idx "metadata" m)) with
      | None => None
      | Some n => Some {| mb_name := n; mb_address := a;
          mb_storage := unwrap_or false (opt_or (j_bool (idx "storage" (idx "spec" m))) (j_bool (idx "storage" (idx "status" m)))) |}
      end
  end.
Definition members_of (items : list J) : list Member := omap member_of_item items.

(** [endpoints_say]. *)
Definition LEADER_ANNOTATION : string := "stormstorage.storm.io/leader".
Definition endpoints_say (ep : J) (ip : string) (port : Z) (leader : string) : bool :=
  match items_of (idx "subsets" ep) with
  | [one] =>
      match items_of (idx "addresses" one) with [a] => j_str (idx "ip" a) == Some ip | _ => false end
      && match items_of (idx "ports" one) with [p] => j_u64 (idx "port" p) == Some port | _ => false end
      && map_or true (λ l, match l with [] => true | _ => false end) (j_array (idx "notReadyAddresses" one))
      && (j_str (idx LEADER_ANNOTATION (idx "annotations" (idx "metadata" ep))) == Some leader)
  | _ => false
  end.

(** [v[k] = x]: null becomes an object. *)
Definition put_key (k : string) (x : J) (l : list (string * J)) : list (string * J) :=
  if existsb (λ kv, kv.1 == k) l then map (λ kv, if kv.1 == k then (k, x) else kv) l else (l ++ [(k, x)])%list.
Definition set_idx (k : string) (x : J) (v : J) : J := of_object (put_key k x (unwrap_or [] (j_object v))).
(** What [keep_endpoints] writes: a new object, or the one found with the
    subsets and the leader changed. *)
Definition subsets_of (ip : string) (port : Z) : J :=
  of_array [of_object [("addresses", of_array [of_object [("ip", of_str ip)]]);
                       ("ports", of_array [of_object [("port", of_num port); ("protocol", of_str "TCP")]])]].
Definition new_endpoints (ns nm ip : string) (port : Z) (leader : string) : J :=
  of_object [("apiVersion", of_str "v1"); ("kind", of_str "Endpoints");
    ("metadata", of_object [("name", of_str nm); ("namespace", of_str ns);
                            ("annotations", of_object [(LEADER_ANNOTATION, of_str leader)])]);
    ("subsets", subsets_of ip port)].
Definition say_endpoints (ip : string) (port : Z) (leader : string) (ep : J) : J :=
  let ep := set_idx "subsets" (subsets_of ip port) ep in
  let meta := idx "metadata" ep in
  let ann := idx "annotations" meta in
  let ann := if is_some (j_object ann) then ann else of_object [] in
  set_idx "metadata" (set_idx "annotations" (set_idx LEADER_ANNOTATION (of_str leader) ann) meta) ep.

(** ** What a PV and a PVC say

    By the paths of the objects ([idx] is [serde_json]'s [v[k]]). *)

(** A text that is not empty; none at all. *)
Definition says (v : J) (x : string) : Prop := j_str v = Some x ∧ x ≠ "".
Definition silent (v : J) : Prop := ∀ x, ¬ says v x.
(** The first that says something. *)
Definition says_first (v w : J) (x : string) : Prop := says v x ∨ silent v ∧ says w x.
Abbreviation annotation k pv := (idx k (idx "annotations" (idx "metadata" pv))).

(** A PV of a stormblock volume: its driver, its name, and the node and the
    volume it is for. *)
Record pv_of (k : string * string) (pv_name : string) (pv : J) : Prop := {
  po_driver : j_str (idx "driver" (idx "csi" (idx "spec" pv))) = Some "stormblock.storm.io";
  po_name : says (idx "name" (idx "metadata" pv)) pv_name;
  po_volume : says_first (annotation "storm.io/volume" pv) (idx "volumeHandle" (idx "csi" (idx "spec" pv))) k.2;
  po_node : says (annotation "storm.io/node" pv) k.1
            ∨ silent (annotation "storm.io/node" pv) ∧ affinity_node (idx "spec" pv) = Some k.1;
}.

(** The PVC a name is about: the last one listed of that name. *)
Definition pvc_named (ns nm : string) (c : J) : Prop :=
  says (idx "name" (idx "metadata" c)) nm
  ∧ (says (idx "namespace" (idx "metadata" c)) ns ∨ silent (idx "namespace" (idx "metadata" c)) ∧ ns = "").
Definition last_pvc (pvcs : list J) (ns nm : string) (c : J) : Prop :=
  ∃ before after, pvcs = (before ++ c :: after)%list ∧ pvc_named ns nm c ∧ ∀ o, o ∈ after → ¬ pvc_named ns nm o.
(** A PV and its claim name each other: the PV's [claimRef] a PVC, that PVC
    the PV's name, and the uid in the reference, if any, is the PVC's. *)
Definition name_each_other (pvcs : list J) (pv_name : string) (pv : J) : Prop :=
  let r := idx "claimRef" (idx "spec" pv) in
  ∃ nm c, says (idx "name" r) nm ∧ last_pvc pvcs (unwrap_or "" (j_str (idx "namespace" r))) nm c
    ∧ j_str (idx "volumeName" (idx "spec" c)) = Some pv_name
    ∧ ∀ uid, says (idx "uid" r) uid → says (idx "uid" (idx "metadata" c)) uid.
Definition complete_pair (pvcs : list J) (pv_name : string) (pv : J) : Prop :=
  says (idx "phase" (idx "status" pv)) "Bound" ∧ name_each_other pvcs pv_name pv.
(** Which of two PVs of a volume of [node] is to be shown. *)
Definition better_pv (pvcs : list J) (node : string) (a b : string * J) : Prop :=
  let complete_ x := complete_pair pvcs x.1 x.2 in
  let qualified x := ∃ stem, x.1 = (stem +:+ ("-" +:+ node)) in
  (complete_ a ∧ ¬ complete_ b) ∨ ((complete_ a ↔ complete_ b) ∧ qualified a ∧ ¬ qualified b).

Lemma text_Some v x : text v = Some x ↔ says v x.
Proof. unfold text, says. by rewrite opt_filter_Some, neqb_true. Qed.
Lemma text_None v : text v = None ↔ silent v.
Proof.
  unfold silent. setoid_rewrite <-text_Some. destruct (text v) as [y|]; [|done].
  split; [done|]. intros Hs. by destruct (Hs y).
Qed.
Lemma text_first v w x : opt_or (text v) (text w) = Some x ↔ says_first v w x.
Proof.
  unfold says_first. rewrite <-text_None, <-!text_Some. destruct (text v); simpl; naive_solver.
Qed.

Lemma claims_by_name_last pvcs ns nm c : claims_by_name pvcs !! (ns, nm) = Some c ↔ last_pvc pvcs ns nm c.
Proof.
  assert (∀ o, pvc_named ns nm o ↔ text (idx "name" (idx "metadata" o)) = Some nm
             ∧ unwrap_or "" (text (idx "namespace" (idx "metadata" o))) = ns) as Hn.
  { intros o. unfold pvc_named. rewrite <-text_None, <-!text_Some.
    destruct (text (idx "namespace" (idx "metadata" o))) as [n|] eqn:En; simpl; [naive_solver|].
    split; [intros (? & [?|[_ ->]]); [done|done]|intros (? & <-); auto]. }
  unfold last_pvc. setoid_rewrite Hn. clear Hn. revert c. unfold claims_by_name.
  induction pvcs as [|x pvcs IH] using rev_ind; intros c.
  { split; [done|]. intros (before & after & E & _). by destruct before. }
  rewrite foldl_snoc. set (named := λ o, text (idx "name" (idx "metadata" o)) = Some nm
    ∧ unwrap_or "" (text (idx "namespace" (idx "metadata" o))) = ns) in *.
  assert ((∃ before after, (pvcs ++ [x])%list = (before ++ c :: after)%list ∧ named c ∧ ∀ o, o ∈ after → ¬ named o)
    ↔ (x = c ∧ named x) ∨ (¬ named x ∧ ∃ before after, pvcs = (before ++ c :: after)%list ∧ named c ∧ ∀ o, o ∈ after → ¬ named o)) as Hsnoc.
  { split.
    - intros (before & after & E & Hc & Ha). destruct after as [|y after' _] using rev_ind.
      + apply app_inj_tail in E as [-> ->]. by left.
      + rewrite app_comm_cons, app_assoc in E. apply app_inj_tail in E as [-> ->]. right. split.
        * apply Ha, elem_of_app. right. by left.
        * exists before, after'. split; [done|]. split; [done|]. intros o Ho. apply Ha, elem_of_app. by left.
    - intros [[-> Hx]|(Hx & before & after & -> & Hc & Ha)].
      + exists pvcs, []. split; [done|]. split; [done|]. by intros o Ho%not_elem_of_nil.
      + exists before, (after ++ [x])%list. split; [by rewrite <-app_assoc|]. split; [done|].
        intros o. rewrite elem_of_app, list_elem_of_singleton. intros [Ho| ->]; [by apply Ha|done]. }
  etransitivity; [|symmetry; exact Hsnoc]. unfold named at 2 3 4. rewrite <-IH. clear Hsnoc IH. unfold named. cbv zeta.
  destruct (text (idx "name" (idx "metadata" x))) as [n|].
  - destruct (decide ((unwrap_or "" (text (idx "namespace" (idx "metadata" x))), n) = (ns, nm))) as [E|Hne].
    + injection E as -> ->. rewrite lookup_insert_eq. naive_solver.
    + rewrite lookup_insert_ne by done. naive_solver.
  - naive_solver.
Qed.

(** *** Reading one *)

Lemma read_pv_of pvcs pv k vc : read_pv (claims_by_name pvcs) pv = Some (k, vc) →
  pv_of k (vc_pv vc) pv ∧ vc_phase vc = unwrap_or "" (text (idx "phase" (idx "status" pv)))
  ∧ vc_claim vc = claim_ref (claims_by_name pvcs) (vc_pv vc) (idx "spec" pv).
Proof.
  unfold read_pv. cbv zeta. destruct (negb _) eqn:Ed; [done|]. apply negb_false_iff, eqb_prop in Ed.
  destruct (text (idx "name" _)) as [nm|] eqn:En; [|done].
  destruct (opt_or (text (idx "storm.io/volume" _)) _) as [volume|] eqn:Ev; [|done].
  destruct (opt_or (text (idx "storm.io/node" _)) _) as [node|] eqn:Eo; [|done]. intros [= <- <-]. split; [|done].
  split; cbn [fst snd vc_pv]; [exact Ed|by apply text_Some|by apply text_first|].
  rewrite <-text_None, <-text_Some.
  destruct (text (idx "storm.io/node" _)) as [n|]; simpl in Eo; [left|right]; auto.
Qed.
Lemma pv_of_read pvcs pv k pv_name : pv_of k pv_name pv →
  ∃ vc, read_pv (claims_by_name pvcs) pv = Some (k, vc) ∧ vc_pv vc = pv_name.
Proof.
  intros [Hd Hn Hv Ho]. unfold read_pv. cbv zeta. rewrite Hd. change DRIVER with "stormblock.storm.io". rewrite eqb_refl.
  apply text_Some in Hn. apply text_first in Hv. rewrite Hn, Hv. rewrite <-text_None, <-text_Some in Ho.
  assert (opt_or (text (annotation "storm.io/node" pv)) (affinity_node (idx "spec" pv)) = Some k.1) as ->
    by by destruct Ho as [->|[-> ?]].
  cbn [negb]. destruct k. eexists. split; reflexivity.
Qed.

Lemma claim_ref_bound pvcs pv_name pv :
  is_some_and cr_bound (claim_ref (claims_by_name pvcs) pv_name (idx "spec" pv)) = true ↔ name_each_other pvcs pv_name pv.
Proof.
  unfold claim_ref, name_each_other. cbv zeta. set (r := idx "claimRef" (idx "spec" pv)).
  assert (opt_filter (λ n, n != "") (j_str (idx "name" r)) = text (idx "name" r)) as -> by done.
  setoid_rewrite <-text_Some. destruct (text (idx "name" r)) as [nm|]; cbn [is_some_and cr_bound].
  2:{ split; [done|]. by intros (? & ? & ? & _). }
  rewrite is_some_and_true. setoid_rewrite claims_by_name_last. setoid_rewrite andb_true_iff.
  setoid_rewrite orb_true_iff. setoid_rewrite eqb_true. setoid_rewrite is_none_true. split.
  - intros (c & Hc & Hv & Hu). exists nm, c. split; [done|]. split; [done|]. split; [done|].
    intros uid Hr. rewrite Hr in Hu. by destruct Hu.
  - intros (nm' & c & [= <-] & Hc & Hv & Hu). exists c. split; [done|]. split; [done|].
    destruct (text (idx "uid" r)) as [uid|]; [right; by apply Hu|by left].
Qed.
Lemma complete_iff pvcs pv k vc : read_pv (claims_by_name pvcs) pv = Some (k, vc) →
  complete vc = true ↔ complete_pair pvcs (vc_pv vc) pv.
Proof.
  intros (_ & Hp & Hc)%read_pv_of. unfold complete, complete_pair. rewrite andb_true_iff, Hc, claim_ref_bound, eqb_true, Hp.
  rewrite <-text_Some. destruct (text _) as [ph|]; simpl; (split; intros [E HN]; (split; [congruence|exact HN])).
Qed.

(** [rank] is the order of [better_pv]. *)
Lemma rank_gt_better pvcs node a va b vb ka kb :
  read_pv (claims_by_name pvcs) a = Some (ka, va) → read_pv (claims_by_name pvcs) b = Some (kb, vb) →
  rank_gt (rank va node) (rank vb node) = true ↔ better_pv pvcs node (vc_pv va, a) (vc_pv vb, b).
Proof.
  intros Ha Hb. unfold better_pv, rank_gt, rank. cbn [fst snd].
  rewrite <-(complete_iff _ _ _ _ Ha), <-(complete_iff _ _ _ _ Hb), <-!ends_with_iff.
  destruct (complete va), (complete vb), (ends_with _ (vc_pv va)), (ends_with _ (vc_pv vb)); simpl; naive_solver.
Qed.

(** ** The claim kept *)

Definition kept (pvcs : list J) (k : string * string) (out : gmap (string * string) VolumeClaim) (pvs : list J) : Prop :=
  let read := read_pv (claims_by_name pvcs) in
  match out !! k with
  | Some vc => ∃ before pv after, pvs = (before ++ pv :: after)%list ∧ read pv = Some (k, vc)
      ∧ (∀ o vo, o ∈ before → read o = Some (k, vo) → rank_gt (rank vc k.1) (rank vo k.1) = true)
      ∧ (∀ o vo, o ∈ after → read o = Some (k, vo) → rank_gt (rank vo k.1) (rank vc k.1) = false)
  | None => ∀ o vo, o ∈ pvs → read o ≠ Some (k, vo)
  end.
Lemma rank_gt_trans a b c : rank_gt a b = true → rank_gt b c = true → rank_gt a c = true.
Proof. by destruct a as [[] []], b as [[] []], c as [[] []]. Qed.
Lemma rank_gt_not a b c : rank_gt a b = true → rank_gt c b = false → rank_gt a c = true.
Proof. by destruct a as [[] []], b as [[] []], c as [[] []]. Qed.

(** One PV more that is not of the volume. *)
Lemma kept_other pvcs k out pvs x :
  (∀ vo, read_pv (claims_by_name pvcs) x ≠ Some (k, vo)) → kept pvcs k out pvs → kept pvcs k out (pvs ++ [x])%list.
Proof.
  unfold kept. intros Hx. destruct (out !! k) as [vc|].
  - intros (before & pv & after & -> & Hr & Hb & Ha). exists before, pv, (after ++ [x])%list.
    split; [by rewrite <-app_assoc|]. split; [done|]. split; [done|].
    intros o vo. rewrite elem_of_app, list_elem_of_singleton. intros [Ho| ->] Hread; [by eapply Ha|by destruct (Hx vo)].
  - intros Hn o vo. rewrite elem_of_app, list_elem_of_singleton. intros [Ho| ->]; [by apply Hn|done].
Qed.
(** One that is. *)
Lemma kept_more pvcs k out pvs x vc :
  read_pv (claims_by_name pvcs) x = Some (k, vc) → kept pvcs k out pvs → kept pvcs k (keep_better out (k, vc)) (pvs ++ [x])%list.
Proof.
  intros Hx. unfold kept, keep_better. cbv zeta. cbn [fst snd].
  destruct (out !! k) as [old|] eqn:Ho.
  - intros (before & pv & after & -> & Hr & Hb & Ha). destruct (rank_gt (rank vc k.1) (rank old k.1)) eqn:Eg.
    + rewrite lookup_insert_eq. exists (before ++ pv :: after)%list, x, []. split; [done|]. split; [done|].
      split; [|by intros o vo Hin%not_elem_of_nil].
      intros o vo. rewrite elem_of_app, elem_of_cons. intros [Hin|[ ->|Hin]] Hread.
      * eapply rank_gt_trans; [exact Eg|by eapply Hb].
      * rewrite Hr in Hread. by injection Hread as <-.
      * eapply rank_gt_not; [exact Eg|by eapply Ha].
    + rewrite Ho. exists before, pv, (after ++ [x])%list. split; [by rewrite <-app_assoc|]. split; [done|]. split; [done|].
      intros o vo. rewrite elem_of_app, list_elem_of_singleton. intros [Hin| ->] Hread; [by eapply Ha|].
      rewrite Hx in Hread. by injection Hread as <-.
  - intros Hn. rewrite lookup_insert_eq. exists pvs, x, []. split; [done|]. split; [done|].
    split; [|by intros o vo Hin%not_elem_of_nil]. intros o vo Hin Hread. by destruct (Hn o vo Hin).
Qed.
Lemma keep_better_other k k' vc out : k' ≠ k → keep_better out (k', vc) !! k = out !! k.
Proof.
  intros Hne. unfold keep_better. destruct (out !! k') as [old|]; [destruct (rank_gt _ _); [|done]|]; by rewrite lookup_insert_ne.
Qed.
Lemma view_of_kept pvs pvcs k : kept pvcs k (view_of pvs pvcs) pvs.
Proof.
  unfold view_of. induction pvs as [|pv pvs IH] using rev_ind.
  { unfold kept. cbn [foldl]. rewrite lookup_empty. intros o vo Hin. by apply not_elem_of_nil in Hin. }
  rewrite foldl_snoc. destruct (read_pv (claims_by_name pvcs) pv) as [[k' vc]|] eqn:E.
  - destruct (decide (k' = k)) as [->|Hne]; [by apply kept_more|].
    unfold kept. rewrite keep_better_other by done. apply kept_other; [intros vo; congruence|exact IH].
  - apply kept_other; [intros vo; congruence|exact IH].
Qed.

(** C39: The claim shown for a volume of a node is of a PV the apiserver
    lists for it: one of the storm CSI driver that names the volume and the
    node. Of several, it is the first that no other is better than, where a
    complete pair is better than an incomplete one (bound, the PV's
    [claimRef] naming a PVC that names the PV, with the uid the reference
    carries) and then a PV whose name ends in the node's is better than one
    whose name does not. None is shown only when no PV is listed for the
    volume. So, whatever the order of the list, a complete pair is never
    hidden: if one is listed, the one shown is complete. *)
Theorem view_of_best pvs pvcs k :
  match view_of pvs pvcs !! k with
  | Some vc => ∃ before pv after, pvs = (before ++ pv :: after)%list ∧ pv_of k (vc_pv vc) pv
      ∧ (complete vc = true ↔ complete_pair pvcs (vc_pv vc) pv)
      ∧ (∀ o nm, o ∈ before → pv_of k nm o → better_pv pvcs k.1 (vc_pv vc, pv) (nm, o))
      ∧ (∀ o nm, o ∈ after → pv_of k nm o → ¬ better_pv pvcs k.1 (nm, o) (vc_pv vc, pv))
      ∧ (∀ o nm, o ∈ pvs → pv_of k nm o → complete_pair pvcs nm o → complete_pair pvcs (vc_pv vc) pv)
  | None => ∀ pv nm, pv ∈ pvs → ¬ pv_of k nm pv
  end.
Proof.
  pose proof (view_of_kept pvs pvcs k) as Hk. unfold kept in Hk. cbv zeta in Hk.
  destruct (view_of pvs pvcs !! k) as [vc|].
  2:{ intros pv nm Hin (vo & Hr & _)%(pv_of_read pvcs). by destruct (Hk pv vo Hin). }
  destruct Hk as (before & pv & after & -> & Hr & Hb & Ha).
  assert (∀ o nm, o ∈ before → pv_of k nm o → better_pv pvcs k.1 (vc_pv vc, pv) (nm, o)) as Hbefore.
  { intros o nm Hin (vo & Hro & <-)%(pv_of_read pvcs). apply (rank_gt_better _ _ _ _ _ _ _ _ Hr Hro). by eapply Hb. }
  assert (∀ o nm, o ∈ after → pv_of k nm o → ¬ better_pv pvcs k.1 (nm, o) (vc_pv vc, pv)) as Hafter.
  { intros o nm Hin (vo & Hro & <-)%(pv_of_read pvcs) Hbt. apply (rank_gt_better _ _ _ _ _ _ _ _ Hro Hr) in Hbt.
    by rewrite (Ha o vo Hin Hro) in Hbt. }
  pose proof (complete_iff _ _ _ _ Hr) as Hc.
  exists before, pv, after. split; [done|]. split; [by apply (read_pv_of pvcs)|]. repeat (split; [done|]).
  intros o nm Hin Ho Hco. destruct (complete vc) eqn:Ec; [by apply Hc|].
  assert (¬ complete_pair pvcs (vc_pv vc) pv) as Hnc by (rewrite <-Hc; done).
  apply elem_of_app in Hin as [Hin|[->|Hin]%elem_of_cons].
  - destruct (Hbefore o nm Hin Ho) as [[? _]|[[_ Hx] _]]; [done|]. by apply Hx.
  - destruct (pv_of_read pvcs _ _ _ Ho) as (vo & Hro & <-). rewrite Hr in Hro. by injection Hro as <-.
  - destruct (Hafter o nm Hin Ho). by left.
Qed.
End kube.

Local Close Scope string_scope.
