(* ===== verification/Sync.v ===== *)
(** * Replica state and the records of a fence (src/head.rs, the pure part)

    What a volume's copies are worth, from the head's array as last read or,
    when the head does not answer, from the RAID superblocks in the legs;
    and the steps on the record that fence, promote, prestage and open a
    dual-attach window. Shown: a copy is reported in sync only on evidence
    (a superblock of the volume's own array, the newest there is),
    the fence is a compare-and-swap on the epoch, a promote is let through
    only at the fenced epoch onto a healthy created leg. *)

From S2P Require Import Prelude F64 Config Model Json.
From stdpp Require Import options.

Local Open Scope string_scope.

(** ** Types *)

Inductive SyncState :=
  | InSync
  | Resyncing (progress_pct : f32) (lag_bytes : Z)
  | Detached.

Inductive Role := Master | Slave.
#[export] Instance Role_eq_dec : EqDecision Role.
Proof. solve_decision. Defined.

Record Replica := MkReplica { rp_node : string; rp_role : Role; rp_sync : SyncState }.

Inductive Health := Healthy | HDegraded | Faulted.
#[export] Instance Health_eq_dec : EqDecision Health.
Proof. solve_decision. Defined.

Record MemberReading := MkMemberReading {
  mr_uuid : string;
  device_path : string;
  mr_state : string;
  rebuilt_bytes : option Z;
}.

Inductive SyncSource := SrcHead | SrcSuperblock.
#[export] Instance SyncSource_eq_dec : EqDecision SyncSource.
Proof. solve_decision. Defined.

Record ArrayReading := MkArrayReading {
  read_at : time;
  ar_head : string;
  ar_array_id : string;
  ar_state : string;
  member_data_bytes : Z;
  members : list MemberReading;
  rebuild_bytes_per_sec : option Z;
  ar_events : option Z;
  ar_source : SyncSource;
  head_read_at : option time;
}.
#[export] Instance ArrayReading_eta : Eta ArrayReading := λ r,
  MkArrayReading (read_at r) (ar_head r) (ar_array_id r) (ar_state r) (member_data_bytes r) (members r)
    (rebuild_bytes_per_sec r) (ar_events r) (ar_source r) (head_read_at r).

Record SlotRecord := MkSlotRecord { sl_member_uuid : string; sl_state : string; rebuilt_to : Z }.

Record LegSuperblock := MkLegSuperblock {
  array_uuid : string;
  sb_member_uuid : string;
  sb_events : Z;
  data_size : Z;
  slots : list SlotRecord;
}.

(** ** Reading the engine's answers *)

Section parse.
Context {J : Type} `{Json J}.
Definition parse_array (now : time) (head array_id : string) (v : J) : ArrayReading :=
  let ms := map_or [] (map (λ m,
      {| mr_uuid := unwrap_or "" (get_str "uuid" m);
         device_path := unwrap_or "" (get_str "device_path" m);
         mr_state := lowercase (unwrap_or "" (get_str "state" m));
         rebuilt_bytes := get_u64 "rebuilt_bytes" m |})) (get_array "members" v) in
  let rebuild := j_get "status" v ≫= j_get "rebuild" in
  {| read_at := now;
     ar_head := head;
     ar_array_id := array_id;
     ar_state := unwrap_or "unknown" (j_get "status" v ≫= get_str "state");
     member_data_bytes := unwrap_or 0%Z (get_u64 "member_data_bytes" v);
     members := ms;
     rebuild_bytes_per_sec :=
       opt_filter (λ r, unwrap_or false (get_bool "running" r)) rebuild ≫= get_u64 "rate_bytes_per_sec";
     ar_events := get_u64 "events" v;
     ar_source := SrcHead;
     head_read_at := None |}.
Definition parse_slot (x : J) : option SlotRecord :=
  u ← get_str "member_uuid" x;
  st ← get_str "state" x;
  Some {| sl_member_uuid := lowercase u; sl_state := lowercase st;
          rebuilt_to := unwrap_or 0%Z (get_u64 "rebuilt_to" x) |}.
Definition parse_superblock (v : J) : option LegSuperblock :=
  a ← lowercase <$> get_str "array_uuid" v;
  m ← lowercase <$> get_str "member_uuid" v;
  e ← get_u64 "events" v;
  Some {| array_uuid := a; sb_member_uuid := m; sb_events := e;
          data_size := unwrap_or 0%Z (get_u64 "data_size" v);
          slots := map_or [] (omap parse_slot) (get_array "slots" v) |}.
End parse.

(** ** A reading from the superblocks *)

Definition rank (st : string) : Z :=
  if st == "active" then 2 else if st == "rebuilding" then 1 else 0.

Definition slot_of (member : string) (sb : LegSuperblock) : option SlotRecord :=
  find_first (λ r, sl_member_uuid r == member) (slots sb).

Fixpoint agreed_loop (member : string) (out : option (string * Z)) (newest : list LegSuperblock)
    : string * Z :=
  match newest with
  | [] => unwrap_or ("removed", 0%Z) out
  | sb :: newest =>
      match slot_of member sb with
      | None => ("removed", 0%Z)
      | Some rec =>
          agreed_loop member
            (Some match out with
                  | None => (sl_state rec, rebuilt_to rec)
                  | Some (st, rb) =>
                      if (rank (sl_state rec) <? rank st)%Z then (sl_state rec, rebuilt_to rec)
                      else if sl_state rec == st then (st, Z.min rb (rebuilt_to rec))
                      else (st, rb)
                  end) newest
      end
  end.
Definition agreed_state (member : string) (newest : list LegSuperblock) : string * Z :=
  agreed_loop member None newest.

Definition list_max (l : list Z) : option Z :=
  match l with [] => None | x :: l => Some (foldl Z.max x l) end.

Definition sb_member (max : Z) (newest : list LegSuperblock) (last : option ArrayReading)
    (sb : LegSuperblock) : MemberReading :=
  let floor := last ≫= ar_events in
  let '(state, rebuilt) :=
    if (sb_events sb <? max)%Z || is_some_and (λ f, (sb_events sb <? f)%Z) floor
    then ("stale", 0%Z)
    else agreed_state (sb_member_uuid sb) newest in
  let newer := is_some_and (λ f, (f <? sb_events sb)%Z) floor in
  let '(state, rebuilt) :=
    match opt_filter (λ _, negb newer) last with
    | None => (state, rebuilt)
    | Some l =>
        match find_first (λ m, eq_ignore_ascii_case (mr_uuid m) (sb_member_uuid sb)) (members l) with
        | Some m =>
            if mr_state m == "active" then (state, rebuilt)
            else if (state == "active") || ((state == "rebuilding") && (mr_state m != "rebuilding"))
            then (mr_state m, unwrap_or 0%Z (rebuilt_bytes m))
            else (state, rebuilt)
        | None => ("removed", rebuilt)
        end
    end in
  {| mr_uuid := sb_member_uuid sb; device_path := ""; mr_state := state; rebuilt_bytes := Some rebuilt |}.

Definition from_superblocks (vol : DistVolume) (last : option ArrayReading) (sbs : list LegSuperblock)
    (now : time) : option ArrayReading :=
  head ← head vol;
  array_id ← array_id vol;
  let last := opt_filter (λ r, (ar_source r == SrcHead) && (ar_head r == head) && (ar_array_id r == array_id)) last in
  let ours := List.filter (λ s, eq_ignore_ascii_case (array_uuid s) array_id) sbs in
  max ← list_max (map sb_events ours);
  let newest := List.filter (λ s, (sb_events s =? max)%Z) ours in
  Some {| read_at := now; ar_head := head; ar_array_id := array_id; ar_state := "unknown";
          member_data_bytes :=
            match opt_filter (λ b, (0 <? b)%Z) (member_data_bytes <$> last) with
            | Some b => b
            | None => unwrap_or 0%Z (list_max (map data_size newest))
            end;
          members := map (sb_member max newest last) ours;
          rebuild_bytes_per_sec := None; ar_events := Some max; ar_source := SrcSuperblock;
          head_read_at := read_at <$> last |}.

(** ** Replicas and health *)

Definition member_sync (m : MemberReading) (data_bytes : Z) : SyncState :=
  if mr_state m == "active" then InSync
  else if mr_state m == "rebuilding" then
    let done := Z.min (unwrap_or 0%Z (rebuilt_bytes m)) data_bytes in
    let pct :=
      if (data_bytes =? 0)%Z then as_f32 f0
      else as_f32 (fdiv (fround (fdiv (fmul (of_u64 done) (of_u64 1000)) (of_u64 data_bytes))) (of_u64 10)) in
    Resyncing pct (data_bytes - done)%Z
  else Detached.

Definition is_member (leg : Leg) (m : MemberReading) : bool :=
  is_some_and (λ u, eq_ignore_ascii_case u (mr_uuid m)) (leg_member_uuid leg)
  || ((drive_uri <$> leg_export leg) == Some (device_path m)).

Definition member_of (leg : Leg) (r : ArrayReading) : option MemberReading :=
  find_first (is_member leg) (members r).

(** [vol.legs.iter().chain(vol.replacing.as_ref().map(|r| &r.leg))]. *)
Definition all_legs (vol : DistVolume) : list Leg :=
  legs vol ++ option_list (rep_leg <$> replacing vol).

(** A reading of this volume's own head and array. *)
Definition own_reading (vol : DistVolume) (r : ArrayReading) : bool :=
  (Some (ar_head r) == head vol) && (Some (ar_array_id r) == array_id vol).

Definition replica_of (vol : DistVolume) (reading : option ArrayReading) (master : option string)
    (leg : Leg) : Replica :=
  {| rp_node := leg_node leg;
     rp_role := if Some (leg_node leg) == master then Master else Slave;
     rp_sync :=
       if leg_state leg != Created then Detached
       else match assembly vol with
            | SingleLeg => InSync
            | PendingEngineSupport | Clone => Detached
            | Assembled | Degraded =>
                unwrap_or Detached
                  (r ← reading; (λ m, member_sync m (member_data_bytes r)) <$> member_of leg r)
            end |}.

Definition replicas (vol : DistVolume) (reading : option ArrayReading) : list Replica :=
  let reading := opt_filter (own_reading vol) reading in
  let master := if mirrored (assembly vol) then head vol else leg_node <$> (legs vol !! 0%nat) in
  map (replica_of vol reading master) (all_legs vol).

Definition is_in_sync (r : Replica) : bool := match rp_sync r with InSync => true | _ => false end.

Definition health (vol : DistVolume) (reps : list Replica) : Health :=
  let in_sync := length (List.filter is_in_sync reps) in
  if (in_sync =? 0)%nat then Faulted
  else if (Z.max (Model.replicas vol) 1 <=? as_u32 (Z.of_nat in_sync))%Z then Healthy
  else HDegraded.

(** ** A volume as the API shows it *)

Record View := MkView {
  view_vol : DistVolume;
  view_health : Health;
  raid_level : RaidProfile;
  raid_members : list Replica;
  raid_health : Health;
  raid_rebuilding : bool;
  replica_sync : list Replica;
  sync_read_at : option time;
  sync_source : option SyncSource;
}.

Definition view (vol : DistVolume) (reading : option ArrayReading) : View :=
  let reps := replicas vol reading in
  let h := health vol reps in
  {| view_vol := vol; view_health := h; raid_level := RaidProfile_of vol; raid_members := reps;
     raid_health := h;
     raid_rebuilding := existsb (λ r, match rp_sync r with Resyncing _ _ => true | _ => false end) reps;
     replica_sync := reps; sync_read_at := read_at <$> reading; sync_source := ar_source <$> reading |}.

(** A clone's health, [raid] and sync are its parent's. *)
Definition view_in (fed : FedState) (heads : gmap string ArrayReading) (vol : DistVolume) : View :=
  let v := view vol (heads !! name vol) in
  match clone_of vol with
  | None => v
  | Some _ =>
      match parent_of fed vol with
      | None => v
      | Some p =>
          let pv := view p (heads !! name p) in
          {| view_vol := view_vol v; view_health := view_health pv; raid_level := raid_level pv;
             raid_members := raid_members pv; raid_health := raid_health pv;
             raid_rebuilding := raid_rebuilding pv; replica_sync := replica_sync pv;
             sync_read_at := sync_read_at pv; sync_source := sync_source pv |}
      end
  end.

(** ** Refusals *)

Inductive Refusal :=
  | NotFound (m : string)
  | StaleEpoch (current : Z)
  | Conflict (m : string)
  | Upstream (m : string).

Definition Refusal_show (r : Refusal) : string :=
  match r with
  | NotFound m | Conflict m | Upstream m => m
  | StaleEpoch c => "stale epoch; current is " +:+ pretty c
  end.

(** ** The record steps *)

Definition apply_fence (vol : DistVolume) (expected : Z) : result (DistVolume * Z) Refusal :=
  if negb (epoch vol =? expected)%Z then Err (StaleEpoch (epoch vol))
  else if negb (mirrored (assembly vol)) then
    Err (Conflict (name vol +:+ ": not a mirrored volume (assembly " +:+ AssemblyState_debug (assembly vol)
                   +:+ ") — no other copy to promote"))
  else
    let vol := vol <| epoch ::= λ e, u64_add e 1 |> <| fenced := true |> in
    Ok (vol, epoch vol).

Definition check_promote (vol : DistVolume) (target : string) (fenced_epoch : Z) (target_healthy : bool)
    : result (option string) Refusal :=
  if negb (fenced vol) || negb (epoch vol =? fenced_epoch)%Z then Err (StaleEpoch (epoch vol))
  else if is_some (dual_attach vol) then
    Err (Conflict (name vol +:+ ": a dual-attach window is open — close it (commit promotes)"))
  else if negb (mirrored (assembly vol)) then Err (Conflict (name vol +:+ ": not assembled"))
  else if is_some (replacing vol) then Err (Conflict (name vol +:+ ": a leg replacement is in flight"))
  else
    let? leg := ok_or (find_first (λ l, leg_node l == target) (legs vol))
                      (Conflict (name vol +:+ ": " +:+ debug_str target +:+ " holds no leg")) in
    if (leg_state leg != Created) || is_none (leg_volume_id leg) then
      Err (Conflict (name vol +:+ ": the leg on " +:+ target +:+ " is " +:+ LegState_debug (leg_state leg)))
    else if negb target_healthy then Err (Conflict (name vol +:+ ": " +:+ target +:+ " is unreachable"))
    else Ok (head vol).

Definition prestage_from (vol : DistVolume) : result string Refusal :=
  let slaves := List.filter (λ l, Some (leg_node l) != head vol) (legs vol) in
  match find_first (λ l, leg_state l == Lost) slaves with
  | Some l => Ok (leg_node l)
  | None =>
      match slaves with
      | [one] => Ok (leg_node one)
      | [] => Err (Conflict (name vol +:+ ": no slave leg"))
      | _ => Err (Conflict (name vol +:+ ": several slave legs — name the one to replace (`from`)"))
      end
  end.

Definition apply_open_window (vol : DistVolume) (target : string) (ttl : Z) (now : time)
    : result (DistVolume * DualAttach) Refusal :=
  if negb (mirrored (assembly vol)) then Err (Conflict (name vol +:+ ": not assembled"))
  else match opt_filter (λ w, target_node w != target) (dual_attach vol) with
  | Some w => Err (Conflict (name vol +:+ ": a window is open for " +:+ target_node w))
  | None =>
      if Some target == head vol then
        Err (Conflict (name vol +:+ ": " +:+ target +:+ " is already the head"))
      else if negb (existsb (λ l, (leg_node l == target) && (leg_state l == Created)) (legs vol)) then
        Err (Conflict (name vol +:+ ": " +:+ target +:+ " holds no slave"))
      else
        let w := {| target_node := target; da_epoch := epoch vol;
                    opened_at := map_or now opened_at (dual_attach vol);
                    expires_at := (now + ttl)%Z |} in
        Ok (vol <| dual_attach := Some w |>, w)
  end.

Definition expire_window (now : time) (v : DistVolume) (closed : list (string * string))
    : DistVolume * list (string * string) :=
  match dual_attach v with
  | Some w => if (expires_at w <=? now)%Z
              then (v <| dual_attach := None |>, (closed ++ [(name v, target_node w)])%list)
              else (v, closed)
  | None => (v, closed)
  end.

Definition expire_windows (fed : FedState) (now : time) : FedState * list (string * string) :=
  let '(vs, closed) := bt_for_mut (expire_window now) (volumes fed) [] in
  let fed := fed <| volumes := vs |> in
  (match closed with [] => fed | _ => bump fed end, closed).

(** ** Facts: a reading from superblocks *)

Lemma foldl_max_ge (l : list Z) (a : Z) : (a ≤ foldl Z.max a l)%Z ∧ ∀ x, x ∈ l → (x ≤ foldl Z.max a l)%Z.
Proof.
  revert a. induction l as [|y l IH]; intros a; simpl.
  - split; [lia|]. intros x ?%not_elem_of_nil. done.
  - destruct (IH (Z.max a y)) as [H1 H2]. split; [lia|].
    intros x [->|Hx]%elem_of_cons; [lia|by apply H2].
Qed.

Lemma list_max_ge (l : list Z) (m x : Z) : list_max l = Some m → x ∈ l → (x ≤ m)%Z.
Proof.
  destruct l as [|y l]; simpl; [done|]. intros [= <-].
  destruct (foldl_max_ge l y) as [H1 H2]. intros [->|Hx]%elem_of_cons; [done|by apply H2].
Qed.

Lemma rank_active st : rank st = 2%Z ↔ st = "active".
Proof.
  unfold rank. split.
  - destruct (st == "active") eqn:E; [by apply eqb_prop in E|].
    by destruct (st == "rebuilding").
  - by intros ->.
Qed.

Lemma rank_le st : (rank st ≤ 2)%Z.
Proof. unfold rank. repeat case_head; lia. Qed.

(** The loop answers [active] only when it began so and every superblock
    records the member active. *)
Lemma agreed_loop_active member out newest :
  (agreed_loop member out newest).1 = "active" →
  (match out with None => True | Some (st, _) => st = "active" end)
  ∧ (∀ sb, sb ∈ newest → ∃ rec, slot_of member sb = Some rec ∧ sl_state rec = "active").
Proof.
  revert out. induction newest as [|sb newest IH]; intros out; simpl.
  - destruct out as [[st rb]|]; simpl; [|done]. intros ->.
    split; [done|]. intros ? ?%not_elem_of_nil. done.
  - destruct (slot_of member sb) as [rec|] eqn:Es; [|done].
    intros H. apply IH in H as [Hout Hnew].
    assert (sl_state rec = "active" ∧ match out with None => True | Some (st, _) => st = "active" end)
      as [Hrec Ho].
    { destruct out as [[st rb]|]; [|done].
      destruct (Z.ltb_spec (rank (sl_state rec)) (rank st)) as [Hlt|Hge].
      - simpl in Hout. exfalso. apply rank_active in Hout. pose proof (rank_le st). lia.
      - destruct (sl_state rec == st) eqn:E; simpl in Hout; subst st.
        + by apply eqb_prop in E.
        + split; [|done]. apply rank_active. pose proof (rank_le (sl_state rec)).
          change (rank "active") with 2%Z in Hge. lia. }
    split; [done|]. intros sb' [->|Hin]%elem_of_cons; [by exists rec|by apply Hnew].
Qed.

Lemma agreed_state_active member newest :
  newest ≠ [] → (agreed_state member newest).1 = "active" →
  ∀ sb, sb ∈ newest → ∃ rec, slot_of member sb = Some rec ∧ sl_state rec = "active".
Proof. intros _ H. by apply agreed_loop_active in H as [_ ?]. Qed.

(** What a live reading that is not older than the superblock must say. *)
Definition confirmed (last : option ArrayReading) (sb : LegSuperblock) : Prop :=
  ∀ l, last = Some l →
    (∀ f, ar_events l = Some f → (f ≤ sb_events sb)%Z)
    ∧ ((∃ f, ar_events l = Some f ∧ (f < sb_events sb)%Z)
       ∨ ∃ m, m ∈ members l ∧ eq_ignore_ascii_case (mr_uuid m) (sb_member_uuid sb) = true
              ∧ mr_state m = "active").

Lemma sb_member_active max newest last sb :
  mr_state (sb_member max newest last sb) = "active" →
  (max ≤ sb_events sb)%Z
  ∧ (agreed_state (sb_member_uuid sb) newest).1 = "active"
  ∧ confirmed last sb.
Proof.
  unfold sb_member. set (floor := last ≫= ar_events).
  destruct ((sb_events sb <? max)%Z || is_some_and (λ f, (sb_events sb <? f)%Z) floor) eqn:Eold.
  { (* stale: the second step never makes it active *)
    destruct (opt_filter _ last) as [l|]; simpl; [|done].
    destruct (find_first _ (members l)) as [m|]; simpl; [|done].
    destruct (mr_state m == "active") eqn:Em; simpl; [done|].
    change ("stale" == "active") with false. change ("stale" == "rebuilding") with false. simpl. done. }
  apply orb_false_iff in Eold as [Hmax Hfloor]. apply Z.ltb_ge in Hmax.
  destruct (agreed_state (sb_member_uuid sb) newest) as [state rebuilt] eqn:Ea. simpl.
  assert (∀ l f, last = Some l → ar_events l = Some f → (f ≤ sb_events sb)%Z) as Hle.
  { intros l f -> Hf. subst floor. simpl in Hfloor. rewrite Hf in Hfloor. simpl in Hfloor.
    by apply Z.ltb_ge in Hfloor. }
  destruct (is_some_and (λ f, (f <? sb_events sb)%Z) floor) eqn:Enew; simpl.
  - (* newer than the live reading *)
    assert (opt_filter (λ _, false) last = None) as -> by by destruct last.
    simpl. intros Hst. split; [done|]. split; [done|].
    intros l Hl. split; [by eauto|]. left. subst floor. rewrite Hl in Enew. simpl in Enew.
    destruct (ar_events l) as [f|]; simpl in Enew; [|done]. exists f. split; [done|lia].
  - destruct last as [l|]; simpl.
    2:{ intros Hst. split; [done|]. split; [done|]. by intros l. }
    destruct (find_first _ (members l)) as [m|] eqn:Em; simpl; [|done].
    apply find_first_Some in Em as [Hin Huuid].
    destruct (mr_state m == "active") eqn:Eact; simpl.
    + intros Hst. apply eqb_prop in Eact. split; [done|]. split; [done|].
      intros l' [= <-]. split; [by eauto|]. right. by exists m.
    + apply eqb_nprop in Eact.
      destruct (state == "active") eqn:Es; simpl; [done|].
      destruct ((state == "rebuilding") && _); simpl; [done|]. intros ->. by apply eqb_nprop in Es.
Qed.

(** The last live reading of this volume's head and array. *)
Definition last_live (vol : DistVolume) (last : option ArrayReading) : option ArrayReading :=
  opt_filter (λ r, (ar_source r == SrcHead) && own_reading vol r) last.

Lemma from_superblocks_inv vol last sbs now r :
  from_superblocks vol last sbs now = Some r →
  ∃ h a max, head vol = Some h ∧ array_id vol = Some a
    ∧ ar_head r = h ∧ ar_array_id r = a ∧ ar_source r = SrcSuperblock ∧ ar_events r = Some max
    ∧ (∀ sb, sb ∈ sbs → eq_ignore_ascii_case (array_uuid sb) a = true → (sb_events sb ≤ max)%Z)
    ∧ members r = map (sb_member max
        (List.filter (λ s, (sb_events s =? max)%Z) (List.filter (λ s, eq_ignore_ascii_case (array_uuid s) a) sbs))
        (last_live vol last)) (List.filter (λ s, eq_ignore_ascii_case (array_uuid s) a) sbs).
Proof.
  unfold from_superblocks.
  destruct (head vol) as [h|] eqn:Eh; simpl; [|done].
  destruct (array_id vol) as [a|] eqn:Ea; simpl; [|done].
  destruct (list_max _) as [max|] eqn:Emax; simpl; [|done]. intros [= <-]. simpl.
  exists h, a, max. repeat (split; [done|]). split.
  - intros sb Hsb Hours. eapply list_max_ge; [done|]. apply list_elem_of_fmap.
    exists sb. by rewrite elem_of_filterb.
  - unfold last_live, own_reading. rewrite Eh, Ea.
    destruct last as [l|]; simpl; [|done]. by rewrite !eqb_Some, andb_assoc.
Qed.

Lemma drive_uri_nonempty a : drive_uri a ≠ "".
Proof. unfold drive_uri. by destruct (host_nqn a). Qed.

(** ** Facts: replicas *)

(** With a mirrored volume, in sync means an active member in a reading of
    its own head and array. *)
Lemma replicas_in_sync vol reading rep :
  mirrored (assembly vol) = true → rep ∈ replicas vol reading → rp_sync rep = InSync →
  ∃ leg r m, leg ∈ all_legs vol ∧ leg_state leg = Created ∧ rp_node rep = leg_node leg
    ∧ reading = Some r ∧ own_reading vol r = true
    ∧ m ∈ members r ∧ is_member leg m = true ∧ mr_state m = "active".
Proof.
  intros Hm Hin Hs. apply list_elem_of_fmap in Hin as (leg & -> & Hleg). simpl in *.
  unfold replica_of in Hs. simpl in Hs.
  destruct (leg_state leg != Created) eqn:Est; [done|]. apply neqb_nprop in Est.
  assert (∃ r m, opt_filter (own_reading vol) reading = Some r ∧ member_of leg r = Some m
          ∧ member_sync m (member_data_bytes r) = InSync) as (r & m & Hr & Hmem & Hsync).
  { destruct (assembly vol); try done;
      destruct (opt_filter (own_reading vol) reading) as [r|] eqn:Er; simpl in Hs; try done;
      destruct (member_of leg r) as [m|] eqn:Em; simpl in Hs; try done; by exists r, m. }
  apply opt_filter_Some in Hr as [-> Hown]. apply find_first_Some in Hmem as [Hmin Hmem].
  exists leg, r, m. repeat (split; [done|]).
  unfold member_sync in Hsync. destruct (mr_state m == "active") eqn:E; [by apply eqb_prop in E|].
  by destruct (mr_state m == "rebuilding").
Qed.

(** C8: a copy is shown in sync on the word of the superblocks alone only
    when the leg's own superblock is of the volume's array (one of another
    array is no evidence) at the newest event count read of that array,
    every superblock of the array at that count records the member active,
    and the last live reading of this head and array, unless older than the
    superblock, had it active. *)
Theorem superblock_in_sync_evidence (vol : DistVolume) (last : option ArrayReading)
    (sbs : list LegSuperblock) (now : time) (r : ArrayReading) (rep : Replica)
  (Hm : mirrored (assembly vol) = true)
  (Hr : from_superblocks vol last sbs now = Some r)
  (Hin : rep ∈ replicas vol (Some r)) (Hs : rp_sync rep = InSync) :
  ∃ leg sb u a, leg ∈ all_legs vol ∧ leg_state leg = Created ∧ rp_node rep = leg_node leg
    ∧ sb ∈ sbs ∧ leg_member_uuid leg = Some u ∧ eq_ignore_ascii_case u (sb_member_uuid sb) = true
    ∧ array_id vol = Some a ∧ eq_ignore_ascii_case (array_uuid sb) a = true
    ∧ (∀ sb', sb' ∈ sbs → eq_ignore_ascii_case (array_uuid sb') a = true →
        (sb_events sb' ≤ sb_events sb)%Z
        ∧ (sb_events sb' = sb_events sb →
           ∃ rec, rec ∈ slots sb' ∧ slot_of (sb_member_uuid sb) sb' = Some rec
             ∧ sl_member_uuid rec = sb_member_uuid sb ∧ sl_state rec = "active"))
    ∧ (∀ l, last = Some l → ar_source l = SrcHead → head vol = Some (ar_head l) → ar_array_id l = a →
        confirmed (Some l) sb).
Proof.
  destruct (replicas_in_sync vol (Some r) rep Hm Hin Hs)
    as (leg & r' & m & Hleg & Hst & Hn & [= <-] & _ & Hmin & Hmem & Hact).
  apply from_superblocks_inv in Hr as (h & a & max & _ & Ha & _ & _ & _ & _ & Hmax & Hms).
  rewrite Hms in Hmin. apply list_elem_of_fmap in Hmin as (sb & -> & Hsb).
  apply elem_of_filterb in Hsb as [Hsb Hours].
  apply sb_member_active in Hact as (Hge & Hagree & Hconf).
  unfold is_member in Hmem. simpl in Hmem.
  assert (mr_uuid (sb_member max
      (List.filter (λ s, (sb_events s =? max)%Z) (List.filter (λ s, eq_ignore_ascii_case (array_uuid s) a) sbs))
      (last_live vol last) sb) = sb_member_uuid sb ∧ device_path (sb_member max
      (List.filter (λ s, (sb_events s =? max)%Z) (List.filter (λ s, eq_ignore_ascii_case (array_uuid s) a) sbs))
      (last_live vol last) sb) = "") as [Hu Hd].
  { unfold sb_member. by repeat case_head. }
  rewrite Hu, Hd in Hmem. apply orb_true_iff in Hmem as [Hmem|Hmem].
  2:{ apply eqb_prop in Hmem. destruct (leg_export leg) as [x|]; simplify_eq/=. by destruct (drive_uri_nonempty x). }
  apply is_some_and_true in Hmem as (u & Hleu & Hu').
  pose proof (Hmax sb Hsb Hours) as Hle.
  exists leg, sb, u, a. repeat (split; [done|]). split.
  - intros sb' Hsb' Hours'. pose proof (Hmax sb' Hsb' Hours'). split; [lia|].
    intros Heq. destruct (agreed_state_active (sb_member_uuid sb)
      (List.filter (λ s, (sb_events s =? max)%Z) (List.filter (λ s, eq_ignore_ascii_case (array_uuid s) a) sbs)))
      with sb' as (rec & Hrec & Hst'); [|done| |].
    + intros Hnil. assert (sb ∈ @nil LegSuperblock) as ?%not_elem_of_nil; [|done].
      rewrite <-Hnil, !elem_of_filterb. split; [done|lia].
    + rewrite !elem_of_filterb. split; [done|lia].
    + exists rec. pose proof Hrec as [Hslot Huuid%eqb_prop]%find_first_Some. done.
  - intros l -> Hsrc Hhead Harr. unfold last_live, own_reading in Hconf. simpl in Hconf.
    rewrite Hhead, Ha, Hsrc, Harr, !eqb_refl in Hconf. exact Hconf.
Qed.

(** ** Facts: the record steps *)

(** A fence goes through exactly at the expected epoch of a mirrored volume. *)
Lemma apply_fence_Ok vol expected vol' e :
  apply_fence vol expected = Ok (vol', e) ↔
    epoch vol = expected ∧ mirrored (assembly vol) = true
    ∧ e = u64_add expected 1 ∧ vol' = vol <| epoch := e |> <| fenced := true |>.
Proof.
  unfold apply_fence. destruct (Z.eqb_spec (epoch vol) expected) as [<-|Hne]; simpl.
  2:{ split; [done|]. by intros (? & _). }
  destruct (mirrored (assembly vol)); simpl.
  - split; [by intros [= <- <-]|]. by intros (_ & _ & -> & ->).
  - split; [done|]. by intros (_ & ? & _).
Qed.

Lemma apply_fence_stale vol expected e :
  apply_fence vol expected = Err (StaleEpoch e) ↔ epoch vol ≠ expected ∧ e = epoch vol.
Proof.
  unfold apply_fence. destruct (Z.eqb_spec (epoch vol) expected) as [Heq|Hne]; simpl.
  - destruct (mirrored (assembly vol)); simpl; split; try done; by intros [? _].
  - split; [by intros [= <-]|by intros [_ ->]].
Qed.

(** The fence is a compare-and-swap: of any number of fences asked for
    at one epoch on a record nobody else writes, the first on a mirrored
    volume goes through with the epoch one up, and each later one is told
    the epoch is stale. *)
Theorem fence_cas_once (vol : DistVolume) (expected : Z) (vol' : DistVolume) (e : Z)
  (Hu : (0 ≤ expected < u64_max)%Z)
  (H : apply_fence vol expected = Ok (vol', e)) :
  e = (expected + 1)%Z ∧ epoch vol' = e ∧ fenced vol' = true
  ∧ legs vol' = legs vol ∧ head vol' = head vol ∧ assembly vol' = assembly vol
  ∧ apply_fence vol' expected = Err (StaleEpoch e)
  ∧ ∀ e0, (e0 ≤ expected)%Z → apply_fence vol' e0 = Err (StaleEpoch e).
Proof.
  apply apply_fence_Ok in H as (Heq & Hm & -> & ->). rewrite u64_add_small by (unfold u64_max in *; lia).
  repeat (split; [done|]). split.
  - apply apply_fence_stale. simpl. split; [lia|done].
  - intros e0 He0. apply apply_fence_stale. simpl. split; [lia|done].
Qed.

Lemma check_promote_leg vol target fe th h :
  check_promote vol target fe th = Ok h →
  ∃ l, find_first (λ l, leg_node l == target) (legs vol) = Some l
    ∧ leg_state l = Created ∧ is_Some (leg_volume_id l) ∧ th = true.
Proof.
  unfold check_promote.
  destruct (negb (fenced vol) || _); [done|]. destruct (is_some (dual_attach vol)); [done|].
  destruct (negb (mirrored (assembly vol))); [done|]. destruct (is_some (replacing vol)); [done|].
  destruct (find_first _ (legs vol)) as [l|]; simpl; [|done].
  destruct ((leg_state l != Created) || is_none (leg_volume_id l)) eqn:E; [done|].
  apply orb_false_iff in E as [E1%neqb_nprop E2].
  destruct th; simpl; [|done]. intros _. exists l. split; [done|]. split; [done|]. split; [|done].
  by rewrite is_none_false in E2.
Qed.

(** A promote is let through exactly when the volume is fenced at the
    epoch given, mirrored, with no window open and no leg being replaced,
    and the target answers and holds a created leg; anything but the fenced
    epoch is refused as stale whatever else holds. *)
Theorem check_promote_iff (vol : DistVolume) (target : string) (fe : Z) (th : bool) :
  (∀ h, check_promote vol target fe th = Ok h ↔
     h = head vol ∧ fenced vol = true ∧ epoch vol = fe ∧ dual_attach vol = None
     ∧ mirrored (assembly vol) = true ∧ replacing vol = None ∧ th = true
     ∧ ∃ l, find_first (λ l, leg_node l == target) (legs vol) = Some l
         ∧ leg_state l = Created ∧ is_Some (leg_volume_id l))
  ∧ (fenced vol = false ∨ epoch vol ≠ fe →
     check_promote vol target fe th = Err (StaleEpoch (epoch vol))).
Proof.
  split.
  - intros h. split.
    + intros H. destruct (check_promote_leg _ _ _ _ _ H) as (l & Hf & Hl & Hv & ->).
      revert H. unfold check_promote.
      destruct (fenced vol), (Z.eqb_spec (epoch vol) fe), (dual_attach vol), (mirrored (assembly vol)),
        (replacing vol); simpl; try done.
      rewrite Hf. simpl. case_head; [done|]. intros [= <-].
      repeat (split; [done|]). by exists l.
    + intros (-> & Hfe & <- & Hd & Hm & Hr & -> & l & Hf & Hl & [v Hv]).
      unfold check_promote. rewrite Hfe, Z.eqb_refl, Hd, Hm, Hr, Hf. simpl.
      by rewrite Hl, eqb_refl, Hv.
  - unfold check_promote. intros [->|Hne]; [done|].
    apply Z.eqb_neq in Hne. rewrite Hne. by destruct (fenced vol).
Qed.

(** A window is opened only towards a created slave leg of a mirrored
    volume with no window for another target; it carries the epoch it was
    opened at, a repeat keeps when it was opened and only moves the expiry,
    and the head, the legs, the epoch and the fence are as before. *)
Theorem open_window_spec (vol : DistVolume) (target : string) (ttl : Z) (now : time)
  (vol' : DistVolume) (w : DualAttach) (H : apply_open_window vol target ttl now = Ok (vol', w)) :
  mirrored (assembly vol) = true ∧ head vol ≠ Some target
  ∧ (∃ l, l ∈ legs vol ∧ leg_node l = target ∧ leg_state l = Created)
  ∧ (∀ w0, dual_attach vol = Some w0 → target_node w0 = target ∧ opened_at w = opened_at w0)
  ∧ (dual_attach vol = None → opened_at w = now)
  ∧ target_node w = target ∧ da_epoch w = epoch vol ∧ expires_at w = (now + ttl)%Z
  ∧ vol' = vol <| dual_attach := Some w |>
  ∧ ∀ ttl' now', ∃ w', apply_open_window vol' target ttl' now' = Ok (vol' <| dual_attach := Some w' |>, w')
      ∧ opened_at w' = opened_at w.
Proof.
  unfold apply_open_window in H. destruct (mirrored (assembly vol)) eqn:Hm; [|done]. simpl in H.
  destruct (opt_filter _ (dual_attach vol)) as [w0|] eqn:Ew; [done|].
  destruct (Some target == head vol) eqn:Eh; [done|]. apply eqb_nprop in Eh.
  destruct (existsb _ (legs vol)) eqn:El; [|done]. simpl in H. injection H as <- <-. simpl.
  split; [done|]. split; [by apply not_eq_sym|]. split.
  { apply existsb_true in El as (l & Hl & [?%eqb_prop ?%eqb_prop]%andb_true_iff). by exists l. }
  split.
  { intros w0 Hw. rewrite Hw in Ew |- *. simpl in *. split; [|done].
    destruct (target_node w0 != target) eqn:E; [done|]. by apply neqb_nprop in E. }
  split; [intros Hn; by rewrite Hn|]. repeat (split; [done|]).
  intros ttl' now'. eexists. unfold apply_open_window. simpl.
  rewrite Hm, eqb_refl. simpl. destruct (Some target == head vol) eqn:Eh'; [by apply eqb_prop in Eh'|].
  rewrite El. simpl. done.
Qed.

(** ** Facts: expiry *)

Local Close Scope string_scope.

Definition expired (now : time) (v : DistVolume) : bool :=
  is_some_and (λ w, (expires_at w <=? now)%Z) (dual_attach v).
Definition close_expired (now : time) (v : DistVolume) : DistVolume :=
  if expired now v then v <| dual_attach := None |> else v.
Definition expired_window (now : time) (v : DistVolume) : list (string * string) :=
  if expired now v then option_list ((λ w, (name v, target_node w)) <$> dual_attach v) else [].

Lemma expire_window_value now v s : (expire_window now v s).1 = close_expired now v.
Proof. unfold expire_window, close_expired, expired. destruct (dual_attach v); simpl; [by case_head|done]. Qed.

Lemma expire_window_acc now v s : (expire_window now v s).2 = s ++ expired_window now v.
Proof.
  unfold expire_window, expired_window, expired. destruct (dual_attach v) as [w|]; simpl; [|by rewrite app_nil_r].
  case_head; [done|]. by rewrite app_nil_r.
Qed.

Lemma expire_windows_unfold fed now :
  expire_windows fed now =
    (let closed := concat (map (expired_window now) (bt_values (volumes fed))) in
     let fed := fed <| volumes := close_expired now <$> volumes fed |> in
     (match closed with [] => fed | _ => bump fed end, closed)).
Proof.
  unfold expire_windows.
  pose proof (bt_for_mut_map (expire_window now) (close_expired now) (volumes fed) []
    (λ v s, expire_window_value now v s)) as H1.
  pose proof (bt_for_mut_gather (expire_window now) (expired_window now) (volumes fed) []
    (λ v s, expire_window_acc now v s)) as H2.
  destruct (bt_for_mut _ _ _) as [vs closed]. simpl in *. by subst.
Qed.

Lemma elem_of_expired_window now v n t :
  (n, t) ∈ expired_window now v ↔
    ∃ w, dual_attach v = Some w ∧ (expires_at w ≤ now)%Z ∧ n = name v ∧ t = target_node w.
Proof.
  unfold expired_window, expired. destruct (dual_attach v) as [w|]; simpl.
  - destruct (Z.leb_spec (expires_at w) now); simpl.
    + rewrite list_elem_of_singleton. split; [intros [= -> ->]; by exists w|].
      by intros (w' & [= <-] & _ & -> & ->).
    + split; [by intros ?%not_elem_of_nil|]. intros (w' & [= <-] & ? & _). lia.
  - split; [by intros ?%not_elem_of_nil|]. by intros (w & ? & _).
Qed.

Lemma close_expired_done now v : expired now (close_expired now v) = false.
Proof. unfold close_expired. by destruct (expired now v) eqn:E. Qed.

Lemma close_expired_idem now v : close_expired now (close_expired now v) = close_expired now v.
Proof. unfold close_expired at 1. by rewrite close_expired_done. Qed.

(** With every window within its time the sweep changes nothing. *)
Lemma expire_windows_none fed now :
  (∀ k v, volumes fed !! k = Some v → expired now v = false) → expire_windows fed now = (fed, []).
Proof.
  intros H. rewrite expire_windows_unfold.
  assert (concat (map (expired_window now) (bt_values (volumes fed))) = []) as ->.
  { apply elem_of_nil_inv. intros x (v & [k Hk]%elem_of_bt_values & Hx)%elem_of_concat_map.
    unfold expired_window in Hx. rewrite (H k v Hk) in Hx. by apply not_elem_of_nil in Hx. }
  simpl. f_equal. assert (close_expired now <$> volumes fed = volumes fed) as ->; [|by destruct fed].
  apply map_eq. intros k. rewrite lookup_fmap. destruct (volumes fed !! k) as [v|] eqn:E; simpl; [|done].
  unfold close_expired. by rewrite (H k v E).
Qed.

(** The sweep closes exactly the windows at or past their expiry, names
    them and their targets, touches nothing else of any volume, counts one
    revision when it closed any, and a second sweep at the same moment
    changes nothing. *)
Theorem expire_windows_spec (fed : FedState) (now : time) :
  let '(fed', closed) := expire_windows fed now in
  (∀ k, volumes fed' !! k =
     (λ v, if expired now v then v <| dual_attach := None |> else v) <$> volumes fed !! k)
  ∧ (∀ n t, (n, t) ∈ closed ↔ ∃ k v w, volumes fed !! k = Some v ∧ dual_attach v = Some w
       ∧ (expires_at w ≤ now)%Z ∧ n = name v ∧ t = target_node w)
  ∧ revision fed' = (if decide (closed = []) then revision fed else u64_add (revision fed) 1)
  ∧ expire_windows fed' now = (fed', []).
Proof.
  rewrite expire_windows_unfold. cbv zeta.
  set (closed := concat _). set (fed' := match closed with [] => _ | _ => _ end).
  assert (volumes fed' = close_expired now <$> volumes fed) as Hv by (subst fed'; by destruct closed).
  split; [intros k; by rewrite Hv, lookup_fmap|]. split.
  { intros n t. unfold closed. rewrite elem_of_concat_map. setoid_rewrite elem_of_bt_values.
    setoid_rewrite elem_of_expired_window. split.
    - intros (v & (k & Hk) & w & Hw). by exists k, v, w.
    - intros (k & v & w & Hk & Hw). exists v. split; [by exists k|by exists w]. }
  split; [subst fed'; by destruct closed; destruct (decide _)|].
  apply expire_windows_none. intros k v. rewrite Hv, lookup_fmap.
  destruct (volumes fed !! k); simpl; [|done]. intros [= <-]. apply close_expired_done.
Qed.

(** ** Witnesses *)

(** A mirror on three nodes, assembled with its head on [n1]. *)
Definition example_volume : DistVolume :=
  let leg n := (new_leg n (Some ("v-" +:+ n)%string) None) <| leg_member_uuid := Some ("m-" +:+ n)%string |> in
  (new_volume "db" 1024 None 3 "node" [leg "n1"; leg "n2"; leg "n3"]%string 0 [] None None)
    <| assembly := Assembled |> <| head := Some "n1"%string |> <| array_id := Some "ARR"%string |>.

Lemma fence_cas_once_witness :
  let vol' := example_volume <| epoch := 2%Z |> <| fenced := true |> in
  (2 = 1 + 1)%Z ∧ epoch vol' = 2%Z ∧ fenced vol' = true
  ∧ legs vol' = legs example_volume ∧ head vol' = head example_volume
  ∧ assembly vol' = assembly example_volume
  ∧ apply_fence vol' 1 = Err (StaleEpoch 2)
  ∧ ∀ e0, (e0 ≤ 1)%Z → apply_fence vol' e0 = Err (StaleEpoch 2).
Proof. apply (fence_cas_once example_volume 1); [split; vm_compute; congruence|reflexivity]. Defined.

Lemma open_window_spec_witness :
  let w := MkDualAttach "n2" 1 50 60 in
  mirrored (assembly example_volume) = true ∧ head example_volume ≠ Some "n2"%string
  ∧ (∃ l, l ∈ legs example_volume ∧ leg_node l = "n2"%string ∧ leg_state l = Created)
  ∧ (∀ w0, dual_attach example_volume = Some w0 → target_node w0 = "n2"%string ∧ opened_at w = opened_at w0)
  ∧ (dual_attach example_volume = None → opened_at w = 50%Z)
  ∧ target_node w = "n2"%string ∧ da_epoch w = epoch example_volume ∧ expires_at w = (50 + 10)%Z
  ∧ example_volume <| dual_attach := Some w |> = example_volume <| dual_attach := Some w |>
  ∧ ∀ ttl' now', ∃ w', apply_open_window (example_volume <| dual_attach := Some w |>) "n2" ttl' now'
       = Ok (example_volume <| dual_attach := Some w |> <| dual_attach := Some w' |>, w')
      ∧ opened_at w' = opened_at w.
Proof. apply (open_window_spec example_volume "n2" 10 50). reflexivity. Defined.

(** The head is gone; two legs' superblocks agree that [n2] was active. One
    of another array, at a higher count, does not matter. *)
Definition example_superblocks : list LegSuperblock :=
  let slot n st := MkSlotRecord ("m-" +:+ n)%string st 0 in
  let ss := [slot "n1" "failed"; slot "n2" "active"; slot "n3" "rebuilding"]%string in
  [MkLegSuperblock "arr" "m-n2" 7 1024 ss; MkLegSuperblock "arr" "m-n3" 7 1024 ss;
   MkLegSuperblock "other" "m-n1" 9 1024 []].

Lemma superblock_in_sync_evidence_witness :
  from_superblocks example_volume None example_superblocks 5 ≠ None ∧
  ∃ leg sb u a, leg ∈ all_legs example_volume ∧ leg_state leg = Created ∧ "n2"%string = leg_node leg
    ∧ sb ∈ example_superblocks ∧ leg_member_uuid leg = Some u
    ∧ eq_ignore_ascii_case u (sb_member_uuid sb) = true
    ∧ array_id example_volume = Some a ∧ eq_ignore_ascii_case (array_uuid sb) a = true
    ∧ (∀ sb', sb' ∈ example_superblocks → eq_ignore_ascii_case (array_uuid sb') a = true →
        (sb_events sb' ≤ sb_events sb)%Z
        ∧ (sb_events sb' = sb_events sb →
           ∃ rec, rec ∈ slots sb' ∧ slot_of (sb_member_uuid sb) sb' = Some rec
             ∧ sl_member_uuid rec = sb_member_uuid sb ∧ sl_state rec = "active"%string))
    ∧ (∀ l, None = Some l → ar_source l = SrcHead → head example_volume = Some (ar_head l) → ar_array_id l = a →
        confirmed (Some l) sb).
Proof.
  split; [vm_compute; discriminate|].
  apply (superblock_in_sync_evidence example_volume None example_superblocks 5
    (unwrap_or (MkArrayReading 0 "" "" "" 0 [] None None SrcHead None)
       (from_superblocks example_volume None example_superblocks 5))
    (MkReplica "n2" Slave InSync)).
  - reflexivity.
  - vm_compute. reflexivity.
  - apply list_elem_of_In. vm_compute. auto.
  - reflexivity.
Defined.
