(* ===== verification/Recovery.v ===== *)
(** * What the reconciler decides (src/orchestrate.rs, the pure part)

    Each poll: which legs are lost, which volumes to re-leg, resume, or
    assemble, which heads come back, which to re-head and onto which leg,
    which arrays to put back together; and what an array found on a head
    means for a volume about to be assembled. Shown: legs are marked lost
    exactly when their node does not answer and the pass is idempotent; a
    re-leg starts only under a live head; a re-head targets only a copy
    known to be in sync; a head's leg comes back only on an active member. *)

From S2P Require Import Prelude F64 Config Model Json Sync Placement.
From stdpp Require Import options.

Local Open Scope string_scope.

(** ** Arrays already on the head *)

Section match_array.
Context {J : Type} `{Json J}.
Inductive ArrayMatch :=
  | NoMatch
  | Exact (arr : J)
  | MatchConflict (array uri : string).
Definition array_paths (a : J) : gset string :=
  list_to_set (map_or [] (omap (get_str "device_path")) (get_array "members" a)).
Fixpoint match_array_loop (want : gset string) (arrays : list J) : ArrayMatch :=
  match arrays with
  | [] => NoMatch
  | a :: arrays =>
      let paths := array_paths a in
      if paths == want then Exact a
      else match bs_list (paths ∩ want) with
           | uri :: _ => MatchConflict (unwrap_or "?" (get_str "id" a)) uri
           | [] => match_array_loop want arrays
           end
  end.
Definition match_array (arrays : list J) (uris : list string) : ArrayMatch :=
  match_array_loop (list_to_set uris) arrays.
End match_array.
Arguments ArrayMatch : clear implicits.

(** ** Where a moved leg may go *)

Definition candidate_of (n : Node) : Candidate :=
  {| cand_name := nc_name (config n); cand_labels := labels n;
     cand_free_bytes := free_bytes (status n); cand_total_bytes := total_bytes (status n);
     io_busy := busy <$> io (status n) |}.

Definition staying_domains (fed : FedState) (rungs : list string) (vol : DistVolume) (from : string) : list string :=
  map (λ n, domain_at (labels n) rungs (rung vol))
    (omap (λ l, nodes fed !! leg_node l) (List.filter (λ l, leg_node l != from) (legs vol))).

Definition move_target_candidates (fed : FedState) (rungs : list string) (vol : DistVolume) (from : string)
    : list Candidate :=
  let staying := staying_domains fed rungs vol from in
  map candidate_of
    (List.filter (λ n, negb (existsb (λ d, d == domain_at (labels n) rungs (rung vol)) staying))
      (List.filter (λ n, forallb (λ l, leg_node l != nc_name (config n)) (legs vol))
        (List.filter (λ n, healthy (status n)) (bt_values (nodes fed))))).

(** ** The recovery plan *)

Record Plan := MkPlan {
  p_lost : list (string * string);
  p_head_lost : list (string * string);
  p_start : list (string * string);
  p_resume : list string;
  p_assemble : list string;
}.
#[export] Instance Plan_eta : Eta Plan := λ r,
  MkPlan (p_lost r) (p_head_lost r) (p_start r) (p_resume r) (p_assemble r).
Definition Plan_default : Plan := MkPlan [] [] [] [] [].

(** [t.map(|t| now < t).unwrap_or(false)]: still holding off. *)
Definition holding_off (now : time) (t : option time) : bool := is_some_and (λ t, (now <? t)%Z) t.

Definition assemble_ready (healthy : string → bool) (v : DistVolume) : bool :=
  (2 <=? length (legs v))%nat
  && forallb (λ l, (leg_state l == Created) && is_some (leg_volume_id l) && healthy (leg_node l)) (legs v).

Definition newly_lost (healthy : string → bool) (l : Leg) : bool :=
  (leg_state l == Created) && negb (healthy (leg_node l)).
Definition mark_lost (healthy : string → bool) (l : Leg) : Leg :=
  if newly_lost healthy l
  then l <| leg_state := Lost |> <| leg_message := Some ("node " +:+ leg_node l +:+ " unreachable") |>
  else l.

(** The nodes of a volume's lost legs. *)
Definition lost_nodes (v : DistVolume) : list string :=
  map leg_node (List.filter (λ l, leg_state l == Lost) (legs v)).

Definition mark_legs (healthy : string → bool) (v : DistVolume) : DistVolume :=
  v <| legs ::= map (mark_lost healthy) |>.
Definition mark_volume (healthy : string → bool) (v : DistVolume) : DistVolume :=
  let v := mark_legs healthy v in
  if negb (match lost_nodes v with [] => true | _ => false end) && (assembly v == Assembled)
  then v <| assembly := Degraded |> else v.

(** The head is gone, or its leg is lost. *)
Definition head_gone (healthy : string → bool) (v : DistVolume) : bool :=
  match head v with
  | Some h => existsb (λ n, n == h) (lost_nodes v) || negb (healthy h)
  | None => true
  end.

Definition recover_volume (enabled : bool) (now : time) (busy healthy : string → bool)
    (v : DistVolume) (st : Plan * bool) : DistVolume * (Plan * bool) :=
  let '(plan, changed) := st in
  if assembly v == PendingEngineSupport then
    if enabled && assemble_ready healthy v && negb (busy (name v))
       && negb (holding_off now (next_assemble_after v))
    then (v, (plan <| p_assemble ::= λ l, (l ++ [name v])%list |>, changed))
    else (v, (plan, changed))
  else if negb (mirrored (assembly v)) then (v, (plan, changed))
  else
    let gone := List.filter (newly_lost healthy) (legs v) in
    let plan := plan <| p_lost ::= λ l, (l ++ map (λ g, (name v, leg_node g)) gone)%list |>
                     <| p_head_lost ::= λ l, (l ++ map (λ g, (name v, leg_node g))
                          (List.filter (λ g, head v == Some (leg_node g)) gone))%list |> in
    let v' := mark_volume healthy v in
    let changed := changed || (match gone with [] => false | _ => true end)
                   || (assembly v' != assembly v) in
    if is_some (replacing v') then
      if enabled && negb (busy (name v))
      then (v', (plan <| p_resume ::= λ l, (l ++ [name v])%list |>, changed))
      else (v', (plan, changed))
    else
      match lost_nodes v' with
      | [] => (v', (plan, changed))
      | first :: _ =>
          if negb enabled || busy (name v) || head_gone healthy v' || holding_off now (next_releg_after v')
          then (v', (plan, changed))
          else (v', (plan <| p_start ::= λ l, (l ++ [(name v, first)])%list |>, changed))
      end.

Definition plan_recovery (fed : FedState) (enabled : bool) (now : time) (busy : string → bool)
    : FedState * Plan :=
  let healthy := node_healthy fed in
  let '(vs, (plan, changed)) :=
    bt_for_mut (recover_volume enabled now busy healthy) (volumes fed) (Plan_default, false) in
  let fed := fed <| volumes := vs |> in
  (if changed then bump fed else fed, plan).

(** ** A head that answers again *)

Inductive HeadReturn :=
  | Restored (assembled : bool)
  | NotActive (st : string)
  | ArrayGone.

Definition head_rejoin_candidates (fed : FedState) (busy : string → bool) : list (string * string * string) :=
  omap (λ v,
    head ← head v;
    array ← array_id v;
    if node_healthy fed head && existsb (λ l, (leg_node l == head) && (leg_state l == Lost)) (legs v)
    then Some (name v, head, array) else None)
    (List.filter (λ v, (assembly v == Degraded) && negb (fenced v) && negb (busy (name v)))
      (bt_values (volumes fed))).

(** The head's leg, marked lost. *)
Definition lost_head (h : string) (l : Leg) : bool := (leg_node l == h) && (leg_state l == Lost).

Definition note_head (v : DistVolume) (h message : string) : DistVolume :=
  v <| legs ::= update_first (lost_head h) (λ l, l <| leg_message := Some message |>) |>.
Definition restore_head (v : DistVolume) (h : string) : DistVolume :=
  v <| legs ::= update_first (lost_head h) (λ l, l <| leg_state := Created |> <| leg_message := None |>) |>.

Definition any_lost (v : DistVolume) : bool := existsb (λ l, leg_state l == Lost) (legs v).

Definition apply_head_reading (v : DistVolume) (reading : option ArrayReading)
    : DistVolume * option (HeadReturn * bool) :=
  match head v, array_id v with
  | Some h, Some a =>
      match find_first (lost_head h) (legs v) with
      | None => (v, None)
      | Some leg =>
          let note (found : HeadReturn) (message : string) :=
            (note_head v h message, Some (found, leg_message leg != Some message)) in
          match reading with
          | None => note ArrayGone ("head " +:+ h +:+ " answers but no longer holds array " +:+ a
                                    +:+ " (engine restart, #15)")
          | Some r =>
              if (ar_head r != h) || (ar_array_id r != a) then (v, None)
              else
                let st := mr_state <$> member_of leg r in
                if st == Some "active" then
                  let v := restore_head v h in
                  let assembled := negb (any_lost v) in
                  (if assembled then v <| assembly := Assembled |> else v, Some (Restored assembled, true))
                else
                  let st := unwrap_or "missing" st in
                  note (NotActive st) ("head " +:+ h +:+ " answers; its member of array " +:+ a +:+ " is " +:+ st)
          end
      end
  | _, _ => (v, None)
  end.

(** ** Re-heading *)

Record ReheadPlan := MkReheadPlan {
  rh_start : list (string * string * Z);
  rh_held : list (string * string);
}.
#[export] Instance ReheadPlan_eta : Eta ReheadPlan := λ r, MkReheadPlan (rh_start r) (rh_held r).

(** Its head has been lost for [after], and nothing else is going on. *)
Definition rehead_due (fed : FedState) (interval after : Z) (busy : string → bool) (now : time)
    (v : DistVolume) : option string :=
  if negb (mirrored (assembly v)) || fenced v || is_some (replacing v) || is_some (dual_attach v)
     || busy (name v) || holding_off now (next_assemble_after v)
  then None
  else
    h ← head v;
    n ← nodes fed !! h;
    if healthy (status n) || (interval * consecutive_failures (status n) <? after)%Z then None else Some h.

Definition rehead_target (fed : FedState) (readings : gmap string ArrayReading) (v : DistVolume)
    (h : string) : option string :=
  rp_node <$> find_first (λ r, (rp_node r != h) && node_healthy fed (rp_node r) && is_in_sync r)
                (replicas v (readings !! name v)).

Definition rehead_step (fed : FedState) (readings : gmap string ArrayReading) (interval after : Z)
    (busy : string → bool) (now : time) (plan : ReheadPlan) (v : DistVolume) : ReheadPlan :=
  match rehead_due fed interval after busy now v with
  | None => plan
  | Some h =>
      match rehead_target fed readings v h with
      | Some t => plan <| rh_start ::= λ l, (l ++ [(name v, t, epoch v)])%list |>
      | None => plan <| rh_held ::= λ l, (l ++ [(name v, name v +:+ ": head " +:+ h
          +:+ " lost; not re-headed — no surviving leg reads in_sync (no evidence it holds every write)")])%list |>
      end
  end.

Definition rehead_plan (fed : FedState) (readings : gmap string ArrayReading) (interval after : Z)
    (busy : string → bool) (now : time) : ReheadPlan :=
  foldl (rehead_step fed readings interval after busy now) (MkReheadPlan [] []) (bt_values (volumes fed)).

(** ** Reassembly *)

Definition reassemble_due (fed : FedState) (read busy : string → bool) (now : time) (v : DistVolume) : bool :=
  mirrored (assembly v)
  && (negb (fenced v) && is_none (replacing v) && is_none (dual_attach v))
  && map_or true (λ t, (t <=? now)%Z) (next_assemble_after v)
  && is_some_and (node_healthy fed) (head v)
  && (negb (read (name v)) && negb (busy (name v))).

Definition reassemble_candidates (fed : FedState) (read busy : string → bool) (now : time) : list string :=
  map name (List.filter (reassemble_due fed read busy now) (bt_values (volumes fed))).

(** ** Names *)

Definition MIRROR_SUFFIX : string := "-mirror".

(** The served volume's name on its engine: the mirror, or the only leg. *)
Definition served_name (v : DistVolume) : string :=
  match assembly v with
  | SingleLeg | Clone => name v
  | _ => name v +:+ MIRROR_SUFFIX
  end.

Definition valid_host_nqn (h : string) : bool :=
  let h := trim h in
  starts_with "nqn." h && (String.length h <=? 223)%nat
  && negb (existsb is_whitespace (chars h)).

Definition gone_message (nm : string) (volume_id node : option string) : string :=
  nm +:+ ": served volume " +:+ unwrap_or "?" volume_id +:+ " is gone from " +:+ unwrap_or "its engine" node
  +:+ "; its data is not recreated — POST /api/v1/volumes/" +:+ nm +:+ "/export {" +:+ debug_str "recreate"
  +:+ ": true} serves a new, EMPTY one, or delete the volume".

Local Close Scope string_scope.

(** ** Facts: marking *)

Section marking.
Context (healthy : string → bool).
(** A volume after the pass. *)
Definition recovered (v : DistVolume) : DistVolume := if mirrored (assembly v) then mark_volume healthy v else v.
Definition gone_legs (v : DistVolume) : list Leg :=
  if mirrored (assembly v) then List.filter (newly_lost healthy) (legs v) else [].
Definition record_changed (v : DistVolume) : bool :=
  (match gone_legs v with [] => false | _ => true end) || (assembly (recovered v) != assembly v).

Lemma mark_lost_id l : newly_lost healthy l = false → mark_lost healthy l = l.
Proof. unfold mark_lost. by intros ->. Qed.

Lemma mark_lost_not_newly l : newly_lost healthy (mark_lost healthy l) = false.
Proof. unfold mark_lost. destruct (newly_lost healthy l) eqn:E; [done|by rewrite E]. Qed.

Lemma mark_lost_node l : leg_node (mark_lost healthy l) = leg_node l.
Proof. unfold mark_lost. by destruct (newly_lost healthy l). Qed.

Lemma mark_volume_legs v : legs (mark_volume healthy v) = map (mark_lost healthy) (legs v).
Proof. unfold mark_volume. by case_head. Qed.

Lemma mark_volume_same v :
  name (mark_volume healthy v) = name v ∧ head (mark_volume healthy v) = head v
  ∧ epoch (mark_volume healthy v) = epoch v ∧ fenced (mark_volume healthy v) = fenced v
  ∧ replacing (mark_volume healthy v) = replacing v ∧ dual_attach (mark_volume healthy v) = dual_attach v
  ∧ next_releg_after (mark_volume healthy v) = next_releg_after v
  ∧ mirrored (assembly (mark_volume healthy v)) = mirrored (assembly v).
Proof.
  unfold mark_volume. case_head; simpl; repeat split; try done.
  apply andb_true_iff in Heqb as [_ E%eqb_prop]. simpl in E. by rewrite E.
Qed.

Lemma mark_volume_assembly v :
  assembly (mark_volume healthy v) =
    if decide (lost_nodes (mark_legs healthy v) ≠ [] ∧ assembly v = Assembled) then Degraded else assembly v.
Proof.
  unfold mark_volume. change (assembly (mark_legs healthy v)) with (assembly v).
  destruct (lost_nodes (mark_legs healthy v)) as [|n ls]; cbn [negb andb].
  - destruct (decide _) as [[H _]|_]; [by destruct H|done].
  - destruct (assembly v == Assembled) eqn:E.
    + apply eqb_prop in E. destruct (decide _) as [|Hn]; [done|]. by destruct Hn.
    + apply eqb_nprop in E. by destruct (decide _) as [[_ ?]|_].
Qed.

Lemma mark_volume_lost v : lost_nodes (mark_volume healthy v) = lost_nodes (mark_legs healthy v).
Proof. unfold lost_nodes. by rewrite mark_volume_legs. Qed.

Lemma mark_volume_idem v : mark_volume healthy (mark_volume healthy v) = mark_volume healthy v.
Proof.
  assert (mark_legs healthy (mark_volume healthy v) = mark_volume healthy v) as Hm.
  { assert (map (mark_lost healthy) (legs (mark_volume healthy v)) = legs (mark_volume healthy v)) as Hl.
    { rewrite mark_volume_legs, map_map. apply map_ext. intros l. apply mark_lost_id, mark_lost_not_newly. }
    unfold mark_legs. destruct (mark_volume healthy v). simpl in *. by rewrite Hl. }
  unfold mark_volume at 1. rewrite Hm. cbv zeta.
  destruct (_ && _) eqn:E; [|done]. apply andb_true_iff in E as [E1 E2%eqb_prop].
  rewrite mark_volume_assembly in E2. destruct (decide _) as [|Hn]; [done|].
  destruct Hn. split; [|done]. rewrite <-mark_volume_lost. intros H. by rewrite H in E1.
Qed.

(** Nothing newly lost and the assembly as it was: nothing changed. *)
Lemma record_changed_false v : record_changed v = false → recovered v = v.
Proof.
  unfold record_changed, gone_legs, recovered. destruct (mirrored (assembly v)); [|done].
  intros [Hg Ha%neqb_nprop]%orb_false_iff.
  assert (map (mark_lost healthy) (legs v) = legs v) as Hl.
  { rewrite <-(map_id (legs v)) at 2. apply map_ext_in. intros l Hin%list_elem_of_In. apply mark_lost_id.
    destruct (newly_lost healthy l) eqn:E; [|done].
    assert (l ∈ List.filter (newly_lost healthy) (legs v)) as Hf by by rewrite elem_of_filterb.
    destruct (List.filter _ _); [by apply not_elem_of_nil in Hf|done]. }
  assert (mark_legs healthy v = v) as Hm by (unfold mark_legs; destruct v; simpl in *; by rewrite Hl).
  unfold mark_volume in *. rewrite Hm in *.
  destruct (_ && _) eqn:E; [|done]. apply andb_true_iff in E as [_ E%eqb_prop]. simpl in Ha. congruence.
Qed.

Lemma record_changed_true v : record_changed v = true → recovered v ≠ v.
Proof.
  unfold record_changed, gone_legs, recovered. destruct (mirrored (assembly v)); [|by rewrite eqb_refl].
  intros [Hg|Ha%neqb_prop]%orb_true_iff Heq.
  - destruct (List.filter _ (legs v)) as [|l ls] eqn:E; [done|].
    assert (l ∈ l :: ls) as Hin by left. rewrite <-E, elem_of_filterb in Hin. destruct Hin as [Hin Hn].
    assert (legs (mark_volume healthy v) = legs v) as Hl by by rewrite Heq.
    rewrite mark_volume_legs in Hl. apply list_elem_of_lookup in Hin as [i Hi].
    assert (map (mark_lost healthy) (legs v) !! i = Some (mark_lost healthy l)) as Hm.
    { change (map (mark_lost healthy) (legs v)) with (mark_lost healthy <$> legs v).
      by rewrite list_lookup_fmap, Hi. }
    rewrite Hl, Hi in Hm. injection Hm as Hm. pose proof (mark_lost_not_newly l). congruence.
  - by rewrite Heq in Ha.
Qed.
End marking.

(** ** Facts: the plan *)

Section plan.
Context (en : bool) (now : time) (busy healthy : string → bool).
Abbreviation step := (recover_volume en now busy healthy).

(** What one volume adds to the plan. *)
Definition start_of (v : DistVolume) : list (string * string) :=
  let v' := recovered healthy v in
  if mirrored (assembly v) && is_none (replacing v) && en && negb (busy (name v))
     && negb (head_gone healthy v') && negb (holding_off now (next_releg_after v))
  then match lost_nodes v' with [] => [] | first :: _ => [(name v, first)] end
  else [].
Definition lost_of (v : DistVolume) : list (string * string) :=
  map (λ g, (name v, leg_node g)) (gone_legs healthy v).

Lemma recover_value v st : (step v st).1 = recovered healthy v.
Proof.
  destruct st as [plan changed]. unfold recover_volume, recovered.
  destruct (assembly v == PendingEngineSupport) eqn:Ep.
  { apply eqb_prop in Ep as ->. simpl. by case_head. }
  destruct (mirrored (assembly v)); simpl; [|done].
  repeat case_head; done.
Qed.

Lemma recover_acc v st :
  let st' := (step v st).2 in
  p_lost st'.1 = p_lost st.1 ++ lost_of v
  ∧ p_start st'.1 = p_start st.1 ++ start_of v
  ∧ st'.2 = st.2 || record_changed healthy v.
Proof.
  destruct st as [plan changed]. unfold recover_volume, lost_of, start_of, record_changed, gone_legs, recovered.
  destruct (assembly v == PendingEngineSupport) eqn:Ep.
  { apply eqb_prop in Ep. rewrite Ep. simpl. rewrite Ep, eqb_refl, orb_false_r, !app_nil_r. by case_head. }
  destruct (mirrored (assembly v)) eqn:Em; simpl.
  2:{ rewrite !app_nil_r, eqb_refl, orb_false_r. done. }
  destruct (mark_volume_same healthy v) as (Hn & _ & _ & _ & Hr & _ & Ha & _).
  rewrite Hr, Ha, orb_assoc. unfold is_none. destruct (is_some (replacing v)) eqn:Er; simpl.
  { rewrite app_nil_r. by case_head. }
  destruct (lost_nodes (mark_volume healthy v)) as [|n ls]; simpl.
  { rewrite if_same_nil. by rewrite !app_nil_r. }
  destruct en, (busy (name v)), (head_gone healthy (mark_volume healthy v)),
    (holding_off now (next_releg_after v)); simpl; by rewrite ?app_nil_r.
Qed.
End plan.

Lemma plan_recovery_unfold fed en now busy :
  let healthy := node_healthy fed in
  let '(fed', plan) := plan_recovery fed en now busy in
  let fed1 := fed <| volumes := recovered healthy <$> volumes fed |> in
  fed' = (if existsb (record_changed healthy) (bt_values (volumes fed)) then bump fed1 else fed1)
  ∧ p_lost plan = concat (map (lost_of healthy) (bt_values (volumes fed)))
  ∧ p_start plan = concat (map (start_of en now busy healthy) (bt_values (volumes fed))).
Proof.
  unfold plan_recovery. cbv zeta. set (h := node_healthy fed). set (step := recover_volume en now busy h).
  pose proof (bt_for_mut_map step (recovered h) (volumes fed) (Plan_default, false)
    (λ v st, recover_value en now busy h v st)) as H1.
  pose proof (bt_for_mut_acc step (volumes fed) (Plan_default, false)) as H2.
  pose proof (foldl_gather_proj (λ s v, (step v s).2) (λ s, p_lost s.1) (lost_of h) (bt_values (volumes fed))
    (Plan_default, false) (λ st v, proj1 (recover_acc en now busy h v st))) as HL.
  pose proof (foldl_gather_proj (λ s v, (step v s).2) (λ s, p_start s.1) (start_of en now busy h)
    (bt_values (volumes fed)) (Plan_default, false)
    (λ st v, proj1 (proj2 (recover_acc en now busy h v st)))) as HS.
  pose proof (foldl_flag_proj (λ s v, (step v s).2) snd (record_changed h) (bt_values (volumes fed))
    (Plan_default, false) (λ st v, proj2 (proj2 (recover_acc en now busy h v st)))) as HC.
  rewrite <-H2 in HL, HS, HC. destruct (bt_for_mut step _ _) as [vs [plan changed]].
  simpl in *. subst. by rewrite HL, HS.
Qed.

Lemma elem_of_lost_of h v n nd :
  (n, nd) ∈ lost_of h v ↔ n = name v ∧ mirrored (assembly v) = true
    ∧ ∃ l, l ∈ legs v ∧ leg_node l = nd ∧ leg_state l = Created ∧ h nd = false.
Proof.
  unfold lost_of, gone_legs. rewrite list_elem_of_fmap. setoid_rewrite pair_equal_spec.
  destruct (mirrored (assembly v)).
  - setoid_rewrite elem_of_filterb. split.
    + intros (l & [-> ->] & Hl & [Hs%eqb_prop Hh%negb_true_iff]%andb_true_iff). eauto 10.
    + intros (-> & _ & l & Hl & <- & Hs & Hh). exists l. unfold newly_lost. by rewrite Hs, eqb_refl, Hh.
  - split; [by intros (l & _ & ?%not_elem_of_nil)|]. by intros (_ & ? & _).
Qed.

Lemma elem_of_start_of en now busy h v n from :
  (n, from) ∈ start_of en now busy h v ↔
    n = name v ∧ mirrored (assembly v) = true ∧ replacing v = None ∧ en = true ∧ busy (name v) = false
    ∧ head_gone h (recovered h v) = false ∧ holding_off now (next_releg_after v) = false
    ∧ lost_nodes (recovered h v) !! 0%nat = Some from.
Proof.
  unfold start_of. split.
  - case_head; [|by intros ?%not_elem_of_nil].
    rewrite !andb_true_iff, !negb_true_iff, is_none_true in Heqb. destruct Heqb as (((((? & ?) & ?) & ?) & ?) & ?).
    destruct (lost_nodes _) as [|x l]; [by intros ?%not_elem_of_nil|].
    intros [= -> ->]%list_elem_of_singleton. by repeat split.
  - intros (-> & -> & Hr & -> & -> & -> & -> & Hl). rewrite Hr. simpl.
    destruct (lost_nodes _) as [|x l]; simplify_eq/=. by left.
Qed.

(** The pass over a federation already marked finds nothing to mark. *)
Lemma recovered_idem h v : recovered h (recovered h v) = recovered h v.
Proof.
  unfold recovered. destruct (mirrored (assembly v)) eqn:E; [|by rewrite E].
  destruct (mark_volume_same h v) as (_ & _ & _ & _ & _ & _ & _ & Ha).
  rewrite Ha, E. apply mark_volume_idem.
Qed.

Lemma unchanged_volume h v : recovered h v = v → record_changed h v = false.
Proof. intros H. destruct (record_changed h v) eqn:E; [|done]. by destruct (record_changed_true h v E). Qed.

(** A recovery pass marks lost exactly the created legs of assembled
    volumes whose node does not answer, and reports each; it degrades a
    volume with a lost leg and changes nothing else; it counts one revision
    exactly when a record changed; and a second pass, whatever its moment
    and claims, changes and reports nothing more. *)
Theorem recovery_marks (fed : FedState) (en : bool) (now : time) (busy : string → bool) :
  let h := node_healthy fed in
  let '(fed', plan) := plan_recovery fed en now busy in
  volumes fed' = recovered h <$> volumes fed ∧ nodes fed' = nodes fed
  ∧ (∀ n nd, (n, nd) ∈ p_lost plan ↔ ∃ k v l, volumes fed !! k = Some v ∧ n = name v
       ∧ mirrored (assembly v) = true ∧ l ∈ legs v ∧ leg_node l = nd ∧ leg_state l = Created ∧ h nd = false)
  ∧ (volumes fed' = volumes fed → fed' = fed)
  ∧ (volumes fed' ≠ volumes fed → revision fed' = u64_add (revision fed) 1)
  ∧ ∀ en' now' busy', (plan_recovery fed' en' now' busy').1 = fed'
      ∧ p_lost (plan_recovery fed' en' now' busy').2 = [].
Proof.
  intros h. pose proof (plan_recovery_unfold fed en now busy) as H.
  destruct (plan_recovery fed en now busy) as [fed' plan]. destruct H as (Hf & Hlost & _). fold h in Hf, Hlost.
  assert (volumes fed' = recovered h <$> volumes fed ∧ nodes fed' = nodes fed) as [Hv Hn]
    by (subst fed'; by case_head).
  assert (∀ v, v ∈ bt_values (volumes fed') → record_changed h v = false) as Hidem.
  { intros v [k Hk]%elem_of_bt_values. rewrite Hv, lookup_fmap in Hk.
    destruct (volumes fed !! k) as [u|]; simplify_eq/=. apply unchanged_volume, recovered_idem. }
  split; [done|]. split; [done|]. split; [|split; [|split]].
  - intros n nd. rewrite Hlost, elem_of_concat_map. setoid_rewrite elem_of_bt_values.
    setoid_rewrite elem_of_lost_of. split.
    + intros (v & (k & Hk) & -> & Hm & l & Hl). exists k, v, l. by destruct Hl as (? & ? & ? & ?).
    + intros (k & v & l & Hk & -> & Hm & Hl). exists v. split; [by exists k|]. split; [done|]. split; [done|]. by exists l.
  - intros Heq. assert (existsb (record_changed h) (bt_values (volumes fed)) = false) as Hc.
    { apply existsb_false. intros v [k Hk]%elem_of_bt_values. apply unchanged_volume.
      rewrite Heq in Hv. rewrite Hv, lookup_fmap in Hk at 1.
      destruct (volumes fed !! k) as [u|] eqn:Eu; simplify_eq/=. apply recovered_idem. }
    rewrite Hc in Hf. subst fed'. simpl in Hv, Heq. rewrite Heq. by destruct fed.
  - intros Hne. destruct (existsb _ _) eqn:Hc in Hf; subst fed'; [done|].
    destruct Hne. simpl. apply map_eq. intros k. rewrite lookup_fmap.
    destruct (volumes fed !! k) as [v|] eqn:Ek; simpl; [|done]. f_equal. apply record_changed_false.
    rewrite existsb_false in Hc. apply Hc. rewrite elem_of_bt_values. by exists k.
  - intros en' now' busy'. pose proof (plan_recovery_unfold fed' en' now' busy') as H'.
    destruct (plan_recovery fed' en' now' busy') as [fed'' plan'].
    assert (node_healthy fed' = h) as Hh by (subst h; unfold node_healthy; by rewrite Hn).
    rewrite Hh in H'. destruct H' as (Hf' & Hl' & _). simpl.
    rewrite (proj2 (existsb_false _ _) Hidem) in Hf'. split.
    + rewrite Hf', Hv. rewrite <-map_fmap_compose.
      assert (recovered h ∘ recovered h <$> volumes fed = volumes fed') as ->; [|by destruct fed'].
      rewrite Hv. apply map_fmap_ext. intros k v _. apply recovered_idem.
    + rewrite Hl'. apply elem_of_nil_inv. intros [n nd] (v & Hin & Hx)%elem_of_concat_map.
      pose proof (Hidem v Hin) as Hrc. unfold record_changed in Hrc. apply orb_false_iff in Hrc as [Hg _].
      unfold lost_of in Hx. destruct (gone_legs h v); [by apply not_elem_of_nil in Hx|done].
Qed.

(** A re-leg is started exactly for the volumes with recovery on, an
    array, a lost leg, no replacement recorded, no work in flight and the
    cooldown over, whose head answers and holds its own leg; it replaces
    the first lost leg, which is not the head's. *)
Theorem recovery_starts (fed : FedState) (en : bool) (now : time) (busy : string → bool) (n from : string) :
  let h := node_healthy fed in
  (n, from) ∈ p_start (plan_recovery fed en now busy).2 ↔
    ∃ k v hd, volumes fed !! k = Some v ∧ n = name v ∧ mirrored (assembly v) = true ∧ en = true
      ∧ replacing v = None ∧ busy n = false ∧ holding_off now (next_releg_after v) = false
      ∧ head v = Some hd ∧ h hd = true ∧ from ≠ hd
      ∧ (hd ∉ lost_nodes (recovered h v)) ∧ (lost_nodes (recovered h v)) !! 0%nat = Some from.
Proof.
  intros h. pose proof (plan_recovery_unfold fed en now busy) as H.
  destruct (plan_recovery fed en now busy) as [fed' plan]. destruct H as (_ & _ & Hs). fold h in Hs.
  simpl. rewrite Hs, elem_of_concat_map. setoid_rewrite elem_of_bt_values. setoid_rewrite elem_of_start_of.
  assert (∀ v, mirrored (assembly v) = true → head (recovered h v) = head v) as Hhead.
  { intros v Hm. unfold recovered. rewrite Hm. by destruct (mark_volume_same h v) as (_ & ? & _). }
  split.
  - intros (v & (k & Hk) & -> & Hm & Hr & Hen & Hb & Hg & Ho & Hl).
    unfold head_gone in Hg. rewrite Hhead in Hg by done. destruct (head v) as [hd|] eqn:Ehd; [|done].
    apply orb_false_iff in Hg as [Hg1 Hg2%negb_false_iff].
    assert (hd ∉ lost_nodes (recovered h v)) as Hnin.
    { intros Hin. rewrite existsb_false in Hg1. specialize (Hg1 hd Hin). by rewrite eqb_refl in Hg1. }
    exists k, v, hd. repeat (split; [done|]). split; [|done].
    intros ->. apply Hnin. by eapply list_elem_of_lookup_2.
  - intros (k & v & hd & Hk & -> & Hm & Hen & Hr & Hb & Ho & Hhd & Hh & _ & Hnin & Hl).
    exists v. split; [by exists k|]. repeat (split; [done|]). split; [|done].
    unfold head_gone. rewrite Hhead, Hhd, Hh by done. simpl. rewrite orb_false_r.
    apply existsb_false. intros x Hx. apply eqb_false. by intros ->.
Qed.

(** ** Facts: a head that answers again *)

(** The head's own leg is lost, and [leg] is it. *)
Definition head_leg_lost (v : DistVolume) (h : string) (leg : Leg) : Prop :=
  head v = Some h ∧ find_first (lost_head h) (legs v) = Some leg.

Lemma note_head_leg v h leg msg :
  head_leg_lost v h leg → head_leg_lost (note_head v h msg) h (leg <| leg_message := Some msg |>).
Proof.
  intros [Hh Hl]. split; [done|]. unfold note_head. simpl. by rewrite find_first_update_first, Hl.
Qed.

Lemma note_head_head v h msg : head (note_head v h msg) = head v.
Proof. done. Qed.

Lemma note_head_array v h msg : array_id (note_head v h msg) = array_id v.
Proof. done. Qed.

Lemma note_head_idem v h msg : note_head (note_head v h msg) h msg = note_head v h msg.
Proof.
  unfold note_head. simpl. by rewrite update_first_idem.
Qed.

(** A lost head leg comes back exactly on a reading of this volume's own
    head and array with the leg's member active; then that leg is created
    again and the volume is assembled exactly when no leg is lost any more.
    Any other finding only words the leg's message, and finding the same
    again is reported as no change. *)
Theorem head_reading_spec (v : DistVolume) (h a : string) (leg : Leg) (reading : option ArrayReading)
  (Hl : head_leg_lost v h leg) (Ha : array_id v = Some a) :
  let own r := ar_head r = h ∧ ar_array_id r = a in
  match apply_head_reading v reading with
  | (v', None) => v' = v ∧ ∃ r, reading = Some r ∧ ¬ own r
  | (v', Some (Restored assembled, changed)) =>
      changed = true
      ∧ (∃ r m, reading = Some r ∧ own r ∧ member_of leg r = Some m ∧ mr_state m = "active"%string)
      ∧ legs v' = legs (restore_head v h)
      ∧ (assembled = true ↔ ∀ l, l ∈ legs v' → leg_state l ≠ Lost)
      ∧ assembly v' = if assembled then Assembled else assembly v
  | (v', Some (found, changed)) =>
      (∃ msg, v' = note_head v h msg ∧ (changed = true ↔ leg_message leg ≠ Some msg))
      ∧ match reading with
        | None => found = ArrayGone
        | Some r => own r ∧ ∀ m, member_of leg r = Some m → mr_state m ≠ "active"%string
        end
      ∧ apply_head_reading v' reading = (v', Some (found, false))
  end.
Proof.
  intros own. destruct Hl as [Hh Hf].
  destruct (apply_head_reading v reading) as [v' o] eqn:E. unfold apply_head_reading in E.
  rewrite Hh, Ha, Hf in E.
  assert (∀ msg, find_first (lost_head h) (legs (note_head v h msg)) = Some (leg <| leg_message := Some msg |>)) as Hn
    by (intros msg; apply note_head_leg; by split).
  destruct reading as [r|].
  2:{ injection E as <- <-. split; [|split; [done|]].
      - eexists. split; [done|]. apply neqb_true.
      - unfold apply_head_reading. rewrite note_head_head, note_head_array, Hh, Ha, Hn. cbv zeta.
        rewrite note_head_idem. simpl. by rewrite eqb_refl. }
  destruct ((ar_head r != h) || (ar_array_id r != a)) eqn:Eown.
  { injection E as <- <-. split; [done|]. exists r. split; [done|]. intros [H1 H2]. by rewrite H1, H2, !eqb_refl in Eown. }
  pose proof Eown as [E1%neqb_nprop E2%neqb_nprop]%orb_false_iff.
  destruct (mr_state <$> member_of leg r == Some "active"%string) eqn:Eact.
  - apply eqb_prop in Eact. destruct (member_of leg r) as [m|] eqn:Em; [|done].
    injection Eact as Eact. injection E as <- <-. split; [done|]. split; [by exists r, m|].
    destruct (any_lost (restore_head v h)) eqn:El; cbn [negb]; (split; [done|]; split; [|done]); split.
    + done.
    + intros Hall. apply existsb_true in El as (l & Hin & ?%eqb_prop). by destruct (Hall l).
    + intros _ l Hin. unfold any_lost in El. rewrite existsb_false in El. by apply eqb_nprop, El.
    + done.
  - injection E as <- <-. apply eqb_nprop in Eact. split; [|split].
    + eexists. split; [done|]. apply neqb_true.
    + split; [done|]. intros m Hm. rewrite Hm in Eact. simpl in Eact. congruence.
    + unfold apply_head_reading. rewrite note_head_head, note_head_array, Hh, Ha, Hn. cbv zeta.
      assert (∀ msg, member_of (leg <| leg_message := Some msg |>) r = member_of leg r) as Hm by done.
      rewrite Eown, Hm. rewrite <-eqb_false in Eact. rewrite Eact, note_head_idem. simpl. by rewrite eqb_refl.
Qed.

(** ** Facts: re-heading *)

Section rehead.
Context (fed : FedState) (readings : gmap string ArrayReading) (interval after : Z)
  (busy : string → bool) (now : time).

Definition rehead_start_of (v : DistVolume) : list (string * string * Z) :=
  match rehead_due fed interval after busy now v with
  | Some h => match rehead_target fed readings v h with Some t => [(name v, t, epoch v)] | None => [] end
  | None => []
  end.

Lemma rehead_plan_start :
  rh_start (rehead_plan fed readings interval after busy now)
  = concat (map rehead_start_of (bt_values (volumes fed))).
Proof.
  unfold rehead_plan. rewrite (foldl_gather_proj _ rh_start rehead_start_of); [done|].
  intros plan v. unfold rehead_step, rehead_start_of.
  destruct (rehead_due _ _ _ _ _ v) as [h|]; [|by rewrite app_nil_r].
  destruct (rehead_target _ _ v h); [done|]. by rewrite app_nil_r.
Qed.

Definition rehead_held_of (v : DistVolume) : bool :=
  is_some_and (λ h, is_none (rehead_target fed readings v h)) (rehead_due fed interval after busy now v).

Lemma rehead_plan_held :
  map fst (rh_held (rehead_plan fed readings interval after busy now))
  = map name (List.filter rehead_held_of (bt_values (volumes fed))).
Proof.
  unfold rehead_plan.
  rewrite (foldl_gather_proj _ (λ p, map fst (rh_held p)) (λ v, if rehead_held_of v then [name v] else [])).
  - simpl. induction (bt_values (volumes fed)) as [|v l IH]; simpl; [done|]. rewrite IH. by case_head.
  - intros plan v. unfold rehead_step, rehead_held_of.
    destruct (rehead_due _ _ _ _ _ v) as [h|]; simpl; [|by rewrite app_nil_r].
    destruct (rehead_target _ _ v h); simpl; [by rewrite app_nil_r|]. by rewrite map_app.
Qed.

Lemma rehead_due_Some v h :
  rehead_due fed interval after busy now v = Some h →
  mirrored (assembly v) = true ∧ fenced v = false ∧ replacing v = None ∧ dual_attach v = None
  ∧ busy (name v) = false ∧ holding_off now (next_assemble_after v) = false
  ∧ head v = Some h ∧ ∃ n, nodes fed !! h = Some n ∧ healthy (status n) = false
      ∧ (after ≤ interval * consecutive_failures (status n))%Z.
Proof.
  unfold rehead_due. case_head; [done|].
  rewrite !orb_false_iff, negb_false_iff, !is_some_false in Heqb. destruct Heqb as (((((? & ?) & ?) & ?) & ?) & ?).
  destruct (head v) as [h'|]; simpl; [|done]. destruct (nodes fed !! h') as [n|] eqn:En; simpl; [|done].
  case_head; [done|]. intros [= <-]. apply orb_false_iff in Heqb as [? ?%Z.ltb_ge].
  repeat (split; [done|]). by exists n.
Qed.
End rehead.

(** C1: a re-head is started only for a mirrored volume that nobody has
    fenced, with no window, replacement, work in flight or cooldown, whose
    head has failed its polls for the configured time; at its current
    epoch; and only onto another, healthy node whose copy the head's own
    array was last read to hold active. *)
Theorem rehead_safe (fed : FedState) (readings : gmap string ArrayReading) (interval after : Z)
  (busy : string → bool) (now : time) (n t : string) (e : Z)
  (H : (n, t, e) ∈ rh_start (rehead_plan fed readings interval after busy now)) :
  ∃ k v h hn, volumes fed !! k = Some v ∧ n = name v ∧ e = epoch v
    ∧ mirrored (assembly v) = true ∧ fenced v = false ∧ replacing v = None ∧ dual_attach v = None
    ∧ busy n = false ∧ head v = Some h ∧ nodes fed !! h = Some hn ∧ healthy (status hn) = false
    ∧ (after ≤ interval * consecutive_failures (status hn))%Z
    ∧ t ≠ h ∧ node_healthy fed t = true
    ∧ ∃ leg r m, leg ∈ all_legs v ∧ leg_node leg = t ∧ leg_state leg = Created
        ∧ readings !! n = Some r ∧ own_reading v r = true
        ∧ m ∈ members r ∧ is_member leg m = true ∧ mr_state m = "active"%string.
Proof.
  rewrite rehead_plan_start, elem_of_concat_map in H. destruct H as (v & [k Hk]%elem_of_bt_values & Hin).
  unfold rehead_start_of in Hin. destruct (rehead_due _ _ _ _ _ v) as [h|] eqn:Ed; [|by apply not_elem_of_nil in Hin].
  destruct (rehead_target fed readings v h) as [t'|] eqn:Et; [|by apply not_elem_of_nil in Hin].
  apply list_elem_of_singleton in Hin as [= -> -> ->].
  apply rehead_due_Some in Ed as (Hm & Hf & Hr & Hd & Hb & _ & Hh & hn & Hhn & Hhl & Haf).
  unfold rehead_target in Et. destruct (find_first _ _) as [rep|] eqn:Ef; simplify_eq/=.
  apply find_first_Some in Ef as [Hrep [[Hne%neqb_prop Hhe]%andb_true_iff Hs]%andb_true_iff].
  destruct (replicas_in_sync v (readings !! name v) rep Hm Hrep) as (leg & r & m & Hl).
  { unfold is_in_sync in Hs. by destruct (rp_sync rep). }
  destruct Hl as (Hleg & Hst & Hn & Hrd & Hown & Hmem & Hism & Hact).
  exists k, v, h, hn. repeat (split; [done|]). exists leg, r, m. by repeat split.
Qed.

(** The volumes held back are exactly those due for a re-head with no
    copy known to be in sync on another healthy node. *)
Theorem rehead_held_iff (fed : FedState) (readings : gmap string ArrayReading) (interval after : Z)
  (busy : string → bool) (now : time) (n : string) :
  n ∈ map fst (rh_held (rehead_plan fed readings interval after busy now)) ↔
    ∃ k v h, volumes fed !! k = Some v ∧ n = name v
      ∧ rehead_due fed interval after busy now v = Some h
      ∧ ∀ rep, rep ∈ replicas v (readings !! n) → rp_node rep ≠ h → node_healthy fed (rp_node rep) = true →
          rp_sync rep ≠ InSync.
Proof.
  rewrite rehead_plan_held, list_elem_of_fmap. setoid_rewrite elem_of_filterb. setoid_rewrite elem_of_bt_values.
  assert (∀ v h, rehead_target fed readings v h = None ↔
    ∀ rep, rep ∈ replicas v (readings !! name v) → rp_node rep ≠ h → node_healthy fed (rp_node rep) = true →
          rp_sync rep ≠ InSync) as Ht.
  { intros v h. unfold rehead_target. rewrite fmap_None, find_first_None. split.
    - intros H rep Hin Hne Hh Hs. specialize (H rep Hin). apply neqb_true in Hne. rewrite Hne, Hh in H.
      unfold is_in_sync in H. by rewrite Hs in H.
    - intros H rep Hin. destruct (rp_node rep != h) eqn:Hne; [|done]. destruct (node_healthy _ _) eqn:Hh; [|done].
      simpl. apply neqb_prop in Hne. specialize (H rep Hin Hne Hh). unfold is_in_sync. by destruct (rp_sync rep). }
  split.
  - intros (v & -> & (k & Hk) & Hheld). unfold rehead_held_of in Hheld.
    apply is_some_and_true in Hheld as (h & Hd & Hn). rewrite is_none_true in Hn. exists k, v, h.
    repeat (split; [done|]). by apply Ht.
  - intros (k & v & h & Hk & -> & Hd & Hr). exists v. split; [done|]. split; [by exists k|].
    unfold rehead_held_of. rewrite Hd. simpl. apply is_none_true. by apply Ht.
Qed.

(** ** Facts: targets and arrays *)

Lemma elem_of_move_targets (fed : FedState) (rungs : list string) (vol : DistVolume) (from : string) (c : Candidate) :
  c ∈ move_target_candidates fed rungs vol from ↔
    ∃ k n, nodes fed !! k = Some n ∧ c = candidate_of n ∧ healthy (status n) = true
      ∧ (∀ l, l ∈ legs vol → leg_node l ≠ nc_name (config n))
      ∧ ∀ l ln, l ∈ legs vol → leg_node l ≠ from → nodes fed !! leg_node l = Some ln →
          domain_at (labels ln) rungs (rung vol) ≠ domain_at (labels n) rungs (rung vol).
Proof.
  unfold move_target_candidates. rewrite list_elem_of_fmap.
  assert (∀ d, d ∈ staying_domains fed rungs vol from ↔ ∃ l ln, l ∈ legs vol ∧ leg_node l ≠ from
    ∧ nodes fed !! leg_node l = Some ln ∧ d = domain_at (labels ln) rungs (rung vol)) as Hd.
  { intros d. unfold staying_domains. rewrite list_elem_of_fmap. setoid_rewrite list_elem_of_omap.
    setoid_rewrite elem_of_filterb. setoid_rewrite neqb_true.
    split; [intros (ln & -> & l & [? ?] & ?); by exists l, ln|].
    intros (l & ln & ? & ? & ? & ->). exists ln. split; [done|]. by exists l. }
  split.
  - intros (n & -> & Hn). rewrite !elem_of_filterb, elem_of_bt_values, negb_true_iff, existsb_false, forallb_true in Hn.
    destruct Hn as ((((k & Hk) & Hh) & Hl) & Hs). exists k, n. split; [done|]. split; [done|]. split; [done|].
    split; [intros l Hin; by apply neqb_prop, Hl|].
    intros l ln Hin Hf Hln. apply eqb_nprop, Hs, Hd. by exists l, ln.
  - intros (k & n & Hk & -> & Hh & Hl & Hs). exists n. split; [done|].
    rewrite !elem_of_filterb, elem_of_bt_values, negb_true_iff, existsb_false, forallb_true. split.
    { split; [split; [by exists k|done]|]. intros l Hin. by apply neqb_true, Hl. }
    intros d (l & ln & ? & ? & ? & ->)%Hd. apply eqb_false. by eapply Hs.
Qed.

Lemma filterb_length {A} (p : A → bool) (l : list A) : (length (List.filter p l) ≤ length l)%nat.
Proof. induction l as [|x l IH]; simpl; [done|]. destruct (p x); simpl; lia. Qed.

Lemma move_targets_length (fed : FedState) (rungs : list string) (vol : DistVolume) (from : string) :
  (length (move_target_candidates fed rungs vol from) ≤ size (nodes fed))%nat.
Proof.
  unfold move_target_candidates. rewrite length_map. do 3 (etrans; [apply filterb_length|]).
  unfold bt_values. by rewrite length_fmap, bt_list_perm, length_map_to_list.
Qed.

(** A moved leg is offered exactly the healthy nodes that carry no leg
    of the volume and whose failure domain at its rung is not that of a
    staying leg on a known node. *)
Theorem move_targets_spec (fed : FedState) (rungs : list string) (vol : DistVolume) (from : string) (c : Candidate) :
  c ∈ move_target_candidates fed rungs vol from ↔
    ∃ k n, nodes fed !! k = Some n ∧ c = candidate_of n ∧ healthy (status n) = true
      ∧ (∀ l, l ∈ legs vol → leg_node l ≠ nc_name (config n))
      ∧ ∀ l ln, l ∈ legs vol → leg_node l ≠ from → nodes fed !! leg_node l = Some ln →
          domain_at (labels ln) rungs (rung vol) ≠ domain_at (labels n) rungs (rung vol).
Proof. apply elem_of_move_targets. Qed.

(** An array of the head is adopted only when its members are exactly
    the volume's leg drives, nothing is built when some array holds one of
    them among others, and a new array is made only when no array holds
    any (and, for no drives at all, none is without members). *)
Theorem match_array_spec {J : Type} `{Json J} (arrays : list J) (uris : list string) :
  let want := list_to_set uris : gset string in
  match match_array arrays uris with
  | NoMatch => ∀ a, a ∈ arrays → array_paths a ## want ∧ array_paths a ≠ want
  | Exact a => a ∈ arrays ∧ array_paths a = want
  | MatchConflict _ uri => uri ∈ uris ∧ ∃ a, a ∈ arrays ∧ uri ∈ array_paths a ∧ array_paths a ≠ want
  end.
Proof.
  intros want. unfold match_array. fold want. assert (∀ u, u ∈ want → u ∈ uris) as Hw
    by (intros u; unfold want; by rewrite elem_of_list_to_set).
  clearbody want. induction arrays as [|a arrays IH]; simpl; [by intros a ?%not_elem_of_nil|].
  destruct (array_paths a == want) eqn:E; [apply eqb_prop in E; split; [by left|done]|]. apply eqb_nprop in E.
  destruct (bs_list (array_paths a ∩ want)) as [|uri l] eqn:El.
  - assert (array_paths a ## want) as Hdis.
    { intros x H1 H2. assert (x ∈ bs_list (array_paths a ∩ want)) as Hx by (apply elem_of_bs_list; set_solver).
      rewrite El in Hx. by apply not_elem_of_nil in Hx. }
    destruct (match_array_loop want arrays) as [|b|i u].
    + intros b [->|Hb]%elem_of_cons; [by split|by apply IH].
    + destruct IH. split; [by right|done].
    + destruct IH as (? & b & ? & ?). split; [done|]. exists b. split; [by right|done].
  - assert (uri ∈ array_paths a ∩ want) as Hu by (apply elem_of_bs_list; rewrite El; by left).
    apply elem_of_intersection in Hu as [H1 H2]. split; [by apply Hw|]. exists a. split; [by left|done].
Qed.

(** An array is put back together only for a mirrored volume at rest
    (not fenced, no replacement, no window, no work in flight, no cooldown)
    whose head answers and was not read this poll. *)
Theorem reassemble_spec (fed : FedState) (read busy : string → bool) (now : time) (n : string) :
  n ∈ reassemble_candidates fed read busy now ↔
    ∃ k v h, volumes fed !! k = Some v ∧ n = name v ∧ mirrored (assembly v) = true
      ∧ fenced v = false ∧ replacing v = None ∧ dual_attach v = None
      ∧ (∀ t, next_assemble_after v = Some t → (t ≤ now)%Z)
      ∧ head v = Some h ∧ node_healthy fed h = true ∧ read n = false ∧ busy n = false.
Proof.
  unfold reassemble_candidates. rewrite list_elem_of_fmap.
  assert (∀ v, reassemble_due fed read busy now v = true ↔
    mirrored (assembly v) = true ∧ fenced v = false ∧ replacing v = None ∧ dual_attach v = None
    ∧ (∀ t, next_assemble_after v = Some t → (t ≤ now)%Z)
    ∧ (∃ h, head v = Some h ∧ node_healthy fed h = true) ∧ read (name v) = false ∧ busy (name v) = false) as Hdue.
  { intros v. unfold reassemble_due.
    rewrite !andb_true_iff, !negb_true_iff, !is_none_true, is_some_and_true.
    assert (map_or true (λ t, (t <=? now)%Z) (next_assemble_after v) = true ↔
      ∀ t, next_assemble_after v = Some t → (t ≤ now)%Z) as ->; [|tauto].
    destruct (next_assemble_after v) as [t|]; simpl; [|done]. rewrite Z.leb_le.
    split; [by intros ? ? [= <-]|]. intros Ht. by apply Ht. }
  split.
  - intros (v & -> & Hv). rewrite elem_of_filterb, elem_of_bt_values, Hdue in Hv.
    destruct Hv as ((k & Hk) & ? & ? & ? & ? & ? & (h & ? & ?) & ? & ?). by exists k, v, h.
  - intros (k & v & h & Hk & -> & Hv). exists v. split; [done|].
    rewrite elem_of_filterb, elem_of_bt_values, Hdue.
    destruct Hv as (? & ? & ? & ? & ? & ? & ? & ? & ?). eauto 12.
Qed.

(** ** Witnesses *)

Local Open Scope string_scope.

Definition example_node (n : string) (up : bool) (failures : Z) : Node :=
  MkNode (MkNodeConfig n ("http://" +:+ n) None None None ∅ None)
    ((NodeStatus_new Static) <| healthy := up |> <| consecutive_failures := failures |>).

(** [n1], the head, is down; [n2]'s copy was read active. *)
Definition example_fed : FedState :=
  FedState_default
    <| nodes := {["n1" := example_node "n1" false 10; "n2" := example_node "n2" true 0; "n3" := example_node "n3" true 0]} |>
    <| volumes := {["db" := example_volume]} |>.
Definition example_reading : ArrayReading :=
  MkArrayReading 0 "n1" "ARR" "degraded" 1024
    [MkMemberReading "M-N2" "" "active" None; MkMemberReading "m-n3" "" "rebuilding" (Some 10%Z)] None (Some 7%Z) SrcHead None.

Lemma rehead_safe_witness :
  ∃ k v h hn, volumes example_fed !! k = Some v ∧ "db" = name v ∧ 1%Z = epoch v
    ∧ mirrored (assembly v) = true ∧ fenced v = false ∧ replacing v = None ∧ dual_attach v = None
    ∧ false = false ∧ head v = Some h ∧ nodes example_fed !! h = Some hn ∧ healthy (status hn) = false
    ∧ (120 ≤ 15 * consecutive_failures (status hn))%Z
    ∧ "n2" ≠ h ∧ node_healthy example_fed "n2" = true
    ∧ ∃ leg r m, leg ∈ all_legs v ∧ leg_node leg = "n2" ∧ leg_state leg = Created
        ∧ ({["db" := example_reading]} : gmap string ArrayReading) !! "db" = Some r ∧ own_reading v r = true
        ∧ m ∈ members r ∧ is_member leg m = true ∧ mr_state m = "active".
Proof.
  apply (rehead_safe example_fed {["db" := example_reading]} 15 120 (λ _, false) 0 "db" "n2" 1).
  apply list_elem_of_In. vm_compute. by left.
Defined.

(** The head of a degraded volume answers, its member active. *)
Definition example_degraded : DistVolume :=
  example_volume <| assembly := Degraded |>
    <| legs ::= update_first (λ l, leg_node l == "n1") (λ l, l <| leg_state := Lost |>) |>.

Lemma head_reading_spec_witness :
  let r := example_reading <| members := [MkMemberReading "m-n1" "" "active" None] |> in
  let v := example_degraded in
  (apply_head_reading v (Some r)).2 = Some (Restored true, true)
  ∧ match apply_head_reading v (Some r) with
    | (v', Some (Restored assembled, changed)) =>
        changed = true ∧ legs v' = legs (restore_head v "n1")
        ∧ assembly v' = if assembled then Assembled else assembly v
    | _ => True
    end.
Proof.
  set (r := example_reading <| members := _ |>).
  pose proof (head_reading_spec example_degraded "n1" "ARR"
    (unwrap_or (new_leg "" None None) (find_first (lost_head "n1") (legs example_degraded))) (Some r)) as H.
  split; [vm_compute; reflexivity|].
  specialize (H ltac:(split; vm_compute; reflexivity) ltac:(reflexivity)). cbv zeta in H |- *.
  destruct (apply_head_reading example_degraded (Some r)) as [v' [[[a| |] c]|]]; [|exact I..].
  destruct H as (? & _ & ? & _ & ?). auto.
Defined.
