(* ===== verification/App.v ===== *)
(** * The service's state and its outside (src/api/mod.rs, [AppState])

    [App] is what the handlers share: the federation, the event ring, the
    inventories, the claims on volumes with work in flight, the engines that
    refuse our token, the readings of the heads. [Call] is everything a
    handler waits for: an HTTP exchange with an engine, the clock, a push to
    the peers, a write of the state. The claim taken for a volume's work is
    shown to be exclusive under any interleaving. *)

From S2P Require Import Prelude F64 Config Model Events Refusal Async Json Inventory Kube Sync.
From stdpp Require Import options.

Local Open Scope string_scope.

(** ** State *)

Record App := MkApp {
  fed : FedState;
  events : EventLog;
  inventory : gmap string NodeInventory;
  (** [AppState::replacing]: volumes claimed by work in flight. *)
  claims : gset string;
  refusals : Refusals;
  heads : gmap string ArrayReading;
  head_live : gmap string ArrayReading;
  noted : gset string;
  (** [store]: [None] without a fleet store, else whether this instance
      leads it. *)
  store_leads : option bool;
  kube : KubeView;
  app_members : Members;
}.
#[export] Instance App_eta : Eta App := λ r,
  MkApp (fed r) (events r) (inventory r) (claims r) (refusals r) (heads r) (head_live r)
    (noted r) (store_leads r) (kube r) (app_members r).

Definition App_new (f : FedState) (store : option bool) : App :=
  MkApp f (EventLog_new 4096) ∅ ∅ ∅ ∅ ∅ ∅ store KubeView_default Members_default.

(** ** The outside *)

Inductive Method := GET | POST | PUT | PATCH | DELETE.

(** [engine::Engine]: where it answers and what is presented to it. *)
Record Engine := MkEngine { url : string; token : option string; admin : option string }.

Inductive Call (J : Type) : Type → Type :=
  (** An exchange: the send error as text, or the status and the body when
      it is JSON. *)
  | Http (method : Method) (full_url : string) (bearer : option string) (query : list (string * string))
      (body : option J) : Call J (result (Z * option J) string)
  | HttpText (full_url : string) (bearer : option string) : Call J (result (Z * string) string)
  (** [SystemTime::now()] (and [Instant::now()]). *)
  | Now : Call J time
  | PushToPeers : Call J unit
  | Persist : Call J unit
  | Sleep (d : Z) : Call J unit.
Arguments Http {J}.
Arguments HttpText {J}.
Arguments Now {J}.
Arguments PushToPeers {J}.
Arguments Persist {J}.
Arguments Sleep {J}.

Abbreviation handler J A := (prog (Call J) App A).

(** ** Errors

    [anyhow::Error]: its text ([{:#}]) and what a caller can recover of it:
    the status of an [HttpStatus], whether it is a [Refused]. *)
Record EngineError := MkEngineError { err_text : string; status_of : option Z; is_refused : bool }.
Definition anyhow (m : string) : EngineError := MkEngineError m None false.
Definition is_not_found (e : EngineError) : bool := status_of e == Some 404%Z.

(** [api::ApiError], by its constructors. *)
Inductive ApiError :=
  | ApiNotFound (m : string)
  | ApiBadRequest (m : string)
  | ApiConflict (m : string)
  | ApiNotImplemented (m : string)
  | ApiUpstream (m : string).

(** ** What the handlers share *)

Section app.
Context {J : Type}.
Context (cfg : Config).
(** The token and the admin credential of an engine, read from the
    configuration and files ([AppState::engine_token],
    [AppState::admin_credential]). *)
Context (engine_token : NodeConfig → option string) (admin_credential : string → option string).

(** [AppState::engine_for], [Engine::new] and [with_admin]. *)
Definition engine_for (n : Node) : Engine :=
  {| url := trim_end_matches (Ascii.ascii_of_nat 47) (nc_engine_url (config n));
     token := engine_token (config n);
     admin := opt_filter (λ t, trim t != "") (admin_credential (nc_engine_url (config n))) |}.

Definition leads (s : App) : bool := unwrap_or true (store_leads s).

Definition recovery_active (s : App) : bool :=
  match store_leads s with
  | Some l => unwrap_or true (enabled (recovery cfg)) && l
  | None => active (recovery cfg) (match peers cfg with [] => false | _ => true end)
  end.

(** Push an event of one kind ([head.rs] and [orchestrate.rs], [event]). *)
Definition event_of (knd : string) (subj : string) (sev : Severity) (msg : string) : handler J unit :=
  let! now := invoke Now in
  writes (λ s, s <| events ::= λ e, (push e now (Some subj) sev knd msg).1 |>).

(** [push_to_peers] and [persist], the end of every change. *)
Definition publish_change : handler J unit := invoke PushToPeers ;! invoke Persist.

(** ** Claims (src/orchestrate.rs) *)

Definition claim (nm : string) : handler J bool :=
  atomic (λ s, (s <| claims ::= λ c, {[nm]} ∪ c |>, bool_decide (nm ∉ claims s))).
Definition release (nm : string) : handler J unit :=
  writes (λ s, s <| claims ::= λ c, c ∖ {[nm]} |>).
Definition busy (s : App) (nm : string) : bool := bool_decide (nm ∈ claims s).

(** [fed.volumes.get_mut(name)] with a change to the record, and the
    revision counted whether or not it is there. *)
Definition change_volume (nm : string) (f : DistVolume → DistVolume) : handler J unit :=
  writes (λ s, s <| fed ::= λ fd, bump (update_volume fd nm f) |>).

(** The engines of the healthy nodes holding a leg, by node. *)
Definition leg_engines (fd : FedState) (vol : DistVolume) : gmap string Engine :=
  foldl (λ m l, match opt_filter (λ n, healthy (status n)) (nodes fd !! leg_node l) with
                | Some n => <[leg_node l := engine_for n]> m
                | None => m
                end) ∅ (legs vol).
End app.

(** ** Reports change nothing that matters *)

(** A step that only reports: events, notes, readings. *)
Definition report_step (s s' : App) : Prop := fed s' = fed s ∧ claims s' = claims s.
#[export] Instance report_step_refl : Reflexive report_step.
Proof. done. Qed.
#[export] Instance report_step_trans : Transitive report_step.
Proof. intros s1 s2 s3 [??] [??]. split; congruence. Qed.

Lemma event_of_report {J} knd subj sev msg : guar (E:=Call J) report_step (event_of knd subj sev msg).
Proof. unfold event_of. by repeat guar_step. Qed.
#[export] Instance publish_change_quiet {J} : Quiet (publish_change (J:=J)).
Proof. unfold publish_change. apply _. Qed.
