(* ===== verification/Engine.v ===== *)
(** * The engine client (src/engine.rs)

    Every call stormstorage makes to a storage engine: what is sent, what of
    the answer is read, what becomes an error and what is taken for done (a
    404 on a delete, a conflict on opening a drive that is open). HTTP
    itself is the environment's ([App.Http]). Shown: when the coordinates of
    an attach are taken and what they are, and that no call of the client
    changes the service's state ([Quiet]). *)

From S2P Require Import Prelude F64 Config Model Async Json Inventory App.
From stdpp Require Import options.

Local Open Scope string_scope.

(** A type read from JSON by its derived [Deserialize]. *)
Class Deserialize (J T : Type) := from_value : J → option T.

(** The text the HTTP client's types print: a status, the error of
    [error_for_status] and of a body that does not parse. *)
Class HttpShow := {
  status_show : Z → string;
  status_error : Z → string → string;
  decode_error : string;
}.

Record Capacity := MkCapacity {
  cap_total_bytes : Z;
  cap_free_bytes : Z;
  cap_topology : gmap string string;
}.

Inductive FenceOutcome := FenceFenced (e : Z) | FenceStale (c : Z).

Record DiscoveredNode := MkDiscoveredNode {
  node_name : string;
  mgmt_addr : string;
  dn_cluster_id : option string;
  stale : bool;
}.
Record Discovery := MkDiscovery {
  local_node : string;
  cluster_id : option string;
  d_nodes : list DiscoveredNode;
}.

(** [Discovery::cluster_peers]. *)
Definition cluster_peers (d : Discovery) : list DiscoveredNode :=
  match cluster_id d with
  | None => []
  | Some cid =>
      List.filter (λ n, negb (stale n) && (dn_cluster_id n == Some cid)
                        && (node_name n != "") && (mgmt_addr n != "")
                        && (node_name n != local_node d)) (d_nodes d)
  end.

(** [Engine::valid_extent_size]. *)
Definition valid_extent_size (bytes : Z) : bool :=
  (4096 <=? bytes)%Z && (Z.land bytes (bytes - 1) =? 0)%Z.

(** [Engine::host]. *)
Definition host (e : Engine) : string :=
  take_until [Ascii.ascii_of_nat 58; Ascii.ascii_of_nat 47]
    (trim_start_matches "https://" (trim_start_matches "http://" (url e))).

Definition is_success (status : Z) : bool := (200 <=? status)%Z && (status <=? 299)%Z.
Definition is_error_status (status : Z) : bool := (400 <=? status)%Z && (status <=? 599)%Z.

Section engine.
Context {J : Type} `{Json J} `{HttpShow}.
Context `{Deserialize J EngineVolume} `{Deserialize J Slab} `{Deserialize J Discovery}.

Abbreviation call A := (handler J (result A EngineError)).

(** ** Requests and answers *)

Definition bearer_of (t : option string) : option string := opt_filter (λ t, t != "") t.

Definition send (bearer : option string) (m : Method) (e : Engine) (path : string)
    (query : list (string * string)) (body : option J) : call (Z * option J) :=
  let! r := invoke (Http m (url e +:+ path) (bearer_of bearer) query body) in
  Ret (map_err anyhow r).
(** [get] and [req]: with the node token. *)
Definition req (m : Method) (e : Engine) (path : string) (body : option J) : call (Z * option J) :=
  send (token e) m e path [] body.
(** [admin_req]. *)
Definition admin_req (m : Method) (e : Engine) (path : string) (body : option J) : call (Z * option J) :=
  send (opt_or (admin e) (token e)) m e path [] body.
(** [admin_send]: once more with the node token when the admin credential
    is refused. *)
Definition admin_send (m : Method) (e : Engine) (path : string) (body : option J) : call (Z * option J) :=
  let!? resp := admin_req m e path body in
  if ((resp.1 =? 401)%Z || (resp.1 =? 403)%Z) && is_some (admin e) && (admin e != token e)
  then req m e path body
  else Ret (Ok resp).

Definition body_or_null (b : option J) : J := unwrap_or j_null b.

(** [Refused]: what [is_refused] finds, and its text. *)
Definition refused_error (status : Z) (path : string) : EngineError :=
  MkEngineError ("engine refused " +:+ path +:+ ": " +:+ pretty status +:+ " (engine token missing or wrong)") None true.
Definition check_refused (status : Z) (path : string) : result unit EngineError :=
  if (status =? 401)%Z || (status =? 403)%Z then Err (refused_error status path) else Ok tt.

Definition http_status (path : string) (status : Z) (message : string) : EngineError :=
  MkEngineError (path +:+ ": " +:+ status_show status +:+ ": " +:+ message) (Some status) false.

(** [error_for_status()?.json()?]. *)
Definition ok_json (path : string) (resp : Z * option J) : result J EngineError :=
  if is_error_status resp.1 then Err (anyhow (status_error resp.1 path))
  else ok_or resp.2 (anyhow decode_error).

Definition read_post (path : string) (resp : Z * option J) : result J EngineError :=
  let out := body_or_null resp.2 in
  if negb (is_success resp.1) then
    Err (http_status path resp.1
      (unwrap_or "no message" (opt_or (j_get "message" out) (j_get "error" out) ≫= j_str)))
  else Ok out.

Definition v1_post (e : Engine) (path : string) (body : J) : call J :=
  let!? resp := req POST e path (Some body) in Ret (read_post path resp).
Definition admin_post (e : Engine) (path : string) (body : J) : call J :=
  let!? resp := admin_send POST e path (Some body) in Ret (read_post path resp).

Definition admin_hint (status : Z) : string :=
  if (status =? 401)%Z || (status =? 403)%Z then
    " — a destructive verb (stormblock#274) needs the engine's admin token ($STORMBLOCK_ADMIN_TOKEN or [local] admin_token_file) or a [kubernetes] bearer bound to storage-admin"
  else "".

(** A delete whose 404 is success; [err] words any other failure. *)
Definition done_or_404 (resp : Z * option J) (err : string) : result unit EngineError :=
  if negb (is_success resp.1) && negb (resp.1 =? 404)%Z then Err (anyhow err) else Ok tt.

Definition obj := of_object (J:=J).
Definition str := of_str (J:=J).
Definition num := of_num (J:=J).

(** ** Capacity, discovery, listings *)

Definition first_capacity_object (v : J) : option J :=
  match j_object v with
  | Some _ =>
      if is_some (j_get "total_bytes" v) || is_some (j_get "free_bytes" v) then Some v
      else a ← get_array "nodes" v; x ← (a !! 0%nat); _ ← j_object x; Some x
  | None => a ← j_array v; x ← (a !! 0%nat); _ ← j_object x; Some x
  end.

Definition parse_capacity (v : J) : result Capacity EngineError :=
  let? obj := ok_or (first_capacity_object v) (anyhow ("unrecognized capacity shape: " +:+ j_show v)) in
  let topology :=
    foldl (λ t kv, match j_str kv.2 with Some s => <[kv.1 := s]> t | None => t end) ∅
      (unwrap_or [] (j_get "topology" obj ≫= j_object)) in
  Ok {| cap_total_bytes := unwrap_or 0%Z (get_u64 "total_bytes" obj);
        cap_free_bytes := unwrap_or 0%Z (get_u64 "free_bytes" obj);
        cap_topology := topology |}.

Definition capacity (e : Engine) : call Capacity :=
  let path := "/v1/nodes/capacity" in
  let!? resp := req GET e path None in
  Ret (let? _ := check_refused resp.1 path in let? v := ok_json path resp in parse_capacity v).

Definition discovery (e : Engine) : call (option Discovery) :=
  let path := "/api/v1/discovery" in
  let!? resp := req GET e path None in
  Ret (let? _ := check_refused resp.1 path in
       if negb (is_success resp.1) then Ok None else Ok (resp.2 ≫= from_value)).

(** The items of a listing: a bare array, or under [key] (or [alt]). *)
Definition listing (keys : list string) (v : J) : list J :=
  match j_array v with
  | Some a => a
  | None => match j_object v with
            | Some _ => unwrap_or [] (foldl (λ o k, opt_or o (j_get k v)) None keys ≫= j_array)
            | None => []
            end
  end.

Definition get_items (e : Engine) (path : string) : call (list J) :=
  let!? resp := req GET e path None in
  Ret (let? v := ok_json path resp in Ok (listing ["items"] v)).
Definition list_slabs (e : Engine) : call (list Slab) :=
  let!? l := get_items e "/api/v1/slabs" in Ret (Ok (omap from_value l)).
Definition list_engine_volumes (e : Engine) : call (list EngineVolume) :=
  let!? l := get_items e "/api/v1/volumes?placement=true" in Ret (Ok (omap from_value l)).
Definition slab_volume_ids (e : Engine) (slab_id : string) : call (list string) :=
  let!? l := get_items e ("/api/v1/slabs/" +:+ slab_id +:+ "/slots") in
  Ret (Ok (dedup (merge_sort String.le (omap (get_str "volume_id") l)))).
Definition list_volumes (e : Engine) : call (list J) :=
  let!? resp := req GET e "/v1/volumes" None in
  Ret (let? v := ok_json "/v1/volumes" resp in Ok (listing ["volumes"] v)).
Definition list_arrays (e : Engine) : call (list J) := get_items e "/api/v1/arrays".
Definition list_drives (e : Engine) : call (list J) :=
  let!? resp := req GET e "/api/v1/drives" None in
  Ret (let? v := ok_json "/api/v1/drives" resp in Ok (listing ["items"; "drives"] v)).

(** ** Volumes *)

Definition create_volume (e : Engine) (nm : string) (size : Z) (extent : option Z) : call J :=
  let body := obj ([("name", str nm); ("size_bytes", num size); ("replica_tier", obj [("slaves", num 0)])]
                   ++ match extent with Some x => [("extent_size_bytes", num x)] | None => [] end)%list in
  let!? resp := req POST e "/v1/volumes" (Some body) in
  let out := body_or_null resp.2 in
  Ret (if negb (is_success resp.1) then
         Err (anyhow ("create " +:+ nm +:+ ": " +:+ status_show resp.1 +:+ ": "
                      +:+ unwrap_or "no message" (get_str "message" out)))
       else Ok out).

Definition create_pinned_volume (e : Engine) (nm : string) (size : Z) (array_id : string) : call J :=
  let! r := v1_post e "/v1/volumes"
    (obj [("name", str nm); ("size_bytes", num size); ("replica_tier", obj [("slaves", num 0)]);
          ("placement", obj [("array_id", str array_id)])]) in
  Ret (map_err (λ x, anyhow ("create " +:+ nm +:+ " on array " +:+ array_id +:+ ": " +:+ err_text x)) r).

(** [Engine::master_node_of]. *)
Definition master_node_of (v : J) : option string :=
  a ← get_array "replicas" v;
  r ← find_first (λ r, get_str "role" r == Some "master") a;
  get_str "node" r.

Definition delete_volume (e : Engine) (id : string) : call unit :=
  let!? resp := req DELETE e ("/v1/volumes/" +:+ id) None in
  Ret (done_or_404 resp ("delete " +:+ id +:+ ": " +:+ status_show resp.1)).
Definition delete_any_volume (e : Engine) (id : string) : call unit :=
  let path := "/api/v1/volumes/" +:+ id in
  let!? resp := req DELETE e path None in
  Ret (if (resp.1 =? 404)%Z then Ok tt else let? _ := read_post path resp in Ok tt).

Definition local_volume_id (e : Engine) (nm : string) : call string :=
  let!? l := get_items e "/api/v1/volumes" in
  let ids := omap (get_str "id") (List.filter (λ v, get_str "name" v == Some nm) l) in
  Ret (match ids with
       | [id] => Ok id
       | [] => Err (http_status "/api/v1/volumes" 404 ("no engine volume named " +:+ debug_str nm))
       | _ => Err (anyhow (pretty (Z.of_nat (length ids)) +:+ " engine volumes named " +:+ debug_str nm))
       end).

Definition served_size (e : Engine) (id : string) : call Z :=
  let path := "/api/v1/volumes/" +:+ id in
  let!? resp := req GET e path None in
  Ret (let? v := ok_json path resp in
       ok_or (get_u64 "virtual_size_bytes" v)
         (anyhow (path +:+ ": no virtual_size_bytes in " +:+ j_show v))).
Definition expand_v1 (e : Engine) (id : string) (size : Z) : call J :=
  v1_post e ("/v1/volumes/" +:+ id +:+ "/expand") (obj [("size_bytes", num size)]).
Definition resize_any (e : Engine) (id : string) (size : Z) : call J :=
  let path := "/api/v1/volumes/" +:+ id +:+ "/resize" in
  let!? resp := req PATCH e path (Some (obj [("new_size", str (pretty size))])) in
  Ret (let? _ := check_refused resp.1 path in read_post path resp).

(** ** Attaching *)

Definition wildcard (a : string) : bool := (a == "") || (a == "0.0.0.0") || (a == "::").

Definition parse_attach (e : Engine) (id : string) (v : J) : result AttachedLeg EngineError :=
  let? _ := match get_str "transport" v with
    | Some t =>
        if t == "nvme_tcp" then Ok tt
        else if t == "ublk" then
          Err (anyhow ("attach " +:+ id +:+ ": engine offered a local ublk device, not NVMe-TCP — a remote head or client cannot use it (stormblock#149); until that lands set [management] ublk_transport = false on this engine"))
        else Err (anyhow ("attach " +:+ id +:+ ": unexpected transport in " +:+ j_show v))
    | None => Err (anyhow ("attach " +:+ id +:+ ": unexpected transport in " +:+ j_show v))
    end in
  let? addr := ok_or (get_array "addresses" v ≫= (λ a, a !! 0%nat))
                 (anyhow ("attach " +:+ id +:+ ": no addresses in " +:+ j_show v)) in
  let traddr := unwrap_or "" (get_str "traddr" addr) in
  let trsvcid := (unwrap_or 4420%Z (get_u64 "trsvcid" addr) mod 2 ^ 16)%Z in
  let traddr := if wildcard traddr then host e else traddr in
  let? nsid := ok_or (get_u64 "nsid" v)
                 (anyhow ("attach " +:+ id +:+ ": engine returned no nsid — its NVMe-oF target is not running (an engine started without an export device has no listener)")) in
  Ok {| nqn := unwrap_or "" (get_str "nqn" v); traddr := traddr; trsvcid := trsvcid;
        nsid := as_u32 nsid; host_nqn := None |}.

Definition with_host (h : option string) (a : AttachedLeg) : AttachedLeg :=
  {| nqn := nqn a; traddr := traddr a; trsvcid := trsvcid a; nsid := nsid a; host_nqn := h |}.

Definition attach_leg (e : Engine) (id node : string) (epoch : option Z) (h : option string) : call AttachedLeg :=
  let body := obj ([("node", str node); ("mode", str "read_write"); ("transport", str "nvme_tcp")]
                   ++ match epoch with Some x => [("epoch", num x)] | None => [] end
                   ++ match h with Some x => [("host_nqn", str x)] | None => [] end)%list in
  let!? v := v1_post e ("/v1/volumes/" +:+ id +:+ "/attach") body in
  Ret (let? att := parse_attach e id v in Ok (with_host h att)).
Definition attach_volume (e : Engine) (id node : string) : call AttachedLeg := attach_leg e id node None None.
Definition attach_any (e : Engine) (id : string) : call AttachedLeg :=
  let!? v := v1_post e ("/api/v1/volumes/" +:+ id +:+ "/attach") (obj [("transport", str "nvme_tcp")]) in
  Ret (parse_attach e id v).
Definition attach_for_host (e : Engine) (id h : string) (dhchap : bool) : call (AttachedLeg * option string) :=
  let!? v := v1_post e ("/api/v1/volumes/" +:+ id +:+ "/attach")
    (obj [("transport", str "nvme_tcp"); ("host_nqn", str h); ("dhchap", of_bool dhchap)]) in
  Ret (let? att := parse_attach e id v in Ok (with_host (Some h) att, get_str "dhchap_secret" v)).
Definition detach_volume (e : Engine) (id node : string) : call unit :=
  let!? _ := v1_post e ("/v1/volumes/" +:+ id +:+ "/detach") (obj [("node", str node)]) in Ret (Ok tt).
Definition detach_any (e : Engine) (id : string) : call unit :=
  let!? resp := req DELETE e ("/api/v1/volumes/" +:+ id +:+ "/attach") None in
  Ret (done_or_404 resp ("detach " +:+ id +:+ ": " +:+ status_show resp.1)).
Definition withdraw_host_call (e : Engine) (id h : string) : call unit :=
  let!? resp := send (token e) DELETE e ("/api/v1/volumes/" +:+ id +:+ "/attach") [("host_nqn", h)] None in
  Ret (done_or_404 resp ("withdraw " +:+ id +:+ " from " +:+ h +:+ ": " +:+ status_show resp.1)).

(** ** The leg's epoch *)

Definition v1_epoch (e : Engine) (id : string) : call Z :=
  let path := "/v1/volumes/" +:+ id in
  let!? resp := req GET e path None in
  Ret (let? v := ok_json path resp in
       ok_or (get_u64 "epoch" v) (anyhow ("volume " +:+ id +:+ ": no epoch in " +:+ j_show v))).

Definition read_fence (path : string) (resp : Z * option J) : result FenceOutcome EngineError :=
  let? _ := check_refused resp.1 path in
  let out := body_or_null resp.2 in
  match (if (resp.1 =? 412)%Z then get_u64 "current_epoch" out else None) with
  | Some c => Ok (FenceStale c)
  | None =>
      if negb (is_success resp.1) then Err (anyhow (path +:+ ": " +:+ status_show resp.1 +:+ ": " +:+ j_show out))
      else match get_u64 "epoch" out with
           | Some x => Ok (FenceFenced x)
           | None => Err (anyhow (path +:+ ": no epoch in " +:+ j_show out))
           end
  end.
Definition v1_fence (e : Engine) (id : string) (expected : Z) : call FenceOutcome :=
  let path := "/v1/volumes/" +:+ id +:+ "/fence" in
  let!? resp := req POST e path (Some (obj [("expected_epoch", num expected)])) in
  Ret (read_fence path resp).

(** [fence_leg]: [rounds] tries ([0..2]). *)
Fixpoint fence_rounds (rounds : nat) (e : Engine) (id : string) (expected : Z) : call Z :=
  match rounds with
  | O => Ret (Err (anyhow ("fence " +:+ id +:+ ": epoch kept moving")))
  | S rounds =>
      let!? out := v1_fence e id expected in
      match out with
      | FenceFenced x => Ret (Ok x)
      | FenceStale c => fence_rounds rounds e id c
      end
  end.
Definition fence_leg (e : Engine) (id : string) : call Z :=
  let!? expected := v1_epoch e id in fence_rounds 2 e id expected.

Definition leg_superblock (e : Engine) (id : string) : call (option J) :=
  let path := "/v1/volumes/" +:+ id +:+ "/raid-superblock" in
  let!? resp := req GET e path None in
  Ret (if (resp.1 =? 404)%Z then Ok None else let? v := ok_json path resp in Ok (Some v)).

(** ** Arrays and drives *)

Definition uuids (l : list string) : J := of_array (map str l).

Definition assemble_arrays (e : Engine) (drives : list string) : call J :=
  v1_post e "/api/v1/arrays/assemble" (obj [("drive_uuids", uuids drives)]).
Definition create_raid1 (e : Engine) (drives : list string) : call J :=
  admin_post e "/api/v1/arrays" (obj [("level", str "Raid1"); ("drive_uuids", uuids drives)]).
Definition set_rebuild_rate (e : Engine) (array_id : string) (bytes : Z) : call unit :=
  let path := "/api/v1/arrays/" +:+ array_id +:+ "/rebuild" in
  let!? resp := req PUT e path (Some (obj [("max_bytes_per_sec", num bytes)])) in
  Ret (let? _ := check_refused resp.1 path in
       if negb (is_success resp.1) then Err (anyhow (path +:+ ": " +:+ status_show resp.1)) else Ok tt).
Definition grow_array (e : Engine) (id : string) : call J :=
  let path := "/api/v1/arrays/" +:+ id +:+ "/grow" in
  let!? resp := admin_send POST e path None in Ret (read_post path resp).
Definition get_array_call (e : Engine) (id : string) : call J :=
  let path := "/api/v1/arrays/" +:+ id in
  let!? resp := req GET e path None in Ret (ok_json path resp).
Definition find_array (e : Engine) (id : string) : call (option J) :=
  let path := "/api/v1/arrays/" +:+ id in
  let!? resp := req GET e path None in
  Ret (if (resp.1 =? 404)%Z then Ok None else let? v := ok_json path resp in Ok (Some v)).
Definition delete_array (e : Engine) (id : string) : call unit :=
  let!? resp := admin_send DELETE e ("/api/v1/arrays/" +:+ id) None in
  Ret (done_or_404 resp ("delete array " +:+ id +:+ ": " +:+ status_show resp.1 +:+ admin_hint resp.1)).
(** [forget_array]: the array goes, its members keep their superblocks. *)
Definition forget_array (e : Engine) (id : string) : call unit :=
  let!? resp := admin_send DELETE e ("/api/v1/arrays/" +:+ id +:+ "?keep_superblocks=true") None in
  Ret (done_or_404 resp ("forget array " +:+ id +:+ ": " +:+ status_show resp.1 +:+ admin_hint resp.1)).
Definition array_add_member (e : Engine) (array_id drive : string) : call string :=
  let!? v := admin_post e ("/api/v1/arrays/" +:+ array_id +:+ "/members") (obj [("drive_uuid", str drive)]) in
  Ret (ok_or (get_str "member_uuid" v) (anyhow ("add member: no member_uuid in " +:+ j_show v))).
Definition array_remove_member (e : Engine) (array_id member : string) : call unit :=
  let!? resp := admin_send DELETE e ("/api/v1/arrays/" +:+ array_id +:+ "/members/" +:+ member) None in
  Ret (if negb (is_success resp.1)
       then Err (anyhow ("remove member " +:+ member +:+ ": " +:+ status_show resp.1 +:+ admin_hint resp.1))
       else Ok tt).
Definition add_drive_idempotent (e : Engine) (path : string) : call string :=
  let!? resp := req POST e "/api/v1/drives" (Some (obj [("path", str path)])) in
  let body := body_or_null resp.2 in
  let fail := Err (anyhow ("open " +:+ path +:+ ": " +:+ status_show resp.1 +:+ ": "
      +:+ unwrap_or "no message" (opt_or (j_get "error" body) (j_get "message" body) ≫= j_str))) in
  if is_success resp.1 then
    Ret (ok_or (get_str "uuid" body) (anyhow ("open " +:+ path +:+ ": no uuid in " +:+ j_show body)))
  else if (resp.1 =? 409)%Z then
    let!? drives := list_drives e in
    Ret (match omap (λ d, if get_str "path" d == Some path then get_str "uuid" d else None) drives with
         | u :: _ => Ok u
         | [] => fail
         end)
  else Ret fail.
Definition delete_drive (e : Engine) (id_or_path : string) (force : bool) : call unit :=
  let enc := str_replace "/" "%2F" (str_replace "%" "%25" id_or_path) in
  let q := if force then "?force=true" else "" in
  let!? resp := admin_send DELETE e ("/api/v1/drives/" +:+ enc +:+ q) None in
  Ret (done_or_404 resp ("close drive " +:+ id_or_path +:+ ": " +:+ status_show resp.1 +:+ admin_hint resp.1)).

(** ** Snapshots, clones, ships and mirrors *)

Definition get_any_volume (e : Engine) (id_or_name : string) : call J :=
  let path := "/api/v1/volumes/" +:+ id_or_name in
  let!? resp := req GET e path None in
  Ret (let? _ := check_refused resp.1 path in
       if negb (is_success resp.1) then Err (http_status path resp.1 "no such volume")
       else ok_or resp.2 (anyhow decode_error)).
Definition start_mirror (e : Engine) (id target : string) : call J :=
  admin_post e ("/api/v1/volumes/" +:+ id +:+ "/mirror") (obj [("target", str target)]).
Definition stop_mirror (e : Engine) (id : string) : call (option J) :=
  let path := "/api/v1/volumes/" +:+ id +:+ "/mirror" in
  let!? resp := admin_send DELETE e path None in
  Ret (if (resp.1 =? 404)%Z then Ok None else let? v := read_post path resp in Ok (Some v)).
Definition create_clone_call (e : Engine) (nm : string) (size : Z) (master source : string) : call J :=
  v1_post e "/v1/volumes"
    (obj [("name", str nm); ("size_bytes", num size); ("master_node", str master);
          ("replica_tier", obj [("slaves", num 0)]);
          ("source", obj [("kind", str "volume"); ("id", str source)])]).
Definition create_snapshot_call (e : Engine) (nm volume_id : string) : call J :=
  v1_post e "/v1/snapshots" (obj [("name", str nm); ("volume_id", str volume_id)]).
Definition create_group_snapshot_call (e : Engine) (nm : string) (volume_ids : list string) : call J :=
  v1_post e "/v1/group-snapshots" (obj [("name", str nm); ("volume_ids", of_array (map str volume_ids))]).
Definition ship_snapshot (e : Engine) (snapshot target_uri : string) (base : option string) (max_bytes : Z) : call J :=
  let path := "/v1/snapshots/" +:+ snapshot +:+ "/ship" in
  let body := obj ([("target_uri", str target_uri); ("max_bytes_per_sec", num max_bytes)]
                   ++ match base with Some b => [("base", str b)] | None => [] end)%list in
  let!? resp := req POST e path (Some body) in
  Ret (let? _ := check_refused resp.1 path in
       if (resp.1 =? 404)%Z || (resp.1 =? 405)%Z then Err (http_status path 404 "no ship route (stormblock#400)")
       else read_post path resp).
Definition ship_job (e : Engine) (id : string) : call (option J) :=
  let path := "/v1/ship-jobs/" +:+ id in
  let!? resp := req GET e path None in
  Ret (let? _ := check_refused resp.1 path in
       if (resp.1 =? 404)%Z then Ok None
       else if negb (is_success resp.1) then Err (anyhow (path +:+ ": " +:+ status_show resp.1))
       else let? v := ok_or resp.2 (anyhow decode_error) in Ok (Some v)).
Definition delete_v1 (e : Engine) (path : string) : call unit :=
  let!? resp := req DELETE e path None in
  Ret (let? _ := check_refused resp.1 path in
       done_or_404 resp ("delete " +:+ path +:+ ": " +:+ status_show resp.1)).

(** ** I/O counters *)

(** [str::parse::<f64>]. *)
Context (parse_f64 : string → option f64).
Definition METRIC : string := "stormblock_nvmeof_io_seconds".
(** [str::rsplit_once(c)], what follows. *)
Fixpoint after_last (c : Ascii.ascii) (s : string) : option string :=
  match s with
  | EmptyString => None
  | String x s => match after_last c s with
                  | Some r => Some r
                  | None => if Ascii.eqb x c then Some s else None
                  end
  end.
(** [split_whitespace().next()]. *)
Definition first_word (s : string) : option string :=
  match take_while (λ c, negb (is_whitespace c)) (drop_while is_whitespace (chars s)) with
  | [] => None
  | w => Some (join "" w)
  end.
(** The value of one sample line, after its metric's name. *)
Definition sample_value (rest : string) : option f64 :=
  if starts_with "{" rest || starts_with " " rest then
    mbind (M:=option) parse_f64 (first_word (unwrap_or rest (after_last (Ascii.ascii_of_nat 125) rest)))
  else None.
Definition metric_line (acc : f64 * f64 * bool) (line : string) : f64 * f64 * bool :=
  let '(count, sum, seen) := acc in
  match strip_prefix METRIC line with
  | None => acc
  | Some rest =>
      match strip_prefix "_count" rest, strip_prefix "_sum" rest with
      | Some r, _ => match sample_value r with Some v => (fadd count v, sum, true) | None => acc end
      | None, Some r => match sample_value r with Some v => (count, fadd sum v, true) | None => acc end
      | None, None => acc
      end
  end.
Definition parse_io_metrics (lines : list string) : option (f64 * f64) :=
  let '(count, sum, seen) := foldl metric_line (f0, f0, false) lines in
  if seen : bool then Some (count, sum) else None.
Definition io_counters (lines_of : string → list string) (e : Engine) : call (option (f64 * f64)) :=
  let! r := invoke (HttpText (url e +:+ "/metrics") (bearer_of (token e))) in
  Ret (match r with
       | Err x => Err (anyhow x)
       | Ok (st, text) =>
           if is_error_status st then Err (anyhow (status_error st "/metrics")) else Ok (parse_io_metrics (lines_of text))
       end).
End engine.

(** ** Facts: the client changes nothing here *)

Section quiet.
Context {J : Type} `{Json J} `{HttpShow}.
Context `{Deserialize J EngineVolume} `{Deserialize J Slab} `{Deserialize J Discovery}.
Ltac quiet_by f := unfold f; apply _.
#[export] Instance send_quiet b m e p q x : Quiet (send (J:=J) b m e p q x). Proof. quiet_by @send. Qed.
#[export] Instance req_quiet m e p x : Quiet (req (J:=J) m e p x). Proof. quiet_by @req. Qed.
#[export] Instance admin_req_quiet m e p x : Quiet (admin_req (J:=J) m e p x). Proof. quiet_by @admin_req. Qed.
#[export] Instance admin_send_quiet m e p x : Quiet (admin_send (J:=J) m e p x). Proof. quiet_by @admin_send. Qed.
#[export] Instance v1_post_quiet e p x : Quiet (v1_post (J:=J) e p x). Proof. quiet_by @v1_post. Qed.
#[export] Instance admin_post_quiet e p x : Quiet (admin_post (J:=J) e p x). Proof. quiet_by @admin_post. Qed.
#[export] Instance capacity_quiet e : Quiet (capacity (J:=J) e). Proof. quiet_by @capacity. Qed.
#[export] Instance discovery_quiet e : Quiet (discovery (J:=J) e). Proof. quiet_by @discovery. Qed.
#[export] Instance get_items_quiet e p : Quiet (get_items (J:=J) e p). Proof. quiet_by @get_items. Qed.
#[export] Instance list_slabs_quiet e : Quiet (list_slabs (J:=J) e). Proof. quiet_by @list_slabs. Qed.
#[export] Instance list_engine_volumes_quiet e : Quiet (list_engine_volumes (J:=J) e). Proof. quiet_by @list_engine_volumes. Qed.
#[export] Instance slab_volume_ids_quiet e i : Quiet (slab_volume_ids (J:=J) e i). Proof. quiet_by @slab_volume_ids. Qed.
#[export] Instance list_volumes_quiet e : Quiet (list_volumes (J:=J) e). Proof. quiet_by @list_volumes. Qed.
#[export] Instance list_arrays_quiet e : Quiet (list_arrays (J:=J) e). Proof. quiet_by @list_arrays. Qed.
#[export] Instance list_drives_quiet e : Quiet (list_drives (J:=J) e). Proof. quiet_by @list_drives. Qed.
#[export] Instance create_volume_quiet e n z x : Quiet (create_volume (J:=J) e n z x). Proof. quiet_by @create_volume. Qed.
#[export] Instance create_pinned_quiet e n z a : Quiet (create_pinned_volume (J:=J) e n z a). Proof. quiet_by @create_pinned_volume. Qed.
#[export] Instance delete_volume_quiet e i : Quiet (delete_volume (J:=J) e i). Proof. quiet_by @delete_volume. Qed.
#[export] Instance delete_any_quiet e i : Quiet (delete_any_volume (J:=J) e i). Proof. quiet_by @delete_any_volume. Qed.
#[export] Instance local_volume_id_quiet e n : Quiet (local_volume_id (J:=J) e n). Proof. quiet_by @local_volume_id. Qed.
#[export] Instance served_size_quiet e i : Quiet (served_size (J:=J) e i). Proof. quiet_by @served_size. Qed.
#[export] Instance expand_v1_quiet e i z : Quiet (expand_v1 (J:=J) e i z). Proof. quiet_by @expand_v1. Qed.
#[export] Instance resize_any_quiet e i z : Quiet (resize_any (J:=J) e i z). Proof. quiet_by @resize_any. Qed.
#[export] Instance attach_leg_quiet e i n x h : Quiet (attach_leg (J:=J) e i n x h). Proof. quiet_by @attach_leg. Qed.
#[export] Instance attach_volume_quiet e i n : Quiet (attach_volume (J:=J) e i n). Proof. quiet_by @attach_volume. Qed.
#[export] Instance attach_any_quiet e i : Quiet (attach_any (J:=J) e i). Proof. quiet_by @attach_any. Qed.
#[export] Instance attach_for_host_quiet e i h d : Quiet (attach_for_host (J:=J) e i h d). Proof. quiet_by @attach_for_host. Qed.
#[export] Instance detach_volume_quiet e i n : Quiet (detach_volume (J:=J) e i n). Proof. quiet_by @detach_volume. Qed.
#[export] Instance detach_any_quiet e i : Quiet (detach_any (J:=J) e i). Proof. quiet_by @detach_any. Qed.
#[export] Instance withdraw_host_quiet e i h : Quiet (withdraw_host_call (J:=J) e i h). Proof. quiet_by @withdraw_host_call. Qed.
#[export] Instance v1_epoch_quiet e i : Quiet (v1_epoch (J:=J) e i). Proof. quiet_by @v1_epoch. Qed.
#[export] Instance v1_fence_quiet e i x : Quiet (v1_fence (J:=J) e i x). Proof. quiet_by @v1_fence. Qed.
#[export] Instance fence_rounds_quiet n e i x : Quiet (fence_rounds (J:=J) n e i x).
Proof. revert x. induction n as [|n IH]; intros x; simpl; apply _. Qed.
#[export] Instance fence_leg_quiet e i : Quiet (fence_leg (J:=J) e i). Proof. quiet_by @fence_leg. Qed.
#[export] Instance leg_superblock_quiet e i : Quiet (leg_superblock (J:=J) e i). Proof. quiet_by @leg_superblock. Qed.
#[export] Instance assemble_arrays_quiet e l : Quiet (assemble_arrays (J:=J) e l). Proof. quiet_by @assemble_arrays. Qed.
#[export] Instance create_raid1_quiet e l : Quiet (create_raid1 (J:=J) e l). Proof. quiet_by @create_raid1. Qed.
#[export] Instance set_rebuild_rate_quiet e i z : Quiet (set_rebuild_rate (J:=J) e i z). Proof. quiet_by @set_rebuild_rate. Qed.
#[export] Instance grow_array_quiet e i : Quiet (grow_array (J:=J) e i). Proof. quiet_by @grow_array. Qed.
#[export] Instance get_array_quiet e i : Quiet (get_array_call (J:=J) e i). Proof. quiet_by @get_array_call. Qed.
#[export] Instance get_any_volume_quiet e i : Quiet (get_any_volume (J:=J) e i). Proof. quiet_by @get_any_volume. Qed.
#[export] Instance start_mirror_quiet e i t : Quiet (start_mirror (J:=J) e i t). Proof. quiet_by @start_mirror. Qed.
#[export] Instance stop_mirror_quiet e i : Quiet (stop_mirror (J:=J) e i). Proof. quiet_by @stop_mirror. Qed.
#[export] Instance create_clone_call_quiet e n z m i : Quiet (create_clone_call (J:=J) e n z m i). Proof. quiet_by @create_clone_call. Qed.
#[export] Instance create_snapshot_call_quiet e n i : Quiet (create_snapshot_call (J:=J) e n i). Proof. quiet_by @create_snapshot_call. Qed.
#[export] Instance create_group_snapshot_call_quiet e n l : Quiet (create_group_snapshot_call (J:=J) e n l). Proof. quiet_by @create_group_snapshot_call. Qed.
#[export] Instance ship_snapshot_quiet e i t b z : Quiet (ship_snapshot (J:=J) e i t b z). Proof. quiet_by @ship_snapshot. Qed.
#[export] Instance ship_job_quiet e i : Quiet (ship_job (J:=J) e i). Proof. quiet_by @ship_job. Qed.
#[export] Instance delete_v1_quiet e p : Quiet (delete_v1 (J:=J) e p). Proof. quiet_by @delete_v1. Qed.
#[export] Instance io_counters_quiet p l e : Quiet (io_counters (J:=J) p l e). Proof. quiet_by @io_counters. Qed.
#[export] Instance find_array_quiet e i : Quiet (find_array (J:=J) e i). Proof. quiet_by @find_array. Qed.
#[export] Instance delete_array_quiet e i : Quiet (delete_array (J:=J) e i). Proof. quiet_by @delete_array. Qed.
#[export] Instance forget_array_quiet e i : Quiet (forget_array (J:=J) e i). Proof. quiet_by @forget_array. Qed.
#[export] Instance add_member_quiet e i d : Quiet (array_add_member (J:=J) e i d). Proof. quiet_by @array_add_member. Qed.
#[export] Instance remove_member_quiet e i d : Quiet (array_remove_member (J:=J) e i d). Proof. quiet_by @array_remove_member. Qed.
#[export] Instance add_drive_quiet e p : Quiet (add_drive_idempotent (J:=J) e p). Proof. quiet_by @add_drive_idempotent. Qed.
#[export] Instance delete_drive_quiet e p f : Quiet (delete_drive (J:=J) e p f). Proof. quiet_by @delete_drive. Qed.
End quiet.

(** ** Facts: coordinates *)

(** What an attach hands on. An answer is taken exactly when it offers
    NVMe-TCP at an address, in a namespace; a wildcard address, which a
    consumer elsewhere cannot reach, is replaced by the engine's own host,
    any other kept; port and namespace are reduced to their widths; a local
    block device is refused. *)
Lemma parse_attach_spec {J : Type} `{Json J} (e : Engine) (id : string) (v : J) (a : AttachedLeg) :
  parse_attach e id v = Ok a ↔
  get_str "transport" v = Some "nvme_tcp" ∧
  ∃ addr n, (get_array "addresses" v ≫= (λ l, l !! 0%nat)) = Some addr ∧ get_u64 "nsid" v = Some n
    ∧ nqn a = unwrap_or "" (get_str "nqn" v)
    ∧ (∃ t, t = unwrap_or "" (get_str "traddr" addr)
         ∧ ((wildcard t = false ∧ traddr a = t) ∨ (wildcard t = true ∧ traddr a = host e)))
    ∧ trsvcid a = (unwrap_or 4420%Z (get_u64 "trsvcid" addr) mod 65536)%Z ∧ (0 ≤ trsvcid a < 65536)%Z
    ∧ nsid a = (n mod 4294967296)%Z ∧ (0 ≤ nsid a < 4294967296)%Z
    ∧ host_nqn a = None.
Proof.
  unfold parse_attach. destruct (get_str "transport" v) as [t|]; simpl; [|split; [done|by intros []]].
  destruct (t == "nvme_tcp") eqn:Et; simpl.
  2:{ apply eqb_nprop in Et. destruct (t == "ublk"); simpl; (split; [done|]); by intros [[= ->] _]. }
  apply eqb_prop in Et as ->.
  destruct (get_array "addresses" v ≫= _) as [addr|]; simpl; [|split; [done|intros (_ & ? & ? & [=] & _)]].
  destruct (get_u64 "nsid" v) as [n|]; simpl; [|split; [done|intros (_ & ? & ? & _ & [=] & _)]].
  unfold as_u32. split.
  - intros [= <-]. split; [done|]. exists addr, n. simpl. repeat (split; [done|]).
    split; [eexists; split; [done|]; destruct (wildcard _); auto|].
    repeat split; try done; apply Z.mod_pos_bound; lia.
  - intros (_ & addr' & n' & [= <-] & [= <-] & Hq & (t & -> & Ht) & Hp & _ & Hn & _ & Hh).
    f_equal. destruct a as [q tr p ns hn]. simpl in *. subst.
    destruct Ht as [[-> ->]|[-> ->]]; reflexivity.
Qed.
