(* ===== verification/Publish.v ===== *)
(** * Serving volumes to consumers (src/orchestrate.rs, the export)

    Where a volume is served from, publishing and republishing it (to every
    host it names, or on the shared subsystem), adding and withdrawing a
    consumer host, replacing a served volume that is gone, and revoking the
    export before a delete. Shown: whatever a publish runs beside, it keeps
    the hosts the record has by then and says when coordinates changed; no
    handler here touches a volume's epoch, fence, head, legs or size; a host
    withdrawn is off the record at once and one asked for again is no longer
    pending. *)

From S2P Require Import Prelude F64 Config Model Events Refusal Async Json Inventory Sync Recovery App Engine.
From stdpp Require Import options.

Local Open Scope string_scope.

(** ** The record of an export *)

(** The hosts as they are now, with what this serve found for each. *)
Definition host_now (served : gmap string HostServe) (h : HostServe) : HostServe :=
  match served !! hs_host_nqn h with
  | Some r => {| hs_host_nqn := hs_host_nqn r; dhchap := dhchap h || dhchap r;
                 hs_coordinates := hs_coordinates r; hs_coordinates_changed := hs_coordinates_changed r;
                 served_at := served_at r; hs_message := hs_message r |}
  | None => h
  end.

(** What a publish found out, as it stands when the record is written. *)
Record Served := MkServed {
  sv_node : string;
  sv_volume_id : option string;
  sv_master : option string;
  sv_adopted : bool;
  sv_gone : bool;
  sv_per_host : bool;
  sv_local_id : option string;
  sv_hosts : gmap string HostServe;
}.
#[export] Instance Served_eta : Eta Served := λ r,
  MkServed (sv_node r) (sv_volume_id r) (sv_master r) (sv_adopted r) (sv_gone r) (sv_per_host r)
    (sv_local_id r) (sv_hosts r).

Definition export_record (previous : Export) (sv : Served)
    (res : result (option AttachedLeg) EngineError) (now : time) : Export :=
  let hosts_now := map (host_now (sv_hosts sv)) (hosts previous) in
  let same_served := (ex_node previous == Some (sv_node sv)) && (ex_volume_id previous == sv_volume_id sv) in
  let ex := Export_default <| ex_volume_id := sv_volume_id sv |> <| ex_node := Some (sv_node sv) |>
    <| ex_master_node := sv_master sv |> <| adopted := sv_adopted sv |>
    <| per_host := sv_per_host sv || per_host previous |>
    <| local_id := opt_or (sv_local_id sv) (opt_filter (λ _, same_served) (local_id previous)) |>
    <| withdrawing := withdrawing previous |> in
  let ex := match res with
    | Ok (Some coords) =>
        ex <| ex_state := Published |>
           <| coordinates_changed := is_some_and (λ c, c != coords) (ex_coordinates previous) |>
           <| ex_coordinates := Some coords |> <| published_at := Some now |>
    | Ok None =>
        ex <| ex_state := Published |>
           <| coordinates_changed := existsb hs_coordinates_changed hosts_now |>
           <| published_at := Some now |>
    | Err e =>
        ex <| ex_state := ExFailed |> <| ex_message := Some (err_text e) |>
           <| ex_coordinates := ex_coordinates previous |> <| gone := sv_gone sv |>
    end in
  ex <| hosts := hosts_now |>.

Definition publish_volume (sv : Served) (res : result (option AttachedLeg) EngineError) (now : time)
    (v : DistVolume) : DistVolume :=
  let ex := export_record (export v) sv res now in
  let v := match res with
    | Ok (Some coords) =>
        if assembly v == SingleLeg
        then v <| legs ::= λ ls, match ls with l :: ls => (l <| leg_export := Some coords |>) :: ls | [] => [] end |>
        else v
    | _ => v
    end in
  v <| export := ex |>.

(** ** Where a volume is served *)

Record ServeAt := MkServeAt {
  at_node : string;
  at_engine : Engine;
  at_volume_id : option string;
  at_master : option string;
  at_array : option string;
}.

Record DataAt := MkDataAt {
  da_node : string;
  da_engine : Engine;
  engine_name : string;
  da_master : option string;
  da_parent : string;
}.

Inductive Withdrawn := WDone | WPending | WNothingServed.
#[export] Instance Withdrawn_eq_dec : EqDecision Withdrawn.
Proof. solve_decision. Defined.

Section publish.
Context {J : Type} `{Json J} `{HttpShow}.
Context `{Deserialize J EngineVolume} `{Deserialize J Slab} `{Deserialize J Discovery}.
Context (cfg : Config) (engine_token : NodeConfig → option string) (admin_credential : string → option string).
Abbreviation engine_for := (engine_for engine_token admin_credential).
Abbreviation call A := (handler J (result A EngineError)).

Definition event := event_of (J:=J) "assemble".

Definition engine_of (fed : FedState) (node : string) : result Engine EngineError :=
  ok_or (engine_for <$> nodes fed !! node) (anyhow ("node " +:+ debug_str node +:+ " not in registry")).

(** The engine of a node that answers. *)
Definition healthy_engine (fed : FedState) (node : string) : option Engine :=
  engine_for <$> opt_filter (λ n, healthy (status n)) (nodes fed !! node).

(** [serve_at] of a volume with legs of its own. *)
Definition serve_at_own (fed : FedState) (vol : DistVolume) : result ServeAt EngineError :=
  let nm := name vol in
  match assembly vol with
  | SingleLeg =>
      let? leg := ok_or (opt_filter (λ l, (leg_state l == Created) && is_some (leg_volume_id l)) (legs vol !! 0%nat))
                    (anyhow (nm +:+ ": its leg is not created")) in
      let? e := engine_of fed (leg_node leg) in
      Ok {| at_node := leg_node leg; at_engine := e; at_volume_id := leg_volume_id leg;
            at_master := leg_master_node leg; at_array := None |}
  | Assembled | Degraded =>
      let? h := ok_or (head vol) (anyhow (nm +:+ ": no head")) in
      let? a := ok_or (array_id vol) (anyhow (nm +:+ ": no array id")) in
      let here := ex_node (export vol) == Some h in
      let? e := engine_of fed h in
      Ok {| at_node := h; at_engine := e;
            at_volume_id := if here then ex_volume_id (export vol) else None;
            at_master := if here then ex_master_node (export vol) else None;
            at_array := Some a |}
  | PendingEngineSupport => Err (anyhow (nm +:+ ": not assembled — nothing to serve until the mirror exists"))
  | Clone => Err (anyhow (nm +:+ ": its parent volume is gone"))
  end.

(** [serve_at]: a clone is served where its parent is. A parent has
    [clone_of = None] and so an assembly of its own. *)
Definition serve_at (fed : FedState) (vol : DistVolume) : result ServeAt EngineError :=
  match assembly vol with
  | Clone =>
      let? parent := ok_or (opt_filter (λ p, is_none (clone_of p)) (parent_of fed vol))
                       (anyhow (name vol +:+ ": its parent volume is gone")) in
      let? p := serve_at_own fed parent in
      let here := ex_node (export vol) == Some (at_node p) in
      Ok {| at_node := at_node p; at_engine := at_engine p;
            at_volume_id := if here then ex_volume_id (export vol) else None;
            at_master := if here then ex_master_node (export vol) else None;
            at_array := None |}
  | _ => serve_at_own fed vol
  end.

Definition data_at (fed : FedState) (vol : DistVolume) : result DataAt EngineError :=
  let? parent := ok_or (opt_filter (λ p, is_none (clone_of p)) (parent_of fed vol))
                   (anyhow (name vol +:+ ": its parent volume is gone")) in
  if negb (match assembly parent with SingleLeg | Assembled | Degraded => true | _ => false end)
  then Err (anyhow (name parent +:+ ": not assembled — no data to take a point in time from"))
  else
    let? at_ := serve_at fed parent in
    let own_leg := find_first (λ l, leg_node l == at_node at_) (legs parent) ≫= leg_master_node in
    Ok {| da_node := at_node at_; da_engine := at_engine at_; engine_name := served_name vol;
          da_master := opt_or own_leg (at_master at_); da_parent := name parent |}.

(** ** Publishing *)

Definition master_or_local (m : option string) : string := unwrap_or "localhost" m.

(** Errors as they are worded on the way up: [{node}: {e:#}]. *)
Definition at_text (node : string) (e : EngineError) : EngineError := anyhow (node +:+ ": " +:+ err_text e).

Definition served_local_id (at_ : ServeAt) (vol : DistVolume) (volume_id : string) (adopted_ : bool) : call string :=
  if adopted_ then Ret (Ok volume_id)
  else match (if (ex_node (export vol) == Some (at_node at_)) && (ex_volume_id (export vol) == Some volume_id)
              then local_id (export vol) else None) with
  | Some l => Ret (Ok l)
  | None =>
      let! r := local_volume_id (at_engine at_) (served_name vol) in
      Ret (map_err (at_text (at_node at_)) r)
  end.

(** The served volume exists and, with no host named, is attached on the
    shared subsystem. *)
Definition attach_shared (at_ : ServeAt) (vol : DistVolume) (sv : Served)
    : handler J (Served * result (option AttachedLeg) EngineError) :=
  let recorded := is_some (sv_volume_id sv) in
  let attach (sv : Served) (k : string → call AttachedLeg) (lost : bool) (vid : string)
      : handler J (Served * result (option AttachedLeg) EngineError) :=
    if sv_per_host sv then Ret (sv, Ok None)
    else
      let! r := k vid in
      match r with
      | Ok c => Ret (sv, Ok (Some c))
      | Err e => Ret (sv <| sv_gone := lost && is_not_found e |>, Err (at_text (at_node at_) e))
      end in
  let! (sv, found) :=
    (if (assembly vol == Clone) && negb recorded then
       let! r := local_volume_id (at_engine at_) (name vol) in
       Ret (match r with
            | Ok id => (sv <| sv_volume_id := Some id |> <| sv_adopted := true |>, Ok tt)
            | Err e => (sv <| sv_gone := is_not_found e |>, Err (at_text (at_node at_) e))
            end)
     else Ret (sv, Ok tt)) in
  match found with
  | Err e => Ret (sv, Err e)
  | Ok _ =>
      if sv_adopted sv then
        match sv_volume_id sv with
        | None => Ret (sv, Err (anyhow (at_node at_ +:+ ": the served volume did not come across with the array — not creating an empty one")))
        | Some vid => attach sv (attach_any (at_engine at_)) true vid
        end
      else match sv_volume_id sv with
      | Some vid =>
          attach sv (λ vid, attach_volume (at_engine at_) vid (master_or_local (sv_master sv))) recorded vid
      | None =>
          let! r := create_pinned_volume (at_engine at_) (name vol +:+ MIRROR_SUFFIX) (leg_bytes vol)
                      (unwrap_or "" (at_array at_)) in
          match r with
          | Err e => Ret (sv, Err (at_text (at_node at_) e))
          | Ok created =>
              match get_str "id" created with
              | None => Ret (sv, Err (anyhow (at_node at_ +:+ ": create returned no id")))
              | Some id =>
                  if existsb (λ l, leg_volume_id l == Some id) (legs vol) then
                    Ret (sv, Err (anyhow (at_node at_ +:+ ": the engine answered with a leg (" +:+ id
                                          +:+ "), not a volume on the array")))
                  else
                    let sv := sv <| sv_volume_id := Some id |> <| sv_master := master_node_of created |> in
                    attach sv (λ vid, attach_volume (at_engine at_) vid (master_or_local (sv_master sv))) recorded id
              end
          end
      end
  end.

(** One host: its record, the secret if the engine gave one, and why it
    failed if it did. *)
Definition serve_one (at_ : ServeAt) (lid : string) (recorded : bool)
    (acc : Served * gmap string string * list string) (h : HostServe)
    : handler J (Served * gmap string string * list string) :=
  let '(sv, secrets, failures) := acc in
  let! r := attach_for_host (at_engine at_) lid (hs_host_nqn h) (dhchap h) in
  match r with
  | Ok (coords, secret) =>
      let! now := invoke Now in
      let rec := h <| hs_coordinates_changed := is_some_and (λ c, c != coords) (hs_coordinates h) |>
        <| hs_coordinates := Some coords |> <| served_at := Some now |> <| hs_message := None |> in
      Ret (sv <| sv_hosts ::= <[hs_host_nqn h := rec]> |>,
           match secret with Some x => <[hs_host_nqn h := x]> secrets | None => secrets end, failures)
  | Err e =>
      let m := at_node at_ +:+ ": " +:+ err_text e in
      Ret (sv <| sv_gone ::= λ g, g || (recorded && is_not_found e) |>
              <| sv_hosts ::= <[hs_host_nqn h := h <| hs_message := Some m |>]> |>,
           secrets, (failures ++ [hs_host_nqn h +:+ ": " +:+ m])%list)
  end.

Definition serve_hosts (at_ : ServeAt) (vol : DistVolume) (recorded : bool) (sv : Served)
    (res : result (option AttachedLeg) EngineError)
    : handler J (Served * gmap string string * result (option AttachedLeg) EngineError) :=
  match res, hosts (export vol) with
  | Ok _, _ :: _ =>
      let! lid := served_local_id at_ vol (unwrap_or "" (sv_volume_id sv)) (sv_adopted sv) in
      match lid with
      | Err e => Ret (sv <| sv_gone := recorded && is_not_found e |>, ∅, Err e)
      | Ok lid =>
          let! (sv, secrets, failures) := for_fold (serve_one at_ lid recorded) (sv, ∅, []) (hosts (export vol)) in
          Ret (sv <| sv_local_id := Some lid |>, secrets,
               match failures with [] => res | _ => Err (anyhow ("serving " +:+ join "; " failures)) end)
      end
  | _, _ => Ret (sv, ∅, res)
  end.

(** What a publish reads of the record before it calls an engine. *)
Definition publish_ready (nm : string) (s : App) : result (DistVolume * ServeAt) (option string * EngineError) :=
  match volumes (fed s) !! nm with
  | None => Err (None, anyhow ("volume " +:+ debug_str nm +:+ " not found"))
  | Some vol =>
      if ex_state (export vol) == Revoking then
        Err (None, anyhow (nm +:+ ": being deleted — a delete stopped while revoking its export ("
             +:+ unwrap_or "no message" (ex_message (export vol)) +:+ "); DELETE it again"))
      else if gone (export vol) then
        Err (None, anyhow (gone_message (name vol) (ex_volume_id (export vol)) (ex_node (export vol))))
      else match serve_at (fed s) vol with
      | Err e => Err (None, e)
      | Ok at_ =>
          if node_healthy (fed s) (at_node at_) then Ok (vol, at_)
          else Err (Some (at_node at_),
                    anyhow (nm +:+ ": " +:+ at_node at_ +:+ " is unreachable — cannot serve from it"))
      end
  end.

(** The failure of a node that does not answer is put on the record. *)
Definition record_unreachable (nm node : string) (e : EngineError) (s : App) : App * bool :=
  match volumes (fed s) !! nm with
  | None => (s, false)
  | Some _ =>
      (s <| fed ::= λ fd, bump (update_volume fd nm (λ v, v <| export ::= λ ex,
          ex <| ex_state := ExFailed |> <| ex_message := Some (err_text e) |> <| ex_node := Some node |> |>)) |>, true)
  end.

(** The record is written; the export as it was before comes back. *)
Definition record_publish (nm : string) (sv : Served) (res : result (option AttachedLeg) EngineError)
    (now : time) (s : App) : App * option (Export * Export) :=
  match volumes (fed s) !! nm with
  | None => (s, None)
  | Some v =>
      (s <| fed ::= λ fd, bump (update_volume fd nm (publish_volume sv res now)) |>,
       Some (export_record (export v) sv res now, export v))
  end.

Definition publish_word (previous : Export) (changed : bool) : string :=
  if changed then "republished with NEW coordinates — consumers must reconnect"
  else if ex_state previous != Published then "published"
  else "republished, coordinates unchanged".

Definition publish_event (nm node : string) (res : result (option AttachedLeg) EngineError)
    (ex previous : Export) : handler J unit :=
  let w := publish_word previous (coordinates_changed ex) in
  match res with
  | Ok (Some c) => event nm Info (nm +:+ ": " +:+ w +:+ " on " +:+ node +:+ " at " +:+ drive_uri c)
  | Ok None =>
      let to := match hosts ex with [] => "no host" | hs => join ", " (map hs_host_nqn hs) end in
      event nm Info (nm +:+ ": " +:+ w +:+ " on " +:+ node +:+ " to " +:+ to)
  | Err _ => event nm Error (nm +:+ ": export failed: " +:+ unwrap_or "" (ex_message ex))
  end.

Definition publish_inner (nm : string) : call (Export * gmap string string) :=
  let! ready := reads (publish_ready nm) in
  match ready with
  | Err (None, e) => Ret (Err e)
  | Err (Some node, e) =>
      let! recorded := atomic (record_unreachable nm node e) in
      (if recorded then publish_change ;! event nm Error (nm +:+ ": export failed: " +:+ err_text e)
       else Ret tt) ;!
      Ret (Err e)
  | Ok (vol, at_) =>
      let recorded := is_some (at_volume_id at_) in
      let sv := {| sv_node := at_node at_; sv_volume_id := at_volume_id at_; sv_master := at_master at_;
                   sv_adopted := adopted (export vol) && (ex_node (export vol) == Some (at_node at_));
                   sv_gone := false;
                   sv_per_host := per_host (export vol) || (match hosts (export vol) with [] => false | _ => true end);
                   sv_local_id := None; sv_hosts := ∅ |} in
      let! (sv, res) := attach_shared at_ vol sv in
      let! (sv, secrets, res) := serve_hosts at_ vol recorded sv res in
      let res := if sv_gone sv
        then Err (anyhow (gone_message nm (sv_volume_id sv) (Some (at_node at_)))) else res in
      let! now := invoke Now in
      let! written := atomic (record_publish nm sv res now) in
      match written with
      | None => Ret (Err (anyhow (nm +:+ ": deleted while it was being published")))
      | Some (ex, previous) =>
          publish_change ;!
          publish_event nm (at_node at_) res ex previous ;!
          Ret (let? _ := res in Ok (ex, secrets))
      end
  end.

Definition publish (nm : string) : call Export :=
  let!? (ex, _) := publish_inner nm in Ret (Ok ex).

(** ** Recreating, hosts *)

Definition recreate_check (nm : string) (s : App) : App * result unit EngineError :=
  match volumes (fed s) !! nm with
  | None => (s, Err (anyhow ("volume " +:+ debug_str nm +:+ " not found")))
  | Some v =>
      if negb (gone (export v)) then
        (s, Err (anyhow (nm +:+ ": its served volume is not gone — nothing to recreate")))
      else if negb (mirrored (assembly v)) then
        (s, Err (anyhow (nm +:+ ": a single leg is the volume's data — there is nothing to recreate; delete the volume")))
      else
        (s <| fed ::= λ fd, bump (update_volume fd nm (λ v, v <| export ::= λ ex,
           ex <| gone := false |> <| ex_volume_id := None |> <| local_id := None |> <| adopted := false |> |>)) |>, Ok tt)
  end.

Definition all_changed (ex : Export) : Export :=
  ex <| coordinates_changed := true |> <| hosts ::= map (λ h, h <| hs_coordinates_changed := true |>) |>.

Definition recreate_mark (nm : string) (s : App) : App * result Export EngineError :=
  match volumes (fed s) !! nm with
  | None => (s, Err (anyhow (nm +:+ ": deleted while it was being recreated")))
  | Some v =>
      (s <| fed ::= λ fd, bump (update_volume fd nm (λ v, v <| export ::= all_changed |>)) |>,
       Ok (all_changed (export v)))
  end.

Definition recreate_export (nm : string) : call Export :=
  let!? _ := atomic (recreate_check nm) in
  event nm Warning (nm +:+ ": recreating its served volume on request — the new one is EMPTY") ;!
  let!? _ := publish nm in
  let!? ex := atomic (recreate_mark nm) in
  publish_change ;! Ret (Ok ex).

(** The host goes on the record (or keeps its place there), is served from
    its own subsystem, and no withdrawal of it is pending. *)
Definition HostServe_new (h : string) (dh : bool) : HostServe := MkHostServe h dh None false None None.
Definition add_host (h : string) (dh : bool) (ex : Export) : Export :=
  let ex := if existsb (λ x, hs_host_nqn x == h) (hosts ex)
    then ex <| hosts ::= update_first (λ x, hs_host_nqn x == h) (λ x, x <| dhchap ::= λ d, d || dh |>) |>
    else ex <| hosts ::= λ l, (l ++ [HostServe_new h dh])%list |> in
  ex <| per_host := true |> <| withdrawing ::= List.filter (λ w, pw_host_nqn w != h) |>.

Definition serve_host_record (nm h : string) (dh : bool) (s : App) : App * result unit EngineError :=
  match volumes (fed s) !! nm with
  | None => (s, Err (anyhow ("volume " +:+ debug_str nm +:+ " not found")))
  | Some _ => (s <| fed ::= λ fd, bump (update_volume fd nm (λ v, v <| export ::= add_host h dh |>)) |>, Ok tt)
  end.

Definition host_of (nm h : string) (s : App) : option HostServe :=
  v ← volumes (fed s) !! nm; find_first (λ x, hs_host_nqn x == h) (hosts (export v)).

Definition serve_host (nm host_nqn : string) (dh : bool) : call (HostServe * option string) :=
  let h := trim host_nqn in
  if negb (valid_host_nqn h) then
    Ret (Err (anyhow (debug_str h +:+ " is not a host NQN (nqn.…, at most 223 bytes)")))
  else
    let!? _ := atomic (serve_host_record nm h dh) in
    let! r := publish_inner nm in
    match r with
    | Err e =>
        let! why := reads (λ s, mbind (M:=option) hs_message (host_of nm h s)) in
        Ret (Err (match why with Some m => anyhow (nm +:+ ": serving " +:+ h +:+ ": " +:+ m) | None => e end))
    | Ok (ex, secrets) =>
        Ret (let? rec := ok_or (find_first (λ x, hs_host_nqn x == h) (hosts ex))
                           (anyhow (nm +:+ ": " +:+ h +:+ " was withdrawn while it was being served")) in
             Ok (rec, secrets !! h))
    end.

Definition drop_host (h : string) (ex : Export) : Export := ex <| hosts ::= List.filter (λ x, hs_host_nqn x != h) |>.

Definition withdraw_record (nm h : string) (s : App)
    : App * result (option string * option string * string) EngineError :=
  match volumes (fed s) !! nm with
  | None => (s, Err (anyhow ("volume " +:+ debug_str nm +:+ " not found")))
  | Some v =>
      (s <| fed ::= λ fd, bump (update_volume fd nm (λ v, v <| export ::= drop_host h |>)) |>,
       Ok (ex_node (export v), local_id (export v), served_name v))
  end.

Definition withdraw_on_engine (w : PendingWithdraw) : call unit :=
  let! e := reads (λ s, healthy_engine (fed s) (pw_node w)) in
  match e with
  | None => Ret (Err (anyhow (pw_node w +:+ " is unreachable")))
  | Some e =>
      match pw_local_id w with
      | Some id => withdraw_host_call e id (pw_host_nqn w)
      | None =>
          let! r := local_volume_id e (pw_name w) in
          match r with
          | Ok id => withdraw_host_call e id (pw_host_nqn w)
          | Err x => if is_not_found x then Ret (Ok tt) else Ret (Err x)
          end
      end
  end.

Definition add_pending (w : PendingWithdraw) (ex : Export) : Export :=
  if existsb (λ x, x == w) (withdrawing ex) then ex else ex <| withdrawing ::= λ l, (l ++ [w])%list |>.

Definition withdraw_host (nm host_nqn : string) : call Withdrawn :=
  let h := trim host_nqn in
  let!? (node, lid, served) := atomic (withdraw_record nm h) in
  publish_change ;!
  match node with
  | None => Ret (Ok WNothingServed)
  | Some node =>
      let w := {| pw_node := node; pw_local_id := lid; pw_name := served; pw_host_nqn := h |} in
      let! out := withdraw_on_engine w in
      match out with
      | Ok _ =>
          event nm Info (nm +:+ ": no longer served to " +:+ h +:+ " on " +:+ node) ;! Ret (Ok WDone)
      | Err e =>
          change_volume nm (λ v, v <| export ::= add_pending w |>) ;!
          publish_change ;!
          event nm Warning (nm +:+ ": withdrawal of " +:+ h +:+ " on " +:+ node
                            +:+ " pending until it answers: " +:+ err_text e) ;!
          Ret (Ok WPending)
      end
  end.

Definition pending_on (node : string) (fed : FedState) : list (string * PendingWithdraw) :=
  concat (map (λ v, map (pair (name v)) (List.filter (λ w, pw_node w == node) (withdrawing (export v))))
            (bt_values (volumes fed))).

Definition withdraw_pending_on (node : string) : handler J unit :=
  let! due := reads (λ s, pending_on node (fed s)) in
  for_each (λ '(nm, w),
    let! r := withdraw_on_engine w in
    if is_ok r then
      change_volume nm (λ v, v <| export ::= λ ex, ex <| withdrawing ::= List.filter (λ x, x != w) |> |>) ;!
      publish_change ;!
      event nm Info (nm +:+ ": no longer served to " +:+ pw_host_nqn w +:+ " on " +:+ node)
    else Ret tt) due.

(** ** Revoking *)

Definition set_export_state (nm : string) (st : ExportState) (message : option string) : handler J unit :=
  let! known := atomic (λ s, match volumes (fed s) !! nm with
    | None => (s, false)
    | Some _ => (s <| fed ::= λ fd, bump (update_volume fd nm (λ v, v <| export ::= λ ex,
                   ex <| ex_state := st |> <| ex_message := message |> |>)) |>, true)
    end) in
  if known then publish_change else Ret tt.

Definition revoke (vol : DistVolume) : call unit :=
  match ex_node (export vol), ex_volume_id (export vol) with
  | Some node, Some vid =>
      if existsb (λ l, leg_volume_id l == Some vid) (legs vol) then Ret (Ok tt)
      else
        let! e := reads (λ s, healthy_engine (fed s) node) in
        match e with
        | None => Ret (Ok tt)
        | Some e =>
            set_export_state (name vol) Revoking (Some "delete in progress") ;!
            let! r :=
              (if adopted (export vol) then detach_any e vid ;! delete_any_volume e vid
               else
                 (if is_some (ex_coordinates (export vol)) || (match hosts (export vol) with [] => false | _ => true end)
                  then detach_volume e vid (master_or_local (ex_master_node (export vol))) ;! Ret tt else Ret tt) ;!
                 delete_volume e vid) in
            match r with
            | Ok _ => Ret (Ok tt)
            | Err x =>
                let x := anyhow (node +:+ ": consumer volume " +:+ vid +:+ ": " +:+ err_text x) in
                set_export_state (name vol) Revoking (Some (err_text x)) ;! Ret (Err x)
            end
        end
  | _, _ => Ret (Ok tt)
  end.

(** ** Republishing *)

Definition clones_of (parent : string) (fed : FedState) : list string :=
  map name (List.filter (λ v, is_some_and (λ c, clone_parent c == parent) (clone_of v) && negb (gone (export v)))
              (bt_values (volumes fed))).
Definition publish_clones_of (parent : string) : handler J unit :=
  let! names := reads (λ s, clones_of parent (fed s)) in
  for_each (λ nm, publish nm ;! Ret tt) names.

Definition served_from (node : string) (fed : FedState) : list string :=
  map name (List.filter (λ v,
      (match ex_state (export v) with Published | ExFailed => true | _ => false end)
      && negb (gone (export v)) && (ex_node (export v) == Some node)) (bt_values (volumes fed))).
Definition republish_on (node : string) : handler J unit :=
  withdraw_pending_on node ;!
  let! names := reads (λ s, served_from node (fed s)) in
  for_each (λ nm, publish nm ;! Ret tt) names.
End publish.

(** ** Facts: the record of an export *)

(** Every host's finding is about that host. *)
Definition served_wf (m : gmap string HostServe) : Prop := ∀ k r, m !! k = Some r → hs_host_nqn r = k.

Lemma host_now_nqn served h : served_wf served → hs_host_nqn (host_now served h) = hs_host_nqn h.
Proof.
  intros Hw. unfold host_now. destruct (served !! hs_host_nqn h) as [r|] eqn:E; [|done]. simpl. by apply Hw.
Qed.

Lemma export_record_hosts previous sv res now :
  hosts (export_record previous sv res now) = map (host_now (sv_hosts sv)) (hosts previous).
Proof. unfold export_record. by destruct res as [[c|]|e]. Qed.

(** What a publish writes, whatever changed while it ran: the hosts are
    those on the record then, in order, none lost and none brought back,
    and a secret once asked for stays asked for; pending withdrawals stay;
    success hands out the new coordinates and says they changed exactly
    when others were handed out before; failure keeps the coordinates
    handed out and alone can mark the served volume gone. *)
Theorem publish_record_spec (previous : Export) (sv : Served)
  (res : result (option AttachedLeg) EngineError) (now : time) (Hw : served_wf (sv_hosts sv)) :
  let ex := export_record previous sv res now in
  map hs_host_nqn (hosts ex) = map hs_host_nqn (hosts previous)
  ∧ (∀ i h h', hosts previous !! i = Some h → hosts ex !! i = Some h' → dhchap h = true → dhchap h' = true)
  ∧ withdrawing ex = withdrawing previous
  ∧ (per_host previous = true → per_host ex = true)
  ∧ match res with
    | Ok (Some c) => ex_state ex = Published ∧ ex_coordinates ex = Some c ∧ gone ex = false
        ∧ (coordinates_changed ex = true ↔ ∃ c0, ex_coordinates previous = Some c0 ∧ c0 ≠ c)
    | Ok None => ex_state ex = Published ∧ ex_coordinates ex = None ∧ gone ex = false
        ∧ (coordinates_changed ex = true ↔ ∃ h, h ∈ hosts ex ∧ hs_coordinates_changed h = true)
    | Err e => ex_state ex = ExFailed ∧ ex_coordinates ex = ex_coordinates previous
        ∧ ex_message ex = Some (err_text e) ∧ gone ex = sv_gone sv
    end.
Proof.
  intros ex. subst ex. rewrite export_record_hosts. split; [|split; [|split; [|split]]].
  - rewrite map_map. apply map_ext. intros h. by apply host_now_nqn.
  - intros i h h' Hi Hi' Hd. change (map (host_now (sv_hosts sv)) (hosts previous)) with
      (host_now (sv_hosts sv) <$> hosts previous) in Hi'. rewrite list_lookup_fmap, Hi in Hi'.
    injection Hi' as <-. unfold host_now. destruct (sv_hosts sv !! hs_host_nqn h); [|done]. simpl. by rewrite Hd.
  - unfold export_record. by destruct res as [[c|]|e].
  - unfold export_record. intros Hp. destruct res as [[c|]|e]; simpl; by rewrite Hp, orb_true_r.
  - unfold export_record. destruct res as [[c|]|e]; simpl; repeat (split; [done|]); try done.
    + rewrite is_some_and_true. by setoid_rewrite neqb_true.
    + apply existsb_true.
Qed.

(** Asking for a host and withdrawing one: after the ask the host is on
    the record exactly once more than its others allow (a record without
    repeats stays so), its own secret sticks, and nothing of it is pending;
    after the withdrawal it is not on the record and no other host moved. *)
Theorem hosts_spec (ex : Export) (h : string) (dh : bool) :
  (NoDup (map hs_host_nqn (hosts ex)) → NoDup (map hs_host_nqn (hosts (add_host h dh ex))))
  ∧ (∃ x, find_first (λ x, hs_host_nqn x == h) (hosts (add_host h dh ex)) = Some x ∧ hs_host_nqn x = h
       ∧ (dh = true → dhchap x = true)
       ∧ (∀ y, find_first (λ x, hs_host_nqn x == h) (hosts ex) = Some y → dhchap y = true → dhchap x = true))
  ∧ (∀ w, w ∈ withdrawing (add_host h dh ex) ↔ w ∈ withdrawing ex ∧ pw_host_nqn w ≠ h)
  ∧ per_host (add_host h dh ex) = true
  ∧ (∀ x, x ∈ hosts (drop_host h ex) ↔ x ∈ hosts ex ∧ hs_host_nqn x ≠ h).
Proof.
  assert (withdrawing (add_host h dh ex) = List.filter (λ w, pw_host_nqn w != h) (withdrawing ex)
          ∧ per_host (add_host h dh ex) = true) as [Hwd Hph] by (unfold add_host; by case_head).
  split; [|split; [|split; [|split]]].
  - intros Hn. unfold add_host. case_head; simpl.
    + by rewrite update_first_map.
    + rewrite map_app. apply NoDup_app. split; [done|]. split; [|apply NoDup_singleton].
      intros x Hx Hx'. apply list_elem_of_singleton in Hx' as ->. simpl in Hx.
      apply list_elem_of_fmap in Hx as (y & -> & Hy). rewrite existsb_false in Heqb.
      specialize (Heqb y Hy). by rewrite eqb_refl in Heqb.
  - unfold add_host. case_head; simpl.
    + rewrite find_first_update_first by done. apply existsb_true in Heqb as (y & Hy & Hyh).
      destruct (find_first_is_Some (λ x, hs_host_nqn x == h) _ y Hy Hyh) as [x Hx].
      rewrite Hx. simpl. eexists. split; [done|]. simpl. apply find_first_Some in Hx as [_ Hx%eqb_prop].
      split; [done|]. split; [intros ->; by rewrite orb_true_r|]. intros z [= <-] Hd. by rewrite Hd.
    + exists (HostServe_new h dh). rewrite existsb_false in Heqb.
      assert (find_first (λ x, hs_host_nqn x == h) (hosts ex) = None) as Hnone by by apply find_first_None.
      split; [|split; [done|split; [done|by rewrite Hnone]]].
      clear Hwd Hph Hnone. induction (hosts ex) as [|x l IH]; unfold find_first in *; simpl.
      * by rewrite eqb_refl.
      * rewrite (Heqb x) by left. apply IH. intros y ?. apply Heqb. by right.
  - intros w. rewrite Hwd, elem_of_filterb, neqb_true. done.
  - done.
  - intros x. unfold drop_host. simpl. by rewrite elem_of_filterb, neqb_true.
Qed.

(** ** Facts: what exporting leaves alone *)

(** A volume without its export and its legs' coordinates. *)
Definition core (v : DistVolume) : DistVolume :=
  v <| export := Export_default |> <| legs ::= map (λ l, l <| leg_export := None |>) |>.

(** A step that changes exports and reports, and nothing else. *)
Definition export_step (s s' : App) : Prop :=
  core <$> volumes (fed s') = core <$> volumes (fed s)
  ∧ nodes (fed s') = nodes (fed s) ∧ claims s' = claims s
  ∧ orphans (fed s') = orphans (fed s) ∧ stale_heads (fed s') = stale_heads (fed s)
  ∧ snapshots (fed s') = snapshots (fed s) ∧ group_snapshots (fed s') = group_snapshots (fed s).

#[export] Instance export_step_refl : Reflexive export_step.
Proof. intros s. by repeat split. Qed.
#[export] Instance export_step_trans : Transitive export_step.
Proof. intros s1 s2 s3 H12 H23. destruct H12 as (?&?&?&?&?&?&?), H23 as (?&?&?&?&?&?&?). repeat split; congruence. Qed.

Lemma update_volume_core fed nm f :
  (∀ v, core (f v) = core v) → core <$> volumes (update_volume fed nm f) = core <$> volumes fed.
Proof.
  intros H. apply map_eq. intros k. rewrite !lookup_fmap, update_volume_lookup.
  destruct (decide (nm = k)); [|done]. destruct (volumes fed !! k); simpl; [by rewrite H|done].
Qed.

Lemma export_step_update s nm f :
  (∀ v, core (f v) = core v) → export_step s (s <| fed ::= λ fd, bump (update_volume fd nm f) |>).
Proof. intros H. split; [|done]. simpl. by apply update_volume_core. Qed.

Lemma publish_volume_core sv res now v : core (publish_volume sv res now v) = core v.
Proof.
  unfold publish_volume, core. destruct res as [[c|]|e]; [|done..].
  destruct (assembly v == SingleLeg); [|done]. simpl. by destruct (legs v).
Qed.

Section export_guarantee.
Context {J : Type} `{Json J} `{HttpShow}.
Context `{Deserialize J EngineVolume} `{Deserialize J Slab} `{Deserialize J Discovery}.
Context (engine_token : NodeConfig → option string) (admin_credential : string → option string).
Abbreviation G := (guar (E:=Call J) export_step).

Lemma guar_event_of knd subj sev msg : G (event_of knd subj sev msg).
Proof. unfold event_of. repeat guar_step. by repeat split. Qed.
#[local] Hint Resolve guar_event_of : guar.


Lemma change_volume_guar nm f : (∀ v, core (f v) = core v) → G (change_volume nm f).
Proof. intros Hf. apply guar_writes. intros s. by apply export_step_update. Qed.

Lemma attach_shared_quiet at_ vol sv : Quiet (attach_shared (J:=J) at_ vol sv).
Proof. unfold attach_shared. apply _. Qed.
Lemma served_local_id_quiet at_ vol vid ad : Quiet (served_local_id (J:=J) at_ vol vid ad).
Proof. unfold served_local_id. apply _. Qed.
#[local] Existing Instances attach_shared_quiet served_local_id_quiet.
Lemma serve_one_quiet at_ lid r acc h : Quiet (serve_one (J:=J) at_ lid r acc h).
Proof. unfold serve_one. apply _. Qed.
#[local] Existing Instance serve_one_quiet.
Lemma serve_hosts_quiet at_ vol r sv res : Quiet (serve_hosts (J:=J) at_ vol r sv res).
Proof. unfold serve_hosts. apply _. Qed.
#[local] Existing Instance serve_hosts_quiet.

Ltac export_change :=
  simpl; repeat case_head; simpl; first [reflexivity | apply export_step_update; intros ?; first [done | apply publish_volume_core]].
Ltac export_auto := repeat first [solve [apply quiet] | solve [eauto 2 with guar nocore] | guar_step]; export_change.

Lemma publish_event_guar nm node res ex prev : G (publish_event nm node res ex prev).
Proof. unfold publish_event, event. export_auto. Qed.
#[local] Hint Resolve publish_event_guar : guar.
Lemma publish_inner_guar nm : G (publish_inner engine_token admin_credential nm).
Proof. unfold publish_inner, publish_ready, record_unreachable, record_publish, event. export_auto. Qed.
#[local] Hint Resolve publish_inner_guar : guar.
Lemma publish_guar nm : G (publish engine_token admin_credential nm).
Proof. unfold publish. export_auto. Qed.
#[local] Hint Resolve publish_guar : guar.
Lemma recreate_export_guar nm : G (recreate_export engine_token admin_credential nm).
Proof. unfold recreate_export, recreate_check, recreate_mark, event. export_auto. Qed.
Lemma serve_host_guar nm h dh : G (serve_host engine_token admin_credential nm h dh).
Proof. unfold serve_host, serve_host_record. export_auto. Qed.
Lemma withdraw_on_engine_guar w : G (withdraw_on_engine engine_token admin_credential w).
Proof. unfold withdraw_on_engine. export_auto. Qed.
#[local] Hint Resolve withdraw_on_engine_guar : guar.
Lemma withdraw_host_guar nm h : G (withdraw_host engine_token admin_credential nm h).
Proof.
  unfold withdraw_host, withdraw_record, event, change_volume. export_auto.
Qed.
Lemma withdraw_pending_guar node : G (withdraw_pending_on engine_token admin_credential node).
Proof. unfold withdraw_pending_on, event, change_volume. export_auto. Qed.
#[local] Hint Resolve withdraw_pending_guar : guar.
Lemma set_export_state_guar nm st m : G (set_export_state nm st m).
Proof. unfold set_export_state. export_auto. Qed.
#[local] Hint Resolve set_export_state_guar : guar.
Lemma revoke_guar vol : G (revoke engine_token admin_credential vol).
Proof. unfold revoke. export_auto. Qed.
Lemma publish_clones_guar p : G (publish_clones_of engine_token admin_credential p).
Proof. unfold publish_clones_of. export_auto. Qed.
Lemma republish_on_guar node : G (republish_on engine_token admin_credential node).
Proof. unfold republish_on. export_auto. Qed.

(** The tasks that export: any of these handlers, for any volume. *)
Inductive export_task : prog (Call J) App unit → Prop :=
  | task_publish nm : export_task (publish engine_token admin_credential nm ;! Ret tt)
  | task_recreate nm : export_task (recreate_export engine_token admin_credential nm ;! Ret tt)
  | task_serve nm h dh : export_task (serve_host engine_token admin_credential nm h dh ;! Ret tt)
  | task_withdraw nm h : export_task (withdraw_host engine_token admin_credential nm h ;! Ret tt)
  | task_revoke vol : export_task (revoke engine_token admin_credential vol ;! Ret tt)
  | task_clones p : export_task (publish_clones_of engine_token admin_credential p)
  | task_republish node : export_task (republish_on engine_token admin_credential node).

Lemma export_task_guar p : export_task p → G p.
Proof.
  intros []; repeat first [apply guar_bind; [|done]];
    eauto using publish_guar, recreate_export_guar, serve_host_guar, withdraw_host_guar, revoke_guar,
      publish_clones_guar, republish_on_guar.
Qed.

(** C29: any number of publishes, recreations, host changes, revocations and
    republishes, interleaved in any way and whatever the engines answer,
    change nothing of any volume but its export and the coordinates on its
    legs: every volume keeps its epoch, fence, head, array, legs and size,
    and no node, claim, orphan or former head changes. *)
Theorem exports_leave_core (s : App) (ps : list (prog (Call J) App unit)) (s' : App)
  (ps' : list (prog (Call J) App unit))
  (Hps : Forall export_task ps) (Hsteps : pool_steps (s, ps) (s', ps')) : export_step s s'.
Proof.
  assert (Forall (guar export_step) ps) as Hg by (eapply Forall_impl; [done|apply export_task_guar]).
  destruct (pool_guar export_step s ps s' ps' Hsteps Hg) as [Hr _].
  clear -Hr. induction Hr; [done|]. by etransitivity.
Qed.
End export_guarantee.

(** ** Witnesses *)

Lemma publish_record_spec_witness :
  let h := HostServe_new "nqn.a" true in
  let c := MkAttachedLeg "nqn.v" "10.0.0.1" 4420 1 None in
  let sv := MkServed "n1" (Some "v1") None false false true None {["nqn.a" := h]} in
  let prev := Export_default <| hosts := [h] |> in
  let ex := export_record prev sv (Ok (Some c)) 9 in
  served_wf (sv_hosts sv)
  ∧ (map hs_host_nqn (hosts ex) = map hs_host_nqn (hosts prev)
  ∧ (∀ i h h', hosts prev !! i = Some h → hosts ex !! i = Some h' → dhchap h = true → dhchap h' = true)
  ∧ withdrawing ex = withdrawing prev ∧ (per_host prev = true → per_host ex = true)
  ∧ ex_state ex = Published ∧ ex_coordinates ex = Some c ∧ gone ex = false
  ∧ (coordinates_changed ex = true ↔ ∃ c0, ex_coordinates prev = Some c0 ∧ c0 ≠ c)).
Proof.
  intros h c sv prev ex. assert (served_wf (sv_hosts sv)) as Hw.
  { intros k r. simpl. intros [<- <-]%lookup_singleton_Some. reflexivity. }
  split; [exact Hw|]. exact (publish_record_spec prev sv (Ok (Some c)) 9 Hw).
Defined.

(** One volume on one node, published while a host is added. *)
Section example.
#[local] Instance no_text : HttpShow := {| status_show := pretty; status_error _ _ := ""; decode_error := "" |}.
#[local] Instance no_volume : Deserialize Tree EngineVolume := λ _, None.
#[local] Instance no_slab : Deserialize Tree Slab := λ _, None.
#[local] Instance no_discovery : Deserialize Tree Discovery := λ _, None.
Definition example_node : Node :=
  {| config := MkNodeConfig "n1" "http://10.0.0.1:9000" None None None ∅ None;
     status := (NodeStatus_new Static) <| healthy := true |> |}.
Definition example_app : App :=
  App_new (FedState_default <| nodes := {["n1" := example_node]} |>
    <| volumes := {["db" := new_volume "db" 1024 None 1 "node" [new_leg "n1" (Some "v-n1") None] 0 [] None None]} |>)
    None.
Definition example_attach : Tree :=
  TObj [("transport", TStr "nvme_tcp"); ("nqn", TStr "nqn.v"); ("nsid", TNum 1);
        ("addresses", TArr [TObj [("traddr", TStr "10.0.0.1"); ("trsvcid", TNum 4420)]])].
Definition example_env (R : Type) (c : Call Tree R) (w : unit) : R * unit :=
  match c in Call _ R return R * unit with
  | Http _ _ _ _ _ => (Ok (200%Z, Some example_attach), w)
  | HttpText _ _ => (Err "no route", w)
  | Now => (7%Z, w)
  | PushToPeers | Persist | Sleep _ => (tt, w)
  end.
Definition example_tasks : list (handler Tree unit) :=
  [publish (λ _, None) (λ _, None) "db" ;! Ret tt;
   serve_host (λ _, None) (λ _, None) "db" "nqn.host" false ;! Ret tt].
Definition example_end : App * unit * list (handler Tree unit) :=
  sched example_env [0; 1; 0; 0; 0; 0; 0; 1; 0; 0; 0; 0; 0; 0]%nat (example_app, tt, example_tasks).

Lemma exports_leave_core_witness :
  (ex_state ∘ export <$> volumes (fed example_end.1.1) !! "db") = Some Published
  ∧ export_step example_app example_end.1.1.
Proof.
  split; [vm_compute; reflexivity|].
  apply (exports_leave_core (λ _, None) (λ _, None) example_app example_tasks example_end.1.1 example_end.2).
  - repeat constructor.
  - apply (sched_sound example_env).
Defined.
End example.
