(* ===== verification/Replace.v ===== *)
(** * Legs: assembling, moving and tearing down (src/orchestrate.rs)

    Building the RAID1 of a volume on its head (or adopting the array
    already there), replacing a leg by a new one and retiring the old, and
    taking an array down. [wait_member_active] is a loop that ends only when
    the engine's answers or the clock let it; its rounds are counted by a
    fuel argument. *)

From S2P Require Import Prelude F64 Config Model Placement Events Refusal Async Json Inventory Sync.
From S2P Require Import Recovery App Engine Publish.
From stdpp Require Import options.

Local Open Scope string_scope.

Section replace.
Context {J : Type} `{Json J} `{HttpShow}.
Context `{Deserialize J EngineVolume} `{Deserialize J Slab} `{Deserialize J Discovery}.
Context (cfg : Config) (engine_token : NodeConfig → option string) (admin_credential : string → option string).
Abbreviation engine_for := (engine_for engine_token admin_credential).
Abbreviation engine_of := (engine_of engine_token admin_credential).
Abbreviation call A := (handler J (result A EngineError)).

Definition host_for (node : string) : string := host_nqn_for (legs_host_nqn cfg) node.
Definition class_rate (c : BandwidthClass) : Z := rate (recovery cfg) c.

(** ** Waiting for a rebuild *)

(** The member as the head reports it: its state in lower case and what it
    has rebuilt. *)
Definition member_progress (member_uuid : string) (arr : J) : option (string * option Z) :=
  m ← (get_array "members" arr ≫= find_first (λ m, get_str "uuid" m == Some member_uuid));
  st ← get_str "state" m;
  Some (lowercase st, get_u64 "rebuilt_bytes" m).

(** [(stall / 4).clamp(100ms, 3s)]. *)
Definition stall_tick (stall : Z) : Z := Z.min (Z.max (stall / 4) (10 ^ 8)) (secs 3).

(** What one round concludes from the head's answer. *)
Inductive Waiting := Settled (ok : bool) | Waits (deadline : time) (seen : option (string * option Z)).
Definition wait_reading (now stall : Z) (deadline : time) (seen found : option (string * option Z)) : Waiting :=
  match found with
  | Some (st, rebuilt) =>
      if st == "active" then Settled true
      else if st == "failed" then Settled false
      else if seen != found then Waits (now + stall) found
      else Waits deadline seen
  | None => Waits deadline seen
  end.

(** [None]: the rounds ran out first. *)
Fixpoint wait_rounds (fuel : nat) (nm : string) (e : Engine) (aid member : string) (stall : Z)
    (deadline last_put : time) (seen : option (string * option Z)) : handler J (option bool) :=
  match fuel with
  | O => Ret None
  | S fuel =>
      let! arr := get_array_call e aid in
      let! now := invoke Now in
      let found := match arr with Ok v => member_progress member v | Err _ => None end in
      match wait_reading now stall deadline seen found with
      | Settled ok => Ret (Some ok)
      | Waits deadline seen =>
          let! now := invoke Now in
          if (deadline <? now)%Z then Ret (Some false)
          else
            let! last_put :=
              (if (secs 60 <=? now - last_put)%Z then
                 let! class := reads (λ s, fmap (M:=option) bandwidth_class (volumes (fed s) !! nm)) in
                 (match class with
                  | Some c => set_rebuild_rate e aid (class_rate c) ;! Ret tt
                  | None => Ret tt
                  end) ;!
                 invoke Now
               else Ret last_put) in
            invoke (Sleep (stall_tick stall)) ;!
            wait_rounds fuel nm e aid member stall deadline last_put seen
      end
  end.
Definition wait_member_active (fuel : nat) (nm : string) (e : Engine) (aid member : string) (stall : Z)
    : handler J (option bool) :=
  let! now := invoke Now in
  wait_rounds fuel nm e aid member stall (now + stall) now None.

(** ** Replacing a leg *)

Definition replacement_leg (target vid : string) (master : option string) : Leg :=
  {| leg_node := target; leg_volume_id := Some vid; leg_state := Created;
     leg_message := Some "rebuilding"; leg_master_node := Some (master_or_local master);
     leg_export := None; leg_drive_uuid := None; leg_member_uuid := None; leg_epoch := None |}.

(** Every check and choice a replacement makes before an engine is called. *)
Definition replacement_target (fed : FedState) (nm from : string) (to : option string)
    : result (DistVolume * string * string * Engine * Engine) EngineError :=
  let? vol := ok_or (volumes fed !! nm) (anyhow ("volume " +:+ debug_str nm +:+ " not found")) in
  if negb (mirrored (assembly vol)) then
    Err (anyhow (nm +:+ ": not assembled — only assembled volumes move legs"))
  else if is_some (replacing vol) then Err (anyhow (nm +:+ ": a leg replacement is already in progress"))
  else if negb (existsb (λ l, leg_node l == from) (legs vol)) then
    Err (anyhow (nm +:+ ": no leg on " +:+ debug_str from))
  else
    let? h := ok_or (head vol) (anyhow (nm +:+ ": no head")) in
    if negb (node_healthy fed h) then
      Err (anyhow (nm +:+ ": head " +:+ h +:+ " is unreachable — the array lives there; promote a surviving leg's node first (fence, then promote)"))
    else
      let? target := match to with
        | Some t =>
            let? n := ok_or (nodes fed !! t) (anyhow ("target node " +:+ debug_str t +:+ " not in registry")) in
            if negb (healthy (status n)) then Err (anyhow ("target node " +:+ debug_str t +:+ " is unhealthy"))
            else if existsb (λ l, leg_node l == t) (legs vol) then
              Err (anyhow ("target node " +:+ debug_str t +:+ " already carries a leg"))
            else Ok t
        | None =>
            let cands := move_target_candidates fed (rungs cfg) vol from in
            let? picks := map_err (λ e, anyhow ("no target: " +:+ e))
              (plan cands (rungs cfg) (rung vol) 1 (leg_bytes vol) (io_weight cfg)) in
            ok_or (picks !! 0%nat) (anyhow "no target")
        end in
      let? te := engine_of fed target in
      let? he := engine_of fed h in
      Ok (vol, h, target, te, he).

(** Export the new leg to the head, open it there and add it to the array;
    the leg with what was done of that. *)
Definition wire_leg (vol : DistVolume) (h aid : string) (te he : Engine) (leg : Leg)
    : handler J (Leg * result unit EngineError) :=
  let vid := unwrap_or "" (leg_volume_id leg) in
  let! att := attach_leg te vid (master_or_local (leg_master_node leg)) None (Some (host_for h)) in
  match att with
  | Err e => Ret (leg, Err (anyhow (leg_node leg +:+ ": attach: " +:+ err_text e)))
  | Ok att =>
      let leg := leg <| leg_export := Some att |> in
      let! drive := add_drive_idempotent he (drive_uri att) in
      match drive with
      | Err e => Ret (leg, Err (anyhow (h +:+ ": open leg drive: " +:+ err_text e)))
      | Ok drive =>
          let leg := leg <| leg_drive_uuid := Some drive |> in
          set_rebuild_rate he aid (class_rate (bandwidth_class vol)) ;!
          let! member := array_add_member he aid drive in
          match member with
          | Err e => Ret (leg, Err (anyhow (h +:+ ": add member: " +:+ err_text e)))
          | Ok m => Ret (leg <| leg_member_uuid := Some m |>, Ok tt)
          end
      end
  end.

Definition undo_leg (he : Engine) (aid : string) (te : Engine) (leg : Leg) : handler J unit :=
  (match leg_member_uuid leg with Some m => array_remove_member he aid m ;! Ret tt | None => Ret tt end) ;!
  (match leg_export leg with Some x => delete_drive he (drive_uri x) true ;! Ret tt | None => Ret tt end) ;!
  match leg_volume_id leg, leg_master_node leg with
  | Some vid, Some master =>
      (if is_some (leg_export leg) then detach_volume te vid master ;! Ret tt else Ret tt) ;!
      delete_volume te vid ;! Ret tt
  | _, _ => Ret tt
  end.

(** The replacement goes on the record, if the volume is still there. *)
Definition record_replacing (nm : string) (rep : Replacement) (s : App) : App * bool :=
  match volumes (fed s) !! nm with
  | None => (s, false)
  | Some _ =>
      (s <| fed ::= λ fd, bump (update_volume fd nm (λ v, v <| replacing := Some rep |>)) |>, true)
  end.

Definition build_replacement (nm from : string) (to : option string) (reason : string) : call string :=
  let!? (vol, h, target, te, he) := reads (λ s, replacement_target (fed s) nm from to) in
  match array_id vol with
  | None => Ret (Err (anyhow (nm +:+ ": no array id")))
  | Some aid =>
      let! created := create_volume te (name vol) (leg_bytes vol) (extent_size_bytes vol) in
      match (let? c := map_err (λ e, anyhow (target +:+ ": create leg: " +:+ err_text e)) created in
             let? vid := ok_or (get_str "id" c) (anyhow (target +:+ ": create returned no id")) in
             Ok (replacement_leg target vid (master_node_of c))) with
      | Err e => Ret (Err e)
      | Ok leg =>
          let! (leg, wired) := wire_leg vol h aid te he leg in
          match wired with
          | Err e => undo_leg he aid te leg ;! Ret (Err e)
          | Ok _ =>
              let! now := invoke Now in
              let! recorded := atomic (record_replacing nm
                {| rep_from := from; rep_leg := leg; rep_reason := reason; rep_started_at := now |}) in
              if negb recorded then
                undo_leg he aid te leg ;!
                Ret (Err (anyhow (nm +:+ ": deleted while its new leg was being built")))
              else
                publish_change ;!
                event nm Info (nm +:+ ": replacing leg " +:+ from +:+ " → " +:+ target +:+ " (" +:+ reason
                               +:+ "); rebuild started on " +:+ h) ;!
                Ret (Ok target)
          end
      end
  end.

(** What a resumed or new wait needs of the record. *)
Definition finish_reading (nm : string) (s : App) : option (Replacement * Engine * Engine * string * string) :=
  vol ← volumes (fed s) !! nm;
  rep ← replacing vol;
  h ← head vol;
  aid ← array_id vol;
  match engine_of (fed s) h, engine_of (fed s) (leg_node (rep_leg rep)) with
  | Ok he, Ok te => Some (rep, he, te, aid, h)
  | _, _ => None
  end.

(** The new leg did not rebuild: the old one is kept, for a while. *)
Definition replacement_failed (now : time) (v : DistVolume) : DistVolume :=
  v <| replacing := None |> <| next_releg_after := Some (now + secs (cooldown_secs (recovery cfg)))%Z |>.

(** The new leg takes the old one's place. *)
Definition replacement_done (from : string) (leg : Leg) (v : DistVolume) : DistVolume :=
  let nl := leg <| leg_message := None |> in
  let ls := if existsb (λ l, leg_node l == from) (legs v)
            then update_first (λ l, leg_node l == from) (λ _, nl) (legs v)
            else (legs v ++ [nl])%list in
  v <| legs := ls |> <| replacing := None |> <| next_releg_after := None |>
    <| assembly := if existsb (λ l, leg_state l == Lost) ls then Degraded else Assembled |>.

(** Retire the old leg on the head and its node: what could not be done,
    and whether its volume is left behind. *)
Definition retire_leg (he : Engine) (aid from : string) (old : Leg) : handler J (list string * bool) :=
  let! n1 := (match leg_member_uuid old with
    | Some m => let! r := array_remove_member he aid m in
                Ret (match r with Ok _ => [] | Err e => ["remove member: " +:+ err_text e] end)
    | None => Ret [] end) in
  let! n2 := (match leg_export old with
    | Some x => let! r := delete_drive he (drive_uri x) true in
                Ret (match r with Ok _ => [] | Err e => ["head drive: " +:+ err_text e] end)
    | None => Ret [] end) in
  match leg_volume_id old with
  | None => Ret ((n1 ++ n2)%list, false)
  | Some vid =>
      let! e := reads (λ s, healthy_engine engine_token admin_credential (fed s) from) in
      match e with
      | None => Ret ((n1 ++ n2 ++ [from +:+ " unreachable — leg volume left to reap"])%list, true)
      | Some e =>
          detach_volume e vid (master_or_local (leg_master_node old)) ;!
          let! r := delete_volume e vid in
          Ret (match r with
               | Ok _ => ((n1 ++ n2)%list, false)
               | Err x => ((n1 ++ n2 ++ [from +:+ " delete volume: " +:+ err_text x])%list, true)
               end)
      end
  end.

Definition record_finished (nm from : string) (rep : Replacement) (orphan : option Orphan) (s : App) : App :=
  s <| fed ::= λ fd, bump (update_volume
         (fd <| orphans ::= λ l, match orphan with Some o => (l ++ [o])%list | None => l end |>)
         nm (replacement_done from (rep_leg rep))) |>.

Definition leg_on (nm from : string) (s : App) : option Leg :=
  v ← volumes (fed s) !! nm; find_first (λ l, leg_node l == from) (legs v).

(** [None]: the wait ran out of rounds. *)
Definition finish_inner (fuel : nat) (nm : string) : handler J (option unit) :=
  let! ready := reads (finish_reading nm) in
  match ready with
  | None => Ret (Some tt)
  | Some (rep, he, te, aid, h) =>
      let stall := secs (Z.max (rebuild_timeout_secs (recovery cfg)) 1) in
      let! ok := wait_member_active fuel nm he aid (unwrap_or "" (leg_member_uuid (rep_leg rep))) stall in
      let from := rep_from rep in
      let to := leg_node (rep_leg rep) in
      match ok with
      | None => Ret None
      | Some false =>
          undo_leg he aid te (rep_leg rep) ;!
          let! now := invoke Now in
          change_volume nm (replacement_failed now) ;!
          publish_change ;!
          event nm Error (nm +:+ ": new leg on " +:+ to +:+ " did not rebuild on " +:+ h +:+ " — undone, leg on "
                          +:+ from +:+ " kept (" +:+ rep_reason rep +:+ ")") ;!
          Ret (Some tt)
      | Some true =>
          let! old := reads (leg_on nm from) in
          let! (notes, left_) := (match old with Some o => retire_leg he aid from o | None => Ret ([], false) end) in
          let! now := invoke Now in
          let orphan := o ← old; vid ← leg_volume_id o;
            if left_ then Some {| orphan_node := from; orphan_volume_id := vid;
                                  orphan_master_node := leg_master_node o; of_volume := nm;
                                  orphan_reason := rep_reason rep; orphan_since := now |} else None in
          writes (record_finished nm from rep orphan) ;!
          publish_change ;!
          (match notes with
           | [] => event nm Info (nm +:+ ": leg " +:+ from +:+ " → " +:+ to +:+ " complete (" +:+ rep_reason rep +:+ ")")
           | _ => event nm Warning (nm +:+ ": leg " +:+ from +:+ " → " +:+ to +:+ " complete (" +:+ rep_reason rep
                                    +:+ "); cleanup pending: " +:+ join "; " notes)
           end) ;!
          Ret (Some tt)
      end
  end.
Definition finish_replacement (fuel : nat) (nm : string) : handler J unit :=
  let! out := finish_inner fuel nm in
  match out with
  | Some _ => release nm
  | None => Ret tt
  end.

Definition start_replacement (fuel : nat) (nm from : string) (to : option string) (reason : string) : call string :=
  let! claimed := claim nm in
  if negb claimed then Ret (Err (anyhow (nm +:+ ": a leg replacement is already in progress")))
  else
    let! r := build_replacement nm from to reason in
    match r with
    | Ok target => spawn (finish_replacement fuel nm) ;! Ret (Ok target)
    | Err e => release nm ;! Ret (Err e)
    end.

Definition move_leg (fuel : nat) (nm from : string) (to : option string) : call string :=
  start_replacement fuel nm from to "operator move".

(** ** Assembling *)

(** An export made for this head, or with no host named, is kept. *)
Definition export_kept (head : string) (l : Leg) : bool :=
  is_some_and (λ x, map_or true (λ h, h == host_for head) (host_nqn x)) (leg_export l).
Definition export_leg (engines : gmap string Engine) (head : string) (l : Leg)
    : handler J (Leg * result unit EngineError) :=
  if export_kept head l then Ret (l, Ok tt)
  else match engines !! leg_node l with
  | None => Ret (l, Err (anyhow "leg engine"))
  | Some e =>
      let! r := attach_leg e (unwrap_or "" (leg_volume_id l)) (master_or_local (leg_master_node l))
                  (leg_epoch l) (Some (host_for head)) in
      Ret (match r with
           | Ok att => (l <| leg_export := Some att |>, Ok tt)
           | Err x => (l, Err (anyhow (leg_node l +:+ ": attach: " +:+ err_text x)))
           end)
  end.
Definition leg_uri (l : Leg) : string := map_or "" drive_uri (leg_export l).
Definition open_leg (head : string) (he : Engine) (l : Leg) : handler J (Leg * result string EngineError) :=
  let! r := add_drive_idempotent he (leg_uri l) in
  Ret (match r with
       | Ok u => (l <| leg_drive_uuid := Some u |>, Ok u)
       | Err x => (l, Err (anyhow (head +:+ ": open " +:+ leg_uri l +:+ ": " +:+ err_text x)))
       end).

(** The array an assemble made, when the create was refused: the one array
    of the report, over exactly these legs. *)
Definition assembled_array (vol : DistVolume) (head : string) (he : Engine) (drives uris : list string)
    (refused : EngineError) : call J :=
  let! report := assemble_arrays he drives in
  match report with
  | Err e => Ret (Err (anyhow (head +:+ ": assemble after create refused: " +:+ err_text e)))
  | Ok report =>
      match map_or [] (omap (get_str "id")) (get_array "arrays" report) with
      | [id] =>
          let! arr := get_array_call he id in
          match arr with
          | Err e => Ret (Err (anyhow (head +:+ ": read assembled array " +:+ id +:+ ": " +:+ err_text e)))
          | Ok arr =>
              match match_array [arr] uris with
              | Exact _ =>
                  event (name vol) Info (name vol +:+ ": legs already carried array " +:+ id +:+ "; reassembled it on "
                                         +:+ head +:+ " (#43)") ;!
                  Ret (Ok arr)
              | _ => Ret (Err (anyhow (head +:+ ": array " +:+ id +:+ " assembled from these legs has other members too; not adopting it")))
              end
          end
      | ids => Ret (Err (anyhow (head +:+ ": create refused (" +:+ err_text refused +:+ ") and the legs assembled into "
                 +:+ pretty (Z.of_nat (length ids)) +:+ " arrays, not one: "
                 +:+ j_show (unwrap_or j_null (j_get "refused" report)))))
      end
  end.

(** The array over the legs: adopted, created, or put back together. *)
Definition find_or_create (vol : DistVolume) (head : string) (he : Engine) (drives uris : list string) : call J :=
  let! existing := list_arrays he in
  match existing with
  | Err e => Ret (Err (anyhow (head +:+ ": list arrays: " +:+ err_text e)))
  | Ok existing =>
      match match_array existing uris with
      | Exact arr =>
          event (name vol) Info (name vol +:+ ": adopted array " +:+ unwrap_or "?" (get_str "id" arr) +:+ " on " +:+ head
                                 +:+ ", already built over these legs") ;!
          Ret (Ok arr)
      | MatchConflict array uri =>
          Ret (Err (anyhow (head +:+ ": " +:+ uri +:+ " is already a member of array " +:+ array
                            +:+ ", which is not this volume's; not building a second array over it")))
      | NoMatch =>
          let! created := create_raid1 he drives in
          match created with
          | Ok arr => Ret (Ok arr)
          | Err e =>
              if status_of e == Some 409%Z then assembled_array vol head he drives uris e
              else Ret (Err (anyhow (head +:+ ": create raid1: " +:+ err_text e)))
          end
      end
  end.

(** Members are matched to legs by drive path, else by position. *)
Definition note_member (uris : list string) (ls : list Leg) (im : nat * J) : list Leg :=
  let '(i, m) := im in
  match get_str "uuid" m with
  | None => ls
  | Some u =>
      let by_path := (get_str "device_path" m) ≫= (λ p, fst <$> list_find (λ u, u = p) uris) in
      alter (λ l, l <| leg_member_uuid := Some u |>) (unwrap_or i by_path) ls
  end.
Definition note_members (uris : list string) (arr : J) (ls : list Leg) : list Leg :=
  foldl (note_member uris) ls (imap pair (unwrap_or [] (get_array "members" arr))).

Definition assemble_inner (vol : DistVolume) (engines : gmap string Engine) (head_ : string) (he : Engine)
    : handler J (DistVolume * result unit EngineError) :=
  let! (ls, r) := walk (export_leg engines head_) (legs vol) in
  let vol := vol <| legs := ls |> in
  match r with
  | Err e => Ret (vol, Err e)
  | Ok _ =>
      let! (ls, r) := walk (open_leg head_ he) (legs vol) in
      let vol := vol <| legs := ls |> in
      match r with
      | Err e => Ret (vol, Err e)
      | Ok drives =>
          let uris := map leg_uri ls in
          let! arr := find_or_create vol head_ he drives uris in
          match arr with
          | Err e => Ret (vol, Err e)
          | Ok arr =>
              match get_str "id" arr with
              | None => Ret (vol, Err (anyhow (head_ +:+ ": array response without id: " +:+ j_show arr)))
              | Some aid =>
                  let vol := vol <| legs ::= note_members uris arr |> <| head := Some head_ |>
                                 <| array_id := Some aid |> <| assembly := Assembled |> in
                  set_rebuild_rate he aid (class_rate (bandwidth_class vol)) ;!
                  event (name vol) Info (name vol +:+ ": RAID1 " +:+ aid +:+ " on " +:+ head_ +:+ ", "
                    +:+ pretty (Z.of_nat (length (legs vol))) +:+ " legs [" +:+ join ", " (map leg_node (legs vol)) +:+ "]") ;!
                  Ret (vol, Ok tt)
              end
          end
      end
  end.

(** The engines of all legs' nodes, reachable or not. *)
Fixpoint all_engines (fed : FedState) (ls : list Leg) (m : gmap string Engine) : result (gmap string Engine) EngineError :=
  match ls with
  | [] => Ok m
  | l :: ls => let? e := engine_of fed (leg_node l) in all_engines fed ls (<[leg_node l := e]> m)
  end.

Definition assemble_reading (nm : string) (fed : FedState)
    : result (DistVolume * gmap string Engine * string * Engine) EngineError :=
  let? vol := ok_or (volumes fed !! nm) (anyhow ("volume " +:+ debug_str nm +:+ " not found")) in
  if (length (legs vol) <? 2)%nat then Err (anyhow (nm +:+ ": single leg — nothing to assemble"))
  else if existsb (λ l, (leg_state l != Created) || is_none (leg_volume_id l)) (legs vol) then
    Err (anyhow (nm +:+ ": not every leg is created"))
  else
    let? engines := all_engines fed (legs vol) ∅ in
    let h := map_or "" leg_node (legs vol !! 0%nat) in
    let? he := engine_of fed h in
    Ok (vol, engines, h, he).

Definition assemble_claimed (nm : string) : call unit :=
  let!? (vol, engines, h, he) := reads (λ s, assemble_reading nm (fed s)) in
  let! (vol, r) := assemble_inner vol engines h he in
  let! now := invoke Now in
  let ok := is_ok r in
  let vol := vol <| next_assemble_after :=
    if ok then None else Some (now + secs (cooldown_secs (recovery cfg)))%Z |> in
  writes (λ s, s <| fed ::= λ fd,
    let fd := fd <| volumes ::= <[nm := vol]> |> in if ok then bump fd else fd |>) ;!
  (if ok then invoke PushToPeers else Ret tt) ;!
  invoke Persist ;!
  Ret r.

Definition assemble (nm : string) : call unit :=
  let! claimed := claim nm in
  if negb claimed then Ret (Err (anyhow (nm +:+ ": busy — an assembly or leg move is in flight")))
  else
    let! r := assemble_claimed nm in
    release nm ;! Ret r.

Definition after_assembly_retry (nm : string) (r : result unit EngineError) : handler J unit :=
  match r with
  | Ok _ => publish engine_token admin_credential nm ;! Ret tt
  | Err e =>
      event nm Error (nm +:+ ": assembly retry failed, next in " +:+ pretty (cooldown_secs (recovery cfg))
        +:+ "s (or POST /api/v1/volumes/" +:+ nm +:+ "/assemble): " +:+ err_text e)
  end.

(** ** Taking an array down *)

Definition close_leg_drive (he : Engine) (errors : list string) (l : Leg) : handler J (list string) :=
  match leg_export l with
  | None => Ret errors
  | Some x =>
      let! r := delete_drive he (drive_uri x) true in
      Ret (match r with Ok _ => errors | Err e => (errors ++ ["head drive " +:+ drive_uri x +:+ ": " +:+ err_text e])%list end)
  end.
Definition detach_leg (fed : FedState) (errors : list string) (l : Leg) : handler J (list string) :=
  match leg_volume_id l, leg_export l, healthy_engine engine_token admin_credential fed (leg_node l) with
  | Some vid, Some _, Some e =>
      let! r := detach_volume e vid (master_or_local (leg_master_node l)) in
      Ret (match r with Ok _ => errors | Err x => (errors ++ [leg_node l +:+ " detach: " +:+ err_text x])%list end)
  | _, _, _ => Ret errors
  end.
Definition teardown (vol : DistVolume) : handler J (list string) :=
  let! fd := reads fed in
  let he := (head vol ≫= (λ h, nodes fd !! h)) ≫= (λ n, Some (engine_for n)) in
  let! errors := (match he, array_id vol with
    | Some he, Some aid =>
        let! r := delete_array he aid in
        let errors := match r with Ok _ => [] | Err e => ["array " +:+ aid +:+ ": " +:+ err_text e] end in
        for_fold (close_leg_drive he) errors (all_legs vol)
    | _, _ => Ret [] end) in
  for_fold (detach_leg fd) errors (all_legs vol).

(** ** Orphaned legs *)

Definition orphans_due (fd : FedState) : list (Orphan * Engine) :=
  omap (λ o, e ← healthy_engine engine_token admin_credential fd (orphan_node o); Some (o, e)) (orphans fd).
Definition reap_orphan (o : Orphan) (e : Engine) : handler J unit :=
  detach_volume e (orphan_volume_id o) (master_or_local (orphan_master_node o)) ;!
  let! r := delete_volume e (orphan_volume_id o) in
  match r with
  | Err _ => Ret tt
  | Ok _ =>
      writes (λ s, s <| fed ::= λ fd, bump (fd <| orphans ::= List.filter (λ x,
        negb ((orphan_node x == orphan_node o) && (orphan_volume_id x == orphan_volume_id o))) |>) |>) ;!
      publish_change ;!
      event (of_volume o) Info (of_volume o +:+ ": reaped orphaned leg " +:+ orphan_volume_id o +:+ " on "
        +:+ orphan_node o +:+ " (left by " +:+ orphan_reason o +:+ ")")
  end.
Definition reap_orphans : handler J unit :=
  let! due := reads (λ s, orphans_due (fed s)) in
  for_each (λ '(o, e), reap_orphan o e) due.
End replace.
