(* ===== verification/Head.v ===== *)
(** * Fencing, promoting and windows (src/head.rs, the handlers)

    The calls that move a volume's head or bound who may write to it: the
    fence (compare-and-swap on the epoch, then on every leg's engine), the
    promote of another node to head, the reassembly on the same head, the
    dual-attach window, the resync rate, the sweep over former heads, and
    the poll's reading of the arrays. *)

From S2P Require Import Prelude F64 Config Model Placement Events Refusal Async Json Inventory Sync.
From S2P Require Import Recovery App Engine Publish Replace.
From stdpp Require Import options.

Local Open Scope string_scope.

(** What a fence did. *)
Record Fenced := MkFenced {
  f_epoch : Z;
  f_legs : list (string * Z);
  not_fenced : list (string * string);
}.
#[export] Instance Fenced_eta : Eta Fenced := λ r, MkFenced (f_epoch r) (f_legs r) (not_fenced r).

Inductive Reassembled := Present | Unread | Done (legs : Z) (served : bool).

Record RateApplied := MkRateApplied {
  bytes_per_sec : Z;
  applied : bool;
  pending : bool;
  ra_message : option string;
}.

Inductive Outcome := Commit | Abort_.

Definition class_name (c : BandwidthClass) : string :=
  match c with Low => "low" | Normal => "normal" | High => "high" | Unthrottled => "unthrottled" end.

Definition RELEASE_ISSUE : Z := 296.

Section head.
Context {J : Type} `{Json J} `{HttpShow}.
Context `{Deserialize J EngineVolume} `{Deserialize J Slab} `{Deserialize J Discovery}.
Context (cfg : Config) (engine_token : NodeConfig → option string) (admin_credential : string → option string).
Abbreviation engine_for := (engine_for engine_token admin_credential).
Abbreviation healthy_engine := (healthy_engine engine_token admin_credential).
Abbreviation call A := (handler J (result A Sync.Refusal)).

Definition event := event_of (J:=J) "replication".
Definition not_found (nm : string) : Sync.Refusal := NotFound ("volume " +:+ debug_str nm).
Definition view_of (nm : string) : handler J (option View) :=
  reads (λ s, fmap (M:=option) (λ v, view v (heads s !! nm)) (volumes (fed s) !! nm)).

(** ** Fence *)

Definition fence_legs (fd : FedState) (vol : DistVolume) : list (string * string * option Engine) :=
  map (λ '(node, vid), (node, vid, healthy_engine fd node))
    (omap (λ l, vid ← leg_volume_id l; Some (leg_node l, vid))
      (List.filter (λ l, leg_state l == Created) (legs vol))).

(** The lock section of a fence. *)
Definition fence_record (nm : string) (expected : Z) (s : App)
    : App * result (Z * list (string * string * option Engine)) Sync.Refusal :=
  match volumes (fed s) !! nm with
  | None => (s, Err (not_found nm))
  | Some vol =>
      match apply_fence vol expected with
      | Err r => (s, Err r)
      | Ok (vol', e) =>
          (s <| fed ::= λ fd, bump (fd <| volumes ::= <[nm := vol']> |>) |>, Ok (e, fence_legs (fed s) vol'))
      end
  end.

Definition fence_one (out : Fenced) (leg : string * string * option Engine) : handler J Fenced :=
  let '(node, vid, e) := leg in
  match e with
  | None => Ret (out <| not_fenced ::= λ l, (l ++ [(node, "unreachable")])%list |>)
  | Some e =>
      let! r := fence_leg e vid in
      Ret (match r with
           | Ok le => out <| f_legs ::= λ l, (l ++ [(node, le)])%list |>
           | Err x => out <| not_fenced ::= λ l, (l ++ [(node, err_text x)])%list |>
           end)
  end.

(** The legs' new epochs go on the record. *)
Definition note_leg_epochs (ls : list (string * Z)) (v : DistVolume) : DistVolume :=
  v <| legs ::= λ l0, foldl (λ ls' '(node, le),
    update_first (λ l, leg_node l == node) (λ l, l <| leg_epoch := Some le |>) ls') l0 ls |>.

Definition fence_message (nm : string) (out : Fenced) : string :=
  nm +:+ ": fenced at epoch " +:+ pretty (f_epoch out) +:+ "; legs fenced ["
  +:+ join ", " (map fst (f_legs out)) +:+ "]"
  +:+ match not_fenced out with
      | [] => ""
      | l => "; not fenced: " +:+ join "; " (map (λ '(n, e), n +:+ " (" +:+ e +:+ ")") l)
      end.

Definition fence (nm : string) (expected : Z) : call Fenced :=
  let!? (e, ls) := atomic (fence_record nm expected) in
  publish_change ;!
  let! out := for_fold fence_one (MkFenced e [] []) ls in
  change_volume nm (note_leg_epochs (f_legs out)) ;!
  publish_change ;!
  event nm (match not_fenced out with [] => Info | _ => Warning end) (fence_message nm out) ;!
  Ret (Ok out).

(** ** The array on another head *)

Definition open_leg_on (engines : gmap string Engine) (target : string) (te : Engine)
    (acc : DistVolume * list string) (i : nat) : call (DistVolume * list string) :=
  let '(vol, uuids) := acc in
  match legs vol !! i with
  | None => Ret (Ok acc)
  | Some leg =>
      match engines !! leg_node leg, leg_volume_id leg with
      | None, _ => Ret (Err (Upstream (leg_node leg +:+ ": unreachable")))
      | Some _, None => Ret (Err (Conflict (leg_node leg +:+ ": leg has no volume")))
      | Some e, Some vid =>
          let! att := attach_leg e vid (master_or_local (leg_master_node leg)) (leg_epoch leg)
                        (Some (host_for cfg target)) in
          match att with
          | Err x => Ret (Err (Upstream (leg_node leg +:+ ": attach leg: " +:+ err_text x)))
          | Ok att =>
              let! uuid := add_drive_idempotent te (drive_uri att) in
              match uuid with
              | Err x => Ret (Err (Upstream (target +:+ ": open " +:+ drive_uri att +:+ ": " +:+ err_text x)))
              | Ok u =>
                  let leg' := leg <| leg_export := Some att |> <| leg_drive_uuid := Some u |> in
                  Ret (Ok (vol <| legs ::= <[i := leg']> |>, (uuids ++ [u])%list))
              end
          end
      end
  end.

(** A member of the array, as this head numbers it. *)
Definition note_member_of (r : ArrayReading) (ls : list Leg) (i : nat) : list Leg :=
  alter (λ l, match find_first (λ m, Some (device_path m) == (drive_uri <$> leg_export l)) (members r) with
              | Some m => l <| leg_member_uuid := Some (mr_uuid m) |>
              | None => l
              end) i ls.

Definition assemble_on (vol : DistVolume) (idxs : list nat) (target : string) (te : Engine)
    (engines : gmap string Engine) : call (DistVolume * option string) :=
  match array_id vol with
  | None => Ret (Err (Conflict (name vol +:+ ": no array id")))
  | Some aid =>
      let!? (vol, uuids) := for_try (open_leg_on engines target te) (vol, []) idxs in
      let! report := assemble_arrays te uuids in
      match report with
      | Err e => Ret (Err (Upstream (target +:+ ": assemble: " +:+ err_text e)))
      | Ok report =>
          if negb (is_some_and (existsb (λ x, is_some_and (λ i, eq_ignore_ascii_case i aid) (get_str "id" x)))
                     (get_array "arrays" report)) then
            Ret (Err (Upstream (target +:+ ": the legs did not assemble into array " +:+ aid +:+ ": "
                                +:+ j_show (unwrap_or j_null (j_get "refused" report)))))
          else
            let! arr := get_array_call te aid in
            let! vol := (match arr with
              | Ok a =>
                  let! now := invoke Now in
                  let r := parse_array now target aid a in
                  Ret (vol <| legs ::= λ ls, foldl (note_member_of r) ls idxs |>)
              | Err _ => Ret vol
              end) in
            set_rebuild_rate te aid (class_rate cfg (bandwidth_class vol)) ;!
            let! vs := list_engine_volumes te in
            Ret (Ok (vol, match vs with
                          | Ok vs => ev_id <$> find_first (λ v, ev_name v == (name vol +:+ MIRROR_SUFFIX)) vs
                          | Err _ => None
                          end))
      end
  end.

Fixpoint reattach_loop (engines : gmap string Engine) (h : string) (ls : list Leg) : handler J (list Leg) :=
  match ls with
  | [] => Ret []
  | l :: ls =>
      let! l := (match (if leg_state l == Created then engines !! leg_node l else None), leg_volume_id l with
        | Some e, Some vid =>
            let! att := attach_leg e vid (master_or_local (leg_master_node l)) (leg_epoch l) (Some (host_for cfg h)) in
            Ret (match att with Ok a => l <| leg_export := Some a |> | Err _ => l end)
        | _, _ => Ret l
        end) in
      let! ls := reattach_loop engines h ls in
      Ret (l :: ls)
  end.
Definition reattach_legs (vol : DistVolume) (engines : gmap string Engine) (h : string) : handler J DistVolume :=
  let! ls := reattach_loop engines h (legs vol) in Ret (vol <| legs := ls |>).

Definition store (vol : DistVolume) : handler J unit :=
  writes (λ s, s <| fed ::= λ fd, bump (fd <| volumes ::= <[name vol := vol]> |>) |>) ;! publish_change.

(** ** Promote *)

Definition all_created (ls : list Leg) : AssemblyState :=
  if forallb (λ l, leg_state l == Created) ls then Assembled else Degraded.

Definition promote_reading (nm target : string) (fenced_epoch : Z) (fd : FedState)
    : result (DistVolume * option string * bool * gmap string Engine) Sync.Refusal :=
  let? vol := ok_or (volumes fd !! nm) (not_found nm) in
  let? old := check_promote vol target fenced_epoch (node_healthy fd target) in
  Ok (vol, old, map_or false (node_healthy fd) old, leg_engines engine_token admin_credential fd vol).

Definition surviving_legs (vol : DistVolume) (engines : gmap string Engine) : list nat :=
  List.filter (λ i, match legs vol !! i with
                    | Some l => (leg_state l == Created) && is_some (engines !! leg_node l)
                    | None => false
                    end) (List.seq 0 (length (legs vol))).

Definition lose_unreachable (engines : gmap string Engine) (l : Leg) : Leg :=
  if (leg_state l == Created) && negb (is_some (engines !! leg_node l))
  then l <| leg_state := Lost |> <| leg_message := Some ("node " +:+ leg_node l +:+ " unreachable at promote") |>
  else l.

(** The record after a promote, from the volume as [assemble_on] left it. *)
Definition promoted (vol : DistVolume) (target : string) (engines : gmap string Engine) (served : option string)
    : DistVolume :=
  let ls := map (lose_unreachable engines) (legs vol) in
  vol <| legs := ls |> <| head := Some target |> <| fenced := false |> <| assembly := all_created ls |>
      <| export ::= λ ex,
           {| ex_state := ex_state ex; ex_volume_id := served; ex_node := Some target; ex_master_node := None;
              ex_coordinates := ex_coordinates ex; published_at := published_at ex; coordinates_changed := false;
              ex_message := None; adopted := true; hosts := hosts ex; per_host := per_host ex;
              local_id := served; withdrawing := withdrawing ex; gone := false |} |>.

Definition stale_head_of (vol : DistVolume) (nm old aid : string) (now : time) : StaleHead :=
  {| sh_node := old; sh_array_id := aid; sh_drive_uris := map drive_uri (omap leg_export (legs vol));
     sh_of_volume := nm; sh_epoch := epoch vol; sh_since := now;
     served_v1 := if (ex_node (export vol) == Some old) && negb (adopted (export vol))
                  then ex_volume_id (export vol) else None |}.

Definition record_promoted (nm old : string) (stale_ : StaleHead) (vol : DistVolume) (s : App) : App :=
  s <| fed ::= λ fd, bump ((if old != "" then fd <| stale_heads ::= λ l, (l ++ [stale_])%list |> else fd)
                             <| volumes ::= <[nm := vol]> |>) |>.

(** The target takes the array over: every surviving leg opened on it, the
    record moved, the volume served from it. *)
Definition take_over (nm target : string) (fenced_epoch : Z) (vol : DistVolume) (old_head : option string)
    (aid : string) (te : Engine) (engines : gmap string Engine) (surviving : list nat) : call (option View) :=
  let!? (vol, served) := assemble_on vol surviving target te engines in
  let old := unwrap_or "" old_head in
  let! now := invoke Now in
  writes (record_promoted nm old (stale_head_of vol nm old aid now) (promoted vol target engines served)) ;!
  publish_change ;!
  event nm Info (nm +:+ ": promoted " +:+ target +:+ " to head at epoch " +:+ pretty fenced_epoch +:+ " (was "
    +:+ old +:+ "); array " +:+ aid +:+ " assembled from " +:+ pretty (Z.of_nat (length surviving)) +:+ " legs") ;!
  (match served with
   | Some _ =>
       publish engine_token admin_credential nm ;!
       publish_clones_of engine_token admin_credential nm
   | None =>
       let msg := nm +:+ ": the served volume " +:+ nm +:+ MIRROR_SUFFIX +:+ " did not come across with the array on "
         +:+ target +:+ " — not serving (an empty volume in its place would hide the data)" in
       writes (λ s, s <| fed ::= λ fd, update_volume fd nm (λ v, v <| export ::= λ ex,
         ex <| ex_state := ExFailed |> <| ex_message := Some msg |> |>) |>) ;!
       invoke Persist ;!
       event nm Error msg
   end) ;!
  let! v := view_of nm in Ret (Ok v).

Definition promote_claimed (nm target : string) (fenced_epoch : Z) : call (option View) :=
  let!? (vol, old_head, old_alive, engines) := reads (λ s, promote_reading nm target fenced_epoch (fed s)) in
  match array_id vol, engines !! target with
  | None, _ => Ret (Err (Conflict (nm +:+ ": no array id")))
  | Some _, None => Ret (Err (Upstream "target healthy"))
  | Some aid, Some te =>
      if old_head == Some target then
        let! vol := reattach_legs vol engines target in
        store (vol <| fenced := false |>) ;!
        event nm Info (nm +:+ ": " +:+ target +:+ " stays head at epoch " +:+ pretty fenced_epoch) ;!
        let! v := view_of nm in Ret (Ok v)
      else if old_alive then
        Ret (Err (Conflict (nm +:+ ": head " +:+ unwrap_or "" old_head +:+ " is still running the array; a handover from a live head needs the engine to release an array without writing to its members (stormblock#" +:+ pretty RELEASE_ISSUE +:+ "). Promote proceeds when the old head is unreachable (failover).")))
      else
        take_over nm target fenced_epoch vol old_head aid te engines (surviving_legs vol engines)
  end.

Definition promote (nm target : string) (fenced_epoch : Z) : call (option View) :=
  let! claimed := claim nm in
  if negb claimed then Ret (Err (Conflict (nm +:+ ": busy — an assembly or leg move is in flight")))
  else
    let! r := promote_claimed nm target fenced_epoch in
    release nm ;! Ret r.

(** ** Reassembly on the same head *)

Definition reassemble_reading (nm : string) (fd : FedState)
    : result (DistVolume * string * Engine * gmap string Engine) Sync.Refusal :=
  let? vol := ok_or (volumes fd !! nm) (not_found nm) in
  if negb (mirrored (assembly vol)) then Err (Conflict (nm +:+ ": not assembled"))
  else if fenced vol || is_some (replacing vol) || is_some (dual_attach vol) then
    Err (Conflict (nm +:+ ": fenced, replacing a leg or in a dual-attach window"))
  else
    let? h := ok_or (head vol) (Conflict (nm +:+ ": no head")) in
    let? he := ok_or (healthy_engine fd h) (Upstream (nm +:+ ": head " +:+ h +:+ " is unreachable")) in
    Ok (vol, h, he, leg_engines engine_token admin_credential fd vol).

(** The legs whose node answers: created ones, and the head's own if it was
    marked lost. *)
Definition reassemble_legs (vol : DistVolume) (h : string) (engines : gmap string Engine) : list nat :=
  List.filter (λ i, match legs vol !! i with
                    | Some l => is_some (engines !! leg_node l)
                                && ((leg_state l == Created) || ((leg_state l == Lost) && (leg_node l == h)))
                    | None => false
                    end) (List.seq 0 (length (legs vol))).

Definition reassembled (vol : DistVolume) (nm h aid : string) (idxs : list nat) (served : option string) : DistVolume :=
  let ls := foldl (λ ls i, alter (λ l, l <| leg_state := Created |> <| leg_message := None |>) i ls) (legs vol) idxs in
  let was_served := ex_state (export vol) != ExNone in
  vol <| legs := ls |> <| assembly := all_created ls |> <| next_assemble_after := None |>
      <| export ::= λ ex, match served with
         | Some id => ex <| ex_volume_id := Some id |> <| local_id := Some id |> <| ex_node := Some h |>
                         <| ex_master_node := None |> <| adopted := true |>
         | None =>
             if was_served then
               ex <| ex_state := ExFailed |> <| gone := true |>
                  <| ex_message := Some (nm +:+ ": the served volume " +:+ nm +:+ MIRROR_SUFFIX
                       +:+ " did not come back with array " +:+ aid +:+ " on " +:+ h
                       +:+ "; its data is not recreated — POST /api/v1/volumes/" +:+ nm
                       +:+ "/export {" +:+ debug_str "recreate" +:+ ": true} serves a new, EMPTY one") |>
             else ex
         end |>.

Definition reassemble (nm : string) : call Reassembled :=
  let!? (vol, h, he, engines) := reads (λ s, reassemble_reading nm (fed s)) in
  match array_id vol with
  | None => Ret (Err (Conflict (nm +:+ ": no array id")))
  | Some aid =>
      let! found := find_array he aid in
      match found with
      | Ok (Some _) => Ret (Ok Present)
      | Err _ => Ret (Ok Unread)
      | Ok None =>
          match reassemble_legs vol h engines with
          | [] => Ret (Err (Conflict (nm +:+ ": no leg answers")))
          | idxs =>
              let was_served := ex_state (export vol) != ExNone in
              let!? (vol, served) := assemble_on vol idxs h he engines in
              let vol := reassembled vol nm h aid idxs served in
              let gone_msg := opt_filter (λ _, gone (export vol)) (ex_message (export vol)) in
              store vol ;!
              event nm Info (nm +:+ ": array " +:+ aid +:+ " reassembled on " +:+ h +:+ " from "
                +:+ pretty (Z.of_nat (length idxs)) +:+ " legs after its engine restarted") ;!
              (if is_some served && was_served then publish engine_token admin_credential nm ;! Ret tt else Ret tt) ;!
              publish_clones_of engine_token admin_credential nm ;!
              (match gone_msg with Some m => event nm Error m | None => Ret tt end) ;!
              Ret (Ok (Done (Z.of_nat (length idxs)) (is_some served)))
          end
      end
  end.

(** ** Prestage and the resync rate *)

Definition prestage_record (nm : string) (node from : option string) (class : option BandwidthClass) (s : App)
    : App * result (string * option Engine * option string * BandwidthClass) Sync.Refusal :=
  match volumes (fed s) !! nm with
  | None => (s, Err (not_found nm))
  | Some vol =>
      if is_some node && (node == head vol) then
        (s, Err (Conflict (nm +:+ ": " +:+ unwrap_or "" node +:+ " is the head (anti-affinity: the slave goes elsewhere)")))
      else
        match (match from with
               | Some f => if Some f == head vol then Err (Conflict (nm +:+ ": " +:+ f +:+ " is the head — promote moves the master"))
                           else Ok f
               | None => prestage_from vol
               end) with
        | Err r => (s, Err r)
        | Ok from =>
            let c := unwrap_or (bandwidth_class vol) class in
            (s <| fed ::= λ fd, bump (update_volume fd nm (λ v, v <| bandwidth_class := c |>)) |>,
             Ok (from, (head vol ≫= (λ h, nodes (fed s) !! h)) ≫= (λ n, Some (engine_for n)), array_id vol, c))
        end
  end.

Definition prestage (fuel : nat) (nm : string) (node from : option string) (class : option BandwidthClass)
    : call (string * string * BandwidthClass) :=
  let!? (from, he, aid, c) := atomic (prestage_record nm node from class) in
  invoke Persist ;!
  (match he, aid with Some e, Some a => set_rebuild_rate e a (class_rate cfg c) ;! Ret tt | _, _ => Ret tt end) ;!
  let! r := start_replacement cfg engine_token admin_credential fuel nm from node "prestage" in
  Ret (match r with
       | Ok to => Ok (from, to, c)
       | Err e => Err (Conflict (err_text e))
       end).

Definition rate_reading (nm : string) (fd : FedState)
    : option (BandwidthClass * option Engine * option string * bool) :=
  vol ← volumes fd !! nm;
  let n := head vol ≫= (λ h, nodes fd !! h) in
  Some (bandwidth_class vol, engine_for <$> n, array_id vol, is_some_and (λ n, healthy (status n)) n).

(** [v.rate_pending = !applied], and whether that changed it. *)
Definition rate_record (nm : string) (applied : bool) (s : App) : App * bool :=
  match volumes (fed s) !! nm with
  | Some v =>
      if eqb (rate_pending v) applied
      then (s <| fed ::= λ fd, update_volume fd nm (λ v, v <| rate_pending := negb applied |>) |>, true)
      else (s, false)
  | None => (s, false)
  end.

Definition apply_rate (nm : string) : handler J (option RateApplied) :=
  let! r := reads (λ s, rate_reading nm (fed s)) in
  match r with
  | None => Ret None
  | Some (class, he, aid, head_ok) =>
      let bytes := class_rate cfg class in
      match he, aid with
      | Some e, Some a =>
          let! (ok, message) :=
            (if head_ok then
               let! r := set_rebuild_rate e a bytes in
               Ret (match r with Ok _ => (true, None) | Err x => (false, Some (err_text x)) end)
             else Ret (false, Some "head not reachable; applied when it answers")) in
          let! changed := atomic (rate_record nm ok) in
          (if changed then invoke Persist else Ret tt) ;!
          Ret (Some {| bytes_per_sec := bytes; applied := ok; pending := negb ok; ra_message := message |})
      | _, _ =>
          writes (λ s, s <| fed ::= λ fd, update_volume fd nm (λ v, v <| rate_pending := false |>) |>) ;!
          Ret (Some {| bytes_per_sec := bytes; applied := false; pending := false;
                       ra_message := Some "no array yet; applied when one is assembled" |})
      end
  end.

Definition class_record (nm : string) (class : BandwidthClass) (s : App) : App * result BandwidthClass Sync.Refusal :=
  match volumes (fed s) !! nm with
  | None => (s, Err (not_found nm))
  | Some v =>
      if bandwidth_class v == class then (s, Ok class)
      else (s <| fed ::= λ fd, bump (update_volume fd nm (λ v, v <| bandwidth_class := class |>)) |>,
            Ok (bandwidth_class v))
  end.

Definition set_bandwidth_class (nm : string) (class : BandwidthClass) : call (option View * option RateApplied) :=
  let!? before := atomic (class_record nm class) in
  let changed := before != class in
  (if changed then publish_change else Ret tt) ;!
  let! r := apply_rate nm in
  (if changed then
     let how := match r with
       | Some r => if applied r then "rebuild cap " +:+ pretty (bytes_per_sec r) +:+ " B/s on the head's array"
                   else unwrap_or "" (ra_message r)
       | None => ""
       end in
     event nm Info (nm +:+ ": bandwidth class " +:+ class_name before +:+ " → " +:+ class_name class +:+ " (" +:+ how +:+ ")")
   else Ret tt) ;!
  let! v := view_of nm in Ret (Ok (v, r)).

Definition rates_pending (fd : FedState) : list string :=
  map name (List.filter (λ v, rate_pending v && is_some_and (λ h, node_healthy fd h) (head v)) (bt_values (volumes fd))).
Definition retry_pending_rates : handler J unit :=
  let! names := reads (λ s, rates_pending (fed s)) in
  for_each (λ nm,
    let! r := apply_rate nm in
    match r with
    | Some r =>
        if applied r then
          event nm Info (nm +:+ ": rebuild cap " +:+ pretty (bytes_per_sec r) +:+ " B/s applied on the head's array")
        else Ret tt
    | None => Ret tt
    end) names.

(** ** Dual-attach windows *)

Definition open_record (nm target : string) (ttl : Z) (now : time) (s : App) : App * result DualAttach Sync.Refusal :=
  match volumes (fed s) !! nm with
  | None => (s, Err (not_found nm))
  | Some vol =>
      match apply_open_window vol target ttl now with
      | Err r => (s, Err r)
      | Ok (vol', w) => (s <| fed ::= λ fd, bump (fd <| volumes ::= <[nm := vol']> |>) |>, Ok w)
      end
  end.

(** [ttl_secs.clamp(1, max)]. *)
Definition window_ttl (ttl_secs : Z) : Z := Z.min (Z.max ttl_secs 1) (Z.max (max_dual_attach_secs (recovery cfg)) 1).

Definition open_window (nm target : string) (ttl_secs : Z) : call DualAttach :=
  let! now := invoke Now in
  let!? w := atomic (open_record nm target (secs (window_ttl ttl_secs)) now) in
  publish_change ;!
  event nm Info (nm +:+ ": dual-attach window open for " +:+ target +:+ " at epoch " +:+ pretty (da_epoch w) +:+ ", "
                 +:+ pretty (window_ttl ttl_secs) +:+ "s") ;!
  Ret (Ok w).

Definition close_record (nm : string) (epoch_ : Z) (s : App) : App * result string Sync.Refusal :=
  match volumes (fed s) !! nm with
  | None => (s, Err (not_found nm))
  | Some vol =>
      match dual_attach vol with
      | None => (s, Err (Conflict (nm +:+ ": no dual-attach window is open")))
      | Some w =>
          if negb (da_epoch w =? epoch_)%Z then (s, Err (StaleEpoch (da_epoch w)))
          else (s <| fed ::= λ fd, bump (update_volume fd nm (λ v, v <| dual_attach := None |>)) |>, Ok (target_node w))
      end
  end.

Definition close_window (nm : string) (epoch_ : Z) (outcome : Outcome) : call (option View) :=
  let!? target := atomic (close_record nm epoch_) in
  publish_change ;!
  match outcome with
  | Abort_ =>
      event nm Info (nm +:+ ": dual-attach window for " +:+ target +:+ " aborted") ;!
      let! v := view_of nm in Ret (Ok v)
  | Commit =>
      let!? f := fence nm epoch_ in
      event nm Info (nm +:+ ": dual-attach commit — promoting " +:+ target) ;!
      promote nm target (f_epoch f)
  end.

(** ** Reading the heads *)

Record Due := MkDue {
  due_vol : DistVolume;
  due_head : option Engine;
  due_legs : list (Engine * string);
}.
Definition refresh_due (fd : FedState) : list Due :=
  map (λ v, {| due_vol := v; due_head := head v ≫= healthy_engine fd;
               due_legs := omap (λ l, e ← healthy_engine fd (leg_node l); id ← leg_volume_id l; Some (e, id))
                             (List.filter (λ l, leg_state l == Created) (all_legs v)) |})
    (List.filter (λ v, is_some (head v) && is_some (array_id v))
      (List.filter (λ v, mirrored (assembly v)) (bt_values (volumes fd)))).

Definition read_superblocks (ls : list (Engine * string)) : handler J (list LegSuperblock) :=
  for_fold (λ sbs '(e, id),
    let! r := leg_superblock e id in
    Ret (match r with
         | Ok (Some v) => match parse_superblock v with Some sb => (sbs ++ [sb])%list | None => sbs end
         | _ => sbs
         end)) [] ls.

Definition refresh_one (acc : gmap string ArrayReading * gmap string ArrayReading) (d : Due)
    : handler J (gmap string ArrayReading * gmap string ArrayReading) :=
  let '(readings, live) := acc in
  let vol := due_vol d in
  match head vol, array_id vol with
  | Some h, Some aid =>
      let! read := (match due_head d with
        | Some e => let! r := get_array_call e aid in Ret (match r with Ok a => Some a | Err _ => None end)
        | None => Ret None
        end) in
      match read with
      | Some a =>
          let! now := invoke Now in
          let r := parse_array now h aid a in
          Ret (<[name vol := r]> readings, <[name vol := r]> live)
      | None =>
          let! sbs := read_superblocks (due_legs d) in
          let! now := invoke Now in
          Ret (match from_superblocks vol (live !! name vol) sbs now with
               | Some r => (<[name vol := r]> readings, live)
               | None => acc
               end)
      end
  | _, _ => Ret acc
  end.

Definition refresh : handler J unit :=
  let! due := reads (λ s, refresh_due (fed s)) in
  let! live := reads head_live in
  let live := filter (λ kv, existsb (λ d, name (due_vol d) == kv.1) due = true) live in
  let! (readings, live) := for_fold refresh_one (∅, live) due in
  writes (λ s, s <| head_live := live |>) ;!
  writes (λ s, s <| heads := readings |>).

(** ** Former heads *)

Definition stale_due (fd : FedState) : list (StaleHead * Engine) :=
  omap (λ x, e ← healthy_engine fd (sh_node x); Some (x, e)) (stale_heads fd).

Definition note_once (key : string) (s : App) : App * bool :=
  (s <| noted ::= λ n, {[key]} ∪ n |>, bool_decide (key ∉ noted s)).

(** The served volume's record left behind, if it is that record and the
    engine holds nothing of it; [None]: a listing failed. *)
Definition leftover_record (x : StaleHead) (e : Engine) : handler J (option (option string)) :=
  match served_v1 x with
  | None => Ret (Some None)
  | Some id =>
      let! records := list_volumes e in
      let! held := list_engine_volumes e in
      Ret (match records, held with
           | Ok records, Ok held =>
               Some (if existsb (λ v, (get_str "id" v == Some id)
                                      && (get_str "name" v == Some (sh_of_volume x +:+ MIRROR_SUFFIX))) records
                        && negb (existsb (λ v, ev_id v == id) held)
                     then Some id else None)
           | _, _ => None
           end)
  end.

Definition reap_stale_head (x : StaleHead) (e : Engine) : handler J unit :=
  let! arrays := list_arrays e in
  match arrays with
  | Err _ => Ret tt
  | Ok arrays =>
      if existsb (λ a, is_some_and (λ i, eq_ignore_ascii_case i (sh_array_id x)) (get_str "id" a)) arrays then
        let! first := atomic (note_once ("stale-head:" +:+ sh_node x +:+ ":" +:+ sh_of_volume x)) in
        if first then
          event (sh_of_volume x) Error (sh_of_volume x +:+ ": former head " +:+ sh_node x
            +:+ " answers and still holds array " +:+ sh_array_id x
            +:+ " — left alone; the legs refuse its writes (fenced, stormblock#6), and it can let go only once the engine can release an array without writing (stormblock#"
            +:+ pretty RELEASE_ISSUE +:+ ")")
        else Ret tt
      else
        let! leftover := leftover_record x e in
        match leftover with
        | None => Ret tt
        | Some leftover =>
            for_each (λ uri, delete_drive e uri true ;! Ret tt) (sh_drive_uris x) ;!
            let! deleted := (match leftover with Some id => delete_volume e id | None => Ret (Ok tt) end) in
            match deleted with
            | Err _ => Ret tt
            | Ok _ =>
                writes (λ s, s <| fed ::= λ fd, bump (fd <| stale_heads ::= List.filter (λ y,
                  negb ((sh_node y == sh_node x) && (sh_of_volume y == sh_of_volume x))) |>) |>) ;!
                publish_change ;!
                event (sh_of_volume x) Info (sh_of_volume x +:+ ": former head " +:+ sh_node x
                  +:+ " cleaned up (no array held; leg drives closed"
                  +:+ (if is_some leftover then ", leftover served-volume record deleted" else "") +:+ ")")
            end
        end
  end.
Definition reap_stale_heads : handler J unit :=
  let! due := reads (λ s, stale_due (fed s)) in
  for_each (λ '(x, e), reap_stale_head x e) due.
End head.
