(* ===== verification/Fencing.v ===== *)
(** * What fencing promises (theorems on src/head.rs)

    The handlers of Head.v beside each other. Field-level handlers (fences,
    windows, resync rates, exports, the sweeps and the readings) move a
    volume's epoch only up and never unfence it: at any two moments of a run
    at which fences win, the later one wins at the higher epoch. A promote decides on a record that was fenced and writes back
    what it read. *)

From S2P Require Import Prelude F64 Config Model Placement Events Refusal Async Json Inventory Sync.
From S2P Require Import Recovery App Engine Publish Replace Head.
From stdpp Require Import options.

(** ** Steps that leave the head alone *)

(** A volume without what field-level handlers change. *)
Definition steady (v : DistVolume) : DistVolume :=
  v <| export := Export_default |> <| legs ::= map (λ l, l <| leg_export := None |> <| leg_epoch := None |>) |>
    <| epoch := 0%Z |> <| fenced := false |> <| bandwidth_class := Normal |> <| rate_pending := false |>
    <| dual_attach := None |>.

(** The epoch stays, or a fence moves it by one. *)
Definition vol_step (v v' : DistVolume) : Prop :=
  steady v' = steady v
  ∧ ((epoch v' = epoch v ∧ fenced v' = fenced v) ∨ (epoch v' = u64_add (epoch v) 1 ∧ fenced v' = true)).

Definition field_step (s s' : App) : Prop :=
  (∀ nm, option_Forall2 vol_step (volumes (fed s) !! nm) (volumes (fed s') !! nm)) ∧ nodes (fed s') = nodes (fed s).

#[export] Instance vol_step_refl : Reflexive vol_step.
Proof. intros v. split; auto. Qed.
#[export] Instance field_step_refl : Reflexive field_step.
Proof. intros s. split; [|done]. intros nm. by destruct (volumes (fed s) !! nm); constructor. Qed.

Lemma field_step_same s s' : fed s' = fed s → field_step s s'.
Proof. intros Hf. unfold field_step. rewrite Hf. apply field_step_refl. Qed.

Lemma field_step_vols s s' nm f :
  volumes (fed s') = alter f nm (volumes (fed s)) → nodes (fed s') = nodes (fed s) →
  (∀ v, volumes (fed s) !! nm = Some v → vol_step v (f v)) → field_step s s'.
Proof.
  intros Hv Hn Hf. split; [|done]. intros k. rewrite Hv, lookup_alter.
  destruct (decide (nm = k)) as [<-|].
  - destruct (volumes (fed s) !! nm) eqn:E; simpl; constructor; auto.
  - destruct (volumes (fed s) !! k); constructor; done.
Qed.

Lemma steady_core v v' :
  core v' = core v → epoch v' = epoch v → fenced v' = fenced v → vol_step v v'.
Proof.
  intros Hc He Hf. split; [|auto].
  assert (∀ v, steady (core v) = steady v) as Hsc.
  { intros w. unfold steady, core. simpl. f_equal. rewrite map_map. by apply map_ext. }
  by rewrite <-(Hsc v'), <-(Hsc v), Hc.
Qed.

Lemma core_epoch v : epoch (core v) = epoch v ∧ fenced (core v) = fenced v.
Proof. done. Qed.

Lemma export_field_step s s' : export_step s s' → field_step s s'.
Proof.
  intros (Hv & Hn & _). split; [|done]. intros nm.
  assert (core <$> volumes (fed s') !! nm = core <$> volumes (fed s) !! nm) as H by (rewrite <-!lookup_fmap; congruence).
  destruct (volumes (fed s) !! nm) as [v|], (volumes (fed s') !! nm) as [v'|]; simpl in H; try discriminate H; [|constructor].
  assert (core v' = core v) as H' by congruence. clear H. rename H' into H. constructor. apply steady_core; [done| |].
  - by rewrite <-(proj1 (core_epoch v')), H.
  - by rewrite <-(proj2 (core_epoch v')), H.
Qed.

Lemma note_leg_epochs_step ls v : vol_step v (note_leg_epochs ls v).
Proof.
  split; [|auto]. unfold steady, note_leg_epochs. simpl. f_equal.
  generalize (legs v). induction ls as [|[n le] ls IH]; intros l0; simpl; [done|].
  rewrite IH. by apply update_first_map.
Qed.

Lemma apply_fence_step v expected v' e : apply_fence v expected = Ok (v', e) → vol_step v v'.
Proof. intros H. apply apply_fence_Ok in H as (<- & _ & -> & ->). split; [done|by right]. Qed.

Lemma alter_insert_fed (s : App) nm (v v' : DistVolume) :
  volumes (fed s) !! nm = Some v → <[nm := v']> (volumes (fed s)) = alter (λ _, v') nm (volumes (fed s)).
Proof.
  intros H. apply map_eq. intros k. rewrite lookup_insert, lookup_alter.
  destruct (decide (nm = k)) as [<-|]; [by rewrite H|done].
Qed.

Lemma fence_record_step et ac nm e s : field_step s (fence_record et ac nm e s).1.
Proof.
  unfold fence_record. destruct (volumes (fed s) !! nm) as [v|] eqn:Ev; [|reflexivity].
  destruct (apply_fence v e) as [[v' e']|r] eqn:Ef; [|reflexivity].
  eapply (field_step_vols s _ nm (λ _, v')); [by apply (alter_insert_fed s nm v)|done|].
  intros w Hw. rewrite Ev in Hw. injection Hw as <-. by apply (apply_fence_step v e v' e').
Qed.

Lemma open_record_step nm t ttl now s : field_step s (open_record nm t ttl now s).1.
Proof.
  unfold open_record. destruct (volumes (fed s) !! nm) as [v|] eqn:Ev; [|reflexivity].
  destruct (apply_open_window v t ttl now) as [[v' w]|r] eqn:Ef; [|reflexivity].
  eapply (field_step_vols s _ nm (λ _, v')); [by apply (alter_insert_fed s nm v)|done|].
  intros x Hx. rewrite Ev in Hx. injection Hx as <-. unfold apply_open_window in Ef.
  repeat case_match; simplify_eq/=. split; auto.
Qed.

Section guarantees.
Context {J : Type} `{Json J} `{HttpShow}.
Context `{Deserialize J EngineVolume} `{Deserialize J Slab} `{Deserialize J Discovery}.
Context (cfg : Config) (engine_token : NodeConfig → option string) (admin_credential : string → option string).
Abbreviation F := (guar (E:=Call J) field_step).

Lemma guar_of_export {A} (p : handler J A) : guar export_step p → F p.
Proof. apply guar_weaken, export_field_step. Qed.
#[local] Hint Resolve guar_of_export guar_event_of publish_guar publish_clones_guar republish_on_guar
  withdraw_pending_guar : guar.

Lemma event_field knd subj sev msg : F (event_of knd subj sev msg).
Proof. apply guar_of_export, guar_event_of. Qed.
#[local] Hint Resolve event_field : guar.

Lemma change_field nm f : (∀ v, vol_step v (f v)) → F (change_volume nm f).
Proof.
  intros Hf. apply guar_writes. intros s. by apply (field_step_vols s _ nm f).
Qed.
Lemma update_field nm f : (∀ v, vol_step v (f v)) → F (writes (λ s, s <| fed ::= λ fd, update_volume fd nm f |>)).
Proof. intros Hf. apply guar_writes. intros s. by apply (field_step_vols s _ nm f). Qed.

Ltac field_auto := repeat first [solve [apply quiet] | solve [eauto 2 with guar nocore] | guar_step].

Lemma fence_one_quiet out leg : Quiet (fence_one (J:=J) out leg).
Proof. unfold fence_one. apply _. Qed.
#[local] Existing Instance fence_one_quiet.

Lemma fence_field nm e : F (fence engine_token admin_credential nm e).
Proof.
  unfold fence, Head.event. field_auto; [apply fence_record_step|].
  apply change_field. intros v. apply note_leg_epochs_step.
Qed.
Lemma open_window_field nm t ttl : F (open_window cfg nm t ttl).
Proof. unfold open_window, Head.event. field_auto. apply open_record_step. Qed.
Lemma close_record_step nm e s : field_step s (close_record nm e s).1.
Proof.
  unfold close_record. destruct (volumes (fed s) !! nm) as [v|] eqn:Ev; [|reflexivity].
  destruct (dual_attach v); [|reflexivity]. case_match; [reflexivity|].
  by apply (field_step_vols s _ nm (λ v, v <| dual_attach := None |>)); [..|intros; split; auto].
Qed.
Lemma view_of_field nm : F (view_of nm).
Proof. unfold view_of. by repeat guar_step. Qed.
#[local] Hint Resolve view_of_field : guar.
Lemma abort_window_field nm e : F (close_window cfg engine_token admin_credential nm e Abort_).
Proof. unfold close_window, Head.event. field_auto. apply close_record_step. Qed.

Lemma rate_record_step nm ok s : field_step s (rate_record nm ok s).1.
Proof.
  unfold rate_record. destruct (volumes (fed s) !! nm) as [v|] eqn:Ev; [|reflexivity].
  destruct (eqb _ _); [|reflexivity].
  by apply (field_step_vols s _ nm (λ v, v <| rate_pending := negb ok |>)); [..|intros; split; auto].
Qed.
Lemma apply_rate_field nm : F (apply_rate cfg engine_token admin_credential nm).
Proof.
  unfold apply_rate. field_auto; try reflexivity; try apply rate_record_step;
    by apply (field_step_vols _ _ nm (λ v, v <| rate_pending := false |>)); [..|intros; split; auto].
Qed.
#[local] Hint Resolve apply_rate_field : guar.
Lemma class_record_step nm c s : field_step s (class_record nm c s).1.
Proof.
  unfold class_record. destruct (volumes (fed s) !! nm) as [v|] eqn:Ev; [|reflexivity].
  destruct (_ == _); [reflexivity|].
  by apply (field_step_vols s _ nm (λ v, v <| bandwidth_class := c |>)); [..|intros; split; auto].
Qed.
Lemma set_bandwidth_field nm c : F (set_bandwidth_class cfg engine_token admin_credential nm c).
Proof. unfold set_bandwidth_class, Head.event. field_auto. apply class_record_step. Qed.
Lemma retry_rates_field : F (retry_pending_rates cfg engine_token admin_credential).
Proof. unfold retry_pending_rates, Head.event. field_auto. reflexivity. Qed.
Lemma read_superblocks_quiet ls : Quiet (read_superblocks (J:=J) ls).
Proof. unfold read_superblocks. apply _. Qed.
#[local] Existing Instance read_superblocks_quiet.
Lemma refresh_one_quiet acc d : Quiet (refresh_one (J:=J) acc d).
Proof. unfold refresh_one. apply _. Qed.
#[local] Existing Instance refresh_one_quiet.
Lemma refresh_field : F (refresh engine_token admin_credential).
Proof. unfold refresh. field_auto; by apply field_step_same. Qed.
Lemma leftover_quiet x e : Quiet (leftover_record (J:=J) x e).
Proof. unfold leftover_record. apply _. Qed.
#[local] Existing Instance leftover_quiet.
Lemma reap_stale_field : F (reap_stale_heads engine_token admin_credential).
Proof.
  unfold reap_stale_heads, reap_stale_head, Head.event. field_auto; try reflexivity;
    split; try done; intros k; simpl; by destruct (volumes _ !! k); constructor.
Qed.
Lemma reap_orphans_field : F (reap_orphans engine_token admin_credential).
Proof.
  unfold reap_orphans, reap_orphan, Publish.event. field_auto; try reflexivity;
    split; try done; intros k; simpl; by destruct (volumes _ !! k); constructor.
Qed.

(** The tasks that leave a volume's head, legs and array alone. *)
Inductive control_task : handler J unit → Prop :=
  | ctl_fence nm e : control_task (fence engine_token admin_credential nm e ;! Ret tt)
  | ctl_open nm t ttl : control_task (open_window cfg nm t ttl ;! Ret tt)
  | ctl_abort nm e : control_task (close_window cfg engine_token admin_credential nm e Abort_ ;! Ret tt)
  | ctl_class nm c : control_task (set_bandwidth_class cfg engine_token admin_credential nm c ;! Ret tt)
  | ctl_rates : control_task (retry_pending_rates cfg engine_token admin_credential)
  | ctl_refresh : control_task (refresh engine_token admin_credential)
  | ctl_reap : control_task (reap_stale_heads engine_token admin_credential)
  | ctl_orphans : control_task (reap_orphans engine_token admin_credential)
  | ctl_export p : export_task engine_token admin_credential p → control_task p.
End guarantees.

(** ** Many steps *)

(** After at most [n] steps: only the epoch went up, and a volume whose
    epoch moved, or that was fenced, is fenced. *)
Definition vol_steps (n : nat) (v v' : DistVolume) : Prop :=
  steady v' = steady v
  ∧ ∃ m, (m ≤ n)%nat ∧ epoch v' = (epoch v + Z.of_nat m)%Z ∧ (fenced v = true ∨ m ≠ 0%nat → fenced v' = true).

Lemma vol_steps_l n v v1 v' :
  (0 ≤ epoch v)%Z → (epoch v + 1 < 2 ^ 64)%Z → vol_step v v1 → vol_steps n v1 v' → vol_steps (S n) v v'.
Proof.
  intros H0 Hb [Hs He] [Hs' (m & Hm & He' & Hf)]. split; [congruence|].
  destruct He as [[He Hfe]|[He Hfe]].
  - exists m. split; [lia|]. split; [lia|]. by rewrite <-Hfe.
  - exists (S m). split; [lia|]. split; [|intros _; apply Hf; auto].
    rewrite He', He. unfold u64_add. rewrite Z.mod_small by lia. lia.
Qed.

Lemma field_nsteps n s s' nm v :
  nsteps field_step n s s' → volumes (fed s) !! nm = Some v →
  (0 ≤ epoch v)%Z → (epoch v + Z.of_nat n < 2 ^ 64)%Z →
  ∃ v', volumes (fed s') !! nm = Some v' ∧ vol_steps n v v'.
Proof.
  intros H. revert v. induction H as [s|n s s1 s' [H1 _] _ IH]; intros v Hv H0 Hb.
  { exists v. split; [done|]. split; [done|]. exists 0%nat. split; [lia|]. split; [lia|]. by intros [|]. }
  specialize (H1 nm). rewrite Hv in H1. destruct (volumes (fed s1) !! nm) as [v1|] eqn:E1; [|by inversion H1].
  assert (vol_step v v1) as Hstep by by inversion H1.
  assert ((0 ≤ epoch v1)%Z ∧ (epoch v1 + Z.of_nat n < 2 ^ 64)%Z) as [H01 Hb1].
  { destruct Hstep as [_ [[-> _]|[-> _]]]; [lia|]. unfold u64_add. rewrite Z.mod_small by lia. lia. }
  destruct (IH v1 eq_refl H01 Hb1) as (v' & Hv' & Hs). exists v'. split; [done|].
  apply (vol_steps_l n v v1); auto. lia.
Qed.

Lemma steady_eq v v' : steady v' = steady v →
  head v' = head v ∧ array_id v' = array_id v ∧ assembly v' = assembly v ∧ size_bytes v' = size_bytes v
  ∧ map leg_node (legs v') = map leg_node (legs v) ∧ map leg_state (legs v') = map leg_state (legs v)
  ∧ map leg_volume_id (legs v') = map leg_volume_id (legs v).
Proof.
  intros H.
  assert (∀ w, head (steady w) = head w ∧ array_id (steady w) = array_id w ∧ assembly (steady w) = assembly w
            ∧ size_bytes (steady w) = size_bytes w ∧ map leg_node (legs (steady w)) = map leg_node (legs w)
            ∧ map leg_state (legs (steady w)) = map leg_state (legs w)
            ∧ map leg_volume_id (legs (steady w)) = map leg_volume_id (legs w)) as Hs.
  { intros w. unfold steady. simpl. by rewrite !map_map. }
  destruct (Hs v) as (<- & <- & <- & <- & <- & <- & <-), (Hs v') as (<- & <- & <- & <- & <- & <- & <-).
  by rewrite H.
Qed.

Section races.
Context {J : Type} `{Json J} `{HttpShow}.
Context `{Deserialize J EngineVolume} `{Deserialize J Slab} `{Deserialize J Discovery}.
Context (cfg : Config) (engine_token : NodeConfig → option string) (admin_credential : string → option string).

Lemma control_task_guar p : control_task (J:=J) cfg engine_token admin_credential p → guar field_step p.
Proof.
  intros []; repeat first [apply guar_bind; [|done]];
    eauto using fence_field, open_window_field, abort_window_field, set_bandwidth_field, retry_rates_field,
      refresh_field, reap_stale_field, reap_orphans_field.
  apply guar_of_export. by eapply export_task_guar.
Qed.

(** A fence of [nm] at epoch [e], somewhere in the pool, takes its lock and
    finds that epoch: from here on its call answers [Ok]. *)
Inductive fence_wins (nm : string) (e : Z) : App * list (handler J unit) → App * list (handler J unit) → Prop :=
  | wins s ps i k x :
      ps !! i = Some (Atomic (fence_record engine_token admin_credential nm e) k) →
      (fence_record engine_token admin_credential nm e s).2 = Ok x →
      fence_wins nm e (s, ps) ((fence_record engine_token admin_credential nm e s).1,
        <[i := k (fence_record engine_token admin_credential nm e s).2]> ps).

Lemma fence_wins_step nm e c c' : fence_wins nm e c c' → pool_step c c'.
Proof. intros [s ps i k x Hi _]. by apply step_atomic. Qed.

(** The winner found the epoch it named, and leaves the next one, fenced. *)
Lemma fence_wins_epoch nm e c c' :
  fence_wins nm e c c' → ∃ v, volumes (fed c.1) !! nm = Some v ∧ epoch v = e
    ∧ volumes (fed c'.1) !! nm = Some (v <| epoch := u64_add e 1 |> <| fenced := true |>).
Proof.
  intros [s ps i k x _ Hx]. simpl. unfold fence_record in *.
  destruct (volumes (fed s) !! nm) as [v|]; [|done]. exists v. split; [done|].
  destruct (apply_fence v e) as [[v' e']|r] eqn:Ef; [|done].
  apply apply_fence_Ok in Ef as (<- & _ & -> & ->). split; [done|]. by apply lookup_insert_eq.
Qed.

Lemma stale_fence nm e s v :
  volumes (fed s) !! nm = Some v → epoch v ≠ e →
  fence_record engine_token admin_credential nm e s = (s, Err (StaleEpoch (epoch v))).
Proof.
  intros Hv Hne. unfold fence_record, apply_fence. rewrite Hv.
  by assert ((epoch v =? e)%Z = false) as -> by lia.
Qed.

Lemma control_nsteps n (c c' : App * list (handler J unit)) nm v :
  Forall (guar field_step) c.2 → nsteps pool_step n c c' → volumes (fed c.1) !! nm = Some v →
  (0 ≤ epoch v)%Z → (epoch v + Z.of_nat n < 2 ^ 64)%Z →
  Forall (guar field_step) c'.2 ∧ ∃ v', volumes (fed c'.1) !! nm = Some v' ∧ vol_steps n v v'.
Proof.
  destruct c as [s ps], c' as [s' ps']. simpl. intros Hg Hn Hv Hlo Hhi. split.
  - eapply (pool_guar field_step); [eapply rtc_nsteps_2|]; eassumption.
  - eapply field_nsteps; [by eapply (pool_guar_nsteps field_step n s ps s' ps')|done..].
Qed.

End races.

(** ** A fence lost to a promote *)

Section example.
#[local] Existing Instances no_text no_volume no_slab no_discovery.
Local Open Scope string_scope.
Definition lone_node (n : string) (up : bool) : Node :=
  {| config := MkNodeConfig n ("http://" +:+ n +:+ ":9000") None None None ∅ None;
     status := (NodeStatus_new Static) <| healthy := up |> |}.
(** Head [n1] is down, the volume fenced at epoch 2 to move its head. *)
Definition fenced_volume : DistVolume := example_volume <| epoch := 2%Z |> <| fenced := true |>.
Definition race_app : App :=
  App_new (FedState_default
    <| nodes := {["n1" := lone_node "n1" false; "n2" := lone_node "n2" true; "n3" := lone_node "n3" true]} |>
    <| volumes := {["db" := fenced_volume]} |>) None.
(** An engine that does all it is asked: one answer serves every call. *)
Definition race_answer : Tree :=
  TObj [("transport", TStr "nvme_tcp"); ("nqn", TStr "nqn.v"); ("nsid", TNum 1);
        ("addresses", TArr [TObj [("traddr", TStr "10.0.0.1"); ("trsvcid", TNum 4420)]]);
        ("uuid", TStr "d"); ("id", TStr "v-new"); ("member_uuid", TStr "m-new"); ("arrays", TArr [TObj [("id", TStr "ARR")]]); ("epoch", TNum 9)].
Definition race_env (R : Type) (c : Call Tree R) (w : unit) : R * unit :=
  match c in Call _ R return R * unit with
  | Http _ _ _ _ _ => (Ok (200%Z, Some race_answer), w)
  | HttpText _ _ => (Err "no route", w)
  | Now => (7%Z, w)
  | PushToPeers | Persist | Sleep _ => (tt, w)
  end.
Definition example_cfg : Config :=
  {| recovery := RecoveryConfig_default; poll := PollConfig_default; rungs := ["rack"; "node"];
     io_weight := of_u64 0; pools := []; legs_host_nqn := "nqn.2014-08.org.nvmexpress:{node}"; peers := [] |}.
Definition race_tasks : list (handler Tree unit) :=
  [promote example_cfg (λ _, None) (λ _, None) "db" "n2" 2 ;! Ret tt;
   fence (λ _, None) (λ _, None) "db" 2 ;! Ret tt].
(** The promote claims the volume and reads it; the fence goes through; the
    promote goes on. *)
Definition race_mid := sched race_env [0; 0; 1]%nat (race_app, tt, race_tasks).
Definition race_end := sched race_env (repeat 0%nat 12) race_mid.
Definition look (a : App) := (λ v, (epoch v, fenced v, head v)) <$> volumes (fed a) !! "db".

(** C40: a promote writes back the record it read before its engine calls
    (it holds the volume's claim, which a fence does not take), so a fence
    that goes through in between is lost: from a volume fenced at epoch 2,
    a second fence takes it to 3, the promote of epoch 2 puts it back to 2,
    unfenced, and one more fence at 2 goes through: two fences succeeded at
    one epoch. *)
Theorem promote_overwrites_fence :
  ∃ s1 ps1 s2 ps2,
    pool_steps (race_app, race_tasks) (s1, ps1) ∧ look s1 = Some (3%Z, true, Some "n1")
    ∧ pool_steps (s1, ps1) (s2, ps2) ∧ look s2 = Some (2%Z, false, Some "n2")
    ∧ let r := fence_record (λ _, None) (λ _, None) "db" 2 s2 in
      look r.1 = Some (3%Z, true, Some "n2") ∧ match r.2 with Ok (e, _) => e = 3%Z | Err _ => False end.
Proof.
  exists race_mid.1.1, race_mid.2, race_end.1.1, race_end.2.
  split; [apply (sched_sound race_env)|]. split; [vm_compute; reflexivity|].
  split; [|split; [vm_compute; reflexivity|split; vm_compute; reflexivity]].
  unfold race_end. destruct race_mid as [[s w] ps]. apply (sched_sound race_env).
Qed.

(** A sweep reads, a fence at 2 wins, and another at 2 comes too late. *)
Definition fence_pool : list (handler Tree unit) :=
  [fence (λ _, None) (λ _, None) "db" 2 ;! Ret tt; fence (λ _, None) (λ _, None) "db" 2 ;! Ret tt;
   retry_pending_rates example_cfg (λ _, None) (λ _, None)].
Definition atomic_step (i : nat) (c : App * list (handler Tree unit)) : App * list (handler Tree unit) :=
  match c.2 !! i with Some (Atomic f k) => ((f c.1).1, <[i := k (f c.1).2]> c.2) | _ => c end.

Lemma atomic_step_sound i c B (f : App → App * B) k :
  c.2 !! i = Some (Atomic f k) → pool_step c (atomic_step i c).
Proof.
  destruct c as [s ps]. unfold atomic_step. simpl. intros Hi. rewrite Hi. by apply step_atomic.
Qed.

End example.
