(* ===== verification/Promote.v ===== *)
(** * What a promote does (theorems on src/head.rs)

    A promote alone, whatever the engines answer: refused or failed it
    changes no record; done, the volume is headed by the target at the
    fenced epoch, over the same array and legs, those it could not reach
    marked lost, the former head on the list to clean up, every other
    volume untouched but for its export, and the claim released. *)

From S2P Require Import Prelude F64 Config Model Placement Events Refusal Async Json Inventory Sync.
From S2P Require Import Recovery App Engine Publish Replace Head Fencing.
From stdpp Require Import options.

Local Open Scope string_scope.

(** ** Legs opened again *)

(** The same leg: its node, state and volume. *)
Definition same_leg (l l' : Leg) : Prop :=
  leg_node l' = leg_node l ∧ leg_state l' = leg_state l ∧ leg_volume_id l' = leg_volume_id l.
#[export] Instance same_leg_refl : Reflexive same_leg.
Proof. done. Qed.
#[export] Instance same_leg_trans : Transitive same_leg.
Proof. intros a b c (?&?&?) (?&?&?). repeat split; congruence. Qed.

(** The volume with its legs' exports, drives and members as opened anew. *)
Definition rewired (v v' : DistVolume) : Prop :=
  ∃ ls, v' = v <| legs := ls |> ∧ Forall2 same_leg (legs v) ls.

#[export] Instance rewired_refl : Reflexive rewired.
Proof. intros v. exists (legs v). split; [by destruct v|reflexivity]. Qed.
#[export] Instance rewired_trans : Transitive rewired.
Proof.
  intros v1 v2 v3 (l2 & -> & H2) (l3 & -> & H3). exists l3. split; [done|]. simpl in H3. by transitivity l2.
Qed.

Lemma same_leg_alter (ls : list Leg) (f : Leg → Leg) (i : nat) :
  (∀ l, same_leg l (f l)) → Forall2 same_leg ls (alter f i ls).
Proof.
  intros Hf. apply Forall2_same_length_lookup. rewrite length_alter. split; [done|]. intros j x y Hx Hy.
  destruct (decide (i = j)) as [<-|].
  - rewrite list_lookup_alter_eq, Hx in Hy. simpl in Hy. simplify_eq. apply Hf.
  - rewrite list_lookup_alter_ne, Hx in Hy by done. by simplify_eq.
Qed.

Lemma same_leg_insert (ls : list Leg) (i : nat) (l l' : Leg) :
  ls !! i = Some l → same_leg l l' → Forall2 same_leg ls (<[i := l']> ls).
Proof.
  intros Hi Hs. apply Forall2_same_length_lookup. rewrite length_insert. split; [done|]. intros j x y Hx Hy.
  destruct (decide (i = j)) as [<-|].
  - rewrite list_lookup_insert_eq in Hy by (by eapply lookup_lt_Some). by simplify_eq.
  - rewrite list_lookup_insert_ne, Hx in Hy by done. by simplify_eq.
Qed.

Lemma rewired_legs (v : DistVolume) (f : list Leg → list Leg) :
  Forall2 same_leg (legs v) (f (legs v)) → rewired v (v <| legs ::= f |>).
Proof. intros Hf. by exists (f (legs v)). Qed.

Section rewiring.
Context {J : Type} `{Json J} `{HttpShow}.
Context `{Deserialize J EngineVolume} `{Deserialize J Slab} `{Deserialize J Discovery}.
Context (cfg : Config).

Lemma open_leg_on_rewired (vol : DistVolume) engines target te b i :
  rewired vol b.1 → yields (λ r, match r with Ok b => rewired vol b.1 | Err _ => True end)
    (open_leg_on (J:=J) cfg engines target te b i).
Proof.
  intros Hb. unfold open_leg_on. destruct b as [v uuids]. simpl in Hb.
  destruct (legs v !! i) as [leg|] eqn:Hi; [|done].
  destruct (engines !! leg_node leg), (leg_volume_id leg); try exact I.
  yield_step. destruct a as [att|]; [|exact I]. yield_step. destruct a as [u|]; [|exact I].
  simpl. etransitivity; [exact Hb|]. eexists. split; [reflexivity|]. by eapply same_leg_insert.
Qed.

Lemma note_members_same r idxs ls : Forall2 same_leg ls (foldl (note_member_of r) ls idxs).
Proof.
  revert ls. induction idxs as [|i idxs IH]; intros ls; simpl; [reflexivity|].
  transitivity (note_member_of r ls i); [|apply IH].
  apply same_leg_alter. intros l. by destruct (find_first _ _).
Qed.

Lemma assemble_on_rewired vol idxs target te engines :
  yields (λ r, match r with Ok b => rewired vol b.1 | Err _ => True end)
    (assemble_on (J:=J) cfg vol idxs target te engines).
Proof.
  unfold assemble_on. destruct (array_id vol) as [aid|]; [|exact I].
  eapply yields_bind_ok with (P := λ b, rewired vol b.1).
  { apply yields_for_try with (P := λ b, rewired vol b.1); [|reflexivity]. intros b a. apply open_leg_on_rewired. }
  intros [v uuids] Hv. simpl in Hv. yield_step. destruct a as [report|]; [|exact I].
  case_match; [exact I|]. yield_step.
  eapply yields_bind with (P := λ v', rewired vol v').
  { destruct a as [a|]; [|exact Hv]. yield_step. simpl. etransitivity; [exact Hv|]. eexists. split; [reflexivity|]. apply note_members_same. }
  intros v' Hv'. yield_step. yield_step. exact Hv'.
Qed.

Lemma reattach_rewired (vol : DistVolume) engines h :
  yields (rewired vol) (reattach_legs (J:=J) cfg vol engines h).
Proof.
  unfold reattach_legs. eapply yields_bind with (P := Forall2 same_leg (legs vol)).
  2:{ intros ls Hls. simpl. by exists ls. }
  induction (legs vol) as [|l ls IH]; cbn [reattach_loop]; [constructor|].
  eapply yields_bind with (P := same_leg l).
  { destruct (leg_state l == Created); [|done]. destruct (engines !! leg_node l) as [e|]; [|done].
    destruct (leg_volume_id l) eqn:E; [|done]. yield_step. simpl. by destruct a. }
  intros l' Hl'. eapply yields_bind; [exact IH|]. intros ls' Hls'. by constructor.
Qed.

Lemma open_leg_on_quiet engines target te b i : Quiet (open_leg_on (J:=J) cfg engines target te b i).
Proof. unfold open_leg_on. apply _. Qed.
#[local] Existing Instance open_leg_on_quiet.
#[export] Instance assemble_on_quiet vol idxs target te engines :
  Quiet (assemble_on (J:=J) cfg vol idxs target te engines).
Proof. unfold assemble_on. apply _. Qed.
#[export] Instance reattach_quiet vol engines h : Quiet (reattach_legs (J:=J) cfg vol engines h).
Proof.
  unfold reattach_legs. apply quiet_bind; [|apply _].
  induction (legs vol) as [|l ls IH]; cbn [reattach_loop]; apply _.
Qed.
End rewiring.

(** ** The record after a promote *)

(** From [s] to [s'] the volume [nm] was promoted to [target] at the fenced
    epoch [fe]. *)
Definition promote_done (nm target : string) (fe : Z) (s s' : App) : Prop :=
  ∃ v old v', volumes (fed s) !! nm = Some v
    ∧ check_promote v target fe (node_healthy (fed s) target) = Ok old
    ∧ volumes (fed s') !! nm = Some v'
    ∧ head v' = Some target ∧ fenced v' = false ∧ epoch v' = fe ∧ array_id v' = array_id v
    ∧ map leg_node (legs v') = map leg_node (legs v)
    ∧ map leg_volume_id (legs v') = map leg_volume_id (legs v)
    ∧ (old = Some target → map leg_state (legs v') = map leg_state (legs v)
         ∧ stale_heads (fed s') = stale_heads (fed s))
    ∧ (old ≠ Some target →
         map_or false (node_healthy (fed s)) old = false
         ∧ (∀ l, l ∈ legs v' → leg_state l = Created → node_healthy (fed s) (leg_node l) = true)
         ∧ assembly v' = all_created (legs v')
         ∧ (∀ h, old = Some h → h ≠ "" → ∃ x, stale_heads (fed s') = stale_heads (fed s) ++ [x]
              ∧ sh_node x = h ∧ sh_of_volume x = nm ∧ Some (sh_array_id x) = array_id v ∧ sh_epoch x = fe)%list)
    ∧ ∀ k, k ≠ nm → core <$> volumes (fed s') !! k = core <$> volumes (fed s) !! k.

Lemma core_eq v v' : core v' = core v →
  head v' = head v ∧ fenced v' = fenced v ∧ epoch v' = epoch v ∧ array_id v' = array_id v ∧ assembly v' = assembly v
  ∧ map leg_node (legs v') = map leg_node (legs v) ∧ map leg_state (legs v') = map leg_state (legs v)
  ∧ map leg_volume_id (legs v') = map leg_volume_id (legs v).
Proof.
  intros H. repeat split.
  1: by change (head (core v') = head (core v)); rewrite H.
  1: by change (fenced (core v') = fenced (core v)); rewrite H.
  1: by change (epoch (core v') = epoch (core v)); rewrite H.
  1: by change (array_id (core v') = array_id (core v)); rewrite H.
  1: by change (assembly (core v') = assembly (core v)); rewrite H.
  all: assert (legs (core v') = legs (core v)) as Hl by (by rewrite H); unfold core in Hl; simpl in Hl.
  - by apply (f_equal (map leg_node)) in Hl; rewrite !map_map in Hl.
  - by apply (f_equal (map leg_state)) in Hl; rewrite !map_map in Hl.
  - by apply (f_equal (map leg_volume_id)) in Hl; rewrite !map_map in Hl.
Qed.

(** A fact of every leg's node and state can be read off those. *)
Lemma legs_states (P : string → LegState → Prop) (ls ls' : list Leg) :
  map leg_node ls' = map leg_node ls → map leg_state ls' = map leg_state ls →
  (∀ l, l ∈ ls → P (leg_node l) (leg_state l)) → ∀ l, l ∈ ls' → P (leg_node l) (leg_state l).
Proof.
  revert ls. induction ls' as [|l' ls' IH]; intros [|l ls] Hn Hs HP x Hx; simplify_eq/=.
  { by apply not_elem_of_nil in Hx. }
  apply elem_of_cons in Hx as [->|Hx].
  - match goal with E1 : leg_node _ = _, E2 : leg_state _ = _ |- _ => rewrite E1, E2 end. apply HP. by left.
  - eapply (IH ls); eauto. intros y Hy. apply HP. by right.
Qed.

Lemma all_created_states (ls ls' : list Leg) :
  map leg_state ls' = map leg_state ls → all_created ls' = all_created ls.
Proof.
  intros H. unfold all_created. assert (forallb (λ l, leg_state l == Created) ls' = forallb (λ l, leg_state l == Created) ls)
    as ->; [|done].
  revert ls H. induction ls' as [|l' ls' IH]; intros [|l ls] H; simplify_eq/=; [done|].
  match goal with E : leg_state _ = _ |- _ => rewrite E end. f_equal. by apply IH.
Qed.

Lemma promote_done_export nm target fe s s2 s' :
  promote_done nm target fe s s2 → export_step s2 s' → promote_done nm target fe s s'.
Proof.
  intros (v & old & v2 & Hv & Hc & Hv2 & Hh & Hf & He & Ha & Hn & Hi & Hsame & Hnew & Hk) (Hvols & _ & _ & _ & Hst & _).
  assert (∀ k, core <$> volumes (fed s') !! k = core <$> volumes (fed s2) !! k) as Hcore.
  { intros k. by rewrite <-!lookup_fmap, Hvols. }
  pose proof (Hcore nm) as Hnm. rewrite Hv2 in Hnm.
  destruct (volumes (fed s') !! nm) as [v'|] eqn:Hv'; [|discriminate Hnm].
  change (Some (core v') = Some (core v2)) in Hnm. assert (core v' = core v2) as Hcv by congruence. clear Hnm.
  destruct (core_eq _ _ Hcv) as (Eh & Ef & Ee & Ea & Eas & En & Es & Ei).
  exists v, old, v'. repeat (split; [congruence|]). split.
  { intros Ho. destruct (Hsame Ho). split; congruence. }
  split; [|intros k Hne; rewrite Hcore; by apply Hk].
  intros Ho. destruct (Hnew Ho) as (Hdead & Hup & Has & Hstale). split; [done|]. split.
  - apply (legs_states (λ n st, st = Created → node_healthy (fed s) n = true) (legs v2)); auto.
  - split; [by rewrite Eas, Has; symmetry; apply all_created_states|].
    intros h Hh' Hne. rewrite Hst. by apply Hstale.
Qed.

Lemma leg_engines_healthy et ac fd vol n e :
  leg_engines et ac fd vol !! n = Some e → node_healthy fd n = true.
Proof.
  unfold leg_engines. assert (∀ m : gmap string Engine, (∀ k x, m !! k = Some x → node_healthy fd k = true) →
    foldl (λ m l, match opt_filter (λ n, healthy (status n)) (nodes fd !! leg_node l) with
                  | Some n => <[leg_node l := engine_for et ac n]> m | None => m end) m (legs vol) !! n = Some e →
    node_healthy fd n = true) as H; [|apply (H ∅); intros ??; by rewrite lookup_empty].
  induction (legs vol) as [|l ls IH]; intros m Hm; simpl; [apply Hm|]. apply IH.
  destruct (opt_filter _ _) as [x|] eqn:Ex; [|done]. intros k y Hk.
  apply lookup_insert_Some in Hk as [[<- _]|[_ Hk]]; [|by eapply Hm].
  apply opt_filter_Some in Ex as [Hx Hh]. apply node_healthy_true. by exists x.
Qed.

Lemma check_promote_epoch v target fe th h :
  check_promote v target fe th = Ok h → h = head v ∧ epoch v = fe.
Proof.
  unfold check_promote. destruct (fenced v), (Z.eqb_spec (epoch v) fe); simpl; try done.
  destruct (is_some (dual_attach v)), (mirrored (assembly v)), (is_some (replacing v)); simpl; try done.
  destruct (ok_or _ _) as [l|]; simpl; [|done]. repeat case_head; simpl; try done; by intros [= <-].
Qed.

Lemma same_leg_maps ls ls' : Forall2 same_leg ls ls' →
  map leg_node ls' = map leg_node ls ∧ map leg_state ls' = map leg_state ls
  ∧ map leg_volume_id ls' = map leg_volume_id ls.
Proof.
  induction 1 as [|l l' ls ls' (H1 & H2 & H3) _ (IH1 & IH2 & IH3)]; simpl; [done|]. repeat split; congruence.
Qed.

(** Promoting the head it has. *)
Lemma promote_done_same nm target fe s v v2 :
  volumes (fed s) !! nm = Some v → check_promote v target fe (node_healthy (fed s) target) = Ok (Some target) →
  rewired v v2 → name v = nm →
  promote_done nm target fe s
    (s <| fed ::= λ fd, bump (fd <| volumes ::= <[name v2 := v2 <| fenced := false |>]> |>) |>).
Proof.
  intros Hv Hc (ls & -> & Hls) Hn. destruct (check_promote_epoch _ _ _ _ _ Hc) as [Hh He].
  destruct (same_leg_maps _ _ Hls) as (E1 & E2 & E3).
  eexists v, (Some target), _. split; [done|]. split; [done|]. simpl. rewrite Hn, lookup_insert_eq.
  split; [reflexivity|]. simpl. do 7 (split; [done|]). split; [by intros []|].
  intros k Hk. by rewrite lookup_insert_ne by congruence.
Qed.

(** Moving the head. *)
Lemma promote_done_moved et ac nm target fe s v v2 old aid served now :
  volumes (fed s) !! nm = Some v → check_promote v target fe (node_healthy (fed s) target) = Ok old →
  old ≠ Some target → map_or false (node_healthy (fed s)) old = false → array_id v = Some aid → rewired v v2 →
  promote_done nm target fe s
    (record_promoted nm (unwrap_or "" old) (stale_head_of v2 nm (unwrap_or "" old) aid now)
       (promoted v2 target (leg_engines et ac (fed s) v) served) s).
Proof.
  intros Hv Hc Hne Hdead Ha (ls & -> & Hls). destruct (check_promote_epoch _ _ _ _ _ Hc) as [Hh He].
  destruct (same_leg_maps _ _ Hls) as (E1 & E2 & E3). set (engines := leg_engines et ac (fed s) v).
  assert (∀ l, leg_node (lose_unreachable engines l) = leg_node l
             ∧ leg_volume_id (lose_unreachable engines l) = leg_volume_id l) as Hlu
    by (intros l; unfold lose_unreachable; by case_head).
  exists v, old, (promoted (v <| legs := ls |>) target engines served).
  split; [done|]. split; [done|]. split.
  { unfold record_promoted. simpl. destruct (unwrap_or "" old != ""); simpl; by rewrite lookup_insert_eq. }
  unfold promoted. simpl. do 4 (split; [done|]). split.
  { rewrite map_map, <-E1. apply map_ext. intros l. apply Hlu. }
  split. { rewrite map_map, <-E3. apply map_ext. intros l. apply Hlu. }
  split; [done|]. split.
  - intros _. split; [done|]. split; [|split; [done|]].
    + intros l Hl Hst. change (l ∈ lose_unreachable engines <$> ls) in Hl.
      apply list_elem_of_fmap in Hl as (l0 & -> & _). rewrite (proj1 (Hlu l0)). revert Hst. unfold lose_unreachable.
      destruct (leg_state l0 == Created) eqn:Ec; simpl.
      * destruct (engines !! leg_node l0) eqn:Ee; simpl; [|done]. intros _. by eapply leg_engines_healthy.
      * intros Hst. by rewrite Hst in Ec.
    + intros h -> Hh'. eexists. unfold record_promoted. simpl. rewrite (proj2 (neqb_true h "")) by done. simpl.
      split; [reflexivity|]. simpl. by rewrite Ha.
  - intros k Hk. unfold record_promoted. simpl. by destruct (unwrap_or "" old != ""); simpl; rewrite lookup_insert_ne.
Qed.

(** ** The handler *)

Section promote.
Context {J : Type} `{Json J} `{HttpShow}.
Context `{Deserialize J EngineVolume} `{Deserialize J Slab} `{Deserialize J Discovery}.
Context (cfg : Config) (engine_token : NodeConfig → option string) (admin_credential : string → option string).

(** What a promote comes to, claimed: errors change no record. *)
Definition promote_post (nm target : string) (fe : Z) (s : App) {A : Type} (r : result A Sync.Refusal) (s' : App) : Prop :=
  claims s' = claims s ∧ match r with Err _ => fed s' = fed s | Ok _ => promote_done nm target fe s s' end.

Lemma promote_reading_Ok nm target fe fd v old alive engines :
  promote_reading engine_token admin_credential nm target fe fd = Ok (v, old, alive, engines) →
  volumes fd !! nm = Some v ∧ check_promote v target fe (node_healthy fd target) = Ok old
  ∧ alive = map_or false (node_healthy fd) old ∧ engines = leg_engines engine_token admin_credential fd v.
Proof.
  unfold promote_reading. destruct (volumes fd !! nm) as [v0|]; simpl; [|done].
  destruct (check_promote v0 target fe _) as [old0|] eqn:Ec; simpl; [|done]. intros [= <- <- <- <-]. done.
Qed.

(** Steps that only export or report keep what was done. *)
Lemma wp_tail {A : Type} nm target fe s s2 (p : handler J unit) (k : handler J (result A Sync.Refusal)) :
  guar export_step p → guar export_step k → yields (λ r, is_ok r = true) k →
  claims s2 = claims s → promote_done nm target fe s s2 →
  alone (p ;! k) (promote_post nm target fe s) s2.
Proof.
  intros Hp Hk Hy Hc Hd. apply (guar_wp_any export_step (λ r, is_ok r = true)); [apply _..| | |].
  - by apply guar_bind.
  - eapply yields_bind; [apply yields_True|done].
  - intros [a|] s' Hs' Hok; [|done]. split.
    + destruct Hs' as (_ & _ & -> & _). done.
    + by eapply promote_done_export.
Qed.

Lemma view_of_export nm : guar (E:=Call J) export_step (view_of nm).
Proof. unfold view_of. by repeat guar_step. Qed.
Lemma view_tail_export nm : guar (E:=Call J) export_step
  (let! v := view_of nm in Ret (Ok v) : handler J (result (option View) Sync.Refusal)).
Proof. apply guar_bind; [apply view_of_export|done]. Qed.

Lemma take_over_wp nm target fe s v old aid te idxs :
  volumes (fed s) !! nm = Some v → check_promote v target fe (node_healthy (fed s) target) = Ok old →
  old ≠ Some target → map_or false (node_healthy (fed s)) old = false → array_id v = Some aid →
  alone (take_over cfg engine_token admin_credential nm target fe v old aid te
         (leg_engines engine_token admin_credential (fed s) v) idxs) (promote_post nm target fe s) s.
Proof.
  intros Hv Hc Hne Hdead Ha. unfold take_over.
  eapply wp_quiet; [apply _|apply assemble_on_rewired|]. intros [[v2 served]|e] Hr; cbn beta iota; [|by split].
  simpl in Hr. eapply wp_quiet; [apply _|apply yields_True|]. intros now _. cbv zeta.
  apply wp_bind, wp_writes; [done|].
  eapply wp_quiet; [apply _|apply yields_True|]. intros _ _.
  apply wp_bind. eapply (guar_wp_any export_step (λ _, True)); [apply _..|apply guar_event_of|apply yields_True|].
  intros _ s3 Hs3 _. apply wp_tail; [|apply view_tail_export| | |].
  - destruct served.
    + apply guar_bind; [apply publish_guar|intros _; apply publish_clones_guar].
    + apply guar_bind; [|intros _; apply guar_bind; [done|intros _; apply guar_event_of]].
      apply guar_writes. intros s4. split; [|done]. apply update_volume_core. intros w. reflexivity.
  - eapply yields_bind; [apply yields_True|done].
  - destruct Hs3 as (_ & _ & -> & _). done.
  - eapply promote_done_export; [|exact Hs3]. by apply promote_done_moved.
Qed.

Lemma promote_claimed_wp nm target fe s :
  (∀ v, volumes (fed s) !! nm = Some v → name v = nm) →
  alone (promote_claimed cfg engine_token admin_credential nm target fe) (promote_post nm target fe s) s.
Proof.
  intros Hnm. unfold promote_claimed. apply wp_bind, wp_reads; [done|].
  destruct (promote_reading _ _ nm target fe (fed s)) as [[[[v old] alive] engines]|e] eqn:Er; [|by split].
  apply promote_reading_Ok in Er as (Hv & Hc & -> & ->).
  destruct (array_id v) as [aid|] eqn:Ha; [|by split].
  destruct (leg_engines _ _ (fed s) v !! target) as [te|]; [|by split].
  destruct (old == Some target) eqn:Eo.
  - apply eqb_prop in Eo as ->.
    eapply wp_quiet; [apply _|apply reattach_rewired|]. intros v2 Hr.
    unfold store. apply wp_bind, wp_bind, wp_writes; [done|].
    apply (guar_wp_any eq (λ _, True)); [apply _..|apply publish_change_quiet|apply yields_True|]. intros _ s2 <- _.
    apply wp_tail; [apply guar_event_of|apply view_tail_export|by eapply yields_bind; [apply yields_True|]|done|].
    apply (promote_done_same nm target fe s v v2); auto.
  - apply eqb_nprop in Eo. destruct (map_or false (node_healthy (fed s)) old) eqn:El; [by split|].
    by apply take_over_wp.
Qed.

(** C3: a promote alone, whatever the engines answer. It runs only when the
    volume is not claimed, and leaves the claims as they were. Refused or
    failed, it changes no record. Done, the volume was fenced at exactly
    this epoch and promotable to the target; it is now headed by the target,
    no longer fenced, at that epoch, over the same array and the same legs'
    volumes; if the head moved, the old one was not answering, every leg
    still in use is on a node that answers, the assembly says whether all
    are, and the former head is listed to be cleaned up; every other volume
    changed in its export at most. *)
Theorem promote_spec {W : Type} (env : ∀ R, Call J R → W → R * W) (nm target : string) (fe : Z) (s : App) (w : W)
  (Hnm : ∀ v, volumes (fed s) !! nm = Some v → name v = nm) :
  let p := promote cfg engine_token admin_credential nm target fe in
  claims (run_state env p s w) = claims s
  ∧ match run_value env p s w with
    | Err _ => fed (run_state env p s w) = fed s
    | Ok _ => (nm ∉ claims s) ∧ promote_done nm target fe s (run_state env p s w)
    end.
Proof.
  intros p. apply (wp_run env (λ _ _, True) p (λ r s', claims s' = claims s ∧
    match r with Err _ => fed s' = fed s | Ok _ => (nm ∉ claims s) ∧ promote_done nm target fe s s' end)).
  subst p. unfold promote, claim. apply wp_bind, wp_atomic; [done|]. cbn [fst snd].
  case_bool_decide as Hc; cbn [negb].
  - apply wp_bind. eapply wp_mono; [by apply promote_claimed_wp|]. intros r s2 [Hcl Hr].
    unfold release. apply wp_bind, wp_writes; [done|]. simpl. split; [rewrite Hcl; simpl; set_solver|].
    destruct r; [|exact Hr]. split; [done|]. exact Hr.
  - split; [set_solver|done].
Qed.
End promote.

(** ** Witness *)

Section example.
#[local] Existing Instances no_text no_volume no_slab no_discovery.

Lemma promote_spec_witness :
  let p := promote example_cfg (λ _, None) (λ _, None) "db" "n2" 2 in
  look (run_state race_env p race_app tt) = Some (2%Z, false, Some "n2")
  ∧ (claims (run_state race_env p race_app tt) = claims race_app
     ∧ match run_value race_env p race_app tt with
       | Err _ => fed (run_state race_env p race_app tt) = fed race_app
       | Ok _ => ("db" ∉ claims race_app) ∧ promote_done "db" "n2" 2 race_app (run_state race_env p race_app tt)
       end).
Proof.
  intros p. split; [vm_compute; reflexivity|].
  assert (∀ v, volumes (fed race_app) !! "db" = Some v → name v = "db") as Hnm
    by (intros v Hv; vm_compute in Hv; injection Hv as <-; reflexivity).
  exact (promote_spec example_cfg (λ _, None) (λ _, None) race_env "db" "n2" 2 race_app tt Hnm).
Defined.
End example.
