(* ===== verification/Moves.v ===== *)
(** * What moving a leg does (theorems on src/orchestrate.rs)

    Starting a replacement: a failed start leaves nothing on the record and
    the claim free, a started one records a whole new leg in a place the
    volume may use. Finishing one: the wait for the rebuild ends when the
    engine is silent for the timeout; then, by what the wait saw, the new
    leg takes exactly the old one's place, or the old one is kept and the
    next attempt put off; either way nothing is left in flight. *)

From S2P Require Import Prelude F64 Config Model Placement Events Refusal Async Json Inventory Sync.
From S2P Require Import Recovery App Engine Publish Replace Fencing.
From stdpp Require Import options.

Local Open Scope string_scope.

(** ** Where a replacement goes *)

(** [target] may take the place of [v]'s leg on [from]: it answers and
    carries no leg of [v]; chosen by placement, it shares no failure domain
    with a staying leg and has room. *)
Definition good_target (cfg : Config) (fd : FedState) (v : DistVolume) (from : string) (to : option string)
    (target : string) : Prop :=
  (∀ l, l ∈ legs v → leg_node l ≠ target)
  ∧ (∀ t, to = Some t → target = t)
  ∧ ∃ n, nodes fd !! target = Some n ∧ healthy (status n) = true
      ∧ (to = None → (leg_bytes v ≤ free_bytes (status n))%Z
           ∧ ∀ l ln, l ∈ legs v → leg_node l ≠ from → nodes fd !! leg_node l = Some ln →
               domain_at (labels ln) (rungs cfg) (rung v) ≠ domain_at (labels n) (rungs cfg) (rung v)).

(** Nodes are kept under their names. *)
Definition nodes_named (fd : FedState) : Prop := ∀ k n, nodes fd !! k = Some n → nc_name (config n) = k.

Section target.
Context (cfg : Config) (engine_token : NodeConfig → option string) (admin_credential : string → option string).

Lemma replacement_target_Ok fd nm from to v h target te he :
  nodes_named fd →
  replacement_target cfg engine_token admin_credential fd nm from to = Ok (v, h, target, te, he) →
  volumes fd !! nm = Some v ∧ mirrored (assembly v) = true ∧ replacing v = None ∧ head v = Some h
  ∧ node_healthy fd h = true ∧ (∃ l, l ∈ legs v ∧ leg_node l = from) ∧ good_target cfg fd v from to target.
Proof.
  intros Hwf. unfold replacement_target. destruct (volumes fd !! nm) as [v0|]; simpl; [|done].
  destruct (mirrored (assembly v0)) eqn:Em; simpl; [|done]. destruct (replacing v0) eqn:Er; simpl; [done|].
  destruct (existsb _ (legs v0)) eqn:Ef; simpl; [|done]. destruct (head v0) as [h0|] eqn:Eh; simpl; [|done].
  destruct (node_healthy fd h0) eqn:Eu; simpl; [|done]. intros Ht. apply existsb_true in Ef as (l & Hl & Hlf%eqb_prop).
  match type of Ht with result_bind ?c _ = _ => destruct c as [tg|] eqn:Ec; simpl in Ht; [|discriminate] end.
  destruct (engine_of _ _ fd tg); simpl in Ht; [|discriminate].
  destruct (engine_of _ _ fd h0); simpl in Ht; [|discriminate]. injection Ht as <- <- <- _ _.
  repeat (split; [done|]). split; [by exists l|]. clear Hl Hlf. destruct to as [t|].
  - destruct (nodes fd !! t) as [n|] eqn:En; simpl in Ec; [|discriminate].
    destruct (healthy (status n)) eqn:Hn; simpl in Ec; [|discriminate].
    destruct (existsb _ (legs v0)) eqn:Ex; [discriminate|]. injection Ec as <-. rewrite existsb_false in Ex.
    split; [intros l' Hl'; by apply eqb_nprop, Ex|]. split; [by intros t' [= ->]|]. by exists n.
  - destruct (plan _ _ _ _ _ _) as [picks|] eqn:Ep; simpl in Ec; [|discriminate].
    destruct (picks !! 0%nat) as [p|] eqn:E0; simpl in Ec; [|discriminate]. injection Ec as ->.
    destruct (plan_elem _ _ _ _ _ _ _ _ Ep (list_elem_of_lookup_2 _ _ _ E0)) as (c & Hc & Hroom & ->).
    apply elem_of_move_targets in Hc as (k & n & Hk & -> & Hup & Hno & Hdom). simpl in *.
    rewrite (Hwf k n Hk) in *. split; [done|]. split; [done|]. by exists n.
Qed.
End target.

(** ** Starting *)

Section start.
Context {J : Type} `{Json J} `{HttpShow}.
Context `{Deserialize J EngineVolume} `{Deserialize J Slab} `{Deserialize J Discovery}.
Context (cfg : Config) (engine_token : NodeConfig → option string) (admin_credential : string → option string).

(** A leg made on [target], exported to the head and in its array. *)
Definition wired (target : string) (leg : Leg) : Prop :=
  leg_node leg = target ∧ leg_state leg = Created ∧ is_Some (leg_volume_id leg) ∧ is_Some (leg_export leg)
  ∧ is_Some (leg_drive_uuid leg) ∧ is_Some (leg_member_uuid leg).

#[export] Instance wire_leg_quiet vol h aid te he leg : Quiet (wire_leg (J:=J) cfg vol h aid te he leg).
Proof. unfold wire_leg. apply _. Qed.
#[export] Instance undo_leg_quiet he aid te leg : Quiet (undo_leg (J:=J) he aid te leg).
Proof. unfold undo_leg. apply _. Qed.

Lemma wire_leg_wired vol h aid te he leg :
  leg_state leg = Created → is_Some (leg_volume_id leg) →
  yields (λ '(l, r), is_ok r = true → wired (leg_node leg) l) (wire_leg (J:=J) cfg vol h aid te he leg).
Proof.
  intros Hs Hv. unfold wire_leg. yield_step. destruct a as [att|]; [|done]. yield_step.
  destruct a as [drive|]; [|done]. yield_step. yield_step. destruct a0 as [m|]; simpl; [|done].
  intros _. repeat split; simpl; eauto.
Qed.

(** The volume [nm] has a replacement of its leg on [from] in flight. *)
Definition replacement_started (nm from : string) (to : option string) (reason target : string) (s s' : App) : Prop :=
  ∃ v leg now, volumes (fed s) !! nm = Some v
    ∧ mirrored (assembly v) = true ∧ replacing v = None
    ∧ is_some_and (node_healthy (fed s)) (head v) = true
    ∧ (∃ l, l ∈ legs v ∧ leg_node l = from)
    ∧ good_target cfg (fed s) v from to target ∧ wired target leg
    ∧ fed s' = bump (update_volume (fed s) nm (λ v, v <| replacing :=
        Some {| rep_from := from; rep_leg := leg; rep_reason := reason; rep_started_at := now |} |>)).

Definition build_post nm from to reason (s : App) (r : result string EngineError) (s' : App) : Prop :=
  claims s' = claims s
  ∧ match r with
    | Err _ => fed s' = fed s
    | Ok target => replacement_started nm from to reason target s s'
    end.

Lemma build_replacement_wp nm from to reason s :
  nodes_named (fed s) →
  alone (build_replacement cfg engine_token admin_credential nm from to reason)
    (build_post nm from to reason s) s.
Proof.
  intros Hwf. unfold build_replacement. apply wp_bind, wp_reads; [done|].
  destruct (replacement_target _ _ _ _ _ _ _) as [[[[[v h] target] te] he]|e] eqn:Et; [|by split].
  apply replacement_target_Ok in Et as (Hv & Hm & Hr & Hh & Hup & Hl & Hg); [|done].
  destruct (array_id v) as [aid|]; [|by split]. apply wp_waits; [apply _|]. intros created.
  destruct (let? c := _ in _) as [leg|e] eqn:El; [|by split].
  assert (∃ vid m, leg = replacement_leg target vid m) as (vid & m & ->).
  { destruct created as [c|]; simpl in El; [|discriminate]. destruct (get_str "id" c); simpl in El; [|discriminate].
    injection El as <-. eauto. }
  eapply wp_quiet; [apply _|by apply wire_leg_wired|]. intros [leg wr] Hw. cbn beta iota.
  destruct wr as [u|e].
  2:{ apply wp_waits; [apply _|]. intros _. by split. }
  specialize (Hw eq_refl). apply wp_waits; [apply _|]. intros now.
  apply wp_bind, wp_atomic; [done|]. unfold record_replacing. rewrite Hv. cbn [fst snd negb].
  apply wp_waits; [apply _|]. intros _. apply wp_bind.
  apply (guar_wp_any report_step (λ _, True)); [apply _..|apply event_of_report|apply yields_True|].
  intros _ s' [Hf Hc] _. split; [exact Hc|]. exists v, leg, now. repeat (split; [done|]).
  split; [by rewrite Hh|]. repeat (split; [done|]). exact Hf.
Qed.

End start.

(** ** Waiting *)

Section wait.
Context {J : Type} `{Json J} `{HttpShow}.
Context `{Deserialize J EngineVolume} `{Deserialize J Slab} `{Deserialize J Discovery}.
Context (cfg : Config).
Context {W : Type} (env : ∀ R, Call J R → W → R * W) (clock : W → Z).
(** A clock that does not turn back and that a sleep moves on. *)
Context (Hnow : ∀ w, env _ Now w = (clock w, w)).
Context (Hmono : ∀ R (c : Call J R) w, (clock w ≤ clock (env R c w).2)%Z).
Context (Hsleep : ∀ d w, (clock w + d ≤ clock (env _ (Sleep d) w).2)%Z).
(** The engine tells nothing of the member, or always the same. *)
Context (nm : string) (e : Engine) (aid member : string) (stuck : string * option Z).
Context (Hidle : stuck.1 ≠ "active" ∧ stuck.1 ≠ "failed").
Context (Hstuck : ∀ s w, match run_value env (get_array_call (J:=J) e aid) s w with
  | Ok v => member_progress member v = None ∨ member_progress member v = Some stuck
  | Err _ => True end).

Lemma run_now {A} (k : time → handler J A) s w :
  run_value env (let! now := invoke Now in k now) s w = run_value env (k (clock w)) s w.
Proof using Hnow. unfold run_value. cbn. by rewrite Hnow. Qed.

Lemma wait_reading_stuck now stall deadline seen found :
  found = None ∨ found = Some stuck → seen = None ∨ seen = Some stuck →
  wait_reading now stall deadline seen found = Waits deadline seen
  ∨ (seen = None ∧ wait_reading now stall deadline seen found = Waits (now + stall) (Some stuck)).
Proof using Hidle.
  clear Hstuck. destruct stuck as [st rb]. simpl in Hidle. unfold wait_reading.
  intros [->| ->] Hseen; [by left|].
  rewrite (proj2 (eqb_false st "active")) by apply Hidle. rewrite (proj2 (eqb_false st "failed")) by apply Hidle.
  destruct Hseen as [->| ->].
  - right. split; [done|]. by rewrite (proj2 (neqb_true _ _)).
  - left. by rewrite (proj2 (neqb_false _ _)).
Qed.

(** How much longer the wait can last: to the deadline, and once more the
    timeout if nothing was seen yet. *)
Definition wait_left (stall : Z) (deadline : time) (seen : option (string * option Z)) (w : W) : Z :=
  (Z.max (deadline - clock w) (- stall_tick stall)
   + match seen with Some _ => 0 | None => stall + 2 * stall_tick stall + 1 end)%Z.

Lemma stall_tick_pos stall : (0 < stall_tick stall)%Z.
Proof. unfold stall_tick, secs. lia. Qed.

Lemma wait_round_left stall deadline seen w w1 deadline' seen' :
  (0 ≤ stall)%Z → (clock w ≤ clock w1)%Z → seen = None ∨ seen = Some stuck →
  ((deadline', seen') = (deadline, seen)
   ∨ (seen = None ∧ deadline' = (clock w1 + stall)%Z ∧ seen' = Some stuck)) →
  (clock w1 ≤ deadline')%Z → ∀ w2, (clock w1 + stall_tick stall ≤ clock w2)%Z →
  (wait_left stall deadline' seen' w2 ≤ wait_left stall deadline seen w - stall_tick stall)%Z.
Proof.
  intros Hst Hw Hseen Hd Hle w2 Hw2. pose proof (stall_tick_pos stall). unfold wait_left.
  destruct Hd as [[= -> ->]|(-> & -> & ->)]; destruct Hseen as [?| ?]; simplify_eq; try case_match; lia.
Qed.

Lemma run_sleep {A} d (k : handler J A) s w :
  ∃ w', (clock w + d ≤ clock w')%Z ∧ run_value env (invoke (Sleep d) ;! k) s w = run_value env k s w'.
Proof using Hsleep.
  exists (env _ (Sleep d) w).2. split; [apply Hsleep|]. unfold run_value. cbn. by destruct (env _ (Sleep d) w).
Qed.

Lemma wait_rounds_stuck n stall deadline last_put seen s w :
  (0 ≤ stall)%Z → seen = None ∨ seen = Some stuck →
  (wait_left stall deadline seen w < Z.of_nat n * stall_tick stall)%Z →
  run_value env (wait_rounds cfg (S n) nm e aid member stall deadline last_put seen) s w = Some false.
Proof using Hnow Hmono Hsleep Hidle Hstuck.
  intros Hst. pose proof (stall_tick_pos stall) as Htick.
  revert deadline last_put seen s w. induction n as [|n IH]; intros deadline last_put seen s w Hseen Hleft.
  all: match goal with |- context [wait_rounds cfg (S ?k)] => remember k as m eqn:Em; cbn [wait_rounds]; subst m end.
  all: rewrite run_value_bind, run_now; specialize (Hstuck s w).
  all: set (arr := run_value env (get_array_call e aid) s w) in *; clearbody arr.
  all: set (w1 := run_world env (get_array_call e aid) s w).
  all: assert (clock w ≤ clock w1)%Z as Hw1 by (apply (run_world_mono env clock); exact Hmono).
  all: clearbody w1; generalize (run_state env (get_array_call e aid) s w); intros s1.
  all: assert (match arr with Ok v => member_progress member v | Err _ => None end = None
               ∨ match arr with Ok v => member_progress member v | Err _ => None end = Some stuck) as Hf
         by (destruct arr; auto).
  all: destruct (wait_reading_stuck (clock w1) stall deadline seen _ Hf Hseen) as [->|[-> ->]]; rewrite run_now.
  - destruct (Z.ltb_spec deadline (clock w1)); [done|]. unfold wait_left in Hleft.
    destruct Hseen; simplify_eq; lia.
  - unfold wait_left in Hleft. lia.
  - destruct (Z.ltb_spec deadline (clock w1)); [done|]. rewrite run_value_bind.
    match goal with |- context [run_world env ?p s1 w1] => pose proof (run_world_mono env clock p s1 w1 Hmono) as Hw2;
      generalize (run_state env p s1 w1), (run_value env p s1 w1); set (w2 := run_world env p s1 w1) in *; intros s2 lp end.
    destruct (run_sleep (stall_tick stall) (wait_rounds cfg (S n) nm e aid member stall deadline lp seen) s2 w2)
      as (w3 & Hw3 & ->).
    apply IH; [done|]. pose proof (wait_round_left stall deadline seen w w1 deadline seen Hst Hw1 Hseen
      (or_introl eq_refl) ltac:(lia) w3 ltac:(lia)). lia.
  - destruct (Z.ltb_spec (clock w1 + stall) (clock w1)); [done|]. rewrite run_value_bind.
    match goal with |- context [run_world env ?p s1 w1] => pose proof (run_world_mono env clock p s1 w1 Hmono) as Hw2;
      generalize (run_state env p s1 w1), (run_value env p s1 w1); set (w2 := run_world env p s1 w1) in *; intros s2 lp end.
    destruct (run_sleep (stall_tick stall) (wait_rounds cfg (S n) nm e aid member stall (clock w1 + stall) lp (Some stuck)) s2 w2)
      as (w3 & Hw3 & ->).
    apply IH; [by right|]. pose proof (wait_round_left stall deadline None w w1 (clock w1 + stall) (Some stuck) Hst Hw1 Hseen
      (or_intror (conj eq_refl (conj eq_refl eq_refl))) ltac:(lia) w3 ltac:(lia)). lia.
Qed.

(** C38: The wait for a rebuild ends: while the clock runs on and the engine
    tells nothing of the new member, or always the same of it, the wait
    gives up, within the rounds it takes to sleep through the timeout twice
    (once to see the member first, once from that on). *)
Theorem wait_gives_up (stall : Z) (fuel : nat) (s : App) (w : W) (Hst : (0 ≤ stall)%Z)
  (Hfuel : (2 * stall / stall_tick stall + 5 ≤ Z.of_nat fuel)%Z) :
  run_value env (wait_member_active cfg fuel nm e aid member stall) s w = Some false.
Proof using Hnow Hmono Hsleep Hidle Hstuck.
  pose proof (stall_tick_pos stall) as Htick. unfold wait_member_active. rewrite run_now.
  destruct fuel as [|n]; [pose proof (Z.div_pos (2 * stall) (stall_tick stall)); lia|].
  apply wait_rounds_stuck; [done|by left|]. unfold wait_left.
  pose proof (Z.mul_div_le (2 * stall) (stall_tick stall) Htick).
  pose proof (Z.mod_pos_bound (2 * stall) (stall_tick stall) Htick).
  pose proof (Z.div_mod (2 * stall) (stall_tick stall) ltac:(lia)).
  nia.
Qed.
End wait.

(** ** Finishing *)

Lemma update_first_insert {A} (p : A → bool) (f : A → A) (l : list A) :
  existsb p l = true → ∃ i x, l !! i = Some x ∧ p x = true ∧ update_first p f l = <[i := f x]> l.
Proof.
  induction l as [|x l IH]; simpl; [done|]. destruct (p x) eqn:E; simpl.
  - intros _. by exists 0%nat, x.
  - intros H. destruct (IH H) as (i & y & Hi & Hy & ->). by exists (S i), y.
Qed.

(** The new leg in the place of the first of the old node (or after the
    others, if there is none), everything else as it was. *)
Definition leg_replaced (from : string) (leg : Leg) (v v' : DistVolume) : Prop :=
  replacing v' = None ∧ next_releg_after v' = None
  ∧ (∃ i, legs v' !! i = Some (leg <| leg_message := None |>)
       ∧ (if decide (i < length (legs v))%nat then leg_node <$> legs v !! i = Some from
          else i = length (legs v) ∧ ∀ l, l ∈ legs v → leg_node l ≠ from)
       ∧ (∀ j, j ≠ i → legs v' !! j = legs v !! j))
  ∧ (assembly v' = if decide (Exists (λ l, leg_state l = Lost) (legs v')) then Degraded else Assembled)
  ∧ v' <| legs := legs v |> <| replacing := replacing v |> <| next_releg_after := next_releg_after v |>
       <| assembly := assembly v |> = v.

Lemma replacement_done_replaced from leg v : leg_replaced from leg v (replacement_done from leg v).
Proof.
  unfold replacement_done, leg_replaced. set (nl := leg <| leg_message := None |>). simpl.
  split; [done|]. split; [done|]. split; [|split; [|by destruct v]].
  - destruct (existsb _ (legs v)) eqn:E.
    + destruct (update_first_insert _ (λ _, nl) _ E) as (i & x & Hi & Hx%eqb_prop & ->).
      pose proof (lookup_lt_Some _ _ _ Hi). exists i. split; [by apply list_lookup_insert_eq|].
      rewrite decide_True by done. split; [by rewrite Hi; simpl; rewrite Hx|].
      intros j Hj. by apply list_lookup_insert_ne.
    + exists (length (legs v)). split; [by apply list_lookup_middle|]. rewrite decide_False by lia. split.
      * split; [done|]. intros l Hl Hn. rewrite existsb_false in E. specialize (E l Hl). simpl in E.
        by rewrite Hn, eqb_refl in E.
      * intros j Hj. destruct (decide (j < length (legs v))%nat); [by apply lookup_app_l|].
        rewrite !lookup_ge_None_2; [done|lia|]. rewrite length_app. simpl. lia.
  - match goal with |- context [existsb ?p ?ls] => destruct (existsb p ls) eqn:E end.
    + rewrite decide_True; [done|]. apply existsb_true in E as (l & Hl & Hs%eqb_prop). apply Exists_exists. by exists l.
    + rewrite decide_False; [done|]. intros (l & Hl & Hs)%Exists_exists. rewrite existsb_false in E.
      specialize (E l Hl). by rewrite Hs in E.
Qed.

(** The old leg kept, nothing in flight, the next attempt put off. *)
Definition leg_kept (until : time) (v v' : DistVolume) : Prop :=
  replacing v' = None ∧ next_releg_after v' = Some until ∧ legs v' = legs v ∧ assembly v' = assembly v
  ∧ v' <| replacing := replacing v |> <| next_releg_after := next_releg_after v |> = v.

Section finish.
Context {J : Type} `{Json J} `{HttpShow}.
Context `{Deserialize J EngineVolume} `{Deserialize J Slab} `{Deserialize J Discovery}.
Context (cfg : Config) (engine_token : NodeConfig → option string) (admin_credential : string → option string).

Ltac same_auto := repeat first [solve [apply quiet] | guar_step]; try done.

(** Neither the wait nor the retiring changes the state. *)
Lemma wait_rounds_same n nm e aid m stall d lp seen :
  guar eq (wait_rounds (J:=J) cfg n nm e aid m stall d lp seen).
Proof.
  revert d lp seen. induction n as [|n IH]; intros d lp seen; cbn [wait_rounds]; [done|].
  repeat first [apply IH | solve [apply quiet] | guar_step]; done.
Qed.
Lemma wait_member_same n nm e aid m stall : guar eq (wait_member_active (J:=J) cfg n nm e aid m stall).
Proof. unfold wait_member_active. apply guar_bind; [apply quiet|]. intros now. apply wait_rounds_same. Qed.
Lemma retire_leg_same he aid from old :
  guar eq (retire_leg (J:=J) engine_token admin_credential he aid from old).
Proof. unfold retire_leg. same_auto. Qed.

(** An orphan names the volume of the leg that was replaced. *)
Definition orphan_of (nm : string) (v : DistVolume) (from : string) (o : Orphan) : Prop :=
  orphan_node o = from ∧ of_volume o = nm
  ∧ ∃ l, l ∈ legs v ∧ leg_node l = from ∧ leg_volume_id l = Some (orphan_volume_id o).

(** No replacement in flight, or no engine to ask about it. *)
Definition nothing_to_finish (nm : string) (fd : FedState) : Prop :=
  ∀ v rep h aid, volumes fd !! nm = Some v → replacing v = Some rep → head v = Some h → array_id v = Some aid →
    nodes fd !! h = None ∨ nodes fd !! leg_node (rep_leg rep) = None.

(** The records with a volume's new record, the orphans added, and a new
    revision. *)
Definition with_volume (nm : string) (v' : DistVolume) (left_ : list Orphan) (fd : FedState) : FedState :=
  fd <| volumes := <[nm := v']> (volumes fd) |> <| orphans := (orphans fd ++ left_)%list |>
     <| revision := u64_add (revision fd) 1 |>.

Section env.
Context {W : Type} (env : ∀ R, Call J R → W → R * W).

(** What the end of the wait for the rebuild makes of the records. *)
Definition replacement_outcome (nm : string) (v : DistVolume) (rep : Replacement) (fd fd' : FedState)
    (active_ : option bool) : Prop :=
  match active_ with
  | Some true => ∃ v' left_, fd' = with_volume nm v' left_ fd
      ∧ leg_replaced (rep_from rep) (rep_leg rep) v v' ∧ (length left_ ≤ 1)%nat
      ∧ ∀ o, o ∈ left_ → orphan_of nm v (rep_from rep) o
  | Some false => ∃ v' w, fd' = with_volume nm v' [] fd
      ∧ leg_kept ((env _ Now w).1 + secs (cooldown_secs (recovery cfg)))%Z v v'
  | None => False
  end.

(** How a replacement in flight comes to its end. *)
Definition replacement_ended (fuel : nat) (nm : string) (s : App) (w : W) (s' : App) : Prop :=
  ∃ v rep h aid hn, volumes (fed s) !! nm = Some v ∧ replacing v = Some rep ∧ head v = Some h
    ∧ array_id v = Some aid ∧ nodes (fed s) !! h = Some hn
    ∧ replacement_outcome nm v rep (fed s) (fed s')
        (run_value env (wait_member_active cfg fuel nm (engine_for engine_token admin_credential hn) aid
           (unwrap_or "" (leg_member_uuid (rep_leg rep))) (secs (Z.max (rebuild_timeout_secs (recovery cfg)) 1))) s w).

Lemma alter_insert_volume (m : gmap string DistVolume) (f : DistVolume → DistVolume) nm v :
  m !! nm = Some v → alter f nm m = <[nm := f v]> m.
Proof.
  intros Hm. apply map_eq. intros k. rewrite lookup_insert, lookup_alter.
  destruct (decide (nm = k)) as [<-|]; [by rewrite Hm|done].
Qed.

Lemma finished_outcome nm v rep orphan s :
  volumes (fed s) !! nm = Some v → (∀ o, orphan = Some o → orphan_of nm v (rep_from rep) o) →
  replacement_outcome nm v rep (fed s) (fed (record_finished nm (rep_from rep) rep orphan s)) (Some true).
Proof.
  intros Hv Ho. exists (replacement_done (rep_from rep) (rep_leg rep) v), (option_list orphan). split.
  - unfold record_finished, with_volume, bump, update_volume. simpl.
    rewrite (alter_insert_volume _ _ nm v Hv). by destruct orphan; simpl; rewrite ?app_nil_r.
  - split; [apply replacement_done_replaced|]. split; [by destruct orphan; simpl; lia|]. intros o Hin.
    destruct orphan as [x|]; [|by apply not_elem_of_nil in Hin]. apply list_elem_of_singleton in Hin as ->. by apply Ho.
Qed.
Lemma failed_outcome nm v rep w fd :
  volumes fd !! nm = Some v →
  replacement_outcome nm v rep fd (bump (update_volume fd nm (replacement_failed cfg (env _ Now w).1))) (Some false).
Proof.
  intros Hv. exists (replacement_failed cfg (env _ Now w).1 v), w. split.
  - unfold with_volume, bump, update_volume. simpl. by rewrite (alter_insert_volume _ _ nm v Hv), app_nil_r.
  - unfold leg_kept, replacement_failed. by destruct v.
Qed.

Definition finish_post (fuel : nat) (nm : string) (s : App) (w : W) (r : option unit) (s' : App) : Prop :=
  claims s' = claims s
  ∧ match r with
    | None => fed s' = fed s
    | Some _ => (fed s' = fed s ∧ nothing_to_finish nm (fed s)) ∨ replacement_ended fuel nm s w s'
    end.

(** Publishing and telling is all that is left to do. *)
Lemma runs_told {A : Type} (knd subj : string) (sev : Severity) (msg : string) (a : A) (Q : A → App → W → Prop) s w :
  (∀ s' w', report_step s s' → Q a s' w') →
  runs env (publish_change ;! event_of (J:=J) knd subj sev msg ;! Ret a) Q s w.
Proof.
  intros HQ. apply runs_same; [apply quiet|]. intros w1. apply (runs_step env report_step); [apply _..|apply event_of_report|].
  intros _ s' w2 Hs'. by apply runs_ret, HQ.
Qed.

Lemma finish_reading_inv nm s :
  match finish_reading engine_token admin_credential nm s with
  | Some (rep, he, te, aid, h) => ∃ v hn, volumes (fed s) !! nm = Some v ∧ replacing v = Some rep ∧ head v = Some h
      ∧ array_id v = Some aid ∧ nodes (fed s) !! h = Some hn ∧ he = engine_for engine_token admin_credential hn
  | None => nothing_to_finish nm (fed s)
  end.
Proof.
  unfold finish_reading, nothing_to_finish.
  destruct (volumes (fed s) !! nm) as [v|]; simpl; [|done].
  destruct (replacing v) as [rep|] eqn:Er; simpl; [|intros v' ? ? ? [= <-]; congruence].
  destruct (head v) as [h|] eqn:Eh; simpl; [|intros v' ? ? ? [= <-]; congruence].
  destruct (array_id v) as [aid|] eqn:Ea; simpl; [|intros v' ? ? ? [= <-]; congruence].
  unfold engine_of. destruct (nodes (fed s) !! h) as [hn|] eqn:En; simpl.
  2:{ intros v' rep' h' aid' [= <-] ???. simplify_eq. auto. }
  destruct (nodes (fed s) !! leg_node (rep_leg rep)) as [tn|] eqn:Et; simpl.
  - by exists v, hn.
  - intros v' rep' h' aid' [= <-] ???. simplify_eq. auto.
Qed.

Lemma finish_inner_runs fuel nm s w :
  runs env (finish_inner cfg engine_token admin_credential fuel nm) (λ r s' _, finish_post fuel nm s w r s') s w.
Proof.
  unfold finish_inner. apply runs_bind, runs_reads. pose proof (finish_reading_inv nm s) as Hr.
  destruct (finish_reading _ _ nm s) as [[[[[rep he] te] aid] h]|]; [|by apply runs_ret; split; [|left]].
  destruct Hr as (v & hn & Hv & Hrep & Hh & Ha & Hn & ->).
  apply runs_same; [apply wait_member_same|]. intros w1.
  assert (∀ s1 s', report_step s1 s' → claims s1 = claims s →
      replacement_outcome nm v rep (fed s) (fed s1)
        (run_value env (wait_member_active cfg fuel nm (engine_for engine_token admin_credential hn) aid
           (unwrap_or "" (leg_member_uuid (rep_leg rep))) (secs (Z.max (rebuild_timeout_secs (recovery cfg)) 1))) s w) →
      finish_post fuel nm s w (Some tt) s') as Hend.
  { intros s1 s' [Hf Hc] Hcl Ho. split; [congruence|]. right. exists v, rep, h, aid, hn. rewrite Hf. auto 7. }
  destruct (run_value env (wait_member_active _ _ _ _ _ _ _) s w) as [[|]|]; [| |by apply runs_ret].
  - apply runs_bind, runs_reads, runs_same; [case_match; [apply retire_leg_same|done]|]. intros w2.
    match goal with |- context [run_value env ?p s w1] => destruct (run_value env p s w1) as [notes left_] end.
    cbn beta iota. apply runs_bind, runs_invoke, runs_bind, runs_writes.
    match goal with |- context [record_finished nm _ rep ?o] => set (orphan := o) end.
    assert (∀ o, orphan = Some o → orphan_of nm v (rep_from rep) o) as Ho.
    { intros o. unfold orphan, leg_on. rewrite Hv. simpl. destruct (find_first _ (legs v)) as [l|] eqn:Ef; simpl; [|done].
      apply find_first_Some in Ef as [Hl Hnd%eqb_prop]. destruct (leg_volume_id l) eqn:Ei; simpl; [|done].
      destruct left_; [|done]. intros [= <-]. split; [done|]. split; [done|]. by exists l. }
    clearbody orphan. destruct notes; unfold Publish.event; apply runs_told; intros s' w' Hs';
      (eapply Hend; [exact Hs'|done|]; by apply finished_outcome).
  - apply runs_same; [apply quiet|]. intros w2. apply runs_bind, runs_invoke.
    apply runs_bind, runs_writes. unfold Publish.event. apply runs_told. intros s' w' Hs'.
    eapply Hend; [exact Hs'|done|]. by apply failed_outcome.
Qed.

(** C9: a leg replacement's background task alone, whatever the engines
    answer. While the wait for the rebuild has not ended ([None]: the rounds
    allowed ran out) nothing has changed. When it ends the claim is let go
    and nothing is left in flight: if the wait saw the new leg active, it
    stands in the old one's place, every other leg untouched, the assembly
    again saying whether a leg is lost, and the old leg's volume is listed as
    an orphan at most once; if the wait gave up, legs and assembly are kept
    and the next attempt is put off by the cooldown. Nothing else of the
    volume changes, and no other record. (A record with nothing to finish,
    or no engine to ask, is left as it is.) *)
Theorem finish_replacement_spec (fuel : nat) (nm : string) (s : App) (w : W) :
  let s' := run_state env (finish_replacement cfg engine_token admin_credential fuel nm) s w in
  match run_value env (finish_inner cfg engine_token admin_credential fuel nm) s w with
  | None => fed s' = fed s ∧ claims s' = claims s
  | Some _ => claims s' = claims s ∖ {[nm]}
      ∧ ((fed s' = fed s ∧ nothing_to_finish nm (fed s)) ∨ replacement_ended fuel nm s w s')
  end.
Proof.
  intros s'. subst s'. unfold finish_replacement. rewrite run_state_bind.
  pose proof (finish_inner_runs fuel nm s w) as [Hc Hr].
  set (s2 := run_state env (finish_inner _ _ _ fuel nm) s w) in *. clearbody s2.
  generalize (run_world env (finish_inner cfg engine_token admin_credential fuel nm) s w). intros w2.
  destruct (run_value env (finish_inner _ _ _ fuel nm) s w) as [u|]; [|by split].
  unfold run_state. simpl. rewrite Hc. split; [done|].
  destruct Hr as [Hr|Hr]; [left|right]; exact Hr.
Qed.
End env.
End finish.

(** ** Witnesses *)

Section example.
#[local] Existing Instances no_text no_volume no_slab no_discovery.

(** All nodes answer; [n4] holds no leg. *)
Definition move_app : App :=
  App_new (FedState_default
    <| nodes := {["n1" := lone_node "n1" true; "n2" := lone_node "n2" true;
                  "n3" := lone_node "n3" true; "n4" := lone_node "n4" true]} |>
    <| volumes := {["db" := example_volume]} |>) None.


(** A clock of nanoseconds, and an engine that says nothing. *)
Definition silent_env (R : Type) (c : Call Tree R) (w : Z) : R * Z :=
  match c in Call _ R return R * Z with
  | Http _ _ _ _ _ => (Ok (200%Z, Some (TObj [])), w)
  | HttpText _ _ => (Err "no route", w)
  | Now => (w, w)
  | Sleep d => (tt, (w + Z.max d 0)%Z)
  | PushToPeers | Persist => (tt, w)
  end.

Lemma wait_gives_up_witness :
  (0 ≤ secs 60)%Z
  ∧ run_value silent_env (wait_member_active example_cfg 60 "db" (engine_for (λ _, None) (λ _, None) (lone_node "n1" true))
      "ARR" "m-new" (secs 60)) move_app 0%Z = Some false.
Proof.
  assert (0 ≤ secs 60)%Z as Hst by (vm_compute; discriminate). split; [exact Hst|].
  refine (wait_gives_up example_cfg silent_env (λ w, w) _ _ _ "db" _ "ARR" "m-new" ("rebuilding", None) _ _
    (secs 60) 60 move_app 0%Z Hst _).
  - reflexivity.
  - intros R c w. destruct c; simpl; lia.
  - intros d w. simpl. lia.
  - split; discriminate.
  - intros s w. left. reflexivity.
  - vm_compute. discriminate.
Defined.
End example.
