(* ===== verification/Replicate.v ===== *)
(** * Replication between peers (src/replicate.rs)

    What one instance sends its peers after a change, and what a peer makes
    of it: the payload replaces the durable records when its revision is
    newer and is dropped otherwise; nodes a peer configures itself are never
    overwritten, and no node is ever removed.

    [net_step] is a network of instances of which one changes records, most
    of the time counting a revision: payloads are sent by anyone, and lost,
    repeated and reordered at will. Shown over every run: what an instance
    holds is what the writer held at that revision, revisions do not go back
    and are not ahead of the writer's, and a payload of the writer's with a
    newer revision brings any instance up to it. A change that counts no
    revision waits for the next one that does. *)

From stdpp Require Import relations.
From S2P Require Import Prelude F64 Config Model Events Refusal Async Json Inventory Sync App.
From stdpp Require Import options.

Local Open Scope string_scope.

Record Payload := MkPayload {
  pl_revision : Z;
  pl_volumes : gmap string DistVolume;
  pl_registered : list NodeConfig;
  pl_orphans : list Orphan;
  pl_stale_heads : list StaleHead;
  pl_snapshots : gmap string Snapshot;
  pl_group_snapshots : gmap string GroupSnapshot;
  pl_backups : gmap string Backup;
  pl_vm_migrations : gmap string VmMigration;
}.

Definition is_registered (n : Node) : bool := source (status n) == Registered.

Definition build_payload (fed : FedState) : Payload :=
  {| pl_revision := revision fed;
     pl_volumes := volumes fed;
     pl_registered := map config (List.filter is_registered (bt_values (nodes fed)));
     pl_orphans := orphans fed;
     pl_stale_heads := stale_heads fed;
     pl_snapshots := snapshots fed;
     pl_group_snapshots := group_snapshots fed;
     pl_backups := backups fed;
     pl_vm_migrations := vm_migrations fed |}.

(** The loop body over [payload.registered]. *)
Definition merge_registered (ns : gmap string Node) (nc : NodeConfig) : gmap string Node :=
  match ns !! nc_name nc with
  | Some n => if is_registered n then <[nc_name nc := n <| config := nc |>]> ns else ns
  | None => <[nc_name nc := MkNode nc (NodeStatus_new Registered)]> ns
  end.

(** The part of [apply] under the lock. *)
Definition apply_payload (fed : FedState) (p : Payload) : FedState * bool :=
  if (pl_revision p <=? revision fed)%Z then (fed, false)
  else
    ({| revision := pl_revision p;
        nodes := foldl merge_registered (nodes fed) (pl_registered p);
        volumes := pl_volumes p; orphans := pl_orphans p; stale_heads := pl_stale_heads p;
        snapshots := pl_snapshots p; group_snapshots := pl_group_snapshots p;
        backups := pl_backups p; vm_migrations := pl_vm_migrations p |}, true).

Section replicate.
Context {J : Type}.
Context (cfg : Config) (api_token : string).
(** The payload as JSON, [None] when it cannot be written. *)
Context (payload_json : Payload → option J).

Definition apply (p : Payload) : handler J bool :=
  let! applied := atomic (λ s, let '(fd, ok) := apply_payload (fed s) p in (s <| fed := fd |>, ok)) in
  if negb applied then Ret false
  else
    let! now := invoke Now in
    writes (λ s, s <| events ::= λ e,
      (push e now None Info "replicate" ("applied peer state at revision " +:+ pretty (pl_revision p))).1 |>) ;!
    invoke Persist ;!
    Ret true.

Definition replicate_url (peer : string) : string :=
  trim_end_matches (Ascii.ascii_of_nat 47) peer +:+ "/api/v1/replicate".

Definition push_task : handler J unit :=
  let! payload := reads (λ s, build_payload (fed s)) in
  match payload_json payload with
  | None => Ret tt
  | Some body =>
      for_each (λ peer,
        invoke (Http POST (replicate_url peer) (opt_filter (λ t, t != "") (Some api_token)) [] (Some body)) ;! Ret tt)
        (peers cfg)
  end.
Definition push_to_peers : handler J unit :=
  match peers cfg with
  | [] => Ret tt
  | _ => spawn push_task
  end.
End replicate.

Local Close Scope string_scope.

(** ** Facts: the merge of registered nodes *)

Lemma merge_registered_lookup ns nc k :
  merge_registered ns nc !! k =
    if decide (nc_name nc = k)
    then Some (match ns !! k with
               | Some n => if is_registered n then n <| config := nc |> else n
               | None => MkNode nc (NodeStatus_new Registered)
               end)
    else ns !! k.
Proof.
  unfold merge_registered. destruct (decide (nc_name nc = k)) as [<-|Hne].
  - destruct (ns !! nc_name nc) as [n|] eqn:E; [destruct (is_registered n)|];
      by rewrite ?lookup_insert_eq.
  - destruct (ns !! nc_name nc) as [n|]; [destruct (is_registered n)|]; by rewrite ?lookup_insert_ne.
Qed.

(** A name the list does not hold keeps its node. *)
Lemma merge_registered_other l ns k :
  k ∉ map nc_name l → foldl merge_registered ns l !! k = ns !! k.
Proof.
  revert ns. induction l as [|nc l IH]; intros ns; simpl; [done|].
  rewrite not_elem_of_cons. intros [Hk Hl]. rewrite IH by done.
  rewrite merge_registered_lookup. by rewrite decide_False.
Qed.

(** A node of the instance's own is left as it is. *)
Lemma merge_registered_own l ns k n :
  ns !! k = Some n → is_registered n = false → foldl merge_registered ns l !! k = Some n.
Proof.
  revert ns. induction l as [|nc l IH]; intros ns Hn Hr; simpl; [done|].
  apply IH; [|done]. rewrite merge_registered_lookup, Hn, Hr. by destruct (decide _).
Qed.

(** Each registered name of the list ends with its configuration. *)
Lemma merge_registered_in l ns nc :
  NoDup (map nc_name l) → nc ∈ l →
  foldl merge_registered ns l !! nc_name nc =
    Some (match ns !! nc_name nc with
          | Some n => if is_registered n then n <| config := nc |> else n
          | None => MkNode nc (NodeStatus_new Registered)
          end).
Proof.
  revert ns. induction l as [|c l IH]; intros ns; simpl; [by intros _ ?%not_elem_of_nil|].
  rewrite NoDup_cons. intros [Hc Hl] [->|Hin]%elem_of_cons.
  - rewrite merge_registered_other by done. rewrite merge_registered_lookup. by rewrite decide_True.
  - rewrite IH by done. rewrite merge_registered_lookup. rewrite decide_False; [done|].
    intros E. apply Hc. rewrite E. by apply list_elem_of_fmap_2.
Qed.

(** What a peer takes over as a whole. *)
Definition durable (fed : FedState) :=
  (volumes fed, orphans fed, stale_heads fed, snapshots fed, group_snapshots fed, backups fed, vm_migrations fed).
Definition pl_durable (p : Payload) :=
  (pl_volumes p, pl_orphans p, pl_stale_heads p, pl_snapshots p, pl_group_snapshots p, pl_backups p,
   pl_vm_migrations p).

Lemma durable_volumes fed fed' : durable fed = durable fed' → volumes fed = volumes fed'.
Proof. by intros [= ?]. Qed.

Lemma build_payload_NoDup fed :
  (∀ k n, nodes fed !! k = Some n → nc_name (config n) = k) →
  NoDup (map nc_name (pl_registered (build_payload fed))).
Proof.
  intros Hwf. simpl. unfold bt_values. pose proof (bt_list_NoDup (nodes fed)) as Hnd.
  assert (∀ k n, (k, n) ∈ bt_list (nodes fed) → nc_name (config n) = k) as Hin
    by (intros k n; rewrite elem_of_bt_list; apply Hwf).
  induction (bt_list (nodes fed)) as [|[k n] l IH]; simpl; [constructor|].
  simpl in Hnd. apply NoDup_cons in Hnd as [Hk Hnd].
  specialize (IH Hnd (λ k n H, Hin k n (list_elem_of_further _ _ _ H))).
  destruct (is_registered n); [|done]. simpl. constructor; [|done].
  rewrite (Hin k n) by left. intros (nc & -> & Hnc)%list_elem_of_fmap.
  apply list_elem_of_fmap in Hnc as (n' & -> & [Hn' _]%elem_of_filterb).
  apply list_elem_of_fmap in Hn' as ([k' ?] & -> & Hl). simpl in *. apply Hk.
  rewrite (Hin k' _) by by right. by apply (list_elem_of_fmap_2 fst) in Hl.
Qed.

Lemma apply_payload_old fed p :
  (pl_revision p ≤ revision fed)%Z → apply_payload fed p = (fed, false).
Proof. intros H. unfold apply_payload. by rewrite (proj2 (Z.leb_le _ _) H). Qed.

Lemma apply_payload_new fed p :
  (revision fed < pl_revision p)%Z →
  (apply_payload fed p).2 = true ∧ revision (apply_payload fed p).1 = pl_revision p
  ∧ durable (apply_payload fed p).1 = pl_durable p
  ∧ nodes (apply_payload fed p).1 = foldl merge_registered (nodes fed) (pl_registered p).
Proof. intros H. unfold apply_payload. by rewrite (proj2 (Z.leb_gt _ _) H). Qed.

(** A peer's payload. One that is not newer changes nothing. A newer one
    makes the durable records and the revision the payload's, and touches
    the nodes only so: a node the instance configures itself (or adopted)
    stays as it is; a registered one takes the payload's configuration and
    keeps its own polled status; a name the instance does not know is added,
    not yet polled; a node the payload does not name stays. *)
Theorem apply_payload_spec fed p (Hnd : NoDup (map nc_name (pl_registered p))) :
  let '(fed', ok) := apply_payload fed p in
  if (pl_revision p <=? revision fed)%Z then ok = false ∧ fed' = fed
  else
    ok = true ∧ revision fed' = pl_revision p ∧ durable fed' = pl_durable p
    ∧ ∀ k, nodes fed' !! k =
        match find_first (λ nc, nc_name nc == k) (pl_registered p), nodes fed !! k with
        | None, n => n
        | Some nc, None => Some (MkNode nc (NodeStatus_new Registered))
        | Some nc, Some n => Some (if is_registered n then n <| config := nc |> else n)
        end.
Proof.
  unfold apply_payload. destruct (pl_revision p <=? revision fed)%Z eqn:E; [done|].
  repeat (split; [done|]). intros k. simpl.
  destruct (find_first _ (pl_registered p)) as [nc|] eqn:Hf.
  - apply find_first_Some in Hf as [Hin <-%eqb_prop]. rewrite merge_registered_in by done.
    by destruct (nodes fed !! nc_name nc).
  - rewrite merge_registered_other; [by destruct (nodes fed !! k)|].
    intros (nc & -> & Hin)%list_elem_of_fmap. rewrite find_first_None in Hf.
    specialize (Hf nc Hin). simpl in Hf. by rewrite eqb_refl in Hf.
Qed.

Lemma apply_payload_spec_witness :
  let nc := MkNodeConfig "n1" "http://n1:9090" None None None ∅ None in
  let p := MkPayload 3 ∅ [nc] [] [] ∅ ∅ ∅ ∅ in
  NoDup (map nc_name (pl_registered p)) ∧
  let '(fed', ok) := apply_payload FedState_default p in
  ok = true ∧ revision fed' = 3%Z ∧ nodes fed' !! "n1" = Some (MkNode nc (NodeStatus_new Registered)).
Proof.
  intros nc p. assert (NoDup (map nc_name (pl_registered p))) as Hnd by apply NoDup_singleton.
  split; [exact Hnd|]. pose proof (apply_payload_spec FedState_default p Hnd) as H.
  unfold apply_payload in *. simpl in *. destruct H as (H1 & H2 & _ & H4). split; [exact H1|].
  split; [exact H2|]. rewrite H4. reflexivity.
Defined.

(** ** A network with one writer *)

Record Net := MkNet { instances : list FedState; in_flight : list Payload }.

Inductive net_step (w : nat) : Net → Net → Prop :=
  (** The writer changes its records and counts the revision. *)
  | net_change n fed g :
      instances n !! w = Some fed → revision (g fed) = revision fed → (revision fed < u64_max)%Z →
      net_step w n (MkNet (<[w := bump (g fed)]> (instances n)) (in_flight n))
  (** It changes them and does not: the hosts an export adds, a failed
      assembly's or rebalance move's next try. *)
  | net_uncounted n fed g :
      instances n !! w = Some fed → revision (g fed) = revision fed →
      net_step w n (MkNet (<[w := g fed]> (instances n)) (in_flight n))
  (** An instance polls its engines: node records only. *)
  | net_poll n i fed ns :
      instances n !! i = Some fed →
      net_step w n (MkNet (<[i := fed <| nodes := ns |>]> (instances n)) (in_flight n))
  | net_send n i fed :
      instances n !! i = Some fed →
      net_step w n (MkNet (instances n) (build_payload fed :: in_flight n))
  (** A payload stays in flight: it may arrive again, late, or never. *)
  | net_deliver n i fed p :
      instances n !! i = Some fed → p ∈ in_flight n →
      net_step w n (MkNet (<[i := (apply_payload fed p).1]> (instances n)) (in_flight n)).

(** A run and every network it passed, the latest first. *)
Inductive net_run (w : nat) (n0 : Net) : list Net → Net → Prop :=
  | net_run_start : net_run w n0 [n0] n0
  | net_run_step l n n' : net_run w n0 l n → net_step w n n' → net_run w n0 (n' :: l) n'.

(** The writer held these records at this revision, some time. *)
Definition held (w : nat) (l : list Net) (r : Z) d : Prop :=
  ∃ n f, n ∈ l ∧ instances n !! w = Some f ∧ revision f = r ∧ durable f = d.
Lemma held_cons w n l r d : held w l r d → held w (n :: l) r d.
Proof. intros (n1 & f & Hn & Hf). exists n1, f. split; [by right|done]. Qed.

(** Everything anyone has or sends was the writer's, and is not ahead of
    it. *)
Definition net_inv (w : nat) (l : list Net) (n : Net) : Prop :=
  n ∈ l ∧ ∃ fw, instances n !! w = Some fw ∧ (0 ≤ revision fw ≤ u64_max)%Z
    ∧ (∀ i f, instances n !! i = Some f → held w l (revision f) (durable f) ∧ (revision f ≤ revision fw)%Z)
    ∧ (∀ p, p ∈ in_flight n → held w l (pl_revision p) (pl_durable p) ∧ (pl_revision p ≤ revision fw)%Z).

(** The writer's own step. *)
Lemma net_inv_writer w l n fed fed' : instances n !! w = Some fed →
  (revision fed ≤ revision fed' ≤ u64_max)%Z → net_inv w l n →
  let n' := MkNet (<[w := fed']> (instances n)) (in_flight n) in net_inv w (n' :: l) n'.
Proof.
  intros Hw Hr (_ & fw & Hfw & Hb & Hin & Hp) n'. simplify_eq. split; [by left|].
  assert (instances n' !! w = Some fed') as Hw'
    by (apply list_lookup_insert_eq; by eapply lookup_lt_Some).
  exists fed'. split; [done|]. split; [lia|]. split.
  - intros i f [(<- & <- & _)|[_ Hi]]%list_lookup_insert_Some.
    + split; [|lia]. exists n', fed'. split; [by left|done].
    + destruct (Hin i f Hi) as [Hh Hle]. split; [by apply held_cons|lia].
  - intros p Hpin. destruct (Hp p Hpin) as [Hh Hle]. split; [by apply held_cons|lia].
Qed.
(** An instance's records become others the writer held. *)
Lemma net_inv_other w l n i fed fed' : instances n !! i = Some fed →
  (revision fed' = revision fed ∧ durable fed' = durable fed) ∨
  (revision fed < revision fed')%Z ∧ (∃ p, p ∈ in_flight n ∧ revision fed' = pl_revision p ∧ durable fed' = pl_durable p) →
  net_inv w l n →
  let n' := MkNet (<[i := fed']> (instances n)) (in_flight n) in net_inv w (n' :: l) n'.
Proof.
  intros Hi Hor (Hn & fw & Hfw & Hb & Hin & Hp) n'. split; [by left|].
  assert (held w l (revision fed') (durable fed') ∧ (revision fed' ≤ revision fw)%Z) as [Hh Hle].
  { destruct Hor as [[-> ->]|(_ & p & Hpin & -> & ->)]; [by eapply Hin|by apply Hp]. }
  assert (∃ fw', instances n' !! w = Some fw' ∧ revision fw' = revision fw) as (fw' & Hw' & Hrw).
  { destruct (decide (i = w)) as [->|Hne]; [|exists fw; simpl; by rewrite list_lookup_insert_ne].
    exists fed'. simplify_eq. split; [apply list_lookup_insert_eq; by eapply lookup_lt_Some|].
    destruct Hor as [[Hr _]|[Hr _]]; [done|lia]. }
  exists fw'. rewrite Hrw. split; [done|]. split; [done|]. split.
  - intros j f [(-> & <- & _)|[_ Hj]]%list_lookup_insert_Some; [by split; [apply held_cons|]|].
    destruct (Hin j f Hj). by split; [apply held_cons|].
  - intros p Hpin. destruct (Hp p Hpin). by split; [apply held_cons|].
Qed.

Lemma net_inv_step w l n n' : net_step w n n' → net_inv w l n → net_inv w (n' :: l) n'.
Proof.
  intros Hs Hn. destruct Hs as [n fed g Hw Hg Hlt|n fed g Hw Hg|n i fed ns Hi|n i fed Hi|n i fed p Hi Hp].
  - apply (net_inv_writer w l n fed); [done| |done]. destruct Hn as (_ & fw & Hfw & Hb & _). simplify_eq.
    simpl. rewrite Hg, u64_add_small; lia.
  - apply (net_inv_writer w l n fed); [done| |done]. destruct Hn as (_ & fw & Hfw & Hb & _). simplify_eq.
    rewrite Hg. lia.
  - apply (net_inv_other w l n i fed); [done|by left|done].
  - destruct Hn as (_ & fw & Hfw & Hb & Hin & Hp). split; [by left|]. exists fw. split; [done|]. split; [done|]. split.
    + intros j f Hj. destruct (Hin j f Hj). by split; [apply held_cons|].
    + intros p [->|Hpin]%elem_of_cons.
      * destruct (Hin i fed Hi). by split; [apply held_cons|].
      * destruct (Hp p Hpin). by split; [apply held_cons|].
  - destruct (Z.le_gt_cases (pl_revision p) (revision fed)) as [Hle|Hgt].
    + rewrite apply_payload_old by done. apply (net_inv_other w l n i fed); [done|by left|done].
    + destruct (apply_payload_new fed p Hgt) as (_ & Hr & Hd & _).
      apply (net_inv_other w l n i fed); [done| |done]. right. split; [lia|]. by exists p.
Qed.

(** No instance ever goes back. *)
Lemma net_step_forward w n n' i f' : net_step w n n' → (∀ fw, instances n !! w = Some fw → (0 ≤ revision fw)%Z) →
  instances n' !! i = Some f' → ∃ f, instances n !! i = Some f ∧ (revision f ≤ revision f')%Z.
Proof.
  intros Hs Hw. destruct Hs as [n fed g Hi Hg Hlt|n fed g Hi Hg|n j fed ns Hi|n j fed Hi|n j fed p Hi Hp]; simpl;
    try (intros [(<- & <- & _)|[_ Hj]]%list_lookup_insert_Some; [exists fed; split; [done|]|by exists f']).
  - simpl. specialize (Hw fed Hi). rewrite Hg, u64_add_small; lia.
  - lia.
  - simpl. lia.
  - intros Hj. by exists f'.
  - destruct (Z.le_gt_cases (pl_revision p) (revision fed)) as [Hle|Hgt]; [by rewrite apply_payload_old|].
    destruct (apply_payload_new fed p Hgt) as (_ & -> & _). lia.
Qed.

Lemma net_run_inv w n0 l n : net_inv w [n0] n0 → net_run w n0 l n →
  net_inv w l n ∧ ∀ n1 i f1 f, n1 ∈ l → instances n1 !! i = Some f1 → instances n !! i = Some f → (revision f1 ≤ revision f)%Z.
Proof.
  intros H0 Hr. induction Hr as [|l n n' Hr [IH Hm] Hs].
  { split; [done|]. intros n1 i f1 f Hn%list_elem_of_singleton H1 H2. subst n1. simplify_eq. done. }
  split; [by eapply net_inv_step|]. intros n1 i f1 f' [->|Hn]%elem_of_cons H1 Hf'; [by simplify_eq|].
  destruct (net_step_forward w n n' i f' Hs) as (f & Hf & Hle); [|done|].
  { intros fw Hfw. destruct IH as (_ & fw' & Hfw' & Hb & _). simplify_eq. lia. }
  etransitivity; [by eapply Hm|done].
Qed.

(** C17: Replication with one writer, which counts a revision for most of
    its changes and not for some. Whatever is sent, lost, repeated and
    reordered: every instance's records are, at its revision, records the
    writer held at that revision; its revision never goes back and is never
    ahead of the writer's; the payload the writer sends now brings an
    instance with an older revision to the writer's revision and records and
    changes nothing of one that has it already; and the payload of the next
    change that counts brings every instance to the writer's records, what
    it did not count included. *)
Theorem one_writer_converges w n0 l n f0
  (Hstart : Forall (λ f, revision f = revision f0 ∧ durable f = durable f0) (instances n0))
  (Hw : (w < length (instances n0))%nat) (Hr : is_u64 (revision f0)) (Hq : in_flight n0 = [])
  (Hrun : net_run w n0 l n) :
  ∃ fw, instances n !! w = Some fw ∧ ∀ i f, instances n !! i = Some f →
    (∃ n1 f1, n1 ∈ l ∧ instances n1 !! w = Some f1 ∧ revision f1 = revision f ∧ durable f1 = durable f)
    ∧ (∀ n1 f1, n1 ∈ l → instances n1 !! i = Some f1 → (revision f1 ≤ revision f)%Z)
    ∧ (revision f ≤ revision fw)%Z
    ∧ (let f' := (apply_payload f (build_payload fw)).1 in
       if (revision f <? revision fw)%Z then revision f' = revision fw ∧ durable f' = durable fw else f' = f)
    ∧ (∀ g, revision (g fw) = revision fw → (revision fw < u64_max)%Z →
       let f' := (apply_payload f (build_payload (bump (g fw)))).1 in
       revision f' = (revision fw + 1)%Z ∧ durable f' = durable (g fw)).
Proof.
  assert (net_inv w [n0] n0) as H0.
  { destruct (lookup_lt_is_Some_2 _ _ Hw) as [fw Hfw]. rewrite Forall_lookup in Hstart.
    destruct (Hstart _ _ Hfw) as [Hrw Hdw]. split; [by left|]. exists fw. split; [done|].
    split; [rewrite Hrw; apply Hr|]. split; [|rewrite Hq; by intros p ?%not_elem_of_nil].
    intros i f Hf. destruct (Hstart _ _ Hf) as [Hrf Hdf]. split; [|lia]. exists n0, fw. split; [by left|].
    split; [done|]. split; congruence. }
  destruct (net_run_inv w n0 l n H0 Hrun) as [(Hn & fw & Hfw & Hb & Hin & _) Hm].
  exists fw. split; [done|]. intros i f Hf. destruct (Hin i f Hf) as [Hh Hle]. split; [exact Hh|].
  split; [intros n1 f1 Hn1 H1; by eapply Hm|]. split; [done|]. split.
  - cbv zeta. destruct (revision f <? revision fw)%Z eqn:E.
    + destruct (apply_payload_new f (build_payload fw)) as (_ & ? & ? & _); [simpl; lia|]. done.
    + rewrite apply_payload_old; [done|simpl; lia].
  - intros g Hg Hlt. cbv zeta. assert (revision (bump (g fw)) = revision fw + 1)%Z as Hrev
      by (simpl; rewrite Hg; apply u64_add_small; lia).
    destruct (apply_payload_new f (build_payload (bump (g fw)))) as (_ & -> & -> & _); [simpl in *; lia|].
    split; [exact Hrev|done].
Qed.

(** A change that counts, one that does not, and both payloads sent: only
    the first arrives. *)
Definition snap_of (nm : string) : Snapshot := MkSnapshot nm nm "v" 1 true 0 None "v" "n1" "e" None.
Definition with_snap (nm : string) (f : FedState) : FedState := f <| snapshots ::= <[nm := snap_of nm]> |>.
Lemma one_writer_converges_witness :
  let f0 := FedState_default in
  let f1 := bump (with_snap "s" f0) in
  let f2 := with_snap "t" f1 in
  let n0 := MkNet [f0; f0] [] in let n1 := MkNet [f1; f0] [] in let n2 := MkNet [f1; f0] [build_payload f1] in
  let n3 := MkNet [f1; f1] [build_payload f1] in let n4 := MkNet [f2; f1] [build_payload f1] in
  net_run 0 n0 [n4; n3; n2; n1; n0] n4
  ∧ (apply_payload f1 (build_payload f2)).1 = f1 ∧ durable f1 ≠ durable f2
  ∧ ∃ fw, instances n4 !! 0 = Some fw ∧ ∀ i f, instances n4 !! i = Some f →
    (∃ n f1, n ∈ [n4; n3; n2; n1; n0] ∧ instances n !! 0 = Some f1 ∧ revision f1 = revision f ∧ durable f1 = durable f)
    ∧ (∀ n f1, n ∈ [n4; n3; n2; n1; n0] → instances n !! i = Some f1 → (revision f1 ≤ revision f)%Z)
    ∧ (revision f ≤ revision fw)%Z
    ∧ (let f' := (apply_payload f (build_payload fw)).1 in
       if (revision f <? revision fw)%Z then revision f' = revision fw ∧ durable f' = durable fw else f' = f)
    ∧ (∀ g, revision (g fw) = revision fw → (revision fw < u64_max)%Z →
       let f' := (apply_payload f (build_payload (bump (g fw)))).1 in
       revision f' = (revision fw + 1)%Z ∧ durable f' = durable (g fw)).
Proof.
  intros f0 f1 f2 n0 n1 n2 n3 n4. assert (net_run 0 n0 [n4; n3; n2; n1; n0] n4) as Hrun.
  { apply net_run_step with n3; [apply net_run_step with n2; [apply net_run_step with n1; [apply net_run_step with n0;
      [constructor|]|]|]|].
    - exact (net_change 0 n0 f0 (with_snap "s") eq_refl eq_refl eq_refl).
    - exact (net_send 0 n1 0 f1 eq_refl).
    - exact (net_deliver 0 n2 1 f0 (build_payload f1) eq_refl (list_elem_of_here _ _)).
    - exact (net_uncounted 0 n3 f1 (with_snap "t") eq_refl eq_refl). }
  split; [exact Hrun|]. split; [reflexivity|]. split.
  { intros E%(f_equal (λ d, size (d.1.1.1.2))). vm_compute in E. discriminate. }
  refine (one_writer_converges 0 n0 _ n4 f0 _ _ _ _ Hrun).
  - repeat constructor.
  - simpl. lia.
  - unfold is_u64, u64_max. simpl. lia.
  - reflexivity.
Defined.

(** Two writers: instances changed to one revision ignore each other's
    payloads, whatever they hold. *)
Lemma equal_revisions_diverge f f' :
  revision f = revision f' →
  apply_payload f (build_payload f') = (f, false) ∧ apply_payload f' (build_payload f) = (f', false).
Proof. intros H. split; apply apply_payload_old; simpl; lia. Qed.
