(* ===== verification/Base64.v ===== *)
(** * Keys and values as the etcd gateway writes them (src/store.rs)

    Base64, the 64-bit numbers protojson writes as strings, and the end of
    the range holding every key with a prefix. Bytes are integers 0 to 255,
    the accumulators 32-bit integers as in the code. Shown: decoding what was
    encoded gives it back, for every byte string; a key lies in the range of
    a prefix exactly when it starts with it; a number reads back from its
    decimal text. *)

From S2P Require Import Prelude Json.
From stdpp Require Import options.

Local Open Scope string_scope.

(** ** Bytes *)

Definition is_byte (b : Z) : Prop := (0 ≤ b < 256)%Z.

Definition byte_of (c : Ascii.ascii) : Z := Z.of_nat (Ascii.nat_of_ascii c).
(** [str::as_bytes]. *)
Definition as_bytes (s : string) : list Z := map byte_of (String.list_ascii_of_string s).
Definition of_bytes (l : list Z) : string :=
  String.string_of_list_ascii (map (λ b, Ascii.ascii_of_nat (Z.to_nat b)) l).

(** The length of the UTF-8 sequence a byte opens and the range of the byte
    after it (RFC 3629, as [str::from_utf8] reads it); the others are
    continuation bytes. *)
Definition utf8_open (b : Z) : option (nat * Z * Z) :=
  if (b <=? 0x7f)%Z then Some (0%nat, 0%Z, 0%Z)
  else if ((0xc2 <=? b) && (b <=? 0xdf))%Z then Some (1%nat, 0x80%Z, 0xbf%Z)
  else if (b =? 0xe0)%Z then Some (2%nat, 0xa0%Z, 0xbf%Z)
  else if (b =? 0xed)%Z then Some (2%nat, 0x80%Z, 0x9f%Z)
  else if ((0xe1 <=? b) && (b <=? 0xef))%Z then Some (2%nat, 0x80%Z, 0xbf%Z)
  else if (b =? 0xf0)%Z then Some (3%nat, 0x90%Z, 0xbf%Z)
  else if ((0xf1 <=? b) && (b <=? 0xf3))%Z then Some (3%nat, 0x80%Z, 0xbf%Z)
  else if (b =? 0xf4)%Z then Some (3%nat, 0x80%Z, 0x8f%Z)
  else None.
(** [need] bytes to come, the next one within [lo..hi]. *)
Fixpoint utf8_from (need : nat) (lo hi : Z) (l : list Z) : bool :=
  match need, l with
  | O, [] => true
  | O, b :: l => match utf8_open b with Some (n, lo, hi) => utf8_from n lo hi l | None => false end
  | S _, [] => false
  | S need, b :: l => ((lo <=? b) && (b <=? hi))%Z && utf8_from need 0x80 0xbf l
  end.
Definition valid_utf8 (l : list Z) : bool := utf8_from 0 0 0 l.
(** [String::from_utf8]; the error's text is the standard library's. *)
Definition from_utf8 (l : list Z) : result string string :=
  if valid_utf8 l then Ok (of_bytes l) else Err "invalid utf-8".

(** ** Base64 *)

Definition B64 : string := "ABCDEFGHIJKLMNOPQRSTUVWXYZabcdefghijklmnopqrstuvwxyz0123456789+/".
Definition b64_char (n : Z) : Ascii.ascii :=
  unwrap_or Ascii.zero (String.get (Z.to_nat n) B64).

Definition pad_char : Ascii.ascii := Ascii.ascii_of_nat 61.

(** The 24 bits of a chunk: [acc | (b as u32) << (16 - 8 * i)]. *)
Definition chunk_bits (chunk : list Z) : Z :=
  foldl (λ acc '(i, b), Z.lor acc (Z.shiftl b (16 - 8 * Z.of_nat i))) 0%Z (imap pair chunk).
Definition b64_chunk (chunk : list Z) : list Ascii.ascii :=
  let n := chunk_bits chunk in
  map (λ i, if (i <=? length chunk)%nat
            then b64_char (Z.land (Z.shiftr n (18 - 6 * Z.of_nat i)) 63)
            else pad_char) (List.seq 0 4).
Definition b64 (data : list Z) : string :=
  String.string_of_list_ascii (concat (map b64_chunk (chunks 3 data))).

Definition in_range (lo hi n : Z) : bool := ((lo <=? n) && (n <=? hi))%Z.
Definition b64_value (c : Ascii.ascii) : option Z :=
  let n := byte_of c in
  if in_range 65 90 n then Some (n - 65)%Z
  else if in_range 97 122 n then Some (n - 97 + 26)%Z
  else if in_range 48 57 n then Some (n - 48 + 52)%Z
  else if (n =? 43)%Z || (n =? 45)%Z then Some 62%Z
  else if (n =? 47)%Z || (n =? 95)%Z then Some 63%Z
  else None.
Definition b64_skip (c : Ascii.ascii) : bool := is_ascii_whitespace c || Ascii.eqb c pad_char.

Fixpoint unb64_loop (cs : list Ascii.ascii) (acc bits : Z) (out : list Z) : option (list Z) :=
  match cs with
  | [] => Some out
  | c :: cs =>
      match b64_value c with
      | None => None
      | Some v =>
          let acc := Z.lor (as_u32 (Z.shiftl acc 6)) v in
          let bits := (bits + 6)%Z in
          if (8 <=? bits)%Z then
            let bits := (bits - 8)%Z in
            unb64_loop cs (Z.land acc (Z.shiftl 1 bits - 1)) bits
              (out ++ [Z.land (Z.shiftr acc bits) 255])%list
          else unb64_loop cs acc bits out
      end
  end.
Definition unb64 (s : string) : result (list Z) string :=
  ok_or (unb64_loop (List.filter (λ c, negb (b64_skip c)) (String.list_ascii_of_string s)) 0 0 [])
    ("not base64: " +:+ debug_str s).

(** ** Numbers *)

Definition digit_of (c : Ascii.ascii) : option Z :=
  let n := byte_of c in if in_range 48 57 n then Some (n - 48)%Z else None.
Fixpoint digits_loop (cs : list Ascii.ascii) (acc : Z) : option Z :=
  match cs with
  | [] => Some acc
  | c :: cs => match digit_of c with Some d => digits_loop cs (acc * 10 + d)%Z | None => None end
  end.
Definition digits (cs : list Ascii.ascii) : option Z :=
  match cs with [] => None | _ => digits_loop cs 0 end.
Definition i64_min : Z := - 2 ^ 63.
Definition i64_max : Z := 2 ^ 63 - 1.
(** [str::parse::<i64>]: a sign, then at least one digit, within the type. *)
Definition parse_i64 (s : string) : option Z :=
  let n := match String.list_ascii_of_string s with
           | c :: cs =>
               if (byte_of c =? 45)%Z then Z.opp <$> digits cs
               else if (byte_of c =? 43)%Z then digits cs
               else digits (c :: cs)
           | [] => None
           end in
  opt_filter (λ n, in_range i64_min i64_max n) n.

Section num.
Context {J : Type} `{Json J}.
(** A 64-bit number the gateway may write as a string; absent is 0. *)
Definition num (v : option J) : Z :=
  match v with
  | None => 0%Z
  | Some v =>
      match j_str v with
      | Some s => unwrap_or 0%Z (parse_i64 s)
      | None => unwrap_or 0%Z (j_i64 v)
      end
  end.
End num.

(** ** The range of a prefix *)

(** [while let Some(last) = end.pop()], on the reversed bytes. *)
Fixpoint prefix_end_rev (l : list Z) : option (list Z) :=
  match l with
  | [] => None
  | last :: l => if (last <? 0xff)%Z then Some (rev ((last + 1)%Z :: l)) else prefix_end_rev l
  end.
Definition prefix_end (prefix : string) : list Z :=
  unwrap_or [0%Z] (prefix_end_rev (rev (as_bytes prefix))).

Example b64_examples :
  map (λ s, b64 (as_bytes s)) [""; "f"; "fo"; "foo"; "/registry/"]
    = [""; "Zg=="; "Zm8="; "Zm9v"; "L3JlZ2lzdHJ5Lw=="]
  ∧ map unb64 ["Zg=="; "Zm9v"] = [Ok (as_bytes "f"); Ok (as_bytes "foo")]
  ∧ is_err (unb64 "a*b") = true
  ∧ prefix_end "/stormstorage/" = as_bytes "/stormstorage0" ∧ prefix_end "abc" = as_bytes "abd"
  ∧ parse_i64 "42" = Some 42%Z ∧ parse_i64 "-9223372036854775808" = Some i64_min
  ∧ parse_i64 "9223372036854775808" = None ∧ parse_i64 "" = None ∧ parse_i64 "-" = None.
Proof. vm_compute. repeat split. Qed.

Local Close Scope string_scope.

(** ** Facts: base64 *)

Lemma b64_char_table n :
  (0 ≤ n < 64)%Z → b64_value (b64_char n) = Some n ∧ b64_skip (b64_char n) = false.
Proof.
  intros Hn.
  assert (forallb (λ i, (b64_value (b64_char (Z.of_nat i)) == Some (Z.of_nat i))
                        && negb (b64_skip (b64_char (Z.of_nat i)))) (List.seq 0 64) = true) as H
    by (vm_compute; reflexivity).
  rewrite forallb_true in H. specialize (H (Z.to_nat n)).
  rewrite list_elem_of_In, in_seq, Z2Nat.id in H by lia.
  specialize (H ltac:(lia)). apply andb_true_iff in H as [H1%eqb_prop H2%negb_true_iff]. done.
Qed.

(** Bits below and above the [k]th do not meet. *)
Lemma lor_add k x v : (0 ≤ k)%Z → (0 ≤ v < 2 ^ k)%Z → Z.lor (x * 2 ^ k) v = (x * 2 ^ k + v)%Z.
Proof.
  intros Hk Hv. assert (Z.land (x * 2 ^ k) v = 0)%Z as H0.
  { apply Z.bits_inj'. intros i Hi. rewrite Z.land_spec, Z.bits_0, Z.mul_pow2_bits by lia.
    destruct (Z_lt_le_dec i k); [by rewrite Z.testbit_neg_r by lia|].
    destruct (decide (v = 0)%Z) as [->|]; [by rewrite Z.bits_0, andb_false_r|].
    rewrite (Z.bits_above_log2 v i); [by rewrite andb_false_r|lia|].
    apply Z.log2_lt_pow2; [lia|]. apply Z.lt_le_trans with (2 ^ k)%Z; [lia|apply Z.pow_le_mono_r; lia]. }
  by rewrite Z.add_nocarry_lxor, Z.lxor_lor.
Qed.

(** One character of the alphabet, in arithmetic. *)
Lemma unb64_step v cs acc bits out :
  (0 ≤ v < 64)%Z → (0 ≤ acc < 256)%Z → (0 ≤ bits)%Z →
  unb64_loop (b64_char v :: cs) acc bits out =
    if (8 <=? bits + 6)%Z
    then unb64_loop cs ((acc * 64 + v) mod 2 ^ (bits - 2))%Z (bits - 2)
           (out ++ [((acc * 64 + v) / 2 ^ (bits - 2)) mod 256]%Z)
    else unb64_loop cs (acc * 64 + v)%Z (bits + 6) out.
Proof.
  intros Hv Ha Hb. cbn [unb64_loop]. destruct (b64_char_table v Hv) as [-> _].
  assert (Z.lor (as_u32 (Z.shiftl acc 6)) v = acc * 64 + v)%Z as ->.
  { unfold as_u32. rewrite Z.shiftl_mul_pow2 by lia. rewrite Z.mod_small by lia. by apply (lor_add 6); lia. }
  destruct (8 <=? bits + 6)%Z eqn:E; [|done]. apply Z.leb_le in E.
  replace (bits + 6 - 8)%Z with (bits - 2)%Z by lia.
  rewrite Z.shiftl_1_l, Z.sub_1_r, <-Z.ones_equiv, Z.land_ones by lia.
  by rewrite Z.shiftr_div_pow2, (Z.land_ones _ 8) by lia.
Qed.

(** The numbers the four characters of a chunk stand for. *)
Definition sextets (n : Z) : list Z := [n / 2 ^ 18 mod 64; n / 2 ^ 12 mod 64; n / 2 ^ 6 mod 64; n mod 64]%Z.

Lemma sextet_arith n k : (0 ≤ k)%Z → Z.land (Z.shiftr n k) 63 = (n / 2 ^ k mod 64)%Z.
Proof. intros Hk. change 63%Z with (Z.ones 6). by rewrite Z.land_ones, Z.shiftr_div_pow2 by lia. Qed.

(** The bits of a chunk of up to three bytes, the missing ones as 0. *)
Lemma chunk_bits_arith a b c :
  is_byte a → is_byte b → is_byte c →
  chunk_bits [a; b; c] = (a * 65536 + b * 256 + c)%Z
  ∧ chunk_bits [a; b] = (a * 65536 + b * 256)%Z ∧ chunk_bits [a] = (a * 65536)%Z.
Proof.
  unfold is_byte, chunk_bits. intros Ha Hb Hc. cbn [imap foldl]; unfold compose.
  change (16 - 8 * Z.of_nat 0)%Z with 16%Z. change (16 - 8 * Z.of_nat 1)%Z with 8%Z.
  change (16 - 8 * Z.of_nat 2)%Z with 0%Z.
  rewrite !Z.shiftl_mul_pow2 by lia. rewrite Z.lor_0_l, (lor_add 16 a) by lia.
  replace (a * 2 ^ 16 + b * 2 ^ 8)%Z with ((a * 256 + b) * 2 ^ 8)%Z by lia.
  rewrite Z.mul_1_r, (lor_add 8) by lia. repeat split; lia.
Qed.

(** What decoding keeps of a chunk's text. *)
Lemma b64_chunk_kept chunk :
  (length chunk ≤ 3)%nat →
  List.filter (λ c, negb (b64_skip c)) (b64_chunk chunk) =
    map b64_char (take (S (length chunk)) (sextets (chunk_bits chunk))).
Proof.
  intros Hl. unfold b64_chunk, sextets. cbn [List.seq map]. rewrite !sextet_arith by lia.
  change (18 - 6 * Z.of_nat 0)%Z with 18%Z. change (18 - 6 * Z.of_nat 1)%Z with 12%Z.
  change (18 - 6 * Z.of_nat 2)%Z with 6%Z. change (18 - 6 * Z.of_nat 3)%Z with 0%Z.
  rewrite Z.div_1_r.
  assert (∀ x, b64_skip (b64_char (x mod 64)%Z) = false) as Hk.
  { intros x. apply b64_char_table, Z.mod_pos_bound. lia. }
  assert (b64_skip pad_char = true) as Hp by reflexivity.
  destruct chunk as [|? [|? [|? [|? ?]]]]; simpl in Hl; try lia;
    cbn [length Nat.leb List.filter take map]; by rewrite ?Hk, ?Hp.
Qed.

(** The four states of the decoder within a chunk. *)
Lemma unb64_at_0 v cs out : (0 ≤ v < 64)%Z → unb64_loop (b64_char v :: cs) 0 0 out = unb64_loop cs v 6 out.
Proof. intros. by rewrite unb64_step by lia. Qed.
Lemma unb64_at_6 u v cs out :
  (0 ≤ u < 64)%Z → (0 ≤ v < 64)%Z →
  unb64_loop (b64_char v :: cs) u 6 out = unb64_loop cs (v mod 16) 4 (out ++ [u * 4 + v / 16])%Z.
Proof.
  intros. rewrite unb64_step by lia. change (2 ^ (6 - 2))%Z with 16%Z. change (8 <=? 6 + 6)%Z with true. cbn iota.
  f_equal; [Z.div_mod_to_equations; lia|]. do 2 f_equal. Z.div_mod_to_equations; lia.
Qed.
Lemma unb64_at_4 u v cs out :
  (0 ≤ u < 16)%Z → (0 ≤ v < 64)%Z →
  unb64_loop (b64_char v :: cs) u 4 out = unb64_loop cs (v mod 4) 2 (out ++ [u * 16 + v / 4])%Z.
Proof.
  intros. rewrite unb64_step by lia. change (2 ^ (4 - 2))%Z with 4%Z. change (8 <=? 4 + 6)%Z with true. cbn iota.
  f_equal; [Z.div_mod_to_equations; lia|]. do 2 f_equal. Z.div_mod_to_equations; lia.
Qed.
Lemma unb64_at_2 u v cs out :
  (0 ≤ u < 4)%Z → (0 ≤ v < 64)%Z →
  unb64_loop (b64_char v :: cs) u 2 out = unb64_loop cs 0 0 (out ++ [u * 64 + v])%Z.
Proof.
  intros. rewrite unb64_step by lia. change (2 ^ (2 - 2))%Z with 1%Z. change (8 <=? 2 + 6)%Z with true. cbn iota.
  f_equal; [apply Z.mod_1_r|]. do 2 f_equal. rewrite Z.div_1_r. apply Z.mod_small. lia.
Qed.

Ltac sextet_bounds := repeat split; try (apply Z.mod_pos_bound; lia); Z.div_mod_to_equations; lia.

(** A chunk's kept characters decode to the chunk. *)
Lemma unb64_chunk chunk cs out :
  chunk ≠ [] → (length chunk ≤ 3)%nat → Forall is_byte chunk → (length chunk = 3%nat ∨ cs = []) →
  unb64_loop (map b64_char (take (S (length chunk)) (sextets (chunk_bits chunk))) ++ cs) 0 0 out =
    unb64_loop cs 0 0 (out ++ chunk).
Proof.
  unfold is_byte, sextets. intros Hne Hl Hb Hor.
  destruct chunk as [|a [|b [|c [|? ?]]]]; simpl in Hl; try done; try lia;
    repeat match goal with H : Forall _ (_ :: _) |- _ => apply Forall_cons in H as [? H] end;
    cbn [length take map app] in *.
  - destruct Hor as [| ->]; [done|]. destruct (chunk_bits_arith a 0 0) as (_ & _ & ->); [done..|].
    rewrite unb64_at_0, unb64_at_6 by (apply Z.mod_pos_bound; lia). cbn [unb64_loop]. do 3 f_equal.
    Z.div_mod_to_equations; lia.
  - destruct Hor as [| ->]; [done|]. destruct (chunk_bits_arith a b 0) as (_ & -> & _); [done..|].
    rewrite unb64_at_0, unb64_at_6, unb64_at_4 by sextet_bounds. cbn [unb64_loop].
    rewrite <-app_assoc. do 2 f_equal. simpl. f_equal; [|f_equal]; Z.div_mod_to_equations; lia.
  - destruct (chunk_bits_arith a b c) as (-> & _ & _); [done..|].
    rewrite unb64_at_0, unb64_at_6, unb64_at_4, unb64_at_2 by sextet_bounds.
    rewrite <-!app_assoc. do 2 f_equal. simpl. f_equal; [|f_equal; [|f_equal]]; Z.div_mod_to_equations; lia.
Qed.

Lemma unb64_chunks fuel data out :
  (length data ≤ fuel)%nat → Forall is_byte data →
  unb64_loop (List.filter (λ c, negb (b64_skip c)) (concat (map b64_chunk (chunks_fuel fuel 3 data)))) 0 0 out =
    Some (out ++ data).
Proof.
  revert data out. induction fuel as [|fuel IH]; intros [|x l] out Hl Hb; simpl in Hl; try lia;
    try (cbn; by rewrite app_nil_r).
  cbn [chunks_fuel map concat]. rewrite List.filter_app.
  assert (length (take 3 (x :: l)) = 3%nat ∨ drop 3 (x :: l) = []) as Hor.
  { rewrite length_take. destruct (Nat.le_gt_cases 3 (length (x :: l))); [left; lia|right].
    apply drop_ge. lia. }
  rewrite b64_chunk_kept by (rewrite length_take; lia).
  rewrite unb64_chunk; [|done|rewrite length_take; lia|by apply Forall_take|].
  - rewrite IH; [|rewrite length_drop; simpl; lia|by apply Forall_drop].
    by rewrite <-app_assoc, take_drop.
  - destruct Hor as [?|Hd]; [by left|right]. rewrite Hd. by destruct fuel.
Qed.

Lemma unb64_b64 data : Forall is_byte data → unb64 (b64 data) = Ok data.
Proof.
  intros Hb. unfold unb64, b64, chunks. rewrite String.list_ascii_of_string_of_list_ascii.
  by rewrite unb64_chunks by done.
Qed.

(** What the gateway is sent is what it stores: decoding the base64 of any
    byte string of any length gives the bytes. *)
Theorem b64_round_trip data (Hb : Forall is_byte data) : unb64 (b64 data) = Ok data.
Proof. by apply unb64_b64. Qed.

Lemma b64_round_trip_witness :
  let data := [0; 255; 16; 131]%Z in
  Forall is_byte data ∧ unb64 (b64 data) = Ok data ∧ b64 data = "AP8Qgw=="%string.
Proof.
  intros data. assert (Forall is_byte data) as Hb by (repeat constructor; done).
  split; [exact Hb|]. split; [exact (b64_round_trip data Hb)|]. vm_compute. reflexivity.
Defined.

Lemma as_bytes_bytes s : Forall is_byte (as_bytes s).
Proof.
  unfold as_bytes. apply Forall_forall. intros b (c & -> & _)%list_elem_of_fmap.
  unfold is_byte, byte_of. pose proof (Ascii.nat_ascii_bounded c). lia.
Qed.

Lemma of_as_bytes s : of_bytes (as_bytes s) = s.
Proof.
  unfold of_bytes, as_bytes. rewrite map_map. etransitivity; [|apply String.string_of_list_ascii_of_string].
  f_equal. etransitivity; [|apply map_id]. apply map_ext. intros c. unfold byte_of.
  by rewrite Nat2Z.id, Ascii.ascii_nat_embedding.
Qed.

(** ** Facts: the range of a prefix *)

(** etcd orders keys by their bytes; a range end of one zero byte means
    every key from the start on. *)
Fixpoint bytes_lt (a b : list Z) : bool :=
  match a, b with
  | _, [] => false
  | [], _ :: _ => true
  | x :: a, y :: b => (x <? y)%Z || ((x =? y)%Z && bytes_lt a b)
  end.
Definition key_in_range (key range_end k : list Z) : bool :=
  negb (bytes_lt k key) && ((range_end == [0%Z]) || bytes_lt k range_end).

Lemma bytes_lt_max m k :
  Forall is_byte k → bytes_lt k (replicate m 255%Z) = false ↔ replicate m 255%Z `prefix_of` k.
Proof.
  revert k. induction m as [|m IH]; intros k Hk; simpl.
  { split; [intros _; apply prefix_nil|by destruct k]. }
  destruct k as [|x k]; simpl.
  { split; [done|]. intros ?%prefix_nil_inv. done. }
  apply Forall_cons in Hk as [Hx Hk]. unfold is_byte in Hx.
  rewrite orb_false_iff, Z.ltb_ge. split.
  - intros [Hge Hlt]. assert (x = 255%Z) as -> by lia. rewrite Z.eqb_refl in Hlt. simpl in Hlt.
    apply prefix_cons. by apply IH.
  - intros Hp. pose proof (prefix_cons_inv_1 _ _ _ _ Hp) as <-. apply prefix_cons_inv_2 in Hp.
    split; [lia|]. rewrite Z.eqb_refl. simpl. by apply IH.
Qed.

Lemma bytes_lt_prefix pre last m k :
  Forall is_byte k → (last < 255)%Z →
  bytes_lt k (pre ++ last :: replicate m 255%Z) = false ∧ bytes_lt k (pre ++ [last + 1]%Z) = true
  ↔ pre ++ last :: replicate m 255%Z `prefix_of` k.
Proof.
  intros Hk Hlast. revert k Hk. induction pre as [|y pre IH]; intros [|x k] Hk; simpl.
  - split; [by intros []|]. by intros ?%prefix_nil_inv.
  - apply Forall_cons in Hk as [_ Hk].
    assert (bytes_lt k [] = false) as -> by by destruct k.
    rewrite andb_false_r, orb_false_r, orb_false_iff, Z.ltb_ge, Z.ltb_lt. split.
    + intros [[Hge Hlt] Hx]. assert (x = last) as -> by lia. rewrite Z.eqb_refl in Hlt. simpl in Hlt.
      apply prefix_cons. by apply bytes_lt_max.
    + intros Hp. pose proof (prefix_cons_inv_1 _ _ _ _ Hp) as <-. apply prefix_cons_inv_2 in Hp.
      rewrite Z.eqb_refl. simpl. rewrite bytes_lt_max by done. split; [split; [lia|done]|lia].
  - split; [by intros []|]. by intros ?%prefix_nil_inv.
  - apply Forall_cons in Hk as [_ Hk]. rewrite orb_false_iff, orb_true_iff, Z.ltb_ge, Z.ltb_lt. split.
    + intros [[Hge Hlt] Hor]. destruct Hor as [?|[->%Z.eqb_eq Hlt']%andb_true_iff]; [lia|].
      rewrite Z.eqb_refl in Hlt. simpl in Hlt. apply prefix_cons. by apply IH.
    + intros Hp. pose proof (prefix_cons_inv_1 _ _ _ _ Hp) as <-. apply prefix_cons_inv_2 in Hp.
      rewrite Z.eqb_refl. simpl. apply IH in Hp as [-> ->]; [|done]. split; [split; [lia|done]|by right].
Qed.

(** What popping the trailing 255s leaves. *)
Lemma prefix_end_rev_spec l :
  Forall is_byte l →
  match prefix_end_rev l with
  | None => ∃ m, rev l = replicate m 255%Z
  | Some e => ∃ pre last m, rev l = pre ++ last :: replicate m 255%Z ∧ (0 ≤ last < 255)%Z ∧ e = pre ++ [last + 1]%Z
  end.
Proof.
  induction l as [|x l IH]; simpl; intros Hl; [by exists 0%nat|].
  apply Forall_cons in Hl as [Hx Hl]. unfold is_byte in Hx. specialize (IH Hl).
  destruct (x <? 255)%Z eqn:E.
  - apply Z.ltb_lt in E. exists (rev l), x, 0%nat. split; [done|]. split; [lia|done].
  - apply Z.ltb_ge in E. assert (x = 255%Z) as -> by lia.
    assert (∀ m, replicate m 255%Z ++ [255%Z] = replicate (S m) 255%Z) as Hs
      by (intros m; by rewrite replicate_S_end).
    destruct (prefix_end_rev l) as [e|].
    + destruct IH as (pre & last & m & -> & Hlast & ->). exists pre, last, (S m). split; [|done].
      by rewrite <-app_assoc, <-Hs.
    + destruct IH as [m ->]. exists (S m). apply Hs.
Qed.

(** A range request from a prefix to [prefix_end] of it returns the keys
    that start with the prefix, and no other: in etcd's byte order a key is
    in that range exactly when the prefix leads it. *)
Theorem prefix_end_spec p k (Hk : Forall is_byte k) :
  key_in_range (as_bytes p) (prefix_end p) k = true ↔ as_bytes p `prefix_of` k.
Proof.
  unfold key_in_range, prefix_end.
  pose proof (prefix_end_rev_spec (rev (as_bytes p))) as H. rewrite rev_involutive in H.
  specialize (H ltac:(apply Forall_rev, as_bytes_bytes)).
  rewrite andb_true_iff, negb_true_iff.
  destruct (prefix_end_rev _) as [e|]; simpl.
  - destruct H as (pre & last & m & -> & Hlast & ->). rewrite <-bytes_lt_prefix by (done || lia).
    destruct (_ == [0%Z]) eqn:E; [|done]. apply eqb_prop in E.
    destruct pre as [|y [|z pre]]; simpl in E; [injection E as E; lia|discriminate E..].
  - destruct H as [m ->]. rewrite <-bytes_lt_max by done. split; [by intros []|done].
Qed.

Lemma prefix_end_spec_witness :
  let k := as_bytes "/storm/volumes/db" in
  Forall is_byte k
  ∧ (key_in_range (as_bytes "/storm/") (prefix_end "/storm/") k = true ↔ as_bytes "/storm/" `prefix_of` k)
  ∧ key_in_range (as_bytes "/storm/") (prefix_end "/storm/") k = true.
Proof.
  intros k. assert (Forall is_byte k) as Hk by apply as_bytes_bytes.
  split; [exact Hk|]. split; [exact (prefix_end_spec "/storm/" k Hk)|vm_compute; reflexivity].
Defined.

(** ** Facts: numbers *)

Lemma digit_of_pretty d : (d < 10)%N → digit_of (pretty_N_char d) = Some (Z.of_N d).
Proof.
  intros Hd. assert (forallb (λ i, digit_of (pretty_N_char (N.of_nat i)) == Some (Z.of_nat i)) (List.seq 0 10) = true) as H
    by (vm_compute; reflexivity).
  rewrite forallb_true in H. specialize (H (N.to_nat d)). rewrite list_elem_of_In, in_seq in H.
  specialize (H ltac:(lia)). apply eqb_prop in H. rewrite N2Nat.id in H. rewrite H. f_equal. lia.
Qed.

(** The digits written before [s] are read as the number. *)
Lemma digits_pretty_go x s :
  digits_loop (String.list_ascii_of_string (pretty_N_go x s)) 0 =
    digits_loop (String.list_ascii_of_string s) (Z.of_N x).
Proof.
  revert s. induction (N.lt_wf_0 x) as [x _ IH]. intros s.
  destruct (N.eq_0_gt_0_cases x) as [->|Hx]; [by rewrite pretty_N_go_0|].
  rewrite pretty_N_go_step by done. rewrite IH by (apply N.div_lt; lia).
  cbn [String.list_ascii_of_string digits_loop]. rewrite digit_of_pretty by (by apply N.mod_lt).
  f_equal. pose proof (N.div_mod x 10 ltac:(lia)). lia.
Qed.

Lemma pretty_N_digits x :
  (0 < x)%N → ∃ d cs, String.list_ascii_of_string (pretty x) = pretty_N_char d :: cs ∧ (d < 10)%N
    ∧ digits_loop (pretty_N_char d :: cs) 0 = Some (Z.of_N x).
Proof.
  intros Hx. unfold pretty, pretty_N. rewrite decide_False by lia.
  assert (∀ x s, (0 < x)%N → ∃ d cs, String.list_ascii_of_string (pretty_N_go x s) = pretty_N_char d :: cs ∧ (d < 10)%N) as Hd.
  { clear x Hx. intros x. induction (N.lt_wf_0 x) as [x _ IH]. intros s Hx.
    rewrite pretty_N_go_step by done. pose proof (N.mod_lt x 10).
    destruct (N.eq_0_gt_0_cases (x / 10)) as [->|Hq].
    - rewrite pretty_N_go_0. eexists _, _. split; [reflexivity|lia].
    - apply IH; [apply N.div_lt; lia|done]. }
  destruct (Hd x EmptyString Hx) as (d & cs & E & Hd10). exists d, cs. split; [done|]. split; [done|].
  rewrite <-E, digits_pretty_go. done.
Qed.

Lemma digit_not_sign d : (d < 10)%N → (byte_of (pretty_N_char d) =? 45)%Z = false ∧ (byte_of (pretty_N_char d) =? 43)%Z = false.
Proof.
  intros Hd. pose proof (digit_of_pretty d Hd) as H. unfold digit_of, in_range in H.
  destruct (_ && _) eqn:E in H; [|done]. apply andb_true_iff in E as [?%Z.leb_le ?%Z.leb_le].
  split; apply Z.eqb_neq; lia.
Qed.

(** A 64-bit number written in decimal, as the leases and revisions are
    in requests and in the status, reads back as itself; nothing outside the
    64-bit range is ever read. *)
Theorem parse_i64_spec n :
  (in_range i64_min i64_max n = true → parse_i64 (pretty n) = Some n)
  ∧ ∀ s m, parse_i64 s = Some m → in_range i64_min i64_max m = true.
Proof.
  split; [|by intros s m [_ ?]%opt_filter_Some].
  intros Hn. unfold parse_i64. destruct n as [|p|p]; [done| |].
  - destruct (pretty_N_digits (N.pos p)) as (d & cs & E & Hd & H); [lia|].
    change (pretty (Z.pos p)) with (pretty (N.pos p)). rewrite E.
    destruct (digit_not_sign d Hd) as [-> ->]. unfold digits. rewrite H. simpl. by rewrite Hn.
  - destruct (pretty_N_digits (N.pos p)) as (d & cs & E & Hd & H); [lia|].
    change (String.list_ascii_of_string (pretty (Z.neg p)))
      with (Ascii.ascii_of_nat 45 :: String.list_ascii_of_string (pretty (N.pos p))).
    rewrite E. unfold digits. rewrite H. change (opt_filter (in_range i64_min i64_max) (Some (Z.neg p)) = Some (Z.neg p)). unfold opt_filter. by rewrite Hn.
Qed.
