(* ===== verification/Records.v ===== *)
(** * The durable records as the fleet store holds them (src/store.rs)

    One key per record ([volumes/<name>], [snapshots/<name>], …), its JSON
    as the value; reading them back into a federation; and the operations
    that turn what was written last into what there is now. JSON itself is
    the [Serde] class. Shown: an instance that reads what another wrote holds
    the other's records and keeps its own nodes; applying a difference to
    the old records gives the new ones, and it is as small as can be. *)

From S2P Require Import Prelude F64 Config Model Replicate.
From stdpp Require Import options.

Local Open Scope string_scope.

(** [serde_json::to_string] and [from_str] of a record type. *)
Class Serde (A : Type) := { ser : A → option string; de : string → result A string }.
(** [to_string(v).unwrap_or_default()]. *)
Definition to_json {A} `{Serde A} (a : A) : string := unwrap_or "" (ser a).
(** Writing and reading back gives the record. *)
Definition survives {A} `{Serde A} (a : A) : Prop := de (to_json a) = Ok a.

(** ** Keys *)

(** [split_once('/')], or the whole key and no name. *)
Definition split_key (k : string) : string * string := unwrap_or (k, "") (split_once slash k).

Section records.
Context `{Serde DistVolume} `{Serde Snapshot} `{Serde GroupSnapshot} `{Serde Backup} `{Serde VmMigration}.
Context `{Serde NodeConfig} `{Serde (list Orphan)} `{Serde (list StaleHead)}.

(** ** Writing *)

Definition put {A} `{Serde A} (m : gmap string string) (k : string) (a : A) : gmap string string :=
  <[k := to_json a]> m.
Definition put_all {A} `{Serde A} (kind : string) (vs : list (string * A)) (m : gmap string string)
    : gmap string string :=
  foldl (λ m '(n, v), put m (kind +:+ "/" +:+ n) v) m vs.
Definition registered_configs (fed : FedState) : list (string * NodeConfig) :=
  map (λ n, (nc_name (config n), config n)) (List.filter is_registered (bt_values (nodes fed))).
Definition records_of (fed : FedState) : gmap string string :=
  let m := put_all "volumes" (bt_list (volumes fed)) ∅ in
  let m := put_all "snapshots" (bt_list (snapshots fed)) m in
  let m := put_all "group_snapshots" (bt_list (group_snapshots fed)) m in
  let m := put_all "backups" (bt_list (backups fed)) m in
  let m := put_all "vm_migrations" (bt_list (vm_migrations fed)) m in
  let m := put_all "nodes" (registered_configs fed) m in
  let m := put m "orphans" (orphans fed) in
  put m "stale_heads" (stale_heads fed).

(** ** Reading *)

Definition read_record (st : FedState * list NodeConfig) (kv : string * string)
    : result (FedState * list NodeConfig) string :=
  let '(next, registered) := st in
  let '(k, v) := kv in
  let '(kind, nm) := split_key k in
  let bad {A} (r : result A string) := map_err (λ e, "store key " +:+ k +:+ ": " +:+ e) r in
  if kind == "volumes" then
    let? x := bad (de v) in Ok (next <| volumes ::= <[nm := x]> |>, registered)
  else if kind == "snapshots" then
    let? x := bad (de v) in Ok (next <| snapshots ::= <[nm := x]> |>, registered)
  else if kind == "group_snapshots" then
    let? x := bad (de v) in Ok (next <| group_snapshots ::= <[nm := x]> |>, registered)
  else if kind == "backups" then
    let? x := bad (de v) in Ok (next <| backups ::= <[nm := x]> |>, registered)
  else if kind == "vm_migrations" then
    let? x := bad (de v) in Ok (next <| vm_migrations ::= <[nm := x]> |>, registered)
  else if kind == "nodes" then
    let? x := bad (de v) in Ok (next, (registered ++ [x])%list)
  else if kind == "orphans" then
    let? x := bad (de v) in Ok (next <| orphans := x |>, registered)
  else if kind == "stale_heads" then
    let? x := bad (de v) in Ok (next <| stale_heads := x |>, registered)
  else Ok (next, registered).

Fixpoint read_records (st : FedState * list NodeConfig) (l : list (string * string))
    : result (FedState * list NodeConfig) string :=
  match l with
  | [] => Ok st
  | kv :: l => let? st := read_record st kv in read_records st l
  end.

(** Static and adopted nodes stay; registered ones follow the store. *)
Definition follow_registered (ns : gmap string Node) (registered : list NodeConfig) : gmap string Node :=
  let names := list_to_set (C := gset string) (map nc_name registered) in
  let kept := bt_retain (λ n node, negb (is_registered node) || bool_decide (n ∈ names)) ns in
  foldl merge_registered kept registered.

Definition apply_records (fed : FedState) (records : gmap string string) : result FedState string :=
  let? (next, registered) := read_records (FedState_default, []) (bt_list records) in
  Ok (fed <| volumes := volumes next |> <| snapshots := snapshots next |>
          <| group_snapshots := group_snapshots next |> <| backups := backups next |>
          <| vm_migrations := vm_migrations next |> <| orphans := orphans next |>
          <| stale_heads := stale_heads next |>
          <| nodes ::= λ ns, follow_registered ns registered |>).
End records.

(** ** Differences *)

Inductive Op := Put (k v : string) | Delete (k : string).

(** What turns [old] into [new]. *)
Definition diff (old new : gmap string string) : list Op :=
  (map (λ '(k, v), Put k v) (List.filter (λ '(k, v), old !! k != Some v) (bt_list new))
   ++ map Delete (List.filter (λ k, negb (is_some (new !! k))) (bt_keys old)))%list.

(** What a transaction makes of the records, one operation after another. *)
Definition apply_op (m : gmap string string) (o : Op) : gmap string string :=
  match o with Put k v => <[k := v]> m | Delete k => delete k m end.
Definition apply_ops (m : gmap string string) (ops : list Op) : gmap string string := foldl apply_op m ops.
Definition op_key (o : Op) : string := match o with Put k _ => k | Delete k => k end.

Local Close Scope string_scope.

(** ** Facts: differences *)

Lemma elem_of_diff old new o :
  o ∈ diff old new ↔
    (∃ k v, o = Put k v ∧ new !! k = Some v ∧ old !! k ≠ Some v)
    ∨ (∃ k, o = Delete k ∧ is_Some (old !! k) ∧ new !! k = None).
Proof.
  unfold diff. rewrite elem_of_app, !list_elem_of_fmap. split.
  - intros [([k v] & -> & [Hin Hne]%elem_of_filterb)|(k & -> & [Hin Hn]%elem_of_filterb)].
    + left. exists k, v. rewrite elem_of_bt_list in Hin. apply neqb_prop in Hne. done.
    + right. exists k. rewrite elem_of_bt_keys in Hin. apply negb_true_iff, is_some_false in Hn. done.
  - intros [(k & v & -> & Hn & Ho)|(k & -> & Ho & Hn)].
    + left. exists (k, v). split; [done|]. rewrite elem_of_filterb, elem_of_bt_list. by rewrite neqb_true.
    + right. exists k. split; [done|]. rewrite elem_of_filterb, elem_of_bt_keys. by rewrite Hn.
Qed.

Lemma NoDup_filterb {A} (p : A → bool) (l : list A) : NoDup l → NoDup (List.filter p l).
Proof. rewrite !NoDup_ListNoDup. apply List.NoDup_filter. Qed.

Lemma diff_keys_NoDup old new : NoDup (map op_key (diff old new)).
Proof.
  unfold diff. rewrite map_app, !map_map. apply NoDup_app. split; [|split].
  - pose proof (bt_list_NoDup new) as Hn. induction (bt_list new) as [|[k v] l IH]; simpl; [constructor|].
    simpl in Hn. apply NoDup_cons in Hn as [Hk Hn]. destruct (_ != _); simpl; [|by apply IH].
    apply NoDup_cons. split; [|by apply IH]. intros ([k' v'] & -> & [Hin _]%elem_of_filterb)%list_elem_of_fmap.
    apply Hk. simpl. by apply (list_elem_of_fmap_2 fst) in Hin.
  - intros k ([k' v] & -> & [Hin _]%elem_of_filterb)%list_elem_of_fmap
      (k2 & E & [_ Hn%negb_true_iff]%elem_of_filterb)%list_elem_of_fmap. simpl in E. subst k2.
    apply elem_of_bt_list in Hin. by rewrite Hin in Hn.
  - rewrite map_id. apply NoDup_filterb, bt_keys_NoDup.
Qed.

(** Operations on distinct keys: each key ends as its operation says. *)
Lemma apply_ops_lookup ops m k :
  NoDup (map op_key ops) →
  apply_ops m ops !! k =
    match find_first (λ o, op_key o == k) ops with
    | Some (Put _ v) => Some v
    | Some (Delete _) => None
    | None => m !! k
    end.
Proof.
  revert m. induction ops as [|o ops IH]; intros m; [done|]. simpl. rewrite NoDup_cons. intros [Ho Hn].
  rewrite IH by done. unfold find_first. simpl. destruct (op_key o == k) eqn:E.
  - apply eqb_prop in E as <-. replace (List.find _ ops) with (@None Op).
    + destruct o; simpl; [by rewrite lookup_insert_eq|by rewrite lookup_delete_eq].
    + symmetry. apply find_first_None. intros x Hx. apply eqb_false. intros E. apply Ho. rewrite <-E.
      by apply list_elem_of_fmap_2.
  - apply eqb_nprop in E. destruct (List.find _ ops) as [[]|]; [done..|].
    destruct o; simpl in *; [by rewrite lookup_insert_ne|by rewrite lookup_delete_ne].
Qed.

(** Part of a difference, applied: each key is old or new. *)
Lemma diff_cut old new ops k :
  NoDup (map op_key ops) → (∀ o, o ∈ ops → o ∈ diff old new) →
  apply_ops old ops !! k = old !! k ∨ apply_ops old ops !! k = new !! k.
Proof.
  intros Hnd Hsub. rewrite apply_ops_lookup by done.
  destruct (find_first _ ops) as [o|] eqn:E; [|by left].
  apply find_first_Some in E as [Hin%Hsub <-%eqb_prop].
  apply elem_of_diff in Hin as [(k & v & -> & ? & _)|(k & -> & _ & ?)]; right; by simpl.
Qed.

Lemma diff_take old new n k :
  let m := apply_ops old (take n (diff old new)) in m !! k = old !! k ∨ m !! k = new !! k.
Proof.
  apply diff_cut.
  - rewrite <-firstn_map. eapply sublist_NoDup; [apply diff_keys_NoDup|apply sublist_take].
  - intros o Ho. rewrite <-(take_drop n). apply elem_of_app. by left.
Qed.

Lemma diff_all old new : apply_ops old (diff old new) = new.
Proof.
  apply map_eq. intros k. rewrite apply_ops_lookup by apply diff_keys_NoDup.
  destruct (find_first _ _) as [o|] eqn:E.
  - apply find_first_Some in E as [Hin <-%eqb_prop].
    apply elem_of_diff in Hin as [(k & v & -> & ? & _)|(k & -> & _ & ?)]; by simpl.
  - rewrite find_first_None in E.
    assert (∀ o, o ∈ diff old new → op_key o ≠ k) as Hno by (intros o Ho; apply eqb_false; by apply E).
    destruct (new !! k) as [v|] eqn:En.
    + destruct (decide (old !! k = Some v)) as [|Hne]; [done|].
      destruct (Hno (Put k v)); [|done]. rewrite elem_of_diff. by eauto 6.
    + destruct (old !! k) as [v|] eqn:Eo; [|done].
      destruct (Hno (Delete k)); [|done]. rewrite elem_of_diff. right. exists k. by rewrite Eo.
Qed.

Lemma diff_nil old new : diff old new = [] ↔ old = new.
Proof.
  split; [by intros E; rewrite <-(diff_all old new), E|]. intros ->.
  destruct (diff new new) as [|o l] eqn:E; [done|].
  assert (o ∈ diff new new) as Ho by (rewrite E; by left).
  apply elem_of_diff in Ho as [(? & ? & _ & ? & ?)|(? & _ & [? ?] & ?)]; congruence.
Qed.

(** The writes of a change. Applied to what was written last they give
    what there is now; every one of them changes its key, no key is written
    twice, and there is none exactly when nothing changed. Cut short anywhere
    they leave at every key either the old or the new record. *)
Lemma diff_spec old new :
  apply_ops old (diff old new) = new
  ∧ NoDup (map op_key (diff old new))
  ∧ (∀ o, o ∈ diff old new → apply_op old o ≠ old)
  ∧ (diff old new = [] ↔ old = new)
  ∧ ∀ n k, let m := apply_ops old (take n (diff old new)) in m !! k = old !! k ∨ m !! k = new !! k.
Proof.
  split; [apply diff_all|]. split; [apply diff_keys_NoDup|]. split; [|split; [apply diff_nil|apply diff_take]].
  intros o [(k & v & -> & _ & Ho)|(k & -> & Ho & _)]%elem_of_diff E; simpl in E.
  - apply Ho. by rewrite <-E, lookup_insert_eq.
  - rewrite <-E, lookup_delete_eq in Ho. by destruct Ho.
Qed.

(** A list of operations, applied: what it does not name is as before, what
    it names does not depend on what was there; so twice is once. *)
Lemma apply_ops_other ops m k : k ∉ map op_key ops → apply_ops m ops !! k = m !! k.
Proof.
  revert m. induction ops as [|o ops IH]; intros m; [done|]. simpl. rewrite not_elem_of_cons. intros [Ho Hk].
  rewrite IH by done. destruct o; simpl in *; [by rewrite lookup_insert_ne|by rewrite lookup_delete_ne].
Qed.
Lemma apply_ops_named ops m m' k :
  m !! k = m' !! k ∨ k ∈ map op_key ops → apply_ops m ops !! k = apply_ops m' ops !! k.
Proof.
  revert m m'. induction ops as [|o ops IH]; intros m m'; simpl; [intros [?|?%not_elem_of_nil]; done|].
  rewrite elem_of_cons. intros Hor. apply IH.
  destruct (decide (k = op_key o)) as [->|Hne].
  - left. destruct o; simpl; [by rewrite !lookup_insert_eq|by rewrite !lookup_delete_eq].
  - destruct Hor as [E|[?|?]]; [left|done|by right].
    destruct o; simpl in *; [by rewrite !lookup_insert_ne|by rewrite !lookup_delete_ne].
Qed.
Lemma apply_ops_app m a b : apply_ops m (a ++ b) = apply_ops (apply_ops m a) b.
Proof. apply foldl_app. Qed.
Lemma apply_ops_idem ops m : apply_ops (apply_ops m ops) ops = apply_ops m ops.
Proof.
  apply map_eq. intros k. destruct (decide (k ∈ map op_key ops)).
  - apply apply_ops_named. by right.
  - by rewrite !apply_ops_other.
Qed.

(** ** Facts: keys *)

(** Inserting the entries of a map, in any order, gives the map. *)
Lemma insert_all {V} (l : list (string * V)) (m : gmap string V) :
  (∀ n x, (n, x) ∈ l ↔ m !! n = Some x) → foldl (λ m '(n, x), <[n := x]> m) ∅ l = m.
Proof.
  intros Hl. assert (∀ (l : list (string * V)) (acc : gmap string V) n, (∀ n x, (n, x) ∈ l → m !! n = Some x) →
    foldl (λ m '(n, x), <[n := x]> m) acc l !! n = if decide (n ∈ l.*1) then m !! n else acc !! n) as Hf.
  { clear l Hl. induction l as [|[k x] l IH]; intros acc n Hin; [done|].
    cbn [foldl]. change (((k, x) :: l).*1) with (k :: l.*1). rewrite IH by (intros; apply Hin; by right). specialize (Hin k x (list_elem_of_here _ _)).
    destruct (decide (n = k)) as [->|Hne].
    - rewrite lookup_insert_eq, (decide_True (P := k ∈ k :: l.*1)) by left. by destruct (decide _).
    - rewrite lookup_insert_ne by done. destruct (decide (n ∈ l.*1)) as [Hn|Hn].
      + by rewrite decide_True by by right.
      + rewrite decide_False; [done|]. by intros [?|?]%elem_of_cons. }
  apply map_eq. intros n. rewrite Hf by (intros; by apply Hl). destruct (decide _) as [|Hn]; [done|].
  destruct (m !! n) as [x|] eqn:E; [|done]. destruct Hn.
  apply Hl in E. by apply (list_elem_of_fmap_2 fst) in E.
Qed.

(** ** Facts: reading what was written *)

Section round_trip.
Context `{Serde DistVolume} `{Serde Snapshot} `{Serde GroupSnapshot} `{Serde Backup} `{Serde VmMigration}.
Context `{Serde NodeConfig} `{Serde (list Orphan)} `{Serde (list StaleHead)}.
(** A record of the store, typed. *)
Inductive Entry :=
  | EVolume (n : string) (v : DistVolume)
  | ESnapshot (n : string) (v : Snapshot)
  | EGroup (n : string) (v : GroupSnapshot)
  | EBackup (n : string) (v : Backup)
  | EVm (n : string) (v : VmMigration)
  | ENode (c : NodeConfig)
  | EOrphans (l : list Orphan)
  | EStale (l : list StaleHead).
Definition entry_pair (e : Entry) : string * string :=
  match e with
  | EVolume n v => ("volumes/" +:+ n, to_json v)
  | ESnapshot n v => ("snapshots/" +:+ n, to_json v)
  | EGroup n v => ("group_snapshots/" +:+ n, to_json v)
  | EBackup n v => ("backups/" +:+ n, to_json v)
  | EVm n v => ("vm_migrations/" +:+ n, to_json v)
  | ENode c => ("nodes/" +:+ nc_name c, to_json c)
  | EOrphans l => ("orphans", to_json l)
  | EStale l => ("stale_heads", to_json l)
  end%string.
(** It is a record of [fed]. *)
Definition entry_of (fed : FedState) (e : Entry) : Prop :=
  match e with
  | EVolume n v => volumes fed !! n = Some v
  | ESnapshot n v => snapshots fed !! n = Some v
  | EGroup n v => group_snapshots fed !! n = Some v
  | EBackup n v => backups fed !! n = Some v
  | EVm n v => vm_migrations fed !! n = Some v
  | ENode c => ∃ k n, nodes fed !! k = Some n ∧ is_registered n = true ∧ c = config n
  | EOrphans l => l = orphans fed
  | EStale l => l = stale_heads fed
  end.
Definition entry_survives (e : Entry) : Prop :=
  match e with
  | EVolume _ v => survives v | ESnapshot _ v => survives v | EGroup _ v => survives v
  | EBackup _ v => survives v | EVm _ v => survives v | ENode c => survives c
  | EOrphans l => survives l | EStale l => survives l
  end.
Definition load_entry (st : FedState * list NodeConfig) (e : Entry) : FedState * list NodeConfig :=
  let '(next, registered) := st in
  match e with
  | EVolume n v => (next <| volumes ::= <[n := v]> |>, registered)
  | ESnapshot n v => (next <| snapshots ::= <[n := v]> |>, registered)
  | EGroup n v => (next <| group_snapshots ::= <[n := v]> |>, registered)
  | EBackup n v => (next <| backups ::= <[n := v]> |>, registered)
  | EVm n v => (next <| vm_migrations ::= <[n := v]> |>, registered)
  | ENode c => (next, registered ++ [c])
  | EOrphans l => (next <| orphans := l |>, registered)
  | EStale l => (next <| stale_heads := l |>, registered)
  end.

Lemma read_entry st e : entry_survives e → read_record st (entry_pair e) = Ok (load_entry st e).
Proof.
  destruct st as [next registered]. unfold entry_survives, survives.
  destruct e; intros Hd; cbn; rewrite Hd; reflexivity.
Qed.

Lemma read_entries st es :
  Forall entry_survives es → read_records st (map entry_pair es) = Ok (foldl load_entry st es).
Proof.
  intros Hs. revert st. induction Hs as [|e es He _ IH]; intros st; [done|].
  cbn [map read_records]. rewrite read_entry by done. apply IH.
Qed.

(** What a kind of entry makes of its part of the federation. *)
Lemma load_map {V} (get : FedState → gmap string V) (pick : Entry → option (string * V)) es st :
  (∀ st e, get (load_entry st e).1 = match pick e with Some (n, x) => <[n := x]> (get st.1) | None => get st.1 end) →
  get (foldl load_entry st es).1 = foldl (λ m '(n, x), <[n := x]> m) (get st.1) (omap pick es).
Proof.
  intros Hg. revert st. induction es as [|e es IH]; intros st; [done|]. cbn [foldl]. rewrite IH, Hg.
  cbn. by destruct (pick e) as [[n x]|].
Qed.

Lemma load_configs es st :
  (foldl load_entry st es).2 = st.2 ++ omap (λ e, match e with ENode c => Some c | _ => None end) es.
Proof.
  revert st. induction es as [|e es IH]; intros st; cbn; [by rewrite app_nil_r|].
  rewrite IH. destruct st as [next r], e; cbn; by rewrite <-?app_assoc.
Qed.

(** A part of which there is one entry. *)
Lemma load_one {V} (get : FedState → V) (pick : Entry → option V) es st v :
  (∀ st e, get (load_entry st e).1 = match pick e with Some x => x | None => get st.1 end) →
  (∀ x, x ∈ omap pick es → x = v) → (get st.1 = v ∨ ∃ x, x ∈ omap pick es) →
  get (foldl load_entry st es).1 = v.
Proof.
  intros Hg. revert st. induction es as [|e es IH]; intros st Hall Hor; cbn.
  { destruct Hor as [?|[x ?%not_elem_of_nil]]; done. }
  cbn in Hall, Hor. destruct (pick e) as [x|] eqn:E.
  - apply IH; [intros y Hy; apply Hall; by right|]. left. rewrite Hg, E. apply Hall. by left.
  - apply IH; [done|]. rewrite Hg, E. done.
Qed.

Ltac entry_kind :=
  try reflexivity; first
    [ by intros [? ?] []
    | intros []; intros; split; intros; simplify_eq/=; done ].

Section loaded.
Context (src : FedState) (es : list Entry).
Context (Hes : ∀ e, e ∈ es ↔ entry_of src e).
Lemma loaded_map {V} (get : FedState → gmap string V) (pick : Entry → option (string * V)) (mk : string → V → Entry) :
  (∀ st e, get (load_entry st e).1 = match pick e with Some (n, x) => <[n := x]> (get st.1) | None => get st.1 end) →
  (∀ e n x, pick e = Some (n, x) ↔ e = mk n x) → (∀ n x, entry_of src (mk n x) ↔ get src !! n = Some x) →
  get FedState_default = ∅ → get (foldl load_entry (FedState_default, []) es).1 = get src.
Proof using Hes.
  intros Hg Hp He Hd. rewrite (load_map get pick) by done. simpl fst. rewrite Hd. apply insert_all.
  intros n x. rewrite list_elem_of_omap. setoid_rewrite Hp. split.
  - intros (e & Hin & ->). by apply He, Hes.
  - intros Hx. exists (mk n x). split; [by apply Hes, He|done].
Qed.
Lemma loaded_durable : durable (foldl load_entry (FedState_default, []) es).1 = durable src.
Proof using Hes.
  unfold durable.
  rewrite (loaded_map volumes (λ e, match e with EVolume n x => Some (n, x) | _ => None end) EVolume) by entry_kind.
  rewrite (loaded_map snapshots (λ e, match e with ESnapshot n x => Some (n, x) | _ => None end) ESnapshot) by entry_kind.
  rewrite (loaded_map group_snapshots (λ e, match e with EGroup n x => Some (n, x) | _ => None end) EGroup) by entry_kind.
  rewrite (loaded_map backups (λ e, match e with EBackup n x => Some (n, x) | _ => None end) EBackup) by entry_kind.
  rewrite (loaded_map vm_migrations (λ e, match e with EVm n x => Some (n, x) | _ => None end) EVm) by entry_kind.
  rewrite (load_one orphans (λ e, match e with EOrphans l => Some l | _ => None end) es _ (orphans src)).
  2: by intros [? ?] [].
  2:{ intros l (e & He%Hes & E)%list_elem_of_omap. by destruct e; simplify_eq. }
  2:{ right. exists (orphans src). apply list_elem_of_omap. exists (EOrphans (orphans src)). by rewrite Hes. }
  rewrite (load_one stale_heads (λ e, match e with EStale l => Some l | _ => None end) es _ (stale_heads src)).
  2: by intros [? ?] [].
  2:{ intros l (e & He%Hes & E)%list_elem_of_omap. by destruct e; simplify_eq. }
  2:{ right. exists (stale_heads src). apply list_elem_of_omap. exists (EStale (stale_heads src)). by rewrite Hes. }
  done.
Qed.
End loaded.

(** ** Facts: the keys written *)

Lemma put_all_pairs {A} `{Serde A} (P : string → string → Prop) kind (l : list (string * A)) m :
  (∀ k v, m !! k = Some v → P k v) → (∀ n x, (n, x) ∈ l → P (kind +:+ "/" +:+ n)%string (to_json x)) →
  ∀ k v, put_all kind l m !! k = Some v → P k v.
Proof.
  revert m. induction l as [|[n x] l IH]; intros m Hm Hl; [done|]. cbn [put_all foldl]. apply IH.
  - intros k v. unfold put. intros [[<- <-]|[_ ?]]%lookup_insert_Some; [apply Hl; by left|by apply Hm].
  - intros. apply Hl. by right.
Qed.

Lemma put_all_keeps {A} `{Serde A} kind (l : list (string * A)) m k :
  is_Some (m !! k) → is_Some (put_all kind l m !! k).
Proof.
  revert m. induction l as [|[n x] l IH]; intros m Hm; [done|]. cbn [put_all foldl]. apply IH.
  unfold put. destruct (decide ((kind +:+ "/" +:+ n)%string = k)) as [->|]; [by rewrite lookup_insert_eq|].
  by rewrite lookup_insert_ne.
Qed.

Lemma put_all_has {A} `{Serde A} kind (l : list (string * A)) m n x :
  (n, x) ∈ l → is_Some (put_all kind l m !! (kind +:+ "/" +:+ n)%string).
Proof.
  revert m. induction l as [|[n' x'] l IH]; intros m; [by intros ?%not_elem_of_nil|].
  intros [[= -> ->]|Hin]%elem_of_cons; cbn [put_all foldl]; [|by apply IH].
  apply put_all_keeps. unfold put. by rewrite lookup_insert_eq.
Qed.

Lemma put_keeps {A} `{Serde A} m k' (a : A) k : is_Some (m !! k) → is_Some (put m k' a !! k).
Proof. unfold put. intros. destruct (decide (k' = k)) as [->|]; [by rewrite lookup_insert_eq|by rewrite lookup_insert_ne]. Qed.

Lemma elem_of_registered_configs fed n c :
  (n, c) ∈ registered_configs fed ↔ n = nc_name c ∧ ∃ k x, nodes fed !! k = Some x ∧ is_registered x = true ∧ c = config x.
Proof.
  unfold registered_configs. rewrite list_elem_of_fmap. split.
  - intros (x & [= -> ->] & [(k & Hk)%elem_of_bt_values Hr]%elem_of_filterb). eauto 6.
  - intros (-> & k & x & Hk & Hr & ->). exists x. rewrite elem_of_filterb, elem_of_bt_values. eauto.
Qed.

(** Every key holds one of the federation's records… *)
Lemma records_of_entry fed k v :
  records_of fed !! k = Some v → ∃ e, entry_of fed e ∧ entry_pair e = (k, v).
Proof.
  unfold records_of, put at 1.
  intros [[<- <-]|[_ Hk]]%lookup_insert_Some; [by exists (EStale (stale_heads fed))|]. revert Hk.
  unfold put at 1. intros [[<- <-]|[_ Hk]]%lookup_insert_Some; [by exists (EOrphans (orphans fed))|].
  revert k v Hk. repeat apply put_all_pairs; [done|..]; intros n x Hin.
  6:{ apply elem_of_registered_configs in Hin as [-> Hx]. by exists (ENode x). }
  all: apply elem_of_bt_list in Hin.
  - by exists (EVolume n x).
  - by exists (ESnapshot n x).
  - by exists (EGroup n x).
  - by exists (EBackup n x).
  - by exists (EVm n x).
Qed.

Lemma entry_key_inj fed e e' :
  (∀ k n, nodes fed !! k = Some n → nc_name (config n) = k) →
  entry_of fed e → entry_of fed e' → (entry_pair e).1 = (entry_pair e').1 → e = e'.
Proof.
  intros Hwf He He' E. destruct e as [| | | | |c| |], e' as [| | | | |c'| |]; cbn in *; try discriminate E;
    try congruence; apply (inj (String.app _)) in E; try (subst; congruence).
  destruct He as (k & n & Hk & _ & ->), He' as (k' & n' & Hk' & _ & ->).
  pose proof (Hwf _ _ Hk). pose proof (Hwf _ _ Hk'). congruence.
Qed.

(** …and every record has its key. *)
Lemma records_of_has fed e : entry_of fed e → is_Some (records_of fed !! (entry_pair e).1).
Proof.
  assert (∀ k m, is_Some (put_all "nodes" (registered_configs fed) m !! k) →
            is_Some (put (put (put_all "nodes" (registered_configs fed) m) "orphans" (orphans fed))
                       "stale_heads" (stale_heads fed) !! k)) as Hk by (intros; by do 2 apply put_keeps).
  unfold records_of. destruct e as [n v|n v|n v|n v|n v|c|l|l]; cbn [entry_of]; intros He.
  - apply Hk. do 5 apply put_all_keeps. by apply (put_all_has "volumes" _ _ n v), elem_of_bt_list.
  - apply Hk. do 4 apply put_all_keeps. by apply (put_all_has "snapshots" _ _ n v), elem_of_bt_list.
  - apply Hk. do 3 apply put_all_keeps. by apply (put_all_has "group_snapshots" _ _ n v), elem_of_bt_list.
  - apply Hk. do 2 apply put_all_keeps. by apply (put_all_has "backups" _ _ n v), elem_of_bt_list.
  - apply Hk. apply put_all_keeps. by apply (put_all_has "vm_migrations" _ _ n v), elem_of_bt_list.
  - apply Hk. eapply (put_all_has "nodes" _ _ (nc_name c) c). by apply elem_of_registered_configs.
  - apply put_keeps. unfold put. by rewrite lookup_insert_eq.
  - unfold put at 1. by rewrite lookup_insert_eq.
Qed.

(** The listing of the keys is a listing of the entries. *)
Lemma records_of_entries fed :
  (∀ k n, nodes fed !! k = Some n → nc_name (config n) = k) →
  ∃ es, bt_list (records_of fed) = map entry_pair es ∧ (∀ e, e ∈ es ↔ entry_of fed e)
    ∧ NoDup (map (λ e, (entry_pair e).1) es).
Proof.
  intros Hwf.
  assert (∀ l, (∀ k v, (k, v) ∈ l → records_of fed !! k = Some v) →
            ∃ es, l = map entry_pair es ∧ ∀ e, e ∈ es → entry_of fed e) as Hl.
  { induction l as [|[k v] l IH]; intros Hl; [exists []; split; [done|by intros ? ?%not_elem_of_nil]|].
    destruct IH as (es & -> & Hes); [intros; apply Hl; by right|].
    destruct (records_of_entry fed k v) as (e & He & Hp); [apply Hl; by left|].
    exists (e :: es). split; [cbn; by rewrite Hp|]. intros e' [->|?]%elem_of_cons; auto. }
  destruct (Hl (bt_list (records_of fed))) as (es & Hb & Hes); [intros k v; apply elem_of_bt_list|].
  exists es. split; [done|]. split.
  - intros e. split; [apply Hes|]. intros He. destruct (records_of_has fed e He) as [v Hv].
    apply elem_of_bt_list in Hv. rewrite Hb in Hv. apply list_elem_of_fmap in Hv as (e' & E & Hin).
    replace e with e'; [done|]. eapply entry_key_inj; [done|by apply Hes|done|]. by rewrite <-E.
  - pose proof (bt_list_NoDup (records_of fed)) as Hnd. rewrite Hb in Hnd.
    change (map (λ e, (entry_pair e).1) es) with (map (λ e, fst (entry_pair e)) es).
    rewrite <-map_map. exact Hnd.
Qed.

(** ** Facts: the nodes of a reader *)

Lemma follow_registered_lookup ns registered k :
  NoDup (map nc_name registered) →
  follow_registered ns registered !! k =
    match ns !! k, find_first (λ c, nc_name c == k) registered with
    | Some n, Some c => Some (if is_registered n then n <| config := c |> else n)
    | Some n, None => if is_registered n then None else Some n
    | None, Some c => Some (MkNode c (NodeStatus_new Registered))
    | None, None => None
    end.
Proof.
  intros Hnd. unfold follow_registered. set (kept := bt_retain _ ns).
  destruct (find_first _ registered) as [c|] eqn:Hf.
  - apply find_first_Some in Hf as [Hin <-%eqb_prop]. rewrite merge_registered_in by done.
    assert (kept !! nc_name c = ns !! nc_name c) as ->; [|by destruct (ns !! nc_name c)].
    destruct (ns !! nc_name c) as [n|] eqn:E.
    + apply bt_retain_lookup. split; [done|]. rewrite orb_true_iff, bool_decide_eq_true. right.
      apply elem_of_list_to_set. by apply list_elem_of_fmap_2.
    + apply bt_retain_lookup_None. intros v. by rewrite E.
  - rewrite find_first_None in Hf.
    assert (k ∉ map nc_name registered) as Hk.
    { intros (c & -> & Hin)%list_elem_of_fmap. specialize (Hf c Hin). simpl in Hf. by rewrite eqb_refl in Hf. }
    rewrite merge_registered_other by done. destruct (ns !! k) as [n|] eqn:E.
    + destruct (is_registered n) eqn:Er.
      * apply bt_retain_lookup_None. intros v Hv. assert (v = n) as -> by congruence. rewrite Er. simpl.
        apply bool_decide_eq_false. by rewrite elem_of_list_to_set.
      * apply bt_retain_lookup. by rewrite Er.
    + apply bt_retain_lookup_None. intros v. by rewrite E.
Qed.

(** The registered configuration a federation has under a name. *)
Definition reg_config (fed : FedState) (k : string) : option NodeConfig :=
  fmap (M:=option) config (opt_filter is_registered (nodes fed !! k)).

Lemma loaded_configs src es :
  (∀ k n, nodes src !! k = Some n → nc_name (config n) = k) →
  (∀ e, e ∈ es ↔ entry_of src e) → NoDup (map (λ e, (entry_pair e).1) es) →
  let configs := omap (λ e, match e with ENode c => Some c | _ => None end) es in
  NoDup (map nc_name configs) ∧ ∀ k, find_first (λ c, nc_name c == k) configs = reg_config src k.
Proof.
  intros Hwf Hes Hnd configs.
  assert (∀ c, c ∈ configs ↔ ENode c ∈ es) as Hc.
  { intros c. unfold configs. rewrite list_elem_of_omap. split; [|by exists (ENode c)].
    intros (e & He & E). destruct e; simplify_eq. done. }
  split.
  - clear Hes Hc. subst configs. induction es as [|e es IH]; [constructor|]. cbn in Hnd |- *.
    apply NoDup_cons in Hnd as [He Hnd]. specialize (IH Hnd).
    destruct e; try exact IH. cbn. constructor; [|exact IH].
    intros (c' & Hn & (e & Hin & E)%list_elem_of_omap)%list_elem_of_fmap. destruct e; simplify_eq.
    apply He, list_elem_of_fmap. exists (ENode c'). split; [cbn; by rewrite Hn|done].
  - intros k. unfold reg_config. destruct (find_first _ configs) as [c|] eqn:Hf.
    + apply find_first_Some in Hf as [Hin%Hc%Hes <-%eqb_prop]. destruct Hin as (k & n & Hk & Hr & ->).
      rewrite (Hwf _ _ Hk), Hk. simpl. by rewrite Hr.
    + destruct (nodes src !! k) as [n|] eqn:Hk; [simpl|done]. destruct (is_registered n) eqn:Hr; [|done].
      rewrite find_first_None in Hf. specialize (Hf (config n)). cbn in Hf.
      rewrite (Hwf _ _ Hk), eqb_refl in Hf. discriminate Hf. apply Hc, Hes. by exists k, n.
Qed.

Lemma apply_written src fed
  (Hwf : ∀ k n, nodes src !! k = Some n → nc_name (config n) = k)
  (Hjson : ∀ e, entry_of src e → entry_survives e) :
  ∃ fed', apply_records fed (records_of src) = Ok fed'
    ∧ durable fed' = durable src ∧ revision fed' = revision fed
    ∧ ∀ k, nodes fed' !! k =
        match nodes fed !! k, reg_config src k with
        | Some n, Some c => Some (if is_registered n then n <| config := c |> else n)
        | Some n, None => if is_registered n then None else Some n
        | None, Some c => Some (MkNode c (NodeStatus_new Registered))
        | None, None => None
        end.
Proof.
  destruct (records_of_entries src Hwf) as (es & Hb & Hes & Hnd). unfold apply_records. rewrite Hb, read_entries.
  2:{ apply Forall_forall. intros e He. by apply Hjson, Hes. }
  pose proof (loaded_durable src es Hes) as Hd. pose proof (load_configs es (FedState_default, [])) as Hc.
  destruct (loaded_configs src es Hwf Hes Hnd) as [Hnc Hf].
  destruct (foldl load_entry _ es) as [next registered]. simpl in Hd, Hc. subst registered.
  eexists. split; [reflexivity|]. split; [exact Hd|]. split; [done|]. intros k. simpl.
  by rewrite follow_registered_lookup, Hf.
Qed.

(** C25: An instance that reads the records another wrote. Whatever it held,
    if every record's JSON reads back, the reading succeeds and its durable
    records are the writer's. Its own nodes (configured, local, adopted)
    stay as they are; its registered nodes are exactly the writer's, those it
    knew keep the status it polled itself, those the store lacks go. *)
Theorem records_round_trip src fed
  (Hwf : ∀ k n, nodes src !! k = Some n → nc_name (config n) = k)
  (Hjson : ∀ e, entry_of src e → entry_survives e) :
  ∃ fed', apply_records fed (records_of src) = Ok fed'
    ∧ durable fed' = durable src ∧ revision fed' = revision fed
    ∧ ∀ k, nodes fed' !! k =
        match nodes fed !! k, reg_config src k with
        | Some n, Some c => Some (if is_registered n then n <| config := c |> else n)
        | Some n, None => if is_registered n then None else Some n
        | None, Some c => Some (MkNode c (NodeStatus_new Registered))
        | None, None => None
        end.
Proof. exact (apply_written src fed Hwf Hjson). Qed.
End round_trip.

(** ** A codec for the example: every type has one record, by its key *)

Section example.
Definition one_record {A} (key : string) (a : A) : Serde A :=
  {| ser _ := Some key; de s := if s == key then Ok a else Err "no such record"%string |}.
Definition no_record {A} : Serde A := {| ser _ := None; de _ := Err "no record"%string |}.
Definition example_node (n : string) (src : NodeSource) : Node :=
  MkNode (MkNodeConfig n n None None None ∅ None) (NodeStatus_new src).
Definition example_snapshot : Snapshot :=
  MkSnapshot "s" "s" "v" 1 true 0 None "v" "reg" "e" None.
(** The writer: a registered node, a node of its own, a snapshot. *)
Definition example_writer : FedState :=
  FedState_default <| nodes := {["reg" := example_node "reg" Registered; "static" := example_node "static" Static]} |>
                   <| snapshots := {["s" := example_snapshot]} |>.
(** The reader: a node of its own and a registered one the writer lacks. *)
Definition example_reader : FedState :=
  FedState_default <| nodes := {["gone" := example_node "gone" Registered; "mine" := example_node "mine" Static]} |>.
End example.

Lemma records_round_trip_witness :
  let S1 : Serde DistVolume := no_record in
  let S2 : Serde Snapshot := one_record "snap" example_snapshot in
  let S3 : Serde GroupSnapshot := no_record in
  let S4 : Serde Backup := no_record in
  let S5 : Serde VmMigration := no_record in
  let S6 : Serde NodeConfig := one_record "reg" (config (example_node "reg" Registered)) in
  let S7 : Serde (list Orphan) := one_record "[]" [] in
  let S8 : Serde (list StaleHead) := one_record "[]" [] in
  ∃ fed', apply_records example_reader (records_of example_writer) = Ok fed'
    ∧ durable fed' = durable example_writer
    ∧ nodes fed' !! "reg" = Some (example_node "reg" Registered) ∧ nodes fed' !! "gone" = None
    ∧ nodes fed' !! "mine" = Some (example_node "mine" Static).
Proof.
  intros S1 S2 S3 S4 S5 S6 S7 S8.
  assert (∀ k n, nodes example_writer !! k = Some n → nc_name (config n) = k) as Hwf.
  { intros k n Hk. simpl in Hk. apply lookup_insert_Some in Hk as [[<- <-]|[_ Hk]]; [reflexivity|].
    apply lookup_singleton_Some in Hk as [<- <-]. reflexivity. }
  assert (∀ e, entry_of example_writer e → entry_survives e) as Hjson.
  { intros [n v|n v|n v|n v|n v|c|l|l] He; cbn in He; try (by rewrite lookup_empty in He).
    - simpl in He. apply lookup_singleton_Some in He as [_ <-]. reflexivity.
    - destruct He as (k & n & Hk & Hr & ->). simpl in Hk.
      apply lookup_insert_Some in Hk as [[<- <-]|[_ Hk]]; [reflexivity|].
      apply lookup_singleton_Some in Hk as [<- <-]. discriminate Hr.
    - subst l. reflexivity.
    - subst l. reflexivity. }
  destruct (records_round_trip example_writer example_reader Hwf Hjson) as (fed' & H1 & H2 & _ & H3).
  exists fed'. split; [exact H1|]. split; [exact H2|].
  rewrite (H3 "reg"%string), (H3 "gone"%string), (H3 "mine"%string). repeat split; reflexivity.
Defined.
