(* ===== verification/Store.v ===== *)
(** * The fleet store: election, writes, loads (src/store.rs)

    One instance leads: it holds a lease and the [leader] key, writes what
    changed in transactions guarded by that key, and steps down when a write
    is refused or its lease cannot be renewed. The others follow: they reload
    when [meta] moves and send every API write to the leader. etcd and the
    files are the environment ([StoreCall]); the lock held across a write or
    a load ([written]) is the order of the steps of a program alone.

    The client and its TLS files are in Connections. *)

From S2P Require Import Prelude F64 Config Model Events Refusal Async Json Inventory Kube Sync App Engine Replicate Base64 Records.
From stdpp Require Import options.

Local Open Scope string_scope.

(** ** State *)

Record LeaderInfo := MkLeaderInfo { li_instance : string; li_url : string }.
#[export] Instance LeaderInfo_eq_dec : EqDecision LeaderInfo.
Proof. solve_decision. Defined.

Record Meta := MkMeta { meta_revision_ : Z; meta_by : string; meta_at : time }.

Inductive StoreRole := RStarting | RLeader | RFollower.
#[export] Instance StoreRole_eq_dec : EqDecision StoreRole.
Proof. solve_decision. Defined.

Record PublishStatus := MkPublishStatus {
  ps_service : string;
  ps_address : option string;
  ps_port : option Z;
  ps_published_at : option time;
  ps_error : option string;
}.

Record Displaced := MkDisplaced { dp_volumes : list string; kept_as : option string; dp_at : time }.

Definition Displaced_message (d : Displaced) : string :=
  pretty (Z.of_nat (length (dp_volumes d)))
  +:+ " volume(s) this instance held are not in the store and are no longer managed: "
  +:+ join ", " (dp_volumes d) +:+ "; state kept as " +:+ unwrap_or "nowhere: the copy failed" (kept_as d)
  +:+ ". Their legs are still on the engines".

Record StoreStatus := MkStoreStatus {
  role : StoreRole;
  leader : option LeaderInfo;
  lease_id : option string;
  leader_revision : option Z;
  meta_revision : Z;
  last_load : option time;
  last_write : option time;
  writes_ : Z;
  loads : Z;
  last_error : option string;
  publish_ : option PublishStatus;
  displaced : option Displaced;
  last_renewal : option time;
}.
#[export] Instance StoreStatus_eta : Eta StoreStatus := λ r,
  MkStoreStatus (role r) (leader r) (lease_id r) (leader_revision r) (meta_revision r) (last_load r)
    (last_write r) (writes_ r) (loads r) (last_error r) (publish_ r) (displaced r) (last_renewal r).
Definition StoreStatus_default : StoreStatus :=
  MkStoreStatus RStarting None None None 0 None None 0 0 None None None None.

(** The service with a fleet store; [good] is the endpoint that answered
    last. *)
Record Fleet := MkFleet {
  app : App;
  sstatus : StoreStatus;
  written : gmap string string;
  good : nat;
}.
#[export] Instance Fleet_eta : Eta Fleet := λ r, MkFleet (app r) (sstatus r) (written r) (good r).

(** What [Store::new] takes from the configuration. *)
Record StoreParams := MkStoreParams {
  endpoints : list string;
  sprefix : string;
  instance_name : string;
  advertise_url : string;
  ttl : Z;
  publish_target : option (string * string);
  (** [kubernetes.server], and where its bearer comes from. *)
  kube_server : string;
  kube_token_source : string;
}.

(** One key as a range returns it. *)
Record Kv := MkKv { kv_key : string; kv_value : list Z; create_revision : Z; mod_revision : Z }.

(** ** The outside *)

Inductive StoreCall (J : Type) : Type → Type :=
  (** POST: the send error as text, or the status and the body. *)
  | Post (full_url : string) (body : J) : StoreCall J (result (Z * string) string)
  | Clock : StoreCall J time
  (** [persist_file]: state.json. *)
  | PersistFile : StoreCall J unit
  (** The copy of a state beside state.json; its path if it was written. *)
  | KeepCopy (secs : Z) (fed : FedState) : StoreCall J (option string)
  (** [advertise_addr]: the address and port of a URL, names looked up. *)
  | AdvertiseAddr (url : string) : StoreCall J (result (string * Z) string)
  (** A request to the apiserver under the [kubernetes] bearer: the send
      error as text, or the status and the body. *)
  | KubeHttp (m : Method) (full_url : string) (body : option J) : StoreCall J (result (Z * string) string).
Arguments Post {J}.
Arguments Clock {J}.
Arguments PersistFile {J}.
Arguments KeepCopy {J}.
Arguments AdvertiseAddr {J}.
Arguments KubeHttp {J}.

Abbreviation fleet J A := (prog (StoreCall J) Fleet A).

(** [str::lines]. *)
Definition strip_cr (l : list Ascii.ascii) : list Ascii.ascii :=
  match l with c :: l' => if (byte_of c =? 13)%Z then l' else l | [] => [] end.
Fixpoint lines_from (cur : list Ascii.ascii) (s : string) : list string :=
  match s with
  | EmptyString => match cur with [] => [] | _ => [String.string_of_list_ascii (rev cur)] end
  | String c s =>
      if (byte_of c =? 10)%Z then String.string_of_list_ascii (rev (strip_cr cur)) :: lines_from [] s
      else lines_from (c :: cur) s
  end.
Definition first_line (text : string) : string :=
  unwrap_or "{}" (find_first (λ l, trim l != "") (lines_from [] text)).

Section store.
Context {J : Type} `{Json J} `{HttpShow}.
(** [serde_json::from_str] of a value, [to_string] and [from_str] of the
    record types. *)
Context (json_parse : string → result J string).
Context `{Serde DistVolume} `{Serde Snapshot} `{Serde GroupSnapshot} `{Serde Backup} `{Serde VmMigration}.
Context `{Serde NodeConfig} `{Serde (list Orphan)} `{Serde (list StaleHead)} `{Serde LeaderInfo} `{Serde Meta}.
Context (sp : StoreParams).
Abbreviation call A := (fleet J (result A string)).

(** ** The etcd client *)

Fixpoint collect {A} (l : list (result A string)) : result (list A) string :=
  match l with
  | [] => Ok []
  | r :: l => let? x := r in let? xs := collect l in Ok (x :: xs)
  end.
Definition kv_of (kv : J) : result Kv string :=
  let? key := unb64 (unwrap_or "" (get_str "key" kv)) in
  let? key := from_utf8 key in
  let? value := unb64 (unwrap_or "" (get_str "value" kv)) in
  Ok {| kv_key := key; kv_value := value; create_revision := num (j_get "create_revision" kv);
        mod_revision := num (j_get "mod_revision" kv) |}.
Definition kvs_of (resp : option J) : result (list Kv) string :=
  match resp ≫= get_array "kvs" with
  | None => Ok []
  | Some l => collect (map kv_of l)
  end.

Definition etcd_answer (url text : string) (status : Z) : result J string :=
  if negb (is_success status) then Err (url +:+ ": " +:+ status_show status +:+ " " +:+ trim text)
  else
    let? v := json_parse (first_line text) in
    match j_get "error" v with
    | Some e => Err (url +:+ ": " +:+ j_show e)
    | None => Ok (unwrap_or v (j_get "result" v))
    end.

(** The endpoints from the one that answered last on, once each. *)
Fixpoint etcd_loop (path : string) (body : J) (idxs : list nat) (errors : list string) : call J :=
  match idxs with
  | [] => Ret (Err ("no etcd endpoint answered: " +:+ join "; " errors))
  | idx :: idxs =>
      let url := unwrap_or "" (endpoints sp !! idx) +:+ path in
      let! r := invoke (Post url body) in
      match r with
      | Err e => etcd_loop path body idxs (errors ++ [url +:+ ": " +:+ e])%list
      | Ok (status, text) =>
          if (status =? 503)%Z then etcd_loop path body idxs (errors ++ [url +:+ ": 503 " +:+ trim text])%list
          else
            (if is_success status then writes (λ s, s <| good := idx |>) else Ret tt) ;!
            Ret (etcd_answer url text status)
      end
  end.
Definition etcd_call (path : string) (body : J) : call J :=
  let n := length (endpoints sp) in
  let! start := reads good in
  etcd_loop path body (map (λ i, (start + i) mod n)%nat (List.seq 0 n)) [].

Definition b64_str (s : string) : J := of_str (b64 (as_bytes s)).

Definition range (key : string) : call (list Kv) :=
  let!? v := etcd_call "/v3/kv/range" (of_object [("key", b64_str key)]) in
  Ret (kvs_of (Some v)).
Definition range_prefix (prefix : string) : call (list Kv) :=
  let!? v := etcd_call "/v3/kv/range"
    (of_object [("key", b64_str prefix); ("range_end", of_str (b64 (prefix_end prefix)))]) in
  Ret (kvs_of (Some v)).
Definition txn (body : J) : call J := etcd_call "/v3/kv/txn" body.
Definition lease_grant (t : Z) : call Z :=
  let!? r := etcd_call "/v3/lease/grant" (of_object [("TTL", of_str (pretty t))]) in
  let id := num (j_get "ID" r) in
  Ret (if (id =? 0)%Z then Err ("lease grant: no ID in " +:+ j_show r) else Ok id).
Definition lease_keepalive (id : Z) : call Z :=
  let!? r := etcd_call "/v3/lease/keepalive" (of_object [("ID", of_str (pretty id))]) in
  Ret (Ok (num (j_get "TTL" r))).
Definition lease_revoke (id : Z) : call unit :=
  let!? _ := etcd_call "/v3/lease/revoke" (of_object [("ID", of_str (pretty id))]) in
  Ret (Ok tt).

(** ** The store *)

Definition store_key (k : string) : string := sprefix sp +:+ k.

Definition update_status (f : StoreStatus → StoreStatus) (s : Fleet) : Fleet := s <| sstatus ::= f |>.
Definition update (f : StoreStatus → StoreStatus) : fleet J unit := writes (update_status f).
Definition is_leader (s : Fleet) : bool := role (sstatus s) == RLeader.
(** The state the service's handlers run on: [AppState::leads] and
    [recovery_active] ask the store for its role. *)
Definition served (s : Fleet) : App := (app s) <| store_leads := Some (is_leader s) |>.
Definition leader_url (s : Fleet) : option string := li_url <$> leader (sstatus s).

Definition store_event (sev : Severity) (msg : string) : fleet J unit :=
  let! now := invoke Clock in
  writes (λ s, s <| app ::= λ a, a <| events ::= λ e, (push e now None sev "store" msg).1 |> |>).

Definition guard (rev : Z) : J :=
  of_object [("key", b64_str (store_key "leader")); ("target", of_str "CREATE"); ("result", of_str "EQUAL");
             ("create_revision", of_str (pretty rev))].
Definition put_op (k v : string) (lease : option Z) : J :=
  of_object [("request_put",
    of_object ([("key", b64_str (store_key k)); ("value", b64_str v)]
               ++ match lease with Some l => [("lease", of_str (pretty l))] | None => [] end)%list)].
Definition delete_op (k : string) : J :=
  of_object [("request_delete_range", of_object [("key", b64_str (store_key k))])].

Definition TXN_OPS : nat := 100.

(** ** Stepping down *)

Definition stepped_down (why : string) (s : StoreStatus) : StoreStatus :=
  s <| role := RFollower |> <| lease_id := None |> <| leader_revision := None |> <| leader := None |>
    <| publish_ := None |> <| meta_revision := 0%Z |> <| last_error := Some why |>.
Definition step_down (why : string) : fleet J unit :=
  let! was := atomic (λ s, (update_status (stepped_down why) s, is_leader s)) in
  if was then store_event Warning (instance_name sp +:+ " stepped down as leader: " +:+ why) else Ret tt.

(** ** Writing *)

Definition op_json (o : Op) : J :=
  match o with Put k v => put_op k v None | Delete k => delete_op k end.
Definition txn_body (rev : Z) (chunk : list Op) (meta : string) : J :=
  of_object [("compare", of_array [guard rev]);
             ("success", of_array (map op_json chunk ++ [put_op "meta" meta None])%list)].
Definition succeeded (r : J) : bool := unwrap_or false (get_bool "succeeded" r).
Definition header_revision (r : J) : Z := num (j_get "header" r ≫= j_get "revision").

Definition wrote (rev : Z) (now : time) (s : StoreStatus) : StoreStatus :=
  s <| meta_revision := rev |> <| writes_ ::= λ n, u64_add n 1 |> <| last_write := Some now |> <| last_error := None |>.
Definition write_chunk (rev : Z) (meta : string) (chunk : list Op) : call unit :=
  let! r := txn (txn_body rev chunk meta) in
  match r with
  | Err e => update (λ s, s <| last_error := Some ("write: " +:+ e) |>) ;! Ret (Err e)
  | Ok r =>
      if negb (succeeded r) then
        step_down "the leader key is no longer this instance's: a write was refused" ;!
        Ret (Err "not the leader any more")
      else
        writes (λ s, s <| written ::= λ w, apply_ops w chunk |>) ;!
        let! now := invoke Clock in
        update (wrote (header_revision r) now) ;! Ret (Ok tt)
  end.

(** The revision an instance that leads writes under. *)
Definition sync_guard (s : Fleet) : option Z := opt_filter (λ _, is_leader s) (leader_revision (sstatus s)).
Definition sync : call unit :=
  let! rev := reads sync_guard in
  match rev with
  | None => Ret (Ok tt)
  | Some rev =>
      let! w := reads written in
      let! (records, revision_) := reads (λ s, (records_of (fed (app s)), revision (fed (app s)))) in
      match diff w records with
      | [] => Ret (Ok tt)
      | ops =>
          let! now := invoke Clock in
          match ser {| meta_revision_ := revision_; meta_by := instance_name sp; meta_at := now |} with
          | None => Ret (Err "meta")
          | Some meta => for_try (λ _, write_chunk rev meta) tt (chunks TXN_OPS ops)
          end
      end
  end.

(** [AppState::persist] with a store (src/api/mod.rs): an error is logged. *)
Definition persist : fleet J unit := invoke PersistFile ;! sync ;! Ret tt.

(** ** Loading *)

(** The keys below the prefix: the records, and [meta] with its revision. *)
Fixpoint sort_kvs (kvs : list Kv) (records : gmap string string) (meta : option (Meta * Z))
    : result (gmap string string * option (Meta * Z)) string :=
  match kvs with
  | [] => Ok (records, meta)
  | kv :: kvs =>
      match strip_prefix (sprefix sp) (kv_key kv) with
      | None => sort_kvs kvs records meta
      | Some k =>
          let? v := from_utf8 (kv_value kv) in
          if k == "leader" then sort_kvs kvs records meta
          else if k == "meta" then
            let? m := de v in sort_kvs kvs records (Some (m, mod_revision kv))
          else sort_kvs kvs (<[k := v]> records) meta
      end
  end.

Definition displaced_volumes (fd : FedState) (records : gmap string string) : list string :=
  List.filter (λ n, negb (is_some (records !! ("volumes/" +:+ n)))) (bt_keys (volumes fd)).
Definition note_displaced (fd : FedState) (records : gmap string string) : fleet J unit :=
  match displaced_volumes fd records with
  | [] => Ret tt
  | vs =>
      let! at_ := invoke Clock in
      let! kept := invoke (KeepCopy (at_ / 10 ^ 9) fd) in
      let d := {| dp_volumes := vs; kept_as := kept; dp_at := at_ |} in
      store_event Error (Displaced_message d) ;!
      update (λ s, s <| displaced := Some d |>)
  end.

Definition loaded_fed (meta : Meta) (records : gmap string string) (fd : FedState) : result FedState string :=
  let? fd := apply_records fd records in Ok (fd <| revision := meta_revision_ meta |>).
Definition load : call bool :=
  let!? kvs := range_prefix (sprefix sp) in
  match sort_kvs kvs ∅ None with
  | Err e => Ret (Err e)
  | Ok (records, None) => Ret (Ok false)
  | Ok (records, Some (meta, meta_rev)) =>
      let! (first, fd) := reads (λ s, (loads (sstatus s) =? 0, fed (app s))%Z) in
      (if first then note_displaced fd records else Ret tt) ;!
      let! r := atomic (λ s, match loaded_fed meta records (fed (app s)) with
        | Ok fd => (s <| app ::= λ a, a <| fed := fd |> |> <| written := records |>, Ok tt)
        | Err e => (s, Err e)
        end) in
      match r with
      | Err e => Ret (Err e)
      | Ok _ =>
          let! now := invoke Clock in
          update (λ s, s <| meta_revision := meta_rev |> <| loads ::= λ n, u64_add n 1 |> <| last_load := Some now |>) ;!
          Ret (Ok true)
      end
  end.

(** ** Publishing the leader's address *)

Definition published (service ip : string) (port : Z) (now : time) (wrote_it : bool) (old : option PublishStatus)
    : PublishStatus :=
  {| ps_service := service; ps_address := Some ip; ps_port := Some port;
     ps_published_at := match wrote_it, old with
                        | false, Some o => opt_or (ps_published_at o) (Some now)
                        | _, _ => Some now
                        end;
     ps_error := None |}.
Definition not_published (service e : string) (old : option PublishStatus) : PublishStatus :=
  {| ps_service := service; ps_address := old ≫= ps_address; ps_port := old ≫= ps_port;
     ps_published_at := old ≫= ps_published_at; ps_error := Some e |}.
(** [kube::keep_endpoints]: whether it wrote. *)
Definition kube_refused (verb at_ : string) (status : Z) (body : string) : result bool string :=
  Err (verb +:+ " " +:+ at_ +:+ ": " +:+ status_show status +:+ " " +:+ trim body +:+ " (token: "
       +:+ kube_token_source sp +:+ ")").
Definition kube_send (verb : string) (m : Method) (at_ : string) (body : J) : fleet J (result bool string) :=
  let!? resp := invoke (KubeHttp m (trim_end_matches slash (kube_server sp) +:+ at_) (Some body)) in
  Ret (if is_success resp.1 then Ok true else kube_refused verb at_ resp.1 resp.2).
Definition keep_endpoints (target : string * string) (ip : string) (port : Z) (leader : string)
    : fleet J (result bool string) :=
  let list := "/api/v1/namespaces/" +:+ target.1 +:+ "/endpoints" in
  let path := list +:+ "/" +:+ target.2 in
  let!? resp := invoke (KubeHttp GET (trim_end_matches slash (kube_server sp) +:+ path) None) in
  if (resp.1 =? 404)%Z then kube_send "POST" POST list (new_endpoints target.1 target.2 ip port leader)
  else if is_success resp.1 then
    match json_parse resp.2 with
    | Err e => Ret (Err e)
    | Ok ep =>
        if endpoints_say ep ip port leader then Ret (Ok false)
        else kube_send "PUT" PUT path (say_endpoints ip port leader ep)
    end
  else Ret (kube_refused "GET" path resp.1 resp.2).

Definition publish_leader : fleet J unit :=
  let! leads_ := reads is_leader in
  match opt_filter (λ _, leads_) (publish_target sp) with
  | None => Ret tt
  | Some (ns, nm) =>
      let service := ns +:+ "/" +:+ nm in
      let! addr := invoke (AdvertiseAddr (advertise_url sp)) in
      let! result := (match addr with
        | Ok (ip, port) =>
            let! r := keep_endpoints (ns, nm) ip port (instance_name sp) in
            Ret (match r with Ok w => Ok (ip, port, w) | Err e => Err e end)
        | Err e => Ret (Err e)
        end) in
      let! old := reads (λ s, publish_ (sstatus s)) in
      let! now := invoke Clock in
      let next := match result with
                  | Ok (ip, port, w) => published service ip port now w old
                  | Err e => not_published service e old
                  end in
      let was_err := old ≫= ps_error in
      update (λ s, s <| publish_ := Some next |>) ;!
      match result with
      | Ok (ip, port, true) =>
          store_event Info (service +:+ ": Endpoints now say " +:+ ip +:+ ":" +:+ pretty port +:+ " ("
                            +:+ instance_name sp +:+ " leads)")
      | Err e =>
          if was_err != Some e then store_event Warning (service +:+ ": could not publish the leader: " +:+ e)
          else Ret tt
      | Ok _ => Ret tt
      end
  end.

(** ** A round *)

Definition me : LeaderInfo := {| li_instance := instance_name sp; li_url := advertise_url sp |}.
(** [serde_json::from_slice(&kv.value).ok()] of the first key. *)
Definition holder_of (kvs : list Kv) : option LeaderInfo :=
  kv ← kvs !! 0%nat;
  match from_utf8 (kv_value kv) with
  | Ok v => match de v with Ok l => Some l | Err _ => None end
  | Err _ => None
  end.
Definition following (holder : option LeaderInfo) (s : StoreStatus) : StoreStatus :=
  s <| role := RFollower |> <| leader := holder |>.
Definition leading (lease created : Z) (now : time) (s : StoreStatus) : StoreStatus :=
  s <| role := RLeader |> <| lease_id := Some (pretty lease) |> <| leader_revision := Some created |>
    <| leader := Some me |> <| last_renewal := Some now |> <| last_error := None |>.

Definition campaign_body (info : string) (lease : Z) : J :=
  of_object [("compare", of_array [guard 0]);
             ("success", of_array [put_op "leader" info (Some lease)]);
             ("failure", of_array [of_object [("request_range",
                of_object [("key", b64_str (store_key "leader"))])]])].
(** [r["responses"][0]["response_range"]]. *)
Definition failed_range (r : J) : option J :=
  (get_array "responses" r ≫= (λ l, l !! 0%nat)) ≫= j_get "response_range".

(** Elected: take the store's state, or import one's own, then act on it. *)
Definition take_office (lease created : Z) : call unit :=
  let! loaded := load in
  match loaded with
  | Err e =>
      lease_revoke lease ;!
      Ret (Err ("loading the store after winning the election: " +:+ e))
  | Ok loaded =>
      let! now := invoke Clock in
      update (leading lease created now) ;!
      store_event Info (instance_name sp +:+ " is the leader ("
        +:+ (if loaded then "loaded the store" else "imported its state into an empty store") +:+ ")") ;!
      (if loaded then Ret tt else writes (λ s, s <| written := ∅ |>)) ;!
      let!? _ := sync in
      invoke PersistFile ;! Ret (Ok tt)
  end.

Definition campaign : call unit :=
  let!? held := range (store_key "leader") in
  match held with
  | _ :: _ => update (following (holder_of held)) ;! Ret (Ok tt)
  | [] =>
      let!? lease := lease_grant (ttl sp) in
      match ser me with
      | None => Ret (Err "leader")
      | Some info =>
          let! r := txn (campaign_body info lease) in
          match r with
          | Err e => lease_revoke lease ;! Ret (Err e)
          | Ok r =>
              if negb (succeeded r) then
                lease_revoke lease ;!
                update (following (match kvs_of (failed_range r) with Ok l => holder_of l | Err _ => None end)) ;!
                Ret (Ok tt)
              else take_office lease (header_revision r)
          end
      end
  end.

Definition follow : call unit :=
  let!? kvs := range (store_key "meta") in
  let meta_rev := map_or 0%Z mod_revision (kvs !! 0%nat) in
  let! known := reads (λ s, meta_revision (sstatus s)) in
  if negb (meta_rev =? 0)%Z && negb (meta_rev =? known)%Z then
    let!? _ := load in
    invoke PersistFile ;! Ret (Ok tt)
  else Ret (Ok tt).

(** [since >= ttl * 2 / 3] seconds. *)
Definition renewal_overdue (st : StoreStatus) (now : time) : bool :=
  (secs (((ttl sp * 2) mod 2 ^ 64) / 3) <=? map_or 0 (λ t, Z.max (now - t) 0) (last_renewal st))%Z.
Definition renew (st : StoreStatus) : call unit :=
  let id := unwrap_or 0%Z (lease_id st ≫= parse_i64) in
  let! r := lease_keepalive id in
  match r with
  | Ok left_ =>
      (if (0 <? left_)%Z then
         let! now := invoke Clock in update (λ s, s <| last_renewal := Some now |>)
       else step_down "its lease expired") ;!
      Ret (Ok tt)
  | Err e =>
      let! now := invoke Clock in
      (if renewal_overdue st now then
         step_down ("could not renew its lease for "
           +:+ pretty (map_or 0 (λ t, Z.max (now - t) 0) (last_renewal st) / 10 ^ 9)%Z +:+ "s: " +:+ e)
       else Ret tt) ;!
      Ret (Err e)
  end.
Definition try_step : call unit :=
  let! st := reads sstatus in
  if role st == RLeader then renew st
  else
    let!? _ := campaign in
    let! leads_ := reads is_leader in
    if negb leads_ then follow else Ret (Ok tt).

(** One round ([run] repeats it every third of the lease). *)
Definition store_step : fleet J unit :=
  let! r := try_step in
  (match r with
   | Err e => update (λ s, s <| last_error := Some e |>)
   | Ok _ => Ret tt
   end) ;!
  publish_leader.
End store.

(** ** Where a request is answered *)

Inductive Forwarding :=
  | Here
  | Unavailable (code : string)
  | ToLeader (url : string).
(** [forward_writes]: reads, other paths and a leader's requests are
    answered here; a request travels at most once. *)
Definition forward_writes (s : option Fleet) (read_method : bool) (path : string) (forwarded : bool) : Forwarding :=
  match s with
  | None => Here
  | Some s =>
      if read_method || negb (starts_with "/api/" path) || is_leader s then Here
      else if forwarded then Unavailable "not_leader"
      else match leader_url s with
           | None => Unavailable "no_leader"
           | Some l => ToLeader (l +:+ path)
           end
  end.

Local Close Scope string_scope.
