(* ===== verification/Leadership.v ===== *)
(** * Leading the fleet (src/store.rs, the theorems)

    Shown of the programs of [Store]: however the leader's round and the
    writes of the handlers interleave, an instance that acts as the leader
    was granted a lease and created the leader key under it, and its record
    has that lease and revision; nothing is ever asked of the store but reads, lease calls, and transactions guarded by
    the leader key; and, against etcd's transactions, a write leaves in the
    store what memory holds, a refused one makes the instance step down, and
    a deposed leader changes nothing. *)

From S2P Require Import Prelude F64 Config Model Events Refusal Async Traced Json Inventory Sync App Engine Replicate Base64 Records Store.
From stdpp Require Import options.

Section leadership.
Context {J : Type} `{Json J} `{HttpShow}.
Context (json_parse : string → result J string).
Context `{Serde DistVolume} `{Serde Snapshot} `{Serde GroupSnapshot} `{Serde Backup} `{Serde VmMigration}.
Context `{Serde NodeConfig} `{Serde (list Orphan)} `{Serde (list StaleHead)} `{Serde LeaderInfo} `{Serde Meta}.
Context (sp : StoreParams).

(** ** The record of the leadership *)

(** A request to the store that an endpoint answered, in the history. *)
Definition answered (path : string) (body v : J) (h : list (exchange (StoreCall J))) : Prop :=
  ∃ ep status text, ep ∈ endpoints sp
    ∧ Exchange (Post (ep +:+ path)%string body) (Ok (status, text)) ∈ h
    ∧ etcd_answer json_parse (ep +:+ path)%string text status = Ok v.
Definition granted (lease : Z) (h : list (exchange (StoreCall J))) : Prop :=
  ∃ v, answered "/v3/lease/grant"%string (of_object [("TTL", of_str (pretty (ttl sp)))])%string v h
    ∧ num (j_get "ID"%string v) = lease ∧ lease ≠ 0%Z.
(** The request that makes a leader, spelt out: if the leader key does not
    exist (create revision 0), put [info] there under the lease. *)
Definition claim_leader_key (info : string) (lease : Z) : J :=
  let key := of_str (b64 (as_bytes (sprefix sp +:+ "leader")%string)) in
  of_object
    [("compare", of_array
       [of_object [("key", key); ("target", of_str "CREATE"); ("result", of_str "EQUAL");
                   ("create_revision", of_str (pretty 0%Z))]]);
     ("success", of_array
       [of_object [("request_put", of_object
         [("key", key); ("value", of_str (b64 (as_bytes info))); ("lease", of_str (pretty lease))])]]);
     ("failure", of_array [of_object [("request_range", of_object [("key", key)])]])]%string.
(** The store granted [lease], and then created the leader key for this
    instance under it, at the revision [created]. *)
Definition elected (lease created : Z) (h : list (exchange (StoreCall J))) : Prop :=
  granted lease h
  ∧ ∃ info v, ser (me sp) = Some info ∧ answered "/v3/kv/txn"%string (claim_leader_key info lease) v h
    ∧ get_bool "succeeded"%string v = Some true
    ∧ num (j_get "header"%string v ≫= j_get "revision"%string) = created.
Definition led_wf (s : Fleet) (h : list (exchange (StoreCall J))) : Prop :=
  is_leader s = true →
  ∃ lease created, elected lease created h ∧ lease_id (sstatus s) = Some (pretty lease)
    ∧ leader_revision (sstatus s) = Some created ∧ leader (sstatus s) = Some (me sp).
Definition keeps_led (s s' : Fleet) : Prop := ∀ h, led_wf s h → led_wf s' h.

Lemma answered_later path body v h h' : h ⊆ h' → answered path body v h → answered path body v h'.
Proof. intros Hh (ep & status & text & Hep & Hin & Ha). exists ep, status, text. auto. Qed.
Lemma granted_later lease h h' : h ⊆ h' → granted lease h → granted lease h'.
Proof. intros Hh (v & Ha & Hv). exists v. eauto using answered_later. Qed.
Lemma elected_later lease created h h' : h ⊆ h' → elected lease created h → elected lease created h'.
Proof.
  intros Hh [Hg (info & v & Hi & Ha & Hv)]. split; [by eapply granted_later|].
  exists info, v. eauto using answered_later.
Qed.
Lemma led_wf_later s h h' : h ⊆ h' → led_wf s h → led_wf s h'.
Proof.
  intros Hh Hs Hl. destruct (Hs Hl) as (lease & created & He & Hr). exists lease, created.
  split; [by eapply elected_later|done].
Qed.

Lemma keeps_led_refl s : keeps_led s s.
Proof. by intros ? ?. Qed.

(** A change of the status that does not make a leader. *)
Lemma update_keeps_led f :
  (∀ st, role (f st) = RLeader →
     role st = RLeader ∧ lease_id (f st) = lease_id st ∧ leader_revision (f st) = leader_revision st
     ∧ leader (f st) = leader st) →
  ∀ s, keeps_led s (update_status f s).
Proof.
  intros Hf s h Hs. unfold led_wf, update_status, is_leader in *. simpl.
  intros Hr%eqb_prop. destruct (Hf _ Hr) as (Hr0 & -> & -> & ->). apply Hs. by apply eqb_true.
Qed.

(** A change of anything else. *)
Lemma other_keeps_led s s' : sstatus s' = sstatus s → keeps_led s s'.
Proof. intros E1 h Hs. unfold led_wf, is_leader. by rewrite E1. Qed.

Ltac led := first
  [ apply keeps_led_refl
  | solve [by apply update_keeps_led]
  | solve [by apply other_keeps_led] ].

Lemma etcd_loop_led path body idxs errors : guar keeps_led (etcd_loop json_parse sp path body idxs errors).
Proof.
  revert errors. induction idxs as [|idx idxs IH]; intros errors; cbn [etcd_loop]; [done|].
  apply guar_bind; [apply guar_invoke|]. intros [[status text]|e]; [|apply IH].
  destruct (status =? 503)%Z; [apply IH|]. repeat guar_step; led.
Qed.
Lemma etcd_call_led path body : guar keeps_led (etcd_call json_parse sp path body).
Proof. unfold etcd_call. repeat guar_step; [led|apply etcd_loop_led]. Qed.
#[local] Hint Resolve etcd_call_led : guar.
Lemma store_event_led sev msg : guar keeps_led (store_event (J:=J) sev msg).
Proof. unfold store_event. repeat guar_step. led. Qed.
#[local] Hint Resolve store_event_led : guar.
Lemma step_down_led why : guar keeps_led (step_down (J:=J) sp why).
Proof.
  unfold step_down. guar_auto. apply update_keeps_led. done.
Qed.
#[local] Hint Resolve step_down_led : guar.
Lemma range_led key : guar keeps_led (range json_parse sp key).
Proof. unfold range. guar_auto. Qed.
Lemma range_prefix_led prefix : guar keeps_led (range_prefix json_parse sp prefix).
Proof. unfold range_prefix. guar_auto. Qed.
Lemma txn_led body : guar keeps_led (txn json_parse sp body).
Proof. apply etcd_call_led. Qed.
Lemma lease_grant_led t : guar keeps_led (lease_grant json_parse sp t).
Proof. unfold lease_grant. guar_auto. Qed.
Lemma lease_keepalive_led id : guar keeps_led (lease_keepalive json_parse sp id).
Proof. unfold lease_keepalive. guar_auto. Qed.
Lemma lease_revoke_led id : guar keeps_led (lease_revoke json_parse sp id).
Proof. unfold lease_revoke. guar_auto. Qed.
#[local] Hint Resolve range_led range_prefix_led txn_led lease_grant_led lease_keepalive_led lease_revoke_led : guar.

Lemma write_chunk_led rev meta chunk : guar keeps_led (write_chunk json_parse sp rev meta chunk).
Proof. unfold write_chunk, update. guar_auto; led. Qed.
#[local] Hint Resolve write_chunk_led : guar.
Lemma sync_led : guar keeps_led (sync json_parse sp).
Proof. unfold sync. guar_auto; led. Qed.
#[local] Hint Resolve sync_led : guar.
Lemma note_displaced_led fd records : guar keeps_led (note_displaced (J:=J) fd records).
Proof. unfold note_displaced, update. guar_auto; led. Qed.
#[local] Hint Resolve note_displaced_led : guar.
Lemma load_led : guar keeps_led (load json_parse sp).
Proof.
  unfold load, update. guar_auto; try led. destruct (loaded_fed _ _ _); led.
Qed.
#[local] Hint Resolve load_led : guar.
Lemma publish_leader_led : guar keeps_led (publish_leader json_parse sp).
Proof. unfold publish_leader, keep_endpoints, kube_send, update. guar_auto; led. Qed.
#[local] Hint Resolve publish_leader_led : guar.
Lemma persist_led : guar keeps_led (persist json_parse sp).
Proof. unfold persist. guar_auto. Qed.
Lemma renew_led st : guar keeps_led (renew json_parse sp st).
Proof. unfold renew, update. guar_auto; led. Qed.
Lemma follow_led : guar keeps_led (follow json_parse sp).
Proof. unfold follow. guar_auto; led. Qed.

(** ** Elections *)

Abbreviation holds p Q h := (twp led_wf p Q h).

Lemma etcd_loop_holds path body idxs errors h :
  Forall (λ i, (i < length (endpoints sp))%nat) idxs →
  holds (etcd_loop json_parse sp path body idxs errors) (λ r h', ∀ v, r = Ok v → answered path body v h') h.
Proof.
  intros Hidx. revert errors h. induction Hidx as [|idx idxs Hi _ IH]; intros errors h; cbn [etcd_loop].
  { apply twp_ret. discriminate. }
  destruct (lookup_lt_is_Some_2 _ _ Hi) as [ep Hep]. rewrite Hep. cbn [unwrap_or].
  apply twp_bind, twp_invoke. intros [[status text]|e] h1 _ Hin; [|apply IH].
  destruct (status =? 503)%Z; [apply IH|].
  apply twp_skip; [repeat guar_step; led|]. intros [] h2 Hh2. apply twp_ret. intros h3 Hh3 v Hv.
  exists ep, status, text. split; [by eapply list_elem_of_lookup_2|]. auto.
Qed.
Lemma etcd_call_holds path body h :
  holds (etcd_call json_parse sp path body) (λ r h', ∀ v, r = Ok v → answered path body v h') h.
Proof.
  unfold etcd_call. apply twp_skip; [repeat guar_step; led|]. intros start h1 _. apply etcd_loop_holds.
  apply Forall_map, Forall_forall. intros i Hi%elem_of_seq. simpl. apply Nat.mod_upper_bound. lia.
Qed.
Lemma lease_grant_holds h :
  holds (lease_grant json_parse sp (ttl sp)) (λ r h', ∀ id, r = Ok id → granted id h') h.
Proof.
  unfold lease_grant. apply twp_bind. eapply twp_mono; [|apply etcd_call_holds].
  intros [v|e] h1 Hh1 Ha; [|by apply twp_ret]. apply twp_ret. intros h2 Hh2 id. cbv zeta.
  destruct (Z.eqb_spec (num (j_get "ID"%string v)) 0) as [|Hne]; [discriminate|].
  intros [= <-]. exists v. split; [|done]. eapply answered_later; [exact Hh2|]. by apply Ha.
Qed.

Lemma leading_led lease created now s h : elected lease created h → led_wf (update_status (leading sp lease created now) s) h.
Proof. intros He _. by exists lease, created. Qed.

Lemma take_office_holds lease created h :
  elected lease created h → holds (take_office json_parse sp lease created) (λ _ _, True) h.
Proof.
  intros He. unfold take_office, update. apply twp_skip; [apply load_led|].
  intros [loaded|e] h1 Hh1; [|apply twp_guar; guar_auto; led].
  apply twp_skip; [apply guar_invoke|]. intros now h2 Hh2. apply twp_bind, twp_writes.
  - intros s h3 Hh3 _. apply leading_led. eapply elected_later; [|exact He]. by transitivity h2; [transitivity h1|].
  - intros h3 _. apply twp_guar. guar_auto; led.
Qed.
Lemma campaign_holds h : holds (campaign json_parse sp) (λ _ _, True) h.
Proof.
  unfold campaign, update. apply twp_skip; [apply range_led|].
  intros [[|kv kvs]|e] h1 _; [|apply twp_guar; guar_auto; led|by apply twp_ret].
  apply twp_bind. eapply twp_mono; [|apply lease_grant_holds].
  intros [lease|e] h2 _ Hg; [|by apply twp_ret]. specialize (Hg lease eq_refl).
  destruct (ser (me sp)) as [info|] eqn:Hi; [|by apply twp_ret].
  apply twp_bind. eapply twp_mono; [|apply etcd_call_holds].
  intros [r|e] h3 Hh3 Ha; [|apply twp_guar; guar_auto; led].
  destruct (succeeded r) eqn:Hs; simpl negb; cbn iota; [|apply twp_guar; guar_auto; try led].
  apply take_office_holds. split; [by eapply granted_later|]. exists info, r. split; [done|].
  split; [by apply Ha|]. split; [|done].
  unfold succeeded in Hs. by destruct (get_bool "succeeded"%string r) as [[]|].
Qed.
Lemma try_step_holds h : holds (try_step json_parse sp) (λ _ _, True) h.
Proof.
  unfold try_step. apply twp_skip; [repeat guar_step; led|]. intros st h1 _. cbv zeta.
  destruct (role st == RLeader); [apply twp_guar, renew_led|].
  apply twp_bind. eapply twp_mono; [|apply campaign_holds]. intros [[]|e] h2 _ _; [|by apply twp_ret].
  apply twp_guar. guar_auto; try led. apply follow_led.
Qed.
Lemma store_step_holds h : holds (store_step json_parse sp) (λ _ _, True) h.
Proof.
  unfold store_step, update. apply twp_bind. eapply twp_mono; [|apply try_step_holds].
  intros r h1 _ _. apply twp_guar. guar_auto; led.
Qed.

(** C7: Who acts as the leader was elected. However the rounds of the
    election, the writes after changes and the loads interleave, and whatever
    the store, the clock and the apiserver answer: when the service acts on
    durable intent ([AppState::leads]), the store did grant a lease of the
    configured time, and did answer that it created the leader key, which did
    not exist, with this instance's name and address and under that very
    lease; and the record says so: that lease, the revision of that answer,
    by which every write is guarded, and this instance as the leader. *)
Theorem leadership_wf s ps s' h' ps'
  (Htasks : Forall (λ p, p = store_step json_parse sp ∨ p = persist json_parse sp) ps)
  (Hs : leads (served s) = false) (Hsteps : traced_steps (s, [], ps) (s', h', ps'))
  (Hleads : leads (served s') = true) :
  ∃ lease created, elected lease created h'
    ∧ lease_id (sstatus s') = Some (pretty lease) ∧ leader_revision (sstatus s') = Some created
    ∧ leader (sstatus s') = Some (MkLeaderInfo (instance_name sp) (advertise_url sp)).
Proof.
  refine (traced_invariant led_wf s [] ps (s', h', ps') _ Hsteps _ _ Hleads).
  - intros s0 h x. apply led_wf_later. set_solver.
  - eapply Forall_impl; [exact Htasks|].
    intros p [->| ->]; [apply store_step_holds|apply twp_guar, persist_led].
  - intros Hl. unfold leads, served in Hs. simpl in Hs. congruence.
Qed.

(** ** Writes against etcd *)

Section etcd.
(** etcd as documented: the keys and their text values, and the leader keys
    of the past, known by the revision they were created at. *)
Context {W : Type} (env : ∀ R, StoreCall J R → W → R * W).
Context (keys : W → gmap string string) (past : W → Z → Prop).

Definition full_op (o : Op) : Op :=
  match o with Put k v => Put (store_key sp k) v | Delete k => Delete (store_key sp k) end.
(** What a write's transaction does to the keys. *)
Definition after_txn (chunk : list Op) (meta : string) (m : gmap string string) : gmap string string :=
  apply_ops m (map full_op chunk ++ [Put (store_key sp "meta") meta]).

(** A transaction is applied whole or not at all, and not under a leader key
    that is gone; its answer says so when it arrives. *)
Context (Htxn : ∀ ep rev chunk meta w,
  let url := (ep +:+ "/v3/kv/txn")%string in
  let '(r, w') := env _ (Post url (txn_body sp rev chunk meta)) w in
  (keys w' = keys w ∨ (¬ past w rev ∧ keys w' = after_txn chunk meta (keys w)))
  ∧ ∀ status text v, r = Ok (status, text) → is_success status = true →
      etcd_answer json_parse url text status = Ok v → succeeded v = true →
      ¬ past w rev ∧ keys w' = after_txn chunk meta (keys w)).
(** The clock changes no key, and a leader key that is gone stays gone. *)
Context (Hclock : ∀ w, keys (env _ Clock w).2 = keys w).
Context (Hpast : ∀ R (c : StoreCall J R) w rev, past w rev → past (env R c w).2 rev).

(** The keys of the records, [meta] and [leader] apart, are the records. *)
Definition is_record (k : string) : Prop := k ≠ "meta"%string ∧ k ≠ "leader"%string.
Definition agrees (m : gmap string string) (records : gmap string string) : Prop :=
  ∀ k, is_record k → m !! store_key sp k = records !! k.

Lemma store_key_inj k k' : store_key sp k = store_key sp k' → k = k'.
Proof. unfold store_key. apply (inj (String.app _)). Qed.

Lemma agrees_txn chunk meta m records :
  agrees m records → agrees (after_txn chunk meta m) (apply_ops records chunk).
Proof.
  intros Ha k [Hm Hl]. unfold after_txn, apply_ops. rewrite foldl_app. simpl.
  rewrite lookup_insert_ne by (intros E%store_key_inj; done).
  assert (∀ m records, m !! store_key sp k = records !! k →
    foldl apply_op m (map full_op chunk) !! store_key sp k = foldl apply_op records chunk !! k) as Hf; [|by apply Hf, Ha].
  clear Ha m records. induction chunk as [|o chunk IH]; intros m records E; [done|]. simpl. apply IH.
  destruct o as [k' v|k']; simpl.
  - destruct (decide (k' = k)) as [->|Hne]; [by rewrite !lookup_insert_eq|].
    rewrite !lookup_insert_ne; [done|done|by intros ?%store_key_inj].
  - destruct (decide (k' = k)) as [->|Hne]; [by rewrite !lookup_delete_eq|].
    rewrite !lookup_delete_ne; [done|done|by intros ?%store_key_inj].
Qed.

(** What trying the endpoints one after another leaves. *)
Definition same_memory (s s' : Fleet) : Prop :=
  app s' = app s ∧ sstatus s' = sstatus s ∧ written s' = written s.

Lemma txn_runs rev chunk meta s w :
  runs env (txn json_parse sp (txn_body sp rev chunk meta)) (λ r s' w',
    same_memory s s' ∧ (∀ rev, past w rev → past w' rev)
    ∧ (keys w' = keys w ∨ (¬ past w rev ∧ keys w' = after_txn chunk meta (keys w)))
    ∧ ∀ v, r = Ok v → succeeded v = true → ¬ past w rev ∧ keys w' = after_txn chunk meta (keys w)) s w.
Proof using Htxn Hpast.
  unfold txn, etcd_call. apply runs_bind, runs_reads.
  generalize (map (λ i, (good s + i) mod length (endpoints sp)) (List.seq 0 (length (endpoints sp)))) as idxs.
  generalize (@nil string) as errors. intros errors idxs.
  assert (∀ idxs errors s1 w1, same_memory s s1 → (∀ rev, past w rev → past w1 rev) →
    (keys w1 = keys w ∨ (¬ past w rev ∧ keys w1 = after_txn chunk meta (keys w))) →
    runs env (etcd_loop json_parse sp "/v3/kv/txn" (txn_body sp rev chunk meta) idxs errors) (λ r s' w',
      same_memory s s' ∧ (∀ rev, past w rev → past w' rev)
      ∧ (keys w' = keys w ∨ (¬ past w rev ∧ keys w' = after_txn chunk meta (keys w)))
      ∧ ∀ v, r = Ok v → succeeded v = true → ¬ past w rev ∧ keys w' = after_txn chunk meta (keys w)) s1 w1) as Hloop;
    [|by apply Hloop; [|auto|left]].
  clear idxs errors. induction idxs as [|idx idxs IH]; intros errors s1 w1 Hs1 Hp1 Hk1; cbn [etcd_loop].
  { apply runs_ret. done. }
  apply runs_bind, runs_invoke. cbv zeta.
  specialize (Htxn (unwrap_or "" (endpoints sp !! idx))%string rev chunk meta w1) as Ht.
  pose proof (λ r H, Hpast _ (Post (unwrap_or "" (endpoints sp !! idx) +:+ "/v3/kv/txn")%string
    (txn_body sp rev chunk meta)) w1 r (Hp1 r H)) as Hp2.
  simpl in Ht. destruct (env _ (Post _ _) w1) as [r w2]. simpl fst. simpl snd in *. destruct Ht as [Hk2 Hok].
  assert (keys w2 = keys w ∨ (¬ past w rev ∧ keys w2 = after_txn chunk meta (keys w))) as Hk.
  { destruct Hk2 as [->|[Hn ->]]; [done|]. right. split; [auto|].
    destruct Hk1 as [->|[_ ->]]; [done|]. apply apply_ops_idem. }
  destruct r as [[status text]|e]; [|by apply IH]. destruct (status =? 503)%Z; [by apply IH|].
  destruct (is_success status) eqn:Es.
  - apply runs_bind, runs_writes, runs_ret. split; [exact Hs1|]. split; [done|]. split; [done|].
    intros v Hv Hsucc. destruct (Hok status text v eq_refl Es Hv Hsucc) as [Hn ->]. split; [auto|].
    destruct Hk1 as [->|[_ ->]]; [done|]. apply apply_ops_idem.
  - apply runs_bind, runs_ret, runs_ret. split; [done|]. split; [done|]. split; [done|].
    intros v Hv. unfold etcd_answer in Hv. rewrite Es in Hv. discriminate Hv.
Qed.

Lemma step_down_runs why s w :
  runs env (step_down (J:=J) sp why) (λ _ s' w',
    fed (app s') = fed (app s) ∧ written s' = written s ∧ sync_guard s' = None ∧ keys w' = keys w) s w.
Proof using Hclock.
  unfold step_down. apply runs_bind, runs_atomic. simpl. destruct (is_leader s); [|by apply runs_ret].
  unfold store_event. apply runs_bind, runs_invoke, runs_writes. simpl. by rewrite Hclock.
Qed.

Lemma write_chunk_runs rev meta chunk s w :
  sync_guard s = Some rev → agrees (keys w) (written s) →
  runs env (write_chunk json_parse sp rev meta chunk) (λ r s' w',
    fed (app s') = fed (app s)
    ∧ match r with
      | Ok _ => ¬ past w rev ∧ sync_guard s' = Some rev ∧ written s' = apply_ops (written s) chunk
                ∧ agrees (keys w') (written s')
      | Err _ => written s' = written s ∧ (sync_guard s' = Some rev ∨ sync_guard s' = None)
                 ∧ (keys w' = keys w ∨ (¬ past w rev ∧ keys w' = after_txn chunk meta (keys w)))
      end) s w.
Proof using Hclock Htxn Hpast.
  intros Hg Ha. unfold write_chunk. apply runs_bind. eapply runs_mono; [apply txn_runs|].
  intros [v|e] s1 w1 ((Happ & Hst & Hw) & _ & Hk & Hok).
  - destruct (succeeded v) eqn:Hs; simpl negb; cbn iota.
    + destruct (Hok v eq_refl Hs) as [Hn Hkw]. apply runs_bind, runs_writes, runs_bind, runs_invoke.
      unfold update. apply runs_bind, runs_writes, runs_ret. simpl. rewrite Happ, Hw, Hclock.
      split; [done|]. split; [done|]. split; [|split; [done|]].
      * unfold sync_guard, is_leader in *. simpl. by rewrite Hst.
      * rewrite Hkw. by apply agrees_txn.
    + apply runs_bind. eapply runs_mono; [apply step_down_runs|].
      intros [] s2 w2 (Hf2 & Hw2 & Hg2 & Hk2). apply runs_ret. rewrite Hf2, Happ, Hw2, Hk2. eauto 6.
  - unfold update. apply runs_bind, runs_writes, runs_ret. simpl. rewrite Happ, Hw. split; [done|]. split; [done|].
    split; [left|done]. unfold sync_guard, is_leader in *. simpl. by rewrite Hst.
Qed.

(** The rounds of a write: what is done, what is left. *)
Definition sync_round (s0 : Fleet) (w0 : W) (rev : Z) (ops : list Op) (l : list (list Op)) (s : Fleet) (w : W) : Prop :=
  ∃ done_, ops = done_ ++ concat l ∧ written s = apply_ops (written s0) done_ ∧ agrees (keys w) (written s)
    ∧ fed (app s) = fed (app s0) ∧ sync_guard s = Some rev
    ∧ (past w0 rev → past w rev ∧ keys w = keys w0 ∧ written s = written s0).

(** Where a write that failed leaves memory and the store. *)
Definition sync_failed (s0 : Fleet) (w0 : W) (rev : Z) (recs : gmap string string) (s : Fleet) (w : W) : Prop :=
  fed (app s) = fed (app s0) ∧ (sync_guard s = Some rev ∨ sync_guard s = None)
  ∧ (∀ k, is_record k → keys w !! store_key sp k = written s0 !! k ∨ keys w !! store_key sp k = recs !! k)
  ∧ (past w0 rev → keys w = keys w0 ∧ written s = written s0).

Lemma sync_round_runs s0 w0 rev meta recs chunk l s w :
  let ops := diff (written s0) recs in
  sync_round s0 w0 rev ops (chunk :: l) s w →
  runs env (write_chunk json_parse sp rev meta chunk) (λ r s' w', match r with
    | Ok _ => sync_round s0 w0 rev ops l s' w'
    | Err _ => sync_failed s0 w0 rev recs s' w'
    end) s w.
Proof using Hclock Htxn Hpast.
  intros ops (done_ & Hops & Hw & Ha & Hf & Hg & Hp). simpl in Hops.
  assert (∀ d r, ops = d ++ r → ∀ k, apply_ops (written s0) d !! k = written s0 !! k
            ∨ apply_ops (written s0) d !! k = recs !! k) as Hcut.
  { intros d r E k. pose proof (diff_take (written s0) recs (length d) k) as Ht. fold ops in Ht.
    by rewrite E, take_app_length in Ht. }
  eapply runs_mono; [by apply write_chunk_runs|]. intros [[]|e] s1 w1 [Hf1 Hres].
  - destruct Hres as (Hn & Hg1 & Hw1 & Ha1). exists (done_ ++ chunk).
    split; [by rewrite <-app_assoc|]. split; [by rewrite Hw1, Hw, apply_ops_app|].
    split; [done|]. split; [by rewrite Hf1|]. split; [done|]. intros Hpw. by destruct (Hp Hpw).
  - destruct Hres as (Hw1 & Hg1 & Hk). unfold sync_failed. split; [by rewrite Hf1|]. split; [done|]. split.
    + intros k Hr. destruct Hk as [->|[_ ->]].
      * rewrite (Ha k Hr), Hw. by eapply Hcut.
      * rewrite (agrees_txn chunk meta _ _ Ha k Hr), Hw, <-apply_ops_app.
        eapply (Hcut (done_ ++ chunk) (concat l)). by rewrite <-app_assoc.
    + intros Hpw. destruct (Hp Hpw) as (Hp1 & Hk1 & Hw2). rewrite Hw1, <-Hk1. split; [|done].
      by destruct Hk as [?|[? _]].
Qed.

(** What a write leaves, by its outcome. *)
Definition sync_post (s0 : Fleet) (w0 : W) (r : result unit string) (s : Fleet) (w : W) : Prop :=
  let recs := records_of (fed (app s0)) in
  fed (app s) = fed (app s0)
  ∧ match r with
    | Ok _ => (sync_guard s0 = None ∧ s = s0 ∧ w = w0)
              ∨ (sync_guard s = sync_guard s0 ∧ written s = recs ∧ agrees (keys w) recs)
    | Err _ => (sync_guard s = sync_guard s0 ∨ sync_guard s = None)
               ∧ ∀ k, is_record k → keys w !! store_key sp k = written s0 !! k ∨ keys w !! store_key sp k = recs !! k
    end
  ∧ ∀ rev, sync_guard s0 = Some rev → past w0 rev → keys w = keys w0 ∧ written s = written s0.

Lemma sync_runs s w : agrees (keys w) (written s) → runs env (sync json_parse sp) (sync_post s w) s w.
Proof using Hclock Htxn Hpast.
  intros Ha. set (recs := records_of (fed (app s))). unfold sync. apply runs_bind, runs_reads.
  destruct (sync_guard s) as [rev|] eqn:Hg; [|apply runs_ret; split; [done|]; split; [by left|done]].
  apply runs_bind, runs_reads, runs_bind, runs_reads. fold recs. unfold sync_post. fold recs. rewrite Hg.
  destruct (diff (written s) recs) as [|o ops] eqn:Hd.
  { apply runs_ret. apply diff_nil in Hd. rewrite <-Hd. split; [done|]. split; [right; done|done]. }
  rewrite <-Hd. apply runs_bind, runs_invoke.
  set (w1 := (env _ Clock w).2).
  assert (keys w1 = keys w) as Hk1 by apply Hclock.
  assert (∀ r, past w r → past w1 r) as Hp1 by (intros r; apply Hpast).
  destruct (ser _) as [meta|]; [|apply runs_ret; rewrite Hk1; split; [done|]; split; [|done];
    split; [by left|intros k Hr; left; by apply Ha]].
  apply (runs_for_try env _ _ (λ l _ s' w', sync_round s w rev (diff (written s) recs) l s' w')).
  - intros chunk l [] s1 w2 HI. eapply runs_mono; [by apply (sync_round_runs s w rev meta recs)|].
    intros [[]|e] s2 w3; [done|]. intros (Hf & Hg' & Hk & Hp). split; [done|]. split; [done|].
    intros r [= <-]. done.
  - intros [] s1 w2 (done_ & Hops & Hw & Ha1 & Hf & Hg1 & Hp). simpl in Hops. rewrite app_nil_r in Hops. subst done_.
    rewrite diff_all in Hw. split; [done|]. split; [right; rewrite <-Hw; done|].
    intros r [= <-] Hpw. by destruct (Hp Hpw).
  - exists []. rewrite chunks_concat by (unfold TXN_OPS; lia). rewrite Hk1. repeat split; try done; auto.
Qed.

End etcd.

(** ** Following *)

#[global] Instance same_memory_refl : Reflexive same_memory.
Proof. done. Qed.
#[global] Instance same_memory_trans : Transitive same_memory.
Proof. intros s1 s2 s3 (?&?&?) (?&?&?). repeat split; congruence. Qed.

Lemma range_prefix_memory prefix : guar same_memory (range_prefix json_parse sp prefix).
Proof.
  unfold range_prefix, etcd_call. guar_step; [|guar_step]. apply guar_bind; [by guar_step|]. intros start.
  generalize (@nil string) as errors. generalize (map (λ i, (start + i) mod length (endpoints sp)) (List.seq 0 (length (endpoints sp)))) as idxs.
  induction idxs as [|idx idxs IH]; intros errors; cbn [etcd_loop]; [done|].
  apply guar_bind; [apply guar_invoke|]. intros [[status text]|e]; [|apply IH].
  destruct (status =? 503)%Z; [apply IH|]. by repeat guar_step.
Qed.

(** A key of the store with its text and the revision it was last written
    at, as a range returns it. *)
Definition kv_item (item : string * string * Z) : Kv :=
  let '(k, v, r) := item in {| kv_key := store_key sp k; kv_value := as_bytes v; create_revision := 0; mod_revision := r |}.

Lemma strip_prefix_app p s : strip_prefix p (p +:+ s) = Some s.
Proof. induction p as [|c p IH]; simpl; [done|]. by rewrite Ascii.eqb_refl. Qed.

Lemma sort_kvs_items items acc m0 meta m rev :
  (∀ k v r, (k, v, r) ∈ items → valid_utf8 (as_bytes v) = true) →
  (∀ v r, ("meta"%string, v, r) ∈ items → v = m ∧ r = rev) → de m = Ok meta →
  (m0 = Some (meta, rev) ∨ ∃ v r, ("meta"%string, v, r) ∈ items) →
  sort_kvs sp (map kv_item items) acc m0 =
    Ok (foldl (λ a '(k, v), <[k := v]> a) acc
          (omap (λ '(k, v, _), if bool_decide (is_record k) then Some (k, v) else None) items), Some (meta, rev)).
Proof.
  intros Hu Hm Hde. revert acc m0. induction items as [|[[k v] r] items IH]; intros acc m0 Hor; cbn [map sort_kvs].
  { destruct Hor as [->|(? & ? & ?%not_elem_of_nil)]; done. }
  cbn [kv_key kv_value kv_item mod_revision]. unfold store_key. rewrite strip_prefix_app.
  unfold from_utf8. rewrite (Hu k v r) by left. rewrite of_as_bytes. cbn [result_bind omap list_omap].
  assert (∀ k v r, (k, v, r) ∈ items → valid_utf8 (as_bytes v) = true) as Hu' by (intros; eapply Hu; by right).
  assert (∀ v r, ("meta"%string, v, r) ∈ items → v = m ∧ r = rev) as Hm' by (intros; apply Hm; by right).
  specialize (IH Hu' Hm').
  assert (k ≠ "meta"%string → m0 = Some (meta, rev) ∨ ∃ v r, ("meta"%string, v, r) ∈ items) as Hor'.
  { intros Hk. destruct Hor as [?|(v' & r' & [[= E _ _]|?]%elem_of_cons)]; [by left|congruence|eauto]. }
  destruct (k == "leader"%string) eqn:El.
  { apply eqb_prop in El as ->. rewrite bool_decide_false by (by intros [_ Hn]; apply Hn). apply IH. by apply Hor'. }
  destruct (k == "meta"%string) eqn:Em.
  { apply eqb_prop in Em as ->. destruct (Hm v r) as [-> ->]; [by left|]. rewrite Hde. cbn [result_bind].
    rewrite bool_decide_false by (by intros [Hn _]; apply Hn). apply IH. by left. }
  apply eqb_nprop in El, Em. rewrite bool_decide_true by done. cbn [foldl]. apply IH. by apply Hor'.
Qed.

(** A follower's load. When the store holds the records of the leader's
    federation and [meta], a follower that reads them, in whatever order they
    come, takes over the leader's durable records and the revision of
    [meta], remembers them as what the store holds, and keeps its role; its
    own nodes stay. *)
Theorem load_follows {W : Type} (env : ∀ R, StoreCall J R → W → R * W) s w src items m meta rev
  (Hlist : run_value env (range_prefix json_parse sp (sprefix sp)) s w = Ok (map kv_item items))
  (Hutf8 : ∀ k v r, (k, v, r) ∈ items → valid_utf8 (as_bytes v) = true)
  (Hrecs : ∀ k v, (∃ r, (k, v, r) ∈ items ∧ is_record k) ↔ records_of src !! k = Some v)
  (Hmeta : ∀ v r, ("meta"%string, v, r) ∈ items ↔ v = m ∧ r = rev) (Hde : de m = Ok meta)
  (Hwf : ∀ k n, nodes src !! k = Some n → nc_name (config n) = k)
  (Hjson : ∀ e, entry_of src e → entry_survives e) :
  let s' := run_state env (load json_parse sp) s w in
  run_value env (load json_parse sp) s w = Ok true
  ∧ durable (fed (app s')) = durable src ∧ revision (fed (app s')) = meta_revision_ meta
  ∧ written s' = records_of src ∧ meta_revision (sstatus s') = rev ∧ role (sstatus s') = role (sstatus s)
  ∧ ∀ k n, nodes (fed (app s)) !! k = Some n → is_registered n = false → nodes (fed (app s')) !! k = Some n.
Proof.
  intros s'. cut (runs env (load json_parse sp) (λ r s' w', r = Ok true
    ∧ durable (fed (app s')) = durable src ∧ revision (fed (app s')) = meta_revision_ meta
    ∧ written s' = records_of src ∧ meta_revision (sstatus s') = rev ∧ role (sstatus s') = role (sstatus s)
    ∧ ∀ k n, nodes (fed (app s)) !! k = Some n → is_registered n = false → nodes (fed (app s')) !! k = Some n) s w); [done|].
  unfold load. apply runs_bind_ok.
  assert (runs env (range_prefix json_parse sp (sprefix sp)) (λ r s1 _, r = Ok (map kv_item items) ∧ same_memory s s1) s w) as Hr.
  { split; [exact Hlist|]. apply (runs_guar env same_memory); [apply _..|apply range_prefix_memory]. }
  eapply runs_mono; [exact Hr|]. intros r s1 w1 [-> (Happ & Hst & _)]. cbn iota.
  rewrite (sort_kvs_items items ∅ None meta m rev Hutf8 (λ v r, proj1 (Hmeta v r)) Hde)
    by (right; exists m, rev; by apply Hmeta).
  rewrite (insert_all _ (records_of src)).
  2:{ intros k v. rewrite <-Hrecs, list_elem_of_omap. split.
      - intros ([[k' v'] r'] & Hin & E). case_bool_decide; simplify_eq. eauto.
      - intros (r' & Hin & Hrec). exists (k, v, r'). split; [done|]. by rewrite bool_decide_true. }
  apply runs_bind, runs_reads. cbn [fst snd].
  apply runs_bind.
  eapply (runs_mono env _ (λ _ s2 _, fed (app s2) = fed (app s1) ∧ role (sstatus s2) = role (sstatus s1))).
  { case_match; [|by apply runs_ret]. unfold note_displaced. case_match; [by apply runs_ret|].
    unfold store_event, update. apply runs_bind, runs_invoke, runs_bind, runs_invoke, runs_bind.
    apply runs_bind, runs_invoke, runs_writes, runs_writes. done. }
  intros [] s2 w2 [Hf2 Hr2].
  destruct (apply_written src (fed (app s2)) Hwf Hjson) as (fed' & Hap & Hdur & _ & Hnodes).
  apply runs_bind, runs_atomic. unfold loaded_fed. rewrite Hap. cbn [result_bind fst snd].
  unfold update. apply runs_bind, runs_invoke, runs_bind, runs_writes, runs_ret. simpl.
  split; [done|]. split; [exact Hdur|]. repeat split; try done.
  - by rewrite Hr2, Hst.
  - intros k n Hk Hn. rewrite Hnodes, Hf2, Happ, Hk. destruct (reg_config src k); by rewrite Hn.
Qed.
End leadership.

(** ** An etcd for the examples

    Transactions as etcd documents them, on decoded keys: compared with the
    leader key's create revision, applied whole or not at all. [lose] answers
    get lost on the way back. *)

Section etcd_example.
Record EtcdWorld := MkEtcdWorld { ew_keys : gmap string string; ew_leader : Z; lose : nat }.
Definition decoded (t : option Tree) : string :=
  match t ≫= j_str with
  | Some s => match unb64 s with Ok l => of_bytes l | Err _ => "" end
  | None => ""
  end%string.
Definition decode_op (t : Tree) : Op :=
  match j_get "request_put" t with
  | Some p => Put (decoded (j_get "key" p)) (decoded (j_get "value" p))
  | None => Delete (decoded (j_get "request_delete_range" t ≫= j_get "key"))
  end%string.
Definition compared (body : Tree) : option string :=
  (get_array "compare" body ≫= (λ l, l !! 0%nat)) ≫= get_str "create_revision".
Definition etcd_txn (body : Tree) (w : EtcdWorld) : result (Z * string) string * EtcdWorld :=
  if compared body == Some (pretty (ew_leader w)) then
    let w' := {| ew_keys := apply_ops (ew_keys w) (map decode_op (unwrap_or [] (get_array "success" body)));
                 ew_leader := ew_leader w; lose := pred (lose w) |} in
    (match lose w with O => Ok (200%Z, "done"%string) | S _ => Err "timeout"%string end, w')
  else (Ok (200%Z, "refused"%string), w).
Definition etcd_env (R : Type) (c : StoreCall Tree R) : EtcdWorld → R * EtcdWorld :=
  match c with
  | Post _ body => etcd_txn body
  | Clock => λ w, (0%Z, w)
  | PersistFile => λ w, (tt, w)
  | KeepCopy _ _ => λ w, (None, w)
  | AdvertiseAddr _ => λ w, (Err "no address"%string, w)
  | KubeHttp _ _ _ => λ w, (Err "no apiserver"%string, w)
  end.
Definition etcd_parse (text : string) : result Tree string :=
  Ok (TObj [("succeeded", TBool (text == "done")); ("ID", TStr "77"); ("header", TObj [("revision", TNum 9)])])%string.
Definition etcd_params : StoreParams :=
  MkStoreParams ["http://e1:2379"; "http://e2:2379"] "/s/" "a" "http://a:9093" 15 None "" "".

Lemma decoded_b64_str s : decoded (Some (b64_str s)) = s.
Proof. unfold decoded, b64_str. simpl. rewrite unb64_b64 by apply as_bytes_bytes. apply of_as_bytes. Qed.

Lemma decode_op_json o : decode_op (op_json etcd_params o) = full_op etcd_params o.
Proof.
  destruct o as [k v|k]; unfold op_json, put_op, delete_op, decode_op; simpl.
  - rewrite <-(decoded_b64_str (store_key etcd_params k)) at 2. rewrite <-(decoded_b64_str v) at 2. done.
  - rewrite <-(decoded_b64_str (store_key etcd_params k)) at 2. done.
Qed.

Definition etcd_past (w : EtcdWorld) (rev : Z) : Prop := rev ≠ ew_leader w.

Lemma etcd_txn_ok `{HttpShow} ep rev chunk meta w :
  let url := (ep +:+ "/v3/kv/txn")%string in
  let '(r, w') := etcd_env _ (Post url (txn_body etcd_params rev chunk meta)) w in
  (ew_keys w' = ew_keys w ∨ (¬ etcd_past w rev ∧ ew_keys w' = after_txn etcd_params chunk meta (ew_keys w)))
  ∧ ∀ status text v, r = Ok (status, text) → is_success status = true →
      etcd_answer etcd_parse url text status = Ok v → succeeded v = true →
      ¬ etcd_past w rev ∧ ew_keys w' = after_txn etcd_params chunk meta (ew_keys w).
Proof.
  intros url. cbn [etcd_env]. unfold etcd_txn.
  assert (compared (txn_body etcd_params rev chunk meta) = Some (pretty rev)) as -> by done.
  assert (map decode_op (unwrap_or [] (get_array "success" (txn_body etcd_params rev chunk meta))) =
    (map (full_op etcd_params) chunk ++ [Put (store_key etcd_params "meta") meta])%list) as ->.
  { unfold txn_body. simpl. rewrite map_app, map_map. f_equal; [apply map_ext, decode_op_json|].
    simpl. f_equal. apply (decode_op_json (Put "meta" meta)). }
  rewrite eqb_Some. destruct (pretty rev == pretty (ew_leader w)) eqn:E.
  - apply eqb_prop, (inj pretty) in E. assert (¬ etcd_past w rev) as Hn by (unfold etcd_past; congruence).
    split; [by right|]. intros; by split.
  - split; [by left|]. intros status text v [= <- <-] _ Hv. unfold etcd_answer, etcd_parse in Hv. simpl in Hv.
    injection Hv as <-. discriminate.
Qed.

Lemma etcd_past_stays R (c : StoreCall Tree R) w rev : etcd_past w rev → etcd_past (etcd_env R c w).2 rev.
Proof. intros Hp. destruct c; try exact Hp. cbn. unfold etcd_txn. destruct (_ == _); exact Hp. Qed.

(** A leader elected at revision 5, over a store of its own records. *)
Definition etcd_show : HttpShow := {| status_show := pretty; status_error _ m := m; decode_error := "decode" |}%string.
Definition etcd_volume : DistVolume := new_volume "db" 4096 None 1 "node" [] 0 [] None None.
Definition etcd_leader (fd : FedState) (w : gmap string string) : Fleet :=
  {| app := App_new fd (Some true);
     sstatus := leading etcd_params 77 5 0 StoreStatus_default; written := w; good := 0 |}.
End etcd_example.


Lemma leadership_wf_witness :
  let _ := etcd_show in
  let S1 : Serde DistVolume := no_record in
  let S2 : Serde Snapshot := no_record in
  let S3 : Serde GroupSnapshot := no_record in
  let S4 : Serde Backup := no_record in
  let S5 : Serde VmMigration := no_record in
  let S6 : Serde NodeConfig := no_record in
  let S7 : Serde (list Orphan) := one_record "[]" [] in
  let S8 : Serde (list StaleHead) := one_record "[]" [] in
  let S9 : Serde Meta := one_record "meta" (MkMeta 0 "a" 0) in
  let S10 : Serde LeaderInfo := one_record "me" (me etcd_params) in
  let s := {| app := App_new FedState_default None; sstatus := StoreStatus_default; written := ∅; good := 0 |} in
  let tasks := [store_step etcd_parse etcd_params; persist etcd_parse etcd_params] in
  let out := traced_sched etcd_env ([1; 1] ++ replicate 20 0)%nat (s, [], tasks, MkEtcdWorld ∅ 0 0) in
  let s' := out.1.1.1 in
  lease_id (sstatus s') = Some "77"%string ∧ leader_revision (sstatus s') = Some 9%Z
  ∧ ∃ lease created, elected etcd_parse etcd_params lease created out.1.1.2
    ∧ lease_id (sstatus s') = Some (pretty lease) ∧ leader_revision (sstatus s') = Some created
    ∧ leader (sstatus s') = Some (MkLeaderInfo "a" "http://a:9093").
Proof.
  intros SH S1 S2 S3 S4 S5 S6 S7 S8 S9 S10 s tasks out s'.
  split; [vm_compute; reflexivity|]. split; [vm_compute; reflexivity|].
  assert (Forall (λ p, p = store_step etcd_parse etcd_params ∨ p = persist etcd_parse etcd_params) tasks) as Htasks
    by (repeat constructor; auto).
  refine (leadership_wf etcd_parse etcd_params s tasks s' out.1.1.2 out.1.2 Htasks _ _ _); [reflexivity| |vm_compute; reflexivity].
  pose proof (traced_sched_sound etcd_env ([1; 1] ++ replicate 20 0)%nat (s, [], tasks, MkEtcdWorld ∅ 0 0)) as Hrun.
  fold out in Hrun. unfold s'. destruct out as [[[a h] ps] w]. exact Hrun.
Defined.

(** A volume is created, and every answer to the write of its record gets
    lost on the way; it is deleted before the next write. The write of the
    deletion finds nothing changed since the last one that was answered,
    reports success, and leaves the deleted volume's record in the store,
    from where the next leader loads it. *)
Theorem lost_answers_keep_deleted :
  let _ := etcd_show in
  let S1 : Serde DistVolume := one_record "vol" etcd_volume in
  let S2 : Serde Snapshot := no_record in
  let S3 : Serde GroupSnapshot := no_record in
  let S4 : Serde Backup := no_record in
  let S5 : Serde VmMigration := no_record in
  let S6 : Serde NodeConfig := no_record in
  let S7 : Serde (list Orphan) := one_record "[]" [] in
  let S8 : Serde (list StaleHead) := one_record "[]" [] in
  let S9 : Serde Meta := one_record "meta" (MkMeta 0 "a" 0) in
  let p := sync etcd_parse etcd_params in
  let empty := FedState_default in
  let created := FedState_default <| volumes := {["db" := etcd_volume]} |> in
  let w0 := (run_world etcd_env p (etcd_leader empty ∅) (MkEtcdWorld ∅ 5 0)) in
  let s1 := etcd_leader created (records_of empty) in
  let w1 := MkEtcdWorld (ew_keys w0) 5 2 in
  let s2 := (run_state etcd_env p s1 w1) <| app ::= λ a, a <| fed := empty |> |> in
  let w2 := run_world etcd_env p s1 w1 in
  agrees etcd_params (ew_keys w1) (written s1)
  ∧ is_err (run_value etcd_env p s1 w1) = true
  ∧ run_value etcd_env p s2 w2 = Ok tt
  ∧ records_of (fed (app s2)) !! "volumes/db"%string = None
  ∧ ew_keys (run_world etcd_env p s2 w2) !! "/s/volumes/db"%string = Some "vol"%string.
Proof.
  intros SH S1 S2 S3 S4 S5 S6 S7 S8 S9 p empty created w0 s1 w1 s2 w2.
  split; [|repeat split; vm_compute; reflexivity].
  assert (agrees etcd_params (ew_keys (MkEtcdWorld ∅ 5 0)) (written (etcd_leader empty ∅))) as Ha by (intros k _; reflexivity).
  pose proof (sync_runs etcd_parse etcd_params etcd_env ew_keys etcd_past
    (λ ep rev chunk meta w, etcd_txn_ok ep rev chunk meta w) (λ w, eq_refl) etcd_past_stays _ _ Ha) as (_ & Hr & _).
  fold p in Hr.
  assert (run_value etcd_env p (etcd_leader empty ∅) (MkEtcdWorld ∅ 5 0) = Ok tt) as Hok by (vm_compute; reflexivity).
  rewrite Hok in Hr. destruct Hr as [(Hr & _)|(_ & _ & Hr)]; [discriminate Hr|exact Hr].
Qed.

(** ** A store that answers a range *)

Section range_example.
Definition range_items : list (string * string * Z) :=
  [("leader", "x", 5); ("meta", "meta", 8); ("orphans", "[]", 6); ("stale_heads", "[]", 6); ("volumes/db", "vol", 8)]%string%Z.
Definition range_kv (item : string * string * Z) : Tree :=
  let '(k, v, r) := item in
  TObj [("key", b64_str (store_key etcd_params k)); ("value", b64_str v); ("mod_revision", TStr (pretty r))]%string.
Definition range_env (R : Type) (c : StoreCall Tree R) : unit → R * unit :=
  match c with
  | Post _ body => λ w, (Ok (200%Z, "list"%string), w)
  | Clock => λ w, (0%Z, w)
  | PersistFile => λ w, (tt, w)
  | KeepCopy _ _ => λ w, (None, w)
  | AdvertiseAddr _ => λ w, (Err "no address"%string, w)
  | KubeHttp _ _ _ => λ w, (Err "no apiserver"%string, w)
  end.
Definition range_parse (_ : string) : result Tree string :=
  Ok (TObj [("kvs"%string, TArr (map range_kv range_items))]).
(** A follower with a node of its own. *)
Definition range_follower : Fleet :=
  {| app := App_new example_reader (Some false); sstatus := following None StoreStatus_default; written := ∅; good := 0 |}.
End range_example.

Lemma range_items_utf8 k v r : (k, v, r) ∈ range_items → valid_utf8 (as_bytes v) = true.
Proof.
  intros Hin. unfold range_items in Hin.
  repeat (apply elem_of_cons in Hin as [[= -> -> ->]|Hin]; [reflexivity|]). by apply not_elem_of_nil in Hin.
Qed.
Lemma range_items_records k v :
  (∃ r, (k, v, r) ∈ range_items ∧ is_record k) ↔
  (k, v) ∈ [("orphans", "[]"); ("stale_heads", "[]"); ("volumes/db", "vol")]%string.
Proof.
  split.
  - intros (r & Hin & Hm & Hl). unfold range_items in Hin. rewrite !elem_of_cons in Hin. rewrite !elem_of_cons.
    destruct Hin as [[= -> _ _]|[[= -> _ _]|[[= -> -> _]|[[= -> -> _]|[[= -> -> _]|Hin]]]]]; auto; [done..|].
    by apply not_elem_of_nil in Hin.
  - intros Hin. assert (∃ r, (k, v, r) ∈ range_items) as [r Hr].
    { rewrite !elem_of_cons in Hin. unfold range_items. setoid_rewrite elem_of_cons.
      destruct Hin as [[= -> ->]|[[= -> ->]|[[= -> ->]|Hin%not_elem_of_nil]]]; [exists 6%Z|exists 6%Z|exists 8%Z|done];
        right; rewrite !elem_of_cons; auto. }
    exists r. split; [done|]. rewrite !elem_of_cons in Hin.
    by destruct Hin as [[= -> _]|[[= -> _]|[[= -> _]|Hin%not_elem_of_nil]]].
Qed.
Lemma range_items_meta v r : ("meta"%string, v, r) ∈ range_items ↔ v = "meta"%string ∧ r = 8%Z.
Proof.
  unfold range_items. rewrite !elem_of_cons. split.
  - by intros [[=]|[[= -> ->]|[[=]|[[=]|[[=]|Hin%not_elem_of_nil]]]]].
  - intros [-> ->]. auto.
Qed.

Lemma load_follows_witness :
  let _ := etcd_show in
  let S1 : Serde DistVolume := one_record "vol" etcd_volume in
  let S2 : Serde Snapshot := no_record in
  let S3 : Serde GroupSnapshot := no_record in
  let S4 : Serde Backup := no_record in
  let S5 : Serde VmMigration := no_record in
  let S6 : Serde NodeConfig := no_record in
  let S7 : Serde (list Orphan) := one_record "[]" [] in
  let S8 : Serde (list StaleHead) := one_record "[]" [] in
  let S9 : Serde Meta := one_record "meta" (MkMeta 31 "a" 0) in
  let src := FedState_default <| volumes := {["db" := etcd_volume]} |> in
  let p := load range_parse etcd_params in
  let s' := run_state range_env p range_follower tt in
  run_value range_env p range_follower tt = Ok true
  ∧ volumes (fed (app s')) = volumes src ∧ revision (fed (app s')) = 31%Z
  ∧ nodes (fed (app s')) !! "mine"%string = Some (example_node "mine" Static).
Proof.
  intros SH S1 S2 S3 S4 S5 S6 S7 S8 S9 src p s'.
  assert (run_value range_env (range_prefix range_parse etcd_params (sprefix etcd_params)) range_follower tt
    = Ok (map (kv_item etcd_params) range_items)) as Hlist by (vm_compute; reflexivity).
  assert (∀ k v, (∃ r, (k, v, r) ∈ range_items ∧ is_record k) ↔ records_of src !! k = Some v) as Hrecs.
  { assert (bt_list (records_of src) = [("orphans", "[]"); ("stale_heads", "[]"); ("volumes/db", "vol")]%string) as Hb
      by (vm_compute; reflexivity).
    intros k v. rewrite <-elem_of_bt_list, Hb. apply range_items_records. }
  assert (∀ k n, nodes src !! k = Some n → nc_name (config n) = k) as Hwf.
  { intros k n Hk. simpl in Hk. by rewrite lookup_empty in Hk. }
  assert (∀ e, entry_of src e → entry_survives e) as Hjson.
  { intros [n v|n v|n v|n v|n v|c|l|l] He; simpl in He; try (by rewrite lookup_empty in He).
    - apply lookup_singleton_Some in He as [_ <-]. reflexivity.
    - destruct He as (k & n & Hk & _). by rewrite lookup_empty in Hk.
    - subst l. reflexivity.
    - subst l. reflexivity. }
  assert (@de Meta S9 "meta"%string = Ok (MkMeta 31 "a" 0)) as Hde by reflexivity.
  destruct (load_follows range_parse etcd_params range_env range_follower tt src range_items "meta"%string
    (MkMeta 31 "a" 0) 8 Hlist range_items_utf8 Hrecs range_items_meta Hde Hwf Hjson) as (H1 & H2 & H3 & _ & _ & _ & H4).
  split; [exact H1|]. split; [|split; [exact H3|]].
  - exact (durable_volumes _ _ H2).
  - exact (H4 "mine"%string (example_node "mine" Static) eq_refl eq_refl).
Defined.
