(* ===== verification/Migrate.v ===== *)
(** * Tier migration (src/migrate.rs)

    Moving every leg of a volume into another pool, one leg at a time, with
    the sequence that replaces a leg. Shown: what the next step is and when,
    and that each move brings the volume nearer to its pool, so a migration
    whose moves succeed ends with every leg there, or with the head's own. *)

From S2P Require Import Prelude F64 Config Model Placement Events Refusal Async Json Inventory Sync.
From S2P Require Import Recovery App Engine Publish Replace Head.
From stdpp Require Import options.

Local Open Scope string_scope.

Inductive Step :=
  | Move (from to : string)
  | StepDone
  | StepWaitingHandover
  | Blocked (why : string).

Inductive MigrateRefusal := MNotFound (m : string) | MConflict (m : string).

Definition in_pool (fed : FedState) (pool : PoolConfig) (node : string) : bool :=
  is_some_and (λ n, matches (pool_selector pool) (config n)) (nodes fed !! node).

(** [Iterator::min] of strings. *)
Definition min_str (l : list string) : option string :=
  match l with
  | [] => None
  | x :: l => Some (foldl (λ m y, if String.ltb y m then y else m) x l)
  end.

(** The nodes of the legs outside the pool. *)
Definition outside_pool (fed : FedState) (pool : PoolConfig) (vol : DistVolume) : list string :=
  List.filter (λ n, negb (in_pool fed pool n)) (map leg_node (legs vol)).

Definition pool_targets (fed : FedState) (pool : PoolConfig) (rungs : list string) (vol : DistVolume) (from : string)
    : list Candidate :=
  let at_rung := vol <| rung := pool_rung pool |> in
  List.filter (λ c, in_pool fed pool (cand_name c)) (move_target_candidates fed rungs at_rung from).

Definition next_step (fed : FedState) (pool : PoolConfig) (rungs : list string) (io_weight : f64) (vol : DistVolume)
    : Step :=
  match find_first (λ l, leg_state l != Created) (legs vol) with
  | Some l => Blocked ("leg on " +:+ leg_node l +:+ " is " +:+ LegState_debug (leg_state l) +:+ " — recovery comes first")
  | None =>
      match outside_pool fed pool vol with
      | [] => StepDone
      | outside =>
          match min_str (List.filter (λ n, Some n != head vol) outside) with
          | None => StepWaitingHandover
          | Some from =>
              match plan (pool_targets fed pool rungs vol from) rungs (pool_rung pool) 1 (size_bytes vol) io_weight with
              | Ok p => Move from (unwrap_or "" (p !! 0%nat))
              | Err e => Blocked ("no target in pool " +:+ pool_name pool +:+ " for the leg on " +:+ from +:+ ": " +:+ e)
              end
          end
      end
  end.

Section migrate.
Context {J : Type} `{Json J} `{HttpShow}.
Context `{Deserialize J EngineVolume} `{Deserialize J Slab} `{Deserialize J Discovery}.
Context (cfg : Config) (engine_token : NodeConfig → option string) (admin_credential : string → option string).

Definition migrate_event (nm : string) (sev : Severity) (msg : string) : handler J unit := event_of "migrate" nm sev msg.

(** ** Starting *)

Definition pool_candidates (fd : FedState) (pool : PoolConfig) : list Candidate :=
  map candidate_of
    (List.filter (λ n, healthy (status n) && matches (pool_selector pool) (config n)) (bt_values (nodes fd))).

(** Why a migration into [pool] cannot start; [Ok (Some m)]: it runs. *)
Definition check_start (fd : FedState) (pool : PoolConfig) (nm to : string)
    : result (DistVolume * option Migration) MigrateRefusal :=
  let? vol := ok_or (volumes fd !! nm) (MNotFound ("volume " +:+ debug_str nm)) in
  match migration vol with
  | Some m =>
      if to_pool m == to then Ok (vol, Some m)
      else Err (MConflict (nm +:+ ": already migrating to pool " +:+ to_pool m))
  | None =>
      if assembly vol == SingleLeg then
        Err (MConflict (nm +:+ ": a single leg — a move needs a mirror to rebuild from"))
      else if assembly vol != Assembled then
        Err (MConflict (nm +:+ ": " +:+ AssemblyState_debug (assembly vol) +:+ " — recover or assemble it first"))
      else if fenced vol || is_some (replacing vol) || is_some (dual_attach vol) then
        Err (MConflict (nm +:+ ": fenced, replacing a leg or in a dual-attach window"))
      else if forallb (λ l, in_pool fd pool (leg_node l)) (legs vol) then
        Err (MConflict (nm +:+ ": every leg is already in pool " +:+ to))
      else
        let? _ := map_err (λ e, MConflict (nm +:+ ": pool " +:+ to +:+ " cannot hold its "
                     +:+ pretty (Z.of_nat (length (legs vol))) +:+ " legs: " +:+ e))
          (plan (pool_candidates fd pool) (rungs cfg) (pool_rung pool) (as_u32 (Z.of_nat (length (legs vol))))
             (size_bytes vol) (io_weight cfg)) in
        Ok (vol, None)
  end.
(** The lock section: the migration, and whether it is new. *)
Definition start_record (nm to : string) (pool : PoolConfig) (now : time) (s : App)
    : App * result (Migration * bool) MigrateRefusal :=
  match check_start (fed s) pool nm to with
  | Err e => (s, Err e)
  | Ok (_, Some m) => (s, Ok (m, false))
  | Ok (vol, None) =>
      let m := {| to_pool := to; from_pool := vol_pool vol; mig_started_at := now; mig_state := Moving; mig_message := None |} in
      (s <| fed ::= λ fd, bump (update_volume fd nm (λ v, v <| migration := Some m |>)) |>, Ok (m, true))
  end.
Definition migrate_start (nm to : string) : handler J (result Migration MigrateRefusal) :=
  match pool (pools cfg) to with
  | None => Ret (Err (MNotFound ("pool " +:+ debug_str to)))
  | Some pool =>
      let! now := invoke Now in
      let! r := atomic (start_record nm to pool now) in
      match r with
      | Err e => Ret (Err e)
      | Ok (m, false) => Ret (Ok m)
      | Ok (m, true) =>
          publish_change ;!
          migrate_event nm Info (nm +:+ ": tier migration to pool " +:+ to +:+ " started (from "
                                 +:+ unwrap_or "no pool" (from_pool m) +:+ ")") ;!
          Ret (Ok m)
      end
  end.

(** ** Cancelling *)

Definition cancel_record (nm : string) (s : App) : App * result bool MigrateRefusal :=
  match volumes (fed s) !! nm with
  | None => (s, Err (MNotFound ("volume " +:+ debug_str nm)))
  | Some v =>
      if is_some (migration v)
      then (s <| fed ::= λ fd, bump (update_volume fd nm (λ v, v <| migration := None |>)) |>, Ok true)
      else (s, Ok false)
  end.
Definition migrate_cancel (nm : string) : handler J (result bool MigrateRefusal) :=
  let! r := atomic (cancel_record nm) in
  match r with
  | Ok true =>
      publish_change ;!
      migrate_event nm Info (nm +:+ ": tier migration cancelled; legs already moved stay") ;!
      Ret r
  | _ => Ret r
  end.

(** ** A round *)

Record MigrateDue := MkMigrateDue {
  md_name : string;
  md_step : Step;
  md_was : MigrationState;
  md_message : option string;
  md_to : string;
}.

Definition migrate_due (now : time) (s : App) : list MigrateDue :=
  omap (λ v,
    m ← migration v;
    let step := match pool (pools cfg) (to_pool m) with
                | Some p => next_step (fed s) p (rungs cfg) (io_weight cfg) v
                | None => Blocked ("pool " +:+ to_pool m +:+ " is no longer in the config")
                end in
    Some {| md_name := name v; md_step := step; md_was := mig_state m; md_message := mig_message m; md_to := to_pool m |})
  (List.filter (λ v, is_none (replacing v) && negb (busy s (name v)) && negb (fenced v) && is_none (dual_attach v)
                     && map_or true (λ t, (t <=? now)%Z) (next_releg_after v))
     (bt_values (volumes (fed s)))).

(** The record after a move was asked for. *)
Definition move_noted (now : time) (err : option string) (v : DistVolume) : DistVolume :=
  let v := v <| migration ::= fmap (M:=option) (λ m, m <| mig_state := Moving |> <| mig_message := err |>) |> in
  if is_some err then v <| next_releg_after := Some (now + secs (cooldown_secs (recovery cfg)))%Z |> else v.
(** Every leg is there: the volume is the pool's. *)
Definition migrated (to : string) (v : DistVolume) : DistVolume :=
  let v := v <| vol_pool := Some to |> in
  let v := match pool (pools cfg) to with Some p => v <| rung := pool_rung p |> | None => v end in
  v <| migration := None |>.
Definition migration_set (nm : string) (st : MigrationState) (msg : option string) : handler J unit :=
  change_volume nm (λ v, v <| migration ::= fmap (M:=option) (λ m, m <| mig_state := st |> <| mig_message := msg |>) |>) ;!
  publish_change.

Definition handover_message (nm to : string) : string :=
  nm +:+ ": tier migration to " +:+ to +:+ ": every leg but the head's is in the pool; the head's own leg moves by promote only, and a handover from a live head waits on stormblock#"
  +:+ pretty RELEASE_ISSUE.

Definition migrate_one (fuel : nat) (now : time) (d : MigrateDue) : handler J unit :=
  let nm := md_name d in
  let to := md_to d in
  match md_step d with
  | Move from target =>
      let! r := start_replacement cfg engine_token admin_credential fuel nm from (Some target) "tier migration" in
      change_volume nm (move_noted now (match r with Ok _ => None | Err e => Some (err_text e) end)) ;!
      publish_change ;!
      match r with
      | Ok _ => migrate_event nm Info (nm +:+ ": tier migration to " +:+ to +:+ ": moving the leg on " +:+ from +:+ " to " +:+ target)
      | Err e => migrate_event nm Warning (nm +:+ ": tier migration to " +:+ to +:+ ": the move " +:+ from +:+ " → " +:+ target
                   +:+ " did not start, retry in " +:+ pretty (cooldown_secs (recovery cfg)) +:+ "s: " +:+ err_text e)
      end
  | StepDone =>
      change_volume nm (migrated to) ;!
      publish_change ;!
      migrate_event nm Info (nm +:+ ": tier migration done — every leg is in pool " +:+ to)
  | StepWaitingHandover =>
      if md_was d != WaitingHandover then
        migration_set nm WaitingHandover (Some (handover_message nm to)) ;!
        migrate_event nm Warning (handover_message nm to)
      else Ret tt
  | Blocked why =>
      if md_message d != Some why then
        migration_set nm Moving (Some why) ;!
        migrate_event nm Warning (nm +:+ ": tier migration to " +:+ to +:+ " held: " +:+ why)
      else Ret tt
  end.
Definition migrate_run (fuel : nat) (now : time) : handler J unit :=
  let! act := reads (recovery_active cfg) in
  if negb act then Ret tt
  else
    let! due := reads (migrate_due now) in
    for_each (migrate_one fuel now) due.
End migrate.

Local Close Scope string_scope.

(** ** Facts: the least of some names *)

Lemma min_str_spec l m : min_str l = Some m → m ∈ l ∧ ∀ y, y ∈ l → String.le m y.
Proof.
  destruct l as [|x l]; [done|]. cbn [min_str]. intros [= <-].
  assert (∀ l x, let m := foldl (λ m y, if String.ltb y m then y else m) x l in
            (m = x ∨ m ∈ l) ∧ String.le m x ∧ ∀ y, y ∈ l → String.le m y) as Hf.
  { clear. induction l as [|y l IH]; intros x; cbn [foldl].
    { split; [by left|]. split; [done|]. by intros ? ?%not_elem_of_nil. }
    destruct (String.ltb y x) eqn:E.
    - assert (String.le y x) as Hyx by (unfold String.ltb in E; apply string_compare_Gt_leb; by destruct (String.compare y x)).
      destruct (IH y) as (Hor & Hle & Hall). split; [|split].
      + destruct Hor as [->|?]; right; [by left|by right].
      + by transitivity y.
      + intros z [->|?]%elem_of_cons; auto.
    - assert (String.le x y) as Hxy.
      { apply string_compare_Gt_leb. rewrite string_compare_antisym. unfold String.ltb in E.
        by destruct (String.compare y x). }
      destruct (IH x) as (Hor & Hle & Hall). split; [|split].
      + destruct Hor as [->|?]; [by left|right; by right].
      + done.
      + intros z [->|?]%elem_of_cons; [by transitivity x|auto]. }
  destruct (Hf l x) as (Hor & Hle & Hall). split.
  - destruct Hor as [->|?]; [by left|by right].
  - intros y [->|?]%elem_of_cons; auto.
Qed.

Lemma min_str_None l : min_str l = None → l = [].
Proof. by destruct l. Qed.

(** ** Facts: a step *)

Lemma elem_of_outside fed pool vol n :
  n ∈ outside_pool fed pool vol ↔ (∃ l, l ∈ legs vol ∧ leg_node l = n) ∧ in_pool fed pool n = false.
Proof.
  unfold outside_pool. rewrite elem_of_filterb, list_elem_of_fmap, negb_true_iff. naive_solver.
Qed.

(** A finished move takes one leg into the pool. *)
Lemma outside_after_move fed pool vol from leg :
  from ∈ outside_pool fed pool vol → in_pool fed pool (leg_node leg) = true →
  S (length (outside_pool fed pool (replacement_done from leg vol))) = length (outside_pool fed pool vol).
Proof.
  intros [(l & Hl & <-) Hout]%elem_of_outside Hin. unfold outside_pool, replacement_done. simpl.
  assert (existsb (λ x, leg_node x == leg_node l) (legs vol) = true) as ->
    by (apply existsb_true; exists l; split; [done|apply eqb_refl]).
  revert Hl. induction (legs vol) as [|x ls IH]; [by intros ?%not_elem_of_nil|]. intros Hl. cbn [update_first map List.filter].
  destruct (leg_node x == leg_node l) eqn:E.
  - apply eqb_prop in E. cbn [map List.filter]. rewrite E, Hout. simpl. by rewrite Hin.
  - apply elem_of_cons in Hl as [->|Hl]; [by rewrite eqb_refl in E|]. specialize (IH Hl).
    cbn [map List.filter]. destruct (negb (in_pool fed pool (leg_node x))); cbn [length]; lia.
Qed.

Lemma elem_of_pool_targets fed pool rungs vol from c :
  (∀ k n, nodes fed !! k = Some n → nc_name (config n) = k) →
  c ∈ pool_targets fed pool rungs vol from ↔
    ∃ k n, nodes fed !! k = Some n ∧ c = candidate_of n ∧ healthy (status n) = true ∧ in_pool fed pool k = true
      ∧ (∀ l, l ∈ legs vol → leg_node l ≠ k)
      ∧ ∀ l ln, l ∈ legs vol → leg_node l ≠ from → nodes fed !! leg_node l = Some ln →
          domain_at (labels ln) rungs (pool_rung pool) ≠ domain_at (labels n) rungs (pool_rung pool).
Proof.
  intros Hwf. unfold pool_targets. rewrite elem_of_filterb, elem_of_move_targets. simpl. split.
  - intros [(k & n & Hk & -> & Hh & Hl & Hd) Hp]. exists k, n. pose proof (Hwf _ _ Hk) as Hn. simpl in Hp. rewrite Hn in *. done.
  - intros (k & n & Hk & -> & Hh & Hp & Hl & Hd). pose proof (Hwf _ _ Hk) as Hn. split.
    + exists k, n. rewrite Hn. done.
    + simpl. by rewrite Hn.
Qed.

(** What a step says of the volume. *)
Definition step_sound (fed : FedState) (pool : PoolConfig) (rungs : list string) (vol : DistVolume) (st : Step) : Prop :=
  match st with
  | StepDone => ∀ l, l ∈ legs vol → leg_state l = Created ∧ in_pool fed pool (leg_node l) = true
  | StepWaitingHandover =>
      (∀ l, l ∈ legs vol → leg_state l = Created)
      ∧ outside_pool fed pool vol ≠ [] ∧ ∀ n, n ∈ outside_pool fed pool vol → head vol = Some n
  | Move from to =>
      (∀ l, l ∈ legs vol → leg_state l = Created)
      ∧ from ∈ outside_pool fed pool vol ∧ head vol ≠ Some from
      ∧ (∀ n, n ∈ outside_pool fed pool vol → head vol ≠ Some n → String.le from n)
      ∧ (∃ n, nodes fed !! to = Some n ∧ healthy (status n) = true ∧ (size_bytes vol ≤ free_bytes (status n))%Z
           ∧ ∀ l ln, l ∈ legs vol → leg_node l ≠ from → nodes fed !! leg_node l = Some ln →
               domain_at (labels ln) rungs (pool_rung pool) ≠ domain_at (labels n) rungs (pool_rung pool))
      ∧ (∀ l, l ∈ legs vol → leg_node l ≠ to)
      ∧ in_pool fed pool to = true
  | Blocked _ =>
      (∃ l, l ∈ legs vol ∧ leg_state l ≠ Created)
      ∨ ∃ from, from ∈ outside_pool fed pool vol ∧ head vol ≠ Some from
          ∧ ∀ k n, nodes fed !! k = Some n → healthy (status n) = true → in_pool fed pool k = true →
              (∀ l, l ∈ legs vol → leg_node l ≠ k) →
              (∀ l ln, l ∈ legs vol → leg_node l ≠ from → nodes fed !! leg_node l = Some ln →
                 domain_at (labels ln) rungs (pool_rung pool) ≠ domain_at (labels n) rungs (pool_rung pool)) →
              (free_bytes (status n) < size_bytes vol)%Z
  end.

Lemma pool_targets_length fed pool rungs vol from :
  (length (pool_targets fed pool rungs vol from) ≤ size (nodes fed))%nat.
Proof. unfold pool_targets. etrans; [apply filterb_length|apply move_targets_length]. Qed.

Lemma next_step_sound fed pool rungs io_weight vol :
  (∀ k n, nodes fed !! k = Some n → nc_name (config n) = k) → (Z.of_nat (size (nodes fed)) ≤ u32_max)%Z →
  step_sound fed pool rungs vol (next_step fed pool rungs io_weight vol).
Proof.
  intros Hwf Hsize. unfold next_step.
  destruct (find_first _ (legs vol)) as [l|] eqn:Hst.
  { apply find_first_Some in Hst as [Hl Hs%neqb_prop]. left. by exists l. }
  assert (∀ l, l ∈ legs vol → leg_state l = Created) as Hcreated.
  { intros l Hl. apply neqb_nprop. by apply (proj1 (find_first_None _ _) Hst). }
  destruct (outside_pool fed pool vol) as [|o outside] eqn:Ho.
  { intros l Hl. split; [by apply Hcreated|]. destruct (in_pool fed pool (leg_node l)) eqn:E; [done|].
    assert (leg_node l ∈ @nil string) as []%not_elem_of_nil. rewrite <-Ho. apply elem_of_outside. eauto. }
  rewrite <-Ho. destruct (min_str _) as [from|] eqn:Hm.
  2:{ apply min_str_None in Hm. split; [done|]. split; [by rewrite Ho|]. intros n Hn.
      destruct (decide (head vol = Some n)) as [|Hne]; [done|].
      assert (n ∈ @nil string) as []%not_elem_of_nil. rewrite <-Hm, elem_of_filterb, neqb_true. split; [done|congruence]. }
  apply min_str_spec in Hm as [[Hfrom Hhead%neqb_prop]%elem_of_filterb Hleast].
  pose proof (plan_one (pool_targets fed pool rungs vol from) rungs (pool_rung pool) (size_bytes vol) io_weight) as Hp.
  assert (Z.of_nat (length (pool_targets fed pool rungs vol from)) ≤ u32_max)%Z as Hlen
    by (pose proof (pool_targets_length fed pool rungs vol from); lia).
  specialize (Hp Hlen). destruct (plan _ _ _ _ _ _) as [picks|e].
  - destruct Hp as (c & -> & Hc & Hfit). apply (elem_of_pool_targets _ _ _ _ _ _ Hwf) in Hc as (k & n & Hk & -> & Hh & Hp & Hl & Hd).
    simpl. rewrite (Hwf _ _ Hk). split; [done|]. split; [done|]. split; [congruence|].
    split; [|split; [by exists n|done]].
    intros x Hx Hne. apply Hleast. rewrite elem_of_filterb, neqb_true. split; [done|congruence].
  - right. exists from. split; [done|]. split; [congruence|]. intros k n Hk Hh Hp' Hl Hd.
    apply (Hp (candidate_of n)), (elem_of_pool_targets _ _ _ _ _ _ Hwf). by exists k, n.
Qed.

(** A migration whose moves all succeed, nodes and pool staying as they are:
    the new legs are created on the nodes asked for. *)
Fixpoint migrate_moves (fed : FedState) (pool : PoolConfig) (rungs : list string) (io_weight : f64)
    (mk : string → Leg) (n : nat) (vol : DistVolume) : DistVolume :=
  match n with
  | O => vol
  | S n =>
      match next_step fed pool rungs io_weight vol with
      | Move from to => migrate_moves fed pool rungs io_weight mk n (replacement_done from (mk to) vol)
      | _ => vol
      end
  end.

(** C23: A migration's steps. Each step is what the volume and the nodes call
    for: a move takes the least leg outside the pool that is not the head's
    to a node of the pool that answers, has room, holds no leg and shares no
    domain with the legs that stay; "done" and "waiting for the head's
    handover" are said exactly of volumes in that condition; a volume is
    held only for a leg that is not there or for want of such a node. Moves
    that succeed cannot go on for ever: after as many as there were legs
    outside the pool, the volume asks for no other. *)
Theorem migration_ends fed pool rungs io_weight mk vol
  (Hwf : ∀ k n, nodes fed !! k = Some n → nc_name (config n) = k) (Hsize : (Z.of_nat (size (nodes fed)) ≤ u32_max)%Z)
  (Hmk : ∀ to, leg_node (mk to) = to) :
  step_sound fed pool rungs vol (next_step fed pool rungs io_weight vol)
  ∧ let vol' := migrate_moves fed pool rungs io_weight mk (length (outside_pool fed pool vol)) vol in
    match next_step fed pool rungs io_weight vol' with Move _ _ => False | _ => True end.
Proof.
  split; [by apply next_step_sound|]. remember (length (outside_pool fed pool vol)) as n eqn:Hn.
  revert vol Hn. induction n as [|n IH]; intros vol Hn; cbn [migrate_moves].
  - pose proof (next_step_sound fed pool rungs io_weight vol Hwf Hsize) as Hs.
    destruct (next_step _ _ _ _ vol) as [from to| | |]; try done.
    destruct Hs as (_ & Hfrom & _). destruct (outside_pool fed pool vol); [by apply not_elem_of_nil in Hfrom|done].
  - pose proof (next_step_sound fed pool rungs io_weight vol Hwf Hsize) as Hs.
    destruct (next_step _ _ _ _ vol) as [from to| | |] eqn:E; [|by rewrite E..].
    destruct Hs as (_ & Hfrom & _ & _ & _ & _ & Hto). apply IH.
    pose proof (outside_after_move fed pool vol from (mk to) Hfrom) as Hlen. rewrite Hmk in Hlen.
    specialize (Hlen Hto). cbv zeta in Hlen. lia.
Qed.

(** ** An example: two legs outside a pool of one node, the head's first *)

Section example.
Definition migrate_node (n : string) : Node :=
  MkNode (MkNodeConfig n n None None None ∅ None)
    ((NodeStatus_new Static) <| healthy := true |> <| total_bytes := 1000%Z |> <| free_bytes := 500%Z |>).
Definition migrate_fed : FedState :=
  FedState_default <| nodes := {["n1" := migrate_node "n1"; "n2" := migrate_node "n2"; "n3" := migrate_node "n3"]} |>%string.
Definition migrate_pool : PoolConfig :=
  MkPoolConfig "fast"%string (MkSelector None ∅ ["n3"%string]) 2 "node"%string None None 1.
Definition migrate_volume : DistVolume :=
  (new_volume "db"%string 100 None 2 "node"%string
     [new_leg "n1" (Some "1") None; new_leg "n2" (Some "2") None]%string 0 [] None None)
    <| assembly := Assembled |> <| head := Some "n1"%string |>.
End example.

Lemma migration_ends_witness :
  let mk to := new_leg to None None in
  next_step migrate_fed migrate_pool FederationConfig_default f0 migrate_volume = Move "n2"%string "n3"%string
  ∧ step_sound migrate_fed migrate_pool FederationConfig_default migrate_volume (Move "n2"%string "n3"%string)
  ∧ let vol' := migrate_moves migrate_fed migrate_pool FederationConfig_default f0 mk 2 migrate_volume in
    next_step migrate_fed migrate_pool FederationConfig_default f0 vol' = StepWaitingHandover.
Proof.
  intros mk.
  assert (next_step migrate_fed migrate_pool FederationConfig_default f0 migrate_volume = Move "n2"%string "n3"%string) as E
    by (vm_compute; reflexivity).
  split; [exact E|]. split; [|vm_compute; reflexivity]. rewrite <-E.
  refine (proj1 (migration_ends migrate_fed migrate_pool FederationConfig_default f0 mk migrate_volume _ _ _)).
  - intros k n Hk. simpl in Hk.
    repeat (apply lookup_insert_Some in Hk as [[<- <-]|[_ Hk]]; [reflexivity|]).
    apply lookup_singleton_Some in Hk as [<- <-]. reflexivity.
  - vm_compute. discriminate.
  - reflexivity.
Defined.
