(* ===== verification/Rebalance.v ===== *)
(** * Rebalancing (src/rebalance.rs)

    Leg moves off the nodes of a pool used above its high watermark onto
    nodes used below its low one. Shown: every proposed move keeps to the
    marks (written out over the nodes' space) with every leg promised to its
    target before it in the same pass, and to the pool's other rules; no
    volume moves twice and no more moves are proposed than the pool lets be
    in flight. *)

From S2P Require Import Prelude F64 Config Model Placement Events Refusal Async Json Inventory Sync.
From S2P Require Import Recovery App Engine Publish Replace.
From stdpp Require Import options.

Local Open Scope string_scope.

(** The text of a float in a message: [{}], and [{:.0}] of a percentage. *)
Class FloatShow := { f64_show : f64 → string; pct_show : f64 → string }.

Record RMove := MkRMove {
  mv_pool : string;
  mv_volume : string;
  mv_from : string;
  mv_to : string;
  from_used : f64;
  to_used : f64;
}.
Record Held := MkHeld { held_pool : string; held_why : string }.
Record RPlan := MkRPlan { moves : list RMove; held : list Held }.

(** [used]: the used fraction of a node. *)
Definition used (n : Node) : f64 :=
  if (total_bytes (status n) =? 0)%Z then f0
  else fsub f1 (fdiv (of_u64 (free_bytes (status n))) (of_u64 (total_bytes (status n)))).

(** What a pass over a pool carries along. *)
Record RPass := MkRPass {
  r_room : Z;
  promised : gmap string Z;
  moved_volumes : gset string;
  r_moves : list RMove;
}.
#[export] Instance RPass_eta : Eta RPass := λ r, MkRPass (r_room r) (promised r) (moved_volumes r) (r_moves r).

Section plan.
Context `{FloatShow}.
Context (fed : FedState) (rungs : list string) (io_weight : f64) (busy : string → bool) (now : time).

Definition in_this_pool (pool : PoolConfig) (v : DistVolume) : bool := vol_pool v == Some (pool_name pool).

(** A volume whose leg on [src] may move. *)
Definition movable (pool : PoolConfig) (src : Node) (v : DistVolume) : bool :=
  in_this_pool pool v && (assembly v == Assembled)
  && (negb (fenced v) && is_none (replacing v) && is_none (dual_attach v) && is_none (migration v))
  && (negb (busy (name v)) && map_or true (λ t, (t <=? now)%Z) (next_releg_after v))
  && (head v != Some (nc_name (config src)))
  && existsb (λ l, (leg_node l == nc_name (config src)) && (leg_state l == Created)) (legs v).
Definition by_size (a b : DistVolume) : comparison :=
  cmp_then (size_bytes b ?= size_bytes a)%Z (String.compare (name a) (name b)).
Definition source_volumes (pool : PoolConfig) (src : Node) : list DistVolume :=
  sort_by by_size (List.filter (movable pool src) (bt_values (volumes fed))).

(** A node of the pool below the low watermark that stays at or under the
    high one with the leg added to what it was promised already. *)
Definition takes (high low : f64) (extra size : Z) (c : Candidate) : bool :=
  (0 <? cand_total_bytes c)%Z
  && (let used_now := fsub f1 (fdiv (of_u64 (cand_free_bytes c)) (of_u64 (cand_total_bytes c))) in
      let after := fadd (of_u64 (cand_total_bytes c - Z.min (cand_free_bytes c) (cand_total_bytes c)))
                        (of_u64 (u64_add extra size)) in
      flt used_now low && fle (fdiv after (of_u64 (cand_total_bytes c))) high).
Definition move_candidates (members : list Node) (high low : f64) (prom : gmap string Z) (src : Node) (v : DistVolume)
    : list Candidate :=
  List.filter (λ c, takes high low (unwrap_or 0%Z (prom !! cand_name c)) (size_bytes v) c)
    (List.filter (λ c, existsb (λ m, nc_name (config m) == cand_name c) members)
      (move_target_candidates fed rungs v (nc_name (config src)))).

(** One volume of one source; nothing more once the room is used up. *)
Definition propose (pool : PoolConfig) (members : list Node) (high low : f64) (src : Node) (st : RPass) (v : DistVolume)
    : RPass :=
  if (r_room st =? 0)%Z then st
  else if bool_decide (name v ∈ moved_volumes st) then st
  else
    match plan (move_candidates members high low (promised st) src v) rungs (rung v) 1 (size_bytes v) io_weight with
    | Err _ => st
    | Ok pick =>
        let to := unwrap_or "" (pick !! 0%nat) in
        {| r_room := (r_room st - 1)%Z;
           promised := <[to := u64_add (unwrap_or 0%Z (promised st !! to)) (size_bytes v)]> (promised st);
           moved_volumes := {[name v]} ∪ moved_volumes st;
           r_moves := (r_moves st ++ [{| mv_pool := pool_name pool; mv_volume := name v; mv_from := nc_name (config src);
                        mv_to := to; from_used := used src; to_used := map_or f0 used (nodes fed !! to) |}])%list |}
    end.
Definition propose_source (pool : PoolConfig) (members : list Node) (high low : f64) (st : RPass) (src : Node) : RPass :=
  foldl (propose pool members high low src) st (source_volumes pool src).

Definition by_used (a b : Node) : comparison :=
  cmp_then (unwrap_or Eq (partial_cmp (used b) (used a))) (String.compare (nc_name (config a)) (nc_name (config b))).
Definition pool_members (pool : PoolConfig) : list Node :=
  List.filter (λ n, matches (pool_selector pool) (config n)) (bt_values (nodes fed)).
Definition pool_sources (members : list Node) (high : f64) : list Node :=
  sort_by by_used (List.filter (λ n, fgt (used n) high) members).
Definition in_flight (pool : PoolConfig) : Z :=
  as_u32 (Z.of_nat (length (List.filter (λ v, in_this_pool pool v && is_some (replacing v)) (bt_values (volumes fed))))).
Definition valid_marks (high low : f64) : bool :=
  fle f0 low && fle low f1 && (fle f0 high && fle high f1) && negb (fge low high).

(** What one pool wants: the moves, and why there are none. *)
Definition pool_pass (pool : PoolConfig) (high low : f64) : RPass :=
  let members := pool_members pool in
  foldl (propose_source pool members high low)
    (MkRPass (u32_saturating_sub (max_moves pool) (in_flight pool)) ∅ ∅ []) (pool_sources members high).
Definition rebalance_pool (pool : PoolConfig) : list RMove * list Held :=
  match high_watermark pool, low_watermark pool with
  | Some high, Some low =>
      let hold why := ([], [{| held_pool := pool_name pool; held_why := why |}]) in
      if negb (valid_marks high low) then
        hold ("watermarks low " +:+ f64_show low +:+ " / high " +:+ f64_show high +:+ ": need 0 ≤ low < high ≤ 1")
      else
        match find_first (λ n, negb (healthy (status n))) (pool_members pool) with
        | Some down => hold ("node " +:+ nc_name (config down) +:+ " is unreachable — recovery comes before rebalancing")
        | None =>
            if (u32_saturating_sub (max_moves pool) (in_flight pool) =? 0)%Z then
              hold (pretty (in_flight pool) +:+ " move(s) already in flight (max_moves " +:+ pretty (max_moves pool) +:+ ")")
            else
              match pool_sources (pool_members pool) high with
              | [] => ([], [])
              | _ => (r_moves (pool_pass pool high low), [])
              end
        end
  | _, _ => ([], [])
  end.
(** After the pool's loop: no move of a pool of that name so far. *)
Definition rebalance_step (out : RPlan) (pool : PoolConfig) : RPlan :=
  let '(ms, hs) := rebalance_pool pool in
  let ms := (moves out ++ ms)%list in
  let reached := match high_watermark pool, low_watermark pool with
                 | Some high, Some low =>
                     match hs, pool_sources (pool_members pool) high with [], _ :: _ => true | _, _ => false end
                 | _, _ => false
                 end in
  let hs := if reached && forallb (λ m, mv_pool m != pool_name pool) ms
            then [{| held_pool := pool_name pool;
                     held_why := "nodes above high " +:+ map_or "" f64_show (high_watermark pool)
                       +:+ ", but no leg can move to a node below low " +:+ map_or "" f64_show (low_watermark pool)
                       +:+ " that stays under high" |}]
            else hs in
  {| moves := ms; held := (held out ++ hs)%list |}.
Definition rebalance_plan (pools : list PoolConfig) : RPlan := foldl rebalance_step (MkRPlan [] []) pools.
End plan.

Section run.
Context {J : Type} `{Json J} `{HttpShow} `{FloatShow}.
Context `{Deserialize J EngineVolume} `{Deserialize J Slab} `{Deserialize J Discovery}.
Context (cfg : Config) (engine_token : NodeConfig → option string) (admin_credential : string → option string).

Definition rebalance_event (subj : string) (sev : Severity) (msg : string) : handler J unit := event_of "rebalance" subj sev msg.
Definition move_message (m : RMove) : string :=
  mv_volume m +:+ ": rebalance in pool " +:+ mv_pool m +:+ ": moving its leg from " +:+ mv_from m +:+ " ("
  +:+ pct_show (from_used m) +:+ "% used) to " +:+ mv_to m +:+ " (" +:+ pct_show (to_used m) +:+ "% used)".
Definition rebalance_move (fuel : nat) (now : time) (m : RMove) : handler J unit :=
  rebalance_event (mv_volume m) Info (move_message m) ;!
  let! r := start_replacement cfg engine_token admin_credential fuel (mv_volume m) (mv_from m) (Some (mv_to m)) "rebalance" in
  match r with
  | Ok _ => Ret tt
  | Err e =>
      writes (λ s, s <| fed ::= λ fd, update_volume fd (mv_volume m) (λ v,
        v <| next_releg_after := Some (now + secs (cooldown_secs (recovery cfg)))%Z |>) |>) ;!
      invoke Persist ;!
      rebalance_event (mv_volume m) Warning (mv_volume m +:+ ": rebalance move " +:+ mv_from m +:+ " → " +:+ mv_to m
        +:+ " did not start, retry in " +:+ pretty (cooldown_secs (recovery cfg)) +:+ "s: " +:+ err_text e)
  end.
Definition rebalance_run (fuel : nat) (now : time) : handler J unit :=
  let! act := reads (recovery_active cfg) in
  if negb act || forallb (λ p, is_none (high_watermark p)) (pools cfg) then Ret tt
  else
    let! p := reads (λ s, rebalance_plan (fed s) (rungs cfg) (io_weight cfg) (busy s) now (pools cfg)) in
    for_each (rebalance_move fuel now) (moves p).
End run.

Local Close Scope string_scope.

(** ** Facts: a pass *)

Section facts.
Context (fed : FedState) (rungs : list string) (io_weight : f64) (busy : string → bool) (now : time).
Abbreviation propose := (propose fed rungs io_weight).
Abbreviation pool_pass := (pool_pass fed rungs io_weight busy now).

(** What was promised to a node by moves already proposed. *)
Definition promised_by (ms : list RMove) (to : string) : Z :=
  foldl (λ z m, if mv_to m == to then u64_add z (map_or 0%Z size_bytes (volumes fed !! mv_volume m)) else z) 0%Z ms.

(** The used fraction of a node that says how big it is. *)
Abbreviation used_fraction n := (fsub f1 (fdiv (of_u64 (free_bytes (status n))) (of_u64 (total_bytes (status n))))).

(** A move the rules of the pool allow, after the moves [before]: [src] is
    used above [high], [dst] below [low], and with the leg and what the moves
    before promised it, [dst] is used at most [high]. *)
Record allowed (pool : PoolConfig) (high low : f64) (before : list RMove) (m : RMove) : Prop := {
  al_source : ∃ src, nodes fed !! mv_from m = Some src ∧ matches (pool_selector pool) (config src) = true
                ∧ total_bytes (status src) ≠ 0%Z ∧ flt high (used_fraction src) = true;
  al_volume : ∃ v, volumes fed !! mv_volume m = Some v ∧ vol_pool v = Some (pool_name pool)
                ∧ assembly v = Assembled ∧ fenced v = false ∧ replacing v = None ∧ dual_attach v = None
                ∧ migration v = None ∧ busy (mv_volume m) = false ∧ head v ≠ Some (mv_from m)
                ∧ (∀ t, next_releg_after v = Some t → (t ≤ now)%Z)
                ∧ (∃ l, l ∈ legs v ∧ leg_node l = mv_from m ∧ leg_state l = Created)
                ∧ ∃ dst, nodes fed !! mv_to m = Some dst ∧ matches (pool_selector pool) (config dst) = true
                    ∧ healthy (status dst) = true ∧ (size_bytes v ≤ free_bytes (status dst))%Z
                    ∧ (∀ l, l ∈ legs v → leg_node l ≠ mv_to m)
                    ∧ (∀ l ln, l ∈ legs v → leg_node l ≠ mv_from m → nodes fed !! leg_node l = Some ln →
                         domain_at (labels ln) rungs (rung v) ≠ domain_at (labels dst) rungs (rung v))
                    ∧ (0 < total_bytes (status dst))%Z ∧ flt (used_fraction dst) low = true
                    ∧ fle (fdiv (fadd (of_u64 (total_bytes (status dst)
                                              - Z.min (free_bytes (status dst)) (total_bytes (status dst))))
                                     (of_u64 (u64_add (promised_by before (mv_to m)) (size_bytes v))))
                                (of_u64 (total_bytes (status dst)))) high = true;
  al_once : mv_volume m ∉ map mv_volume before;
}.

Context (Hnodes : ∀ k n, nodes fed !! k = Some n → nc_name (config n) = k).
Context (Hvols : ∀ k v, volumes fed !! k = Some v → name v = k).
Context (Hsize : (Z.of_nat (size (nodes fed)) ≤ u32_max)%Z).

(** What holds of a pass: every move was allowed when it was proposed, and
    the room is what is left. *)
Record pass_ok (pool : PoolConfig) (high low : f64) (room : Z) (st : RPass) : Prop := {
  po_moves : ∀ before m after, r_moves st = before ++ m :: after → allowed pool high low before m;
  po_promised : ∀ to, unwrap_or 0%Z (promised st !! to) = promised_by (r_moves st) to;
  po_moved : ∀ nm, nm ∈ moved_volumes st ↔ nm ∈ map mv_volume (r_moves st);
  po_room : (r_room st = room - Z.of_nat (length (r_moves st)) ∧ 0 ≤ r_room st)%Z;
}.

Lemma pool_member_named pool n : n ∈ pool_members fed pool → nodes fed !! nc_name (config n) = Some n.
Proof using Hnodes.
  unfold pool_members. rewrite elem_of_filterb, elem_of_bt_values. intros [[k Hk] _]. by rewrite (Hnodes _ _ Hk).
Qed.

Lemma pool_member_matches pool n :
  n ∈ pool_members fed pool ↔ matches (pool_selector pool) (config n) = true ∧ nodes fed !! nc_name (config n) = Some n.
Proof using Hnodes.
  split; [intros Hn; split; [|by apply (pool_member_named pool)]|intros [Hm Hn]];
    unfold pool_members in *; rewrite elem_of_filterb, elem_of_bt_values in *; [tauto|eauto].
Qed.

(** Above a watermark, a node has said how big it is. *)
Lemma used_above n high :
  fle f0 high = true → fgt (used n) high = true →
  total_bytes (status n) ≠ 0%Z ∧ flt high (used_fraction n) = true.
Proof using.
  unfold used, fgt. destruct (Z.eqb_spec (total_bytes (status n)) 0) as [_|Hne]; [|done].
  intros Hle Hlt. by rewrite (fle_not_flt _ _ Hle) in Hlt.
Qed.

Lemma elem_of_move_candidates pool high low prom src v c :
  c ∈ move_candidates fed rungs (pool_members fed pool) high low prom src v →
  ∃ n, nodes fed !! cand_name c = Some n ∧ c = candidate_of n ∧ n ∈ pool_members fed pool ∧ healthy (status n) = true
    ∧ (∀ l, l ∈ legs v → leg_node l ≠ cand_name c)
    ∧ (∀ l ln, l ∈ legs v → leg_node l ≠ nc_name (config src) → nodes fed !! leg_node l = Some ln →
         domain_at (labels ln) rungs (rung v) ≠ domain_at (labels n) rungs (rung v))
    ∧ takes high low (unwrap_or 0%Z (prom !! cand_name c)) (size_bytes v) c = true.
Proof using Hnodes.
  unfold move_candidates. rewrite !elem_of_filterb, elem_of_move_targets, existsb_true.
  intros [[(k & n & Hk & -> & Hh & Hl & Hd) (m & Hm & E%eqb_prop)] Ht].
  pose proof (Hnodes _ _ Hk) as Hn. simpl in E, Ht |- *. rewrite Hn in *.
  assert (m = n) as -> by (apply pool_member_named in Hm; rewrite E, Hk in Hm; congruence).
  exists n. done.
Qed.

Lemma move_candidates_length members high low prom src v :
  (length (move_candidates fed rungs members high low prom src v) ≤ size (nodes fed))%nat.
Proof. unfold move_candidates. do 2 (etrans; [apply filterb_length|]). apply move_targets_length. Qed.

Lemma promised_by_snoc ms m to :
  promised_by (ms ++ [m]) to =
    (if mv_to m == to then u64_add (promised_by ms to) (map_or 0%Z size_bytes (volumes fed !! mv_volume m))
     else promised_by ms to).
Proof. unfold promised_by. by rewrite foldl_app. Qed.

Lemma snoc_split {A} (l before after : list A) (x m : A) :
  l ++ [x] = before ++ m :: after → (l = before ∧ x = m ∧ after = []) ∨ ∃ after', after = after' ++ [x] ∧ l = before ++ m :: after'.
Proof.
  intros E. destruct after as [|y after' _] using rev_ind.
  - apply app_inj_tail in E as [-> ->]. by left.
  - right. exists after'. rewrite app_comm_cons, app_assoc in E. by apply app_inj_tail in E as [-> ->].
Qed.

Lemma propose_ok pool high low room src v st :
  fle f0 high = true → src ∈ pool_members fed pool → fgt (used src) high = true → v ∈ source_volumes fed busy now pool src →
  pass_ok pool high low room st → pass_ok pool high low room (propose pool (pool_members fed pool) high low src st v).
Proof using Hnodes Hvols Hsize.
  intros Hhigh Hsrc Hused Hv Hst. unfold Rebalance.propose.
  destruct (r_room st =? 0)%Z eqn:Er; [done|]. apply Z.eqb_neq in Er.
  case_bool_decide as Hm; [done|].
  pose proof (plan_one (move_candidates fed rungs (pool_members fed pool) high low (promised st) src v) rungs (rung v)
    (size_bytes v) io_weight) as Hp.
  pose proof (move_candidates_length (pool_members fed pool) high low (promised st) src v) as Hlen.
  specialize (Hp ltac:(lia)). destruct (plan _ _ _ _ _ _) as [pick|e]; [|done].
  destruct Hp as (c & -> & Hc & Hfit). apply elem_of_move_candidates in Hc as (n & Hk & -> & Hmem & Hh & Hl & Hd & Ht).
  assert (v ∈ List.filter (movable busy now pool src) (bt_values (volumes fed))) as Hv2.
  { unfold source_volumes in Hv. by rewrite sort_by_perm in Hv. }
  apply elem_of_filterb in Hv2 as [[kv Hkv]%elem_of_bt_values Hmv]. pose proof (Hvols _ _ Hkv) as Hname. subst kv.
  destruct Hst as [Hms Hpr Hmo [Hro Hro2]]. cbn [unwrap_or lookup list_lookup].
  set (mv := {| mv_pool := _ |}).
  assert (volumes fed !! mv_volume mv = Some v) as Hvol by done.
  assert (allowed pool high low (r_moves st) mv) as Hal.
  { unfold movable, in_this_pool in Hmv. rewrite !andb_true_iff, !eqb_true, neqb_true, existsb_true, !negb_true_iff,
      !is_none_true in Hmv. destruct Hmv as (((((Hp & Ha) & (((Hf & Hr) & Hd1) & Hmi)) & (Hb & Hafter)) & Hhd) & (l & Hin & Hleg)).
    apply andb_true_iff in Hleg as [Hln%eqb_prop Hls%eqb_prop]. split; simpl.
    - apply pool_member_matches in Hsrc as [Hsm Hsn]. exists src. split; [done|]. split; [done|]. by apply used_above.
    - apply pool_member_matches in Hmem as [Hdm _]. unfold takes in Ht. simpl in Ht.
      rewrite !andb_true_iff, Z.ltb_lt, Hpr in Ht. destruct Ht as (Ht0 & Htl & Hth).
      exists v. repeat (split; [done|]). split; [|split; [by exists l|]].
      { intros t E. rewrite E in Hafter. simpl in Hafter. lia. }
      exists n. by repeat (split; [done|]).
    - by rewrite <-Hmo. }
  split; simpl.
  - intros before m after E. apply snoc_split in E as [(<- & <- & _)|(after' & _ & E)]; [done|by eapply Hms].
  - intros to. rewrite promised_by_snoc, Hvol. simpl. destruct (nc_name (config n) == to) eqn:E.
    + apply eqb_prop in E as <-. rewrite lookup_insert_eq. simpl. by rewrite Hpr.
    + apply eqb_nprop in E. rewrite lookup_insert_ne by done. apply Hpr.
  - intros nm. rewrite map_app, elem_of_app, elem_of_union, elem_of_singleton, Hmo. cbn [map].
    rewrite list_elem_of_singleton. simpl. tauto.
  - rewrite length_app. simpl. lia.
Qed.

Lemma pool_pass_ok pool high low :
  fle f0 high = true →
  pass_ok pool high low (u32_saturating_sub (max_moves pool) (in_flight fed pool)) (pool_pass pool high low).
Proof using Hnodes Hvols Hsize.
  intros Hhigh. unfold Rebalance.pool_pass. set (room := u32_saturating_sub _ _).
  assert (∀ l st, (∀ src, src ∈ l → src ∈ pool_members fed pool ∧ fgt (used src) high = true) →
    pass_ok pool high low room st →
    pass_ok pool high low room (foldl (propose_source fed rungs io_weight busy now pool (pool_members fed pool) high low) st l)) as Hl.
  { induction l as [|src l IH]; intros st Hin Hst; [done|]. cbn [foldl]. apply IH; [intros; apply Hin; by right|].
    destruct (Hin src) as [Hsrc Hused]; [by left|]. unfold propose_source.
    assert (∀ vs st, (∀ v, v ∈ vs → v ∈ source_volumes fed busy now pool src) → pass_ok pool high low room st →
      pass_ok pool high low room (foldl (propose pool (pool_members fed pool) high low src) st vs)) as Hv; [|by apply Hv].
    clear st Hst. induction vs as [|v vs IHv]; intros st Hin' Hst; [done|]. cbn [foldl].
    apply IHv; [intros; apply Hin'; by right|]. apply propose_ok; [done..|apply Hin'; by left|done]. }
  apply Hl.
  - intros src. unfold pool_sources. rewrite sort_by_perm, elem_of_filterb. done.
  - split; simpl.
    + intros before m after E. by destruct before.
    + intros to. by rewrite lookup_empty.
    + intros nm. rewrite elem_of_empty, elem_of_nil. done.
    + unfold room, u32_saturating_sub. lia.
Qed.
End facts.

(** The moves of a pool in flight, counted in 32 bits. *)
Definition moves_in_flight (fd : FedState) (pool : PoolConfig) : Z :=
  (Z.of_nat (length (List.filter (λ v, bool_decide (vol_pool v = Some (pool_name pool) ∧ replacing v ≠ None))
                       (bt_values (volumes fd)))) mod 2 ^ 32)%Z.

Lemma in_flight_moving fd pool : in_flight fd pool = moves_in_flight fd pool.
Proof.
  unfold in_flight, moves_in_flight, as_u32. do 3 f_equal. apply List.filter_ext. intros v.
  apply eq_true_iff_eq. unfold in_this_pool. rewrite andb_true_iff, eqb_true, bool_decide_eq_true.
  destruct (replacing v); simpl; naive_solver.
Qed.

Lemma valid_marks_order high low :
  valid_marks high low = true → fle f0 low = true ∧ flt low high = true ∧ fle high f1 = true.
Proof.
  unfold valid_marks. rewrite !andb_true_iff, negb_true_iff. intros (((? & ?) & (? & ?)) & Hge).
  split; [done|]. split; [|done]. apply not_fle_flt; [by eapply fle_not_nan..|done].
Qed.

(** C24: What a rebalance proposes for a pool. None unless the pool has two
    watermarks, 0 ≤ low < high ≤ 1, nor with a node of the pool that does not
    answer, or with as many moves in flight as the pool allows. Otherwise at
    most as many moves as may still be in flight, no volume twice, and each
    one allowed: from a node of the pool used above the high watermark, a
    created leg (never the head's own) of an idle, whole volume of the pool
    that is not told to wait, to a node of the pool that answers, is used
    below the low watermark and stays at or under the high one with this leg
    and every leg promised to it before, has room, holds no leg of the volume
    and shares no domain with the legs that stay. (Used is what the status
    says, in the program's own 64-bit floats.) *)
Theorem rebalance_sound `{FloatShow} fed rungs io_weight busy now pool
  (Hnodes : ∀ k n, nodes fed !! k = Some n → nc_name (config n) = k)
  (Hvols : ∀ k v, volumes fed !! k = Some v → name v = k)
  (Hsize : (Z.of_nat (size (nodes fed)) ≤ u32_max)%Z) :
  let ms := (rebalance_pool fed rungs io_weight busy now pool).1 in
  NoDup (map mv_volume ms)
  ∧ (Z.of_nat (length ms) ≤ Z.max (max_moves pool - moves_in_flight fed pool) 0)%Z
  ∧ (ms ≠ [] → ∃ high low, high_watermark pool = Some high ∧ low_watermark pool = Some low
       ∧ fle f0 low = true ∧ flt low high = true ∧ fle high f1 = true
       ∧ (∀ k n, nodes fed !! k = Some n → matches (pool_selector pool) (config n) = true → healthy (status n) = true)
       ∧ ∀ before m after, ms = before ++ m :: after → allowed fed rungs busy now pool high low before m).
Proof.
  unfold rebalance_pool.
  destruct (high_watermark pool) as [high|]; [|by split; [constructor|simpl; split; [lia|]]].
  destruct (low_watermark pool) as [low|]; [|by split; [constructor|simpl; split; [lia|]]].
  destruct (valid_marks high low) eqn:Hv; simpl negb; cbn iota; [|by split; [constructor|simpl; split; [lia|]]].
  pose proof (valid_marks_order high low Hv) as (Hlow & Hlt & Hhigh).
  assert (fle f0 high = true) as H0 by (unfold valid_marks in Hv; by rewrite !andb_true_iff in Hv; destruct Hv as ((_ & ? & _) & _)).
  destruct (find_first _ (pool_members fed pool)) as [d|] eqn:Hd; [by split; [constructor|simpl; split; [lia|]]|].
  destruct (_ =? 0)%Z; [by split; [constructor|simpl; split; [lia|]]|].
  destruct (pool_sources _ _) as [|x l]; [by split; [constructor|simpl; split; [lia|]]|].
  pose proof (pool_pass_ok fed rungs io_weight busy now Hnodes Hvols Hsize pool high low H0) as [Hms _ _ [Hro Hro2]].
  cbn [fst]. split; [|split].
  - assert (∀ ms before, (∀ b m a, ms = b ++ m :: a → mv_volume m ∉ map mv_volume (before ++ b)) → NoDup (map mv_volume ms)) as Hnd.
    { clear. induction ms as [|m ms IH]; intros before Hall; [constructor|]. cbn [map]. constructor.
      - intros (m' & E & (i & j & Hij)%list_elem_of_split)%list_elem_of_fmap. subst ms.
        apply (Hall (m :: i) m' j); [done|]. rewrite <-E. apply list_elem_of_fmap_2, elem_of_app. right. by left.
      - apply (IH (before ++ [m])). intros b m' a ->. rewrite <-app_assoc. by apply (Hall (m :: b) m' a). }
    apply (Hnd _ []). intros b m a E. simpl. by eapply al_once, Hms.
  - rewrite <-in_flight_moving. unfold u32_saturating_sub in Hro. lia.
  - intros _. exists high, low. repeat (split; [done|]). split; [|done].
    intros k n Hn Hm. apply negb_false_iff, (proj1 (find_first_None _ _) Hd).
    apply pool_member_matches; [done|]. by rewrite (Hnodes _ _ Hn).
Qed.

(** ** An example: one node above 90%, one below 50% *)

Section example.
Definition rb_show : FloatShow := {| f64_show _ := "?"; pct_show _ := "?" |}%string.
Definition rb_node (n : string) (free : Z) : Node :=
  MkNode (MkNodeConfig n n None None None ∅ None)
    ((NodeStatus_new Static) <| healthy := true |> <| total_bytes := 1000%Z |> <| free_bytes := free |>).
Definition rb_volume : DistVolume :=
  (new_volume "db"%string 20 (Some "std"%string) 2 "node"%string
     [new_leg "n1" (Some "1") None; new_leg "n2" (Some "2") None]%string 0 [] None None)
    <| assembly := Assembled |> <| head := Some "n1"%string |>.
Definition rb_fed : FedState :=
  FedState_default <| nodes := {["n1" := rb_node "n1" 500; "n2" := rb_node "n2" 50; "n3" := rb_node "n3" 900]} |>%string
                   <| volumes := {["db"%string := rb_volume]} |>.
Definition rb_pool : PoolConfig :=
  MkPoolConfig "std"%string Selector_default 2 "node"%string
    (Some (fdiv (of_u64 9) (of_u64 10))) (Some (fdiv (of_u64 5) (of_u64 10))) 1.
End example.

Lemma rebalance_sound_witness :
  let _ := rb_show in
  let ms := (rebalance_pool rb_fed FederationConfig_default f0 (λ _, false) 0 rb_pool).1 in
  map (λ m, (mv_volume m, mv_from m, mv_to m)) ms = [("db", "n2", "n3")]%string
  ∧ NoDup (map mv_volume ms)
  ∧ (Z.of_nat (length ms) ≤ Z.max (max_moves rb_pool - moves_in_flight rb_fed rb_pool) 0)%Z.
Proof.
  intros S ms. split; [vm_compute; reflexivity|].
  assert (∀ k n, nodes rb_fed !! k = Some n → nc_name (config n) = k) as Hnodes.
  { intros k n Hk. simpl in Hk.
    repeat (apply lookup_insert_Some in Hk as [[<- <-]|[_ Hk]]; [reflexivity|]).
    apply lookup_singleton_Some in Hk as [<- <-]. reflexivity. }
  assert (∀ k v, volumes rb_fed !! k = Some v → name v = k) as Hvols.
  { intros k v Hk. simpl in Hk. apply lookup_singleton_Some in Hk as [<- <-]. reflexivity. }
  assert (Z.of_nat (size (nodes rb_fed)) ≤ u32_max)%Z as Hsize by (vm_compute; discriminate).
  destruct (rebalance_sound rb_fed FederationConfig_default f0 (λ _, false) 0 rb_pool Hnodes Hvols Hsize) as (H1 & H2 & _).
  split; [exact H1|exact H2].
Defined.
