(* ===== verification/Expand.v ===== *)
(** * Expanding a volume (src/expand.rs)

    Growing a volume bottom up: every leg on its engine, the head's array,
    the served volume, the record. The target is recorded first, so a retry
    resumes. Shown, whatever the engines answer: the recorded size changes
    only on a volume fit to grow and when every step below succeeded (each
    leg's engine took the expand, the array the room, the served volume was
    read back at the size), then to the target, never below what it was; a
    failure leaves why and where to resume; and no other volume and nothing
    else of the record is touched. A leg is not read back. *)

From S2P Require Import Prelude F64 Config Model Placement Events Refusal Async Traced Json Inventory Sync.
From S2P Require Import Recovery App Engine Publish Replace Fencing.
From stdpp Require Import options.

Local Open Scope string_scope.

(** [refuse]: why [vol] cannot be expanded to [to] now. *)
Definition refuse (fed : FedState) (vol : DistVolume) (to : Z) : option Sync.Refusal :=
  let nm := name vol in
  let c m := Some (Conflict m) in
  if (to <? size_bytes vol)%Z then
    c (nm +:+ ": a volume grows only; it is " +:+ pretty (size_bytes vol) +:+ " bytes, not " +:+ pretty to
       +:+ " (a smaller one is a copy, not a resize)")
  else if fenced vol then c (nm +:+ ": fenced — promote a head first")
  else if is_some (replacing vol) then c (nm +:+ ": a leg replacement is in flight")
  else if is_some (dual_attach vol) then c (nm +:+ ": a dual-attach window is open")
  else if is_some (migration vol) then c (nm +:+ ": a tier migration is in flight")
  else if ex_state (export vol) == Revoking then c (nm +:+ ": being deleted")
  else if gone (export vol) then c (nm +:+ ": its served volume is gone (#40); recreate it first")
  else
    let legs_ready :=
      match find_first (λ l, (leg_state l != Created) || is_none (leg_volume_id l)) (legs vol) with
      | Some l => c (nm +:+ ": leg on " +:+ leg_node l +:+ " is " +:+ LegState_debug (leg_state l))
      | None =>
          match find_first (λ n, negb (node_healthy fed n)) (map leg_node (legs vol) ++ option_list (head vol))%list with
          | Some n => c (nm +:+ ": " +:+ n +:+ " is not answering")
          | None => None
          end
      end in
    match assembly vol with
    | SingleLeg | Assembled => legs_ready
    | Degraded => c (nm +:+ ": degraded — a lost leg cannot grow; expand once it is replaced")
    | PendingEngineSupport => c (nm +:+ ": not assembled yet")
    | Clone =>
        match opt_filter (λ p, is_none (clone_of p)) (parent_of fed vol) with
        | None => c (nm +:+ ": its parent volume is gone")
        | Some p =>
            if (size_bytes p <? to)%Z then
              c (nm +:+ ": a clone lives on " +:+ name p +:+ "'s array (" +:+ pretty (size_bytes p) +:+ " bytes); expand "
                 +:+ name p +:+ " first")
            else None
        end
    end.

Section expand.
Context {J : Type} `{Json J} `{HttpShow}.
Context `{Deserialize J EngineVolume} `{Deserialize J Slab} `{Deserialize J Discovery}.
Context (engine_token : NodeConfig → option string) (admin_credential : string → option string).
Abbreviation call A := (handler J (result A Sync.Refusal)).

Definition expand_event (subj : string) (sev : Severity) (msg : string) : handler J unit := event_of "expand" subj sev msg.
Definition node_engine (fd : FedState) (node : string) : result Engine Sync.Refusal :=
  ok_or (fmap (M:=option) (engine_for engine_token admin_credential) (nodes fd !! node))
    (Conflict ("node " +:+ debug_str node +:+ " not in registry")).

(** What one try works on, read under the lock. *)
Record XPlan := MkXPlan {
  x_vol : DistVolume;
  x_legs : list (string * Engine * string);
  x_head : option (string * Engine * string);
  x_served : option (string * Engine * string * string * bool);
}.

Fixpoint leg_calls (fd : FedState) (ls : list Leg) : result (list (string * Engine * string)) Sync.Refusal :=
  match ls with
  | [] => Ok []
  | l :: ls =>
      let? e := node_engine fd (leg_node l) in
      let? rest := leg_calls fd ls in
      Ok ((leg_node l, e, unwrap_or "" (leg_volume_id l)) :: rest)
  end.
Definition head_call (fd : FedState) (nm : string) (vol : DistVolume) : result (option (string * Engine * string)) Sync.Refusal :=
  if assembly vol == Assembled then
    match head vol, array_id vol with
    | Some h, Some a => let? e := node_engine fd h in Ok (Some (h, e, a))
    | _, _ => Err (Conflict (nm +:+ ": no head array recorded"))
    end
  else Ok None.
Definition served_call (fd : FedState) (vol : DistVolume)
    : result (option (string * Engine * string * string * bool)) Sync.Refusal :=
  match ex_node (export vol), ex_volume_id (export vol) with
  | Some n, Some id =>
      let? e := node_engine fd n in
      Ok (Some (n, e, id, unwrap_or (served_name vol) (local_id (export vol)), adopted (export vol)))
  | _, _ => Ok None
  end.

(** The target goes on the record. *)
Definition aim (to : Z) (now : time) (v : DistVolume) : DistVolume :=
  v <| expanding := Some match expanding v with
    | Some x => x <| to_bytes := to |> <| exp_message := None |>
    | None => {| to_bytes := to; exp_started_at := now; array_bytes_before := None; array_grown := false;
                 slab_short := None; exp_message := None |}
    end |>.
(** The lock section: [Ok None], the volume is that size already. *)
Definition expand_record (nm : string) (to : Z) (now : time) (s : App) : App * result (option XPlan) Sync.Refusal :=
  match volumes (fed s) !! nm with
  | None => (s, Err (NotFound ("volume " +:+ debug_str nm)))
  | Some vol =>
      let to := map_or to (λ x, Z.max to (to_bytes x)) (expanding vol) in
      if (to =? size_bytes vol)%Z && is_none (expanding vol) then (s, Ok None)
      else
        match refuse (fed s) vol to with
        | Some r => (s, Err r)
        | None =>
            match (let? ls := leg_calls (fed s) (legs vol) in
                   let? h := head_call (fed s) nm vol in
                   let? sv := served_call (fed s) vol in
                   Ok {| x_vol := aim to now vol; x_legs := ls; x_head := h; x_served := sv |}) with
            | Err e => (s, Err e)
            | Ok p => (s <| fed ::= λ fd, bump (update_volume fd nm (aim to now)) |>, Ok (Some p))
            end
        end
  end.

(** [record]: nothing when the expansion is gone. *)
Definition note_expansion (nm : string) (f : Expansion → Expansion) : handler J unit :=
  let! there := atomic (λ s, match volumes (fed s) !! nm ≫= expanding with
    | None => (s, false)
    | Some _ => (s <| fed ::= λ fd, bump (update_volume fd nm (λ v,
                   v <| expanding ::= fmap (M:=option) f |>)) |>, true)
    end) in
  if there then invoke Persist else Ret tt.

Definition array_bytes (e : Engine) (array : string) : handler J (result Z EngineError) :=
  let!? a := get_array_call e array in
  Ret (ok_or (get_u64 "capacity_bytes" a) (anyhow ("array " +:+ array +:+ ": no capacity_bytes in " +:+ j_show a))).

Definition expand_leg (nm : string) (to : Z) (_ : unit) (l : string * Engine * string) : call unit :=
  let '(node, e, id) := l in
  let! r := expand_v1 e id to in
  Ret (match r with
       | Ok _ => Ok tt
       | Err x => Err (Upstream (nm +:+ ": leg on " +:+ node +:+ ": expand: " +:+ err_text x))
       end).

(** The array's size before this expansion. *)
Definition bytes_before (nm : string) (x : Expansion) (node : string) (e : Engine) (array : string) : call Z :=
  match array_bytes_before x with
  | Some b => Ret (Ok b)
  | None =>
      let! r := array_bytes e array in
      match r with
      | Err err => Ret (Err (Upstream (nm +:+ ": head " +:+ node +:+ ": " +:+ err_text err)))
      | Ok b => note_expansion nm (λ x, x <| array_bytes_before := Some b |>) ;! Ret (Ok b)
      end
  end.
(** Grow it: what its slab lacks, if the engine says so. *)
Definition grow (nm node : string) (e : Engine) (array : string) (before : Z) : call (option string) :=
  let! r := grow_array e array in
  match r with
  | Ok r => Ret (Ok (get_str "slab_short" r))
  | Err err =>
      if status_of err == Some 409%Z then
        let! now := array_bytes e array in
        let now := match now with Ok n => n | Err _ => before end in
        if (now <=? before)%Z then Ret (Err (Conflict (nm +:+ ": head " +:+ node +:+ ": grow array: " +:+ err_text err)))
        else Ret (Ok None)
      else Ret (Err (Upstream (nm +:+ ": head " +:+ node +:+ ": grow array: " +:+ err_text err)))
  end.
Definition expand_array (nm : string) (x : Expansion) (h : option (string * Engine * string)) : call unit :=
  match h, array_grown x with
  | Some (node, e, array), false =>
      let!? before := bytes_before nm x node e array in
      let!? short := grow nm node e array before in
      note_expansion nm (λ x, x <| array_grown := true |> <| slab_short := short |>) ;!
      match short with
      | None => Ret (Ok tt)
      | Some short =>
          expand_event nm Error (nm +:+ ": array grown on " +:+ node +:+ ", its slab short: " +:+ short) ;!
          Ret (Err (Conflict (nm +:+ ": the head array grew but its slab cannot reach the new room (" +:+ short
                     +:+ "); its volumes need a new array")))
      end
  | _, _ => Ret (Ok tt)
  end.
Definition expand_served (nm : string) (to : Z) (sv : option (string * Engine * string * string * bool)) : call unit :=
  match sv with
  | None => Ret (Ok tt)
  | Some (node, e, id, engine_name, adopted_) =>
      let! grown := (if adopted_ then resize_any e id to else expand_v1 e id to) in
      match grown with
      | Err x => Ret (Err (Upstream (nm +:+ ": served volume on " +:+ node +:+ ": expand: " +:+ err_text x)))
      | Ok _ =>
          let! size := served_size e engine_name in
          Ret (match size with
               | Err x => Err (Upstream (nm +:+ ": served volume on " +:+ node +:+ ": " +:+ err_text x))
               | Ok size =>
                   if (size <? to)%Z then
                     Err (Upstream (nm +:+ ": served volume on " +:+ node +:+ " is " +:+ pretty size
                          +:+ " bytes after its expand to " +:+ pretty to +:+ ": the engine did not grow it"))
                   else Ok tt
               end)
      end
  end.
(** The record says the new size: the size it said before. *)
Definition expanded (to : Z) (v : DistVolume) : DistVolume := v <| size_bytes := to |> <| expanding := None |>.
Definition record_expanded (nm : string) (to : Z) (s : App) : App * result Z Sync.Refusal :=
  match volumes (fed s) !! nm with
  | None => (s, Err (NotFound ("volume " +:+ debug_str nm)))
  | Some v => (s <| fed ::= λ fd, bump (update_volume fd nm (expanded to)) |>, Ok (size_bytes v))
  end.

Definition expand_steps (nm : string) (p : XPlan) (x : Expansion) : call unit :=
  let to := to_bytes x in
  match slab_short x with
  | Some short => Ret (Err (Conflict (nm +:+ ": the head array's slab cannot reach the new room (" +:+ short
                     +:+ "); its volumes need a new array")))
  | None =>
      let!? _ := for_try (expand_leg nm to) tt (x_legs p) in
      let!? _ := expand_array nm x (x_head p) in
      let!? _ := expand_served nm to (x_served p) in
      let!? from := atomic (record_expanded nm to) in
      publish_change ;!
      expand_event nm Info (nm +:+ ": expanded " +:+ pretty from +:+ " → " +:+ pretty to +:+ " bytes") ;!
      Ret (Ok tt)
  end.
Definition expand_claimed (nm : string) (to : Z) : call unit :=
  let! now := invoke Now in
  let! plan := atomic (expand_record nm to now) in
  match plan with
  | Err e => Ret (Err e)
  | Ok None => Ret (Ok tt)
  | Ok (Some p) =>
      publish_change ;!
      match expanding (x_vol p) with
      | Some x => expand_steps nm p x
      | None => Ret (Ok tt)
      end
  end.

(** [expand]: the volume as the API shows it. *)
Definition note_failure (nm : string) (e : Sync.Refusal) : handler J unit :=
  writes (λ s, match volumes (fed s) !! nm ≫= expanding with
    | None => s
    | Some _ => s <| fed ::= λ fd, bump (update_volume fd nm (λ v,
        v <| expanding ::= fmap (M:=option) (λ x, x <| exp_message := Some (Refusal_show e) |>) |>)) |>
    end) ;!
  invoke Persist.
Definition expand (nm : string) (to : Z) : call (option View) :=
  let! claimed := claim nm in
  if negb claimed then Ret (Err (Conflict (nm +:+ ": busy — an assembly, leg move or expand is in flight")))
  else
    let! r := expand_claimed nm to in
    release nm ;!
    match r with
    | Err e => note_failure nm e ;! Ret (Err e)
    | Ok _ => reads (λ s, Ok (fmap (M:=option) (view_in (fed s) (heads s)) (volumes (fed s) !! nm)))
    end.
End expand.

(** ** What an expand does *)

Lemma alter_twice {A} (f g h : A → A) (m : gmap string A) k :
  (∀ x, f (g x) = h x) → alter f k (alter g k m) = alter h k m.
Proof.
  intros E. apply map_eq. intros k'. rewrite !lookup_alter. destruct (decide (k = k')) as [<-|]; [|done].
  rewrite decide_True by done. destruct (m !! k) as [x|]; [|done]. simpl. by rewrite E.
Qed.

Lemma more_l {A} (l k : list A) : l ⊆ (l ++ k)%list.
Proof. intros x Hx. apply elem_of_app. by left. Qed.
Lemma more_r {A} (l k : list A) : k ⊆ (l ++ k)%list.
Proof. intros x Hx. apply elem_of_app. by right. Qed.
Lemma more_mid {A} (l k e : list A) : k ⊆ (l ++ k ++ e)%list.
Proof. etransitivity; [apply more_l|apply more_r]. Qed.

(** A call that was made and answered, with any bearer and query. *)
Definition answered {J} (h : list (exchange (Call J))) (m : Method) (full_url : string) (body : option J)
    (code : Z) (out : option J) : Prop :=
  ∃ bearer query, Exchange (Http m full_url bearer query body) (Ok (code, out)) ∈ h.

Section facts.
Context {J : Type} `{Json J} `{HttpShow}.
Context `{Deserialize J EngineVolume} `{Deserialize J Slab} `{Deserialize J Discovery}.
Context (engine_token : NodeConfig → option string) (admin_credential : string → option string).
Abbreviation call A := (handler J (result A Sync.Refusal)).
Abbreviation history := (list (exchange (Call J))).
Context {W : Type} (env : ∀ R, Call J R → W → R * W).

(** *** What the engines answered *)

(** A request that succeeded. *)
Definition done_by (h : history) (m : Method) (full_url : string) (body : option J) : Prop :=
  ∃ code out, answered h m full_url body code out ∧ (200 ≤ code ≤ 299)%Z.
(** A field of a document read back. *)
Definition reads_back (h : history) (full_url field : string) (z : Z) : Prop :=
  ∃ code doc, answered h GET full_url None code (Some doc) ∧ ¬ (400 ≤ code ≤ 599)%Z ∧ get_u64 field doc = Some z.

Definition expand_url (u id : string) : string := u +:+ "/v1/volumes/" +:+ id +:+ "/expand".
Definition expand_body (to : Z) : option J := Some (of_object [("size_bytes", of_num to)]).
Definition resize_url (u id : string) : string := u +:+ "/api/v1/volumes/" +:+ id +:+ "/resize".
Definition resize_body (to : Z) : option J := Some (of_object [("new_size", of_str (pretty to))]).
Definition volume_url (u nm : string) : string := u +:+ "/api/v1/volumes/" +:+ nm.
Definition array_url (u a : string) : string := u +:+ "/api/v1/arrays/" +:+ a.
Definition grow_url (u a : string) : string := u +:+ "/api/v1/arrays/" +:+ a +:+ "/grow".

(** The head's array took the room its members grew into: the engine said
    so, or refused a second time what it had done before. *)
Definition took_room (h : history) (u a : string) (before : Z) (short : option string) : Prop :=
  (∃ code out, answered h POST (grow_url u a) None code out ∧ (200 ≤ code ≤ 299)%Z
     ∧ get_str "slab_short" (body_or_null out) = short)
  ∨ (short = None ∧ (∃ out, answered h POST (grow_url u a) None 409 out)
     ∧ ∃ z, reads_back h (array_url u a) "capacity_bytes" z ∧ (before < z)%Z).
(** A volume asked to grow to [to], then read back at least that big. *)
Definition grown_then_read (h : history) (to : Z) (u id nm : string) (adopted : bool) : Prop :=
  ∃ later earlier z, h = (later ++ earlier)%list
    ∧ (if adopted then done_by earlier PATCH (resize_url u id) (resize_body to)
       else done_by earlier POST (expand_url u id) (expand_body to))
    ∧ reads_back later (volume_url u nm) "virtual_size_bytes" z ∧ (to ≤ z)%Z.

Lemma answered_more (h h' : history) m u b code out : h ⊆ h' → answered h m u b code out → answered h' m u b code out.
Proof. intros Hs (t & q & Hin). exists t, q. by apply Hs. Qed.
Lemma done_by_more h h' m u b : h ⊆ h' → done_by h m u b → done_by h' m u b.
Proof. intros Hs (code & out & Ha & Hc). exists code, out. split; [by eapply answered_more|done]. Qed.
Lemma reads_back_more h h' u f z : h ⊆ h' → reads_back h u f z → reads_back h' u f z.
Proof. intros Hs (code & out & Ha & Hc). exists code, out. split; [by eapply answered_more|done]. Qed.
Lemma took_room_more h h' u a b short : h ⊆ h' → took_room h u a b short → took_room h' u a b short.
Proof.
  intros Hs [(code & out & Ha & Hc)|(Hn & [out Ha] & z & Hz & Hb)].
  - left. exists code, out. split; [by eapply answered_more|done].
  - right. split; [done|]. split; [exists out; by eapply answered_more|]. exists z. split; [by eapply reads_back_more|done].
Qed.
Lemma grown_then_read_more h l e to u id nm ad :
  grown_then_read h to u id nm ad → grown_then_read (l ++ h ++ e)%list to u id nm ad.
Proof.
  intros (la & ea & z & -> & Hd & Hz & Ht). exists (l ++ la)%list, (ea ++ e)%list, z. rewrite <- !app_assoc.
  split; [done|]. split; [destruct ad; (eapply done_by_more; [apply more_l|exact Hd])|].
  split; [eapply reads_back_more; [apply more_r|exact Hz]|done].
Qed.

(** What a program does to the records, and what its success tells of the
    exchanges it made. *)
Definition does {A X} (G : relation App) (p : handler J (result A X)) (Q : A → history → Prop) : Prop :=
  ∀ s w, runs (logged env) p (λ r s' w', G s s' ∧ ∃ new, w'.2 = (new ++ w.2)%list ∧ ∀ a, r = Ok a → Q a new) s w.

Section does.
Context (G : relation App) `{!Reflexive G} `{!Transitive G}.
Lemma does_bind {A B X} (p : handler J (result A X)) (k : A → handler J (result B X)) P Q :
  does G p P → (∀ a, does G (k a) (λ b h2, ∀ h1, P a h1 → Q b (h2 ++ h1)%list)) → does G (bind_ok p k) Q.
Proof using Transitive0.
  intros Hp Hk s w. apply runs_bind_ok. eapply runs_mono; [apply Hp|]. intros [a|e] s1 w1 (Hg1 & n1 & E1 & Ha).
  - eapply runs_mono; [apply Hk|]. intros r s2 w2 (Hg2 & n2 & E2 & Hb). split; [by etransitivity|].
    exists (n2 ++ n1)%list. split; [by rewrite E2, E1, app_assoc|]. intros b Er. apply Hb; [done|]. by apply Ha.
  - split; [done|]. exists n1. by split.
Qed.
Lemma does_ret {A X} (r : result A X) (Q : A → history → Prop) : (∀ a, r = Ok a → Q a []) → does G (Ret r) Q.
Proof using Reflexive0. intros Hr s w. apply runs_ret. split; [done|]. exists []. by split. Qed.
Lemma does_mono {A X} (p : handler J (result A X)) (Q Q' : A → history → Prop) :
  does G p Q → (∀ a h, Q a h → Q' a h) → does G p Q'.
Proof.
  intros Hp HQ s w. eapply runs_mono; [apply Hp|]. intros r s1 w1 (Hg & n & E & Ha). split; [exact Hg|].
  exists n. split; [exact E|]. auto.
Qed.
Lemma does_eq {A X} (p : handler J (result A X)) (Q : A → history → Prop) : does eq p Q → does G p Q.
Proof using Reflexive0. intros Hp s w. eapply runs_mono; [apply Hp|]. intros r s1 w1 (-> & Hn). by split. Qed.
(** A program that only has to keep [G]. *)
Lemma does_first {A B X} (p : handler J A) (k : A → handler J (result B X)) (Q : B → history → Prop) :
  guar G p → (∀ a, does G (k a) (λ b h2, ∀ h1, Q b (h2 ++ h1)%list)) → does G (bind p k) Q.
Proof using Reflexive0 Transitive0.
  intros Hp Hk s w. apply runs_bind. eapply runs_mono; [apply runs_and; [by apply (runs_guar (logged env) G)|apply runs_history]|].
  intros a s1 w1 [Hg1 [n1 E1]]. eapply runs_mono; [apply Hk|]. intros r s2 w2 (Hg2 & n2 & E2 & Hb).
  split; [by etransitivity|]. exists (n2 ++ n1)%list. split; [by rewrite E2, E1, app_assoc|]. intros b Er. by apply Hb.
Qed.
Lemma does_for_try {A B X} (body : B → A → handler J (result B X)) (P : A → history → Prop) (l : list A) b :
  (∀ x h h', h ⊆ h' → P x h → P x h') → (∀ b x, does G (body b x) (λ _, P x)) →
  does G (for_try body b l) (λ _ h, Forall (λ x, P x h) l).
Proof using Reflexive0 Transitive0.
  intros HP Hb. revert b. induction l as [|x l IH]; intros b; simpl.
  - apply does_ret. intros. constructor.
  - eapply does_bind; [apply Hb|]. intros b'. eapply does_mono; [apply IH|]. intros u h2 Hl h1 Hx. constructor.
    + exact (HP x _ _ (more_r _ _) Hx).
    + eapply Forall_impl; [exact Hl|]. intros y. exact (HP y _ _ (more_l _ _)).
Qed.
End does.
Abbreviation tells := (does eq).

Lemma send_tells b m e path q body :
  tells (send (J:=J) b m e path q body) (λ r h, answered h m (url e +:+ path) body r.1 r.2).
Proof.
  intros s w. apply runs_bind, runs_invoke. rewrite logged_call. apply runs_ret. split; [done|].
  exists [Exchange (Http m (url e +:+ path) (bearer_of b) q body) (env _ (Http m (url e +:+ path) (bearer_of b) q body) w.1).1].
  split; [done|]. cbn [fst snd]. generalize (env _ (Http m (url e +:+ path) (bearer_of b) q body) w.1).
  intros [[[code out]|err] w1]; [|done]. cbn [fst snd map_err]. intros a [= <-]. exists (bearer_of b), q. by left.
Qed.
(** One request and what is made of its answer. *)
Lemma sent_tells {A} b m e path body (f : Z * option J → result A EngineError) (Q : A → history → Prop) :
  (∀ r h a, f r = Ok a → answered h m (url e +:+ path) body r.1 r.2 → Q a h) →
  tells (let!? resp := send (J:=J) b m e path [] body in Ret (f resp)) Q.
Proof.
  intros Hf. eapply does_bind; [apply _|apply send_tells|]. intros a. apply does_ret; [apply _|].
  intros x Hx h1 Ha. simpl. eauto.
Qed.
Lemma read_post_Ok path r (j : J) : read_post path r = Ok j → (200 ≤ r.1 ≤ 299)%Z ∧ j = body_or_null r.2.
Proof.
  unfold read_post, is_success. destruct (200 <=? r.1)%Z eqn:E1; [|discriminate].
  destruct (r.1 <=? 299)%Z eqn:E2; [|discriminate]. intros [= <-]. split; [lia|done].
Qed.
Lemma ok_json_Ok path r (j : J) : ok_json path r = Ok j → ¬ (400 ≤ r.1 ≤ 599)%Z ∧ r.2 = Some j.
Proof.
  unfold ok_json, is_error_status. destruct (400 <=? r.1)%Z eqn:E1, (r.1 <=? 599)%Z eqn:E2; try discriminate; simpl;
    (destruct r.2 as [j'|]; [|discriminate]); intros [= <-]; (split; [lia|done]).
Qed.
Lemma expand_v1_tells e id to :
  tells (expand_v1 (J:=J) e id to) (λ _ h, done_by h POST (expand_url (url e) id) (expand_body to)).
Proof. apply sent_tells. intros [code out] h j [Hc _]%read_post_Ok Ha. by exists code, out. Qed.
Lemma resize_any_tells e id to :
  tells (resize_any (J:=J) e id to) (λ _ h, done_by h PATCH (resize_url (url e) id) (resize_body to)).
Proof.
  apply sent_tells. intros [code out] h j. destruct (check_refused _ _); [|discriminate].
  intros [Hc _]%read_post_Ok Ha. by exists code, out.
Qed.
Lemma served_size_tells e nm :
  tells (served_size (J:=J) e nm) (λ z h, reads_back h (volume_url (url e) nm) "virtual_size_bytes" z).
Proof.
  apply sent_tells. intros [code out] h z Hr Ha. destruct (ok_json _ _) as [j|] eqn:Ej; [|discriminate].
  apply ok_json_Ok in Ej as [Hc Hj]. simpl in Hj, Hc, Ha. subst out. cbn [result_bind] in Hr. exists code, j.
  split; [done|]. split; [done|]. by destruct (get_u64 _ j); inversion Hr.
Qed.
Lemma array_bytes_tells e a :
  tells (array_bytes (J:=J) e a) (λ z h, reads_back h (array_url (url e) a) "capacity_bytes" z).
Proof.
  eapply (does_bind eq _ _ (λ j h, ∃ code, answered h GET (array_url (url e) a) None code (Some j) ∧ ¬ (400 ≤ code ≤ 599)%Z)).
  - apply sent_tells. intros [code out] h j [Hc Hj]%ok_json_Ok Ha. simpl in Hj. subst out. by exists code.
  - intros j. apply does_ret; [apply _|]. intros z Hz h (code & Ha & Hc). exists code, j. split; [done|]. split; [done|].
    by destruct (get_u64 _ j); inversion Hz.
Qed.
Lemma admin_send_tells m e path body :
  tells (admin_send (J:=J) m e path body) (λ r h, answered h m (url e +:+ path) body r.1 r.2).
Proof.
  eapply does_bind; [apply _|apply send_tells|]. intros [code out]. destruct (_ && _).
  - eapply does_mono; [apply send_tells|]. intros r h2 Hr h1 _. eapply answered_more; [apply more_l|exact Hr].
  - apply does_ret; [apply _|]. by intros ? [= <-].
Qed.
(** What fails to be sent has no status. *)
Lemma admin_send_plain m e path body :
  yields (λ r, match r with Err x => status_of x = None | Ok _ => True end) (admin_send (J:=J) m e path body).
Proof.
  assert (∀ b, yields (λ r, match r with Err x => status_of x = None | Ok _ => True end) (send (J:=J) b m e path [] body))
    as Hsend by (by intros b [?|?]).
  unfold admin_send. apply (yields_bind_ok (λ _, True)); [exact (Hsend _)|].
  intros [code out] _. cbn [fst]. destruct (_ && _); [exact (Hsend _)|done].
Qed.
Lemma grow_array_tells e a s w :
  runs (logged env) (grow_array (J:=J) e a) (λ r s' w', s = s' ∧ ∃ new, w'.2 = (new ++ w.2)%list ∧ match r with
    | Ok j => ∃ code out, answered new POST (grow_url (url e) a) None code out ∧ (200 ≤ code ≤ 299)%Z ∧ j = body_or_null out
    | Err x => status_of x = Some 409%Z → ∃ out, answered new POST (grow_url (url e) a) None 409 out
    end) s w.
Proof.
  unfold grow_array. apply runs_bind.
  eapply runs_mono; [apply runs_and; [apply admin_send_tells|apply runs_yields, admin_send_plain]|].
  intros [[code out]|x] s1 w1 [(-> & n & E & Ha) Hx]; apply runs_ret; (split; [done|]); exists n; (split; [done|]).
  - specialize (Ha _ eq_refl). simpl in Ha. unfold read_post. cbn [fst snd].
    destruct (is_success code) eqn:Ec; simpl.
    + exists code, out. split; [done|]. unfold is_success in Ec. apply andb_true_iff in Ec. split; [lia|done].
    + intros [= ->]. by exists out.
  - rewrite Hx. discriminate.
Qed.
Lemma grow_tells nm node e a before :
  tells (grow (J:=J) nm node e a before) (λ short h, took_room h (url e) a before short).
Proof.
  intros s w. unfold grow. apply runs_bind. eapply runs_mono; [apply grow_array_tells|].
  intros [j|x] s1 w1 (<- & n & E & Hj).
  { apply runs_ret. split; [done|]. exists n. split; [done|]. intros short [= <-].
    destruct Hj as (code & out & Ha & Hc & ->). left. by exists code, out. }
  destruct (status_of x == Some 409%Z) eqn:Ec; [|apply runs_ret; split; [done|]; by exists n].
  apply eqb_prop in Ec. specialize (Hj Ec). apply runs_bind. eapply runs_mono; [apply array_bytes_tells|].
  intros r s2 w2 (<- & n2 & E2 & Hr).
  assert (w2.2 = ((n2 ++ n) ++ w.2)%list) as E3 by (by rewrite E2, E, app_assoc).
  destruct r as [z|y]; cbv zeta.
  - destruct (z <=? before)%Z eqn:Ez; apply runs_ret; (split; [done|]); exists (n2 ++ n)%list; (split; [done|]); [done|].
    intros short [= <-]. right. split; [done|]. split; [|exists z; split; [|lia]].
    + destruct Hj as [out Ha]. exists out. eapply answered_more; [apply more_r|exact Ha].
    + eapply reads_back_more; [apply more_l|by apply Hr].
  - rewrite Z.leb_refl. apply runs_ret. split; [done|]. by exists (n2 ++ n)%list.
Qed.

(** *** What becomes of the record *)

(** A record that differs only in what [expanding] says. *)
Definition note_step (nm : string) (s s' : App) : Prop :=
  claims s' = claims s
  ∧ ∃ x rev, fed s' = (fed s) <| volumes ::= alter (λ v, v <| expanding := x |>) nm |> <| revision := rev |>.
(** The size the record says it grows to. *)
Definition aim_of (nm : string) (s : App) : option Z :=
  fmap (M:=option) to_bytes (volumes (fed s) !! nm ≫= expanding).
Definition keeps_aim (nm : string) (s s' : App) : Prop := note_step nm s s' ∧ aim_of nm s' = aim_of nm s.

Lemma note_step_same nm s s' : fed s' = fed s → claims s' = claims s → note_step nm s s'.
Proof.
  intros Hf Hc. split; [done|]. exists (volumes (fed s) !! nm ≫= expanding), (revision (fed s)). rewrite Hf.
  destruct (fed s) as [? vs ? ? ? ? ? ? ?]. unfold set_field; simpl. f_equal. symmetry. apply alter_id.
  intros v Hv. rewrite Hv. by destruct v.
Qed.
#[local] Instance note_step_refl nm : Reflexive (note_step nm).
Proof. intros s. by apply note_step_same. Qed.
#[local] Instance note_step_trans nm : Transitive (note_step nm).
Proof.
  intros s1 s2 s3 (Hc1 & x1 & r1 & E1) (Hc2 & x2 & r2 & E2). split; [congruence|]. exists x2, r2.
  rewrite E2, E1. destruct (fed s1). unfold set_field; simpl. f_equal. by apply alter_twice.
Qed.
#[local] Instance keeps_aim_refl nm : Reflexive (keeps_aim nm).
Proof. by split. Qed.
#[local] Instance keeps_aim_trans nm : Transitive (keeps_aim nm).
Proof. intros s1 s2 s3 [H12 E12] [H23 E23]. split; [by etransitivity|congruence]. Qed.
Lemma note_step_change nm s (f : DistVolume → DistVolume) x :
  (∀ v, volumes (fed s) !! nm = Some v → f v = v <| expanding := x |>) →
  note_step nm s (s <| fed ::= λ fd, bump (update_volume fd nm f) |>).
Proof.
  intros Hf. split; [done|]. exists x, (revision (bump (fed s))). destruct s as [fd ? ? ? ? ? ? ? ?].
  unfold bump, update_volume. simpl. destruct fd. unfold set_field; simpl in *. f_equal. by apply alter_ext.
Qed.
Lemma keeps_aim_change nm s (f : Expansion → Expansion) x :
  volumes (fed s) !! nm ≫= expanding = Some x → to_bytes (f x) = to_bytes x →
  keeps_aim nm s (s <| fed ::= λ fd, bump (update_volume fd nm (λ v, v <| expanding ::= fmap (M:=option) f |>)) |>).
Proof.
  intros E Hf. split.
  - apply (note_step_change nm s _ (Some (f x))). intros v Hv. rewrite Hv in E. simpl in E.
    unfold set_field. simpl. by rewrite E.
  - unfold aim_of, update_volume. simpl. rewrite lookup_alter_eq. destruct (volumes (fed s) !! nm) as [v|]; [|done].
    simpl in *. rewrite E. simpl. by rewrite Hf.
Qed.

Lemma expand_event_notes nm subj sev msg : guar (keeps_aim nm) (expand_event (J:=J) subj sev msg).
Proof.
  apply (guar_weaken report_step); [|apply event_of_report].
  intros s s' [Hf Hc]. split; [by apply note_step_same|]. unfold aim_of. by rewrite Hf.
Qed.
Lemma note_expansion_notes nm f : (∀ x, to_bytes (f x) = to_bytes x) → guar (keeps_aim nm) (note_expansion (J:=J) nm f).
Proof.
  intros Hf. unfold note_expansion. guar_step; [|destruct a; apply quiet]. guar_step.
  destruct (volumes (fed s) !! nm ≫= expanding) as [x|] eqn:E; [|reflexivity]. by apply (keeps_aim_change nm s f x).
Qed.
#[local] Hint Resolve expand_event_notes note_expansion_notes : guar.

(** *** The steps *)

(** An engine call a step is made of: for a leg, for the array, and for the
    served volume. *)
Definition leg_told (to : Z) (l : string * Engine * string) (h : history) : Prop :=
  done_by h POST (expand_url (url l.1.2) l.2) (expand_body to).
Definition array_before (x : option Z) (h : history) (u a : string) (b : Z) : Prop :=
  match x with Some z => b = z | None => reads_back h (array_url u a) "capacity_bytes" b end.
Definition array_told (x : Expansion) (hd : option (string * Engine * string)) (h : history) : Prop :=
  match hd, array_grown x with
  | Some (_, e, a), false => ∃ b, array_before (array_bytes_before x) h (url e) a b ∧ took_room h (url e) a b None
  | _, _ => True
  end.
Definition served_told (to : Z) (sv : option (string * Engine * string * string * bool)) (h : history) : Prop :=
  match sv with Some (_, e, id, nm, ad) => grown_then_read h to (url e) id nm ad | None => True end.

(** What was asked stays asked. *)
Lemma array_before_more x h h' u a b : h ⊆ h' → array_before x h u a b → array_before x h' u a b.
Proof. destruct x; [done|]. apply reads_back_more. Qed.
Lemma array_told_more x hd h h' : h ⊆ h' → array_told x hd h → array_told x hd h'.
Proof.
  unfold array_told. destruct hd as [[[node e] a]|]; [|done]. destruct (array_grown x); [done|]. intros Hs (b & Hb & Ht).
  exists b. split; [by eapply array_before_more|by eapply took_room_more].
Qed.
Lemma served_told_more to sv h l e : served_told to sv h → served_told to sv (l ++ h ++ e)%list.
Proof. destruct sv as [[[[[? ?] ?] ?] ?]|]; [|done]. apply grown_then_read_more. Qed.
Lemma expand_leg_tells nm to u l : tells (expand_leg (J:=J) nm to u l) (λ _, leg_told to l).
Proof.
  destruct l as [[node e] id]. intros s w. apply runs_bind. eapply runs_mono; [apply expand_v1_tells|].
  intros [j|x] s1 w1 (<- & n & E & Ha); apply runs_ret; (split; [done|]); exists n; (split; [exact E|]); [|done].
  intros u' _. by apply (Ha j).
Qed.
Lemma bytes_before_notes nm x node e a :
  does (keeps_aim nm) (bytes_before (J:=J) nm x node e a) (λ b h, array_before (array_bytes_before x) h (url e) a b).
Proof.
  unfold bytes_before. destruct (array_bytes_before x) as [b|].
  { apply does_ret; [apply _|]. by intros ? [= <-]. }
  intros s w. apply runs_bind. eapply runs_mono; [apply array_bytes_tells|]. intros [b|err] s1 w1 (<- & n & E & Ha).
  - apply runs_bind. eapply runs_mono.
    { apply runs_and; [apply (runs_guar (logged env) (keeps_aim nm))|apply runs_history]; try apply _.
      by apply note_expansion_notes. }
    intros _ s2 w2 [Hs [n2 E2]]. apply runs_ret. split; [done|]. exists (n2 ++ n)%list.
    split; [by rewrite E2, E, app_assoc|]. intros b' [= <-]. eapply reads_back_more; [apply more_r|by apply Ha].
  - apply runs_ret. split; [done|]. by exists n.
Qed.
Lemma expand_array_notes nm x hd : does (keeps_aim nm) (expand_array (J:=J) nm x hd) (λ _ h, array_told x hd h).
Proof.
  unfold expand_array, array_told. destruct hd as [[[node e] a]|]; [|by apply does_ret; [apply _|]].
  destruct (array_grown x); [by apply does_ret; [apply _|]|].
  eapply does_bind; [apply _|apply bytes_before_notes|]. intros b.
  eapply does_bind; [apply _|apply does_eq; [apply _|apply grow_tells]|]. intros short.
  apply does_first; [apply _..|by apply note_expansion_notes|]. intros _. destruct short as [short|].
  - apply does_first; [apply _..|apply expand_event_notes|]. intros _. by apply does_ret; [apply _|].
  - apply does_ret; [apply _|]. intros u _ h3 h2 Hs h1 Hb. simpl. exists b. split.
    + eapply array_before_more; [apply more_r|exact Hb].
    + eapply took_room_more; [|exact Hs]. etransitivity; [apply more_r|apply more_l].
Qed.
Lemma expand_served_tells nm to sv : tells (expand_served (J:=J) nm to sv) (λ _, served_told to sv).
Proof.
  destruct sv as [[[[[node e] id] en] ad]|]; [|by apply does_ret; [apply _|]].
  intros s w. apply runs_bind. apply (runs_mono (logged env) _ (λ r s' w', s = s' ∧ ∃ new, w'.2 = (new ++ w.2)%list
    ∧ ∀ j, r = Ok j → if ad then done_by new PATCH (resize_url (url e) id) (resize_body to)
                      else done_by new POST (expand_url (url e) id) (expand_body to))).
  { destruct ad; [apply resize_any_tells|apply expand_v1_tells]. }
  intros [j|x] s1 w1 (<- & n & E & Ha); [|apply runs_ret; split; [done|]; by exists n].
  apply runs_bind. eapply runs_mono; [apply served_size_tells|]. intros r s2 w2 (<- & n2 & E2 & Hz). apply runs_ret.
  split; [done|]. exists (n2 ++ n)%list. split; [by rewrite E2, E, app_assoc|]. intros u.
  destruct r as [z|y]; [|done]. destruct (z <? to)%Z eqn:Ez; [done|]. intros _. exists n2, n, z. split; [done|].
  split; [by apply (Ha j)|]. split; [by apply Hz|lia].
Qed.

(** *** What a success says *)

(** The size the expand aims at. *)
Definition target (to : Z) (v : DistVolume) : Z := map_or to (λ x, Z.max to (to_bytes x)) (expanding v).
(** The engine of a registered node, and a node that answers. *)
Definition node_url (fd : FedState) (k u : string) : Prop :=
  ∃ n, nodes fd !! k = Some n ∧ u = trim_end_matches (Ascii.ascii_of_nat 47) (nc_engine_url (config n)).
Definition answers (fd : FedState) (k : string) : Prop := ∃ n, nodes fd !! k = Some n ∧ healthy (status n) = true.
(** A volume that may grow to [to]. *)
Record ready (fd : FedState) (v : DistVolume) (to : Z) : Prop := {
  rd_grows : (size_bytes v ≤ to)%Z;
  rd_fence : fenced v = false;
  rd_idle : replacing v = None ∧ dual_attach v = None ∧ migration v = None;
  rd_served : ex_state (export v) ≠ Revoking ∧ gone (export v) = false;
  rd_shape : match assembly v with
    | SingleLeg | Assembled =>
        Forall (λ l, leg_state l = Created ∧ is_Some (leg_volume_id l) ∧ answers fd (leg_node l)) (legs v)
        ∧ (∀ k, head v = Some k → answers fd k)
    | Clone => ∃ q, parent_of fd v = Some q ∧ clone_of q = None ∧ (to ≤ size_bytes q)%Z
    | Degraded | PendingEngineSupport => False
    end;
}.
(** Every leg's engine took the expand, the head's array the room, and the
    served volume reads back at the size. *)
Record engines_grew (fd : FedState) (v : DistVolume) (to : Z) (h : history) : Prop := {
  eg_legs : Forall (λ l, ∃ u, node_url fd (leg_node l) u
    ∧ done_by h POST (expand_url u (unwrap_or "" (leg_volume_id l))) (expand_body to)) (legs v);
  eg_array : assembly v = Assembled → ∃ k a u, head v = Some k ∧ array_id v = Some a ∧ node_url fd k u
    ∧ ((∃ x, expanding v = Some x ∧ array_grown x = true)
       ∨ ∃ b, array_before (expanding v ≫= array_bytes_before) h u a b ∧ took_room h u a b None);
  eg_slab : ∀ x, expanding v = Some x → slab_short x = None;
  eg_served : ∀ k id, ex_node (export v) = Some k → ex_volume_id (export v) = Some id → ∃ u, node_url fd k u
    ∧ grown_then_read h to u id (unwrap_or (served_name v) (local_id (export v))) (adopted (export v));
}.
Lemma node_engine_Ok fd k e : node_engine engine_token admin_credential fd k = Ok e → node_url fd k (url e).
Proof. unfold node_engine. destruct (nodes fd !! k) as [n|] eqn:E; intros [= <-]. by exists n. Qed.
Lemma leg_calls_told fd to h ls cs :
  leg_calls engine_token admin_credential fd ls = Ok cs → Forall (λ l, leg_told to l h) cs →
  Forall (λ l, ∃ u, node_url fd (leg_node l) u
    ∧ done_by h POST (expand_url u (unwrap_or "" (leg_volume_id l))) (expand_body to)) ls.
Proof.
  revert cs. induction ls as [|l ls IH]; intros cs; [constructor|]. cbn [leg_calls].
  destruct (node_engine _ _ fd (leg_node l)) as [e|] eqn:E; [|discriminate].
  destruct (leg_calls _ _ fd ls) as [rest|]; [|discriminate]. intros [= <-] [Hl Hr]%Forall_cons.
  constructor; [|by apply (IH rest)]. exists (url e). split; [by apply node_engine_Ok|exact Hl].
Qed.
Lemma served_call_told fd v to h sv :
  served_call engine_token admin_credential fd v = Ok sv → served_told to sv h →
  ∀ k id, ex_node (export v) = Some k → ex_volume_id (export v) = Some id → ∃ u, node_url fd k u
    ∧ grown_then_read h to u id (unwrap_or (served_name v) (local_id (export v))) (adopted (export v)).
Proof.
  unfold served_call. intros Hc Hg k id Hk Hid. rewrite Hk, Hid in Hc.
  destruct (node_engine _ _ fd k) as [e|] eqn:E; [|discriminate]. injection Hc as <-. exists (url e).
  split; [by apply node_engine_Ok|exact Hg].
Qed.
Lemma head_call_told fd nm v hd x h :
  head_call engine_token admin_credential fd nm v = Ok hd → array_told x hd h → assembly v = Assembled →
  ∃ k a u, head v = Some k ∧ array_id v = Some a ∧ node_url fd k u
    ∧ (array_grown x = true ∨ ∃ b, array_before (array_bytes_before x) h u a b ∧ took_room h u a b None).
Proof.
  unfold head_call. intros Hc Ht Ha. rewrite Ha in Hc. simpl in Hc. destruct (head v) as [k|]; [|discriminate].
  destruct (array_id v) as [a|]; [|discriminate]. destruct (node_engine _ _ fd k) as [e|] eqn:E; [|discriminate].
  injection Hc as <-. exists k, a, (url e). repeat (split; [by try apply node_engine_Ok|]).
  simpl in Ht. destruct (array_grown x); [by left|by right].
Qed.
Lemma node_healthy_answers fd k : node_healthy fd k = true → answers fd k.
Proof. unfold node_healthy, is_some_and. destruct (nodes fd !! k) as [n|] eqn:E; [|discriminate]. by exists n. Qed.
Lemma legs_ready_None fd v (m : Leg → string) (m' : string → string) :
  match find_first (λ l, (leg_state l != Created) || is_none (leg_volume_id l)) (legs v) with
  | Some l => Some (Conflict (m l))
  | None => match find_first (λ n, negb (node_healthy fd n)) (map leg_node (legs v) ++ option_list (head v))%list with
            | Some n => Some (Conflict (m' n)) | None => None end
  end = None →
  Forall (λ l, leg_state l = Created ∧ is_Some (leg_volume_id l) ∧ answers fd (leg_node l)) (legs v)
  ∧ (∀ k, head v = Some k → answers fd k).
Proof.
  destruct (find_first _ (legs v)) eqn:El; [discriminate|]. destruct (find_first _ (_ ++ _)%list) eqn:En; [discriminate|].
  intros _. pose proof (proj1 (find_first_None _ _) El) as El'. pose proof (proj1 (find_first_None _ _) En) as En'.
  clear El En. rename El' into El, En' into En. split.
  - apply Forall_forall. intros l Hl. pose proof (El l Hl) as H'. apply orb_false_iff in H' as [Hs Hi].
    split; [|split].
    + apply negb_false_iff in Hs. by apply eqb_prop in Hs.
    + by destruct (leg_volume_id l).
    + apply node_healthy_answers, negb_false_iff, En, elem_of_app. left. by apply list_elem_of_fmap_2.
  - intros k Hk. apply node_healthy_answers, negb_false_iff, En, elem_of_app. right. rewrite Hk. by left.
Qed.
Lemma refuse_None fd v to : refuse fd v to = None → ready fd v to.
Proof.
  unfold refuse. destruct (to <? size_bytes v)%Z eqn:Es; [discriminate|]. apply Z.ltb_ge in Es.
  destruct (fenced v) eqn:E1; [discriminate|]. destruct (replacing v) eqn:E2; [discriminate|].
  destruct (dual_attach v) eqn:E3; [discriminate|]. destruct (migration v) eqn:E4; [discriminate|].
  destruct (ex_state (export v) == Revoking) eqn:E5; [discriminate|]. destruct (gone (export v)) eqn:E6; [discriminate|].
  intros Hr. cbn [is_some] in Hr. split; try done.
  { split; [|done]. intros E. by rewrite E in E5. }
  destruct (assembly v); try discriminate Hr; try exact (legs_ready_None _ _ _ _ Hr).
  revert Hr. destruct (parent_of fd v) as [q|]; [|discriminate]. simpl. destruct (clone_of q) eqn:Eq'; [discriminate|].
  simpl. destruct (size_bytes q <? to)%Z eqn:Eq; [discriminate|]. apply Z.ltb_ge in Eq. intros _. by exists q.
Qed.

(** *** The expand *)

(** What the lock section decides. *)
Record aimed (nm : string) (to : Z) (s s' : App) (v : DistVolume) (p : XPlan) (x : Expansion) : Prop := {
  am_vol : volumes (fed s) !! nm = Some v;
  am_exp : expanding (x_vol p) = Some x;
  am_to : to_bytes x = target to v;
  am_past : array_grown x = from_option array_grown false (expanding v)
    ∧ array_bytes_before x = (expanding v ≫= array_bytes_before) ∧ slab_short x = (expanding v ≫= slab_short);
  am_note : note_step nm s s';
  am_aim : aim_of nm s' = Some (target to v);
  am_ready : ready (fed s) v (target to v);
  am_legs : leg_calls engine_token admin_credential (fed s) (legs v) = Ok (x_legs p);
  am_head : head_call engine_token admin_credential (fed s) nm v = Ok (x_head p);
  am_served : served_call engine_token admin_credential (fed s) v = Ok (x_served p);
}.
Lemma aimed_later nm to s s1 s2 v p x : aimed nm to s s1 v p x → keeps_aim nm s1 s2 → aimed nm to s s2 v p x.
Proof. intros [] [Hn Ha]. split; try done; [by etransitivity|congruence]. Qed.
Lemma expand_record_spec nm to now s :
  match expand_record engine_token admin_credential nm to now s with
  | (s', Err _) => s' = s
  | (s', Ok None) => s' = s ∧ ∃ v, volumes (fed s) !! nm = Some v ∧ expanding v = None ∧ size_bytes v = to
  | (s', Ok (Some p)) => ∃ v x, aimed nm to s s' v p x
  end.
Proof.
  unfold expand_record. destruct (volumes (fed s) !! nm) as [v|] eqn:Hv; [|done]. cbv zeta. fold (target to v).
  destruct ((target to v =? size_bytes v)%Z && is_none (expanding v)) eqn:Es.
  { apply andb_true_iff in Es as [Es%Z.eqb_eq En%is_none_true]. split; [done|]. exists v. split; [done|].
    split; [done|]. unfold target in Es. rewrite En in Es. by simpl in Es. }
  destruct (refuse (fed s) v (target to v)) eqn:Er; [done|]. apply refuse_None in Er.
  destruct (leg_calls _ _ (fed s) (legs v)) as [ls|] eqn:Hl; [|done]. cbn [result_bind].
  destruct (head_call _ _ (fed s) nm v) as [h|] eqn:Hh; [|done]. cbn [result_bind].
  destruct (served_call _ _ (fed s) v) as [sv|] eqn:Hsv; [|done]. cbn [result_bind].
  assert (∀ x, expanding (aim (target to v) now v) = Some x →
    note_step nm s (s <| fed ::= λ fd, bump (update_volume fd nm (aim (target to v) now)) |>)
    ∧ aim_of nm (s <| fed ::= λ fd, bump (update_volume fd nm (aim (target to v) now)) |>) = Some (to_bytes x)) as Hn.
  { intros x Hx. split.
    - apply (note_step_change nm s _ (Some x)). intros v' Hv'. rewrite Hv in Hv'. injection Hv' as <-. rewrite <- Hx. done.
    - unfold aim_of, update_volume. simpl. rewrite lookup_alter_eq, Hv. cbn [fmap option_fmap option_map mbind option_bind].
      by rewrite Hx. }
  destruct (expanding v) as [x|] eqn:Hx.
  - exists v, (x <| to_bytes := target to v |> <| exp_message := None |>).
    destruct (Hn (x <| to_bytes := target to v |> <| exp_message := None |>)) as [H1' H2'];
      [unfold aim; simpl; by rewrite Hx|]. split; try done; simpl; rewrite ?Hx; done.
  - eexists v, _. edestruct Hn as [H1' H2']; [unfold aim; simpl; by rewrite Hx|].
    split; try done; simpl; rewrite ?Hx; try done.
Qed.

Lemma told_grew nm to s s' v p x h : aimed nm to s s' v p x → slab_short x = None →
  Forall (λ l, leg_told (to_bytes x) l h) (x_legs p) → array_told x (x_head p) h → served_told (to_bytes x) (x_served p) h →
  engines_grew (fed s) v (to_bytes x) h.
Proof.
  intros Ha Esl Hl Hr Hs. destruct (am_past _ _ _ _ _ _ _ Ha) as (Eg & Eb & Esh). split.
  - eapply leg_calls_told; [apply Ha|exact Hl].
  - intros E. destruct (head_call_told _ _ _ _ x h (am_head _ _ _ _ _ _ _ Ha) Hr E) as (k & a & u & Hk & Hi & Hu & Hx).
    exists k, a, u. repeat (split; [done|]). destruct Hx as [Hx|Hx]; [left|right; by rewrite <- Eb].
    rewrite Hx in Eg. destruct (expanding v) as [y|]; [|done]. by exists y.
  - intros y Hy. rewrite Hy in Esh. simpl in Esh. congruence.
  - eapply served_call_told; [apply Ha|exact Hs].
Qed.

(** The record at the target, nothing in flight. *)
Definition resized (nm : string) (to : Z) (fd fd' : FedState) : Prop :=
  ∃ rev, fd' = fd <| volumes ::= alter (λ v, v <| size_bytes := to |> <| expanding := None |>) nm |> <| revision := rev |>.

Lemma record_expanded_spec nm t s s2 v : volumes (fed s) !! nm = Some v → note_step nm s s2 →
  ∃ s3 z, record_expanded nm t s2 = (s3, Ok z) ∧ claims s3 = claims s ∧ resized nm t (fed s) (fed s3).
Proof.
  intros Hv (Hc & x & rev & E). unfold record_expanded.
  assert (volumes (fed s2) !! nm = Some (v <| expanding := x |>)) as Hv2.
  { rewrite E. simpl. by rewrite lookup_alter_eq, Hv. }
  rewrite Hv2. eexists _, _. split; [reflexivity|]. split; [exact Hc|]. exists (u64_add (revision (fed s2)) 1).
  simpl. rewrite E. unfold bump, update_volume. destruct (fed s). unfold set_field; simpl. f_equal.
  by apply alter_twice.
Qed.

(** How a run of the steps ends: its failure noted, or the volume grown. *)
Definition ended (nm : string) (to : Z) (s s' : App) (new : history) (r : result unit Sync.Refusal) : Prop :=
  claims s' = claims s ∧ match r with
  | Err _ => note_step nm s s' ∧ (volumes (fed s) !! nm = None → fed s' = fed s) ∧ ∀ v, volumes (fed s) !! nm = Some v →
      aim_of nm s' = fmap (M:=option) to_bytes (expanding v) ∨ aim_of nm s' = Some (target to v)
  | Ok _ => ∃ v, volumes (fed s) !! nm = Some v ∧ ready (fed s) v (target to v)
      ∧ engines_grew (fed s) v (target to v) new ∧ resized nm (target to v) (fed s) (fed s')
  end.
Lemma failed_ended nm to s s1 v p x e new : aimed nm to s s1 v p x → ended nm to s s1 new (Err e).
Proof.
  intros []. split; [by destruct am_note0|]. split; [done|]. split; [congruence|]. intros v' Hv'. rewrite am_vol0 in Hv'. injection Hv' as <-.
  by right.
Qed.

(** From where every engine grew. *)
Lemma expand_done_runs nm to p x s0 v s (w : W * history) : aimed nm to s0 s v p x →
  runs (logged env)
    (let!? from := atomic (record_expanded nm (to_bytes x)) in
     publish_change ;!
     expand_event nm Info (nm +:+ ": expanded " +:+ pretty from +:+ " → " +:+ pretty (to_bytes x) +:+ " bytes") ;!
     Ret (Ok tt))
    (λ r s' w', w.2 `suffix_of` w'.2 ∧ r = Ok tt ∧ claims s' = claims s0 ∧ resized nm (target to v) (fed s0) (fed s')) s w.
Proof.
  intros Ha. apply runs_bind_ok, runs_atomic. rewrite (am_to _ _ _ _ _ _ _ Ha).
  destruct (record_expanded_spec nm (target to v) s0 s v) as (s3 & z & -> & Hc & Hf); [apply Ha..|]. cbn [fst snd].
  set (tail := (_ ;! _)).
  assert (guar report_step tail) as Hr by (unfold tail, expand_event; guar_auto; apply event_of_report).
  pose proof (runs_guar (logged env) report_step tail s3 w _ _ Hr) as [Hf' Hc'].
  split; [exact (runs_history env tail s3 w)|]. split; [unfold tail; by rewrite !run_value_bind|].
  split; [congruence|]. by rewrite Hf'.
Qed.

Lemma expand_steps_runs nm to s0 s w v p x :
  aimed nm to s0 s v p x →
  runs (logged env) (expand_steps (J:=J) nm p x) (λ r s' w', ∃ new, w'.2 = (new ++ w.2)%list ∧ ended nm to s0 s' new r) s w.
Proof.
  intros Ha. unfold expand_steps. destruct (slab_short x) as [short|] eqn:Esl.
  { apply runs_ret. exists []. split; [done|]. by eapply failed_ended. }
  apply runs_bind_ok. eapply runs_mono.
  { apply (does_for_try eq (expand_leg nm (to_bytes x)) (leg_told (to_bytes x)) (x_legs p) tt).
    - intros l h h' Hs. by apply done_by_more.
    - apply expand_leg_tells. }
  intros [u|e] s1 w1 (<- & n1 & E1 & Hl); [|exists n1; split; [exact E1|by eapply failed_ended]]. specialize (Hl u eq_refl).
  apply runs_bind_ok. eapply runs_mono; [apply expand_array_notes|]. intros r s2 w2 (Hn2 & n2 & E2 & Hr).
  pose proof (aimed_later _ _ _ _ _ _ _ _ Ha Hn2) as Ha2.
  assert (w2.2 = ((n2 ++ n1) ++ w.2)%list) as E2' by (by rewrite E2, E1, app_assoc).
  destruct r as [u2|e]; [|exists (n2 ++ n1)%list; split; [exact E2'|by eapply failed_ended]]. specialize (Hr u2 eq_refl).
  apply runs_bind_ok. eapply runs_mono; [apply expand_served_tells|]. intros r s3 w3 (<- & n3 & E3 & Hs).
  assert (w3.2 = ((n3 ++ n2 ++ n1) ++ w.2)%list) as E3' by (by rewrite E3, E2', <- !app_assoc).
  destruct r as [u3|e]; [|exists (n3 ++ n2 ++ n1)%list; split; [exact E3'|by eapply failed_ended]]. specialize (Hs u3 eq_refl).
  eapply runs_mono; [by apply (expand_done_runs nm to p x s0 v)|].
  intros r s4 w4 ([n4 E4] & -> & Hc & Hf). exists (n4 ++ n3 ++ n2 ++ n1)%list. split; [by rewrite E4, E3', !app_assoc|].
  split; [exact Hc|]. exists v. split; [apply Ha|]. split; [apply Ha|]. split; [|exact Hf].
  rewrite <- (am_to _ _ _ _ _ _ _ Ha). eapply told_grew; [exact Ha|exact Esl| | |].
  - eapply Forall_impl; [exact Hl|]. intros l. apply done_by_more. rewrite !app_assoc. apply more_r.
  - eapply array_told_more; [|exact Hr]. rewrite app_assoc. apply more_mid.
  - by apply served_told_more.
Qed.

Lemma engines_grew_more fd v to h e : engines_grew fd v to h → engines_grew fd v to (h ++ e)%list.
Proof.
  intros [Hl Ha Hb Hs]. split; [| |done|].
  - eapply Forall_impl; [exact Hl|]. intros x (u & Hu & Hd). exists u. split; [done|].
    eapply done_by_more; [apply more_l|done].
  - intros E. destruct (Ha E) as (k & a & u & Hk & Hi & Hu & Hx). exists k, a, u. repeat (split; [done|]).
    destruct Hx as [Hx|(b & Hb' & Ht)]; [by left|]. right. exists b.
    split; [eapply array_before_more|eapply took_room_more]; [apply more_l|done|apply more_l|done].
  - intros k id Hk Hi. destruct (Hs k id Hk Hi) as (u & Hu & Hg). exists u. split; [done|].
    by apply (grown_then_read_more h []).
Qed.
Lemma ended_more nm to s s' new r e : ended nm to s s' new r → ended nm to s s' (new ++ e)%list r.
Proof.
  intros [Hc Hr]. split; [done|]. destruct r as [u|x]; [|done]. destruct Hr as (v & Hv & Hrd & Hg & Hf). exists v.
  repeat (split; [done|]). split; [by apply engines_grew_more|done].
Qed.

(** No engine was asked anything. *)
Definition asks_nothing (h : history) : Prop := ∀ m u t q b r, (Exchange (Http m u t q b) r ∉ h).
(** A volume that has the size already, with nothing in flight. *)
Definition has_size (nm : string) (to : Z) (s s' : App) (h : history) : Prop :=
  fed s' = fed s ∧ asks_nothing h ∧ ∃ v, volumes (fed s) !! nm = Some v ∧ expanding v = None ∧ size_bytes v = to.

Lemma expand_claimed_runs nm to s (w : W * history) :
  runs (logged env) (expand_claimed engine_token admin_credential nm to)
    (λ r s' w', ∃ new, w'.2 = (new ++ w.2)%list ∧ (ended nm to s s' new r ∨ r = Ok tt ∧ claims s' = claims s ∧ has_size nm to s s' new)) s w.
Proof.
  unfold expand_claimed. apply runs_bind, runs_invoke. rewrite logged_call. apply runs_bind, runs_atomic. cbn [fst snd].
  generalize (env _ (Now (J:=J)) w.1). intros [now w0]. cbn [fst snd].
  pose proof (expand_record_spec nm to now s) as Hr.
  destruct (expand_record _ _ nm to now s) as [s1 [[p|]|e]]; cbn [fst snd] in *.
  - destruct Hr as (v & x & Ha). apply runs_bind. eapply runs_mono.
    { apply runs_and; [apply (runs_guar (logged env) eq); [apply _..|apply quiet]|apply runs_history]. }
    intros _ s2 w2 [<- [n E]]. cbn [snd] in E. rewrite (am_exp _ _ _ _ _ _ _ Ha).
    eapply runs_mono; [by apply (expand_steps_runs nm to s s1 w2 v p x)|]. intros r s' w' (new & E' & Hp).
    exists (new ++ n ++ [Exchange (Now (J:=J)) now])%list. split; [by rewrite E', E, <- !app_assoc|]. left.
    by apply ended_more.
  - destruct Hr as [-> (v & Hv & Hx & Hz)]. apply runs_ret. exists [Exchange (Now (J:=J)) now]. split; [done|]. right.
    split; [done|]. split; [done|]. split; [done|]. split; [|by exists v].
    intros m u t q b r [Hin|Hin]%elem_of_cons; [|by inversion Hin]. inversion Hin.
  - rewrite Hr. apply runs_ret. exists [Exchange (Now (J:=J)) now]. split; [done|]. left. split; [done|]. split; [done|].
    split; [done|]. intros v Hv. left. unfold aim_of. by rewrite Hv.
Qed.

(** The failure, noted on an expansion in flight. *)
Lemma note_failure_runs nm e s (w : W * history) :
  runs (logged env) (note_failure (J:=J) nm e) (λ _ s' _, keeps_aim nm s s'
    ∧ (volumes (fed s) !! nm = None → fed s' = fed s) ∧ ∀ x, volumes (fed s') !! nm ≫= expanding = Some x → exp_message x = Some (Refusal_show e)) s w.
Proof.
  unfold note_failure. apply runs_bind, runs_writes. apply runs_invoke.
  destruct (volumes (fed s) !! nm ≫= expanding) as [x|] eqn:E; [|split; [done|]; by rewrite E].
  split; [by eapply keeps_aim_change|]. split; [intros Hn; by rewrite Hn in E|]. intros y. unfold update_volume. simpl. rewrite lookup_alter_eq.
  destruct (volumes (fed s) !! nm) as [v|]; [|done]. simpl in *. rewrite E. by intros [= <-].
Qed.
(** What a failure leaves of the expansion in flight. *)
Definition note_left (to : Z) (v : DistVolume) (why : string) (x : option Expansion) : Prop :=
  match x with
  | None => expanding v = None
  | Some x => exp_message x = Some why
      ∧ (to_bytes x = target to v ∨ fmap (M:=option) to_bytes (expanding v) = Some (to_bytes x))
  end.
Lemma noted_left nm to s s' v e : volumes (fed s) !! nm = Some v → note_step nm s s' →
  (aim_of nm s' = fmap (M:=option) to_bytes (expanding v) ∨ aim_of nm s' = Some (target to v)) →
  (∀ x, volumes (fed s') !! nm ≫= expanding = Some x → exp_message x = Some (Refusal_show e)) →
  ∃ x rev, fed s' = (fed s) <| volumes ::= alter (λ v, v <| expanding := x |>) nm |> <| revision := rev |>
    ∧ note_left to v (Refusal_show e) x.
Proof.
  intros Hv [_ (x & rev & Ef)] Ha Hm. exists x, rev. split; [exact Ef|].
  assert (volumes (fed s') !! nm ≫= expanding = x) as Ex.
  { rewrite Ef. simpl. by rewrite lookup_alter_eq, Hv. }
  unfold aim_of in Ha. rewrite Ex in Ha, Hm. destruct x as [x|]; simpl in *.
  - split; [by apply Hm|]. destruct Ha as [Ha|[= Ha]]; [right|left]; congruence.
  - destruct Ha as [Ha|Ha]; [by destruct (expanding v)|done].
Qed.

End facts.

(** ** An example: a mirrored volume grows *)

Section example.
#[local] Existing Instances no_text no_volume no_slab no_discovery.

Definition asked_size (b : option Tree) : option Z :=
  match b with Some t => mbind (M:=option) j_i64 (j_get "size_bytes" t) | None => None end.
(** Engines whose volumes are all as big as the largest expand so far, or,
    stuck, as big as they were whatever they answer. *)
Definition grow_env (stuck : bool) (R : Type) (c : Call Tree R) (w : Z) : R * Z :=
  match c in Call _ R return R * Z with
  | Http _ _ _ _ b =>
      let w := match asked_size b with Some z => if stuck then w else Z.max w z | None => w end in
      (Ok (200%Z, Some (TObj [("capacity_bytes", TNum w); ("virtual_size_bytes", TNum w)])), w)
  | HttpText _ _ => (Err "no route", w)
  | Now => (0%Z, w)
  | PushToPeers | Persist | Sleep _ => (tt, w)
  end.
Definition grow_app (v : DistVolume) : App :=
  App_new (FedState_default
    <| nodes := {["n1" := lone_node "n1" true; "n2" := lone_node "n2" true; "n3" := lone_node "n3" true]} |>
    <| volumes := {["db" := v]} |>) None.
Definition exported (v : DistVolume) : DistVolume :=
  v <| export ::= λ x, x <| ex_node := Some "n1" |> <| ex_volume_id := Some "EV" |> |>.
Definition single (v : DistVolume) : DistVolume := v <| assembly := SingleLeg |> <| legs ::= take 1 |>.
(** Whether an expand to 4096 bytes succeeds, and the size recorded then. *)
Definition try_expand (stuck : bool) (v : DistVolume) : bool * option Z :=
  let p := expand (λ _, None) (λ _, None) "db" 4096 in
  (is_ok (run_value (grow_env stuck) p (grow_app v) 1024%Z),
   fmap (M:=option) size_bytes (volumes (fed (run_state (grow_env stuck) p (grow_app v) 1024%Z)) !! "db")).

Example expand_grows : try_expand false (exported example_volume) = (true, Some 4096%Z).
Proof. vm_compute. reflexivity. Qed.
(** An engine that answers without growing: the served volume is read back
    and the expand fails. *)
Example expand_stuck : try_expand true (exported example_volume) = (false, Some 1024%Z).
Proof. vm_compute. reflexivity. Qed.
(** A single leg that no host sees is not read back. *)
Example expand_unread : try_expand true (single example_volume) = (true, Some 4096%Z).
Proof. vm_compute. reflexivity. Qed.
End example.

Local Close Scope string_scope.
