(* ===== verification/Backups.v ===== *)
(** * Point-in-time backups (src/backup.rs, src/api/backups.rs)

    The cycle that snapshots a served volume, ships the changes to a backup
    node and keeps the last points there, one step per poll; the API that
    starts, stops, purges and restores. Shown: what a finished ship leaves
    of the record, which points it drops and keeps; that a cycle touches no other record; and two ways the
    cycle and the API get in each other's way. *)

From S2P Require Import Prelude F64 Config Model Placement Events Refusal Async Json Inventory Sync.
From S2P Require Import Recovery App Engine Publish Replace Fencing.
From stdpp Require Import options.

Local Open Scope string_scope.

#[export] Instance BackupState_eq_dec : EqDecision BackupState.
Proof. solve_decision. Defined.
#[export] Instance BackupPoint_eq_dec : EqDecision BackupPoint.
Proof. solve_decision. Defined.
#[export] Instance Backup_eta : Eta Backup := λ r,
  MkBackup (bk_volume r) (bk_size_bytes r) (bk_policy r) (bk_node r) (target_volume_id r) (target_master r)
    (target_attach r) (attached_for r) (bk_base r) (bk_job r) (points r) (bk_state r) (bk_message r)
    (next_at_ms r) (source_deleted r).
#[export] Instance ShipJob_eta : Eta ShipJob := λ r,
  MkShipJob (job_id r) (job_snapshot r) (job_bytes_total r) (job_bytes_done r).

(** ** Milliseconds

    [as i64] and the arithmetic of an [i64], wrapping. *)
Definition as_i64 (z : Z) : Z := ((z + 2 ^ 63) mod 2 ^ 64 - 2 ^ 63)%Z.
Definition now_ms (t : time) : Z := if (t <? 0)%Z then 0%Z else as_i64 (t / 10 ^ 6).
(** [at + (interval as i64) * 1000]. *)
Definition ms_after (at_ interval : Z) : Z := as_i64 (at_ + as_i64 (as_i64 interval * 1000)).

Definition backup_claim (volume : string) : string := "backup:" +:+ volume.

(** Points beyond [keep], oldest first. *)
Definition by_taken (a b : BackupPoint) : comparison := (point_taken_at_ms a ?= point_taken_at_ms b)%Z.
Definition prune (points : list BackupPoint) (keep : Z) : list BackupPoint :=
  let sorted := sort_by by_taken points in
  take (length sorted - Z.to_nat (Z.max keep 1)) sorted.
(** What stays when the drops of [failed] did not succeed. *)
Definition points_left (points dropped : list BackupPoint) (failed : list string) : list BackupPoint :=
  List.filter (λ p, negb (existsb (λ d, point_name d == point_name p) dropped)
                    || existsb (λ f, f == point_name p) failed) points.

(** How a step ends early: an error, or the panic of [expect]. *)
Inductive StepEnd := BkErr (e : EngineError) | BkPanic.

Section backup.
Context {J : Type} `{Json J} `{HttpShow}.
Context `{Deserialize J EngineVolume} `{Deserialize J Slab} `{Deserialize J Discovery}.
Context (cfg : Config) (engine_token : NodeConfig → option string) (admin_credential : string → option string).
Abbreviation engine_for := (engine_for engine_token admin_credential).
Abbreviation call A := (handler J (result A EngineError)).
Abbreviation step_call A := (handler J (result A StepEnd)).

Definition backup_event (subj : string) (sev : Severity) (msg : string) : handler J unit := event_of "backup" subj sev msg.

(** The nodes a backup may go to. *)
Definition may_back_up (fd : FedState) (b : Backup) (p : BackupPolicy) (n : Node) : bool :=
  let legs_on := map_or [] (λ v, map leg_node (legs v)) (volumes fd !! bk_volume b) in
  let pc := mbind (M:=option) (pool (pools cfg)) (bp_pool p) in
  healthy (status n)
  && negb (existsb (λ l, l == nc_name (config n)) legs_on)
  && map_or true (λ pc, matches (pool_selector pc) (config n)) pc
  && map_or true (λ t, nc_tier (config n) == Some t) (bp_tier p)
  && map_or true (λ x, nc_name (config n) == x) (bp_node p).
Definition candidates (fd : FedState) (b : Backup) : list Candidate :=
  match bk_policy b with
  | None => []
  | Some p => map candidate_of (List.filter (may_back_up fd b p) (bt_values (nodes fd)))
  end.

(** [update]: [None] when the record is gone. *)
Definition bk_update {T : Type} (nm : string) (f : Backup → Backup * T) : handler J (option T) :=
  let! out := atomic (λ s, match backups (fed s) !! nm with
    | None => (s, None)
    | Some b => let '(b', t) := f b in
                (s <| fed ::= λ fd, bump (fd <| backups ::= <[nm := b']> |>) |>, Some t)
    end) in
  match out with
  | None => Ret None
  | Some t => publish_change ;! Ret (Some t)
  end.
Definition bk_set (nm : string) (f : Backup → Backup) : handler J unit :=
  bk_update nm (λ b, (f b, tt)) ;! Ret tt.

Definition engine_on (fd : FedState) (node : string) : result Engine EngineError :=
  let? n := ok_or (nodes fd !! node) (anyhow ("node " +:+ debug_str node +:+ " not in registry")) in
  if negb (healthy (status n)) then Err (anyhow (node +:+ " is unreachable")) else Ok (engine_for n).

Definition drop_snapshot (e : Engine) (nm : string) (id : option string) : call unit :=
  let!? _ := (match id with Some id => delete_v1 e ("/v1/snapshots/" +:+ id) | None => Ret (Ok tt) end) in
  let! local := local_volume_id e nm in
  match local with
  | Ok local => delete_any_volume e local
  | Err x => Ret (if is_not_found x then Ok tt else Err x)
  end.

Definition bk_reading (nm : string) (s : App) : result (option (Backup * DataAt * Z)) EngineError :=
  match backups (fed s) !! nm with
  | None => Ok None
  | Some b =>
      let? vol := ok_or (volumes (fed s) !! nm) (anyhow (nm +:+ ": volume gone")) in
      let? at_ := data_at engine_token admin_credential (fed s) vol in
      Ok (Some (b, at_, size_bytes vol))
  end.

(** An error as [step] words it. *)
Definition bk_fail {A : Type} (m : string) : result A StepEnd := Err (BkErr (anyhow m)).

(** 1. The backup node. *)
Definition choose_node (nm : string) (b : Backup) : step_call unit :=
  let! picks := reads (λ s, plan (candidates (fed s) b) (rungs cfg) "node" 1 (bk_size_bytes b) (io_weight cfg)) in
  match picks with
  | Err e => Ret (bk_fail ("no backup node: " +:+ e))
  | Ok picks =>
      let pick := unwrap_or "" (picks !! 0%nat) in
      bk_set nm (λ r, r <| bk_node := Some pick |>) ;!
      backup_event nm Info (nm +:+ ": backups go to " +:+ pick) ;!
      Ret (Ok tt)
  end.
(** 2. Its volume there. *)
Definition create_target (nm node : string) (e : Engine) (b : Backup) : step_call unit :=
  let! r := create_volume e (backup_target_name nm) (bk_size_bytes b) None in
  match r with
  | Err x => Ret (bk_fail (node +:+ ": backup volume: " +:+ err_text x))
  | Ok v =>
      match get_str "id" v with
      | None => Ret (bk_fail (node +:+ ": no id in " +:+ j_show v))
      | Some id =>
          bk_set nm (λ r, r <| target_volume_id := Some id |> <| target_master := master_node_of v |>) ;!
          Ret (Ok tt)
      end
  end.
(** 3. Served to the node that ships to it. *)
Definition serve_target (nm node target : string) (e : Engine) (b : Backup) (at_ : DataAt) : step_call unit :=
  let master := unwrap_or node (target_master b) in
  let! r := attach_leg e target master None (Some (host_for cfg (da_node at_))) in
  match r with
  | Err x => Ret (bk_fail (node +:+ ": attach backup volume: " +:+ err_text x))
  | Ok a =>
      bk_set nm (λ r, r <| target_attach := Some a |> <| attached_for := Some (da_node at_) |>) ;!
      Ret (Ok tt)
  end.
(** 3b. As big as the volume. *)
Definition grow_target (nm node target : string) (e : Engine) (bytes : Z) : step_call unit :=
  let! r := expand_v1 e target bytes in
  match r with
  | Err x => Ret (bk_fail (node +:+ ": expand backup volume: " +:+ err_text x))
  | Ok _ =>
      bk_set nm (λ r, r <| bk_size_bytes := bytes |>) ;!
      backup_event nm Info (nm +:+ ": backup volume on " +:+ node +:+ " grown to " +:+ pretty bytes +:+ " bytes") ;!
      Ret (Ok tt)
  end.

(** [finish]: a ship is done. *)
Definition drop_points (e : Engine) (dropped : list BackupPoint) : handler J (list string) :=
  for_fold (λ failed d,
    let! r := drop_snapshot e (point_name d) (point_engine_id d) in
    Ret (if is_err r then failed ++ [point_name d] else failed)%list) [] dropped.
Definition finished (pts : list BackupPoint) (job : ShipJob) (interval : Z) (now : time) (r : Backup) : Backup :=
  r <| points := pts |> <| bk_base := Some (job_snapshot job) |> <| bk_job := None |> <| bk_state := Idle |>
    <| bk_message := None |>
    <| next_at_ms := Z.max (now_ms now) (ms_after (ship_taken_at_ms (job_snapshot job)) interval) |>.
Definition finish (nm : string) (b : Backup) (job : ShipJob) (be serving : Engine) (keep : Z) (now : time)
    : step_call unit :=
  let point_nm := nm +:+ "-bk-" +:+ pretty (ship_taken_at_ms (job_snapshot job)) in
  let! r := create_snapshot_call be point_nm (backup_target_name nm) in
  match r with
  | Err x => Ret (bk_fail (unwrap_or "?" (bk_node b) +:+ ": point: " +:+ err_text x))
  | Ok p =>
      let point := {| point_name := point_nm; point_taken_at_ms := ship_taken_at_ms (job_snapshot job);
                      point_engine_id := get_str "id" p |} in
      let pts := (points b ++ [point])%list in
      let dropped := prune pts keep in
      let! failed := drop_points be dropped in
      let left := points_left pts dropped failed in
      (match bk_base b with
       | Some old => drop_snapshot serving (ship_engine_name old) (ship_engine_id old) ;! Ret tt
       | None => Ret tt
       end) ;!
      bk_set nm (finished left job (map_or 3600%Z bp_interval_secs (bk_policy b)) now) ;!
      backup_event nm Info (nm +:+ ": point " +:+ point_nm +:+ " kept on " +:+ unwrap_or "?" (bk_node b) +:+ " ("
        +:+ pretty (Z.of_nat (length left)) +:+ " kept)") ;!
      Ret (Ok tt)
  end.

(** 4. A job in flight. *)
Definition job_read (nm : string) (b : Backup) (job : ShipJob) (be : Engine) (at_ : DataAt) (keep : Z) (now : time)
    (read : option J) : step_call unit :=
  let st := unwrap_or "lost" (mbind (M:=option) (get_str "state") read) in
  if st == "copying" then
    let j := unwrap_or j_null read in
    bk_set nm (λ r, r <| bk_job ::= fmap (M:=option) (λ jj,
      jj <| job_bytes_total := unwrap_or 0%Z (get_u64 "bytes_total" j) |>
         <| job_bytes_done := unwrap_or 0%Z (get_u64 "bytes_done" j) |>) |>) ;!
    Ret (Ok tt)
  else if st == "done" then finish nm b job be (da_engine at_) keep now
  else
    let msg := unwrap_or "the engine lost the job" (mbind (M:=option) (get_str "message") read) in
    drop_snapshot (da_engine at_) (ship_engine_name (job_snapshot job)) (ship_engine_id (job_snapshot job)) ;!
    bk_set nm (λ r, r <| bk_job := None |>) ;!
    Ret (bk_fail ("ship " +:+ job_id job +:+ " " +:+ st +:+ ": " +:+ msg)).
Definition job_step (nm : string) (b : Backup) (job : ShipJob) (be : Engine) (at_ : DataAt) (keep : Z) (now : time)
    : step_call unit :=
  if negb (ship_node (job_snapshot job) == da_node at_) then
    bk_set nm (λ r, r <| bk_job := None |> <| bk_state := Idle |> <| next_at_ms := now_ms now |>) ;!
    Ret (bk_fail ("serving node changed from " +:+ ship_node (job_snapshot job) +:+ " to " +:+ da_node at_
                  +:+ " during a ship"))
  else
    let! read := ship_job (da_engine at_) (job_id job) in
    match read with
    | Err x => Ret (Err (BkErr x))
    | Ok read => job_read nm b job be at_ keep now read
    end.

(** 5. Due: a snapshot of the served volume, and its ship. *)
Definition shipped (job : ShipJob) (r : Backup) : Backup :=
  r <| bk_job := Some job |> <| bk_state := Shipping |> <| bk_message := None |>.
Definition cannot_ship (msg : string) (taken interval : Z) (r : Backup) : Backup * bool :=
  (r <| bk_state := WaitingEngine |> <| bk_message := Some msg |> <| next_at_ms := ms_after taken interval |>,
   negb (bk_state r == WaitingEngine)).
Definition ship (nm node : string) (b : Backup) (p : BackupPolicy) (a : AttachedLeg) (at_ : DataAt) (snap : ShipSnapshot)
    (taken : Z) : step_call unit :=
  let! rate := reads (λ s, map_or 0%Z (λ v, class_rate cfg (bandwidth_class v)) (volumes (fed s) !! nm)) in
  let base := fmap (M:=option) ship_engine_name (bk_base b) in
  let! r := ship_snapshot (da_engine at_) (ship_engine_name snap) (drive_uri a) base rate in
  match r with
  | Ok j =>
      match get_str "id" j with
      | None => Ret (bk_fail ("ship answered without a job id: " +:+ j_show j))
      | Some id =>
          bk_set nm (shipped {| job_id := id; job_snapshot := snap;
            job_bytes_total := unwrap_or 0%Z (get_u64 "bytes_total" j);
            job_bytes_done := unwrap_or 0%Z (get_u64 "bytes_done" j) |}) ;!
          backup_event nm Info (nm +:+ ": shipping "
            +:+ (if is_some base then "changes since the last point" else "a first full copy (allocated extents)")
            +:+ " from " +:+ da_node at_ +:+ " to " +:+ node) ;!
          Ret (Ok tt)
      end
  | Err x =>
      if is_not_found x then
        drop_snapshot (da_engine at_) (ship_engine_name snap) (ship_engine_id snap) ;!
        let msg := da_node at_ +:+ " cannot ship snapshots yet (stormblock#400); retried every interval" in
        let! first := bk_update nm (cannot_ship msg taken (bp_interval_secs p)) in
        (if first == Some true then backup_event nm Warning (nm +:+ ": backup waiting: " +:+ msg) else Ret tt) ;!
        Ret (Ok tt)
      else
        drop_snapshot (da_engine at_) (ship_engine_name snap) (ship_engine_id snap) ;!
        Ret (bk_fail (da_node at_ +:+ ": ship: " +:+ err_text x))
  end.
Definition ship_due (nm node : string) (b : Backup) (p : BackupPolicy) (a : AttachedLeg) (at_ : DataAt) (now : time)
    : step_call unit :=
  if (now_ms now <? next_at_ms b)%Z then Ret (Ok tt)
  else
    let taken := now_ms now in
    let snap_nm := nm +:+ "-ship-" +:+ pretty taken in
    let! r := create_snapshot_call (da_engine at_) snap_nm (engine_name at_) in
    match r with
    | Err x => Ret (bk_fail (da_node at_ +:+ ": snapshot: " +:+ err_text x))
    | Ok v =>
        ship nm node b p a at_ {| ship_node := da_node at_; ship_engine_name := snap_nm;
          ship_engine_id := get_str "id" v; ship_taken_at_ms := taken |} taken
    end.

(** [step]: at most one thing. *)
Definition step_on (nm node : string) (e : Engine) (b : Backup) (p : BackupPolicy) (at_ : DataAt) (vol_bytes : Z) (now : time)
    : step_call unit :=
  match target_volume_id b with
  | None => create_target nm node e b
  | Some target =>
      match (if attached_for b == Some (da_node at_) then target_attach b else None) with
      | None => serve_target nm node target e b at_
      | Some a =>
          if is_none (bk_job b) && (bk_size_bytes b <? vol_bytes)%Z then grow_target nm node target e vol_bytes
          else match bk_job b with
               | Some job => job_step nm b job e at_ (bp_keep p) now
               | None => ship_due nm node b p a at_ now
               end
      end
  end.
Definition step (nm : string) (now : time) : step_call unit :=
  let! r := reads (bk_reading nm) in
  match r with
  | Err x => Ret (Err (BkErr x))
  | Ok None => Ret (Ok tt)
  | Ok (Some (b, at_, vol_bytes)) =>
      match bk_policy b with
      | None => Ret (Err BkPanic)
      | Some p =>
          match bk_node b with
          | None => choose_node nm b
          | Some node =>
              let! e := reads (λ s, engine_on (fed s) node) in
              match e with
              | Err x => Ret (Err (BkErr x))
              | Ok e => step_on nm node e b p at_ vol_bytes now
              end
          end
      end
  end.

(** [run]: the step of every volume with a policy; a panic ends the task
    with the claim held. *)
Definition step_failed (msg : string) (interval : Z) (now : time) (b : Backup) : Backup * bool :=
  (b <| bk_state := BkFailed |> <| bk_message := Some msg |> <| next_at_ms := ms_after (now_ms now) interval |>,
   negb (bk_state b == BkFailed) || negb (bk_message b == Some msg)).
Definition note_step_failed (nm : string) (now : time) (e : EngineError) : handler J unit :=
  let! interval := reads (λ s, map_or 3600%Z bp_interval_secs (backups (fed s) !! nm ≫= bk_policy)) in
  let! changed := bk_update nm (step_failed (err_text e) interval now) in
  if changed == Some true then backup_event nm Error (nm +:+ ": backup: " +:+ err_text e) else Ret tt.
Definition backup_one (now : time) (_ : unit) (nm : string) : handler J (result unit unit) :=
  let! claimed := claim (backup_claim nm) in
  if negb claimed then Ret (Ok tt)
  else
    let! r := step nm now in
    match r with
    | Err BkPanic => Ret (Err tt)
    | Ok _ => release (backup_claim nm) ;! Ret (Ok tt)
    | Err (BkErr e) => release (backup_claim nm) ;! note_step_failed nm now e ;! Ret (Ok tt)
    end.
Definition backup_due (s : App) : list string :=
  map bk_volume (List.filter (λ b, is_some (bk_policy b) && negb (source_deleted b)) (bt_values (backups (fed s)))).
Definition backup_run (now : time) : handler J (result unit unit) :=
  let! active := reads (recovery_active cfg) in
  if negb active then Ret (Ok tt)
  else
    let! names := reads backup_due in
    for_try (backup_one now) tt names.
End backup.

(** ** The API *)

Definition Backup_new (nm : string) (size : Z) : Backup :=
  MkBackup nm size None None None None None None None None [] Idle None 0 false.

Section backup_api.
Context {J : Type} `{Json J} `{HttpShow}.
Context `{Deserialize J EngineVolume} `{Deserialize J Slab} `{Deserialize J Discovery}.
Context (cfg : Config) (engine_token : NodeConfig → option string) (admin_credential : string → option string).
Abbreviation engine_for := (engine_for engine_token admin_credential).
Abbreviation api A := (handler J (result A ApiError)).

Definition bk_commit (subj : string) (sev : Severity) (msg : string) : handler J unit :=
  publish_change ;! backup_event subj sev msg.

(** [put_policy]: the body's fields, then the lock section. *)
Definition check_policy (p : BackupPolicy) : result unit ApiError :=
  if (bp_interval_secs p <? 60)%Z then Err (ApiBadRequest "interval_secs: at least 60")
  else if (bp_keep p =? 0)%Z then Err (ApiBadRequest "keep: at least 1")
  else match bp_pool p with
       | Some n => if is_none (pool (pools cfg) n) then Err (ApiNotFound ("pool " +:+ debug_str n)) else Ok tt
       | None => Ok tt
       end.
Definition same_destination (p q : BackupPolicy) : bool :=
  (bp_pool p == bp_pool q) && (bp_tier p == bp_tier q) && (bp_node p == bp_node q).
Definition policy_record (nm : string) (p : BackupPolicy) (now : time) (s : App) : App * result Backup ApiError :=
  match opt_filter (λ n, is_none (nodes (fed s) !! n)) (bp_node p) with
  | Some n => (s, Err (ApiNotFound ("node " +:+ debug_str n)))
  | None =>
      match volumes (fed s) !! nm with
      | None => (s, Err (ApiNotFound ("volume " +:+ debug_str nm)))
      | Some vol =>
          if (match assembly vol with Clone => true | _ => false end) then
            (s, Err (ApiConflict (nm +:+ " is a clone on its parent's data; back up the parent")))
          else
            let b := unwrap_or (Backup_new nm (size_bytes vol)) (backups (fed s) !! nm) in
            let s1 := s <| fed ::= λ fd, fd <| backups ::= <[nm := b]> |> |> in
            if is_some (bk_node b) && map_or false (λ old, negb (same_destination old p)) (bk_policy b) then
              (s1, Err (ApiConflict (nm +:+ ": its backups are on " +:+ unwrap_or "?" (bk_node b)
                          +:+ "; purge them (DELETE …/backup?purge=true) to move them")))
            else
              let b := if is_none (bk_policy b) then b <| next_at_ms := now_ms now |> else b in
              let b := b <| bk_policy := Some p |> in
              (s <| fed ::= λ fd, bump (fd <| backups ::= <[nm := b]> |>) |>, Ok b)
      end
  end.
Definition put_policy (nm : string) (p : BackupPolicy) : api Backup :=
  match check_policy p with
  | Err e => Ret (Err e)
  | Ok _ =>
      let! now := invoke Now in
      let!? b := atomic (policy_record nm p now) in
      bk_commit nm Info (nm +:+ ": backups every " +:+ pretty (bp_interval_secs p) +:+ " s, " +:+ pretty (bp_keep p)
                         +:+ " points kept") ;!
      Ret (Ok b)
  end.

(** [purge]: what a backup holds. *)
Definition purge_engine (fd : FedState) (node : string) : result Engine ApiError :=
  match nodes fd !! node with
  | None => Err (ApiConflict ("node " +:+ debug_str node +:+ " not in registry"))
  | Some n => if negb (healthy (status n)) then Err (ApiConflict (node +:+ " is unreachable; purge when it answers"))
              else Ok (engine_for n)
  end.
(** The base and a job's snapshot. *)
Definition ship_snapshots (b : Backup) : list ShipSnapshot :=
  (option_list (bk_base b) ++ option_list (fmap (M:=option) job_snapshot (bk_job b)))%list.
Definition answering (fd : FedState) (node : string) : option Engine :=
  fmap (M:=option) engine_for (opt_filter (λ n, healthy (status n)) (nodes fd !! node)).
Definition purge_reading (b : Backup) (s : App) : result (option Engine * list (Engine * ShipSnapshot)) ApiError :=
  let? be := (match bk_node b with
    | Some n => let? e := purge_engine (fed s) n in Ok (Some e)
    | None => Ok None
    end) in
  Ok (be, omap (λ x, fmap (M:=option) (λ e, (e, x)) (answering (fed s) (ship_node x))) (ship_snapshots b)).
Definition drop_point (e : Engine) (_ : unit) (p : BackupPoint) : api unit :=
  let! r := drop_snapshot e (point_name p) (point_engine_id p) in
  Ret (map_err (λ x, ApiUpstream ("point " +:+ point_name p +:+ ": " +:+ err_text x)) r).
Definition purge_target (e : Engine) (b : Backup) : api unit :=
  match target_volume_id b with
  | None => Ret (Ok tt)
  | Some t =>
      (match target_master b with Some m => detach_volume e t m ;! Ret tt | None => Ret tt end) ;!
      let! r := delete_volume e t in
      Ret (map_err (λ x, ApiUpstream ("backup volume: " +:+ err_text x)) r)
  end.
Definition purge (b : Backup) : api unit :=
  let!? r := reads (purge_reading b) in
  for_each (λ '(e, snap), drop_snapshot e (ship_engine_name snap) (ship_engine_id snap) ;! Ret tt) r.2 ;!
  match r.1 with
  | None => Ret (Ok tt)
  | Some be => let!? _ := for_try (drop_point be) tt (points b) in purge_target be b
  end.

(** [stop]: how many points were there; [None], no backups at all. *)
Definition stopped (b : Backup) : Backup := b <| bk_policy := None |> <| bk_state := Idle |> <| bk_message := None |>.
Definition stop_record (nm : string) (s : App) : App * option Backup :=
  match backups (fed s) !! nm with
  | None => (s, None)
  | Some b => (s <| fed ::= λ fd, bump (fd <| backups ::= <[nm := stopped b]> |>) |>, Some (stopped b))
  end.
Definition stop (nm : string) (purge_ : bool) : api (option nat) :=
  let! b := atomic (stop_record nm) in
  match b with
  | None => Ret (Ok None)
  | Some b =>
      let n := length (points b) in
      if negb purge_ then
        bk_commit nm Info (nm +:+ ": backups stopped; " +:+ pretty (Z.of_nat n) +:+ " points kept") ;! Ret (Ok (Some n))
      else
        let!? _ := purge b in
        writes (λ s, s <| fed ::= λ fd, bump (fd <| backups ::= delete nm |>) |>) ;!
        bk_commit nm Info (nm +:+ ": backups purged (" +:+ pretty (Z.of_nat n) +:+ " points)") ;!
        Ret (Ok (Some n))
  end.

(** [restore]: a clone of a point on the backup node, served from there. *)
Definition restore_reading (volume point nm : string) (s : App) : result (Backup * string * Engine) ApiError :=
  match backups (fed s) !! volume with
  | None => Err (ApiNotFound ("no backups of " +:+ debug_str volume))
  | Some b =>
      if negb (existsb (λ p, point_name p == point) (points b)) then
        Err (ApiNotFound ("point " +:+ debug_str point +:+ " of " +:+ debug_str volume))
      else if (nm == "") || ends_with MIRROR_SUFFIX nm then Err (ApiBadRequest "a name, not ending in -mirror")
      else if is_some (volumes (fed s) !! nm) || is_some (snapshots (fed s) !! nm) then
        Err (ApiConflict (debug_str nm +:+ " exists"))
      else if map_or false source_deleted (backups (fed s) !! nm) then
        Err (ApiConflict (debug_str nm +:+ " names a deleted volume's backups"))
      else match bk_node b with
           | None => Err (ApiConflict "no backup node")
           | Some node =>
               match answering (fed s) node with
               | None => Err (ApiConflict (node +:+ " holds the backups and is unreachable"))
               | Some e => Ok (b, node, e)
               end
           end
  end.
Definition restored (nm : string) (b : Backup) (node id : string) (master : option string) (now : time) : DistVolume :=
  new_volume nm (bk_size_bytes b) None 1 (unwrap_or "node" (rungs cfg !! 0%nat)) [new_leg node (Some id) master] now [] None None.
Definition insert_volume (nm : string) (v : DistVolume) : handler J unit :=
  writes (λ s, s <| fed ::= λ fd, bump (fd <| volumes ::= <[nm := v]> |>) |>).
Definition restore (volume point nm : string) : api (option View) :=
  let!? r := reads (restore_reading volume point nm) in
  let '(b, node, e) := r in
  let master := unwrap_or node (target_master b) in
  let! c := create_clone_call e nm (bk_size_bytes b) master point in
  match c with
  | Err x => Ret (Err (ApiUpstream (node +:+ ": restore: " +:+ err_text x)))
  | Ok v =>
      match get_str "id" v with
      | None => Ret (Err (ApiUpstream (node +:+ ": no id in " +:+ j_show v)))
      | Some id =>
          let! now := invoke Now in
          insert_volume nm (restored nm b node id (opt_or (master_node_of v) (Some master)) now) ;!
          bk_commit nm Info (nm +:+ ": restored from " +:+ volume +:+ "'s point " +:+ point +:+ " on " +:+ node) ;!
          publish engine_token admin_credential nm ;!
          reads (λ s, Ok (fmap (M:=option) (view_in (fed s) (heads s)) (volumes (fed s) !! nm)))
      end
  end.

(** [delete_point]. *)
Definition point_reading (volume point : string) (s : App) : result (option (BackupPoint * Engine)) ApiError :=
  match backups (fed s) !! volume with
  | None => Ok None
  | Some b =>
      match find_first (λ x, point_name x == point) (points b) with
      | None => Ok None
      | Some p =>
          let node := unwrap_or "" (bk_node b) in
          match answering (fed s) node with
          | None => Err (ApiConflict (node +:+ " holds the backups and is unreachable"))
          | Some e => Ok (Some (p, e))
          end
      end
  end.
Definition delete_point (volume point : string) : api unit :=
  let!? r := reads (point_reading volume point) in
  match r with
  | None => Ret (Ok tt)
  | Some (p, e) =>
      let! d := drop_snapshot e (point_name p) (point_engine_id p) in
      match d with
      | Err x => Ret (Err (ApiUpstream (err_text x)))
      | Ok _ =>
          writes (λ s, s <| fed ::= λ fd, bump (fd <| backups ::= alter (λ b,
            b <| points ::= List.filter (λ x, negb (point_name x == point)) |>) volume |>) |>) ;!
          bk_commit volume Info (volume +:+ ": backup point " +:+ point +:+ " deleted") ;!
          Ret (Ok tt)
      end
  end.

(** [on_volume_delete]. *)
Definition orphaned (b : Backup) : Backup :=
  b <| bk_policy := None |> <| bk_base := None |> <| bk_job := None |> <| bk_state := Idle |> <| source_deleted := true |>
    <| bk_message := Some "the volume was deleted; its points are kept until purged" |>.
Definition drop_base (nm : string) (_ : unit) (x : option Engine * ShipSnapshot) : api unit :=
  match x with
  | (None, snap) => Ret (Err (ApiConflict (ship_node snap +:+ " holds " +:+ nm +:+ "'s backup base and is unreachable")))
  | (Some e, snap) =>
      let! r := drop_snapshot e (ship_engine_name snap) (ship_engine_id snap) in
      Ret (map_err (λ x, ApiUpstream (nm +:+ ": backup base " +:+ ship_engine_name snap +:+ ": " +:+ err_text x)) r)
  end.
Definition on_volume_delete (nm : string) : api unit :=
  let! r := reads (λ s, fmap (M:=option) (λ b, (b, map (λ x, (answering (fed s) (ship_node x), x)) (ship_snapshots b)))
                          (backups (fed s) !! nm)) in
  match r with
  | None => Ret (Ok tt)
  | Some (b, serving) =>
      let!? _ := for_try (drop_base nm) tt serving in
      writes (λ s, s <| fed ::= λ fd, bump (fd <| backups ::= alter orphaned nm |>) |>) ;!
      backup_event nm Info (nm +:+ ": deleted; its " +:+ pretty (Z.of_nat (length (points b)))
                            +:+ " backup points are kept (restore or purge them)") ;!
      Ret (Ok tt)
  end.
End backup_api.

Local Close Scope string_scope.

(** ** The points kept *)

Lemma by_taken_le a b : by_taken a b ≠ Gt ↔ (point_taken_at_ms a ≤ point_taken_at_ms b)%Z.
Proof. unfold by_taken. by rewrite Z.compare_le_iff. Qed.

(** The oldest go, as many as there are too many. *)
Lemma prune_split pts keep : ∃ rest,
  prune pts keep ++ rest ≡ₚ pts
  ∧ length rest = Nat.min (length pts) (Z.to_nat (Z.max keep 1))
  ∧ ∀ d p, d ∈ prune pts keep → p ∈ rest → (point_taken_at_ms d ≤ point_taken_at_ms p)%Z.
Proof.
  unfold prune. set (l := sort_by by_taken pts). set (n := (length l - _)%nat).
  assert (l ≡ₚ pts) as Hp by apply sort_by_perm.
  exists (drop n l). rewrite take_drop. split; [done|]. split; [rewrite length_drop, <-Hp; lia|].
  assert (StronglySorted (λ a b, by_taken a b ≠ Gt) l) as Hs.
  { apply (sort_by_sorted by_taken (λ _, True)); [..|by apply Forall_true].
    - intros a b _ _ Hg. apply by_taken_le. unfold by_taken in Hg. apply Z.compare_gt_iff in Hg. lia.
    - intros a b c _ _ _. rewrite !by_taken_le. lia. }
  rewrite <-(take_drop n l) in Hs. intros d p Hd Hr. apply by_taken_le.
  exact (StronglySorted_app_1_elem_of _ _ _ _ _ Hs Hd Hr).
Qed.

(** With names of their own: the points left are those not dropped and those
    whose drop failed. *)
Lemma points_left_spec pts keep fs : NoDup (map point_name pts) → sublist fs (prune pts keep) →
  let dropped := prune pts keep in
  let left := points_left pts dropped (map point_name fs) in
  (∀ p, p ∈ left ↔ p ∈ pts ∧ (p ∈ dropped → p ∈ fs))
  ∧ length left = (Nat.min (length pts) (Z.to_nat (Z.max keep 1)) + length fs)%nat.
Proof.
  intros Hnd Hfs dropped left. destruct (prune_split pts keep) as (rest & Hp & Hlen & _). fold dropped in Hp, Hfs.
  assert (∀ p q, p ∈ pts → q ∈ pts → point_name p = point_name q → p = q) as Hinj.
  { intros p q Hpi Hqi E. apply list_elem_of_lookup in Hpi as [i Hi]. apply list_elem_of_lookup in Hqi as [j Hj].
    enough (i = j) as <- by congruence. eapply NoDup_lookup; [exact Hnd|..].
    - by rewrite list_lookup_fmap, Hi.
    - by rewrite list_lookup_fmap, Hj, E. }
  assert (∀ p, p ∈ dropped → p ∈ pts) as Hsub by (intros p Hd; rewrite <-Hp; apply elem_of_app; by left).
  assert (∀ p, p ∈ fs → p ∈ dropped) as Hfd by (intros p; by apply sublist_subseteq).
  assert (∀ p, p ∈ pts → (negb (existsb (λ d, point_name d == point_name p) dropped)
                    || existsb (λ f, f == point_name p) (map point_name fs)) = true ↔ (p ∈ dropped → p ∈ fs)) as Hf.
  { intros p Hpi. rewrite orb_true_iff, negb_true_iff, <-not_true_iff_false, !existsb_true. split.
    - intros [Hno|(f & (q & -> & Hq)%list_elem_of_fmap & E%eqb_prop)] Hd.
      + destruct Hno. exists p. by rewrite eqb_refl.
      + rewrite <-(Hinj q p); auto.
    - intros Himp. destruct (decide (p ∈ dropped)) as [Hd|Hd].
      + right. exists (point_name p). split; [apply list_elem_of_fmap_2; auto|apply eqb_refl].
      + left. intros (d & Hdd & E%eqb_prop). apply Hd. rewrite <-(Hinj d p); auto. }
  assert (∀ p, p ∈ left ↔ p ∈ pts ∧ (p ∈ dropped → p ∈ fs)) as Hl.
  { intros p. unfold left, points_left. rewrite elem_of_filterb. split; intros [H1 H2]; (split; [done|]); by apply (Hf p). }
  split; [exact Hl|]. rewrite <-Hlen, Nat.add_comm, <-length_app. apply Permutation_length.
  assert (NoDup (dropped ++ rest)) as (Hdd & Hdr & Hrr)%NoDup_app by (rewrite Hp; by eapply NoDup_fmap_1).
  apply NoDup_Permutation.
  - apply NoDup_ListNoDup, List.NoDup_filter, NoDup_ListNoDup. by eapply NoDup_fmap_1.
  - apply NoDup_app. split; [exact (sublist_NoDup _ _ Hdd Hfs)|]. split; [auto|done].
  - intros p. rewrite Hl, elem_of_app, <-Hp, elem_of_app. specialize (Hfd p). specialize (Hdr p).
    destruct (decide (p ∈ dropped)); tauto.
Qed.

Section backup_facts.
Context {J : Type} `{Json J} `{HttpShow}.
Context `{Deserialize J EngineVolume} `{Deserialize J Slab} `{Deserialize J Discovery}.
Abbreviation step_call A := (handler J (result A StepEnd)).

#[local] Instance drop_snapshot_quiet e n i : Quiet (drop_snapshot (J:=J) e n i).
Proof. unfold drop_snapshot. apply _. Qed.
#[local] Instance drop_points_quiet e l : Quiet (drop_points (J:=J) e l).
Proof. unfold drop_points. apply _. Qed.

(** The points the engine fails to drop, one after another. *)
Section env.
Context {W : Type} (env : ∀ R, Call J R → W → R * W).
Fixpoint undropped (e : Engine) (l : list BackupPoint) (s : App) (w : W) : list BackupPoint :=
  match l with
  | [] => []
  | d :: l =>
      let p := drop_snapshot (J:=J) e (point_name d) (point_engine_id d) in
      (if is_err (run_value env p s w) then [d] else []) ++ undropped e l s (run_world env p s w)
  end.
Lemma undropped_sublist e l s w : sublist (undropped e l s w) l.
Proof.
  revert w. induction l as [|d l IH]; intros w; cbn [undropped]; [constructor|].
  destruct (is_err _); [apply sublist_skip|apply sublist_cons]; apply IH.
Qed.
Lemma drop_points_value e l s w :
  run_value env (drop_points (J:=J) e l) s w = map point_name (undropped e l s w).
Proof.
  unfold drop_points.
  assert (∀ l failed w, run_value env (for_fold (λ failed d,
      let! r := drop_snapshot (J:=J) e (point_name d) (point_engine_id d) in
      Ret (if is_err r then failed ++ [point_name d] else failed)%list) failed l) s w
    = (failed ++ map point_name (undropped e l s w))%list) as Hl; [|by apply (Hl l [])].
  clear. induction l as [|d l IH]; intros failed w; cbn [for_fold undropped]; [by rewrite app_nil_r|].
  rewrite !run_value_bind, !run_state_bind, !run_world_bind.
  rewrite (run_same env _ s w (drop_snapshot_quiet e (point_name d) (point_engine_id d) _)).
  unfold run_value at 2, run_state, run_world at 1. cbn [run fst snd]. rewrite IH.
  destruct (is_err _); cbn [app map]; [by rewrite <-app_assoc|done].
Qed.
End env.

Definition point_of (nm : string) (job : ShipJob) (id : option string) : BackupPoint :=
  {| point_name := (nm +:+ "-bk-" +:+ pretty (ship_taken_at_ms (job_snapshot job)))%string;
     point_taken_at_ms := ship_taken_at_ms (job_snapshot job); point_engine_id := id |}.
(** The points after a ship is done: of all with the new one, as many of
    the youngest as are to be kept, one at least, and of the others those in
    [failed], which could not be dropped. *)
Definition points_after (b : Backup) (pt : BackupPoint) (keep : Z) (dropped failed left : list BackupPoint) : Prop :=
  let pts := points b ++ [pt] in
  (∃ rest, dropped ++ rest ≡ₚ pts ∧ length rest = Nat.min (length pts) (Z.to_nat (Z.max keep 1))
     ∧ ∀ d p, d ∈ dropped → p ∈ rest → (point_taken_at_ms d ≤ point_taken_at_ms p)%Z)
  ∧ (∀ p, p ∈ left ↔ p ∈ pts ∧ (p ∈ dropped → p ∈ failed))
  ∧ length left = (Nat.min (length pts) (Z.to_nat (Z.max keep 1)) + length failed)%nat.
(** The backup's record after a ship is done. *)
Definition ship_recorded (job : ShipJob) (left : list BackupPoint) (interval : Z) (now : time) (r r' : Backup) : Prop :=
  let taken := ship_taken_at_ms (job_snapshot job) in
  points r' = left ∧ bk_base r' = Some (job_snapshot job) ∧ bk_job r' = None ∧ bk_state r' = Idle
  ∧ bk_message r' = None
  ∧ ((0 ≤ now < 2 ^ 63)%Z → (0 ≤ interval ∧ interval * 1000 < 2 ^ 63)%Z → (0 ≤ taken ∧ taken + interval * 1000 < 2 ^ 63)%Z →
       next_at_ms r' = Z.max (now / 10 ^ 6) (taken + interval * 1000))
  ∧ r' <| points := points r |> <| bk_base := bk_base r |> <| bk_job := bk_job r |> <| bk_state := bk_state r |>
       <| bk_message := bk_message r |> <| next_at_ms := next_at_ms r |> = r.
(** No record changes but the backup's, if it is still there. *)
Definition only_backup (nm : string) (R : Backup → Backup → Prop) (s s' : App) : Prop :=
  claims s' = claims s
  ∧ match backups (fed s) !! nm with
    | None => fed s' = fed s
    | Some r => ∃ r', R r r' ∧ fed s' = (fed s) <| backups := <[nm := r']> (backups (fed s)) |>
                                   <| revision := u64_add (revision (fed s)) 1 |>
    end.

Lemma points_after_left nm b job id keep failed :
  NoDup (map point_name (points b)) → point_name (point_of nm job id) ∉ map point_name (points b) →
  let pts := points b ++ [point_of nm job id] in
  sublist failed (prune pts keep) →
  points_after b (point_of nm job id) keep (prune pts keep) failed (points_left pts (prune pts keep) (map point_name failed)).
Proof.
  intros Hnd Hnew pts Hfs.
  assert (NoDup (map point_name pts)) as Hall.
  { unfold pts. rewrite map_app. apply NoDup_app. split; [done|]. split; [|apply NoDup_singleton].
    intros x Hx. cbn [map]. rewrite list_elem_of_singleton. by intros ->. }
  destruct (points_left_spec pts keep failed Hall Hfs) as [Hl Hlen].
  split; [apply prune_split|]. by split.
Qed.
Lemma as_i64_small z : (- 2 ^ 63 ≤ z < 2 ^ 63)%Z → as_i64 z = z.
Proof. intros Hz. unfold as_i64. rewrite Z.mod_small; lia. Qed.
Lemma finished_recorded left job interval now r : ship_recorded job left interval now r (finished left job interval now r).
Proof.
  unfold ship_recorded, finished. simpl. repeat (split; [done|]). split; [|by destruct r].
  intros Hn Hi Ht. f_equal.
  - unfold now_ms. rewrite (proj2 (Z.ltb_ge _ _)) by lia. apply as_i64_small.
    change (10 ^ 6)%Z with 1000000%Z. change (2 ^ 63)%Z with 9223372036854775808%Z in *.
    Z.to_euclidean_division_equations. lia.
  - unfold ms_after. rewrite (as_i64_small interval) by lia. rewrite (as_i64_small (interval * 1000)), as_i64_small by lia. done.
Qed.
Lemma bk_set_runs {W : Type} (env : ∀ R, Call J R → W → R * W) nm f (R : Backup → Backup → Prop) (Q : unit → App → W → Prop) s w :
  (∀ r, R r (f r)) → (∀ s' w', only_backup nm R s s' → Q tt s' w') → runs env (bk_set (J:=J) nm f) Q s w.
Proof.
  intros HR HQ. unfold bk_set, bk_update. apply runs_bind, runs_bind, runs_atomic.
  destruct (backups (fed s) !! nm) as [b|] eqn:Hb; cbn [fst snd].
  - apply runs_same; [apply quiet|]. intros w1. apply runs_ret, runs_ret, HQ. split; [done|]. rewrite Hb.
    exists (f b). by split.
  - apply runs_ret, runs_ret, HQ. split; [done|]. by rewrite Hb.
Qed.

Definition finish_post {W : Type} (env : ∀ R, Call J R → W → R * W) (nm : string) (b : Backup) (job : ShipJob)
    (be : Engine) (keep : Z) (now : time) (s : App) (w : W) (r : result unit StepEnd) (s' : App) : Prop :=
  let snapshot := create_snapshot_call be (point_name (point_of nm job None)) (backup_target_name nm) in
  match run_value env snapshot s w with
  | Err _ => is_err r = true ∧ fed s' = fed s ∧ claims s' = claims s
  | Ok v => r = Ok tt ∧ ∃ dropped left,
      points_after b (point_of nm job (get_str "id"%string v)) keep dropped
        (undropped env be dropped s (run_world env snapshot s w)) left
      ∧ only_backup nm (ship_recorded job left (map_or 3600%Z bp_interval_secs (bk_policy b)) now) s s'
  end.

Lemma finish_runs {W : Type} (env : ∀ R, Call J R → W → R * W) nm b job be serving keep now s w :
  NoDup (map point_name (points b)) → point_name (point_of nm job None) ∉ map point_name (points b) →
  runs env (finish (J:=J) nm b job be serving keep now) (λ r s' _, finish_post env nm b job be keep now s w r s') s w.
Proof.
  intros Hnd Hnew. unfold finish, finish_post. apply runs_same_at; [apply quiet|].
  change (point_name (point_of nm job None)) with (nm +:+ "-bk-" +:+ pretty (ship_taken_at_ms (job_snapshot job)))%string in *.
  set (w1 := run_world env _ s w). destruct (run_value env _ s w) as [v|x]; [|by apply runs_ret].
  apply runs_same_at; [apply quiet|]. rewrite drop_points_value.
  apply runs_same; [destruct (bk_base b); apply quiet|]. intros w2.
  apply runs_bind. eapply bk_set_runs; [apply finished_recorded|]. intros s1 w3 Hs1.
  unfold backup_event. apply (runs_step env report_step); [apply _..|apply event_of_report|]. intros _ s2 w4 [Hf Hc].
  apply runs_ret. split; [done|]. do 2 eexists.
  split; [by apply points_after_left; [..|apply undropped_sublist]|].
  unfold only_backup in *. rewrite Hf, Hc. exact Hs1.
Qed.
End backup_facts.

(** C31: A ship that is done. When the point cannot be snapshotted on the
    backup node nothing changes. Otherwise the backup's record takes the new
    point and loses the oldest points beyond [keep] (at least one stays), each
    one no younger than any that stays, except exactly those whose drop the
    engine refused; so it lists min(points, keep) plus those. The ship's
    snapshot becomes the base of the next one, no job is left in flight, the
    backup is idle with no message, and the next ship is due an interval
    after this one was taken, but not before now. Nothing else of the record
    changes, and no other record. *)
Theorem finish_spec {J} `{Json J} `{HttpShow} {W} (env : ∀ R, Call J R → W → R * W)
  nm b job be serving keep now s w
  (Hnd : NoDup (map point_name (points b))) (Hnew : point_name (point_of nm job None) ∉ map point_name (points b)) :
  let p := finish nm b job be serving keep now in
  finish_post env nm b job be keep now s w (run_value env p s w) (run_state env p s w).
Proof. intros p. by apply finish_runs. Qed.

(** ** The cycle and the API *)

Section example.
#[local] Existing Instances no_text no_volume no_slab no_discovery.
Local Open Scope string_scope.
Definition kept_volume (n : string) : DistVolume :=
  new_volume n 1024 None 1 "node" [new_leg "n1" (Some ("v-" +:+ n)) None] 0 [] None None.
Definition every_hour : BackupPolicy := MkBackupPolicy None None None 3600 2.
Definition backed_up (n : string) : Backup := (Backup_new n 1024) <| bk_policy := Some every_hour |>.
Definition backup_app : App :=
  App_new (FedState_default
    <| nodes := {["n1" := lone_node "n1" true; "n2" := (lone_node "n2" true) <| status ::= λ s, s <| free_bytes := 4096%Z |> |>]} |>
    <| volumes := {["a" := kept_volume "a"; "b" := kept_volume "b"]} |>
    <| backups := {["a" := backed_up "a"; "b" := backed_up "b"]} |>) None.
(** A ship of a volume with two points, two to keep: one goes. *)
Definition shipped_backup : Backup :=
  (backed_up "a") <| bk_node := Some "n2" |>
    <| points := [MkBackupPoint "a-bk-1" 1 (Some "p1"); MkBackupPoint "a-bk-2" 2 (Some "p2")] |>.
Definition shipped_job : ShipJob := MkShipJob "j" (MkShipSnapshot "n1" "a-ship-3" (Some "s3") 3) 10 10.
Definition ship_engine : Engine := {| url := "http://n2:9000"; token := None; admin := None |}.

Lemma finish_spec_witness :
  let s := backup_app <| fed ::= λ fd, fd <| backups ::= <["a" := shipped_backup]> |> |> in
  let p := finish "a" shipped_backup shipped_job ship_engine ship_engine 2 7 in
  is_ok (run_value race_env p s tt) = true
  ∧ fmap (M:=option) (λ b, map point_name (points b)) (backups (fed (run_state race_env p s tt)) !! "a") = Some ["a-bk-2"; "a-bk-3"]
  ∧ finish_post race_env "a" shipped_backup shipped_job ship_engine 2 7 s tt (run_value race_env p s tt) (run_state race_env p s tt).
Proof.
  intros s p. split; [vm_compute; reflexivity|]. split; [vm_compute; reflexivity|].
  assert (NoDup (map point_name (points shipped_backup))) as Hnd by (apply (bool_decide_eq_true_1 _); vm_compute; reflexivity).
  assert (point_name (point_of "a" shipped_job None) ∉ map point_name (points shipped_backup)) as Hnew
    by (apply (bool_decide_eq_true_1 _); vm_compute; reflexivity).
  exact (finish_spec race_env "a" shipped_backup shipped_job ship_engine ship_engine 2 7 s tt Hnd Hnew).
Defined.

(** The poller's task as far as its backups: it notes that it got past
    them. *)
Definition poll_backups : handler Tree unit :=
  let! r := backup_run example_cfg (λ _, None) (λ _, None) 7 in
  match r with
  | Ok _ => writes (λ s, s <| noted ::= λ n, {["polled"]} ∪ n |>)
  | Err _ => Ret tt
  end.
Definition stop_tasks : list (handler Tree unit) :=
  [poll_backups; stop (λ _, None) (λ _, None) "b" false ;! Ret tt].
(** The run has its list and works on [a] while the API stops [b]. *)
Definition stop_end := sched race_env ([0; 0; 0]%nat ++ repeat 1%nat 9 ++ repeat 0%nat 40)%list (backup_app, tt, stop_tasks).
End example.

(** Stopping a volume's backups while the cycle is at another volume: the
    cycle took its list before, and a step without a policy is a panic
    ([expect]). The task that polls ends there, with every task of the pool
    done: it never gets past its backups again, and the claim of that
    volume's backup is never given back. *)
Theorem stop_panics_poll : ∃ s ps,
  pool_steps (backup_app, stop_tasks) (s, ps)
  ∧ ps = [Ret tt; Ret tt]
  ∧ ("polled"%string ∉ noted s)
  ∧ backup_claim "b" ∈ claims s.
Proof.
  exists stop_end.1.1, stop_end.2. split; [apply (sched_sound race_env)|].
  assert (stop_end.2 = [Ret tt; Ret tt]) as Hp by (vm_compute; reflexivity).
  split; [exact Hp|].
  split.
  - apply (bool_decide_eq_false_1 _). vm_compute. reflexivity.
  - apply (bool_decide_eq_true_1 _). vm_compute. reflexivity.
Qed.
