(* ===== verification/Owned.v ===== *)
(** * Tasks that own what they change

    Handlers that change a record under its claim, and only then: [owns]
    follows a program with the claim it holds, from its own point of view
    (what others may do to the state in between is the [rely] of the claim
    held). [owned_pool] puts any number of such tasks together: claims stay
    exclusive and every step of the pool is one that its task was allowed. *)

From stdpp Require Import relations functions.
From S2P Require Import Prelude Async.
From stdpp Require Import options.

Section owned.
Context {E : Type → Type} {S K : Type}.
(** Whether a key is claimed; the steps of a task that holds a key (or
    none), that takes one and that gives it back. *)
Context (held : K → S → Prop) (G : option K → relation S) (Acq Rel : K → relation S).
(** What a task counts on while others run. *)
Context (rely : option K → relation S).

Inductive moves : option K → option K → relation S :=
  | moves_plain h s s' : G h s s' → moves h h s s'
  | moves_take k s s' : Acq k s s' → moves None (Some k) s s'
  | moves_give k s s' : Rel k s s' → moves (Some k) None s s'.

Fixpoint owns {A : Type} (h : option K) (p : prog E S A) (Q : option K → A → S → Prop) (s : S) : Prop :=
  match p with
  | Ret a => Q h a s
  | Atomic f k => ∀ s', rely h s s' → ∃ h', moves h h' s' (f s').1 ∧ owns h' (k (f s').2) Q (f s').1
  | Invoke c k => ∀ r, owns h (k r) Q s
  | Spawn q p => (∀ s, owns None q (λ _ _ _, True) s) ∧ owns h p Q s
  end.
(** What is asked of a task of the pool. *)
Definition owner (h : option K) (p : prog E S unit) (s : S) : Prop := owns h p (λ _ _ _, True) s.

Lemma owns_mono {A} h (p : prog E S A) (Q Q' : option K → A → S → Prop) s :
  owns h p Q s → (∀ h a s, Q h a s → Q' h a s) → owns h p Q' s.
Proof.
  intros Hp HQ. revert h s Hp. induction p as [X a|X Y f k' IH|X Y c k' IH|X q IHq p IH]; intros h s; simpl; [auto| | |].
  - intros Hp s' Hs'. destruct (Hp s' Hs') as (h' & ? & ?). eauto.
  - intros Hp r. eauto.
  - intros [Hq Hp]. eauto.
Qed.

Lemma owns_bind {A B} h (p : prog E S A) (k : A → prog E S B) Q s :
  owns h p (λ h a s, owns h (k a) Q s) s → owns h (bind p k) Q s.
Proof.
  revert h s. induction p as [X a|X Y f k' IH|X Y c k' IH|X q IHq p IH]; intros h s; simpl; [done| | |].
  - intros Hp s' Hs'. destruct (Hp s' Hs') as (h' & ? & ?). eauto.
  - intros Hp r. eauto.
  - intros [Hq Hp]. eauto.
Qed.
Lemma owns_bind_ok {A B X} h (p : prog E S (result A X)) (k : A → prog E S (result B X)) Q s :
  owns h p (λ h r s, match r with Ok a => owns h (k a) Q s | Err e => Q h (Err e) s end) s →
  owns h (bind_ok p k) Q s.
Proof. intros Hp. apply owns_bind. eapply owns_mono; [exact Hp|]. by intros ? [a|e]. Qed.

Lemma owns_outside {A} (G0 : relation S) (q : prog E S A) :
  (∀ s s', G0 s s' → G None s s') → guar G0 q → ∀ s, owns None q (λ _ _ _, True) s.
Proof.
  intros HG. induction q as [X a|X Y f k' IH|X Y c k' IH|X q IHq p IH]; intros Hg s; simpl in *.
  - done.
  - intros s' _. exists None. destruct (Hg s') as [Ha Hb]. split; [constructor; auto|auto].
  - auto.
  - destruct Hg. split; auto.
Qed.

(** A program that leaves alone what the claim covers: what is known of it
    stays. *)
Lemma owns_same {A} (G0 : relation S) (I : S → Prop) h (p : prog E S A) (Q : option K → A → S → Prop) s :
  (∀ h s s', G0 s s' → G h s s') → (∀ s s', rely h s s' → I s → I s') → (∀ s s', G0 s s' → I s → I s') →
  guar G0 p → I s → (∀ a s, I s → Q h a s) → owns h p Q s.
Proof.
  intros HG HIr HIg Hg HI HQ. revert s Hg HI.
  induction p as [X a|X Y f k' IH|X Y c k' IH|X q IHq p IH]; intros s Hg Hs; simpl in *.
  - auto.
  - intros s' Hs'. exists h. destruct (Hg s') as [Ha Hb]. split; [constructor; auto|]. eauto.
  - auto.
  - destruct Hg as [Hq Hp]. split; [|by apply IH]. intros s'. apply (owns_outside G0); auto.
Qed.

(** What nothing can undo stays known. *)
Lemma owns_frame {A} (I : S → Prop) h (p : prog E S A) (Q : option K → A → S → Prop) s :
  (∀ h s s', rely h s s' → I s → I s') → (∀ h h' s s', moves h h' s s' → I s → I s') → I s →
  owns h p Q s → owns h p (λ h a s, Q h a s ∧ I s) s.
Proof.
  intros Hr Hm. revert h s. induction p as [X a|X Y f k' IH|X Y c k' IH|X q IHq p IH]; intros h s HI; simpl; [done| | |].
  - intros Hp s' Hs'. destruct (Hp s' Hs') as (h' & Hmv & ?). exists h'. split; [done|]. eauto.
  - intros Hp r. eauto.
  - intros [Hq Hp]. eauto.
Qed.

Lemma owner_rely h (p : prog E S unit) s s' : Transitive (rely h) → owner h p s → rely h s s' → owner h p s'.
Proof.
  unfold owner. intros HT. revert s. induction p as [X a|X Y f k' IH|X Y c k' IH|X q IHq p IH]; intros s; simpl; [done| | |].
  - intros Hp Hr s2 Hs2. apply Hp. by etrans.
  - intros Hp Hr r. eauto.
  - intros [Hq Hp] Hr. eauto.
Qed.

(** ** Any number of them *)

Definition holds (h : option K) (s : S) : Prop := match h with Some k => held k s | None => True end.
Definition apart (h h' : option K) : Prop := match h, h' with Some k, Some k' => k ≠ k' | _, _ => True end.
(** Taking a key needs it free; what one task does, another counted on. *)
Definition exclusive : Prop :=
  (∀ h, PreOrder (rely h))
  ∧ (∀ k s s', Acq k s s' → ¬ held k s ∧ held k s')
  ∧ (∀ k s s', held k s → G (Some k) s s' → held k s')
  ∧ (∀ h h' j s s', moves h h' s s' → holds h s → holds j s → apart h j → rely j s s' ∧ holds j s').

Definition pool_ok (s : S) (ps : list (prog E S unit)) (hs : nat → option K) : Prop :=
  (∀ i p, ps !! i = Some p → owner (hs i) p s)
  ∧ (∀ i, holds (hs i) s)
  ∧ (∀ i j, i ≠ j → apart (hs i) (hs j))
  ∧ (∀ i, length ps ≤ i → hs i = None)%nat.

Lemma moves_holds h h' s s' : exclusive → moves h h' s s' → holds h s → holds h' s'.
Proof.
  intros (_ & Ht & Hk & _) [h0 s0 s1 HG|k s0 s1 HA|k s0 s1 HR]; simpl; [|intros _; by apply (Ht k s0)|done].
  destruct h0; simpl; [|done]. intros. by eapply Hk.
Qed.
Lemma moves_apart h h' j s s' : exclusive → moves h h' s s' → holds j s → apart h j → apart h' j.
Proof.
  intros (_ & Ht & _) Hm Hj Ha. destruct Hm as [h s s' HG|k s s' HA|k s s' HR]; [done| |done].
  destruct j as [j|]; [|done]. simpl in *. intros ->. by destruct (Ht _ _ _ HA).
Qed.
Lemma apart_sym h h' : apart h h' → apart h' h.
Proof. destruct h, h'; simpl; congruence. Qed.

(** One task steps, and goes on with what it now holds. *)
Lemma pool_ok_move s ps hs i p p' h' s' :
  exclusive → pool_ok s ps hs → ps !! i = Some p → moves (hs i) h' s s' → owner h' p' s' →
  pool_ok s' (<[i := p']> ps) (<[i := h']> hs).
Proof.
  intros Hx (Hp & Hh & Ha & Hn) Hi Hm Ho.
  assert (∀ j, i ≠ j → rely (hs j) s s' ∧ holds (hs j) s') as Hoth.
  { destruct Hx as (_ & _ & _ & Hx). intros j Hij. apply (Hx (hs i) h'); auto. }
  assert (∀ j, i ≠ j → apart h' (hs j)) as Hap.
  { intros j Hij. eapply moves_apart; eauto. }
  split; [|split; [|split]].
  - intros j q. destruct (decide (i = j)) as [<-|Hij].
    + rewrite list_lookup_insert_eq, fn_lookup_insert by (by eapply lookup_lt_Some). by intros [= <-].
    + rewrite list_lookup_insert_ne, fn_lookup_insert_ne by done. intros Hq.
      eapply owner_rely; [by apply Hx|by apply Hp|by apply Hoth].
  - intros j. destruct (decide (i = j)) as [<-|Hij].
    + rewrite fn_lookup_insert. by eapply moves_holds.
    + rewrite fn_lookup_insert_ne by done. by apply Hoth.
  - intros j j' Hjj. destruct (decide (i = j)) as [<-|Hij], (decide (i = j')) as [<-|Hij']; [done|..];
      rewrite ?fn_lookup_insert, ?fn_lookup_insert_ne by done; [by apply Hap|by apply apart_sym, Hap|by apply Ha].
  - intros j. rewrite length_insert. intros Hj.
    pose proof (lookup_lt_Some _ _ _ Hi). rewrite fn_lookup_insert_ne by lia. by apply Hn.
Qed.

(** A step that changes nothing: its task goes on. *)
Lemma pool_ok_stay s ps hs i p p' :
  pool_ok s ps hs → ps !! i = Some p → owner (hs i) p' s → pool_ok s (<[i := p']> ps) hs.
Proof.
  intros (Hp & Hh & Ha & Hn) Hi Ho. split; [|by rewrite length_insert].
  intros j q. destruct (decide (i = j)) as [<-|Hij].
  - rewrite list_lookup_insert_eq by (by eapply lookup_lt_Some). by intros [= <-].
  - rewrite list_lookup_insert_ne by done. apply Hp.
Qed.
Lemma pool_ok_spawn s ps hs q : pool_ok s ps hs → owner None q s → pool_ok s (ps ++ [q]) hs.
Proof.
  intros (Hp & Hh & Ha & Hn) Hq. split; [|split; [done|split; [done|]]].
  - intros j p [Hj|[Hlen Hj]]%lookup_app_Some; [by apply Hp|].
    apply list_lookup_singleton_Some in Hj as [Hj <-]. by rewrite Hn by lia.
  - intros j. rewrite length_app. intros. apply Hn. simpl in *. lia.
Qed.

(** A step some task was allowed, holding what it held. *)
Definition allowed (s s' : S) : Prop := ∃ h h', holds h s ∧ moves h h' s s'.

Lemma pool_ok_step s ps s' ps' hs :
  exclusive → pool_step (s, ps) (s', ps') → pool_ok s ps hs → ∃ hs', pool_ok s' ps' hs' ∧ rtc allowed s s'.
Proof.
  intros Hx Hs Hok. inversion Hs as [? ? i B f k Hi|? ? i R c k r Hi|? ? i q p Hi]; subst;
    pose proof (proj1 Hok i _ Hi) as Ho.
  - destruct (Ho s) as (h' & Hm & Ho'). { destruct (proj1 Hx (hs i)). reflexivity. }
    exists (<[i := h']> hs). split; [exact (pool_ok_move _ _ _ _ _ _ _ _ Hx Hok Hi Hm Ho')|].
    apply rtc_once. exists (hs i), h'. split; [apply Hok|done].
  - exists hs. split; [|done]. apply (pool_ok_stay _ _ _ _ _ _ Hok Hi). exact (Ho r).
  - exists hs. split; [|done]. destruct Ho as [Hq Ho]. apply pool_ok_spawn; [|apply Hq].
    exact (pool_ok_stay _ _ _ _ _ _ Hok Hi Ho).
Qed.
Lemma owned_pool s ps s' ps' hs :
  exclusive → pool_steps (s, ps) (s', ps') → pool_ok s ps hs → ∃ hs', pool_ok s' ps' hs' ∧ rtc allowed s s'.
Proof.
  intros Hx Hs. remember (s, ps) as c eqn:Ec. remember (s', ps') as c' eqn:Ec'.
  revert s ps hs Ec. induction Hs as [c|c [s1 ps1] c2 H1 _ IH]; intros s ps hs Ec Hok.
  - rewrite Ec in Ec'. injection Ec' as <- <-. exists hs. split; [exact Hok|apply rtc_refl].
  - rewrite Ec in H1. destruct (pool_ok_step _ _ _ _ _ Hx H1 Hok) as (hs1 & Hok1 & Ha).
    destruct (IH Ec' _ _ _ eq_refl Hok1) as (hs2 & Hok2 & Ha2). exists hs2. split; [done|by etrans].
Qed.
(** Tasks that hold nothing yet. *)
Lemma pool_ok_start s ps : (∀ p, p ∈ ps → owner None p s) → pool_ok s ps (λ _, None).
Proof.
  intros Hp. split; [|done]. intros i p Hi. apply Hp. by eapply list_elem_of_lookup_2.
Qed.
End owned.
