(* ===== verification/VmMigrate.v ===== *)
(** * Live migration of node volumes (src/vmmigrate.rs, src/api/vmmigrations.rs)

    The disk of a running VM moves from node S to node T: S's engine mirrors
    its volume to a new one on T, the switch-over stops the mirror, and only
    then is S's volume retired. Every step is recorded before the next.
    Here are the steps and the requests; what they keep, under any
    interleaving of them, is in VmSteps. *)

From stdpp Require Import relations.
From S2P Require Import Prelude F64 Config Model Placement Events Refusal Async Json Inventory Sync.
From S2P Require Import Recovery App Engine Publish Replace Backups.
From stdpp Require Import options.

Local Open Scope string_scope.

#[export] Instance VmMigrationState_eq_dec : EqDecision VmMigrationState.
Proof. solve_decision. Defined.
#[export] Instance VmMigration_eta : Eta VmMigration := λ r,
  MkVmMigration (vm_id r) (vm_source_node r) (source_volume_id_ r) (source_name r) (vm_size_bytes r) (vm_target_node r)
    (target_name r) (vm_target_volume_id r) (target_local_id r) (vm_target_attach r) (vm_placement r) (mirror_target r)
    (vm_state r) (bytes_total r) (bytes_remaining r) (vm_message r) (aborting r) (started_at_ms r) (updated_at_ms r).

Definition KEEP_TERMINAL_MS : Z := 24 * 3600 * 1000.
Definition vm_claim (id : string) : string := "vmmig:" +:+ id.
Definition SLAB_DRIVE_PLACEMENT_ISSUE : string := "stormblock#426".

(** [{:?}] of a state. *)
Definition vm_state_debug (st : VmMigrationState) : string :=
  match st with
  | Starting => "Starting" | Copying => "Copying" | Synced => "Synced" | CutOver => "CutOver"
  | Completed => "Completed" | Aborted => "Aborted" | VmFailed => "Failed"
  end.

(** The errors of a step: [Refused], or any other. *)
Inductive VmError := VRefused (m : string) | VFailed (e : EngineError).
Definition vm_text (e : VmError) : string := match e with VRefused m => m | VFailed e => err_text e end.
(** [with_context]. *)
Definition in_context {A : Type} (ctx : string) (r : result A EngineError) : result A VmError :=
  map_err (λ e, VFailed (MkEngineError (ctx +:+ ": " +:+ err_text e) (status_of e) (is_refused e))) r.

(** ** Named places on T *)

Inductive PlaceLookup := PFound (id : string) (free : Z) | PMissing | PNoSlab (id : string).
Inductive PlaceRefusal := PlMissing (m : string) | PlNoRoom (m : string) | PlNotYet (m : string).

Definition find_slab (slabs : list Slab) (nm : string) : PlaceLookup :=
  match find_first (λ s, slab_id s == nm) slabs with
  | Some s => PFound (slab_id s) (slab_free_bytes s)
  | None => PMissing
  end.
Definition names_drive (nm : string) (s : Slab) : bool :=
  match slab_drive s with
  | Some d => existsb (λ x, (x != "") && (x == nm)) [serial d; wwn d; dr_path d]
  | None => false
  end.
Definition find_drive (slabs : list Slab) (nm : string) : PlaceLookup :=
  let on := List.filter (names_drive nm) slabs in
  match mbind (M:=option) slab_drive (on !! 0%nat) with
  | None => PMissing
  | Some d => PFound (drive_describe d) (foldl (λ n s, u64_add n (slab_free_bytes s)) 0%Z on)
  end.
Definition check_placement (target kind nm : string) (size : Z) (lookup : PlaceLookup)
    : result TargetPlacement PlaceRefusal :=
  let what := if kind == "array" then "RAID set (array)" else kind in
  match lookup with
  | PMissing => Err (PlMissing (target +:+ " has no " +:+ what +:+ " " +:+ debug_str nm))
  | PNoSlab id => Err (PlNoRoom (target +:+ ": array " +:+ debug_str nm +:+ " (" +:+ id
                         +:+ ") carries no slab: nothing can be carved on it"))
  | PFound id free =>
      if (free <? size)%Z then
        Err (PlNoRoom (target +:+ ": " +:+ what +:+ " " +:+ debug_str nm +:+ " has " +:+ pretty free
               +:+ " bytes free, the volume is " +:+ pretty size))
      else if kind != "array" then
        Err (PlNotYet (target +:+ ": " +:+ what +:+ " " +:+ debug_str nm +:+ " is there with room, but its engine takes no "
               +:+ kind +:+ " placement on a create yet (" +:+ SLAB_DRIVE_PLACEMENT_ISSUE
               +:+ "); name a RAID set (" +:+ debug_str "array" +:+ ") or leave placement out"))
      else Ok {| tp_kind := kind; tp_name := nm; tp_id := id |}
  end.

(** ** S's mirror *)

Record MirrorReading := MkMirrorReading {
  mr_target : string;
  mr_state : string;
  mr_bytes_total : Z;
  mr_bytes_remaining : Z;
  mr_message : option string;
}.

(** Fold a reading into a copying or synced record. *)
Definition moving (m : VmMigration) : bool :=
  match vm_state m with Copying | Synced => negb (aborting m) | _ => false end.
Definition vm_fail_record (msg : string) (m : VmMigration) : VmMigration :=
  m <| vm_state := VmFailed |> <| vm_message := Some msg |>.
Definition read_mirror_state (r : MirrorReading) (m : VmMigration) : VmMigration :=
  let m := m <| bytes_total := mr_bytes_total r |> <| bytes_remaining := mr_bytes_remaining r |> in
  if mr_state r == "synced" then m <| vm_state := Synced |> <| vm_message := None |>
  else if mr_state r == "copying" then m <| vm_state := Copying |> <| vm_message := None |>
  else vm_fail_record (unwrap_or ("mirror " +:+ mr_state r) (mr_message r)) m.
Definition vm_apply_reading (m : VmMigration) (reading : option MirrorReading) : VmMigration :=
  if negb (moving m) then m
  else match reading with
       | None => vm_fail_record (vm_source_node m +:+ " holds no mirror of " +:+ source_name m +:+ " any more") m
       | Some r =>
           if Some (mr_target r) == mirror_target m then read_mirror_state r m
           else vm_fail_record (vm_source_node m +:+ " mirrors " +:+ source_name m +:+ " to another target ("
                                +:+ mr_target r +:+ ")") m
       end.
Definition state_changed (m m' : VmMigration) : option VmMigrationState :=
  if vm_state m' == vm_state m then None else Some (vm_state m').

Section vm.
Context {J : Type} `{Json J} `{HttpShow}.
Context `{Deserialize J EngineVolume} `{Deserialize J Slab} `{Deserialize J Discovery}.
Context (cfg : Config) (engine_token : NodeConfig → option string) (admin_credential : string → option string).
Abbreviation vcall A := (handler J (result A VmError)).

Definition vm_event (m : VmMigration) (sev : Severity) (msg : string) : handler J unit :=
  event_of "vm-migration" (vm_source_node m +:+ "/" +:+ source_name m) sev msg.

(** [find_array] of vmmigrate.rs. *)
Definition find_array_place (arrays : list J) (nm : string) : PlaceLookup :=
  match find_first (λ a, (get_str "id" a == Some nm) || ((nm != "") && (get_str "name" a == Some nm))) arrays with
  | None => PMissing
  | Some a =>
      let id := unwrap_or nm (get_str "id" a) in
      match opt_filter (λ s, is_some (j_object s)) (j_get "slab" a) with
      | None => PNoSlab id
      | Some slab => PFound id (unwrap_or 0%Z (get_u64 "free_bytes" slab))
      end
  end.

(** [MirrorReading::of]. *)
Definition mirror_of (v : J) : option MirrorReading :=
  let m := unwrap_or v (opt_filter (λ m, is_some (j_object m)) (j_get "mirror" v)) in
  match get_str "target" m, get_str "state" m with
  | Some t, Some st =>
      Some {| mr_target := t; mr_state := st; mr_bytes_total := unwrap_or 0%Z (get_u64 "bytes_total" m);
              mr_bytes_remaining := unwrap_or 0%Z (get_u64 "bytes_remaining" m); mr_message := get_str "message" m |}
  | _, _ => None
  end.

(** [update]: [None] when the record is gone. *)
Definition vm_update {T : Type} (id : string) (f : VmMigration → VmMigration * T) : handler J (option T) :=
  let! now := invoke Now in
  let! out := atomic (λ s, match vm_migrations (fed s) !! id with
    | None => (s, None)
    | Some m => let '(m', t) := f m in
                (s <| fed ::= λ fd, bump (fd <| vm_migrations ::= <[id := m' <| updated_at_ms := now_ms now |>]> |>) |>, Some t)
    end) in
  match out with
  | None => Ret None
  | Some t => publish_change ;! Ret (Some t)
  end.
(** The record as the change leaves it. *)
Definition vm_set (id : string) (f : VmMigration → VmMigration) : handler J (option VmMigration) :=
  vm_update id (λ m, (f m, f m)).
Definition vm_note (id : string) (f : VmMigration → VmMigration) : handler J unit := vm_set id f ;! Ret tt.

Definition no_migration (id : string) : EngineError := http_status ("migration " +:+ id) 404 "no such migration".
Definition vm_get (id : string) : vcall VmMigration :=
  reads (λ s, ok_or (vm_migrations (fed s) !! id) (VFailed (no_migration id))).
Definition vm_engine (node : string) : vcall Engine :=
  reads (λ s, map_err VFailed (engine_on engine_token admin_credential (fed s) node)).
Definition vm_healthy (node : string) : handler J bool := reads (λ s, node_healthy (fed s) node).

(** [read_mirror] and [live]. *)
Definition read_mirror (m : VmMigration) : vcall (option MirrorReading) :=
  let!? s := vm_engine (vm_source_node m) in
  let! v := get_any_volume s (source_volume_id_ m) in
  Ret (match v with Ok v => Ok (mirror_of v) | Err e => Err (VFailed e) end).
Definition live (m : VmMigration) : handler J VmMigration :=
  if negb (moving m) then Ret m
  else
    let! r := read_mirror m in
    Ret (match r with Ok r => vm_apply_reading m r | Err _ => m end).

(** ** Starting *)

Definition create_on_target (t : Engine) (m : VmMigration) : handler J (result J EngineError) :=
  match opt_filter (λ p, tp_kind p == "array") (vm_placement m) with
  | Some p => create_pinned_volume t (target_name m) (vm_size_bytes m) (tp_id p)
  | None => create_volume t (target_name m) (vm_size_bytes m) None
  end.
Definition start_volume (id : string) (t : Engine) (m : VmMigration) : vcall unit :=
  if is_some (vm_target_volume_id m) then Ret (Ok tt)
  else
    let tn := vm_target_node m in
    let! r := create_on_target t m in
    match in_context (tn +:+ ": create " +:+ target_name m) r with
    | Err e => Ret (Err e)
    | Ok v =>
        match get_str "id" v with
        | None => Ret (Err (VFailed (anyhow (tn +:+ ": create answered no id: " +:+ j_show v))))
        | Some vid => vm_note id (λ r, r <| vm_target_volume_id := Some vid |>) ;! Ret (Ok tt)
        end
    end.
Definition start_local (id : string) (t : Engine) (m : VmMigration) : vcall string :=
  match target_local_id m with
  | Some l => Ret (Ok l)
  | None =>
      let! r := local_volume_id t (target_name m) in
      match in_context (vm_target_node m +:+ ": find " +:+ target_name m) r with
      | Err e => Ret (Err e)
      | Ok l => vm_note id (λ r, r <| target_local_id := Some l |>) ;! Ret (Ok l)
      end
  end.
Definition start_attach (id : string) (t : Engine) (m : VmMigration) (local : string) : vcall AttachedLeg :=
  match vm_target_attach m with
  | Some a => Ret (Ok a)
  | None =>
      let! r := attach_for_host t local (host_for cfg (vm_source_node m)) false in
      match in_context (vm_target_node m +:+ ": serve " +:+ target_name m +:+ " to " +:+ vm_source_node m) r with
      | Err e => Ret (Err e)
      | Ok (a, _) => vm_note id (λ r, r <| vm_target_attach := Some a |>) ;! Ret (Ok a)
      end
  end.
(** S's mirror: the one there already, or a new one. *)
Definition fresh_reading (uri : string) (m : VmMigration) : MirrorReading :=
  MkMirrorReading uri "copying" (vm_size_bytes m) (vm_size_bytes m) None.
Definition mirror_there (s : Engine) (m : VmMigration) : handler J (option MirrorReading) :=
  let! v := get_any_volume s (source_volume_id_ m) in
  Ret (match v with Ok v => mirror_of v | Err _ => None end).
Definition begin_mirror (s : Engine) (m : VmMigration) (uri : string) : vcall MirrorReading :=
  let! current := mirror_there s m in
  match opt_filter (λ r, (mr_target r == uri) && (mr_state r != "failed")) current with
  | Some r => Ret (Ok r)
  | None =>
      let! v := start_mirror s (source_volume_id_ m) uri in
      Ret (let? v := in_context (vm_source_node m +:+ ": mirror " +:+ source_name m +:+ " to " +:+ vm_target_node m) v in
           Ok (unwrap_or (fresh_reading uri m) (mirror_of v)))
  end.
Definition mirroring (uri : string) (reading : MirrorReading) (r : VmMigration) : VmMigration :=
  vm_apply_reading (r <| mirror_target := Some uri |> <| vm_state := Copying |> <| vm_message := None |>) (Some reading).
Definition told (sev : Severity) (msg : VmMigration → string) (rec : option VmMigration) : handler J unit :=
  match rec with Some r => vm_event r sev (msg r) | None => Ret tt end.
Definition advance (id : string) : vcall unit :=
  let!? m := vm_get id in
  if negb (vm_state m == Starting) || aborting m then Ret (Ok tt)
  else
    let!? t := vm_engine (vm_target_node m) in
    let!? _ := start_volume id t m in
    let!? local := start_local id t m in
    let!? a := start_attach id t m local in
    let uri := drive_uri a in
    let!? s := vm_engine (vm_source_node m) in
    let!? reading := begin_mirror s m uri in
    let! rec := vm_set id (mirroring uri reading) in
    told Info (λ r, vm_id r +:+ ": mirroring " +:+ vm_source_node m +:+ " → " +:+ vm_target_node m +:+ " ("
                    +:+ source_name r +:+ ")") rec ;!
    Ret (Ok tt).

(** ** Progress *)

Definition take_reading (next : VmMigration) (r : VmMigration) : VmMigration :=
  r <| vm_state := vm_state next |> <| bytes_total := bytes_total next |> <| bytes_remaining := bytes_remaining next |>
    <| vm_message := vm_message next |>.
Definition reading_news (st : VmMigrationState) (r : VmMigration) : Severity * string :=
  match st with
  | Synced => (Info, "synced: ready to cut over")
  | VmFailed => (Error, "failed: " +:+ unwrap_or "?" (vm_message r))
  | other => (Info, lowercase (vm_state_debug other))
  end.
Definition same_reading (m next : VmMigration) : bool :=
  (vm_state next == vm_state m) && (bytes_total next =? bytes_total m)%Z && (bytes_remaining next =? bytes_remaining m)%Z
  && (vm_message next == vm_message m).
Definition vm_refresh (id : string) : vcall unit :=
  let!? m := vm_get id in
  let!? reading := read_mirror m in
  let next := vm_apply_reading m reading in
  if same_reading m next then Ret (Ok tt)
  else
    let! rec := vm_set id (take_reading next) in
    match state_changed m next, rec with
    | Some st, Some r =>
        vm_event r (reading_news st r).1 (vm_id r +:+ ": " +:+ source_name r +:+ " " +:+ (reading_news st r).2) ;!
        Ret (Ok tt)
    | _, _ => Ret (Ok tt)
    end.

(** [withdraw]: stop serving T's volume to S. *)
Definition attach_host (m : VmMigration) (a : AttachedLeg) : string := unwrap_or (host_for cfg (vm_source_node m)) (host_nqn a).
Definition vm_withdraw (m : VmMigration) : vcall unit :=
  match vm_target_attach m, target_local_id m with
  | Some a, Some local =>
      let!? t := vm_engine (vm_target_node m) in
      let! r := withdraw_host_call t local (attach_host m a) in
      match r with
      | Err e => Ret (Err (VFailed e))
      | Ok _ => vm_note (vm_id m) (λ r, r <| vm_target_attach := None |>) ;! Ret (Ok tt)
      end
  | _, _ => Ret (Ok tt)
  end.

(** ** The switch-over *)

(** The stopped mirror's answer says T is exact. *)
Definition exact (stopped : option J) : bool :=
  match stopped with
  | Some v => (get_str "state" v == Some "synced") && (get_bool "flushed" v == Some true)
  | None => false
  end.
Definition not_exact_why (stopped : option J) : string :=
  match stopped with
  | None => "S held no mirror at the switch-over"
  | Some v => "the mirror stopped " +:+ unwrap_or "?" (get_str "state" v) +:+ " (flushed: "
      +:+ (if unwrap_or false (get_bool "flushed" v) then "true" else "false") +:+ ")"
      +:+ map_or "" (λ x, ": " +:+ x) (get_str "message" v)
  end.
Definition cut_over (r : VmMigration) : VmMigration :=
  r <| vm_state := CutOver |> <| bytes_remaining := 0%Z |> <| vm_message := None |>.
Definition gone_error (id : string) : VmError := VFailed (anyhow (id +:+ " gone")).
(** The mirror was stopped: what is recorded. *)
Definition switch_failed (id : string) (m : VmMigration) (stopped : option J) : vcall VmMigration :=
  let msg := "switch-over: " +:+ not_exact_why stopped +:+ "; " +:+ vm_target_node m +:+ " is not exact — resume on "
             +:+ vm_source_node m +:+ " and abort or retry" in
  let! rec := vm_set id (vm_fail_record msg) in
  told Error (λ _, id +:+ ": " +:+ msg) rec ;!
  Ret (Err (VRefused msg)).
Definition switch_done (id : string) : vcall VmMigration :=
  let! rec := vm_set id cut_over in
  match rec with
  | None => Ret (Err (gone_error id))
  | Some rec =>
      vm_event rec Info (id +:+ ": cut over: " +:+ target_name rec +:+ " is " +:+ vm_target_node rec +:+ "'s own now ("
                         +:+ vm_source_node rec +:+ " kept until complete)") ;!
      let! w := vm_withdraw rec in
      (match w with
       | Err e => vm_note id (λ r, r <| vm_message := Some (target_name rec +:+ " still served to " +:+ vm_source_node rec
                    +:+ ": " +:+ vm_text e +:+ " (retried)") |>)
       | Ok _ => Ret tt
       end) ;!
      vm_get id
  end.
Definition switch (id : string) (m : VmMigration) : vcall VmMigration :=
  let!? s := vm_engine (vm_source_node m) in
  let! now := live m in
  if negb (vm_state now == Synced) then
    Ret (Err (VRefused (id +:+ " is not synced yet (" +:+ vm_state_debug (vm_state now) +:+ ", "
      +:+ pretty (bytes_remaining now) +:+ " of " +:+ pretty (bytes_total now) +:+ " bytes to go)")))
  else
    let! stopped := stop_mirror s (source_volume_id_ m) in
    match in_context (vm_source_node m +:+ ": stop the mirror of " +:+ source_name m) stopped with
    | Err e => Ret (Err e)
    | Ok stopped => if exact stopped then switch_done id else switch_failed id m stopped
    end.
Definition cutover (id : string) : vcall VmMigration :=
  let!? m := vm_get id in
  if aborting m then Ret (Err (VRefused (id +:+ " is being aborted")))
  else match vm_state m with
       | CutOver | Completed => vm_withdraw m ;! vm_get id
       | Copying | Synced => switch id m
       | other => Ret (Err (VRefused (id +:+ " is " +:+ vm_state_debug other +:+ ", not synced")))
       end.

(** [complete]: retire S's volume. *)
Definition completed (r : VmMigration) : VmMigration := r <| vm_state := Completed |> <| vm_message := None |>.
Definition retire (id : string) (m : VmMigration) : vcall VmMigration :=
  let!? s := vm_engine (vm_source_node m) in
  let! d := delete_any_volume s (source_volume_id_ m) in
  match d with
  | Err e =>
      let msg := vm_source_node m +:+ ": retire " +:+ source_name m +:+ ": " +:+ err_text e in
      vm_note id (λ r, r <| vm_message := Some msg |>) ;!
      Ret (Err (VFailed (http_status ("/api/v1/volumes/" +:+ source_volume_id_ m) (unwrap_or 502%Z (status_of e)) msg)))
  | Ok _ =>
      vm_withdraw m ;!
      let! rec := vm_set id completed in
      match rec with
      | None => Ret (Err (gone_error id))
      | Some r =>
          vm_event r Info (id +:+ ": completed: " +:+ source_name r +:+ " retired on " +:+ vm_source_node r) ;!
          Ret (Ok r)
      end
  end.
Definition complete (id : string) : vcall VmMigration :=
  let!? m := vm_get id in
  match vm_state m with
  | Completed => Ret (Ok m)
  | CutOver => if aborting m then Ret (Err (VRefused (id +:+ " is being aborted"))) else retire id m
  | other => Ret (Err (VRefused (id +:+ " is " +:+ vm_state_debug other +:+ ": cut over first")))
  end.

(** ** Aborting *)

(** [undo_target]: withdraw and delete T's volume. *)
Definition undo_calls (t : Engine) (m : VmMigration) : handler J (result unit EngineError) :=
  let!? _ := (match vm_target_attach m, target_local_id m with
    | Some a, Some local => withdraw_host_call t local (attach_host m a)
    | _, _ => Ret (Ok tt)
    end) in
  let!? _ := (match vm_target_volume_id m with Some v1 => delete_volume t v1 | None => Ret (Ok tt) end) in
  match target_local_id m with Some local => delete_any_volume t local | None => Ret (Ok tt) end.
Definition undo_target (m : VmMigration) : vcall unit :=
  if is_none (vm_target_volume_id m) && is_none (target_local_id m) then Ret (Ok tt)
  else
    let!? t := vm_engine (vm_target_node m) in
    let! r := undo_calls t m in
    Ret (map_err VFailed r).
(** Our mirror on S, stopped. *)
Definition our_target (m : VmMigration) : option string := opt_or (mirror_target m) (fmap (M:=option) drive_uri (vm_target_attach m)).
Definition stop_ours (m : VmMigration) : vcall unit :=
  let! up := vm_healthy (vm_source_node m) in
  if (vm_state m == CutOver) || negb up then Ret (Ok tt)
  else
    let!? s := vm_engine (vm_source_node m) in
    let! reading := mirror_there s m in
    match reading, our_target m with
    | Some r, Some ours =>
        if mr_target r == ours then
          let! st := stop_mirror s (source_volume_id_ m) in
          Ret (let? _ := in_context (vm_source_node m +:+ ": stop the mirror") st in Ok tt)
        else Ret (Ok tt)
    | _, _ => Ret (Ok tt)
    end.
Definition abort_steps (m : VmMigration) : vcall unit :=
  let!? _ := stop_ours m in undo_target m.
Definition aborted (r : VmMigration) : VmMigration :=
  r <| vm_state := Aborted |> <| aborting := false |> <| vm_message := None |> <| vm_target_attach := None |>.
Definition abort_claimed (id : string) (m : VmMigration) : vcall VmMigration :=
  (if aborting m then Ret tt
   else vm_note id (λ r, r <| aborting := true |>) ;!
        vm_event m Warning (id +:+ ": aborting; " +:+ source_name m +:+ " stays on " +:+ vm_source_node m)) ;!
  let! r := abort_steps m in
  match r with
  | Err e => vm_note id (λ r, r <| vm_message := Some ("abort: " +:+ vm_text e +:+ " (retried)") |>) ;! Ret (Err e)
  | Ok _ =>
      let! rec := vm_set id aborted in
      match rec with
      | None => Ret (Err (gone_error id))
      | Some r =>
          vm_event r Info (id +:+ ": aborted; " +:+ target_name r +:+ " deleted on " +:+ vm_target_node r) ;!
          Ret (Ok r)
      end
  end.
Definition abort (id : string) : vcall VmMigration :=
  let!? m := vm_get id in
  match vm_state m with
  | Aborted => Ret (Ok m)
  | Completed => Ret (Err (VRefused (id +:+ " is completed: " +:+ source_name m +:+ " is retired, " +:+ vm_target_node m
                   +:+ " holds the disk")))
  | _ => abort_claimed id m
  end.

(** ** Failing and trying again *)

Definition failed_with (msg : string) (r : VmMigration) : VmMigration * option VmMigration :=
  let changed := negb (vm_state r == VmFailed) || negb (vm_message r == Some msg) in
  let r := vm_fail_record msg r in
  (r, if changed then Some r else None).
Definition vm_fail (id : string) (e : VmError) : handler J unit :=
  let msg := vm_text e in
  let! rec := vm_update id (failed_with msg) in
  match rec with
  | Some (Some r) => vm_event r Error (id +:+ ": failed: " +:+ msg)
  | _ => Ret tt
  end.
(** S's stale mirror, forgotten. *)
Definition forget_mirror (m : VmMigration) : vcall unit :=
  let!? s := vm_engine (vm_source_node m) in
  let! v := get_any_volume s (source_volume_id_ m) in
  match v with
  | Err e => Ret (Err (VFailed e))
  | Ok v =>
      match mirror_of v with
      | None => Ret (Ok tt)
      | Some r =>
          if (Some (mr_target r) == mirror_target m) || (mr_state r == "failed") then
            let! st := stop_mirror s (source_volume_id_ m) in
            Ret (match st with Ok _ => Ok tt | Err e => Err (VFailed e) end)
          else Ret (Err (VRefused (vm_source_node m +:+ " mirrors " +:+ source_name m +:+ " to " +:+ mr_target r
                      +:+ " now: not ours")))
      end
  end.
Definition restarted (r : VmMigration) : VmMigration :=
  r <| vm_state := Starting |> <| vm_message := None |> <| mirror_target := None |>.
Definition vm_retry (id : string) : vcall VmMigration :=
  let!? m := vm_get id in
  if aborting m then Ret (Err (VRefused (id +:+ " is being aborted")))
  else if negb (vm_state m == VmFailed) then
    Ret (Err (VRefused (id +:+ " is " +:+ vm_state_debug (vm_state m) +:+ ": only a failed migration is retried")))
  else
    let!? _ := forget_mirror m in
    vm_note id restarted ;!
    let! r := advance id in
    match r with
    | Err e => vm_fail id e ;! Ret (Err e)
    | Ok _ => vm_get id
    end.

(** ** The reconciler *)

Definition vm_expired (now : Z) (m : VmMigration) : bool :=
  terminal (vm_state m) && is_none (vm_target_attach m) && (KEEP_TERMINAL_MS <? as_i64 (now - updated_at_ms m))%Z.
Definition drop_record (id : string) : handler J unit :=
  writes (λ s, s <| fed ::= λ fd, bump (fd <| vm_migrations ::= delete id |>) |>) ;! publish_change.
Definition vm_step (m : VmMigration) (s_ok t_ok : bool) : vcall unit :=
  if aborting m then let!? _ := abort (vm_id m) in Ret (Ok tt)
  else match vm_state m with
       | Starting =>
           let! r := advance (vm_id m) in
           match r with
           | Err e => vm_fail (vm_id m) e ;! Ret (Err e)
           | Ok _ => Ret (Ok tt)
           end
       | Copying | Synced => if s_ok then vm_refresh (vm_id m) else Ret (Ok tt)
       | CutOver | Completed => if is_some (vm_target_attach m) && t_ok then vm_withdraw m else Ret (Ok tt)
       | _ => Ret (Ok tt)
       end.
Definition vm_one (now : Z) (m : VmMigration) : handler J unit :=
  if vm_expired now m then drop_record (vm_id m)
  else
    let! claimed := claim (vm_claim (vm_id m)) in
    if negb claimed then Ret tt
    else
      let! s_ok := vm_healthy (vm_source_node m) in
      let! t_ok := vm_healthy (vm_target_node m) in
      vm_step m s_ok t_ok ;!
      release (vm_claim (vm_id m)).
Definition vm_run : handler J unit :=
  let! active := reads (recovery_active cfg) in
  if negb active then Ret tt
  else
    let! all := reads (λ s, bt_values (vm_migrations (fed s))) in
    let! now := invoke Now in
    for_each (vm_one (now_ms now)) all.
End vm.

(** ** The API (src/api/vmmigrations.rs) *)

Section vm_api.
Context {J : Type} `{Json J} `{HttpShow}.
Context `{Deserialize J EngineVolume} `{Deserialize J Slab} `{Deserialize J Discovery}.
Context (cfg : Config) (engine_token : NodeConfig → option string) (admin_credential : string → option string).
Abbreviation api A := (handler J (result A ApiError)).

(** A step's error as the API answers it. *)
Definition answer (e : VmError) : ApiError :=
  match e with
  | VRefused m => ApiConflict m
  | VFailed e =>
      if status_of e == Some 409%Z then ApiConflict (err_text e)
      else if (status_of e == Some 404%Z) && starts_with "migration " (err_text e) then ApiNotFound (err_text e)
      else ApiUpstream (err_text e)
  end.

(** [claimed]: one step at a time. *)
Definition vm_claimed (id : string) (f : handler J (result VmMigration VmError)) : api VmMigration :=
  let! known := reads (λ s, is_some (vm_migrations (fed s) !! id)) in
  if negb known then Ret (Err (ApiNotFound ("migration " +:+ debug_str id)))
  else
    let! ok := claim (vm_claim id) in
    if negb ok then Ret (Err (ApiConflict (id +:+ ": another step is running")))
    else
      let! r := f in
      release (vm_claim id) ;!
      Ret (map_err answer r).
Definition api_cutover (id : string) : api VmMigration := vm_claimed id (cutover cfg engine_token admin_credential id).
Definition api_complete (id : string) : api VmMigration := vm_claimed id (complete cfg engine_token admin_credential id).
Definition api_abort (id : string) : api VmMigration := vm_claimed id (abort cfg engine_token admin_credential id).
Definition api_retry (id : string) : api VmMigration := vm_claimed id (vm_retry cfg engine_token admin_credential id).

Record PlacementBody := MkPlacementBody { pb_array : option string; pb_slab : option string; pb_drive : option string }.
(** [PlacementBody::one]. *)
Definition one_place (b : PlacementBody) : result (string * string) ApiError :=
  match omap (λ '(k, v), fmap (M:=option) (pair k) (opt_filter (λ x, x != "") v))
          [("array", pb_array b); ("slab", pb_slab b); ("drive", pb_drive b)] with
  | [one] => Ok one
  | _ => Err (ApiBadRequest ("placement: exactly one of " +:+ debug_str "array" +:+ ", " +:+ debug_str "slab" +:+ " or "
                             +:+ debug_str "drive"))
  end.
Definition place_error (r : PlaceRefusal) : ApiError :=
  match r with PlMissing m => ApiNotFound m | PlNoRoom m => ApiConflict m | PlNotYet m => ApiNotImplemented m end.
Definition resolve_placement (t : Engine) (target : string) (body : PlacementBody) (size : Z) : api TargetPlacement :=
  match one_place body with
  | Err e => Ret (Err e)
  | Ok (kind, nm) =>
      let up e := ApiUpstream (target +:+ ": " +:+ err_text e) in
      let! lookup := (if kind == "array" then
          let! l := list_arrays t in Ret (let? l := map_err up l in Ok (find_array_place l nm))
        else
          let! l := list_slabs t in
          Ret (let? l := map_err up l in Ok (if kind == "slab" then find_slab l nm else find_drive l nm))) in
      Ret (let? lookup := lookup in map_err place_error (check_placement target kind nm size lookup))
  end.

(** [start]: S's volume as its engine reports it. *)
Definition start_engines (node to : string) (s : App) : result (Engine * Engine) ApiError :=
  if is_none (nodes (fed s) !! node) then Err (ApiNotFound ("node " +:+ debug_str node))
  else if is_none (nodes (fed s) !! to) then Err (ApiNotFound ("node " +:+ debug_str to))
  else
    let on n := map_err (λ e, ApiConflict (err_text e)) (engine_on engine_token admin_credential (fed s) n) in
    let? src := on node in
    let? dst := on to in
    Ok (src, dst).
Definition source_of (node vol : string) (v : result J EngineError) : result (string * string * Z) ApiError :=
  match v with
  | Err e => Err (if status_of e == Some 404%Z then ApiNotFound (node +:+ " holds no volume " +:+ debug_str vol)
                  else ApiUpstream (node +:+ ": " +:+ err_text e))
  | Ok v =>
      match get_str "id" v, get_str "name" v with
      | Some sid, Some sname =>
          let? size := ok_or (get_u64 "virtual_size_bytes" v)
                         (ApiUpstream (node +:+ ": volume " +:+ debug_str vol +:+ " answered no size")) in
          match mirror_of v with
          | Some m => Err (ApiConflict (node +:+ ": " +:+ sname +:+ " is already mirrored to " +:+ mr_target m +:+ " ("
                             +:+ mr_state m +:+ ")"))
          | None => Ok (sid, sname, size)
          end
      | _, _ => Err (ApiUpstream (node +:+ ": volume " +:+ debug_str vol +:+ " answered no id or name: " +:+ j_show v))
      end
  end.
Definition name_on_target (to target_nm : string) (r : result string EngineError) : result unit ApiError :=
  match r with
  | Ok _ => Err (ApiConflict (to +:+ " already holds a volume named " +:+ debug_str target_nm +:+ "; name another with "
                   +:+ debug_str "name"))
  | Err e => if is_not_found e then Ok tt else Err (ApiUpstream (to +:+ ": " +:+ err_text e))
  end.
Definition new_migration (id node sid sname to target_nm : string) (size : Z) (placement : option TargetPlacement) (now : Z)
    : VmMigration :=
  MkVmMigration id node sid sname size to target_nm None None None placement None Starting 0 0 None false now now.
Definition start_insert (m : VmMigration) (s : App) : App * result unit ApiError :=
  match find_first (λ x, (vm_source_node x == vm_source_node m) && (source_volume_id_ x == source_volume_id_ m)
                          && negb (terminal (vm_state x))) (bt_values (vm_migrations (fed s))) with
  | Some open => (s, Err (ApiConflict (source_name m +:+ " on " +:+ vm_source_node m +:+ " is in migration " +:+ vm_id open
                    +:+ " (" +:+ vm_state_debug (vm_state open) +:+ ")")))
  | None => (s <| fed ::= λ fd, bump (fd <| vm_migrations ::= <[vm_id m := m]> |>) |>, Ok tt)
  end.
(** The start failed: T's volume undone, no record kept. *)
Definition start_undo (id : string) (e : VmError) : api VmMigration :=
  let! m := reads (λ s, vm_migrations (fed s) !! id) in
  (match m with Some m => undo_target cfg engine_token admin_credential m ;! Ret tt | None => Ret tt end) ;!
  writes (λ s, s <| fed ::= λ fd, bump (fd <| vm_migrations ::= delete id |>) |>) ;!
  release (vm_claim id) ;!
  publish_change ;!
  Ret (Err (answer e)).
(** [seq] is what the process's counter gives this start. *)
Definition vm_start (seq : Z) (node vol to : string) (nm : option string) (place : option PlacementBody) : api (option VmMigration) :=
  if to == node then Ret (Err (ApiBadRequest "to: another node than the volume's"))
  else
    let!? engines := reads (start_engines node to) in
    let '(src, dst) := engines in
    let! v := get_any_volume src vol in
    match source_of node vol v with
    | Err e => Ret (Err e)
    | Ok (sid, sname, size) =>
        let target_nm := unwrap_or sname nm in
        let! there := local_volume_id dst target_nm in
        match name_on_target to target_nm there with
        | Err e => Ret (Err e)
        | Ok _ =>
            let!? placement := (match place with
              | None => Ret (Ok None)
              | Some p => let!? r := resolve_placement dst to p size in Ret (Ok (Some r))
              end) in
            let! t := invoke Now in
            let id := "vm-" +:+ pretty (now_ms t) +:+ "-" +:+ pretty seq in
            let! now := invoke Now in
            let!? _ := atomic (start_insert (new_migration id node sid sname to target_nm size placement (now_ms now))) in
            claim (vm_claim id) ;!
            invoke Persist ;!
            let! r := advance cfg engine_token admin_credential id in
            match r with
            | Err e => let!? m := start_undo id e in Ret (Ok (Some m))
            | Ok _ =>
                release (vm_claim id) ;!
                reads (λ s, Ok (vm_migrations (fed s) !! id))
            end
        end
    end.
End vm_api.
