(* ===== verification/VmSteps.v ===== *)
(** * The state machine of a live migration (src/vmmigrate.rs, the theorem)

    However the switch-over, completion, abort and retry requests interleave
    with the reconciler and with tasks that have nothing to do with
    migrations, a record moves along [vm_edge] only: its identity never
    changes, a volume made on T is not forgotten, a migration being aborted
    only gets aborted, and a record goes away only once it is over. *)

From stdpp Require Import relations.
From S2P Require Import Prelude F64 Config Model Placement Events Refusal Async Json Inventory Sync.
From S2P Require Import Recovery App Engine Publish Replace Fencing Backups Owned VmMigrate.
From stdpp Require Import options.

(** ** Moves of a record *)

(** What a migration is of; it never changes. *)
Definition identity (m : VmMigration) :=
  (vm_id m, vm_source_node m, source_volume_id_ m, source_name m, vm_size_bytes m, vm_target_node m, target_name m,
   vm_placement m, started_at_ms m).
Definition set_once {A} (o o' : option A) : Prop := is_Some o → o' = o.
Definition vm_next (st st' : VmMigrationState) : bool :=
  match st, st' with
  | Starting, (Starting | Copying | Synced | VmFailed | Aborted)
  | Copying, (Copying | Synced | VmFailed | CutOver | Aborted)
  | Synced, (Synced | Copying | VmFailed | CutOver | Aborted)
  | CutOver, (CutOver | Completed | Aborted)
  | VmFailed, (VmFailed | Starting | Aborted)
  | Completed, Completed | Aborted, Aborted => true
  | _, _ => false
  end.
Definition vm_edge (m m' : VmMigration) : Prop :=
  identity m' = identity m
  ∧ set_once (vm_target_volume_id m) (vm_target_volume_id m') ∧ set_once (target_local_id m) (target_local_id m')
  ∧ vm_next (vm_state m) (vm_state m') = true
  ∧ (aborting m = true → vm_state m' = Aborted ∨ vm_state m' = vm_state m ∧ aborting m' = true).

(** ** What the claim covers *)

Abbreviation records s := (vm_migrations (fed s)).
Definition held (id : string) (s : App) : Prop := vm_claim id ∈ claims s.
Definition wf (s : App) : Prop := ∀ id m, records s !! id = Some m → vm_id m = id.
(** One record's change: by the task that holds its claim, or the removal
    of one that is over, by anyone. *)
Definition record_moves (mine : Prop) (o o' : option VmMigration) : Prop :=
  o' = o ∨ (∃ m, o = Some m ∧ terminal (vm_state m) = true ∧ o' = None)
  ∨ (mine ∧ ∃ m m', o = Some m ∧ o' = Some m' ∧ vm_edge m m').
Definition same_claims (s s' : App) : Prop := ∀ id, held id s ↔ held id s'.
Definition vm_G (h : option string) (s s' : App) : Prop :=
  same_claims s s' ∧ ∀ id, record_moves (h = Some id) (records s !! id) (records s' !! id).
Definition vm_acq (k : string) (s s' : App) : Prop :=
  ¬ held k s ∧ held k s' ∧ (∀ j, j ≠ k → held j s ↔ held j s') ∧ records s' = records s.
Definition vm_rel (k : string) (s s' : App) : Prop :=
  (∀ j, j ≠ k → held j s ↔ held j s') ∧ records s' = records s.
Definition vm_rely (h : option string) (s s' : App) : Prop :=
  (wf s → wf s') ∧
  ∀ id, (records s !! id = None → records s' !! id = None)
    ∧ (∀ m m', records s !! id = Some m → records s' !! id = Some m' → terminal (vm_state m) = true →
         terminal (vm_state m') = true)
    ∧ (h = Some id → ∀ m', records s' !! id = Some m' → records s !! id = Some m').

Lemma edge_terminal m m' : vm_edge m m' → terminal (vm_state m) = true → terminal (vm_state m') = true.
Proof. intros (_ & _ & _ & Hn & _). by destruct (vm_state m), (vm_state m'). Qed.
Lemma record_moves_terminal P m m' :
  record_moves P (Some m) (Some m') → terminal (vm_state m) = true → terminal (vm_state m') = true.
Proof.
  intros [E|[(m0 & _ & _ & E)|(_ & m1 & m2 & E1 & E2 & He)]]; [by injection E as ->|done|].
  injection E1 as ->. injection E2 as ->. by apply edge_terminal.
Qed.
Lemma record_moves_id P m m' : record_moves P (Some m) (Some m') → vm_id m' = vm_id m.
Proof.
  intros [E|[(m0 & _ & _ & E)|(_ & m1 & m2 & E1 & E2 & Hi & _)]]; [by injection E as ->|done|].
  injection E1 as ->. injection E2 as ->. by injection Hi.
Qed.
Lemma record_moves_None P o' : record_moves P None o' → o' = None.
Proof. by intros [E|[(m & E & _)|(_ & m1 & m2 & E & _)]]. Qed.

Lemma wf_moves P s s' : (∀ id, record_moves (P id) (records s !! id) (records s' !! id)) → wf s → wf s'.
Proof.
  intros Hm Hw id m' Hm'. specialize (Hm id). rewrite Hm' in Hm. destruct (records s !! id) as [m|] eqn:E.
  - rewrite (record_moves_id _ _ _ Hm). by apply Hw.
  - by apply record_moves_None in Hm.
Qed.
Lemma moves_records h h' s s' :
  moves vm_G vm_acq vm_rel h h' s s' → ∀ id, record_moves (h = Some id) (records s !! id) (records s' !! id).
Proof.
  intros [? ? ? [_ HG]|k ? ? (_ & _ & _ & Hr)|k ? ? [_ Hr]] id; [apply HG|left; by rewrite Hr..].
Qed.
Lemma moves_rely h h' s s' : moves vm_G vm_acq vm_rel h h' s s' → ∀ j, apart h j → vm_rely j s s'.
Proof.
  intros Hm0 j Ha. pose proof (moves_records _ _ _ _ Hm0) as Hm. split; [exact (wf_moves _ _ _ Hm)|]. intros id. specialize (Hm id). split; [|split].
  - intros E. rewrite E in Hm. by eapply record_moves_None.
  - intros m m' E E'. rewrite E, E' in Hm. by apply (record_moves_terminal _ _ _ Hm).
  - intros -> m' E. rewrite E in Hm. destruct Hm as [E'|[(? & _ & _ & ?)|(E' & _)]]; [done|done|].
    subst h. by destruct (Ha eq_refl).
Qed.
#[export] Instance vm_rely_preorder h : PreOrder (vm_rely h).
Proof.
  split; [split; [done|]; intros id; split; [done|split; [|done]]; congruence|].
  intros s1 s2 s3 [Hw1 H1] [Hw2 H2]. split; [auto|]. intros id.
  destruct (H1 id) as (Ha & Hb & Hc), (H2 id) as (Ha' & Hb' & Hc'). split; [auto|split; [|auto]].
  intros m m3 E1 E3 Ht. destruct (records s2 !! id) as [m2|] eqn:E2; [|by rewrite Ha' in E3]. eauto.
Qed.
Lemma vm_exclusive : exclusive held vm_G vm_acq vm_rel vm_rely.
Proof.
  split; [apply _|split; [|split]].
  - by intros k s s' (? & ? & _).
  - intros k s s' Hk [Hc _]. by apply Hc.
  - intros h h' j s s' Hm Hh Hj Ha. split; [by eapply moves_rely|]. destruct j as [j|]; [|done]. simpl in *.
    destruct Hm as [h s s' [Hc _]|k s s' (Hf & _ & Hc & _)|k s s' [Hc _]]; simpl in *.
    + by apply Hc.
    + apply Hc; [|done]. by intros ->.
    + apply Hc; [|done]. congruence.
Qed.

Lemma claim_apart id j : j ≠ id → vm_claim j ≠ vm_claim id.
Proof. intros Hne E. apply Hne. by apply (inj (String.app "vmmig:")) in E. Qed.
Lemma held_taken id j (X : gset string) : j ≠ id → vm_claim j ∈ X ↔ vm_claim j ∈ {[vm_claim id]} ∪ X.
Proof. intros Hj%claim_apart. rewrite elem_of_union, elem_of_singleton. naive_solver. Qed.
Lemma held_given id j (X : gset string) : j ≠ id → vm_claim j ∈ X ↔ vm_claim j ∈ X ∖ {[vm_claim id]}.
Proof. intros Hj%claim_apart. rewrite elem_of_difference, elem_of_singleton. naive_solver. Qed.

Lemma held_again (c d : string) (X : gset string) : c ∈ X → d ∈ X ↔ d ∈ {[c]} ∪ X.
Proof. set_solver. Qed.

(** ** Under the claim

    What is known of the record while its claim is held. *)

Section steps.
Context {J : Type} `{Json J} `{HttpShow}.
Context `{Deserialize J EngineVolume} `{Deserialize J Slab} `{Deserialize J Discovery}.
Context (cfg : Config) (engine_token : NodeConfig → option string) (admin_credential : string → option string).
Abbreviation owns := (@owns (Call J) App string vm_G vm_acq vm_rel vm_rely _).

Definition knows (id : string) (P : VmMigration → Prop) (s : App) : Prop :=
  wf s ∧ ∀ r, records s !! id = Some r → P r.
Definition triple {A : Type} (id : string) (P : VmMigration → Prop) (p : handler J A) (φ : A → Prop)
    (Q : A → VmMigration → Prop) : Prop :=
  ∀ s, knows id P s → owns (Some id) p (λ h a s, h = Some id ∧ φ a ∧ knows id (Q a) s) s.
Definition always : VmMigration → Prop := λ _, True.
Definition starting (m : VmMigration) : Prop := vm_state m = Starting ∧ aborting m = false.

Lemma knows_rely id P s s' : vm_rely (Some id) s s' → knows id P s → knows id P s'.
Proof.
  intros [Hw Hr] [Hs HP]. split; [auto|]. intros r Hr'. destruct (Hr id) as (_ & _ & Hsame). auto.
Qed.
Lemma knows_mono id (P P' : VmMigration → Prop) s : (∀ r, P r → P' r) → knows id P s → knows id P' s.
Proof. intros Hi [Hw HP]. split; auto. Qed.

Lemma triple_conseq {A} id (P P' : VmMigration → Prop) (p : handler J A) (φ φ' : A → Prop) (Q Q' : A → VmMigration → Prop) :
  triple id P' p φ' Q' → (∀ r, P r → P' r) → (∀ a, φ' a → φ a) → (∀ a r, φ' a → Q' a r → Q a r) → triple id P p φ Q.
Proof.
  intros Hp HP Hφ HQ s Hs. eapply owns_mono; [apply Hp; by eapply knows_mono|].
  intros h a s1 (-> & Ha & Hk). split; [done|]. split; [auto|]. eapply knows_mono; [|exact Hk]. auto.
Qed.
Lemma triple_ret {A} id (P : VmMigration → Prop) (a : A) (φ : A → Prop) (Q : A → VmMigration → Prop) :
  φ a → (∀ r, P r → Q a r) → triple id P (Ret a) φ Q.
Proof. intros Ha HQ s Hs. split; [done|split; [done|]]. by eapply knows_mono. Qed.
Lemma triple_bind {A B} id P (p : handler J A) (k : A → handler J B) φ M ψ Q :
  triple id P p φ M → (∀ a, φ a → triple id (M a) (k a) ψ Q) → triple id P (bind p k) ψ Q.
Proof.
  intros Hp Hk s Hs. apply owns_bind. eapply owns_mono; [by apply Hp|].
  intros h a s1 (-> & Ha & Hm). by apply Hk.
Qed.
(** What goes on only when it succeeds. *)
Lemma triple_bind_ok {A B X} id P (p : handler J (result A X)) (k : A → handler J (result B X)) φ M ψ Q :
  triple id P p φ M → (∀ a, φ (Ok a) → triple id (M (Ok a)) (k a) ψ Q) →
  (∀ e, φ (Err e) → ψ (Err e)) → (∀ e r, M (Err e) r → Q (Err e) r) → triple id P (bind_ok p k) ψ Q.
Proof.
  intros Hp Hk Hψ HQ. apply (triple_bind _ _ _ _ φ M); [done|]. intros [a|e] Ha; [by apply Hk|].
  apply triple_ret; auto.
Qed.
(** A part that leaves the records and the claims alone. *)
Definition leaves (s s' : App) : Prop := records s' = records s ∧ same_claims s s'.
#[export] Instance leaves_preorder : PreOrder leaves.
Proof.
  split; [by split|]. intros s1 s2 s3 [E1 C1] [E2 C2]. split; [congruence|]. intros id. rewrite (C1 id). apply C2.
Qed.
Lemma report_leaves s s' : report_step s s' → leaves s s'.
Proof. intros [Ef Ec]. split; [by rewrite Ef|]. intros id. unfold held. by rewrite Ec. Qed.
Lemma leaves_G h s s' : leaves s s' → vm_G h s s'.
Proof. intros [E C]. split; [done|]. intros id. left. by rewrite E. Qed.
Lemma knows_leaves id P s s' : leaves s s' → knows id P s → knows id P s'.
Proof. intros [E _] [Hw HP]. unfold knows, wf. rewrite E. done. Qed.
Lemma triple_leaves {A} id P (p : handler J A) : guar leaves p → triple id P p (λ _, True) (λ _, P).
Proof.
  intros Hg s Hs. eapply (owns_same vm_G vm_acq vm_rel vm_rely leaves (knows id P)); [apply leaves_G| | |exact Hg|exact Hs|done].
  - apply knows_rely.
  - apply knows_leaves.
Qed.
Lemma triple_report {A} id P (p : handler J A) : guar report_step p → triple id P p (λ _, True) (λ _, P).
Proof. intros Hg. apply triple_leaves. by apply (guar_weaken report_step); [apply report_leaves|]. Qed.
Lemma triple_quiet {A} id P (p : handler J A) : Quiet p → triple id P p (λ _, True) (λ _, P).
Proof. intros Hq. apply triple_leaves, Hq. Qed.
(** What goes before is only waited for. *)
Lemma triple_wait {A B} id P (p : handler J A) (k : A → handler J B) φ Q :
  guar report_step p → (∀ a, triple id P (k a) φ Q) → triple id P (bind p k) φ Q.
Proof. intros Hp Hk. eapply triple_bind; [by apply triple_report|auto]. Qed.
Lemma triple_wait_ok {A B X} id P (p : handler J (result A X)) (k : A → handler J (result B X)) (φ : result B X → Prop) Q :
  guar report_step p → (∀ a, triple id P (k a) φ Q) → (∀ e, φ (Err e)) → (∀ e r, P r → Q (Err e) r) →
  triple id P (bind_ok p k) φ Q.
Proof. intros Hp Hk Hφ HQ. eapply triple_bind_ok; [by apply triple_report|auto..]. Qed.

(** *** The record read and changed *)

Definition is_now {X} (r : result VmMigration X) (m : VmMigration) : Prop :=
  match r with Ok m' => m = m' | Err _ => False end.
Lemma get_triple id P :
  triple id P (vm_get id) (λ r, match r with Ok m => vm_id m = id ∧ P m | Err _ => True end) is_now.
Proof.
  intros s Hs s' Hr. exists (Some id). split; [by constructor; apply leaves_G|].
  pose proof (knows_rely _ _ _ _ Hr Hs) as [Hw HP]. unfold knows, is_now. simpl.
  destruct (records s' !! id) as [m|] eqn:E; simpl; (split; [done|split; [auto|split; [done|]]]); congruence.
Qed.

(** The change of a record, whatever time it is stamped with. *)
Definition stamped (t : Z) (m : VmMigration) : VmMigration := m <| updated_at_ms := t |>.
Lemma change_triple {T} id P (f : VmMigration → VmMigration * T) (Q : VmMigration → Prop) t :
  (∀ r, vm_id r = id → P r → vm_edge r (stamped t (f r).1) ∧ Q (stamped t (f r).1)) →
  triple (A:=option T) id P
    (atomic (λ s, match records s !! id with
      | None => (s, None)
      | Some m => let '(m', y) := f m in
                  (s <| fed ::= λ fd, bump (fd <| vm_migrations ::= <[id := stamped t m']> |>) |>, Some y)
      end))
    (λ o, ∀ y, o = Some y → ∃ r, vm_id r = id ∧ P r ∧ y = (f r).2) (λ _, Q).
Proof.
  intros Hf s Hs s' Hr. exists (Some id).
  pose proof (knows_rely _ _ _ _ Hr Hs) as [Hw HP]. destruct (records s' !! id) as [m|] eqn:E.
  - pose proof (Hw _ _ E) as Hid. destruct (Hf m Hid (HP _ eq_refl)) as [He HQ].
    destruct (f m) as [m' y] eqn:Ef. cbn [fst snd owns Owned.owns] in *. split.
    + constructor. split; [done|]. intros id'. simpl. destruct (decide (id' = id)) as [->|Hne].
      * right; right. split; [done|]. exists m, (stamped t m'). by rewrite lookup_insert_eq.
      * left. by rewrite lookup_insert_ne.
    + split; [done|]. split; [intros y' [= <-]; exists m; split; [done|split; [by apply HP|by rewrite Ef]]|]. split.
      * intros id' r. simpl. destruct (decide (id' = id)) as [->|Hne].
        { rewrite lookup_insert_eq. intros [= <-]. destruct He as [Hi _].
          transitivity (vm_id m); [by injection Hi|done]. }
        rewrite lookup_insert_ne by done. apply Hw.
      * intros r. simpl. rewrite lookup_insert_eq. by intros [= <-].
  - split; [by constructor; apply leaves_G|]. split; [done|split; [done|]]. split; [done|]. intros r. simpl. congruence.
Qed.
Lemma update_triple {T} id P (f : VmMigration → VmMigration * T) (Q : VmMigration → Prop) :
  (∀ r t, vm_id r = id → P r → vm_edge r (stamped t (f r).1) ∧ Q (stamped t (f r).1)) →
  triple id P (vm_update id f) (λ o, ∀ y, o = Some y → ∃ r, vm_id r = id ∧ P r ∧ y = (f r).2) (λ _, Q).
Proof.
  intros Hf. unfold vm_update. eapply triple_bind; [apply triple_quiet; apply _|]. intros now _.
  eapply triple_bind; [exact (change_triple id P f Q (now_ms now) (λ r, Hf r _))|]. intros [y|] Hy; [|by apply triple_ret].
  eapply triple_bind; [apply triple_quiet; apply _|]. intros ? _. by apply triple_ret.
Qed.
Lemma set_triple id P (f : VmMigration → VmMigration) (Q : VmMigration → Prop) :
  (∀ r t, vm_id r = id → P r → vm_edge r (stamped t (f r)) ∧ Q (stamped t (f r))) →
  triple id P (vm_set id f) (λ o, ∀ y, o = Some y → ∃ r, vm_id r = id ∧ P r ∧ y = f r) (λ _, Q).
Proof. intros Hf. by apply update_triple. Qed.
Lemma note_triple id P (f : VmMigration → VmMigration) (Q : VmMigration → Prop) :
  (∀ r t, vm_id r = id → P r → vm_edge r (stamped t (f r)) ∧ Q (stamped t (f r))) →
  triple id P (vm_note id f) (λ _, True) (λ _, Q).
Proof.
  intros Hf. unfold vm_note. eapply triple_bind; [by apply set_triple|]. intros o _. by apply triple_ret.
Qed.

(** *** What only waits *)

Lemma vm_event_report m sev msg : guar report_step (vm_event (J:=J) m sev msg).
Proof. apply event_of_report. Qed.
#[local] Hint Resolve vm_event_report : guar.
Lemma told_report sev msg o : guar report_step (told (J:=J) sev msg o).
Proof. unfold told. guar_auto. Qed.
Lemma vm_engine_report node : guar report_step (vm_engine (J:=J) engine_token admin_credential node).
Proof. unfold vm_engine. guar_auto. done. Qed.
Lemma vm_healthy_report node : guar report_step (vm_healthy (J:=J) node).
Proof. unfold vm_healthy. guar_auto. done. Qed.
#[local] Hint Resolve told_report vm_engine_report vm_healthy_report : guar.
Lemma live_report m : guar report_step (live engine_token admin_credential m).
Proof. unfold live, read_mirror. guar_auto. Qed.
Lemma read_mirror_report m : guar report_step (read_mirror engine_token admin_credential m).
Proof. unfold read_mirror. guar_auto. Qed.
Lemma begin_mirror_report e m uri : guar report_step (begin_mirror e m uri).
Proof. unfold begin_mirror, mirror_there. guar_auto. Qed.
Lemma abort_steps_report m : guar report_step (abort_steps cfg engine_token admin_credential m).
Proof. unfold abort_steps, stop_ours, undo_target, undo_calls, mirror_there. guar_auto. Qed.
Lemma forget_mirror_report m : guar report_step (forget_mirror engine_token admin_credential m).
Proof. unfold forget_mirror. guar_auto. Qed.
#[local] Hint Resolve live_report read_mirror_report begin_mirror_report abort_steps_report forget_mirror_report : guar.

(** *** The handlers *)

Lemma edge_intro r r' :
  identity r' = identity r → set_once (vm_target_volume_id r) (vm_target_volume_id r') →
  set_once (target_local_id r) (target_local_id r') → vm_next (vm_state r) (vm_state r') = true →
  (aborting r = true → vm_state r' = Aborted ∨ vm_state r' = vm_state r ∧ aborting r' = true) → vm_edge r r'.
Proof. by unfold vm_edge. Qed.
Lemma vm_next_refl st : vm_next st st = true.
Proof. by destruct st. Qed.
Lemma edge_unmoved r r' :
  identity r' = identity r → vm_target_volume_id r' = vm_target_volume_id r → target_local_id r' = target_local_id r →
  vm_state r' = vm_state r → aborting r' = aborting r → vm_edge r r'.
Proof.
  intros Hi Hv Hl Hs Ha. apply edge_intro; [done|by intros _|by intros _|by rewrite Hs; apply vm_next_refl|].
  intros Hr. right. by rewrite Ha.
Qed.

Lemma withdraw_triple id P m :
  vm_id m = id → (∀ r t, P r → P (stamped t (r <| vm_target_attach := None |>))) →
  triple id P (vm_withdraw cfg engine_token admin_credential m) (λ _, True) (λ _, P).
Proof.
  intros <- HP. unfold vm_withdraw. destruct (vm_target_attach m) as [a|]; [|by apply triple_ret].
  destruct (target_local_id m) as [l|]; [|by apply triple_ret].
  apply triple_wait_ok; [apply vm_engine_report| |done..]. intros e.
  apply triple_wait; [apply quiet|]. intros [[]|x]; [|by apply triple_ret].
  eapply triple_bind; [apply (note_triple _ P _ P)|intros ? _; by apply triple_ret].
  intros r t _ Hr. split; [by apply edge_unmoved|auto].
Qed.

Lemma triple_pre {A} id (P P' : VmMigration → Prop) (p : handler J A) φ Q :
  (∀ r, P r → P' r) → triple id P' p φ Q → triple id P p φ Q.
Proof. intros HP Hp s Hs. apply Hp. by eapply knows_mono. Qed.
(** A field of a starting record is noted. *)
Lemma noted_triple {A} id (P P' : VmMigration → Prop) f (a : A) φ :
  φ a → (∀ r t, P r → vm_edge r (stamped t (f r)) ∧ P' (stamped t (f r))) →
  triple id P (vm_note (J:=J) id f ;! Ret a) φ (λ _, P').
Proof.
  intros Ha Hf. eapply triple_bind; [by apply (note_triple _ P _ P'); auto|]. intros ? _. by apply triple_ret.
Qed.
Definition made (m r : VmMigration) : Prop :=
  starting r ∧ target_local_id r = target_local_id m.
#[local] Instance create_on_target_quiet t m : Quiet (create_on_target (J:=J) t m).
Proof. unfold create_on_target. apply _. Qed.
Lemma start_volume_triple id t m :
  triple id (λ r, made m r ∧ vm_target_volume_id r = vm_target_volume_id m) (start_volume id t m) (λ _, True) (λ _, made m).
Proof.
  unfold start_volume. destruct (vm_target_volume_id m) as [v|] eqn:Ev; [by apply triple_ret; [|intros r [? _]]|].
  apply triple_wait; [apply quiet|]. intros r. destruct (in_context _ r) as [x|e]; [|by apply triple_ret; [|intros y [? _]]].
  destruct (get_str "id" x) as [vid|]; [|by apply triple_ret; [|intros y [? _]]].
  apply noted_triple; [done|]. intros y now [[[Hs Ha] Hl] Hv]. split; [|done].
  apply edge_intro; simpl; [done| |by intros _|by rewrite vm_next_refl|by rewrite Ha].
  intros [? Hv']. by rewrite Hv in Hv'.
Qed.
Lemma start_local_triple id t m : triple id (made m) (start_local id t m) (λ _, True) (λ _, starting).
Proof.
  unfold start_local. destruct (target_local_id m) as [l|] eqn:El; [by apply triple_ret; [|intros r [? _]]|].
  apply triple_wait; [apply quiet|]. intros r. destruct (in_context _ r) as [x|e]; [|by apply triple_ret; [|intros y [? _]]].
  apply noted_triple; [done|]. intros y now [[Hs Ha] Hl]. split; [|done].
  apply edge_intro; simpl; [done|by intros _| |by rewrite vm_next_refl|by rewrite Ha].
  intros [? Hl']. rewrite Hl, El in Hl'. done.
Qed.
Lemma start_attach_triple id t m l : triple id starting (start_attach cfg id t m l) (λ _, True) (λ _, starting).
Proof.
  unfold start_attach. destruct (vm_target_attach m) as [a|]; [by apply triple_ret|].
  apply triple_wait; [apply quiet|]. intros r. destruct (in_context _ r) as [[x y]|e]; [|by apply triple_ret].
  apply noted_triple; [done|]. intros r' now [Hs Ha]. split; [|done]. by apply edge_unmoved.
Qed.
Lemma mirroring_edge uri reading r t : starting r → vm_edge r (stamped t (mirroring uri reading r)).
Proof.
  intros [Hs Ha]. unfold mirroring, vm_apply_reading, moving, read_mirror_state. simpl. rewrite Ha. simpl.
  repeat case_match; apply edge_intro; simpl; rewrite ?Hs, ?Ha; try done; by intros ?.
Qed.
Lemma advance_triple id :
  triple id always (advance cfg engine_token admin_credential id) (λ _, True)
    (λ r x, match r with Ok _ => True | Err _ => starting x end).
Proof.
  unfold advance. eapply triple_bind_ok; [apply get_triple| |done|done]. intros m [_ _].
  destruct (negb (vm_state m == Starting) || aborting m) eqn:Hg; [by apply triple_ret|].
  apply orb_false_iff in Hg as [Hst%neqb_nprop Hab].
  apply (triple_pre _ _ (λ r, made m r ∧ vm_target_volume_id r = vm_target_volume_id m)); [by intros r ->|].
  apply triple_wait_ok; [apply vm_engine_report| |done|by intros ? ? [[? _] _]]. intros t.
  eapply triple_bind_ok; [apply start_volume_triple| |done|by intros ? ? [? _]]. intros ? _.
  eapply triple_bind_ok; [apply start_local_triple| |done|done]. intros l _.
  eapply triple_bind_ok; [apply start_attach_triple| |done|done]. intros leg _. cbv zeta.
  apply triple_wait_ok; [apply vm_engine_report| |done|done]. intros s.
  apply triple_wait_ok; [apply begin_mirror_report| |done|done]. intros reading.
  eapply (triple_bind _ _ _ _ _ (λ _, always)).
  { apply set_triple. intros r now _ Hr. split; [by apply mirroring_edge|done]. }
  intros rec _. apply triple_wait; [apply told_report|]. intros _. by apply triple_ret.
Qed.

Lemma fail_triple id e : triple id starting (vm_fail (J:=J) id e) (λ _, True) (λ _, always).
Proof.
  unfold vm_fail. eapply (triple_bind _ _ _ _ _ (λ _, always)).
  { apply update_triple. intros r t _ [Hs Ha]. split; [|done].
    apply edge_intro; simpl; [done|by intros _|by intros _|by rewrite Hs|by rewrite Ha]. }
  intros [[r|]|] _; [|by apply triple_ret..]. apply triple_report, vm_event_report.
Qed.
(** An attempt whose failure is recorded. *)
Lemma advance_or_fail_triple {A} id (k : handler J (result A VmError)) :
  triple id always k (λ _, True) (λ _, always) →
  triple id always
    (let! r := advance cfg engine_token admin_credential id in
     match r with Err e => vm_fail id e ;! Ret (Err e) | Ok _ => k end) (λ _, True) (λ _, always).
Proof.
  intros Hk. eapply triple_bind; [apply advance_triple|]. intros [[]|e] _; [done|].
  eapply triple_bind; [apply fail_triple|]. intros ? _. by apply triple_ret.
Qed.

Lemma apply_reading_next m reading :
  moving m = true → vm_next (vm_state m) (vm_state (vm_apply_reading m reading)) = true ∧ aborting m = false.
Proof.
  unfold vm_apply_reading. intros Hm. rewrite Hm. unfold moving, read_mirror_state in *.
  destruct (vm_state m) eqn:Hs; try done; apply negb_true_iff in Hm; (split; [|done]);
    repeat case_match; simpl; by rewrite ?Hs.
Qed.
Lemma refresh_triple id : triple id always (vm_refresh engine_token admin_credential id) (λ _, True) (λ _, always).
Proof.
  unfold vm_refresh. eapply triple_bind_ok; [apply get_triple| |done|done]. intros m [_ _].
  apply triple_wait_ok; [apply read_mirror_report| |done|done]. intros reading. cbv zeta.
  destruct (same_reading m _) eqn:Hsame; [by apply triple_ret|].
  assert (moving m = true) as Hm.
  { destruct (moving m) eqn:Hm; [done|]. unfold vm_apply_reading, same_reading in Hsame. rewrite Hm in Hsame. simpl in Hsame.
    by rewrite !eqb_refl, !Z.eqb_refl in Hsame. }
  destruct (apply_reading_next m reading Hm) as [Hn Ha].
  eapply (triple_bind _ _ _ _ _ (λ _, always)).
  { apply set_triple. intros r t _ ->. split; [|done].
    apply edge_intro; simpl; [done|by intros _|by intros _|done|by rewrite Ha]. }
  intros rec _. repeat case_match; try (by apply triple_ret).
  apply triple_wait; [apply vm_event_report|]. intros _. by apply triple_ret.
Qed.

Lemma get_end_triple id P : triple id P (vm_get (J:=J) id) (λ _, True) (λ _, always).
Proof. eapply triple_conseq; [apply (get_triple id P)|done..]. Qed.
Lemma note_end_triple id P f :
  (∀ r t, P r → vm_edge r (stamped t (f r))) → triple id P (vm_note (J:=J) id f) (λ _, True) (λ _, always).
Proof. intros Hf. apply note_triple. intros r t _ Hr. split; [auto|done]. Qed.
Lemma told_end_triple {A} id P sev msg o (r : A) :
  triple id P (told (J:=J) sev msg o ;! Ret r) (λ _, True) (λ _, always).
Proof. apply triple_wait; [apply told_report|]. intros ?. by apply triple_ret. Qed.
#[local] Hint Resolve get_end_triple told_end_triple : core.

(** A record told of what could not be done. *)
Lemma message_edge r t msg : vm_edge r (stamped t (r <| vm_message := msg |>)).
Proof. by apply edge_unmoved. Qed.

Definition switching (r : VmMigration) : Prop := aborting r = false ∧ (vm_state r = Copying ∨ vm_state r = Synced).
Lemma switch_done_triple id :
  triple id switching (switch_done cfg engine_token admin_credential id) (λ _, True) (λ _, always).
Proof.
  unfold switch_done. eapply triple_bind; [apply (set_triple _ _ _ always)|].
  { intros r t _ [Ha Hs]. split; [|done].
    apply edge_intro; simpl; [done|by intros _|by intros _|by destruct Hs as [-> | ->]|by rewrite Ha]. }
  intros [rec|] Hrec; [|by apply triple_ret]. destruct (Hrec rec eq_refl) as (r & Hid & _ & ->).
  apply triple_wait; [apply vm_event_report|]. intros ?.
  eapply triple_bind; [apply (withdraw_triple id always); [exact Hid|done]|]. intros w _.
  eapply (triple_bind _ _ _ _ (λ _, True) (λ _, always)); [|intros ? _; auto].
  destruct w; [by apply triple_ret|]. apply note_end_triple. intros. apply message_edge.
Qed.
Lemma cutover_triple id : triple id always (cutover cfg engine_token admin_credential id) (λ _, True) (λ _, always).
Proof.
  unfold cutover. eapply triple_bind_ok; [apply get_triple| |done|done]. intros m [Hid _].
  destruct (aborting m) eqn:Ha; [by apply triple_ret|].
  assert (vm_state m = Copying ∨ vm_state m = Synced → triple id (is_now (X:=VmError) (Ok m))
            (switch cfg engine_token admin_credential id m) (λ _, True) (λ _, always)) as Hsw.
  { intros Hs. apply (triple_pre _ _ switching); [by intros r ->|]. unfold switch.
    apply triple_wait_ok; [apply vm_engine_report| |done|done]. intros e.
    apply triple_wait; [apply live_report|]. intros now. destruct (negb _); [by apply triple_ret|].
    apply triple_wait; [apply quiet|]. intros r. destruct (in_context _ r) as [st|x]; [|by apply triple_ret].
    destruct (exact st); [apply switch_done_triple|].
    unfold switch_failed. cbv zeta. eapply triple_bind; [apply (set_triple _ _ _ always)|intros; apply told_end_triple].
    intros r' t _ [Ha' Hs']. split; [|done].
    apply edge_intro; simpl; [done|by intros _|by intros _|by destruct Hs' as [-> | ->]|by rewrite Ha']. }
  destruct (vm_state m); try (by apply triple_ret); auto;
    (apply (triple_pre _ _ always); [done|];
     eapply triple_bind; [apply (withdraw_triple id always); [exact Hid|done]|intros ? _; auto]).
Qed.

Lemma complete_triple id : triple id always (complete cfg engine_token admin_credential id) (λ _, True) (λ _, always).
Proof.
  unfold complete. eapply triple_bind_ok; [apply get_triple| |done|done]. intros m [Hid _].
  destruct (vm_state m) eqn:Hs; try (by apply triple_ret). destruct (aborting m) eqn:Ha; [by apply triple_ret|].
  apply (triple_pre _ _ (λ r, vm_state r = CutOver ∧ aborting r = false)); [by intros r ->|]. unfold retire.
  apply triple_wait_ok; [apply vm_engine_report| |done|done]. intros e.
  apply triple_wait; [apply quiet|]. intros [[]|x]; cbv zeta.
  - eapply triple_bind; [apply (withdraw_triple id _); [exact Hid|]; by intros r t Hr|]. intros w _.
    eapply triple_bind; [apply (set_triple _ _ _ always)|].
    { intros r t _ [Hs' Ha']. split; [|done].
      apply edge_intro; simpl; [done|by intros _|by intros _|by rewrite Hs'|by rewrite Ha']. }
    intros [rec|] _; [|by apply triple_ret]. apply triple_wait; [apply vm_event_report|]. intros ?. by apply triple_ret.
  - eapply triple_bind; [apply note_end_triple; intros; apply message_edge|]. intros ? _. by apply triple_ret.
Qed.

(** A record that an abort may still undo. *)
Definition undoable (r : VmMigration) : Prop := terminal (vm_state r) = false.
Lemma aborted_edge r t : undoable r → vm_edge r (stamped t (aborted r)).
Proof.
  unfold undoable. intros Hr. apply edge_intro; simpl; [done|by intros _|by intros _|by destruct (vm_state r)|by left].
Qed.
Lemma aborting_edge r t : vm_edge r (stamped t (r <| aborting := true |>)).
Proof. apply edge_intro; simpl; [done|by intros _|by intros _|apply vm_next_refl|by right]. Qed.
Lemma abort_triple id : triple id always (abort cfg engine_token admin_credential id) (λ _, True) (λ _, always).
Proof.
  unfold abort. eapply triple_bind_ok; [apply get_triple| |done|done]. intros m [Hid _].
  assert (terminal (vm_state m) = false → triple id (is_now (X:=VmError) (Ok m))
            (abort_claimed cfg engine_token admin_credential id m) (λ _, True) (λ _, always)) as Hab.
  { intros Hs. apply (triple_pre _ _ undoable); [by intros r ->|]. unfold abort_claimed.
    eapply (triple_bind _ _ _ _ (λ _, True) (λ _, undoable)).
    { destruct (aborting m); [by apply triple_ret|].
      eapply triple_bind; [apply (note_triple _ _ _ undoable)|intros ? _; apply triple_report, vm_event_report].
      intros r t _ Hr. split; [apply aborting_edge|done]. }
    intros ? _. apply triple_wait; [apply abort_steps_report|]. intros [[]|e].
    - eapply triple_bind; [apply (set_triple _ _ _ always); intros r t _ Hr; split; [by apply aborted_edge|done]|].
      intros [rec|] _; [|by apply triple_ret]. apply triple_wait; [apply vm_event_report|]. intros ?. by apply triple_ret.
    - eapply triple_bind; [apply note_end_triple; intros; apply message_edge|]. intros ? _. by apply triple_ret. }
  destruct (vm_state m); try (by apply triple_ret); by apply Hab.
Qed.

Lemma retry_triple id : triple id always (vm_retry cfg engine_token admin_credential id) (λ _, True) (λ _, always).
Proof.
  unfold vm_retry. eapply triple_bind_ok; [apply get_triple| |done|done]. intros m [Hid _].
  destruct (aborting m) eqn:Ha; [by apply triple_ret|].
  destruct (negb (vm_state m == VmFailed)) eqn:Hs; [by apply triple_ret|]. apply neqb_nprop in Hs.
  apply triple_wait_ok; [apply forget_mirror_report| |done|done]. intros ?.
  eapply (triple_bind _ _ _ _ _ (λ _, always)); [apply note_end_triple|intros ? _; apply advance_or_fail_triple; auto].
  intros r t ->. apply edge_intro; simpl; [done|by intros _|by intros _|by rewrite Hs|by rewrite Ha].
Qed.

Lemma step_triple m s_ok t_ok :
  triple (vm_id m) always (vm_step cfg engine_token admin_credential m s_ok t_ok) (λ _, True) (λ _, always).
Proof.
  unfold vm_step. destruct (aborting m).
  { eapply triple_bind_ok; [apply abort_triple| |done|done]. intros ? _. by apply triple_ret. }
  destruct (vm_state m); try (by apply triple_ret); try (destruct s_ok; [apply refresh_triple|by apply triple_ret]);
    try (destruct (_ && t_ok); [by apply withdraw_triple|by apply triple_ret]).
  apply advance_or_fail_triple. by apply triple_ret.
Qed.

(** ** Taking and giving back the claim *)

(** The migrations of [l] that were over are over, or gone. *)
Definition settled (l : list VmMigration) (s : App) : Prop :=
  wf s ∧ ∀ m r, m ∈ l → terminal (vm_state m) = true → records s !! vm_id m = Some r → terminal (vm_state r) = true.
Lemma settled_rely l h s s' : vm_rely h s s' → settled l s → settled l s'.
Proof.
  intros [Hw Hr] [Hs Hl]. split; [auto|]. intros m r Hm Ht Hr'. destruct (Hr (vm_id m)) as (Hn & Hk & _).
  destruct (records s !! vm_id m) as [r0|] eqn:E; [|by rewrite Hn in Hr']. eauto.
Qed.
Lemma settled_moves l h h' s s' : moves vm_G vm_acq vm_rel h h' s s' → settled l s → settled l s'.
Proof. intros Hm. apply (settled_rely l None). apply (moves_rely _ _ _ _ Hm). by destruct h. Qed.
Lemma settled_records l s s' : records s' = records s → settled l s → settled l s'.
Proof. unfold settled, wf. by intros ->. Qed.

(** A program that neither holds nor takes a claim. *)
Lemma outside_owns {A} l (p : handler J A) s :
  guar leaves p → settled l s → owns None p (λ h _ s, h = None ∧ settled l s) s.
Proof.
  intros Hg Hs. eapply (owns_same vm_G vm_acq vm_rel vm_rely leaves (settled l)); [apply leaves_G| | |exact Hg|exact Hs|done].
  - intros s1 s2. apply settled_rely.
  - intros s1 s2 [E _]. by apply settled_records.
Qed.
Lemma outside_report_owns {A} l (p : handler J A) s :
  guar report_step p → settled l s → owns None p (λ h _ s, h = None ∧ settled l s) s.
Proof. intros Hg. apply outside_owns. by apply (guar_weaken report_step); [apply report_leaves|]. Qed.

Lemma claim_owns l id s :
  settled l s →
  owns None (claim (J:=J) (vm_claim id)) (λ h b s, h = (if b : bool then Some id else None) ∧ settled l s) s.
Proof.
  intros Hs s' Hr. exists (if bool_decide (vm_claim id ∉ claims s') then Some id else None). simpl.
  split; [|split; [done|]; by eapply settled_records; [|by eapply settled_rely]].
  destruct (bool_decide _) eqn:E.
  - apply bool_decide_eq_true in E. apply moves_take. split; [done|]. unfold held; simpl.
    split; [by apply elem_of_union_l, elem_of_singleton|].
    split; [|done]. intros j Hj. by apply held_taken.
  - apply bool_decide_eq_false, dec_stable in E. apply moves_plain, leaves_G. split; [done|]. intros j. by apply held_again.
Qed.
Lemma release_owns l id s :
  settled l s → owns (Some id) (release (J:=J) (vm_claim id)) (λ h _ s, h = None ∧ settled l s) s.
Proof.
  intros Hs s' Hr. exists None. simpl.
  split; [|split; [done|]; by eapply settled_records; [|by eapply settled_rely]].
  apply moves_give. split; [|done]. intros j Hj. by apply held_given.
Qed.
(** A step of the state machine between the two. *)
Lemma under_claim {A} l id (p : handler J A) s :
  triple id always p (λ _, True) (λ _, always) → settled l s →
  owns (Some id) p (λ h _ s, h = Some id ∧ settled l s) s.
Proof.
  intros Hp Hs. eapply owns_mono; [apply (owns_frame _ _ _ _ (settled l));
    [apply settled_rely|intros h h' s1 s2; apply settled_moves|exact Hs|]|].
  - apply Hp. by destruct Hs.
  - by intros h a s1 [(-> & _) Hl].
Qed.

Lemma drop_owns l m s :
  m ∈ l → terminal (vm_state m) = true → settled l s →
  owns None (drop_record (J:=J) (vm_id m)) (λ h _ s, h = None ∧ settled l s) s.
Proof.
  intros Hin Ht Hs. unfold drop_record. apply owns_bind. intros s' Hr. exists None.
  pose proof (settled_rely _ _ _ _ Hr Hs) as [Hw Hl].
  assert (moves vm_G vm_acq vm_rel None None s' (s' <| fed ::= λ fd, bump (fd <| vm_migrations ::= delete (vm_id m) |>) |>)) as Hm.
  { apply moves_plain. split; [done|]. intros id. simpl. destruct (decide (id = vm_id m)) as [->|Hne].
    - rewrite lookup_delete_eq. destruct (records s' !! vm_id m) as [r|] eqn:E; [|by left]. right; left. eauto.
    - left. by rewrite lookup_delete_ne. }
  split; [exact Hm|]. cbn [Owned.owns]. apply outside_owns; [apply quiet|]. by apply (settled_moves l _ _ _ _ Hm).
Qed.
Lemma one_owns l now m s :
  m ∈ l → settled l s →
  owns None (vm_one cfg engine_token admin_credential now m) (λ h _ s, h = None ∧ settled l s) s.
Proof.
  intros Hin Hs. unfold vm_one. destruct (vm_expired now m) eqn:Hx.
  { apply andb_true_iff in Hx as [[Ht _]%andb_true_iff _]. by apply drop_owns. }
  apply owns_bind. eapply owns_mono; [by apply claim_owns|]. intros h [] s1 [-> Hs1]; [|done]. cbn [negb].
  apply owns_bind. eapply owns_mono; [apply (under_claim l); [|exact Hs1]|].
  { eapply triple_conseq; [apply (triple_report _ always), vm_healthy_report|done..]. }
  intros h s_ok s2 [-> Hs2].
  apply owns_bind. eapply owns_mono; [apply (under_claim l); [|exact Hs2]|].
  { eapply triple_conseq; [apply (triple_report _ always), vm_healthy_report|done..]. }
  intros h t_ok s3 [-> Hs3].
  apply owns_bind. eapply owns_mono; [apply (under_claim l _ _ _ (step_triple m s_ok t_ok)), Hs3|].
  intros h r s4 [-> Hs4]. by apply release_owns.
Qed.
Lemma ones_owns l now l' s :
  (∀ m, m ∈ l' → m ∈ l) → settled l s →
  owns None (for_each (vm_one cfg engine_token admin_credential now) l') (λ h _ s, h = None ∧ settled l s) s.
Proof.
  unfold for_each. revert s. induction l' as [|m l' IH]; intros s Hin Hs; [done|]. simpl.
  apply owns_bind. eapply owns_mono; [apply (one_owns l); [apply Hin; by left|done]|].
  intros h [] s1 [-> Hs1]. apply IH; [|done]. intros x Hx. apply Hin. by right.
Qed.
Lemma run_owns s : wf s → owner vm_G vm_acq vm_rel vm_rely None (vm_run cfg engine_token admin_credential) s.
Proof.
  intros Hw. unfold owner, vm_run. apply owns_bind. intros s' Hr. exists None.
  split; [apply moves_plain, leaves_G; reflexivity|]. cbn [Owned.owns fst snd]. destruct (negb _); [done|].
  assert (wf s') as Hw' by (by apply Hr).
  apply owns_bind. intros s2 Hr2. exists None. split; [apply moves_plain, leaves_G; reflexivity|]. cbn [Owned.owns fst snd].
  intros now. eapply owns_mono; [eapply (ones_owns (bt_values (records s2))); [done|]|done].
  assert (wf s2) as Hw2 by (by apply Hr2). split; [done|].
  intros m r [k Hk]%elem_of_bt_values Ht Hr'. rewrite (Hw2 _ _ Hk), Hk in Hr'. by injection Hr' as <-.
Qed.
Lemma claimed_owns id (f : handler J (result VmMigration VmError)) s :
  triple id always f (λ _, True) (λ _, always) → wf s →
  owner vm_G vm_acq vm_rel vm_rely None (vm_claimed id f ;! Ret tt) s.
Proof.
  intros Hf Hw. unfold owner, vm_claimed. apply owns_bind.
  assert (settled [] s) as Hs by (split; [done|]; by intros m r ?%elem_of_nil).
  apply owns_bind. eapply owns_mono; [apply (outside_report_owns []); [|exact Hs]; apply guar_reads; done|].
  intros h known s1 [-> Hs1]. destruct (negb known); [done|].
  apply owns_bind. eapply owns_mono; [apply (claim_owns []), Hs1|]. intros h [] s2 [-> Hs2]; [|done]. cbn [negb].
  apply owns_bind. eapply owns_mono; [apply (under_claim [] _ _ _ Hf), Hs2|]. intros h r s3 [-> Hs3].
  apply owns_bind. eapply owns_mono; [apply (release_owns []), Hs3|]. done.
Qed.
End steps.

(** ** Any interleaving *)

(** Where a record can be, that was [o] before. *)
Definition came_from (o o' : option VmMigration) : Prop :=
  match o, o' with
  | Some m, Some m' => rtc vm_edge m m'
  | Some m, None => ∃ m', rtc vm_edge m m' ∧ terminal (vm_state m') = true
  | None, o' => o' = None
  end.
Lemma came_from_step P o o1 o2 : came_from o o1 → record_moves P o1 o2 → came_from o o2.
Proof.
  intros Hc [->|[(m & -> & Ht & ->)|(_ & m & m' & -> & -> & He)]]; [done|..]; destruct o as [m0|]; simpl in *; [eauto|done| |done].
  by eapply rtc_r.
Qed.
Lemma allowed_record s s' id :
  rtc (allowed held vm_G vm_acq vm_rel) s s' → came_from (records s !! id) (records s' !! id).
Proof.
  revert s'. apply (rtc_ind_r (λ s', came_from (records s !! id) (records s' !! id))).
  - destruct (records s !! id); simpl; [reflexivity|done].
  - intros s1 s2 _ (h & h' & _ & Hm) IH. eapply came_from_step; [exact IH|exact (moves_records _ _ _ _ Hm id)].
Qed.
Lemma allowed_wf s s' : rtc (allowed held vm_G vm_acq vm_rel) s s' → wf s → wf s'.
Proof.
  intros Ha Hw. revert s' Ha. apply (rtc_ind_r wf); [done|].
  intros s1 s2 _ (h & h' & _ & Hm) IH. exact (wf_moves _ _ _ (moves_records _ _ _ _ Hm) IH).
Qed.

Section tasks.
Context {J : Type} `{Json J} `{HttpShow}.
Context `{Deserialize J EngineVolume} `{Deserialize J Slab} `{Deserialize J Discovery}.
Context (cfg : Config) (engine_token : NodeConfig → option string) (admin_credential : string → option string).
(** The requests on a migration, the reconciler's pass, and tasks that have
    nothing to do with migrations. *)
Inductive vm_task : handler J unit → Prop :=
  | task_cutover id : vm_task (api_cutover cfg engine_token admin_credential id ;! Ret tt)
  | task_complete id : vm_task (api_complete cfg engine_token admin_credential id ;! Ret tt)
  | task_abort id : vm_task (api_abort cfg engine_token admin_credential id ;! Ret tt)
  | task_retry id : vm_task (api_retry cfg engine_token admin_credential id ;! Ret tt)
  | task_run : vm_task (vm_run cfg engine_token admin_credential)
  | task_other p : guar leaves p → vm_task p.
Lemma task_owner p s : vm_task p → wf s → owner vm_G vm_acq vm_rel vm_rely None p s.
Proof.
  intros [id|id|id|id| |q Hq] Hw.
  - apply claimed_owns; [apply cutover_triple|done].
  - apply claimed_owns; [apply complete_triple|done].
  - apply claimed_owns; [apply abort_triple|done].
  - apply claimed_owns; [apply retry_triple|done].
  - by apply run_owns.
  - by apply (owns_outside _ _ _ _ leaves); [apply leaves_G|].
Qed.
End tasks.

(** C16: However switch-over, completion, abort and retry requests (of any
    migrations) and passes of the reconciler interleave, with each other and
    with any tasks that leave migrations alone, and whatever the engines
    answer: every migration's record goes along [vm_edge] from where it was,
    is gone only after it was over, and none appears. In particular what a
    migration is of never changes, a target volume once recorded stays
    recorded, only a record that was cut over gets completed, and one being
    aborted can only get aborted. *)
Theorem vm_moves_along_edges {J} `{Json J} `{HttpShow}
  `{Deserialize J EngineVolume} `{Deserialize J Slab} `{Deserialize J Discovery} cfg engine_token admin_credential
  s (ps : list (handler J unit)) s' ps'
  (Hwf : wf s) (Hps : Forall (vm_task cfg engine_token admin_credential) ps) (Hsteps : pool_steps (s, ps) (s', ps')) :
  wf s' ∧ ∀ id, came_from (records s !! id) (records s' !! id).
Proof.
  destruct (owned_pool held vm_G vm_acq vm_rel vm_rely s ps s' ps' (λ _, None)) as (hs & _ & Ha); [apply vm_exclusive|done| |].
  { apply pool_ok_start. intros p Hp. eapply task_owner; [|done]. by eapply Forall_forall in Hps. }
  split; [by eapply allowed_wf|]. intros id. by apply allowed_record.
Qed.

Section example.
#[local] Existing Instances no_text no_volume no_slab no_discovery.
Local Open Scope string_scope.
Definition copying_vm : VmMigration :=
  (new_migration "vm-1" "n1" "v1" "disk" "n2" "disk" 1024 None 1) <| vm_state := Copying |>.
Definition vm_app : App :=
  App_new (FedState_default <| vm_migrations := {["vm-1" := copying_vm]} |>) None.
(** An abort and a retry of it, and a pass of the reconciler. *)
Definition vm_example_tasks : list (handler Tree unit) :=
  [vm_run example_cfg (λ _, None) (λ _, None);
   api_abort example_cfg (λ _, None) (λ _, None) "vm-1" ;! Ret tt;
   api_retry example_cfg (λ _, None) (λ _, None) "vm-1" ;! Ret tt].
Definition vm_example_end := sched race_env ([0; 0; 1; 2; 1; 2; 1; 2]%nat ++ repeat 1%nat 30 ++ repeat 0%nat 40)%list (vm_app, tt, vm_example_tasks).
Lemma vm_moves_along_edges_witness :
  fmap (M:=option) vm_state (records vm_example_end.1.1 !! "vm-1") = Some Aborted
  ∧ wf vm_example_end.1.1
  ∧ ∀ id, came_from (records vm_app !! id) (records vm_example_end.1.1 !! id).
Proof.
  split; [vm_compute; reflexivity|].
  assert (wf vm_app) as Hwf.
  { intros id m Hm. change (records vm_app) with ({["vm-1" := copying_vm]} : gmap string VmMigration) in Hm.
    apply lookup_singleton_Some in Hm as [<- <-]. reflexivity. }
  assert (Forall (vm_task example_cfg (λ _, None) (λ _, None)) vm_example_tasks) as Hps.
  { constructor; [apply task_run|]. constructor; [apply task_abort|]. constructor; [apply task_retry|constructor]. }
  exact (vm_moves_along_edges example_cfg (λ _, None) (λ _, None) vm_app vm_example_tasks _ _ Hwf Hps
           (sched_sound race_env _ vm_app tt vm_example_tasks)).
Defined.
End example.
