(* ===== verification/VmDisk.v ===== *)
(** * The disk of a migrating VM (src/vmmigrate.rs, a theorem on its outside)

    [VmSteps] follows the record of a migration; here is what becomes of the
    two volumes. The engines are an environment function whose state says
    whether S's volume and T's are there. Shown: as long as the engines say
    the truth about a delete of S's volume, no sequence of requests and
    passes of the reconciler loses the disk: it is on S until the migration
    is completed, and on T then. And: when the answer to the delete of S's
    volume is lost, the record stays cut over, and an abort deletes T's
    volume too. *)

From stdpp Require Import relations.
From S2P Require Import Prelude F64 Config Model Placement Events Refusal Async Json Inventory Sync.
From S2P Require Import Recovery App Engine Publish Replace Fencing Backups Owned VmMigrate VmSteps.
From stdpp Require Import options.

(** The removal of a volume, by its URL. *)
Definition deletes {J} (full : string) {R} (c : Call J R) : Prop :=
  match c with Http m u _ _ _ => m = DELETE ∧ u = full | _ => False end.
Definition refused_answer {J} (r : result (Z * option J) string) : Prop :=
  match r with Ok (st, _) => is_success st = false ∧ st ≠ 404%Z | Err _ => True end.

(** A migration, its two volumes, and the base URLs of the engines. *)
Record Disk := MkDisk {
  dk_id : string;
  dk_S : string; dk_S_url : string; dk_S_volume : string;
  dk_T : string; dk_T_url : string; dk_T_volume : string; dk_T_local : string;
}.
Definition S_delete (d : Disk) : string := dk_S_url d +:+ ("/api/v1/volumes/" +:+ dk_S_volume d).
Definition T_delete (d : Disk) : string := dk_T_url d +:+ ("/v1/volumes/" +:+ dk_T_volume d).
Definition T_local_delete (d : Disk) : string := dk_T_url d +:+ ("/api/v1/volumes/" +:+ dk_T_local d).

(** Engines that say the truth: a volume goes only by a delete of it, and
    one of S's that is answered by neither success nor "not found" did not
    happen. *)
Record truthful {J W} (env : ∀ R, Call J R → W → R * W) (d : Disk) (src tgt : W → Prop) : Prop := {
  src_stays R (c : Call J R) w : ¬ deletes (S_delete d) c → src w → src (env R c w).2;
  src_refused b q x w : refused_answer (env _ (Http DELETE (S_delete d) b q x) w).1 →
    src w → src (env _ (Http DELETE (S_delete d) b q x) w).2;
  tgt_stays R (c : Call J R) w : ¬ deletes (T_delete d) c → ¬ deletes (T_local_delete d) c → tgt w → tgt (env R c w).2;
}.
(** The nodes are where the URLs say, and no URL of one is one of the other. *)
Record located (d : Disk) (ns : gmap string Node) : Prop := {
  S_at n : ns !! dk_S d = Some n → trim_end_matches slash (nc_engine_url (config n)) = dk_S_url d;
  T_at n : ns !! dk_T d = Some n → trim_end_matches slash (nc_engine_url (config n)) = dk_T_url d;
  urls_apart a b : dk_S_url d +:+ a ≠ dk_T_url d +:+ b;
}.

(** A record of the migration, both volumes recorded. *)
Definition of_disk (d : Disk) (r : VmMigration) : Prop :=
  vm_id r = dk_id d ∧ vm_source_node r = dk_S d ∧ source_volume_id_ r = dk_S_volume d ∧ vm_target_node r = dk_T d
  ∧ vm_target_volume_id r = Some (dk_T_volume d) ∧ target_local_id r = Some (dk_T_local d).
Lemma of_disk_edge d r r' : of_disk d r → vm_edge r r' → of_disk d r'.
Proof.
  intros (H1 & H2 & H3 & H4 & H5 & H6) (Hi & Hv & Hl & _). unfold of_disk. injection Hi as -> -> -> ? ? -> ? ? ?.
  rewrite (Hv (mk_is_Some _ _ H5)), (Hl (mk_is_Some _ _ H6)). done.
Qed.

(** When T's volume is not to go. *)
Definition wanted (r : VmMigration) : Prop := vm_state r = Completed ∨ vm_state r ≠ Aborted ∧ aborting r = false.
Lemma wanted_edge r r' : vm_edge r r' → wanted r' → wanted r.
Proof.
  unfold wanted. intros (_ & _ & _ & Hn & Ha) Hw. destruct (aborting r) eqn:E.
  - destruct (Ha eq_refl) as [Hs|[Hs Hr']]; [rewrite Hs in Hw; by destruct Hw as [|[? _]]|].
    destruct Hw as [Hc|[_ Hf]]; [left; congruence|congruence].
  - right. split; [|done]. intros Hs. rewrite Hs in Hn. revert Hn Hw. destruct (vm_state r'); try done. by intros _ [|[? _]].
Qed.
Lemma open_edge r r' : vm_edge r r' → vm_state r' ≠ Completed → vm_state r ≠ Completed.
Proof. intros (_ & _ & _ & Hn & _) Hw E. rewrite E in Hn. by destruct (vm_state r'). Qed.

(** What is asked, call by call. *)
Ltac asks_step :=
  lazymatch goal with
  | |- asks _ (bind _ _) => apply asks_bind; [|intros ?]
  | |- asks _ (bind_ok _ _) => apply asks_bind_ok; [|intros ?]
  | |- asks _ (invoke _) => split; [|by intros ?]
  | |- asks _ (reads _) => by intros ?
  | |- asks _ (Ret _) => exact I
  | |- asks _ (match ?x with _ => _ end) => destruct x
  | |- asks _ (writes _) => by intros ?
  | |- asks _ (atomic _) => by intros ?
  end.
Ltac asks_http := unfold admin_post, v1_post, get_items, admin_send, admin_req, req, send; repeat asks_step.

Section disk.
Context {J : Type} `{Json J} `{HttpShow}.
Context `{Deserialize J EngineVolume} `{Deserialize J Slab} `{Deserialize J Discovery}.
Context (cfg : Config) (engine_token : NodeConfig → option string) (admin_credential : string → option string).
Context {W : Type} (env : ∀ R, Call J R → W → R * W) (d : Disk) (ns : gmap string Node) (src tgt : W → Prop).
Context (Henv : truthful env d src tgt) (Hloc : located d ns).

(** ** Calls that remove neither volume *)

Definition calm {R} (c : Call J R) : Prop :=
  ¬ deletes (S_delete d) c ∧ ¬ deletes (T_delete d) c ∧ ¬ deletes (T_local_delete d) c.
Lemma calm_other m u b q x : m ≠ DELETE → calm (Http (J:=J) m u b q x).
Proof. intros Hm. split_and!; by intros [? _]. Qed.

(** A part that leaves the federation alone and asks only [C]s keeps what
    every [C] keeps. *)
Lemma runs_keeps (C : ∀ R, Call J R → Prop) (K : W → Prop) {A} (p : handler J A) s w :
  (∀ R c w, C R c → K w → K (env R c w).2) → guar report_step p → asks C p → K w →
  runs env p (λ _ s' w', fed s' = fed s ∧ K w') s w.
Proof.
  intros HC. unfold runs, run_value, run_state, run_world. revert s w.
  induction p as [X a|X Y f k IH|X Y c k IH|X q IHq p IH]; intros s w Hg Ha HK; simpl in *; [done|..].
  - destruct (Hg s) as [[Hf _] Hk]. specialize (Ha s). destruct (f s) as [s1 b]. simpl in *. rewrite <-Hf. by apply IH.
  - destruct Ha as [Hc Ha]. specialize (HC _ c w Hc HK). destruct (env Y c w) as [r w1]. by apply IH.
  - destruct Hg as [_ Hg], Ha as [_ Ha]. specialize (IH s w Hg Ha HK). by destruct (run env p s w) as [[[??]?]?].
Qed.

(** ** Under a record that is there *)

Definition there (P : VmMigration → W → Prop) (s : App) (w : W) : Prop :=
  nodes (fed s) = ns ∧ (∀ j, j ≠ dk_id d → records s !! j = None)
  ∧ ∃ r, records s !! dk_id d = Some r ∧ of_disk d r ∧ P r w.
Definition hoare {A} (P : VmMigration → W → Prop) (p : handler J A) (φ : A → Prop) (Q : A → VmMigration → W → Prop) : Prop :=
  ∀ s w, there P s w → runs env p (λ a s w, φ a ∧ there (Q a) s w) s w.
(** What holds between the steps: S's volume is there until the migration
    is completed, T's as long as it is wanted. *)
Definition safe (P : VmMigration → Prop) (r : VmMigration) (w : W) : Prop :=
  P r ∧ (vm_state r ≠ Completed → src w) ∧ (wanted r → tgt w).
Definition any : VmMigration → Prop := λ _, True.

Lemma there_mono (P Q : VmMigration → W → Prop) s w : (∀ r w, of_disk d r → P r w → Q r w) → there P s w → there Q s w.
Proof. intros HPQ (Hn & Ho & r & Hr & Hd & HP). split_and!; [done..|]. exists r. auto. Qed.
Lemma hoare_conseq {A} (P P' : VmMigration → W → Prop) (p : handler J A) (φ φ' : A → Prop) (Q Q' : A → VmMigration → W → Prop) :
  hoare P' p φ' Q' → (∀ r w, P r w → P' r w) → (∀ a, φ' a → φ a) → (∀ a r w, φ' a → Q' a r w → Q a r w) → hoare P p φ Q.
Proof.
  intros Hp HP Hφ HQ s w Hs. eapply runs_mono; [apply Hp; eapply there_mono; [|exact Hs]; auto|].
  intros a s1 w1 [Ha Hk]. split; [auto|]. eapply there_mono; [|exact Hk]. auto.
Qed.
Lemma hoare_pre {A} (P P' : VmMigration → W → Prop) (p : handler J A) φ Q :
  (∀ r w, P r w → P' r w) → hoare P' p φ Q → hoare P p φ Q.
Proof. intros HP Hp. by eapply hoare_conseq. Qed.
Lemma hoare_ret {A} (P : VmMigration → W → Prop) (a : A) (φ : A → Prop) (Q : A → VmMigration → W → Prop) :
  φ a → (∀ r w, P r w → Q a r w) → hoare P (Ret a) φ Q.
Proof. intros Ha HQ s w Hs. apply runs_ret. split; [done|]. eapply there_mono; [|exact Hs]. auto. Qed.
Lemma hoare_bind {A B} P (p : handler J A) (k : A → handler J B) φ M ψ Q :
  hoare P p φ M → (∀ a, φ a → hoare (M a) (k a) ψ Q) → hoare P (bind p k) ψ Q.
Proof.
  intros Hp Hk s w Hs. apply runs_bind. eapply runs_mono; [by apply Hp|]. intros a s1 w1 [Ha Hm]. by apply Hk.
Qed.
Lemma hoare_bind_ok {A B X} P (p : handler J (result A X)) (k : A → handler J (result B X)) φ M ψ Q :
  hoare P p φ M → (∀ a, φ (Ok a) → hoare (M (Ok a)) (k a) ψ Q) →
  (∀ e, φ (Err e) → ψ (Err e)) → (∀ e r w, M (Err e) r w → Q (Err e) r w) → hoare P (bind_ok p k) ψ Q.
Proof.
  intros Hp Hk Hψ HQ. apply (hoare_bind _ _ _ φ M); [done|]. intros [a|e] Ha; [by apply Hk|].
  apply hoare_ret; auto.
Qed.

(** Waiting: what every [C] keeps of the record stays. *)
Lemma hoare_asks (C : ∀ R, Call J R → Prop) {A} (P : VmMigration → W → Prop) (p : handler J A) :
  (∀ r R c w, C R c → P r w → P r (env R c w).2) → guar report_step p → asks C p → hoare P p (λ _, True) (λ _, P).
Proof.
  intros HC Hg Ha s w (Hn & Ho & r & Hr & Hd & HP). eapply runs_mono.
  { apply (runs_keeps C (P r)); [intros; by apply HC|done..]. }
  intros a s1 w1 [Hf HP1]. split; [done|]. unfold there. rewrite Hf. split_and!; [done..|]. by exists r.
Qed.
Definition stable (P : VmMigration → W → Prop) : Prop := ∀ r R (c : Call J R) w, calm c → P r w → P r (env R c w).2.
Lemma safe_stable P : stable (safe P).
Proof using Henv.
  intros r R c w (Hs & Ht1 & Ht2) (HP & Hsrc & Htgt). destruct Henv. split_and!; auto.
Qed.
Lemma hoare_calm {A} P (p : handler J A) :
  stable P → guar report_step p → asks (@calm) p → hoare P p (λ _, True) (λ _, P).
Proof. intros HP. by apply hoare_asks. Qed.
Lemma hoare_wait {A B} P (p : handler J A) (k : A → handler J B) φ Q :
  stable P → guar report_step p → asks (@calm) p → (∀ a, hoare P (k a) φ Q) → hoare P (bind p k) φ Q.
Proof. intros HP Hg Ha Hk. eapply hoare_bind; [by apply hoare_calm|auto]. Qed.
Lemma hoare_wait_ok {A B X} P (p : handler J (result A X)) (k : A → handler J (result B X)) (φ : result B X → Prop) Q :
  stable P → guar report_step p → asks (@calm) p → (∀ a, hoare P (k a) φ Q) →
  (∀ e, φ (Err e)) → (∀ e r w, P r w → Q (Err e) r w) → hoare P (bind_ok p k) φ Q.
Proof. intros HP Hg Ha Hk Hφ HQ. eapply hoare_bind_ok; [by apply hoare_calm|auto..]. Qed.
Lemma hoare_reads {A} P (f : App → A) (φ : A → Prop) :
  (∀ s, nodes (fed s) = ns → φ (f s)) → hoare P (reads f) φ (λ _, P).
Proof. intros Hf s w Hs. apply runs_reads. split; [apply Hf, Hs|done]. Qed.

(** ** The record read and changed *)

Abbreviation id := (dk_id d).
Lemma get_hoare P :
  hoare P (vm_get id) (λ r, ∃ m w, r = Ok m ∧ of_disk d m ∧ P m w) (λ a r w, P r w ∧ a = Ok r).
Proof.
  intros s w (Hn & Ho & r & Hr & Hd & HP). apply runs_reads. simpl. rewrite Hr. simpl.
  split; [by exists r, w|]. split_and!; [done..|]. by exists r.
Qed.
Lemma asks_publish : asks (@calm) (publish_change (J:=J)).
Proof. unfold publish_change. repeat asks_step; by split_and!; intros []. Qed.
Lemma asks_event m sev msg : asks (@calm) (vm_event (J:=J) m sev msg).
Proof. unfold vm_event, event_of. repeat asks_step; by split_and!; intros []. Qed.
Lemma update_hoare {T} (P Q : VmMigration → W → Prop) (f : VmMigration → VmMigration * T) :
  stable P → stable Q →
  (∀ r t w, of_disk d r → P r w → vm_edge r (stamped t (f r).1) ∧ Q (stamped t (f r).1) w) →
  hoare P (vm_update id f) (λ o, ∃ r w, of_disk d r ∧ P r w ∧ o = Some (f r).2) (λ _, Q).
Proof.
  intros HP HQ Hf. unfold vm_update.
  apply hoare_wait; [done|apply quiet| |]; [split; [by split_and!; intros []|done]|]. intros now.
  eapply (hoare_bind _ _ _ (λ o, ∃ r w, of_disk d r ∧ P r w ∧ o = Some (f r).2) (λ _, Q)).
  - intros s w (Hn & Ho & r & Hr & Hd & HPr). apply runs_atomic. cbv beta. rewrite Hr.
    destruct (Hf r (now_ms now) w Hd HPr) as [He HQr]. unfold stamped in He, HQr. destruct (f r) as [m' y] eqn:Ef. simpl in *.
    split; [exists r, w; by rewrite Ef|]. split_and!; [done| |].
    + intros j Hj. simpl. rewrite lookup_insert_ne by done. by apply Ho.
    + eexists. simpl. rewrite lookup_insert_eq. split; [done|]. split; [by eapply of_disk_edge|done].
  - intros o (r & w & Hd & HPr & ->). eapply hoare_bind; [apply hoare_calm; [exact HQ|apply quiet|apply asks_publish]|].
    intros ? _. apply hoare_ret; [by exists r, w|done].
Qed.
Lemma edge_safe (P Q : VmMigration → Prop) r r' w : vm_edge r r' → Q r' → safe P r w → safe Q r' w.
Proof. intros He HQ (_ & Hs & Ht). split_and!; [done|intros; by eapply Hs, open_edge|intros; by eapply Ht, wanted_edge]. Qed.
(** A change along an edge of the state machine is safe. *)
Lemma edge_hoare {T} (P Q : VmMigration → Prop) (f : VmMigration → VmMigration * T) :
  (∀ r t, P r → vm_edge r (stamped t (f r).1) ∧ Q (stamped t (f r).1)) →
  hoare (safe P) (vm_update id f) (λ o, ∃ r, of_disk d r ∧ P r ∧ o = Some (f r).2) (λ _, safe Q).
Proof using Henv.
  intros Hf. eapply hoare_conseq; [apply (update_hoare (safe P) (safe Q)); [apply safe_stable..|]|done| |done].
  - intros r t w _ HP. destruct (Hf r t (proj1 HP)) as [He HQ]. split; [done|]. by eapply edge_safe.
  - intros o (r & w & Hd & HP & ->). exists r. split_and!; [done|apply HP|done].
Qed.
Lemma set_hoare (P Q : VmMigration → Prop) f :
  (∀ r t, P r → vm_edge r (stamped t (f r)) ∧ Q (stamped t (f r))) →
  hoare (safe P) (vm_set id f) (λ o, ∃ r, of_disk d r ∧ P r ∧ o = Some (f r)) (λ _, safe Q).
Proof using Henv. intros Hf. by apply edge_hoare. Qed.
Lemma note_any (P : VmMigration → W → Prop) (Q : VmMigration → W → Prop) f :
  stable P → stable Q → (∀ r t w, of_disk d r → P r w → vm_edge r (stamped t (f r)) ∧ Q (stamped t (f r)) w) →
  hoare P (vm_note id f) (λ _, True) (λ _, Q).
Proof.
  intros HP HQ Hf. unfold vm_note, vm_set. eapply hoare_bind; [apply (update_hoare P Q); [done..|]|].
  - exact Hf.
  - intros o _. by apply hoare_ret.
Qed.
Lemma note_hoare (P Q : VmMigration → Prop) f :
  (∀ r t, P r → vm_edge r (stamped t (f r)) ∧ Q (stamped t (f r))) →
  hoare (safe P) (vm_note id f) (λ _, True) (λ _, safe Q).
Proof using Henv.
  intros Hf. apply note_any; [apply safe_stable..|]. intros r t w _ HP. destruct (Hf r t (proj1 HP)). split; [done|].
  by eapply edge_safe.
Qed.
Lemma told_hoare {A} P sev msg o (r : A) (φ : A → Prop) :
  stable P → φ r → hoare P (told (J:=J) sev msg o ;! Ret r) φ (λ _, P).
Proof.
  intros HP Hr. apply hoare_wait; [done|apply told_report| |intros ?; by apply hoare_ret].
  unfold told. destruct o; [apply asks_event|done].
Qed.

(** ** Engines *)

Lemma calm_atoms u m b q x : m ≠ DELETE → @calm _ (Http (J:=J) m u b q x).
Proof. apply calm_other. Qed.
#[local] Hint Extern 1 (calm (Http _ _ _ _ _)) => (apply calm_other; done) : core.
#[local] Hint Extern 1 (calm Now) => (split_and!; by intros []) : core.

Lemma engine_hoare P node u :
  (∀ n, ns !! node = Some n → trim_end_matches slash (nc_engine_url (config n)) = u) →
  hoare P (vm_engine (J:=J) engine_token admin_credential node) (λ r, ∀ e, r = Ok e → url e = u) (λ _, P).
Proof.
  intros Hu. apply hoare_reads. intros s Hs e. unfold engine_on. rewrite Hs.
  destruct (ns !! node) as [n|] eqn:En; simpl; [|done]. destruct (negb _); simpl; [done|]. intros [= <-]. by apply Hu.
Qed.
Lemma S_engine P : hoare P (vm_engine (J:=J) engine_token admin_credential (dk_S d)) (λ r, ∀ e, r = Ok e → url e = dk_S_url d) (λ _, P).
Proof using Hloc. apply engine_hoare, Hloc. Qed.
Lemma T_engine P : hoare P (vm_engine (J:=J) engine_token admin_credential (dk_T d)) (λ r, ∀ e, r = Ok e → url e = dk_T_url d) (λ _, P).
Proof using Hloc. apply engine_hoare, Hloc. Qed.

Lemma app_longer (a : string) c b : a +:+ String c b ≠ a.
Proof. induction a as [|x a IH]; [done|]. intros [= E]. by apply IH. Qed.
Lemma S_not_T a b : dk_S_url d +:+ a ≠ dk_T_url d +:+ b.
Proof using Hloc. apply Hloc. Qed.
(** Stopping the mirror and withdrawing the host remove no volume. *)
Lemma mirror_calm b q x : calm (Http (J:=J) DELETE (dk_S_url d +:+ ("/api/v1/volumes/" +:+ (dk_S_volume d +:+ "/mirror"))) b q x).
Proof using Hloc.
  split_and!; intros [_ E]; [|by apply S_not_T in E..].
  apply (inj (String.app _)), (inj (String.app _)) in E. by apply app_longer in E.
Qed.
Lemma attach_calm b q x : calm (Http (J:=J) DELETE (dk_T_url d +:+ ("/api/v1/volumes/" +:+ (dk_T_local d +:+ "/attach"))) b q x).
Proof using Hloc.
  split_and!; intros [_ E].
  - symmetry in E. by apply S_not_T in E.
  - apply (inj (String.app _)) in E. discriminate E.
  - apply (inj (String.app _)), (inj (String.app _)) in E. by apply app_longer in E.
Qed.

Lemma live_asks m : asks (@calm) (live engine_token admin_credential m).
Proof. unfold live, read_mirror, vm_engine, get_any_volume. asks_http; auto. Qed.
Lemma read_mirror_asks m : asks (@calm) (read_mirror engine_token admin_credential m).
Proof. unfold read_mirror, vm_engine, get_any_volume. asks_http; auto. Qed.
Lemma begin_mirror_asks e m uri : asks (@calm) (begin_mirror e m uri).
Proof. unfold begin_mirror, mirror_there, get_any_volume, start_mirror. asks_http; auto. Qed.
Lemma attach_for_host_asks e i h b : asks (@calm) (attach_for_host (J:=J) e i h b).
Proof. unfold attach_for_host. asks_http; auto. Qed.
Lemma stop_mirror_asks e : url e = dk_S_url d → asks (@calm) (stop_mirror (J:=J) e (dk_S_volume d)).
Proof using Hloc. intros Hu. unfold stop_mirror. asks_http; rewrite Hu; apply mirror_calm. Qed.
Lemma withdraw_asks e h : url e = dk_T_url d → asks (@calm) (withdraw_host_call (J:=J) e (dk_T_local d) h).
Proof using Hloc. intros Hu. unfold withdraw_host_call. asks_http. rewrite Hu. apply attach_calm. Qed.
Lemma forget_mirror_hoare P m :
  stable P → of_disk d m → hoare P (forget_mirror engine_token admin_credential m) (λ _, True) (λ _, P).
Proof using Hloc.
  intros HP (_ & Hs & Hv & _). unfold forget_mirror. rewrite Hs, Hv.
  eapply hoare_bind_ok; [apply S_engine| |done|done]. intros e He. specialize (He e eq_refl).
  apply hoare_wait; [done|apply quiet|unfold get_any_volume; asks_http; auto|]. intros [v|x]; [|by apply hoare_ret].
  destruct (mirror_of v) as [r|]; [|by apply hoare_ret]. destruct (_ || _); [|by apply hoare_ret].
  apply hoare_wait; [done|apply quiet|by apply stop_mirror_asks|]. intros ?. by apply hoare_ret.
Qed.
Lemma withdraw_hoare (P : VmMigration → W → Prop) m :
  of_disk d m → stable P → (∀ r t w, P r w → P (stamped t (r <| vm_target_attach := None |>)) w) →
  hoare P (vm_withdraw cfg engine_token admin_credential m) (λ _, True) (λ _, P).
Proof using Hloc.
  intros (Hi & _ & _ & HT & _ & Hl) HP Hf. unfold vm_withdraw. rewrite Hl, HT.
  destruct (vm_target_attach m) as [a|]; [|by apply hoare_ret].
  eapply hoare_bind_ok; [apply T_engine| |done|done]. intros e He. specialize (He e eq_refl).
  apply hoare_wait; [done|apply quiet|by apply withdraw_asks|]. intros [[]|x]; [|by apply hoare_ret].
  rewrite Hi. eapply hoare_bind; [apply (note_any P P); [done..|]|intros ? _; by apply hoare_ret].
  intros r t w _ Hr. split; [by apply edge_unmoved|auto].
Qed.
Lemma safe_withdrawn P r t w :
  (∀ r t, P r → P (stamped t (r <| vm_target_attach := None |>))) → safe P r w →
  safe P (stamped t (r <| vm_target_attach := None |>)) w.
Proof. intros HP Hr. apply (edge_safe P P r); [by apply edge_unmoved|apply HP, Hr|exact Hr]. Qed.

(** The delete of S's volume: done, or not done. *)
Lemma delete_hoare P e :
  url e = dk_S_url d →
  hoare (safe P) (delete_any_volume e (dk_S_volume d)) (λ _, True)
    (λ r, match r with Ok _ => λ r w, P r ∧ (wanted r → tgt w) | Err _ => safe P end).
Proof using Henv Hloc.
  intros Hu s w (Hn & Ho & r & Hr & Hd & HP & Hsrc & Htgt). unfold delete_any_volume, req, send. rewrite Hu.
  apply runs_bind_ok, runs_bind, runs_invoke, runs_ret. fold (S_delete d).
  set (c := Http DELETE (S_delete d) _ _ _). pose proof (src_refused _ _ _ _ Henv (bearer_of (token e)) [] None w) as Hsr. fold c in Hsr.
  assert (tgt w → tgt (env _ c w).2) as Ht.
  { apply Henv; intros [_ E]; by apply S_not_T in E. }
  destruct (env _ c w) as [[[st b]|x] w1]; simpl in Hsr, Ht |- *; unfold there.
  - apply runs_ret. destruct (st =? 404)%Z eqn:E4; [split; [done|split_and!; [done..|]]; exists r; split_and!; auto|].
    unfold read_post. cbn [fst snd]. destruct (is_success st) eqn:Es; simpl.
    + split; [done|split_and!; [done..|]]. exists r. split_and!; auto.
    + split; [done|split_and!; [done..|]]. exists r. split_and!; auto. split_and!; auto.
      intros Hc. apply Hsr; [|auto]. split; [done|]. by apply Z.eqb_neq.
  - split; [done|split_and!; [done..|]]. exists r. split_and!; auto. split_and!; auto.
Qed.

(** ** The steps *)

Abbreviation keeps p := (hoare (safe any) p (λ _, True) (λ _, safe any)).
Lemma safe_any P r w : safe P r w → safe any r w.
Proof. intros [_ Hr]. by split. Qed.
Lemma any_ret {A} P (a : A) : hoare (safe P) (Ret a) (λ _, True) (λ _, safe any).
Proof. apply hoare_ret; [done|]. intros r w. apply safe_any. Qed.
Lemma any_event {A} P m sev msg (a : A) : hoare (safe P) (vm_event (J:=J) m sev msg ;! Ret a) (λ _, True) (λ _, safe any).
Proof using Henv.
  apply hoare_wait; [apply safe_stable|apply vm_event_report|apply asks_event|]. intros ?. apply any_ret.
Qed.
Lemma any_told {A} P sev msg o (a : A) : hoare (safe P) (told (J:=J) sev msg o ;! Ret a) (λ _, True) (λ _, safe any).
Proof using Henv. apply (hoare_pre _ (safe any)); [apply safe_any|]. by apply told_hoare; [apply safe_stable|]. Qed.
Lemma any_get : hoare (safe any) (vm_get (J:=J) id) (λ _, True) (λ _, safe any).
Proof. eapply hoare_conseq; [apply (get_hoare (safe any))|done|done|]. by intros a r w _ [Hr _]. Qed.
Lemma any_note P f : (∀ r t, P r → vm_edge r (stamped t (f r))) → hoare (safe P) (vm_note (J:=J) id f) (λ _, True) (λ _, safe any).
Proof using Henv. intros Hf. apply note_hoare. by split; [apply Hf|]. Qed.
Lemma any_withdraw m : of_disk d m → keeps (vm_withdraw cfg engine_token admin_credential m).
Proof using Henv Hloc.
  intros Hm. apply withdraw_hoare; [done|apply safe_stable|]. intros r t w. by apply safe_withdrawn.
Qed.
(** A step starts by reading the record. *)
Lemma step_hoare {B} (k : VmMigration → handler J (result B VmError)) :
  (∀ m, of_disk d m → hoare (safe (eq m)) (k m) (λ _, True) (λ _, safe any)) →
  keeps (bind_ok (vm_get id) k).
Proof.
  intros Hk. eapply hoare_bind_ok; [apply get_hoare| |done|by intros e r w [_ [=]]].
  intros m (m' & w' & [= <-] & Hm & _). eapply hoare_pre; [|by apply Hk].
  by intros r w [[_ Hr] [= ->]].
Qed.

Lemma start_attach_hoare t m l :
  hoare (safe starting) (start_attach cfg id t m l) (λ _, True) (λ _, safe starting).
Proof using Henv.
  unfold start_attach. destruct (vm_target_attach m) as [a|]; [by apply hoare_ret|].
  apply hoare_wait; [apply safe_stable|apply quiet|apply attach_for_host_asks|].
  intros r. destruct (in_context _ r) as [[x y]|e]; [|by apply hoare_ret].
  eapply hoare_bind; [apply note_hoare|intros ? _; by apply hoare_ret].
  intros r' now [Hs Ha]. split; [by apply edge_unmoved|done].
Qed.
Lemma advance_hoare :
  hoare (safe any) (advance cfg engine_token admin_credential id) (λ _, True)
    (λ r, match r with Ok _ => safe any | Err _ => safe starting end).
Proof using Henv Hloc.
  unfold advance. eapply hoare_bind_ok; [apply get_hoare| |done|by intros e r w [_ [=]]].
  intros m (m' & w' & [= <-] & (Hi & HS & HV & HT & HTv & HTl) & _).
  destruct (negb (vm_state m == Starting) || aborting m) eqn:Hg; [apply hoare_ret; [done|]; by intros r w [Hr _]|].
  apply orb_false_iff in Hg as [Hst%neqb_nprop Hab].
  apply (hoare_pre _ (safe starting)). { intros r w [(_ & Hr) [= <-]]. by split. }
  rewrite HT, HS. eapply hoare_bind_ok; [apply T_engine| |done|done]. intros t _.
  unfold start_volume, start_local. rewrite HTv, HTl. cbn [is_some].
  eapply hoare_bind_ok; [by apply (hoare_ret (safe starting) _ (λ _, True) (λ _, safe starting))| |done|done]. intros ? _.
  eapply hoare_bind_ok; [by apply (hoare_ret (safe starting) _ (λ _, True) (λ _, safe starting))| |done|done]. intros l _.
  eapply hoare_bind_ok; [apply start_attach_hoare| |done|done]. intros leg _.
  eapply hoare_bind_ok; [apply S_engine| |done|done]. intros s _.
  apply hoare_wait_ok; [apply safe_stable|apply begin_mirror_report|apply begin_mirror_asks| |done|done]. intros reading.
  eapply hoare_bind; [apply (set_hoare starting any)|].
  { intros r now Hr. split; [by apply mirroring_edge|done]. }
  intros rec _. eapply hoare_conseq; [apply (told_hoare (safe any) _ _ _ (Ok tt) (λ r, r = Ok tt)); [apply safe_stable|done]|done|done|].
  by intros ? ? ? ->.
Qed.
Lemma fail_hoare e : hoare (safe starting) (vm_fail (J:=J) id e) (λ _, True) (λ _, safe any).
Proof using Henv.
  unfold vm_fail. eapply hoare_bind; [apply (edge_hoare starting any)|].
  { intros r t [Hs Ha]. split; [|done]. apply edge_intro; simpl; [done|by intros _|by intros _|by rewrite Hs|by rewrite Ha]. }
  intros o _. destruct o as [[r|]|]; [|apply any_ret..]. apply hoare_calm; [apply safe_stable|apply vm_event_report|apply asks_event].
Qed.
Lemma advance_or_fail_hoare {A} (k : handler J (result A VmError)) :
  keeps k →
  keeps (let! r := advance cfg engine_token admin_credential id in
         match r with Err e => vm_fail id e ;! Ret (Err e) | Ok _ => k end).
Proof using Henv Hloc.
  intros Hk. eapply hoare_bind; [apply advance_hoare|]. intros [[]|e] _; [done|].
  eapply hoare_bind; [apply fail_hoare|]. intros ? _. apply any_ret.
Qed.

Lemma refresh_hoare : keeps (vm_refresh engine_token admin_credential id).
Proof using Henv.
  unfold vm_refresh. apply step_hoare. intros m Hm.
  apply hoare_wait_ok; [apply safe_stable|apply read_mirror_report|apply read_mirror_asks| |done|by intros e r w Hr; eapply safe_any].
  intros reading. cbv zeta. destruct (same_reading m _) eqn:Hsame; [apply any_ret|].
  assert (moving m = true) as Hmv.
  { destruct (moving m) eqn:Hmv; [done|]. unfold vm_apply_reading, same_reading in Hsame. rewrite Hmv in Hsame. simpl in Hsame.
    by rewrite !eqb_refl, !Z.eqb_refl in Hsame. }
  destruct (apply_reading_next m reading Hmv) as [Hn Ha].
  eapply hoare_bind; [apply (set_hoare (eq m) any)|].
  { intros r t <-. split; [|done]. apply edge_intro; simpl; [done|by intros _|by intros _|done|by rewrite Ha]. }
  intros rec _. destruct (state_changed _ _), rec; first [apply any_event|apply any_ret].
Qed.

Lemma switch_done_hoare : hoare (safe switching) (switch_done cfg engine_token admin_credential id) (λ _, True) (λ _, safe any).
Proof using Henv Hloc.
  unfold switch_done. eapply hoare_bind; [apply (set_hoare switching any)|].
  { intros r t [Ha Hs]. split; [|done].
    apply edge_intro; simpl; [done|by intros _|by intros _|by destruct Hs as [-> | ->]|by rewrite Ha]. }
  intros o (r & Hd & Hr & ->). apply hoare_wait; [apply safe_stable|apply vm_event_report|apply asks_event|]. intros ?.
  eapply hoare_bind; [by apply (any_withdraw (cut_over r))|]. intros wr _.
  eapply (hoare_bind _ _ _ (λ _, True) (λ _, safe any)); [|intros ? _; apply any_get].
  destruct wr; [apply any_ret|]. apply any_note. intros r' t _. apply message_edge.
Qed.
Lemma cutover_hoare : keeps (cutover cfg engine_token admin_credential id).
Proof using Henv Hloc.
  unfold cutover. apply step_hoare. intros m Hm. destruct (aborting m) eqn:Ha; [apply any_ret|].
  assert (vm_state m = Copying ∨ vm_state m = Synced →
    hoare (safe (eq m)) (switch cfg engine_token admin_credential id m) (λ _, True) (λ _, safe any)) as Hsw.
  { intros Hs. apply (hoare_pre _ (safe switching)). { intros r w [<- Hr]. by split. }
    destruct Hm as (_ & HS & HV & _). unfold switch. rewrite HS, HV.
    eapply hoare_bind_ok; [apply S_engine| |done|by intros e r w; apply safe_any]. intros e He. specialize (He e eq_refl).
    apply hoare_wait; [apply safe_stable|apply live_report|apply live_asks|]. intros now. destruct (negb _); [apply any_ret|].
    apply hoare_wait; [apply safe_stable|apply quiet|by apply stop_mirror_asks|].
    intros r. destruct (in_context _ r) as [st|x]; [|apply any_ret].
    destruct (exact st); [apply switch_done_hoare|].
    unfold switch_failed. cbv zeta. eapply hoare_bind; [apply (set_hoare switching any)|intros; apply any_told].
    intros r' t [Ha' Hs']. split; [|done].
    apply edge_intro; simpl; [done|by intros _|by intros _|by destruct Hs' as [-> | ->]|by rewrite Ha']. }
  destruct (vm_state m); try apply any_ret; auto;
    (apply (hoare_pre _ (safe any)); [intros r w; apply safe_any|];
     eapply hoare_bind; [by apply any_withdraw|intros ? _; apply any_get]).
Qed.

(** Completing: S's volume goes first, with T's wanted. *)
Definition retired (r : VmMigration) (w : W) : Prop := (vm_state r = CutOver ∧ aborting r = false) ∧ tgt w.
Lemma retired_stable : stable retired.
Proof using Henv. intros r R c w (_ & Ht1 & Ht2) [HP Ht]. split; [done|]. by apply Henv. Qed.
Lemma complete_hoare : keeps (complete cfg engine_token admin_credential id).
Proof using Henv Hloc.
  unfold complete. apply step_hoare. intros m Hm. destruct (vm_state m) eqn:Hs; try apply any_ret.
  destruct (aborting m) eqn:Ha; [apply any_ret|]. unfold retire. pose proof Hm as (Hi & HS & HV & _). rewrite HS, HV.
  apply (hoare_pre _ (safe (λ r, vm_state r = CutOver ∧ aborting r = false))). { intros r w [<- Hr]. by split. }
  eapply hoare_bind_ok; [apply S_engine| |done|by intros ? r w; apply safe_any]. intros e He. specialize (He e eq_refl).
  eapply hoare_bind; [by apply delete_hoare|]. intros [[]|x] _; cbv zeta.
  - apply (hoare_pre _ retired).
    { intros r w [Hr Ht]. split; [done|]. apply Ht. right. destruct Hr as [-> ->]. done. }
    eapply hoare_bind; [apply (withdraw_hoare retired); [done|apply retired_stable|by intros r t w Hr]|]. intros wr _.
    eapply hoare_bind; [apply (update_hoare retired (safe any)); [apply retired_stable|apply safe_stable|]|].
    { intros r t w _ [[Hs' Ha'] Ht]. split; [|by split_and!].
      apply edge_intro; simpl; [done|by intros _|by intros _|by rewrite Hs'|by rewrite Ha']. }
    intros o (r & w & _ & _ & ->). apply any_event.
  - eapply hoare_bind; [apply any_note; intros; apply message_edge|]. intros ? _. apply any_ret.
Qed.

(** Aborting: T's volume is no longer wanted, S's is there. *)
Definition undoing (r : VmMigration) (w : W) : Prop := (undoable r ∧ aborting r = true) ∧ src w.
Definition spares_S {R} (c : Call J R) : Prop := ¬ deletes (S_delete d) c.
Lemma undoing_kept r R (c : Call J R) w : spares_S c → undoing r w → undoing r (env R c w).2.
Proof using Henv. intros Hc [HP Hs]. split; [done|]. by apply Henv. Qed.
Lemma undoing_stable : stable undoing.
Proof using Henv. intros r R c w [Hc _]. by apply undoing_kept. Qed.
Lemma spares_T a b q x : spares_S (Http (J:=J) DELETE (dk_T_url d +:+ a) b q x).
Proof using Hloc. intros [_ E]. symmetry in E. by apply S_not_T in E. Qed.
Lemma spares_other m u b q x : m ≠ DELETE → spares_S (Http (J:=J) m u b q x).
Proof. intros Hm. by intros [? _]. Qed.
Lemma undo_asks t m : url t = dk_T_url d → asks (@spares_S) (undo_calls cfg t m).
Proof using Hloc.
  intros Hu. unfold undo_calls, withdraw_host_call, delete_volume, delete_any_volume. asks_http; rewrite Hu; apply spares_T.
Qed.
Lemma abort_steps_hoare m :
  of_disk d m → hoare undoing (abort_steps cfg engine_token admin_credential m) (λ _, True) (λ _, undoing).
Proof using Henv Hloc.
  intros (Hi & HS & HV & HT & HTv & HTl). unfold abort_steps.
  eapply (hoare_bind_ok _ _ _ (λ _, True) (λ _, undoing)); [|intros ? _|done|done].
  - unfold stop_ours. rewrite HS, HV. eapply hoare_bind; [by apply (hoare_reads _ _ (λ _, True))|]. intros up _.
    destruct (_ || _); [by apply hoare_ret|].
    eapply hoare_bind_ok; [apply S_engine| |done|done]. intros e He. specialize (He e eq_refl).
    apply hoare_wait; [apply undoing_stable|unfold mirror_there; guar_auto|unfold mirror_there, get_any_volume; asks_http; auto|].
    intros reading. destruct reading as [r|]; [|by apply hoare_ret]. destruct (our_target m) as [ours|]; [|by apply hoare_ret].
    destruct (mr_target r == ours); [|by apply hoare_ret].
    apply hoare_wait; [apply undoing_stable|apply quiet|by apply stop_mirror_asks|]. intros ?. by apply hoare_ret.
  - unfold undo_target. rewrite HTv, HTl, HT. cbn [is_none is_some negb andb].
    eapply hoare_bind_ok; [apply T_engine| |done|done]. intros t Ht. specialize (Ht t eq_refl).
    eapply hoare_bind; [apply (hoare_asks (@spares_S)); [intros; by apply undoing_kept| |by apply undo_asks]|].
    { unfold undo_calls. guar_auto. }
    intros ? _. by apply hoare_ret.
Qed.
Lemma abort_claimed_hoare m :
  of_disk d m → undoable m → hoare (safe (eq m)) (abort_claimed cfg engine_token admin_credential id m) (λ _, True) (λ _, safe any).
Proof using Henv Hloc.
  intros Hm Hu. assert (vm_state m ≠ Completed) as Hc by (intros E; unfold undoable in Hu; by rewrite E in Hu).
  unfold abort_claimed. eapply (hoare_bind _ _ _ (λ _, True) (λ _, undoing)).
  { destruct (aborting m) eqn:Ha.
    - apply hoare_ret; [done|]. intros r w (<- & Hs & _). split; [done|auto].
    - eapply (hoare_bind _ _ _ (λ _, True) (λ _, undoing)).
      + apply (note_any (safe (eq m))); [apply safe_stable|apply undoing_stable|].
        intros r t w _ (<- & Hs & _). split; [apply aborting_edge|]. split; [done|auto].
      + intros ? _. apply hoare_calm; [apply undoing_stable|apply vm_event_report|apply asks_event]. }
  intros ? _. eapply hoare_bind; [by apply abort_steps_hoare|]. intros [[]|e] _.
  - eapply hoare_bind; [apply (update_hoare undoing (safe any)); [apply undoing_stable|apply safe_stable|]|].
    { intros r t w _ [[Hr _] Hs]. split; [by apply aborted_edge|]. split_and!; [done|by intros _|]. by intros [|[? _]]. }
    intros o (r & w & _ & _ & ->). apply any_event.
  - eapply hoare_bind; [apply (note_any undoing (safe any)); [apply undoing_stable|apply safe_stable|]|intros ? _; apply any_ret].
    intros r t w _ [[Hr Ha] Hs]. split; [apply message_edge|]. split_and!; [done|by intros _|]. unfold undoable in Hr.
    intros [E|[_ E]]; simpl in E; [by rewrite E in Hr|congruence].
Qed.
Lemma abort_hoare : keeps (abort cfg engine_token admin_credential id).
Proof using Henv Hloc.
  unfold abort. apply step_hoare. intros m Hm.
  destruct (vm_state m) eqn:Hs; try apply any_ret; (apply abort_claimed_hoare; [done|]; unfold undoable; by rewrite Hs).
Qed.
Lemma retry_hoare : keeps (vm_retry cfg engine_token admin_credential id).
Proof using Henv Hloc.
  unfold vm_retry. apply step_hoare. intros m Hm. destruct (aborting m) eqn:Ha; [apply any_ret|].
  destruct (negb (vm_state m == VmFailed)) eqn:Hs; [apply any_ret|]. apply neqb_nprop in Hs.
  eapply hoare_bind_ok; [apply (forget_mirror_hoare (safe (eq m))); [apply safe_stable|done]| |done|by intros ? r w; apply safe_any].
  intros ? _. eapply hoare_bind; [apply (any_note (eq m))|intros ? _; apply advance_or_fail_hoare, any_get].
  intros r t <-. apply edge_intro; simpl; [done|by intros _|by intros _|by rewrite Hs|by rewrite Ha].
Qed.
Lemma pass_step_hoare m s_ok t_ok : of_disk d m → keeps (vm_step cfg engine_token admin_credential m s_ok t_ok).
Proof using Henv Hloc.
  intros Hm. pose proof Hm as [Hi _]. unfold vm_step. rewrite Hi. destruct (aborting m).
  { eapply hoare_bind_ok; [apply abort_hoare| |done|done]. intros ? _. apply any_ret. }
  destruct (vm_state m); try apply any_ret; try (destruct s_ok; [apply refresh_hoare|apply any_ret]);
    try (destruct (_ && t_ok); [by apply any_withdraw|apply any_ret]).
  apply advance_or_fail_hoare, any_ret.
Qed.

(** ** Requests and passes, one after the other *)

Lemma there_fed P s s' w : fed s' = fed s → there P s w → there P s' w.
Proof. unfold there. by intros ->. Qed.
Lemma claim_hoare P c : hoare P (claim (J:=J) c) (λ _, True) (λ _, P).
Proof. intros s w Hs. apply runs_atomic. split; [done|]. exact (there_fed P s _ w eq_refl Hs). Qed.
Lemma release_hoare P c : hoare P (release (J:=J) c) (λ _, True) (λ _, P).
Proof. intros s w Hs. apply runs_writes. split; [done|]. exact (there_fed P s _ w eq_refl Hs). Qed.
Lemma claimed_hoare f : keeps f → keeps (vm_claimed id f ;! Ret tt).
Proof.
  intros Hf. unfold vm_claimed. eapply (hoare_bind _ _ _ (λ _, True) (λ _, safe any)); [|intros ? _; apply any_ret].
  eapply hoare_bind; [by apply (hoare_reads _ _ (λ _, True))|]. intros known _. destruct (negb known); [apply any_ret|].
  eapply hoare_bind; [apply claim_hoare|]. intros ok _. destruct (negb ok); [apply any_ret|].
  eapply hoare_bind; [apply Hf|]. intros r _. eapply hoare_bind; [apply release_hoare|]. intros ? _. apply any_ret.
Qed.

(** Between two requests. *)
Definition resting (s : App) (w : W) : Prop :=
  nodes (fed s) = ns ∧ (∀ j, j ≠ id → records s !! j = None)
  ∧ match records s !! id with Some r => of_disk d r ∧ safe any r w | None => src w ∨ tgt w end.
Lemma resting_there s w r : resting s w → records s !! id = Some r → there (safe (eq r)) s w.
Proof.
  intros (Hn & Ho & Hr) E. rewrite E in Hr. destruct Hr as (Hd & _ & Hs). split_and!; [done..|]. by exists r.
Qed.
Lemma there_resting P s w : there (safe P) s w → resting s w.
Proof.
  intros (Hn & Ho & r & E & Hd & _ & Hs). split_and!; [done..|]. rewrite E. by split.
Qed.
Lemma keeps_resting {A} P (p : handler J A) s w :
  hoare (safe P) p (λ _, True) (λ _, safe any) → there (safe P) s w → runs env p (λ _, resting) s w.
Proof. intros Hp Hs. eapply runs_mono; [by apply Hp|]. intros a s1 w1 [_ Hs1]. by eapply there_resting. Qed.

Lemma drop_resting m s w :
  of_disk d m → terminal (vm_state m) = true → there (safe (eq m)) s w → runs env (drop_record (J:=J) (vm_id m)) (λ _, resting) s w.
Proof using Henv.
  intros [Hi _] Ht (Hn & Ho & r & E & Hd & <- & Hs & Hw). unfold drop_record. rewrite Hi. apply runs_bind, runs_writes.
  assert (src w ∨ tgt w) as Hdisk.
  { destruct (vm_state m) eqn:Em; try done; [right; apply Hw; by left|left; by apply Hs]. }
  set (s1 := s <| fed ::= _ |>). eapply runs_mono; [apply (runs_keeps (@calm) (λ w, src w ∨ tgt w))|].
  - intros R c w0 (Hc1 & Hc2 & Hc3) [Hx|Hx]; [left|right]; by apply Henv.
  - apply quiet.
  - apply asks_publish.
  - exact Hdisk.
  - intros a s2 w2 [Hf Hd2]. unfold resting. rewrite Hf. split_and!; [exact Hn| |].
    + intros j Hj. unfold s1. simpl. rewrite lookup_delete_ne by done. by apply Ho.
    + unfold s1. simpl. by rewrite lookup_delete_eq.
Qed.
Lemma one_resting now m s w :
  of_disk d m → there (safe (eq m)) s w → runs env (vm_one cfg engine_token admin_credential now m) (λ _, resting) s w.
Proof using Henv Hloc.
  intros Hm Hs. unfold vm_one. destruct (vm_expired now m) eqn:Hx.
  { apply andb_true_iff in Hx as [[Ht _]%andb_true_iff _]. by apply drop_resting. }
  apply (keeps_resting (eq m)); [|done].
  eapply hoare_bind; [apply claim_hoare|]. intros ok _. destruct (negb ok); [apply any_ret|].
  eapply hoare_bind; [by apply (hoare_reads _ _ (λ _, True))|]. intros s_ok _.
  eapply hoare_bind; [by apply (hoare_reads _ _ (λ _, True))|]. intros t_ok _.
  apply (hoare_pre _ (safe any)); [intros r w'; apply safe_any|].
  eapply hoare_bind; [by apply pass_step_hoare|]. intros ? _.
  eapply hoare_conseq; [apply (release_hoare (safe any))|done..].
Qed.
Lemma only_value {V} (m : gmap string V) k :
  (∀ j, j ≠ k → m !! j = None) → bt_values m = match m !! k with Some v => [v] | None => [] end.
Proof.
  intros Ho. destruct (m !! k) as [v|] eqn:E.
  - assert (m = {[k := v]}) as ->.
    { apply map_eq. intros j. destruct (decide (j = k)) as [->|Hj]; [by rewrite E, lookup_singleton_eq|].
      by rewrite Ho, lookup_singleton_ne by done. }
    unfold bt_values, bt_list. by rewrite map_to_list_singleton.
  - assert (m = ∅) as ->; [|reflexivity].
    apply map_eq. intros j. rewrite lookup_empty. destruct (decide (j = k)) as [->|Hj]; [done|by apply Ho].
Qed.
Lemma pass_resting s w : resting s w → runs env (vm_run cfg engine_token admin_credential) (λ _, resting) s w.
Proof using Henv Hloc.
  intros Hs. unfold vm_run. apply runs_bind, runs_reads. destruct (negb _); [by apply runs_ret|].
  apply runs_bind, runs_reads. pose proof Hs as (Hn & Ho & Hr). rewrite (only_value _ id Ho).
  destruct (records s !! id) as [m|] eqn:E.
  - apply runs_bind. eapply runs_mono.
    { apply (hoare_calm (safe (eq m)) (invoke Now)); [apply safe_stable|apply quiet|split; [by split_and!; intros []|done]|].
      by apply resting_there. }
    intros now s1 w1 [_ Hs1]. unfold for_each. cbn [for_fold]. apply runs_bind.
    eapply runs_mono; [apply one_resting; [apply Hr|exact Hs1]|]. intros [] s2 w2 Hs2. by apply runs_ret.
  - apply runs_bind, runs_invoke. apply runs_ret. split_and!; [done..|]. rewrite E.
    destruct Hr as [Hr|Hr]; [left|right]; apply Henv; by try intros [].
Qed.

(** What a client or the clock can ask for. *)
Inductive vm_request := AskCutover | AskComplete | AskAbort | AskRetry | Pass.
Definition vm_do (q : vm_request) : handler J unit :=
  match q with
  | AskCutover => api_cutover cfg engine_token admin_credential id ;! Ret tt
  | AskComplete => api_complete cfg engine_token admin_credential id ;! Ret tt
  | AskAbort => api_abort cfg engine_token admin_credential id ;! Ret tt
  | AskRetry => api_retry cfg engine_token admin_credential id ;! Ret tt
  | Pass => vm_run cfg engine_token admin_credential
  end.
Lemma claimed_resting f s w : keeps f → resting s w → runs env (vm_claimed id f ;! Ret tt) (λ _, resting) s w.
Proof.
  intros Hf Hs. destruct (records s !! id) as [m|] eqn:E.
  - apply (keeps_resting any); [by apply claimed_hoare|]. eapply there_mono; [|by apply resting_there].
    intros r w' _. apply safe_any.
  - unfold vm_claimed. apply runs_bind, runs_bind, runs_reads. rewrite E. simpl. by apply runs_ret, runs_ret.
Qed.
Lemma do_resting q s w : resting s w → runs env (vm_do q) (λ _, resting) s w.
Proof using Henv Hloc.
  intros Hs. destruct q; [apply claimed_resting..|by apply pass_resting]; try done.
  - apply cutover_hoare.
  - apply complete_hoare.
  - apply abort_hoare.
  - apply retry_hoare.
Qed.
Lemma session_resting qs s w : resting s w → runs env (for_each vm_do qs) (λ _, resting) s w.
Proof using Henv Hloc.
  unfold for_each. revert s w. induction qs as [|q qs IH]; intros s w Hs; [by apply runs_ret|]. cbn [for_fold].
  apply runs_bind. eapply runs_mono; [by apply do_resting|]. intros [] s1 w1. apply IH.
Qed.
End disk.

(** ** The disk *)

(** C4: From a migration that is not over, with both volumes there, through
    any requests (switch-over, completion, abort, retry) and passes of the
    reconciler one after the other, engines that say the truth about a
    delete of S's volume answering whatever else they like: the disk is not
    lost. Until the migration is completed S's volume is there, once it is T's
    is; and one of them is when the record is gone. *)
Theorem disk_kept {J} `{Json J} `{HttpShow}
  `{Deserialize J EngineVolume} `{Deserialize J Slab} `{Deserialize J Discovery} cfg engine_token admin_credential
  {W} (env : ∀ R, Call J R → W → R * W) d ns (src tgt : W → Prop) qs s w m :
  truthful env d src tgt → located d ns →
  nodes (fed s) = ns → (∀ j, j ≠ dk_id d → records s !! j = None) →
  records s !! dk_id d = Some m → of_disk d m → terminal (vm_state m) = false → src w → tgt w →
  runs env (for_each (vm_do cfg engine_token admin_credential d) qs)
    (λ _ s' w', match records s' !! dk_id d with
       | Some r => (vm_state r ≠ Completed → src w') ∧ (vm_state r = Completed → tgt w')
       | None => src w' ∨ tgt w'
       end) s w.
Proof.
  intros Henv Hloc Hn Ho Hm Hd _ Hs Ht. eapply runs_mono.
  { apply (session_resting cfg engine_token admin_credential env d ns src tgt Henv Hloc).
    split_and!; [done..|]. rewrite Hm. by split_and!. }
  intros [] s' w' (_ & _ & Hr). destruct (records s' !! dk_id d) as [r|]; [|done].
  destruct Hr as (_ & _ & Hsrc & Htgt). split; [done|]. intros E. apply Htgt. by left.
Qed.

Section example.
#[local] Existing Instances no_text no_volume no_slab no_discovery.
Local Open Scope string_scope.
Definition example_disk : Disk :=
  MkDisk "vm-1" "n1" "http://n1:9000" "v1" "n2" "http://n2:9000" "t1" "l1".
Definition cut_over_vm : VmMigration :=
  (new_migration "vm-1" "n1" "v1" "disk" "n2" "disk" 1024 None 1)
    <| vm_state := CutOver |> <| vm_target_volume_id := Some "t1" |> <| target_local_id := Some "l1" |>.
Definition two_nodes : gmap string Node := {["n1" := lone_node "n1" true; "n2" := lone_node "n2" true]}.
Definition disk_app : App :=
  App_new (FedState_default <| nodes := two_nodes |> <| vm_migrations := {["vm-1" := cut_over_vm]} |>) None.
(** The volumes deleted so far, by their URLs. An engine deletes what it is
    told to; [lost] are the deletes whose answer does not arrive. *)
Definition delete_env (lost : list string) (R : Type) (c : Call Tree R) (w : list string) : R * list string :=
  match c in Call _ R return R * list string with
  | Http DELETE u _ _ _ => ((if bool_decide (u ∈ lost) then Err "timed out" else Ok (200%Z, None)), u :: w)
  | Http _ _ _ _ _ => (Ok (404%Z, None), w)
  | HttpText _ _ => (Err "no route", w)
  | Now => (7%Z, w)
  | PushToPeers | Persist | Sleep _ => (tt, w)
  end.
Definition S_there (w : list string) : Prop := S_delete example_disk ∉ w.
Definition T_there (w : list string) : Prop := (T_delete example_disk ∉ w) ∧ (T_local_delete example_disk ∉ w).
Definition session := vm_do example_cfg (λ _, None) (λ _, None) example_disk.
Lemma delete_env_truthful : truthful (delete_env []) example_disk S_there T_there.
Proof.
  split.
  - intros R c w Hc. destruct c as [[]| | | | |]; try done. simpl. unfold S_there. rewrite not_elem_of_cons.
    intros Hw. split; [|done]. intros E. by apply Hc.
  - intros b q x w. simpl. by intros [? _].
  - intros R c w Hc Hc'. destruct c as [[]| | | | |]; try done. simpl. unfold T_there. rewrite !not_elem_of_cons.
    intros [Hw Hw']. split; (split; [|done]); intros E; [by apply Hc|by apply Hc'].
Qed.
Lemma example_located : located example_disk two_nodes.
Proof.
  split.
  - intros n E. vm_compute in E. by injection E as <-.
  - intros n E. vm_compute in E. by injection E as <-.
  - intros a b. simpl. discriminate.
Qed.
(** Completed, then asked to abort: T keeps the disk. *)
Lemma disk_kept_witness :
  let run_ := for_each session [Pass; AskComplete; AskAbort] in
  fmap (M:=option) vm_state (records (run_state (delete_env []) run_ disk_app []) !! "vm-1") = Some Completed
  ∧ runs (delete_env []) run_
    (λ _ s' w', match records s' !! "vm-1" with
       | Some r => (vm_state r ≠ Completed → S_there w') ∧ (vm_state r = Completed → T_there w')
       | None => S_there w' ∨ T_there w'
       end) disk_app [].
Proof.
  split; [vm_compute; reflexivity|].
  apply (disk_kept example_cfg (λ _, None) (λ _, None) (delete_env []) example_disk two_nodes S_there T_there
    [Pass; AskComplete; AskAbort] disk_app [] cut_over_vm).
  - exact delete_env_truthful.
  - exact example_located.
  - reflexivity.
  - intros j Hj. change (records disk_app) with ({["vm-1" := cut_over_vm]} : gmap string VmMigration).
    by apply lookup_singleton_ne, not_eq_sym.
  - reflexivity.
  - by split_and!.
  - reflexivity.
  - by apply not_elem_of_nil.
  - split; by apply not_elem_of_nil.
Defined.

(** Not so when the answer to the delete of S's volume is lost: the volume is
    gone, the record stays cut over, an abort is let through and deletes T's
    volume too. *)
Example lost_answer_loses_disk :
  let run_ := for_each session [AskComplete; AskAbort] in
  let env := delete_env [S_delete example_disk] in
  fmap (M:=option) vm_state (records (run_state env run_ disk_app []) !! "vm-1") = Some Aborted
  ∧ run_world env run_ disk_app [] = [T_local_delete example_disk; T_delete example_disk; S_delete example_disk].
Proof. by vm_compute. Qed.
End example.
