(* ===== verification/Reconcile.v ===== *)
(** * The reconciler's pass (src/orchestrate.rs)

    What every poll ends with on the instance that leads: legs of
    unreachable nodes are given up and replaced, interrupted work is resumed,
    heads that came back, lost their array or are gone are dealt with, then
    tier moves, rebalancing, backups, live migrations and what engines still
    owe. The parts are those of the other files; here is their order and what
    is passed between them. *)

From stdpp Require Import relations.
From S2P Require Import Prelude F64 Config Model Placement Events Refusal Async Json Inventory Kube Sync.
From S2P Require Import Recovery App Engine Publish Replace Head Fencing Migrate Rebalance Backups VmMigrate.
From stdpp Require Import options.

Local Open Scope string_scope.

Section reconcile.
Context {J : Type} `{Json J} `{HttpShow} `{FloatShow}.
Context `{Deserialize J EngineVolume} `{Deserialize J Slab} `{Deserialize J Discovery}.
Context (cfg : Config) (engine_token : NodeConfig → option string) (admin_credential : string → option string).
(** The rounds a wait for a rebuild may take (see [wait_rounds]). *)
Context (fuel : nat).
Abbreviation event := (Publish.event (J:=J)).
Abbreviation rc := (recovery cfg).

Definition cooldown_until (now : time) : time := (now + secs (cooldown_secs rc))%Z.
(** [get_mut] and an assignment, then [persist]; the revision is kept. *)
Definition hold_off (nm : string) (f : DistVolume → DistVolume) : handler J unit :=
  writes (λ s, s <| fed ::= λ fd, update_volume fd nm f |>) ;! invoke Persist.
Definition hold_assembly (nm : string) (now : time) : handler J unit :=
  hold_off nm (λ v, v <| next_assemble_after := Some (cooldown_until now) |>).

(** ** Heads that are gone *)

Definition note_key (nm : string) : string := "rehead-held:" +:+ nm.
Definition rehead_hold (x : string * string) : handler J unit :=
  let! first := atomic (note_once (note_key x.1)) in
  if first then event x.1 Warning x.2 else Ret tt.
Definition promote_by_hand (nm target : string) (fenced : Z) (e : Sync.Refusal) : string :=
  nm +:+ ": automatic re-head fenced at epoch " +:+ pretty fenced +:+ " but the promote of " +:+ target +:+ " failed: "
  +:+ Refusal_show e +:+ " — promote by hand: POST /api/v1/volumes/" +:+ nm +:+ "/promote {" +:+ debug_str "target_node" +:+ ": "
  +:+ debug_str target +:+ ", " +:+ debug_str "fenced_epoch" +:+ ": " +:+ pretty fenced +:+ "}".
Definition rehead_one (now : time) (x : string * string * Z) : handler J unit :=
  let '(nm, target, epoch_) := x in
  writes (λ s, s <| noted ::= λ n, n ∖ {[note_key nm]} |>) ;!
  event nm Warning (nm +:+ ": head lost for " +:+ pretty (rehead_after_secs rc)
    +:+ "s+ — re-heading automatically ([recovery] rehead): fence at epoch " +:+ pretty epoch_ +:+ ", promote " +:+ target) ;!
  let! f := fence engine_token admin_credential nm epoch_ in
  match f with
  | Err e => event nm Info (nm +:+ ": automatic re-head stood down: fence refused: " +:+ Refusal_show e)
  | Ok f =>
      let! p := promote cfg engine_token admin_credential nm target (f_epoch f) in
      match p with
      | Ok _ => Ret tt
      | Err e => hold_assembly nm now ;! event nm Error (promote_by_hand nm target (f_epoch f) e)
      end
  end.
Definition rehead_lost (now : time) : handler J unit :=
  let! active := reads (recovery_active cfg) in
  if negb (rehead rc) || negb active then Ret tt
  else
    let! plan := reads (λ s, rehead_plan (fed s) (heads s) (secs (Z.max (interval_secs (poll cfg)) 1))
                              (secs (rehead_after_secs rc)) (busy s) now) in
    for_each rehead_hold (rh_held plan) ;!
    for_each (rehead_one now) (rh_start plan).

(** ** Heads that forgot their array *)

Definition read_on_head (s : App) (nm : string) : bool := is_some_and (λ r, ar_source r == SrcHead) (heads s !! nm).
Definition reassemble_one (now : time) (nm : string) : handler J unit :=
  let! claimed := claim nm in
  if negb claimed then Ret tt
  else
    let! r := reassemble cfg engine_token admin_credential nm in
    release nm ;!
    match r with
    | Ok _ => Ret tt
    | Err e =>
        hold_assembly nm now ;!
        event nm Error (nm +:+ ": reassembling its array on the head failed, retry in " +:+ pretty (cooldown_secs rc)
                        +:+ "s: " +:+ Refusal_show e)
    end.
Definition reassemble_heads (now : time) : handler J unit :=
  let! active := reads (recovery_active cfg) in
  if negb active then Ret tt
  else
    let! due := reads (λ s, reassemble_candidates (fed s) (read_on_head s) (busy s) now) in
    for_each (reassemble_one now) due.

(** ** Heads that answer again *)

Definition rejoin_due (s : App) : list (string * string * string * Engine) :=
  omap (λ '(v, h, a), match engine_of engine_token admin_credential (fed s) h with Ok e => Some (v, h, a, e) | Err _ => None end)
    (head_rejoin_candidates (fed s) (busy s)).
(** This poll's reading of the head, else one read here; [None]: the engine
    did not answer. *)
Definition rejoin_reading (nm h aid : string) (e : Engine) : handler J (option (option ArrayReading)) :=
  let! polled := reads (λ s, heads s !! nm) in
  match opt_filter (λ r, (ar_source r == SrcHead) && (ar_head r == h) && (ar_array_id r == aid)) polled with
  | Some r => Ret (Some (Some r))
  | None =>
      let! v := find_array e aid in
      match v with
      | Err _ => Ret None
      | Ok None => Ret (Some None)
      | Ok (Some v) => let! now := invoke Now in Ret (Some (Some (parse_array now h aid v)))
      end
  end.
Definition rejoin_record (nm : string) (reading : option ArrayReading) (s : App) : App * option (HeadReturn * bool) :=
  match volumes (fed s) !! nm with
  | None => (s, None)
  | Some v =>
      let '(v', out) := apply_head_reading v reading in
      (s <| fed ::= λ fd,
         let fd := fd <| volumes ::= <[nm := v']> |> in
         if is_some_and snd out then bump fd else fd |>, out)
  end.
Definition rejoin_news (nm h aid : string) (found : HeadReturn) : Severity * string :=
  let again := nm +:+ ": head " +:+ h +:+ " answers again " in
  match found with
  | Restored true => (Info, again +:+ "and its member of array " +:+ aid +:+ " is active — leg back, volume assembled")
  | Restored false => (Info, again +:+ "and its member of array " +:+ aid +:+ " is active — leg back; another leg is still lost")
  | NotActive st => (Warning, again +:+ "but its member of array " +:+ aid +:+ " is " +:+ st +:+ " — still degraded")
  | ArrayGone => (Warning, again +:+ "but no longer holds array " +:+ aid +:+ " (engine restart, #15) — still degraded")
  end.
Definition rejoin_one (x : string * string * string * Engine) : handler J unit :=
  let '(nm, h, aid, e) := x in
  let! reading := rejoin_reading nm h aid e in
  match reading with
  | None => Ret tt
  | Some reading =>
      let! out := atomic (rejoin_record nm reading) in
      match out with
      | Some (found, true) => publish_change ;! event nm (rejoin_news nm h aid found).1 (rejoin_news nm h aid found).2
      | _ => Ret tt
      end
  end.
Definition rejoin_heads : handler J unit :=
  let! due := reads rejoin_due in
  for_each rejoin_one due.

(** ** The pass *)

Definition plan_now (now : time) (s : App) : App * (Plan * bool) :=
  let '(fd, plan) := plan_recovery (fed s) (recovery_active cfg s) now (busy s) in
  (s <| fed := fd |>, (plan, negb (revision fd =? revision (fed s))%Z)).
Definition tell_lost (x : string * string) : handler J unit :=
  event x.1 Warning (x.1 +:+ ": leg on " +:+ x.2 +:+ " lost — node unreachable; volume degraded").
Definition tell_head_lost (x : string * string) : handler J unit :=
  event x.1 Error (x.1 +:+ ": head " +:+ x.2 +:+ " lost — the array lives there; not re-legged — fence it and promote a surviving leg's node, or turn on [recovery] rehead (#14)").
Definition resume_one (nm : string) : handler J unit :=
  let! claimed := claim nm in
  if claimed : bool then spawn (finish_replacement cfg engine_token admin_credential fuel nm) else Ret tt.
Definition start_one (now : time) (x : string * string) : handler J unit :=
  let '(nm, from) := x in
  let! r := start_replacement cfg engine_token admin_credential fuel nm from None "node lost" in
  match r with
  | Ok _ => Ret tt
  | Err e =>
      hold_off nm (λ v, v <| next_releg_after := Some (cooldown_until now) |>) ;!
      event nm Error (nm +:+ ": re-leg of lost leg on " +:+ from +:+ " failed, retry in " +:+ pretty (cooldown_secs rc)
                      +:+ "s: " +:+ err_text e)
  end.
Definition assemble_task (nm : string) : handler J unit :=
  let! r := assemble_claimed cfg engine_token admin_credential nm in
  release nm ;!
  after_assembly_retry cfg engine_token admin_credential nm r.
Definition assemble_one (nm : string) : handler J unit :=
  let! claimed := claim nm in
  if claimed : bool then spawn (assemble_task nm) else Ret tt.
(** The healthy nodes whose engines have withdrawals to take. *)
Definition owing_nodes (fd : FedState) : gset string :=
  list_to_set (List.filter (node_healthy fd) (flat_map (λ v, map pw_node (withdrawing (export v))) (bt_values (volumes fd)))).
Definition close_windows (now : time) (s : App) : App * list (string * string) :=
  let '(fd, closed) := expire_windows (fed s) now in (s <| fed := fd |>, closed).
Definition tell_closed (x : string * string) : handler J unit :=
  event x.1 Warning (x.1 +:+ ": dual-attach window for " +:+ x.2 +:+ " expired — aborted, head unchanged").

(** The replacements and assemblies the plan asks for. *)
Definition act_on (now : time) (plan : Plan) : handler J unit :=
  for_each tell_lost (p_lost plan) ;!
  for_each tell_head_lost (p_head_lost plan) ;!
  for_each resume_one (p_resume plan) ;!
  for_each (start_one now) (p_start plan) ;!
  for_each assemble_one (p_assemble plan).
(** What comes after the components' passes. *)
Definition settle (now : time) : handler J unit :=
  let! active := reads (recovery_active cfg) in
  (if active : bool then retry_pending_rates cfg engine_token admin_credential else Ret tt) ;!
  let! owing := reads (λ s, bs_list (owing_nodes (fed s))) in
  for_each (withdraw_pending_on engine_token admin_credential) owing ;!
  let! closed := atomic (close_windows now) in
  (match closed with [] => Ret tt | _ => publish_change end) ;!
  for_each tell_closed closed ;!
  reap_stale_heads engine_token admin_credential ;!
  reap_orphans engine_token admin_credential.
(** [Err]: the panic of a backup step, which ends the polling task. *)
Definition reconcile : handler J (result unit unit) :=
  let! now := invoke Now in
  let! (plan, changed) := atomic (plan_now now) in
  (if changed : bool then publish_change else Ret tt) ;!
  act_on now plan ;!
  rejoin_heads ;!
  reassemble_heads now ;!
  rehead_lost now ;!
  migrate_run cfg engine_token admin_credential fuel now ;!
  rebalance_run cfg engine_token admin_credential fuel now ;!
  let!? _ := backup_run cfg engine_token admin_credential now in
  vm_run cfg engine_token admin_credential ;!
  settle now ;!
  Ret (Ok tt).
End reconcile.

Local Close Scope string_scope.

(** ** With recovery off *)

(** Where a volume is: its legs, head, array, epoch and fence, and what is
    in flight. *)
Definition anchor (v : DistVolume) :=
  (name v, size_bytes v, map (λ l, (leg_node l, leg_volume_id l)) (legs v), head v, array_id v, epoch v, fenced v, replacing v).
Definition anchored (s s' : App) : Prop :=
  anchor <$> volumes (fed s') = anchor <$> volumes (fed s) ∧ nodes (fed s') = nodes (fed s) ∧ claims s' = claims s.
#[export] Instance anchored_refl : Reflexive anchored.
Proof. by intros s. Qed.
#[export] Instance anchored_trans : Transitive anchored.
Proof. intros s1 s2 s3 (?&?&?) (?&?&?). repeat split; congruence. Qed.

Lemma anchor_core v : anchor (core v) = anchor v.
Proof. unfold anchor, core. simpl. by rewrite map_map. Qed.
Lemma anchor_recovered h v : anchor (recovered h v) = anchor v.
Proof.
  unfold recovered. destruct (mirrored (assembly v)); [|done].
  destruct (mark_volume_same h v) as (Hn & Hh & He & Hf & Hr & _). unfold anchor. rewrite Hn, Hh, He, Hf, Hr, mark_volume_legs, map_map.
  assert (size_bytes (mark_volume h v) = size_bytes v ∧ array_id (mark_volume h v) = array_id v) as [-> ->]
    by (unfold mark_volume; by case_head).
  do 5 f_equal. f_equal. apply map_ext. intros l. unfold mark_lost. by destruct (newly_lost h l).
Qed.
Lemma anchor_reading v r : anchor (apply_head_reading v r).1 = anchor v.
Proof.
  assert (∀ h msg, anchor (note_head v h msg) = anchor v) as Hn.
  { intros h msg. unfold anchor, note_head. simpl. by rewrite update_first_map. }
  assert (∀ h, anchor (restore_head v h) = anchor v) as Hr.
  { intros h. unfold anchor, restore_head. simpl. by rewrite update_first_map. }
  unfold apply_head_reading. repeat case_match; simpl; rewrite ?Hn, ?Hr; try done; apply Hr.
Qed.
Lemma anchor_closed now v : anchor (close_expired now v) = anchor v.
Proof. unfold close_expired. by destruct (expired now v). Qed.

Lemma anchored_fmap (f : DistVolume → DistVolume) s s' :
  (∀ v, anchor (f v) = anchor v) → volumes (fed s') = f <$> volumes (fed s) → nodes (fed s') = nodes (fed s) →
  claims s' = claims s → anchored s s'.
Proof.
  intros Hf Hv Hn Hc. split; [|done]. rewrite Hv, <-map_fmap_compose. apply map_fmap_ext. intros k v _. apply Hf.
Qed.
Lemma anchored_export s s' : export_step s s' → anchored s s'.
Proof.
  intros (Hv & Hn & Hc & _). split; [|done].
  assert (∀ m : gmap string DistVolume, anchor <$> m = anchor <$> (core <$> m)) as Hm.
  { intros m. rewrite <-map_fmap_compose. apply map_fmap_ext. intros k v _. symmetry. apply anchor_core. }
  by rewrite (Hm (volumes (fed s'))), (Hm (volumes (fed s))), Hv.
Qed.
Lemma anchored_report s s' : report_step s s' → anchored s s'.
Proof. intros [Hf Hc]. unfold anchored. by rewrite Hf, Hc. Qed.

(** A plan made with recovery off only reports. *)
Lemma plan_off fd now busy :
  let plan := (plan_recovery fd false now busy).2 in p_start plan = [] ∧ p_resume plan = [] ∧ p_assemble plan = [].
Proof.
  unfold plan_recovery. set (step := recover_volume false now busy (node_healthy fd)).
  pose proof (bt_for_mut_inv step (λ st, p_start st.1 = [] ∧ p_resume st.1 = [] ∧ p_assemble st.1 = [])
    (volumes fd) (Plan_default, false)) as Hi.
  destruct (bt_for_mut step _ _) as [vs [plan changed]]. apply Hi; [done|].
  intros k v [p c] _ (H1 & H2 & H3). unfold step, recover_volume. simpl in *.
  repeat case_match; simpl in *; simplify_eq/=; done.
Qed.

Section passive.
Context {J : Type} `{Json J} `{HttpShow} `{FloatShow}.
Context `{Deserialize J EngineVolume} `{Deserialize J Slab} `{Deserialize J Discovery}.
Context (cfg : Config) (engine_token : NodeConfig → option string) (admin_credential : string → option string).
Context (fuel : nat) (off : enabled (recovery cfg) = Some false).
Abbreviation A := (guar (E:=Call J) anchored).

Lemma inactive s : recovery_active cfg s = false.
Proof using off. unfold recovery_active, active. rewrite off. by destruct (store_leads s). Qed.
Lemma skipped {B} (p k : handler J B) : A k → A (let! act := reads (recovery_active cfg) in if negb act then k else p).
Proof using off. intros Hk. apply guar_bind_reads; [done|]. intros s. by rewrite inactive. Qed.
Lemma event_anchored knd subj sev msg : A (event_of knd subj sev msg).
Proof. apply (guar_weaken report_step); [apply anchored_report|apply event_of_report]. Qed.
#[local] Hint Resolve event_anchored : guar.

Lemma rejoin_record_anchored nm reading s : anchored s (rejoin_record nm reading s).1.
Proof.
  unfold rejoin_record. destruct (volumes (fed s) !! nm) as [v|] eqn:E; [|done].
  pose proof (anchor_reading v reading) as Ha. destruct (apply_head_reading v reading) as [v' out]. simpl in *.
  enough (anchor <$> <[nm := v']> (volumes (fed s)) = anchor <$> volumes (fed s)) as Hm.
  { by destruct (is_some_and snd out). }
  rewrite fmap_insert. apply map_eq. intros k. destruct (decide (k = nm)) as [->|].
  - by rewrite lookup_insert_eq, lookup_fmap, E, Ha.
  - by rewrite lookup_insert_ne.
Qed.
Lemma rejoin_anchored : A (rejoin_heads engine_token admin_credential).
Proof. unfold rejoin_heads, rejoin_one, rejoin_reading, Publish.event. guar_auto; try reflexivity. apply rejoin_record_anchored. Qed.
Lemma reap_stale_anchored : A (reap_stale_heads engine_token admin_credential).
Proof. unfold reap_stale_heads, reap_stale_head, leftover_record, Head.event. guar_auto; by repeat split. Qed.
Lemma reap_orphans_anchored : A (Replace.reap_orphans engine_token admin_credential).
Proof. unfold Replace.reap_orphans, reap_orphan, Publish.event. guar_auto; by repeat split. Qed.
Lemma withdraw_anchored node : A (withdraw_pending_on engine_token admin_credential node).
Proof. apply (guar_weaken export_step); [apply anchored_export|apply withdraw_pending_guar]. Qed.
Lemma close_anchored now s : anchored s (close_windows now s).1.
Proof.
  unfold close_windows. rewrite expire_windows_unfold. cbv zeta. simpl.
  apply (anchored_fmap (close_expired now)); [apply anchor_closed|by case_match..].
Qed.
#[local] Hint Resolve rejoin_anchored reap_stale_anchored reap_orphans_anchored withdraw_anchored close_anchored : guar.
Lemma settle_anchored now : A (settle cfg engine_token admin_credential now).
Proof using off.
  unfold settle. apply guar_bind_reads; [done|]. intros s. rewrite inactive. guar_auto; try reflexivity.
  all: apply close_anchored.
Qed.
Lemma plan_now_anchored now s : anchored s (plan_now cfg now s).1.
Proof.
  unfold plan_now. pose proof (plan_recovery_unfold (fed s) (recovery_active cfg s) now (busy s)) as Hp. cbv zeta in Hp.
  destruct (plan_recovery _ _ _ _) as [fd plan]. destruct Hp as [-> _]. simpl.
  apply (anchored_fmap (recovered (node_healthy (fed s)))); [apply anchor_recovered|by case_head..].
Qed.
(** The plan, and that it asks for nothing. *)
Lemma plan_now_off now :
  yields (λ r : Plan * bool, p_start r.1 = [] ∧ p_resume r.1 = [] ∧ p_assemble r.1 = []) (atomic (E:=Call J) (plan_now cfg now)).
Proof using off.
  intros s. unfold plan_now. rewrite inactive. pose proof (plan_off (fed s) now (busy s)) as Hp.
  by destruct (plan_recovery _ _ _ _) as [fd plan].
Qed.
Lemma act_on_anchored now plan :
  p_start plan = [] → p_resume plan = [] → p_assemble plan = [] → A (act_on cfg engine_token admin_credential fuel now plan).
Proof. intros Hs Hr Ha. unfold act_on, tell_lost, tell_head_lost, Publish.event. rewrite Hs, Hr, Ha. guar_auto. Qed.
Lemma reconcile_anchored : A (reconcile cfg engine_token admin_credential fuel).
Proof using off.
  unfold reconcile. apply guar_bind; [apply guar_invoke|intros now].
  eapply guar_bind_yields; [apply guar_atomic; intros s; apply plan_now_anchored|apply plan_now_off|].
  intros [plan changed] (Hs & Hr & Ha). cbn [fst] in Hs, Hr, Ha. cbv beta iota.
  apply guar_bind; [destruct changed; apply quiet|intros _].
  apply guar_bind; [by apply act_on_anchored|intros _].
  apply guar_bind; [apply rejoin_anchored|intros _].
  apply guar_bind; [by apply skipped|intros _].
  apply guar_bind; [|intros _].
  { unfold rehead_lost. apply guar_bind_reads; [done|]. intros s. rewrite inactive, orb_true_r. done. }
  apply guar_bind; [by apply skipped|intros _].
  apply guar_bind; [|intros _].
  { unfold rebalance_run. apply guar_bind_reads; [done|]. intros s. by rewrite inactive. }
  apply guar_bind_ok; [by apply skipped|intros _].
  apply guar_bind; [by apply skipped|intros _].
  apply guar_bind; [apply settle_anchored|done].
Qed.
End passive.

(** C28: Recovery switched off. Whatever the reconciler's passes find and the
    engines answer, beside exports and any tasks that leave volumes where
    they are: no volume's legs, head, array, epoch or fence change, none
    comes or goes, no replacement starts and no claim is taken. What a pass
    may still do is mark legs lost and back, close windows, withdraw and
    clean up. *)
Theorem recovery_off_stays {J} `{Json J} `{HttpShow} `{FloatShow}
  `{Deserialize J EngineVolume} `{Deserialize J Slab} `{Deserialize J Discovery} cfg engine_token admin_credential fuel
  s (ps : list (handler J unit)) s' ps'
  (Hoff : enabled (recovery cfg) = Some false)
  (Hps : Forall (λ p, p = (reconcile cfg engine_token admin_credential fuel ;! Ret tt)
                     ∨ export_task engine_token admin_credential p ∨ guar anchored p) ps)
  (Hsteps : pool_steps (s, ps) (s', ps')) :
  anchor <$> volumes (fed s') = anchor <$> volumes (fed s) ∧ nodes (fed s') = nodes (fed s) ∧ claims s' = claims s.
Proof.
  destruct (pool_guar anchored s ps s' ps' Hsteps) as [Ha _].
  { eapply Forall_impl; [exact Hps|]. intros p [->|[Hp|Hp]]; [| |exact Hp].
    - apply guar_bind; [by apply reconcile_anchored|done].
    - apply (guar_weaken export_step); [apply anchored_export|by eapply export_task_guar]. }
  apply (rtc_ind_r (λ x, anchored s x)) in Ha; [exact Ha|done|]. intros x y _ Hxy Hx. by transitivity x.
Qed.

Section example.
#[local] Existing Instances no_text no_volume no_slab no_discovery rb_show.
Local Open Scope string_scope.
Definition passive_cfg : Config :=
  {| recovery := MkRecoveryConfig (Some false) 300 3600 1 2 3 600 false 120; poll := PollConfig_default; rungs := ["rack"; "node"];
     io_weight := of_u64 0; pools := []; legs_host_nqn := "nqn:{node}"; peers := [] |}.
(** [n1], the head of a volume, does not answer: its leg is marked lost. *)
Definition passive_app : App := App_new example_fed None.
Definition passive_task : handler Tree unit := reconcile passive_cfg (λ _, None) (λ _, None) 3 ;! Ret tt.
Definition passive_end := sched race_env (repeat 0%nat 60) (passive_app, tt, [passive_task]).
Lemma recovery_off_stays_witness :
  fmap (M:=option) (λ v, map leg_state (legs v)) (volumes (fed passive_end.1.1) !! "db") = Some [Lost; Created; Created]
  ∧ anchor <$> volumes (fed passive_end.1.1) = anchor <$> volumes (fed passive_app)
  ∧ nodes (fed passive_end.1.1) = nodes (fed passive_app) ∧ claims passive_end.1.1 = claims passive_app.
Proof.
  split; [vm_compute; reflexivity|].
  assert (Forall (λ p, p = (reconcile passive_cfg (λ _, None) (λ _, None) 3 ;! Ret tt)
                     ∨ export_task (λ _, None) (λ _, None) p ∨ guar anchored p) [passive_task]) as Hps.
  { constructor; [by left|constructor]. }
  exact (recovery_off_stays passive_cfg (λ _, None) (λ _, None) 3 passive_app [passive_task] _ _ eq_refl Hps
           (sched_sound race_env _ passive_app tt [passive_task])).
Defined.
End example.
