(* ===== verification/Settings.v ===== *)
(** * The configuration file and the tokens (src/config.rs)

    The whole of stormstorage.toml with its defaults, what the environment
    adds to it, what [validate] asks of it, and which token goes to which
    engine. Parsing TOML, an address or an IP, the files, the environment
    and the machine's addresses are arguments. Shown: exactly which
    configurations are taken; that a token minted on this machine and the
    cluster's bearer go to no engine but this machine's and a member's; and
    two ways a guard here is wider than it says. *)

From S2P Require Import Prelude F64 Config.
From stdpp Require Import options.

Local Open Scope string_scope.

(** ** The file *)

Inductive StoreBackend := BackendFile | BackendEtcd.
#[export] Instance StoreBackend_eq_dec : EqDecision StoreBackend.
Proof. solve_decision. Defined.

Record StoreConfig := MkStoreConfig {
  sc_backend : StoreBackend;
  sc_endpoints : list string;
  sc_prefix : string;
  sc_ca_file : option string;
  sc_cert_file : option string;
  sc_key_file : option string;
  sc_lease_ttl_secs : Z;
  sc_instance : option string;
  sc_advertise_url : option string;
  sc_publish_service : option string;
}.
#[export] Instance StoreConfig_eta : Eta StoreConfig := λ r,
  MkStoreConfig (sc_backend r) (sc_endpoints r) (sc_prefix r) (sc_ca_file r) (sc_cert_file r) (sc_key_file r)
    (sc_lease_ttl_secs r) (sc_instance r) (sc_advertise_url r) (sc_publish_service r).
Definition StoreConfig_default : StoreConfig :=
  {| sc_backend := BackendFile; sc_endpoints := []; sc_prefix := "/stormstorage/"; sc_ca_file := None; sc_cert_file := None;
     sc_key_file := None; sc_lease_ttl_secs := 15; sc_instance := None; sc_advertise_url := None; sc_publish_service := None |}.

Record LocalConfig := MkLocalConfig {
  lc_enabled : bool;
  lc_engine_url : string;
  lc_name : option string;
  lc_cluster_peers : bool;
  lc_cluster_members : bool;
  lc_token_file : option string;
  lc_shared_token_file : option string;
  lc_admin_token_file : option string;
  lc_tier : option string;
}.
#[export] Instance LocalConfig_eta : Eta LocalConfig := λ r,
  MkLocalConfig (lc_enabled r) (lc_engine_url r) (lc_name r) (lc_cluster_peers r) (lc_cluster_members r) (lc_token_file r)
    (lc_shared_token_file r) (lc_admin_token_file r) (lc_tier r).
Definition LocalConfig_default : LocalConfig :=
  {| lc_enabled := true; lc_engine_url := "http://127.0.0.1:9090"; lc_name := None; lc_cluster_peers := true;
     lc_cluster_members := true; lc_token_file := None; lc_shared_token_file := None; lc_admin_token_file := None;
     lc_tier := None |}.

Record EngineTlsConfig := MkEngineTlsConfig { tls_ca_file : option string; address_scheme : string }.
Definition EngineTlsConfig_default : EngineTlsConfig := {| tls_ca_file := None; address_scheme := "http" |}.

Record KubeConfig := MkKubeConfig {
  kc_enabled : bool;
  kc_server : string;
  kc_token_file : option string;
  kc_ca_file : option string;
  kc_insecure_skip_tls_verify : option bool;
}.
#[export] Instance KubeConfig_eta : Eta KubeConfig := λ r,
  MkKubeConfig (kc_enabled r) (kc_server r) (kc_token_file r) (kc_ca_file r) (kc_insecure_skip_tls_verify r).
Definition KubeConfig_default : KubeConfig :=
  {| kc_enabled := true; kc_server := "https://127.0.0.1:6443"; kc_token_file := None; kc_ca_file := None;
     kc_insecure_skip_tls_verify := None |}.

Definition LegsConfig_default : string := "nqn.2026-10.lo.storm:stormstorage:{node}".
(** [0.3]: 3/10, rounded. *)
Definition PlacementConfig_default : f64 := fdiv (of_u64 3) (of_u64 10).

(** [config::Config]; the sections the control logic reads are its
    [control] part, [api.api_token] is [api_token]. *)
Record Settings := MkSettings {
  listen_addr : string;
  data_dir : option string;
  control : Config;
  api_token : string;
  local : LocalConfig;
  engine_tls : EngineTlsConfig;
  kubernetes : KubeConfig;
  store : StoreConfig;
  static_nodes : list NodeConfig;
}.
#[export] Instance Settings_eta : Eta Settings := λ r,
  MkSettings (listen_addr r) (data_dir r) (control r) (api_token r) (local r) (engine_tls r) (kubernetes r) (store r)
    (static_nodes r).
Definition Config_default : Config :=
  {| recovery := RecoveryConfig_default; poll := PollConfig_default; rungs := FederationConfig_default;
     io_weight := PlacementConfig_default; pools := []; legs_host_nqn := LegsConfig_default; peers := [] |}.
Definition Settings_default : Settings :=
  {| listen_addr := "0.0.0.0:9093"; data_dir := None; control := Config_default; api_token := ""; local := LocalConfig_default;
     engine_tls := EngineTlsConfig_default; kubernetes := KubeConfig_default; store := StoreConfig_default; static_nodes := [] |}.

(** ** The store's section *)

(** [publish_target]. *)
Definition publish_target (c : StoreConfig) : option (string * string) := sc_publish_service c ≫= split_once slash.
Definition is_etcd (c : StoreConfig) : bool := sc_backend c == BackendEtcd.

(** [apply_env]; [get] is the environment. *)
Definition apply_env (get : string → option string) (c : StoreConfig) : result StoreConfig string :=
  let? c :=
    match get "STORMSTORAGE_STORE_BACKEND" with
    | None => Ok c
    | Some b =>
        if trim b == "file" then Ok (c <| sc_backend := BackendFile |>)
        else if trim b == "etcd" then Ok (c <| sc_backend := BackendEtcd |>)
        else Err ("STORMSTORAGE_STORE_BACKEND " +:+ debug_str (trim b) +:+ ": must be file or etcd")
    end in
  Ok (match opt_filter (λ u, trim u != "") (get "STORMSTORAGE_STORE_ADVERTISE_URL") with
      | Some u => c <| sc_advertise_url := Some (trim u) |>
      | None => c
      end).

(** The closure [good]: a part of [<namespace>/<name>]. *)
Definition good_part (p : string) : bool :=
  (p != "") && all_chars (λ c, is_lower c || is_digit c || Ascii.eqb c (Ascii.ascii_of_nat 45)) p.
Definition endpoint_ok (e : string) : bool := starts_with "http://" e || starts_with "https://" e.
(** [StoreConfig::validate]. *)
Definition store_validate (c : StoreConfig) (has_peers : bool) : result unit string :=
  if negb (is_etcd c) then Ok tt
  else if (match sc_endpoints c with [] => true | _ => false end) then
    Err ("store.endpoints: backend = " +:+ debug_str "etcd" +:+ " needs at least one endpoint")
  else match find_first (λ e, negb (endpoint_ok e)) (sc_endpoints c) with
  | Some e => Err ("store.endpoints " +:+ debug_str e +:+ ": must be an http:// or https:// URL")
  | None =>
      if has_peers then
        Err ("[store] backend = " +:+ debug_str "etcd"
             +:+ " and [replication] peers are exclusive: the store replaces peer replication")
      else if (sc_prefix c == "") || negb (ends_with "/" (sc_prefix c)) then
        Err ("store.prefix " +:+ debug_str (sc_prefix c) +:+ ": must be non-empty and end with /")
      else if (sc_lease_ttl_secs c <? 3)%Z then Err "store.lease_ttl_secs must be at least 3"
      else if negb (Bool.eqb (is_some (sc_cert_file c)) (is_some (sc_key_file c))) then
        Err "store.cert_file and store.key_file go together"
      else match sc_publish_service c with
           | None => Ok tt
           | Some svc =>
               if is_some_and (λ x, good_part x.1 && good_part x.2) (split_once slash svc) then Ok tt
               else Err ("store.publish_service " +:+ debug_str svc +:+ ": must be <namespace>/<name>")
           end
  end.

(** ** The whole file *)

(** [LegsConfig::validate]. *)
Definition uri_breaker (c : string) : bool :=
  existsb (String.eqb c) ["&"; "?"; "/"; "#"] || is_whitespace c.
Definition legs_validate (host_nqn : string) : result unit string :=
  let n := host_nqn_for host_nqn "x" in
  if negb (starts_with "nqn." n) || (200 <? String.length host_nqn)%nat then
    Err ("legs.host_nqn " +:+ debug_str host_nqn +:+ ": must start with nqn. and be short (≤ 200)")
  else if negb (contains "{node}" host_nqn) then
    Err ("legs.host_nqn " +:+ debug_str host_nqn +:+ ": needs {node}, so each head has its own")
  else if existsb uri_breaker (chars n) then
    Err ("legs.host_nqn " +:+ debug_str host_nqn +:+ ": no & ? / # or spaces (it goes into a drive URI)")
  else Ok tt.
(** [EngineTlsConfig::validate]. *)
Definition tls_validate (c : EngineTlsConfig) : result unit string :=
  if (address_scheme c == "http") || (address_scheme c == "https") then Ok tt
  else Err ("engine_tls.address_scheme " +:+ debug_str (address_scheme c) +:+ ": must be " +:+ debug_str "http"
            +:+ " or " +:+ debug_str "https").

(** The first name that is in the list before. *)
Fixpoint first_repeated (seen : list string) (l : list string) : option string :=
  match l with
  | [] => None
  | x :: l => if existsb (λ y, y == x) seen then Some x else first_repeated (x :: seen) l
  end.

Section settings.
(** [SocketAddr::from_str]: why a text is none; [toml::from_str] and the
    keys of [toml::Table]. *)
Context (not_socket_addr : string → option string).
Context (from_toml : string → result Settings string) (toml_keys : string → option (list string)).

(** [Config::validate]. *)
Definition validate (c : Settings) : result unit string :=
  match not_socket_addr (listen_addr c) with
  | Some e => Err ("listen_addr " +:+ debug_str (listen_addr c) +:+ ": " +:+ e)
  | None =>
  match first_repeated [] (map nc_name (static_nodes c)) with
  | Some n => Err ("duplicate node name " +:+ debug_str n)
  | None =>
  match find_first (λ p, negb (existsb (λ r, r == pool_rung p) (rungs (control c)))) (pools (control c)) with
  | Some p => Err ("pool " +:+ debug_str (pool_name p) +:+ ": rung " +:+ debug_str (pool_rung p)
                   +:+ " not in federation.rungs [" +:+ join ", " (map debug_str (rungs (control c))) +:+ "]")
  | None =>
      let? _ := legs_validate (legs_host_nqn (control c)) in
      let? _ := tls_validate (engine_tls c) in
      let? _ := store_validate (store c) (match peers (control c) with [] => false | _ => true end) in
      if is_etcd (store c) && is_some (sc_publish_service (store c)) && negb (kc_enabled (kubernetes c)) then
        Err "store.publish_service writes through the apiserver: [kubernetes] enabled must not be false"
      else if (interval_secs (poll (control c)) =? 0)%Z then Err "poll.interval_secs must be non-zero"
      else Ok tt
  end end end.

(** [unknown_top_level_keys]. *)
Definition KNOWN : list string :=
  ["listen_addr"; "data_dir"; "federation"; "poll"; "api"; "replication";
   "local"; "engine_tls"; "recovery"; "legs"; "kubernetes"; "placement"; "store"; "nodes"; "pools"].
Definition unknown_top_level_keys (text : string) : list string :=
  match toml_keys text with
  | Some ks => List.filter (λ k, negb (existsb (λ x, x == k) KNOWN)) ks
  | None => []
  end.

(** [Config::load]: the file's text, that there is none, or why it cannot be
    read; with the keys warned of. *)
Inductive FileRead := FileText (s : string) | FileMissing | FileError (e : string).
Definition load (env : string → option string) (file : FileRead) : result Settings string * list string :=
  let with_env (c : Settings) : result Settings string :=
    let? st := apply_env env (store c) in Ok (c <| store := st |>) in
  match file with
  | FileText s => (let? c := from_toml s in with_env c, unknown_top_level_keys s)
  | FileMissing => (with_env Settings_default, [])
  | FileError e => (Err e, [])
  end.
End settings.

(** ** Tokens *)

Definition DEFAULT_TOKEN_FILES : list string :=
  ["/etc/stormblock/api_token"; "/var/lib/stormblock/api_token"; "/run/stormblock/engine/api_token"].
Definition DEFAULT_KUBE_TOKEN_FILES : list string :=
  ["/data/stormcert/node-admin.token"; "/var/run/secrets/kubernetes.io/serviceaccount/token"].

(** [split(sep).nth(1)]. *)
Definition second_part (sep s : string) : option string :=
  (λ x, match split_once_str sep x.2 with Some y => y.1 | None => x.2 end) <$> split_once_str sep s.
Definition chr (n : nat) : Ascii.ascii := Ascii.ascii_of_nat n.
Definition url_host (u : string) : string :=
  let rest := unwrap_or u (second_part "://" u) in
  let hostport := take_until [slash; chr 63] rest in
  match strip_prefix "[" hostport with
  | Some v6 => take_until [chr 93] v6
  | None => match rsplit_once (chr 58) hostport with
            | Some (h, p) => if all_chars is_digit p then h else hostport
            | None => hostport
            end
  end.

Section machine.
(** Files as [read_to_string] gives them, the environment, whether an IP
    address (when the text is one) is a loopback one, and whether a socket
    can be bound to it. *)
Context (read : string → result string string) (var : string → option string).
Context (loopback : string → option bool) (binds : string → bool).

(** A variable that is set and not blank. *)
Definition env_set (k : string) : option string := opt_filter (λ v, trim v != "") (var k).

Definition my_name : string :=
  trim (match read "/proc/sys/kernel/hostname" with
        | Ok s => s
        | Err _ => match read "/etc/hostname" with Ok s => s | Err _ => "" end
        end).
Definition is_this_machine (u : string) : bool :=
  let host := url_host u in
  if (host == "") || (host == "localhost") then true
  else match loopback host with
  | Some l => l || binds host
  | None =>
      (my_name != "")
      && (eq_ignore_ascii_case host my_name
          || (negb (contains "." host) && eq_ignore_ascii_case host (take_until [chr 46] my_name)))
  end.

(** [LocalConfig::token_for], [token_source] and [token]. *)
Definition local_token_for (c : LocalConfig) (u : string) : option string * string :=
  token_for read trim is_this_machine DEFAULT_TOKEN_FILES env_set (lc_shared_token_file c) (lc_token_file c) u.
Definition token_source (c : LocalConfig) : option string * string := local_token_for c (lc_engine_url c).
Definition local_token (c : LocalConfig) : option string := (token_source c).1.
Definition admin_token_for (c : LocalConfig) (u : string) : option string :=
  match env_set "STORMBLOCK_ADMIN_TOKEN" with
  | Some t => Some (trim t)
  | None =>
      match lc_admin_token_file c with
      | None => None
      | Some file => if negb (is_this_machine u) then None else (token_search read trim None [file]).1
      end
  end.
(** [KubeConfig::token_source]. *)
Definition kube_token_source (c : KubeConfig) : option string * string :=
  match env_set "KUBE_TOKEN" with
  | Some t => (Some (trim t), "$KUBE_TOKEN")
  | None => token_search read trim None (dedup (map trim (option_list (kc_token_file c)) ++ DEFAULT_KUBE_TOKEN_FILES)%list)
  end.
Definition kube_token (c : KubeConfig) : option string := (kube_token_source c).1.
Definition skip_tls_verify (c : KubeConfig) : bool :=
  match kc_insecure_skip_tls_verify c with
  | Some b => b
  | None =>
      let host := take_until [slash] (unwrap_or (kc_server c) (second_part "://" (kc_server c))) in
      starts_with "127." host || starts_with "localhost" host || starts_with "[::1]" host
  end.

(** ** Which engine is presented what (src/api/mod.rs) *)

(** [AppState::engine_token_source]; [engines] are the members' engines. *)
Definition engine_token_source (c : Settings) (engines : gset string) (node : NodeConfig) : option string * string :=
  match opt_filter (λ t, t != "") (fmap (M:=option) trim (nc_api_token node)) with
  | Some t => (Some t, nc_name node +:+ ": api_token")
  | None =>
      let from_file := (match nc_token_file node with Some f => token_search read trim None [f] | None => (None, "") end) in
      if is_some from_file.1 then from_file
      else
        let found := local_token_for (local c) (nc_engine_url node) in
        if is_some found.1 then found
        else if bool_decide (trim_end_matches slash (nc_engine_url node) ∈ engines) then
          match kube_token (kubernetes c) with
          | Some t => (Some t, nc_name node +:+ ": [kubernetes] bearer (cluster member)")
          | None => found
          end
        else found
  end.
Definition engine_token (c : Settings) (engines : gset string) (node : NodeConfig) : option string :=
  (engine_token_source c engines node).1.
Definition admin_credential (c : Settings) (u : string) : option string :=
  opt_or (admin_token_for (local c) u) (kube_token (kubernetes c)).
(** [AppState::engine_ca]. *)
Definition engine_ca (c : Settings) (node : NodeConfig) : option string :=
  let set := opt_filter (λ p, trim p != "") in opt_or (set (nc_ca_file node)) (set (tls_ca_file (engine_tls c))).
End machine.

Local Close Scope string_scope.

(** ** Facts: each head has a host NQN of its own *)

(** How often a text is replaced, and how long the rest is. *)
Fixpoint occurs_fuel (fuel : nat) (pat s : string) : nat * nat :=
  match fuel, s with
  | O, _ | _, EmptyString => (0, String.length s)
  | S fuel, String c s' =>
      match strip_prefix pat s with
      | Some rest => let '(k, n) := occurs_fuel fuel pat rest in (S k, n)
      | None => let '(k, n) := occurs_fuel fuel pat s' in (k, S n)
      end
  end.
Lemma length_append (a b : string) : String.length (a +:+ b)%string = String.length a + String.length b.
Proof. induction a as [|c a IH]; simpl; [done|]. by rewrite IH. Qed.
Lemma append_inj_length (a b x y : string) :
  (a +:+ x = b +:+ y)%string → String.length a = String.length b → a = b.
Proof.
  revert b. induction a as [|c a IH]; intros [|d b]; simpl; [done|done|done|].
  intros [= <- E] Hl. f_equal. apply IH; [done|lia].
Qed.
Lemma replace_length fuel pat to s :
  String.length (str_replace_fuel fuel pat to s)
  = (occurs_fuel fuel pat s).1 * String.length to + (occurs_fuel fuel pat s).2.
Proof.
  revert s. induction fuel as [|fuel IH]; intros s; [done|]. destruct s as [|c s]; [done|].
  cbn [str_replace_fuel occurs_fuel]. destruct (strip_prefix pat (String c s)) as [rest|].
  - rewrite length_append, IH. destruct (occurs_fuel fuel pat rest). simpl. lia.
  - cbn [String.length]. rewrite IH. destruct (occurs_fuel fuel pat s). simpl. lia.
Qed.
Lemma strip_prefix_length p s r : strip_prefix p s = Some r → String.length s = String.length p + String.length r.
Proof.
  revert s. induction p as [|a p IH]; intros [|b s]; simpl; [by intros [= <-]|by intros [= <-]|done|].
  destruct (Ascii.eqb a b); [|done]. intros H. by rewrite (IH s H).
Qed.
Lemma contains_occurs fuel pat s :
  pat ≠ EmptyString → contains pat s = true → String.length s ≤ fuel → 0 < (occurs_fuel fuel pat s).1.
Proof.
  intros Hp. revert fuel. induction s as [|c s IH]; intros fuel Hc Hl.
  { destruct pat; [done|discriminate]. }
  destruct fuel as [|fuel]; [simpl in Hl; lia|]. cbn [contains] in Hc. cbn [occurs_fuel].
  unfold starts_with in Hc. destruct (strip_prefix pat (String c s)) as [rest|].
  - destruct (occurs_fuel fuel pat rest). simpl. lia.
  - specialize (IH fuel Hc). simpl in Hl. destruct (occurs_fuel fuel pat s). simpl in *. lia.
Qed.
Lemma replace_first fuel pat a b s : 0 < (occurs_fuel fuel pat s).1 → String.length a = String.length b →
  str_replace_fuel fuel pat a s = str_replace_fuel fuel pat b s → a = b.
Proof.
  intros Ho Hl. revert s Ho. induction fuel as [|fuel IH]; intros s; [simpl; lia|]. destruct s as [|c s]; [simpl; lia|].
  cbn [str_replace_fuel occurs_fuel]. destruct (strip_prefix pat (String c s)) as [rest|].
  - intros _ E. by eapply append_inj_length.
  - destruct (occurs_fuel fuel pat s) as [k n] eqn:Eo. cbn [fst]. intros Hk [= E]. apply (IH s); [by rewrite Eo|done].
Qed.
Lemma str_replace_inj pat s a b : pat ≠ EmptyString → contains pat s = true →
  str_replace pat a s = str_replace pat b s → a = b.
Proof.
  intros Hp Hc E. pose proof (contains_occurs (String.length s) pat s Hp Hc (le_n _)) as Ho.
  apply (replace_first (String.length s) pat a b s Ho); [|exact E].
  pose proof (f_equal String.length E) as El. unfold str_replace in El. rewrite !replace_length in El. nia.
Qed.

(** ** Facts: what is well_configured *)

Lemma first_repeated_None seen l : first_repeated seen l = None ↔ NoDup l ∧ ∀ x, x ∈ l → x ∉ seen.
Proof.
  revert seen. induction l as [|x l IH]; intros seen; simpl.
  { split; [|done]. intros _. split; [constructor|]. by intros x ?%not_elem_of_nil. }
  rewrite NoDup_cons. destruct (existsb (λ y, y == x) seen) eqn:E.
  - split; [done|]. intros [_ H]. apply existsb_true in E as (y & Hy & ->%eqb_prop). by destruct (H x); [left|].
  - rewrite IH. assert (x ∉ seen) as Hx.
    { intros Hx. assert (existsb (λ y, y == x) seen = true); [|congruence].
      apply existsb_true. exists x. split; [done|apply eqb_refl]. }
    split.
    + intros [Hnd Hd]. split; [split; [|done]|].
      * intros Hi. destruct (Hd x Hi). by left.
      * intros y [->|Hy]%elem_of_cons; [done|]. intros Hs. destruct (Hd y Hy). by right.
    + intros [[Hi Hnd] Hd]. split; [done|]. intros y Hy [->|Hs]%elem_of_cons; [done|].
      destruct (Hd y); [by right|done].
Qed.

(** ** What is well configured *)

Definition legs_ok (host_nqn : string) : Prop :=
  (∃ rest, host_nqn_for host_nqn "x" = "nqn." +:+ rest)%string ∧ String.length host_nqn ≤ 200
  ∧ (∃ before after, host_nqn = before +:+ ("{node}" +:+ after))%string
  ∧ ∀ c, c ∈ chars (host_nqn_for host_nqn "x") → (c ∉ ["&"; "?"; "/"; "#"]%string) ∧ c ∉ WHITE_SPACE.
(** A namespace or a name: lower case letters, digits and dashes. *)
Definition label_of (s : string) : Prop :=
  s ≠ ""%string ∧ ∀ c, c ∈ String.list_ascii_of_string s →
    c ∈ String.list_ascii_of_string "abcdefghijklmnopqrstuvwxyz0123456789-".
Definition store_ok (c : StoreConfig) (ps : list string) : Prop :=
  sc_endpoints c ≠ []
  ∧ (∀ e, e ∈ sc_endpoints c → ∃ rest, e = ("http://" +:+ rest) ∨ e = ("https://" +:+ rest))%string
  ∧ ps = [] ∧ (∃ dir, sc_prefix c = dir +:+ "/")%string ∧ (3 ≤ sc_lease_ttl_secs c)%Z
  ∧ (is_Some (sc_cert_file c) ↔ is_Some (sc_key_file c))
  ∧ ∀ svc, sc_publish_service c = Some svc →
      ∃ ns nm, svc = (ns +:+ ("/" +:+ nm))%string ∧ label_of ns ∧ label_of nm.
(** What a configuration that is taken is like. *)
Record well_configured (not_socket_addr : string → option string) (c : Settings) : Prop := {
  ac_addr : not_socket_addr (listen_addr c) = None;
  ac_names : NoDup (map nc_name (static_nodes c));
  ac_rungs : ∀ p, p ∈ pools (control c) → pool_rung p ∈ rungs (control c);
  ac_legs : legs_ok (legs_host_nqn (control c));
  ac_tls : address_scheme (engine_tls c) = "http"%string ∨ address_scheme (engine_tls c) = "https"%string;
  ac_store : sc_backend (store c) = BackendEtcd → store_ok (store c) (peers (control c))
    ∧ (is_Some (sc_publish_service (store c)) → kc_enabled (kubernetes c) = true);
  ac_poll : interval_secs (poll (control c)) ≠ 0%Z;
}.

(** A test that ends in an error. *)
Lemma guard_iff {X : Type} (b : bool) (e : X) (k : result unit X) (P Q : Prop) :
  (b = false ↔ P) → (k = Ok tt ↔ Q) → ((if b then Err e else k) = Ok tt ↔ P ∧ Q).
Proof.
  intros HP HQ. destruct b; [|rewrite HQ; tauto]. split; [done|]. intros [H _]. by apply HP in H.
Qed.
Lemma guard_last_iff {X : Type} (b : bool) (e : X) (P : Prop) :
  (b = false ↔ P) → ((if b then Err e else Ok tt) = Ok tt ↔ P).
Proof. intros HP. destruct b; [|tauto]. split; [done|]. intros H. by apply HP in H. Qed.
Lemma all_chars_iff p s : all_chars p s = true ↔ ∀ c, c ∈ String.list_ascii_of_string s → p c = true.
Proof. apply forallb_true. Qed.

Lemma eqb_not_in (c : string) l : existsb (String.eqb c) l = false ↔ c ∉ l.
Proof.
  rewrite existsb_false. split.
  - intros Hl Hc. specialize (Hl c Hc). by rewrite String.eqb_refl in Hl.
  - intros Hc x Hx. apply String.eqb_neq. intros ->. done.
Qed.
Lemma uri_breaker_iff c : uri_breaker c = false ↔ (c ∉ ["&"; "?"; "/"; "#"]%string) ∧ c ∉ WHITE_SPACE.
Proof. unfold uri_breaker, is_whitespace. by rewrite orb_false_iff, !eqb_not_in. Qed.
Lemma legs_validate_iff n : legs_validate n = Ok tt ↔ legs_ok n.
Proof.
  unfold legs_validate, legs_ok. cbv zeta. rewrite <-starts_with_iff, <-contains_iff.
  rewrite (and_assoc (starts_with _ _ = true)).
  apply guard_iff.
  { by rewrite orb_false_iff, negb_false_iff, Nat.ltb_ge. }
  apply guard_iff; [by rewrite negb_false_iff|].
  apply guard_last_iff. rewrite existsb_false. by setoid_rewrite uri_breaker_iff.
Qed.
Lemma endpoint_ok_iff e : endpoint_ok e = true ↔ (∃ rest, e = ("http://" +:+ rest) ∨ e = ("https://" +:+ rest))%string.
Proof. unfold endpoint_ok. rewrite orb_true_iff, !starts_with_iff. naive_solver. Qed.
Lemma label_char c :
  is_lower c || is_digit c || Ascii.eqb c (Ascii.ascii_of_nat 45) = true ↔
  c ∈ String.list_ascii_of_string "abcdefghijklmnopqrstuvwxyz0123456789-".
Proof.
  assert ((is_lower c || is_digit c || Ascii.eqb c (Ascii.ascii_of_nat 45))
    = existsb (Ascii.eqb c) (String.list_ascii_of_string "abcdefghijklmnopqrstuvwxyz0123456789-")) as ->
    by (destruct c as [[] [] [] [] [] [] [] []]; vm_compute; reflexivity).
  rewrite existsb_true. split; [by intros (x & Hx & ->%Ascii.eqb_eq)|].
  intros Hc. exists c. split; [exact Hc|]. apply Ascii.eqb_refl.
Qed.
Lemma good_part_iff p : good_part p = true ↔ label_of p.
Proof.
  unfold good_part, label_of. rewrite andb_true_iff, neqb_true, all_chars_iff. by setoid_rewrite label_char.
Qed.
Lemma no_slash_label p : label_of p → slash ∉ String.list_ascii_of_string p.
Proof.
  intros [_ Hp] Hs. specialize (Hp _ Hs). revert Hp. apply (bool_decide_unpack (_ ∉ _)). vm_compute. exact I.
Qed.
Lemma split_once_inv c s a b : split_once c s = Some (a, b) → s = (a +:+ String c b)%string.
Proof.
  revert a. induction s as [|x s IH]; intros a; simpl; [done|]. destruct (Ascii.eqb_spec x c) as [->|Hne].
  - by intros [= <- <-].
  - destruct (split_once c s) as [[a' b']|]; simpl; [|done]. intros [= <- <-]. exact (f_equal (String x) (IH _ eq_refl)).
Qed.
Lemma publish_service_iff svc :
  is_some_and (λ x, good_part x.1 && good_part x.2) (split_once slash svc) = true ↔
  ∃ ns nm, svc = (ns +:+ ("/" +:+ nm))%string ∧ label_of ns ∧ label_of nm.
Proof.
  rewrite is_some_and_true. setoid_rewrite andb_true_iff. setoid_rewrite good_part_iff. split.
  - intros ([ns nm] & Hs%split_once_inv & ? & ?). exists ns, nm. done.
  - intros (ns & nm & -> & Hns & Hnm). exists (ns, nm). rewrite split_once_slash by by apply no_slash_label. done.
Qed.
Lemma tls_validate_iff c : tls_validate c = Ok tt ↔ address_scheme c = "http"%string ∨ address_scheme c = "https"%string.
Proof.
  assert (∀ a b : string, ((a == b) = true ↔ a = b)) as He by (intros a b; apply eqb_true).
  rewrite <-(He _ "http"%string), <-(He _ "https"%string), <-orb_true_iff. unfold tls_validate. by destruct (_ || _).
Qed.
Lemma is_etcd_iff c : is_etcd c = true ↔ sc_backend c = BackendEtcd.
Proof. apply eqb_true. Qed.
Lemma store_validate_iff c ps :
  store_validate c (match ps with [] => false | _ => true end) = Ok tt ↔ (sc_backend c = BackendEtcd → store_ok c ps).
Proof.
  rewrite <-is_etcd_iff. unfold store_validate. destruct (is_etcd c); cbn [negb]; [|by split].
  enough (∀ r : result unit string, (r = Ok tt ↔ store_ok c ps) → (r = Ok tt ↔ (true = true → store_ok c ps))) as Hen.
  { apply Hen. unfold store_ok. apply guard_iff; [by destruct (sc_endpoints c)|].
    setoid_rewrite <-endpoint_ok_iff.
    destruct (find_first _ (sc_endpoints c)) as [e|] eqn:Hf.
    { apply find_first_Some in Hf as [Hi Hb]. split; [done|]. intros [Hall _].
      rewrite (Hall e Hi) in Hb. done. }
    rewrite find_first_None in Hf.
    match goal with |- ?r = _ ↔ ?A ∧ ?B => enough (r = Ok tt ↔ B) as ->; [|clear Hf] end.
    { split; [|tauto]. intros HB. split; [|done]. intros e He. apply negb_false_iff. auto. }
    apply guard_iff; [by destruct ps|].
    rewrite <-ends_with_iff. apply guard_iff.
    { rewrite orb_false_iff, negb_false_iff, eqb_false. split; [tauto|]. intros He. split; [|done]. intros E. by rewrite E in He. }
    apply guard_iff; [by rewrite Z.ltb_ge|].
    apply guard_iff.
    { rewrite negb_false_iff, eqb_true_iff, <-!is_some_true. destruct (is_some (sc_cert_file c)), (is_some (sc_key_file c)); naive_solver. }
    setoid_rewrite <-publish_service_iff.
    destruct (sc_publish_service c) as [svc|]; [|by split].
    destruct (is_some_and _ _) eqn:Hs.
    - split; [|done]. intros _ s [= <-]. exact Hs.
    - split; [done|]. intros Hg. specialize (Hg svc eq_refl). congruence. }
  intros r ->. tauto.
Qed.
Lemma in_list_iff (l : list string) x : existsb (λ r, r == x) l = true ↔ x ∈ l.
Proof.
  rewrite existsb_true. split; [by intros (y & Hy & <-%eqb_prop)|]. intros Hx. exists x. split; [done|apply eqb_refl].
Qed.
Lemma result_unit_bind {X Y : Type} (r : result unit X) (k : result Y X) (y : Y) :
  (let? _ := r in k) = Ok y ↔ r = Ok tt ∧ k = Ok y.
Proof. destruct r as [[]|]; simpl; [tauto|]. split; [done|by intros []]. Qed.

Lemma validate_iff not_addr c : validate not_addr c = Ok tt ↔ well_configured not_addr c.
Proof.
  unfold validate. destruct (not_addr (listen_addr c)) as [e|] eqn:Ha; [split; [done|intros []; congruence]|].
  pose proof (first_repeated_None [] (map nc_name (static_nodes c))) as Hrep.
  destruct (first_repeated [] _) as [n|] eqn:Hn.
  { split; [done|]. intros []. enough (Some n = None) by done. apply Hrep. split; [done|]. intros x _. apply not_elem_of_nil. }
  destruct (proj1 Hrep eq_refl) as [Hnd _].
  destruct (find_first _ (pools (control c))) as [p|] eqn:Hp.
  { apply find_first_Some in Hp as [Hi Hb]. split; [done|]. intros []. apply negb_true_iff in Hb.
    rewrite <-not_true_iff_false, in_list_iff in Hb. destruct Hb. auto. }
  rewrite find_first_None in Hp. rewrite !result_unit_bind, legs_validate_iff, tls_validate_iff, store_validate_iff.
  rewrite (guard_iff _ _ _ (sc_backend (store c) = BackendEtcd → is_Some (sc_publish_service (store c)) → kc_enabled (kubernetes c) = true)
             (interval_secs (poll (control c)) ≠ 0%Z)).
  - split.
    + intros (? & ? & ? & ? & ?). split; [done|done| |done|done|by auto|done].
      intros p Hi. apply in_list_iff, negb_false_iff. by apply Hp.
    + intros [? ? ? ? ? Hs ?]. split_and!; [done|done|by intros ?; apply Hs|by intros ?; apply Hs|done].
  - rewrite <-is_etcd_iff. destruct (is_etcd (store c)), (sc_publish_service (store c)), (kc_enabled (kubernetes c)); simpl; naive_solver.
  - apply guard_last_iff. by rewrite Z.eqb_neq.
Qed.

(** C35: A configuration is taken exactly when: it listens on an address, no two
    nodes share a name, every pool spreads over a rung of the federation, the
    host NQN of the legs begins with [nqn.], is at most 200 bytes, names the
    head ([{node}]) and, filled in, has no [&], [?], [/], [#] or white space
    (Unicode's) in it, the scheme is http or https, the poll interval is not
    zero and, with the etcd store, there are endpoints, each an [http://] or
    [https://] URL, and no peers, the prefix ends in a slash, the lease is at
    least 3 s, the certificate comes with its key, and a published Service is
    <namespace>/<name>, two non-empty words of lower case letters, digits and
    dashes, and the apiserver is on. Two heads then never present the same
    host NQN. *)
Theorem validate_spec (not_addr : string → option string) (c : Settings) :
  (validate not_addr c = Ok tt ↔ well_configured not_addr c)
  ∧ (validate not_addr c = Ok tt → ∀ a b,
       host_nqn_for (legs_host_nqn (control c)) a = host_nqn_for (legs_host_nqn (control c)) b → a = b).
Proof.
  split; [apply validate_iff|]. intros Hv a b. destruct (proj1 (validate_iff not_addr c) Hv) as [_ _ _ (_ & _ & Hc & _) _ _ _].
  apply (str_replace_inj "{node}"); [done|by apply contains_iff].
Qed.

(** ** Facts: where a URL points *)

(** [s] has none of these characters. *)
Definition lacks (bad s : string) : bool :=
  all_chars (λ c, negb (existsb (Ascii.eqb c) (String.list_ascii_of_string bad))) s.
(** No port, or a colon and digits; then nothing, a path or a query. *)
Definition port_text (p : string) : Prop :=
  p = ""%string ∨ ∃ d ds, p = String (chr 58) (String d ds) ∧ all_chars is_digit (String d ds) = true.
Definition rest_text (r : string) : Prop := r = ""%string ∨ ∃ r', r = String (chr 47) r' ∨ r = String (chr 63) r'.
(** A URL of a host: a name or an IPv4 address, or an IPv6 one in brackets. *)
Inductive url_of (host : string) : string → Prop :=
  | url_name scheme port rest :
      lacks ":" scheme = true → lacks ":/?[" host = true → port_text port → rest_text rest →
      url_of host (scheme +:+ ("://" +:+ (host +:+ (port +:+ rest))))
  | url_v6 scheme port rest :
      lacks ":" scheme = true → lacks "/?]" host = true → port_text port → rest_text rest →
      url_of host (scheme +:+ ("://" +:+ (String (chr 91) host +:+ (String (chr 93) port +:+ rest)))).

Lemma lacks_cons bad c s :
  lacks bad (String c s) = true ↔ (c ∉ String.list_ascii_of_string bad) ∧ lacks bad s = true.
Proof.
  unfold lacks, all_chars. cbn [String.list_ascii_of_string forallb]. rewrite andb_true_iff, negb_true_iff, existsb_false.
  split; intros [Hc ?]; (split; [|done]).
  - intros Hin. specialize (Hc c Hin). by rewrite Ascii.eqb_refl in Hc.
  - intros x Hx. apply Ascii.eqb_neq. intros ->. done.
Qed.
Lemma lacks_app bad a b : lacks bad (a +:+ b) = true ↔ lacks bad a = true ∧ lacks bad b = true.
Proof. unfold lacks, all_chars. by rewrite list_ascii_app, forallb_app, andb_true_iff. Qed.
(** Fewer characters to lack. *)
Lemma lacks_mono bad bad' s :
  (∀ c, c ∈ String.list_ascii_of_string bad' → c ∈ String.list_ascii_of_string bad) →
  lacks bad s = true → lacks bad' s = true.
Proof.
  intros Hm. induction s as [|c s IH]; [done|]. rewrite !lacks_cons. intros [Hc Hs]. split; auto.
Qed.
Lemma digits_lack s bad :
  all_chars is_digit s = true → forallb (λ c, negb (is_digit c)) (String.list_ascii_of_string bad) = true → lacks bad s = true.
Proof.
  intros Hs Hb. rewrite forallb_true in Hb. unfold all_chars in Hs. induction s as [|c s IH]; [done|].
  cbn [String.list_ascii_of_string forallb] in Hs. apply andb_true_iff in Hs as [Hc Hs].
  apply lacks_cons. split; [|by apply IH]. intros Hin. specialize (Hb c Hin). by rewrite Hc in Hb.
Qed.

(** What comes after the scheme, up to the next ["://"], if any. *)
Definition first_part (s : string) : string := match split_once_str "://" s with Some y => y.1 | None => s end.
Lemma second_part_scheme scheme x : lacks ":" scheme = true → second_part "://" (scheme +:+ ("://" +:+ x)) = Some (first_part x).
Proof.
  intros Hs. unfold second_part.
  assert (split_once_str "://" (scheme +:+ ("://" +:+ x)) = Some (scheme, x)) as ->; [|done].
  induction scheme as [|c scheme IH].
  { assert (strip_prefix "://" ("" +:+ ("://" +:+ x)) = Some x) as Hp by by apply strip_prefix_iff.
    change ("" +:+ ("://" +:+ x))%string with (String (chr 58) ("//" +:+ x)) in *. cbn [split_once_str]. by rewrite Hp. }
  apply lacks_cons in Hs as [Hc Hs]. change (String c scheme +:+ ("://" +:+ x))%string with (String c (scheme +:+ ("://" +:+ x))).
  cbn [split_once_str]. destruct (strip_prefix "://" _) as [r|] eqn:E.
  - apply strip_prefix_iff in E. injection E as -> _. destruct Hc. by left.
  - by rewrite (IH Hs).
Qed.

(** What comes before the path or the query. *)
Abbreviation authority s := (take_until [slash; chr 63] (first_part s)).
Lemma authority_cons c x :
  c ∉ [slash; chr 63] → c ≠ (chr 58) ∨ (∃ d y, x = String d y ∧ d ≠ slash) →
  authority (String c x) = String c (authority x).
Proof.
  intros Hc Hx. unfold first_part. cbn [split_once_str].
  assert (strip_prefix "://" (String c x) = None) as ->.
  { destruct (strip_prefix _ _) as [r|] eqn:E; [|done]. apply strip_prefix_iff in E. injection E as -> Er.
    destruct Hx as [Hx|(d & y & -> & Hd)]; [done|]. injection Er as -> _. done. }
  assert (existsb (Ascii.eqb c) [slash; chr 63] = false) as Hex.
  { apply existsb_false. intros y Hy. apply Ascii.eqb_neq. intros ->. done. }
  destruct (split_once_str "://" x) as [[y z]|]; cbn [fmap option_fmap option_map fst take_until]; by rewrite Hex.
Qed.
Lemma authority_rest rest : rest_text rest → authority rest = ""%string.
Proof.
  intros [->|(r & [->| ->])]; [done| |]; unfold first_part; cbn [split_once_str strip_prefix]; simpl;
    by destruct (split_once_str "://" r) as [[? ?]|].
Qed.
Lemma authority_plain a x : lacks ":/?" a = true → authority (a +:+ x) = (a +:+ authority x)%string.
Proof.
  induction a as [|c a IH]; [done|]. rewrite lacks_cons. intros [Hc Ha].
  change (String c a +:+ x)%string with (String c (a +:+ x)). rewrite authority_cons.
  - exact (f_equal (String c) (IH Ha)).
  - intros Hin. destruct Hc. by right.
  - left. intros ->. destruct Hc. by left.
Qed.
Lemma authority_before a d x : lacks "/?" a = true → d ≠ slash → authority (a +:+ String d x) = (a +:+ authority (String d x))%string.
Proof.
  intros Ha Hd. induction a as [|c a IH]; [done|]. apply lacks_cons in Ha as [Hc Ha].
  change (String c a +:+ String d x)%string with (String c (a +:+ String d x)). rewrite authority_cons; [|done|].
  - exact (f_equal (String c) (IH Ha)).
  - right. destruct a as [|c2 a]; [by exists d, x|]. apply lacks_cons in Ha as [Hc2 _].
    exists c2, (a +:+ String d x)%string. split; [done|]. intros ->. destruct Hc2. by left.
Qed.
Lemma authority_port port rest : port_text port → rest_text rest → authority (port +:+ rest) = port.
Proof.
  intros Hp Hr. destruct Hp as [->|(d & ds & -> & Hd)]; [by apply authority_rest|].
  assert (is_digit d = true) as Hdig by (unfold all_chars in Hd; cbn in Hd; by apply andb_true_iff in Hd as [? _]).
  change (String (chr 58) (String d ds) +:+ rest)%string with (String (chr 58) (String d ds +:+ rest)). rewrite authority_cons.
  - rewrite authority_plain, authority_rest, append_empty by (done || by apply digits_lack). done.
  - apply (bool_decide_unpack (_ ∉ _)). by vm_compute.
  - right. exists d, (ds +:+ rest)%string. split; [done|]. by intros ->.
Qed.

Lemma rsplit_lacks c s : lacks (String c "") s = true → rsplit_once c s = None.
Proof.
  induction s as [|x s IH]; [done|]. rewrite lacks_cons. intros [Hx Hs]. cbn [rsplit_once]. rewrite (IH Hs).
  destruct (Ascii.eqb_spec x c) as [->|]; [|done]. destruct Hx. by left.
Qed.
Lemma rsplit_port c a s : lacks (String c "") s = true → rsplit_once c (a +:+ String c s) = Some (a, s).
Proof.
  intros Hs. induction a as [|x a IH].
  - change ("" +:+ String c s)%string with (String c s). cbn [rsplit_once]. by rewrite rsplit_lacks, Ascii.eqb_refl.
  - change (String x a +:+ String c s)%string with (String x (a +:+ String c s)). cbn [rsplit_once]. by rewrite IH.
Qed.
Lemma take_until_app c a x : lacks (String c "") a = true → take_until [c] (a +:+ String c x) = a.
Proof.
  induction a as [|b a IH].
  - intros _. change ("" +:+ String c x)%string with (String c x). cbn [take_until existsb]. by rewrite Ascii.eqb_refl.
  - rewrite lacks_cons. intros [Hb Ha]. change (String b a +:+ String c x)%string with (String b (a +:+ String c x)).
    cbn [take_until existsb]. rewrite IH by done. destruct (Ascii.eqb_spec b c) as [->|]; [|done]. destruct Hb. by left.
Qed.

Lemma url_host_of host u : url_of host u → url_host u = host.
Proof.
  intros [scheme port rest Hs Hh Hp Hr|scheme port rest Hs Hh Hp Hr]; unfold url_host;
    rewrite second_part_scheme by done; cbn [unwrap_or].
  - assert (lacks ":/?" host = true) as Hh1 by (eapply lacks_mono; [|exact Hh]; simpl; set_solver).
    assert (lacks ":" host = true) as Hh2 by (eapply lacks_mono; [|exact Hh]; simpl; set_solver).
    rewrite authority_plain, authority_port by done. cbv zeta.
    assert (strip_prefix "[" (host +:+ port) = None) as ->.
    { destruct (strip_prefix _ _) as [r|] eqn:E; [|done]. apply strip_prefix_iff in E. destruct host as [|c host].
      - destruct Hp as [->|(d & ds & -> & _)]; discriminate E.
      - injection E as -> _. apply lacks_cons in Hh as [Hc _]. destruct Hc. simpl. set_solver. }
    destruct Hp as [->|(d & ds & -> & Hd)].
    + rewrite append_empty, rsplit_lacks; done.
    + rewrite rsplit_port; [by rewrite Hd|]. by apply digits_lack.
  - assert (lacks "]" host = true) as Hh1 by (eapply lacks_mono; [|exact Hh]; simpl; set_solver).
    assert (lacks "/?" (String (chr 91) host) = true) as Hh2.
    { apply lacks_cons. split; [apply (bool_decide_unpack (_ ∉ _)); by vm_compute|].
      eapply lacks_mono; [|exact Hh]. simpl. set_solver. }
    change (String (chr 93) port +:+ rest)%string with (String (chr 93) (port +:+ rest)).
    rewrite authority_before by done. change (String (chr 93) (port +:+ rest))%string with (String (chr 93) "" +:+ (port +:+ rest))%string.
    rewrite authority_plain, authority_port by done. cbv zeta.
    change (String (chr 91) host +:+ (String (chr 93) "" +:+ port))%string with (String (chr 91) (host +:+ String (chr 93) port)).
    assert (strip_prefix "[" (String (chr 91) (host +:+ String (chr 93) port)) = Some (host +:+ String (chr 93) port)%string) as ->
      by by apply strip_prefix_iff.
    by apply take_until_app.
Qed.

Lemma take_until_split c s : lacks (String c "") (take_until [c] s) = true
  ∧ (s = take_until [c] s ∨ ∃ r, s = (take_until [c] s +:+ String c r)%string).
Proof.
  induction s as [|x s [Hl Hs]]; [by split; [|left]|]. cbn [take_until existsb].
  destruct (Ascii.eqb_spec x c) as [->|Hne]; cbn [orb]; [split; [done|]; right; by exists s|].
  split; [apply lacks_cons; split; [|done]; by intros ->%list_elem_of_singleton|].
  destruct Hs as [E|[r E]]; [left; exact (f_equal (String x) E)|right; exists r; exact (f_equal (String x) E)].
Qed.
Lemma contains_char c s : contains (String c "") s = false ↔ lacks (String c "") s = true.
Proof.
  induction s as [|x s IH]; [done|]. cbn [contains]. rewrite orb_false_iff, IH, lacks_cons.
  unfold starts_with. cbn [strip_prefix]. destruct (Ascii.eqb_spec c x) as [->|Hne]; cbn.
  - split; [by intros []|]. intros [Hx _]. destruct Hx. by left.
  - rewrite list_elem_of_singleton. split; intros []; split; auto.
Qed.
(** ** Facts: tokens *)

Section tokens_facts.
Context (read : string → result string string) (var : string → option string).
Context (loopback : string → option bool) (binds : string → bool).
Abbreviation here := (is_this_machine read loopback binds).

(** This machine's name, as the kernel has it, else as [/etc/hostname] says. *)
Definition hostname_text (me : string) : Prop :=
  (∃ s, read "/proc/sys/kernel/hostname" = Ok s ∧ me = trim s)
  ∨ is_err (read "/proc/sys/kernel/hostname") = true ∧ ∃ s, read "/etc/hostname" = Ok s ∧ me = trim s.
(** This machine: no host at all or [localhost]; a loopback address, or one
    a socket can be bound to here; this machine's name, or its name up to the
    first dot by a host without dots. A host of that short name in another
    domain is not this machine. *)
Definition this_machine (host : string) : Prop :=
  host = ""%string ∨ host = "localhost"%string
  ∨ (∃ l, loopback host = Some l ∧ (l = true ∨ binds host = true))
  ∨ loopback host = None ∧ ∃ me, hostname_text me ∧ me ≠ ""%string
      ∧ (lowercase host = lowercase me
         ∨ lacks "." host = true ∧ ∃ short domain, lacks "." short = true
             ∧ (me = short ∨ me = short +:+ String (chr 46) domain)%string ∧ lowercase host = lowercase short).

Lemma here_this_machine host u : url_of host u → here u = true → this_machine host.
Proof.
  intros Hu. unfold is_this_machine. rewrite (url_host_of host u Hu). cbv zeta. unfold this_machine.
  destruct (host == "")%string eqn:E1; [apply eqb_prop in E1; auto|].
  destruct (host == "localhost")%string eqn:E2; [apply eqb_prop in E2; auto|]. cbn [orb].
  destruct (loopback host) as [l|].
  { rewrite orb_true_iff. intros Hl. right. right. left. exists l. auto. }
  rewrite andb_true_iff, orb_true_iff, andb_true_iff, neqb_true, negb_true_iff. intros [Hne Hname]. right. right. right.
  split; [done|]. exists (my_name read). split; [|split; [done|]].
  - unfold my_name, hostname_text in *. destruct (read "/proc/sys/kernel/hostname"%string) as [s|e]; [left; eauto|].
    right. split; [done|]. destruct (read "/etc/hostname"%string) as [s|e2]; [eauto|done].
  - unfold eq_ignore_ascii_case in Hname. destruct Hname as [Hx%eqb_prop|[Hdot Hx%eqb_prop]]; [by left|].
    right. split; [by apply contains_char|]. destruct (take_until_split (chr 46) (my_name read)) as [Hl Hs].
    destruct Hs as [E|[r E]]; exists (take_until [chr 46] (my_name read)).
    + exists ""%string. split; [exact Hl|]. split; [by left|done].
    + exists r. split; [exact Hl|]. split; [by right|done].
Qed.

(** *** Which token *)

(** A variable that is set, and not blank. *)
Definition var_token (k t : string) : Prop := ∃ v, var k = Some v ∧ trim v ≠ ""%string ∧ t = trim v.
(** The text of a file, trimmed, when there is one. *)
Definition file_token (f t : string) : Prop := ∃ s, read f = Ok s ∧ t = trim s ∧ trim s ≠ EmptyString.
Lemma env_set_iff k v : env_set var k = Some v ↔ var k = Some v ∧ trim v ≠ ""%string.
Proof. unfold env_set. rewrite opt_filter_Some. by rewrite neqb_true. Qed.
Lemma env_set_token k v : env_set var k = Some v → var_token k (trim v).
Proof. intros [? ?]%env_set_iff. by exists v. Qed.
Lemma token_search_files_Some files why t src : token_search_files read trim files why = (Some t, src) →
  ∃ f, f ∈ files ∧ file_token f t.
Proof.
  revert why. induction files as [|f files IH]; intros why; simpl; [done|].
  assert (∀ w, token_search_files read trim files w = (Some t, src) → ∃ g, g ∈ f :: files ∧ file_token g t) as Hr.
  { intros w Hw. destruct (IH w Hw) as (g & ? & ?). exists g. split; [by right|done]. }
  destruct (read f) as [s|e] eqn:Hf; [|apply Hr]. destruct (trim s != "")%string eqn:Hs; [|apply Hr].
  intros [= <- _]. exists f. split; [by left|]. exists s. split_and!; [done|done|by apply neqb_prop].
Qed.
Lemma token_search_None files t : (token_search read trim None files).1 = Some t → ∃ f, f ∈ files ∧ file_token f t.
Proof.
  unfold token_search. destruct (token_search_files read trim files []) as [o src] eqn:E. cbn [fst]. intros ->.
  by apply token_search_files_Some in E.
Qed.
Lemma token_search_one f t : (token_search read trim None [f]).1 = Some t → file_token f t.
Proof. by intros (g & ->%list_elem_of_singleton & ?)%token_search_None. Qed.
Lemma elem_of_dedup x l : x ∈ dedup l → x ∈ l.
Proof.
  induction l as [|y l IH]; cbn [dedup]; [done|]. destruct (dedup l) as [|z t] eqn:E.
  - rewrite list_elem_of_singleton. intros ->. by left.
  - case_match; intros Hx; [right; by apply IH|]. apply elem_of_cons in Hx as [->|Hx]; [by left|right; by apply IH].
Qed.

(** A token every engine may see: the variable or the shared file. *)
Definition shared_token (c : LocalConfig) (t : string) : Prop :=
  var_token "STORMBLOCK_API_TOKEN" t ∨ ∃ f, lc_shared_token_file c = Some f ∧ file_token f t.
(** One this machine's engine minted: in the file the configuration or the
    environment names, or in a usual one. *)
Definition minted_token (c : LocalConfig) (t : string) : Prop :=
  ∃ f, file_token f t
    ∧ ((∃ g, lc_token_file c = Some g ∧ f = trim g) ∨ var_token "STORMBLOCK_TOKEN_FILE" f
       ∨ f ∈ ["/etc/stormblock/api_token"; "/var/lib/stormblock/api_token"; "/run/stormblock/engine/api_token"])%string.
(** The [[kubernetes]] bearer. *)
Definition bearer (c : KubeConfig) (t : string) : Prop :=
  var_token "KUBE_TOKEN" t
  ∨ ∃ f, file_token f t
    ∧ ((∃ g, kc_token_file c = Some g ∧ f = trim g)
       ∨ f ∈ ["/data/stormcert/node-admin.token"; "/var/run/secrets/kubernetes.io/serviceaccount/token"])%string.

Lemma local_token_for_Some c u t : (local_token_for read var loopback binds c u).1 = Some t →
  shared_token c t ∨ (here u = true ∧ minted_token c t).
Proof.
  unfold local_token_for, token_for.
  destruct (token_search read trim (env_set var "STORMBLOCK_API_TOKEN") (option_list (lc_shared_token_file c))) as [[x|] src] eqn:E;
    cbn [is_some is_none negb fst].
  - intros [= ->]. left. destruct (env_set var "STORMBLOCK_API_TOKEN") as [v|] eqn:Hv.
    + left. injection E as <- _. by apply env_set_token.
    + right. destruct (token_search_None (option_list (lc_shared_token_file c)) t) as (f & Hf & ?); [by rewrite E|].
      destruct (lc_shared_token_file c) as [g|]; simpl in Hf.
      * apply list_elem_of_singleton in Hf as ->. eauto.
      * by apply not_elem_of_nil in Hf.
  - destruct (here u) eqn:Hu; cbn [negb]; [|done]. intros Ht. right. split; [done|].
    apply token_search_None in Ht as (f & Hf & Ht). exists f. split; [done|].
    apply elem_of_dedup in Hf. rewrite map_app, !elem_of_app in Hf. destruct Hf as [[Hf|Hf]|Hf]; [left|right; left|by right; right].
    + destruct (lc_token_file c) as [g|]; [|by apply not_elem_of_nil in Hf]. apply list_elem_of_singleton in Hf as ->. eauto.
    + destruct (env_set var "STORMBLOCK_TOKEN_FILE") as [g|] eqn:Eg; [|by apply not_elem_of_nil in Hf].
      apply list_elem_of_singleton in Hf as ->. by apply env_set_token.
Qed.
Lemma kube_token_Some c t : kube_token read var c = Some t → bearer c t.
Proof.
  unfold kube_token, kube_token_source. destruct (env_set var "KUBE_TOKEN") as [v|] eqn:Hv.
  - intros [= <-]. left. by apply env_set_token.
  - intros (f & Hf & Ht)%token_search_None. right. exists f. split; [done|].
    apply elem_of_dedup in Hf. rewrite elem_of_app in Hf. destruct Hf as [Hf|Hf]; [left|by right].
    destruct (kc_token_file c) as [g|]; [|by apply not_elem_of_nil in Hf]. apply list_elem_of_singleton in Hf as ->. eauto.
Qed.
End tokens_facts.

(** C21: Which token an engine is presented, by its URL [u], of the host
    [host]. The node's own ([api_token], else its file), else the one all
    engines share, else, when the host is this machine, the one its engine
    minted, else, for the URL of a cluster member alone, the [[kubernetes]]
    bearer. So an engine on a host that is not this machine, a same-named
    host of another domain included, and that no member announced is never
    shown a minted token or the bearer. Its destructive verbs are presented
    the admin token from the environment, on this machine the admin file's,
    and otherwise the bearer, whatever engine it is. *)
Theorem tokens_stay_home (read : string → result string string) (var : string → option string)
    (loopback : string → option bool) (binds : string → bool) (c : Settings) (engines : gset string) (node : NodeConfig)
    (host : string) (Hurl : url_of host (nc_engine_url node)) :
  (∀ t, engine_token read var loopback binds c engines node = Some t →
     (∃ own, nc_api_token node = Some own ∧ t = trim own)
     ∨ (∃ f, nc_token_file node = Some f ∧ file_token read f t)
     ∨ shared_token read var (local c) t
     ∨ (this_machine read loopback binds host ∧ minted_token read var (local c) t)
     ∨ (trim_end_matches slash (nc_engine_url node) ∈ engines ∧ bearer read var (kubernetes c) t))
  ∧ ∀ t, admin_credential read var loopback binds c (nc_engine_url node) = Some t →
     var_token var "STORMBLOCK_ADMIN_TOKEN" t
     ∨ (this_machine read loopback binds host ∧ ∃ f, lc_admin_token_file (local c) = Some f ∧ file_token read f t)
     ∨ bearer read var (kubernetes c) t.
Proof.
  pose proof (here_this_machine read loopback binds host _ Hurl) as Hhere. split.
  - intros t. unfold engine_token, engine_token_source.
    destruct (opt_filter _ (fmap (M:=option) trim (nc_api_token node))) as [own|] eqn:Ho.
    { intros [= ->]. left. apply opt_filter_Some in Ho as [Ho _]. destruct (nc_api_token node) as [o|]; [|done].
      injection Ho as <-. eauto. }
    clear Ho. set (from := match nc_token_file node with Some f => _ | None => _ end).
    destruct (is_some from.1) eqn:Hf.
    { intros Ht. right. left. unfold from in Ht. destruct (nc_token_file node) as [f|]; [|done].
      exists f. split; [done|]. by apply token_search_one. }
    cbv zeta. destruct (local_token_for read var loopback binds (local c) (nc_engine_url node)) as [o src] eqn:El.
    assert (o = Some t → (shared_token read var (local c) t
              ∨ this_machine read loopback binds host ∧ minted_token read var (local c) t)) as Hl.
    { intros ->. destruct (local_token_for_Some read var loopback binds (local c) (nc_engine_url node) t) as [?|[? ?]];
        [by rewrite El|auto..]. }
    cbn [fst]. destruct (is_some o) eqn:Hs; [cbn [fst]; tauto|].
    destruct (bool_decide _) eqn:Hm; [apply bool_decide_eq_true in Hm|cbn [fst]; tauto].
    destruct (kube_token read var (kubernetes c)) as [k|] eqn:Ek; cbn [fst]; [|tauto]. intros [= ->].
    apply kube_token_Some in Ek. tauto.
  - intros t. unfold admin_credential, admin_token_for.
    destruct (env_set var "STORMBLOCK_ADMIN_TOKEN") as [v|] eqn:Ev; [intros [= <-]; left; by apply env_set_token|].
    assert (kube_token read var (kubernetes c) = Some t → bearer read var (kubernetes c) t) as Hk by apply kube_token_Some.
    destruct (lc_admin_token_file (local c)) as [f|]; [|simpl; auto].
    destruct (is_this_machine read loopback binds (nc_engine_url node)) eqn:Hh; cbn [negb]; [|simpl; auto].
    destruct (token_search read trim None [f]).1 as [x|] eqn:Ex; simpl; [|auto].
    intros [= ->]. right. left. split; [auto|]. exists f. split; [done|]. by apply token_search_one.
Qed.

(** ** Examples *)

Section example.
Local Open Scope string_scope.
Lemma validate_spec_witness :
  validate (λ _, None) Settings_default = Ok tt
  ∧ is_err (validate (λ _, None) (Settings_default <| store := StoreConfig_default <| sc_backend := BackendEtcd |> |>)) = true
  ∧ ∀ a b, host_nqn_for LegsConfig_default a = host_nqn_for LegsConfig_default b → a = b.
Proof.
  assert (validate (λ _, None) Settings_default = Ok tt) as Hv by (vm_compute; reflexivity).
  split; [exact Hv|]. split; [vm_compute; reflexivity|].
  exact (proj2 (validate_spec (λ _, None) Settings_default) Hv).
Defined.

(** A machine that has minted a token, on a cluster whose bearer it holds. *)
Definition minted_files (f : string) : result string string :=
  if f == "/run/stormblock/engine/api_token" then Ok "minted"
  else if f == "/data/stormcert/node-admin.token" then Ok "bearer" else Err "no such file".
Definition token_at (engines : gset string) (u : string) : option string :=
  engine_token minted_files (λ _, None) (λ h, if h == "127.0.0.1" then Some true else None) (λ _, false) Settings_default
    engines (MkNodeConfig "n" u None None None ∅ None).
Definition only_loopback (h : string) : option bool := if h == "127.0.0.1" then Some true else None.
Lemma tokens_stay_home_witness :
  token_at ∅ "http://127.0.0.1:9090" = Some "minted"
  ∧ token_at {["https://n2:9090"]} "https://n2:9090" = Some "bearer"
  ∧ token_at ∅ "https://n3:9090" = None
  ∧ (token_at ∅ "https://n3:9090" = Some "minted" → this_machine minted_files only_loopback (λ _, false) "n3").
Proof.
  split; [vm_compute; reflexivity|]. split; [vm_compute; reflexivity|]. split; [vm_compute; reflexivity|].
  assert (url_of "n3" "https://n3:9090") as Hurl.
  { refine (url_name "n3" "https" ":9090" "" _ _ _ _); [reflexivity|reflexivity| |by left].
    right. exists (chr 57), "090". split; reflexivity. }
  intros Ht.
  pose proof (proj1 (tokens_stay_home minted_files (λ _, None) only_loopback (λ _, false)
    Settings_default ∅ (MkNodeConfig "n" "https://n3:9090" None None None ∅ None) "n3" Hurl) "minted" Ht) as Hs.
  destruct Hs as [(own & Ho & _)|[(f & Hf & _)|[[(v & Hv & _)|(f & Hf & _)]|[[Hh _]|[Hm _]]]]].
  - discriminate Ho.
  - discriminate Hf.
  - discriminate Hv.
  - discriminate Hf.
  - exact Hh.
  - exfalso. revert Hm. apply not_elem_of_empty.
Defined.

(** An engine that only announced itself is shown no token on an ordinary
    call, but the cluster's bearer on a destructive one. *)
Example announced_engine_gets_bearer :
  token_at ∅ "https://n3:9090" = None
  ∧ admin_credential minted_files (λ _, None) (λ _, None) (λ _, false) Settings_default "https://n3:9090" = Some "bearer".
Proof. split; vm_compute; reflexivity. Qed.

(** The certificate of an apiserver elsewhere is not verified when its name
    begins like a loopback one. *)
Example unverified_beyond_loopback :
  skip_tls_verify (KubeConfig_default <| kc_server := "https://localhost.example.com:6443" |>) = true
  ∧ skip_tls_verify (KubeConfig_default <| kc_server := "https://127.example.com:6443" |>) = true.
Proof. split; vm_compute; reflexivity. Qed.
End example.
