(* ===== verification/Registry.v ===== *)
(** * The node registry (src/registry.rs, parts of src/kube.rs and src/api/mod.rs)

    Which nodes there are (from the cluster's members, from the engine on
    this machine and its peers, from heartbeats) and how they are: the poll
    of each node's capacity, its health, inventory and I/O rate, the
    apiserver's view, and the poll as a whole, which ends with the
    reconciler's pass on the instance that leads. Shown: a node's health
    after any history of polls is what a count of the last outage says, and
    an outage is reported exactly once. *)

From stdpp Require Import relations.
From S2P Require Import Settings.
From S2P Require Import Prelude F64 Config Model Placement Events Refusal Async Json Inventory Kube Sync.
From S2P Require Import Recovery App Engine Publish Replace Head Fencing Moves Rebalance Backups VmMigrate Reconcile.
From stdpp Require Import options.

Local Open Scope string_scope.

#[export] Instance NodeConfig_eta : Eta NodeConfig := λ r,
  MkNodeConfig (nc_name r) (nc_engine_url r) (nc_api_token r) (nc_token_file r) (nc_ca_file r) (nc_labels r) (nc_tier r).

(** [engine_url_from]. *)
Definition engine_url_from (node_addr scheme : string) : string :=
  if contains "://" node_addr then trim_end_matches slash node_addr
  else if contains ":" node_addr then scheme +:+ "://" +:+ node_addr
  else scheme +:+ "://" +:+ node_addr +:+ ":9090".

(** [Engine::new]. *)
Definition Engine_new (u : string) (t : option string) : Engine :=
  {| url := trim_end_matches slash u; token := t; admin := None |}.

(** ** A poll's result on a node *)

Definition polled_ok (cap : Capacity) (now : time) (st : NodeStatus) : NodeStatus :=
  st <| healthy := true |> <| consecutive_failures := 0%Z |> <| last_ok := Some now |>
     <| total_bytes := cap_total_bytes cap |> <| free_bytes := cap_free_bytes cap |>
     <| engine_topology := cap_topology cap |>.
(** The status, and whether the outage is reported now. *)
Definition polled_err (threshold : Z) (st : NodeStatus) : NodeStatus * bool :=
  let st := st <| consecutive_failures ::= λ n, u32_add n 1 |> in
  let flipping := healthy st && (threshold <=? consecutive_failures st)%Z in
  let st := if flipping then st <| healthy := false |> else st in
  (st, flipping || (consecutive_failures st =? threshold)%Z).

(** ** Nodes found *)

(** A node of another source that covers this engine or this name. *)
Definition covered_by_other (src : NodeSource) (nc : NodeConfig) (fd : FedState) : bool :=
  existsb (λ n, (source (status n) != src)
                && ((nc_name (config n) == nc_name nc) || (nc_engine_url (config n) == nc_engine_url nc)))
    (bt_values (nodes fd)).
(** The node is reconfigured, or made and told. *)
Definition adopt_node (src : NodeSource) (st : FedState * list string) (nc : NodeConfig) : FedState * list string :=
  let '(fd, adopted) := st in
  if covered_by_other src nc fd then st
  else match nodes fd !! nc_name nc with
       | Some n => (fd <| nodes ::= <[nc_name nc := n <| config := nc |>]> |>, adopted)
       | None => (fd <| nodes ::= <[nc_name nc := MkNode nc (NodeStatus_new src)]> |>,
                  (adopted ++ [nc_name nc +:+ " (" +:+ nc_engine_url nc +:+ ")"])%list)
       end.
Definition adopt_nodes (src : NodeSource) (wanted : list NodeConfig) (fd : FedState) : FedState * list string :=
  foldl (adopt_node src) (fd, []) wanted.
(** [retain]: the nodes kept, and the names of the others. *)
Definition retain_nodes (stays : string → Node → bool) (fd : FedState) : FedState * list string :=
  (fd <| nodes ::= filter (λ kv, stays kv.1 kv.2 = true) |>,
   map fst (List.filter (λ kv, negb (stays kv.1 kv.2)) (bt_list (nodes fd)))).
Definition named_in (wanted : list NodeConfig) (nm : string) : bool := existsb (λ nc, nc_name nc == nm) wanted.

(** The node a member or a peer is. *)
Definition node_of (nm u : string) (ls : gmap string string) (tier : option string) : NodeConfig :=
  MkNodeConfig nm u None None None ls tier.

Section registry.
Context {J : Type} `{Json J} `{HttpShow} `{FloatShow}.
Context `{Deserialize J EngineVolume} `{Deserialize J Slab} `{Deserialize J Discovery}.
Context (cfg : Config) (engine_token : NodeConfig → option string) (admin_credential : string → option string).
Context (fuel : nat).
(** What the configuration, the files and the machine say. *)
Context (local : LocalConfig) (kubernetes : KubeConfig) (address_scheme : string).
Context (local_token : option string) (token_source : string → string).
Context (kube_token : option string) (kube_token_source : string) (kube_client : result unit EngineError).
Context (is_this_machine : string → bool) (hostname : option string).
Context (fingerprint : option string → Z).
Context (parse_f64 : string → option f64) (lines_of : string → list string).

Definition node_event (subj : option string) (sev : Severity) (knd msg : string) : handler J unit :=
  let! now := invoke Now in
  writes (λ s, s <| events ::= λ e, (push e now subj sev knd msg).1 |>).
Definition tell_all (subj : string → option string) (sev : Severity) (knd : string) (msg : string → string) (l : list string)
    : handler J unit :=
  for_each (λ x, node_event (subj x) sev knd (msg x)) l.

(** ** Calls an engine that refuses us is spared *)

(** [backing_off]. *)
Definition backing_off (e : Engine) (t : option string) : handler J (option Z) :=
  let! now := invoke Now in
  reads (λ s, if may_call fingerprint (refusals s) (url e) t now then None else retry_in (refusals s) (url e) now).
(** [note_outcome]: the error when there was one. *)
Definition refused_record (e : Engine) (t : option string) (now : time) (s : App) : App * Report :=
  let '(r, rep) := refused fingerprint (refusals s) (url e) t (secs (Z.max (interval_secs (poll cfg)) 1)) now in
  (s <| refusals := r |>, rep).
Definition accepted_record (e : Engine) (s : App) : App * bool :=
  let '(r, was) := accepted (refusals s) (url e) in (s <| refusals := r |>, was).
Definition note_outcome (node : option string) (e : Engine) (t : option string) (err : option EngineError) : handler J unit :=
  let what := unwrap_or (url e) node in
  match opt_filter is_refused err with
  | None =>
      if is_none err then
        let! was := atomic (accepted_record e) in
        if was : bool then
          node_event node Info "auth" (what +:+ ": engine accepts stormstorage's token again (" +:+ url e +:+ ")")
        else Ret tt
      else Ret tt
  | Some x =>
      let! now := invoke Now in
      let! rep := atomic (refused_record e t now) in
      match rep with
      | First =>
          node_event node Error "auth" (what +:+ ": " +:+ err_text x +:+ "; sent "
            +:+ (if is_some t then "a token" else "no token") +:+ " (engine token: " +:+ token_source (url e) +:+ ")")
      | _ => Ret tt
      end
  end.
(** [call_capacity]. *)
Definition call_capacity (node : option string) (e : Engine) (t : option string) : handler J (result Capacity EngineError) :=
  let! wait := backing_off e t in
  match wait with
  | Some w => Ret (Err (anyhow ("engine refuses stormstorage's token; next try in " +:+ pretty (w / 10 ^ 9)%Z +:+ "s")))
  | None =>
      let! r := capacity e in
      note_outcome node e t (match r with Err x => Some x | Ok _ => None end) ;!
      Ret r
  end.

(** ** What a node holds and does *)

Definition owner_step (e : Engine) (owners : gmap string (gset string)) (sl : Slab)
    : handler J (result (gmap string (gset string)) EngineError) :=
  let!? ids := slab_volume_ids e (slab_id sl) in
  Ret (Ok (foldl (λ m vid, <[vid := {[slab_id sl]} ∪ unwrap_or ∅ (m !! vid)]> m) owners ids)).
Definition read_inventory (e : Engine) : handler J (result NodeInventory EngineError) :=
  let!? slabs := list_slabs e in
  let!? volumes := list_engine_volumes e in
  let!? owners := (if needs_slot_scan volumes then for_try (owner_step e) ∅ slabs else Ret (Ok ∅)) in
  let! now := invoke Now in
  Ret (Ok (MkNodeInventory slabs (place slabs volumes owners) (Some now) None)).
Definition set_status (nm : string) (f : NodeStatus → NodeStatus) (s : App) : App :=
  s <| fed ::= λ fd, fd <| nodes ::= alter (λ n, n <| status ::= f |>) nm |> |>.
Definition refresh_inventory (nm : string) (e : Engine) : handler J unit :=
  let! r := read_inventory e in
  match r with
  | Ok inv =>
      let! claims_ := reads (λ s, kv_claims (kube s)) in
      let inv := kube_join nm inv claims_ in
      writes (λ s, s <| inventory ::= <[nm := inv]> |>) ;!
      writes (set_status nm (λ st, st <| ns_volumes := Z.of_nat (length (inv_volumes inv)) |>))
  | Err x =>
      writes (λ s, s <| inventory ::= λ m,
        <[nm := (unwrap_or NodeInventory_default (m !! nm)) <| inv_error := Some (err_text x) |>]> m |>)
  end.
Definition io_noted (cur : IoSample) (now : time) (st : NodeStatus) : NodeStatus :=
  let st := match io_rate (io_sample st) cur now with Some r => st <| io := Some r |> | None => st end in
  st <| io_sample := Some cur |>.
Definition refresh_io (nm : string) (e : Engine) : handler J unit :=
  let! r := io_counters parse_f64 lines_of e in
  match r with
  | Ok (Some (count, sum)) =>
      let! at_ := invoke Now in
      let! now := invoke Now in
      writes (set_status nm (io_noted (MkIoSample count sum at_) now))
  | _ => Ret tt
  end.

(** ** The apiserver (src/kube.rs) *)

Definition kube_get (path : string) : handler J (result (Z * option J) EngineError) :=
  let! r := invoke (Http GET (trim_end_matches slash (kc_server kubernetes) +:+ path) kube_token [] None) in
  Ret (map_err anyhow r).
Definition kube_unread (path : string) (st : Z) : EngineError :=
  anyhow ("GET " +:+ path +:+ ": " +:+ status_show st +:+ " (token: " +:+ kube_token_source +:+ ")").
Definition kube_items (body : option J) : result (list J) EngineError :=
  map_err anyhow (ok_or (fmap (M:=option) (λ b, items_of (idx "items" b)) body) decode_error).
(** [kube::members]. *)
Definition MEMBERS_PATH : string := "/apis/cluster.storm.io/v1alpha1/clustermembers".
Definition kube_members : handler J (result (list Kube.Member) EngineError) :=
  let!? _ := Ret kube_client in
  let!? resp := kube_get MEMBERS_PATH in
  Ret (if (resp.1 =? 404)%Z then Ok []
       else if negb (is_success resp.1) then Err (kube_unread MEMBERS_PATH resp.1)
       else let? l := kube_items resp.2 in Ok (members_of l)).
(** [fetch]: the volumes and the claims. *)
Definition kube_list (path : string) : handler J (result (list J) EngineError) :=
  let!? resp := kube_get path in
  Ret (if negb (is_success resp.1) then Err (kube_unread path resp.1) else kube_items resp.2).
Definition kube_fetch : handler J (result (list J * list J) EngineError) :=
  let!? _ := Ret kube_client in
  let!? pvs := kube_list "/api/v1/persistentvolumes" in
  let!? pvcs := kube_list "/api/v1/persistentvolumeclaims" in
  Ret (Ok (pvs, pvcs)).
(** What a reading makes of the view, and what is told of it. *)
Definition was_ok (v : KubeView) : bool := is_some (kv_fetched_at v) && is_none (kv_error v).
Definition never_read (v : KubeView) : bool := is_none (kv_fetched_at v) && is_none (kv_error v).
Definition note_view (r : result (list J * list J) EngineError) (now : time) (v : KubeView)
    : KubeView * option (Severity * string) :=
  match r with
  | Ok (pvs, pvcs) =>
      let claims_ := Kube.view_of pvs pvcs in
      (v <| kv_claims := claims_ |> <| kv_fetched_at := Some now |> <| kv_error := None |>,
       if was_ok v then None
       else Some (Info, "kubernetes " +:+ kc_server kubernetes +:+ ": " +:+ pretty (Z.of_nat (size claims_)) +:+ " stormblock PVs read"))
  | Err x =>
      (v <| kv_error := Some (err_text x) |>,
       if was_ok v || never_read v
       then Some (Warning, "kubernetes " +:+ kc_server kubernetes
                   +:+ ": PVs not readable, node volumes show no PV/PVC: " +:+ err_text x)
       else None)
  end.
Definition kube_refresh : handler J unit :=
  if negb (kc_enabled kubernetes) then Ret tt
  else
    let! r := kube_fetch in
    let! now := invoke Now in
    let! news := atomic (λ s, let '(v, news) := note_view r now (kube s) in (s <| kube := v |>, news)) in
    (match news with Some (sev, msg) => node_event None sev "kubernetes" msg | None => Ret tt end) ;!
    let! claims_ := reads (λ s, kv_claims (kube s)) in
    writes (λ s, s <| inventory ::= map_imap (λ nm inv, Some (kube_join nm inv claims_)) |>).

(** ** Which nodes there are *)

(** [adopt_members]: the member on this machine is left to [adopt_local]. *)
Definition on_this_machine (m : Kube.Member) : bool :=
  is_this_machine (engine_url_from (mb_address m) address_scheme)
  || is_some_and (λ h, same_node h (mb_name m)) hostname.
Definition member_here (m : Kube.Member) : bool := on_this_machine m && lc_enabled local.
Definition member_node (m : Kube.Member) : NodeConfig :=
  node_of (mb_name m) (engine_url_from (mb_address m) address_scheme)
    {["storage" := if mb_storage m then "true" else "false"]} (lc_tier local).
Definition wanted_members (l : list Kube.Member) : list NodeConfig := map member_node (List.filter (λ m, negb (member_here m)) l).
Definition local_member (l : list Kube.Member) : option string := last (map mb_name (List.filter member_here l)).
Definition member_stays (wanted : list NodeConfig) (nm : string) (n : Node) : bool :=
  (source (status n) != Model.Member) || named_in wanted nm.
Definition adopt_members_record (wanted : list NodeConfig) (s : App) : App * (list string * list string) :=
  let '(fd, dropped) := retain_nodes (member_stays wanted) (fed s) in
  let '(fd, adopted) := adopt_nodes Model.Member wanted fd in
  (s <| fed := fd |>, (adopted, dropped)).
Definition members_note (e : string) : string := "members:" +:+ e.
Definition adopt_members : handler J unit :=
  let! r := kube_members in
  match r with
  | Err x =>
      let! first := atomic (note_once (members_note (err_text x))) in
      if first then node_event None Warning "adopt" ("cluster members not readable, the nodes known stay: " +:+ err_text x) else Ret tt
  | Ok l =>
      writes (λ s, s <| noted ::= filter (λ k, starts_with (members_note "") k = false) |>) ;!
      let wanted := wanted_members l in
      writes (λ s, s <| app_members := MkMembers (list_to_set (map nc_engine_url wanted)) (local_member l) |>) ;!
      let! (adopted, dropped) := atomic (adopt_members_record wanted) in
      tell_all (λ _, None) Info "adopt" (λ a, "cluster member " +:+ a) adopted ;!
      tell_all Some Warning "adopt" (λ d, d +:+ ": no longer a cluster member — forgotten") dropped
  end.

(** [adopt_local]: this machine's engine and its cluster's live peers. *)
Definition local_name (member : option string) (d : option Discovery) : string :=
  unwrap_or "local" (opt_or (opt_or (opt_or (lc_name local) member)
    (opt_filter (λ n, n != "") (fmap (M:=option) local_node d))) hostname).
Definition local_url : string := trim_end_matches slash (lc_engine_url local).
Definition wanted_local (nm : string) (d : option Discovery) : list NodeConfig :=
  node_of nm local_url ∅ (lc_tier local)
  :: (if lc_cluster_peers local
      then map (λ p, node_of (node_name p) (engine_url_from (mgmt_addr p) address_scheme) ∅ (lc_tier local))
             (map_or [] cluster_peers d)
      else []).
(** Without an answer of the discovery, peers are not judged. *)
Definition local_stays (judge_peers : bool) (wanted : list NodeConfig) (nm : string) (n : Node) : bool :=
  (source (status n) != Local) || named_in wanted nm
  || (negb judge_peers && (nc_engine_url (config n) != local_url)).
Definition adopt_local_record (judge_peers : bool) (wanted : list NodeConfig) (s : App) : App * (list string * list string) :=
  let '(fd, adopted) := adopt_nodes Local wanted (fed s) in
  let '(fd, dropped) := retain_nodes (local_stays judge_peers wanted) fd in
  (s <| fed := fd |>, (adopted, dropped)).
(** The discovery's answer; [None]: the engine refuses us. *)
Definition local_discovery (e : Engine) : handler J (option (option Discovery)) :=
  let! r := discovery e in
  match r with
  | Ok d => note_outcome None e local_token None ;! Ret (Some d)
  | Err x => note_outcome None e local_token (Some x) ;! Ret (if is_refused x then None else Some None)
  end.
Definition adopt_local : handler J unit :=
  let e := Engine_new (lc_engine_url local) local_token in
  let! wait := backing_off e local_token in
  if is_some wait then Ret tt
  else
    let! d := local_discovery e in
    match d with
    | None => Ret tt
    | Some d =>
        let! here := (if is_some d then Ret true
                      else let! c := call_capacity None e local_token in Ret (is_ok c)) in
        if negb here then Ret tt
        else
          let! member := reads (λ s, mem_local_name (app_members s)) in
          let wanted := wanted_local (local_name member d) d in
          let! (adopted, dropped) := atomic (adopt_local_record (is_some d || negb (lc_cluster_peers local)) wanted) in
          tell_all (λ _, None) Info "adopt" (λ a, "adopted " +:+ a) adopted ;!
          tell_all Some Warning "adopt" (λ x, x +:+ ": no longer this engine or its cluster peer — forgotten") dropped
    end.

(** ** The poll *)

Record PollDue := MkPollDue { pd_name : string; pd_url : string; pd_token : option string }.
Definition poll_due (s : App) : list PollDue :=
  map (λ n, MkPollDue (nc_name (config n)) (nc_engine_url (config n)) (engine_token (config n))) (bt_values (nodes (fed s))).
(** The node's status after the poll; [None]: the node is gone. *)
Definition ok_record (nm : string) (cap : Capacity) (now : time) (s : App) : App * option bool :=
  match nodes (fed s) !! nm with
  | None => (s, None)
  | Some n => (set_status nm (polled_ok cap now) s, Some (healthy (status n)))
  end.
Definition err_record (nm : string) (s : App) : App * option (NodeStatus * bool) :=
  match nodes (fed s) !! nm with
  | None => (s, None)
  | Some n =>
      let '(st, report) := polled_err (fail_threshold (poll cfg)) (status n) in
      (set_status nm (λ _, st) s, Some (st, report))
  end.
(** What a reachable node's poll goes on with; [false]: no such node. *)
Definition node_answered (d : PollDue) (cap : Capacity) : handler J bool :=
  let! now := invoke Now in
  let! was := atomic (ok_record (pd_name d) cap now) in
  match was with
  | None => Ret false
  | Some true => Ret true
  | Some false =>
      node_event (Some (pd_name d)) Info "node" (pd_name d +:+ ": engine reachable (" +:+ pd_url d +:+ ")") ;!
      let! lead := reads leads in
      (if lead : bool then republish_on engine_token admin_credential (pd_name d) else Ret tt) ;!
      Ret true
  end.
Definition node_silent (d : PollDue) (x : EngineError) : handler J unit :=
  let! r := atomic (err_record (pd_name d)) in
  match r with
  | None => Ret tt
  | Some (st, report) =>
      (if healthy st then Ret tt else writes (λ s, s <| inventory ::= delete (pd_name d) |>)) ;!
      if report : bool then
        node_event (Some (pd_name d)) Error "node" (pd_name d +:+ ": engine unusable after "
          +:+ pretty (consecutive_failures st) +:+ " polls: " +:+ err_text x)
      else Ret tt
  end.
Definition poll_node (d : PollDue) : handler J unit :=
  let e := Engine_new (pd_url d) (pd_token d) in
  let! r := call_capacity (Some (pd_name d)) e (pd_token d) in
  match r with
  | Ok cap =>
      let! there := node_answered d cap in
      if there : bool then refresh_inventory (pd_name d) e ;! refresh_io (pd_name d) e else Ret tt
  | Err x => node_silent d x
  end.
(** [Err]: the task ended by a panic of the reconciler. *)
Definition poll_once : handler J (result unit unit) :=
  let! store := reads (λ s, is_some (store_leads s)) in
  (if store && lc_cluster_members local && kc_enabled kubernetes then adopt_members else Ret tt) ;!
  (if lc_enabled local then adopt_local else Ret tt) ;!
  let! due := reads poll_due in
  for_each poll_node due ;!
  kube_refresh ;!
  refresh engine_token admin_credential ;!
  let! lead := reads leads in
  let!? _ := (if lead : bool then reconcile cfg engine_token admin_credential fuel else Ret (Ok tt)) in
  writes (λ s, s <| inventory ::= filter (λ kv, is_Some (nodes (fed s) !! kv.1)) |>) ;!
  invoke Persist ;!
  Ret (Ok tt).

(** ** Heartbeats (src/api/mod.rs) *)

Record Announce := MkAnnounce { an_node_addr : string; an_hostname : string; an_volumes : Z }.
Definition heard (u : string) (volumes : Z) (now : time) (n : Node) : Node :=
  let n := if source (status n) == Registered then n <| config ::= λ c, c <| nc_engine_url := u |> |> else n in
  n <| status ::= λ st, st <| ns_volumes := volumes |> <| last_ok := Some now |> <| healthy := true |>
                           <| consecutive_failures := 0%Z |> |>.
Definition register_record (a : Announce) (now : time) (s : App) : App * bool :=
  let u := engine_url_from (an_node_addr a) address_scheme in
  let is_new := is_none (nodes (fed s) !! an_hostname a) in
  let n := unwrap_or (MkNode (node_of (an_hostname a) u ∅ None) (NodeStatus_new Registered)) (nodes (fed s) !! an_hostname a) in
  (s <| fed ::= λ fd,
     let fd := fd <| nodes ::= <[an_hostname a := heard u (an_volumes a) now n]> |> in
     if is_new then bump fd else fd |>, is_new).
Definition register_node (a : Announce) : handler J unit :=
  let! now := invoke Now in
  let! is_new := atomic (register_record a now) in
  if is_new : bool then
    invoke PushToPeers ;!
    node_event (Some (an_hostname a)) Info "register" (an_hostname a +:+ ": self-registered from " +:+ an_node_addr a) ;!
    invoke Persist
  else Ret tt.
Definition deregister_record (u : string) (s : App) : App * option string :=
  (s <| fed ::= λ fd, fd <| nodes ::= fmap (λ n,
     if nc_engine_url (config n) == u then n <| status ::= λ st, st <| healthy := false |> |> else n) |> |>,
   last (map (λ n, nc_name (config n)) (List.filter (λ n, nc_engine_url (config n) == u) (bt_values (nodes (fed s)))))).
Definition deregister_node (node_addr : string) : handler J unit :=
  let! found := atomic (deregister_record (engine_url_from node_addr address_scheme)) in
  match found with
  | Some nm =>
      node_event (Some nm) Warning "register" (nm +:+ ": deregistered (clean shutdown)") ;!
      invoke Persist
  | None => Ret tt
  end.
End registry.

Local Close Scope string_scope.

(** ** Facts: a node's health *)

(** What is seen of a node: a poll it answers or not, a heartbeat, a clean
    shutdown it announces. *)
Inductive Seen :=
  | Answered (cap : Capacity) (at_ : time)
  | Silent
  | Heard (u : string) (volumes : Z) (at_ : time)
  | Left.
Definition seen_ok (o : Seen) : option time :=
  match o with Answered _ t | Heard _ _ t => Some t | _ => None end.

(** The lock sections that record it, and whether an outage is reported. *)
Definition record_seen (cfg : Config) (scheme nm : string) (s : App) (o : Seen) : App * bool :=
  match o with
  | Answered cap now => ((ok_record nm cap now s).1, false)
  | Silent => let '(s', r) := err_record cfg nm s in (s', is_some_and snd r)
  | Heard u v now => ((register_record scheme (MkAnnounce u nm v) now s).1, false)
  | Left => (match nodes (fed s) !! nm with
             | Some n => (deregister_record (nc_engine_url (config n)) s).1
             | None => s
             end, false)
  end.
Fixpoint record_all (cfg : Config) (scheme nm : string) (s : App) (h : list Seen) : App * list bool :=
  match h with
  | [] => (s, [])
  | o :: h => let '(s, b) := record_seen cfg scheme nm s o in
              let '(s, l) := record_all cfg scheme nm s h in (s, b :: l)
  end.

(** The reference: the last time it was heard of ([None] before the first),
    the polls missed since and whether it left since. *)
Record Outage := MkOutage { heard_at : option time; missed : nat; left_ : bool }.
Definition outage_step (o : Outage) (x : Seen) : Outage :=
  match x with
  | Answered _ t | Heard _ _ t => MkOutage (Some t) 0 false
  | Silent => MkOutage (heard_at o) (S (missed o)) (left_ o)
  | Left => MkOutage (heard_at o) (missed o) true
  end.
Definition outage (h : list Seen) : Outage := foldl outage_step (MkOutage None 0 false) h.
Definition up (threshold : Z) (o : Outage) : bool :=
  is_some (heard_at o) && negb (left_ o) && ((missed o =? 0)%nat || (Z.of_nat (missed o) <? threshold)%Z).
(** An outage is reported when it has lasted [threshold] polls. *)
Fixpoint reports (threshold : Z) (o : Outage) (h : list Seen) : list bool :=
  match h with
  | [] => []
  | x :: h => match x with Silent => (Z.of_nat (S (missed o)) =? threshold)%Z | _ => false end
              :: reports threshold (outage_step o x) h
  end.

Section health.
Context (cfg : Config) (scheme nm : string).
Abbreviation thr := (fail_threshold (poll cfg)).

Definition tracks (o : Outage) (st : NodeStatus) : Prop :=
  healthy st = up thr o ∧ last_ok st = heard_at o ∧ consecutive_failures st = (Z.of_nat (missed o) mod 2 ^ 32)%Z.

Lemma set_status_lookup f s n :
  nodes (fed s) !! nm = Some n → nodes (fed (set_status nm f s)) !! nm = Some (n <| status ::= f |>).
Proof. intros Hn. simpl. by rewrite lookup_alter_eq, Hn. Qed.

Lemma silent_tracks o st :
  (1 ≤ thr)%Z → (Z.of_nat (S (missed o)) < 2 ^ 32)%Z → tracks o st →
  tracks (outage_step o Silent) (polled_err thr st).1 ∧ (polled_err thr st).2 = (Z.of_nat (S (missed o)) =? thr)%Z.
Proof.
  intros Ht Hb (Hh & Hl & Hc). set (k := Z.of_nat (S (missed o))) in *.
  assert (u32_add (consecutive_failures st) 1 = k) as Hk.
  { unfold u32_add. rewrite Hc, Zplus_mod_idemp_l. replace (Z.of_nat (missed o) + 1)%Z with k by (unfold k; lia).
    apply Z.mod_small. lia. }
  assert (up thr (outage_step o Silent) = healthy st && (k <? thr)%Z) as Hup.
  { unfold up, outage_step. cbn [heard_at missed left_]. fold k. rewrite Hh. unfold up.
    destruct (is_some (heard_at o)), (left_ o); simpl; try done.
    destruct (Z.ltb_spec k thr), (Z.ltb_spec (Z.of_nat (missed o)) thr), (Nat.eqb_spec (missed o) 0); simpl; try done; lia. }
  assert (healthy st = true → k ≤ thr)%Z as Hle.
  { rewrite Hh. unfold up. rewrite !andb_true_iff, orb_true_iff, Nat.eqb_eq, Z.ltb_lt. lia. }
  unfold tracks. rewrite Hup. cbn [outage_step heard_at missed]. fold k. rewrite (Z.mod_small k) by lia. clearbody k.
  unfold polled_err. cbn -[Z.leb Z.ltb Z.eqb u32_add]. rewrite Hk.
  destruct (healthy st) eqn:E; cbn -[Z.leb Z.ltb Z.eqb].
  - specialize (Hle eq_refl). destruct (Z.leb_spec thr k), (Z.ltb_spec k thr), (Z.eqb_spec k thr); try lia; cbn -[Z.leb Z.ltb Z.eqb];
      rewrite ?E; repeat split; first [done | by apply Z.eqb_neq].
  - by repeat split.
Qed.

Lemma record_tracks o x s n :
  (1 ≤ thr)%Z → (Z.of_nat (S (missed o)) < 2 ^ 32)%Z → nodes (fed s) !! nm = Some n → tracks o (status n) →
  ∃ n', nodes (fed (record_seen cfg scheme nm s x).1) !! nm = Some n' ∧ tracks (outage_step o x) (status n')
    ∧ (record_seen cfg scheme nm s x).2 = match x with Silent => (Z.of_nat (S (missed o)) =? thr)%Z | _ => false end.
Proof.
  intros Ht Hb Hn Htr. destruct x as [cap now| |u v now|].
  - exists (n <| status ::= polled_ok cap now |>). cbn [record_seen fst]. unfold ok_record. rewrite Hn. split; [by apply set_status_lookup|].
    by repeat split.
  - destruct (silent_tracks o (status n) Ht Hb Htr) as [Ht' Hr]. unfold record_seen, err_record. rewrite Hn.
    destruct (polled_err thr (status n)) as [st b]. cbn [fst snd] in *.
    exists (n <| status ::= λ _, st |>). split; [by apply set_status_lookup|done].
  - exists (heard (engine_url_from u scheme) v now n). cbn [record_seen fst snd].
    unfold register_record. cbn [an_hostname an_node_addr an_volumes]. rewrite Hn. simpl. split; [by rewrite lookup_insert_eq|].
    split; [|done]. unfold heard. by destruct (source (status n) == Registered).
  - exists (n <| status ::= λ st, st <| healthy := false |> |>). cbn [record_seen fst snd]. rewrite Hn.
    unfold deregister_record. simpl. rewrite lookup_fmap, Hn. simpl. rewrite eqb_refl. split; [done|].
    split; [|done]. destruct Htr as (Hh & Hl & Hc). repeat split; simpl; try done. unfold up. simpl. by rewrite andb_false_r.
Qed.
Lemma records_track h : ∀ o s n,
  (1 ≤ thr)%Z → (Z.of_nat (missed o + length h) < 2 ^ 32)%Z → nodes (fed s) !! nm = Some n → tracks o (status n) →
  ∃ n', nodes (fed (record_all cfg scheme nm s h).1) !! nm = Some n' ∧ tracks (foldl outage_step o h) (status n')
    ∧ (record_all cfg scheme nm s h).2 = reports thr o h.
Proof.
  induction h as [|x h IH]; intros o s n Ht Hb Hn Htr; [by exists n|]. cbn [length] in Hb.
  destruct (record_tracks o x s n Ht) as (n1 & Hn1 & Htr1 & Hr); [lia|done..|].
  cbn [record_all reports foldl]. destruct (record_seen cfg scheme nm s x) as [s1 b]. cbn [fst snd] in *.
  destruct (IH (outage_step o x) s1 n1) as (n2 & Hn2 & Htr2 & Hr2); [done| |done..|].
  { destruct x; simpl; lia. }
  exists n2. destruct (record_all cfg scheme nm s1 h) as [s2 l]. cbn [fst snd] in *. by subst.
Qed.
End health.

(** C32: A node's health is a function of what was seen of it. Whatever
    history of answered and missed polls, heartbeats and announced shutdowns
    the registry records for a node it had just met, the node is healthy
    exactly when it was ever heard of, has not left since, and has missed
    fewer polls since than the threshold (or none); the time it was last
    heard of and the count of missed polls are those of the history; and an
    outage is reported exactly at the poll that makes it as long as the
    threshold, once. *)
Theorem health_of_history (cfg : Config) (scheme nm : string) s n src (h : list Seen)
  (Hn : nodes (fed s) !! nm = Some n) (Hnew : status n = NodeStatus_new src)
  (Hthr : (1 ≤ fail_threshold (poll cfg))%Z) (Hlen : (Z.of_nat (length h) < 2 ^ 32)%Z) :
  let '(s', told) := record_all cfg scheme nm s h in
  told = reports (fail_threshold (poll cfg)) (outage []) h
  ∧ ∃ n', nodes (fed s') !! nm = Some n'
    ∧ healthy (status n') = up (fail_threshold (poll cfg)) (outage h)
    ∧ last_ok (status n') = heard_at (outage h)
    ∧ consecutive_failures (status n') = Z.of_nat (missed (outage h)).
Proof.
  destruct (records_track cfg scheme nm h (outage []) s n Hthr) as (n' & Hn' & (Hh & Hl & Hc) & Hr); [done|done| |].
  { by rewrite Hnew. }
  destruct (record_all cfg scheme nm s h) as [s' told]. cbn [fst snd] in *. split; [done|]. exists n'.
  split; [done|]. split; [done|]. split; [done|]. rewrite Hc. apply Z.mod_small.
  enough (∀ o, missed (foldl outage_step o h) ≤ missed o + length h)%nat as Hm.
  { specialize (Hm (outage [])). unfold outage in *. simpl in *. lia. }
  clear. induction h as [|x h IH]; intros o; simpl; [lia|]. specialize (IH (outage_step o x)). destruct x; simpl in *; lia.
Qed.

(** ** Facts: adopting *)

Section adopting.
Context (src : NodeSource).

(** Nodes of other sources are the same. *)
Definition others_same (fd fd' : FedState) : Prop :=
  ∀ k n, source (status n) ≠ src → nodes fd' !! k = Some n ↔ nodes fd !! k = Some n.
Definition same_but_nodes (fd fd' : FedState) : Prop := fd' <| nodes := nodes fd |> = fd.
Lemma others_trans f1 f2 f3 : others_same f1 f2 → others_same f2 f3 → others_same f1 f3.
Proof. intros H1 H2 k n Hs. etransitivity; [by apply H2|by apply H1]. Qed.
#[local] Instance others_preorder : PreOrder others_same.
Proof. split; [by intros fd k n|]. intros f1 f2 f3. apply others_trans. Qed.

Lemma covered_same fd fd' nc : others_same fd fd' → covered_by_other src nc fd' = covered_by_other src nc fd.
Proof.
  intros Ho. apply eq_true_iff_eq. unfold covered_by_other. rewrite !existsb_true.
  split; intros (n & [k Hk]%elem_of_bt_values & Hn); exists n; (split; [|done]); apply elem_of_bt_values; exists k;
    apply andb_true_iff in Hn as [Hs%neqb_prop _]; by apply (Ho k n Hs).
Qed.
Lemma not_covered fd nc n :
  nodes_named fd → covered_by_other src nc fd = false → nodes fd !! nc_name nc = Some n → source (status n) = src.
Proof.
  intros Hnm Hc Hn. unfold covered_by_other in Hc. rewrite existsb_false in Hc.
  assert (n ∈ bt_values (nodes fd)) as Hin by (apply elem_of_bt_values; eauto).
  specialize (Hc n Hin). rewrite (Hnm _ _ Hn), eqb_refl, andb_true_r in Hc. by apply neqb_nprop.
Qed.

Lemma adopt_node_spec fd l nc :
  nodes_named fd →
  let fd' := (adopt_node src (fd, l) nc).1 in
  nodes_named fd' ∧ others_same fd fd' ∧ same_but_nodes fd fd'
  ∧ (∀ k, k ≠ nc_name nc → nodes fd' !! k = nodes fd !! k)
  ∧ (covered_by_other src nc fd = true ∧ fd' = fd
     ∨ covered_by_other src nc fd = false
       ∧ nodes fd' !! nc_name nc = Some (MkNode nc (map_or (NodeStatus_new src) status (nodes fd !! nc_name nc)))
       ∧ (∀ n, nodes fd !! nc_name nc = Some n → source (status n) = src)).
Proof.
  intros Hnm. unfold adopt_node. destruct (covered_by_other src nc fd) eqn:Hc.
  { split; [done|split; [reflexivity|split; [by destruct fd|split; [done|by left]]]]. }
  pose proof (λ n, not_covered fd nc n Hnm Hc) as Hsrc.
  set (n' := MkNode nc (map_or (NodeStatus_new src) status (nodes fd !! nc_name nc))).
  assert (∀ fd', nodes fd' = <[nc_name nc := n']> (nodes fd) → same_but_nodes fd fd' →
    nodes_named fd' ∧ others_same fd fd' ∧ same_but_nodes fd fd' ∧ (∀ k, k ≠ nc_name nc → nodes fd' !! k = nodes fd !! k)
    ∧ (false = true ∧ fd' = fd ∨ false = false ∧ nodes fd' !! nc_name nc = Some n' ∧ (∀ n, nodes fd !! nc_name nc = Some n → source (status n) = src))) as Hgo.
  { intros fd' E Hb. unfold nodes_named, others_same. rewrite E. split; [|split; [|split; [done|split]]].
    - intros k n. destruct (decide (k = nc_name nc)) as [->|].
      + rewrite lookup_insert_eq. by intros [= <-].
      + rewrite lookup_insert_ne by done. apply Hnm.
    - intros k n Hs. destruct (decide (k = nc_name nc)) as [->|]; [|by rewrite lookup_insert_ne].
      rewrite lookup_insert_eq. split; [|by intros Hn%Hsrc]. intros [= <-]. destruct Hs. unfold n'. simpl.
      destruct (nodes fd !! nc_name nc) eqn:En; [by apply Hsrc|done].
    - intros k Hk. by rewrite lookup_insert_ne.
    - right. split; [done|]. by rewrite lookup_insert_eq. }
  destruct (nodes fd !! nc_name nc) as [n|] eqn:En; simpl; apply Hgo; by destruct fd.
Qed.

Lemma same_nodes_trans f1 f2 f3 : same_but_nodes f1 f2 → same_but_nodes f2 f3 → same_but_nodes f1 f3.
Proof. unfold same_but_nodes, set_field. destruct f1, f2, f3. simpl. congruence. Qed.
(** What a list of wanted nodes makes. *)
Lemma adopt_nodes_spec wanted fd :
  nodes_named fd → NoDup (map nc_name wanted) →
  let fd' := (adopt_nodes src wanted fd).1 in
  nodes_named fd' ∧ others_same fd fd' ∧ same_but_nodes fd fd'
  ∧ (∀ k, named_in wanted k = false → nodes fd' !! k = nodes fd !! k)
  ∧ (∀ nc, nc ∈ wanted → covered_by_other src nc fd = false →
       nodes fd' !! nc_name nc = Some (MkNode nc (map_or (NodeStatus_new src) status (nodes fd !! nc_name nc)))).
Proof.
  unfold adopt_nodes. generalize (@nil string) as l. revert fd.
  induction wanted as [|nc wanted IH]; intros fd l Hnm Hnd; cbn [foldl map fst] in *.
  { split; [done|split; [reflexivity|split; [by destruct fd|split; [done|]]]]. by intros nc ?%not_elem_of_nil. }
  apply NoDup_cons in Hnd as [Hout Hnd].
  destruct (adopt_node_spec fd l nc Hnm) as (Hnm1 & Ho1 & Hb1 & Hk1 & Hc1).
  destruct (adopt_node src (fd, l) nc) as [fd1 l1]. cbn [fst] in *.
  destruct (IH fd1 l1 Hnm1 Hnd) as (Hnm2 & Ho2 & Hb2 & Hk2 & Hc2).
  destruct (foldl (adopt_node src) (fd1, l1) wanted) as [fd2 l2]. cbn [fst] in *.
  assert (∀ k, named_in wanted k = true ↔ k ∈ map nc_name wanted) as Hin.
  { intros k. unfold named_in. rewrite existsb_true, list_elem_of_fmap. setoid_rewrite eqb_true. naive_solver. }
  split; [done|split; [by transitivity fd1|split; [|split]]].
  - by eapply same_nodes_trans.
  - intros k [Hk%eqb_nprop Hk']%orb_false_iff. rewrite Hk2 by done. apply Hk1. congruence.
  - intros x [->|Hx]%elem_of_cons Hcov.
    + destruct Hc1 as [[Hc _]|(_ & Hc & _)]; [congruence|]. rewrite Hk2; [done|].
      apply not_true_iff_false. by rewrite Hin.
    + rewrite (Hc2 x Hx); [|by rewrite (covered_same fd fd1)]. rewrite Hk1; [done|]. intros E.
      apply Hout. rewrite <-E. by apply list_elem_of_fmap_2.
Qed.

Lemma retain_spec stays fd :
  (∀ k n, source (status n) ≠ src → stays k n = true) → nodes_named fd →
  let fd' := (retain_nodes stays fd).1 in
  nodes_named fd' ∧ others_same fd fd' ∧ same_but_nodes fd fd'
  ∧ (∀ k n, nodes fd' !! k = Some n ↔ nodes fd !! k = Some n ∧ stays k n = true).
Proof.
  intros Hs Hnm fd'. assert (∀ k n, nodes fd' !! k = Some n ↔ nodes fd !! k = Some n ∧ stays k n = true) as Hl.
  { intros k n. unfold fd', retain_nodes. simpl. by rewrite map_lookup_filter_Some. }
  split; [|split; [|split; [unfold same_but_nodes, fd'; by destruct fd|done]]].
  - intros k n [Hn _]%Hl. by apply Hnm.
  - intros k n Hn. rewrite Hl. split; [by intros [? _]|]. intros E. split; [done|by apply Hs].
Qed.
End adopting.

(** The cluster's members taken over as nodes, and this machine's engine
    with its peers. Either way nodes that the configuration, a heartbeat or
    the other way of finding them put there stay exactly as they are; every
    wanted node whose engine and name no such node covers is there with the
    wanted configuration, with its old status if it had one; and no node of
    that source stays that is not wanted, except, for peers, when no
    discovery answered. Nothing but the nodes changes. *)
Theorem adoption_spec (local : LocalConfig) judge wanted s
  (Hnamed : nodes_named (fed s)) (Hnd : NoDup (map nc_name wanted)) :
  let check src stays (s' : App) :=
    nodes_named (fed s') ∧ same_but_nodes (fed s) (fed s') ∧ others_same src (fed s) (fed s')
    ∧ (∀ nc, nc ∈ wanted → covered_by_other src nc (fed s) = true
         ∨ nodes (fed s') !! nc_name nc = Some (MkNode nc (map_or (NodeStatus_new src) status (nodes (fed s) !! nc_name nc))))
    ∧ (∀ k n, nodes (fed s') !! k = Some n → source (status n) = src → named_in wanted k = true ∨ stays n) in
  check Model.Member (λ _, False) (adopt_members_record wanted s).1
  ∧ check Local (λ n, judge = false ∧ nc_engine_url (config n) ≠ local_url local) (adopt_local_record local judge wanted s).1.
Proof.
  assert (∀ nc, nc ∈ wanted → named_in wanted (nc_name nc) = true) as Hin.
  { intros nc Hnc. unfold named_in. apply existsb_true. exists nc. by rewrite eqb_refl. }
  split.
  - unfold adopt_members_record.
    destruct (retain_spec Model.Member (member_stays wanted) (fed s)) as (Hn1 & Ho1 & Hb1 & Hl1); [|done|].
    { intros k n Hs. unfold member_stays. by rewrite (proj2 (neqb_true _ _) Hs). }
    destruct (retain_nodes _ _) as [fd1 dropped]. cbn [fst] in *.
    destruct (adopt_nodes_spec Model.Member wanted fd1 Hn1 Hnd) as (Hn2 & Ho2 & Hb2 & Hk2 & Hc2).
    destruct (adopt_nodes _ _ _) as [fd2 adopted]. cbn [fst snd] in *. change (fed (s <| fed := fd2 |>)) with fd2.
    split; [done|]. split; [by eapply same_nodes_trans|]. split; [by eapply others_trans|]. split.
    + intros nc Hnc. rewrite <-(covered_same Model.Member (fed s) fd1 nc Ho1).
      destruct (covered_by_other Model.Member nc fd1) eqn:Hcov; [by left|right].
      rewrite (Hc2 nc Hnc Hcov). do 3 f_equal. apply option_eq. intros n. rewrite Hl1.
      unfold member_stays. rewrite (Hin nc Hnc), orb_true_r. naive_solver.
    + intros k n Hk Hs. left. apply not_false_iff_true. intros Hno. rewrite Hk2, Hl1 in Hk by done.
      destruct Hk as [_ Hst]. unfold member_stays in Hst. by rewrite Hs, Hno, eqb_refl in Hst.
  - unfold adopt_local_record.
    destruct (adopt_nodes_spec Local wanted (fed s) Hnamed Hnd) as (Hn1 & Ho1 & Hb1 & Hk1 & Hc1).
    destruct (adopt_nodes _ _ _) as [fd1 adopted]. cbn [fst] in *.
    destruct (retain_spec Local (local_stays local judge wanted) fd1) as (Hn2 & Ho2 & Hb2 & Hl2); [|done|].
    { intros k n Hs. unfold local_stays. by rewrite (proj2 (neqb_true _ _) Hs). }
    destruct (retain_nodes _ _) as [fd2 dropped]. cbn [fst snd] in *. change (fed (s <| fed := fd2 |>)) with fd2.
    split; [done|]. split; [by eapply same_nodes_trans|]. split; [by eapply others_trans|]. split.
    + intros nc Hnc. destruct (covered_by_other Local nc (fed s)) eqn:Hcov; [by left|right].
      apply Hl2. split; [by apply Hc1|]. unfold local_stays. by rewrite (Hin nc Hnc), orb_true_r.
    + intros k n [_ Hst]%Hl2 Hs. unfold local_stays in Hst. rewrite Hs, eqb_refl in Hst. cbn [negb orb] in Hst.
      apply orb_true_iff in Hst as [Hst|[Hj%negb_true_iff Hu%neqb_prop]%andb_true_iff]; [by left|by right].
Qed.

Section example.
Local Open Scope string_scope.
Definition met_app : App :=
  App_new (FedState_default <| nodes := {["n1" := MkNode (node_of "n1" "http://n1:9090" ∅ None) (NodeStatus_new Local)]} |>) None.
(** Heard of, three polls missed, back, left. *)
Definition seen_history : list Seen :=
  [Silent; Answered (MkCapacity 10 5 ∅) 3; Silent; Silent; Silent; Silent; Heard "http://n1:9090" 2 9; Silent; Left].
Lemma health_of_history_witness :
  reports 3 (outage []) seen_history = [false; false; false; false; true; false; false; false; false]
  ∧ let '(s', told) := record_all example_cfg "http" "n1" met_app seen_history in
    told = reports (fail_threshold (poll example_cfg)) (outage []) seen_history
    ∧ ∃ n', nodes (fed s') !! "n1" = Some n'
      ∧ healthy (status n') = up (fail_threshold (poll example_cfg)) (outage seen_history)
      ∧ last_ok (status n') = heard_at (outage seen_history)
      ∧ consecutive_failures (status n') = Z.of_nat (missed (outage seen_history)).
Proof.
  split; [vm_compute; reflexivity|].
  refine (health_of_history example_cfg "http" "n1" met_app (MkNode (node_of "n1" "http://n1:9090" ∅ None) (NodeStatus_new Local)) Local
            seen_history _ eq_refl _ _); [vm_compute; reflexivity|done|done].
Defined.
(** One member known and one gone, one configured; two wanted. *)
Definition members_app : App :=
  App_new (FedState_default <| nodes := {[
    "n1" := MkNode (node_of "n1" "http://n1:9090" ∅ None) (NodeStatus_new Model.Member);
    "n2" := MkNode (node_of "n2" "http://n2:9090" ∅ None) (NodeStatus_new Model.Member);
    "n3" := MkNode (node_of "n3" "http://n3:9090" ∅ None) (NodeStatus_new Static)]} |>) None.
Definition members_wanted : list NodeConfig := [node_of "n1" "https://n1:9090" ∅ None; node_of "n3" "http://x:1" ∅ None; node_of "n4" "http://n4:9090" ∅ None].
Lemma adoption_spec_witness :
  let local := LocalConfig_default in
  let out := adopt_members_record members_wanted members_app in
  bt_keys (nodes (fed out.1)) = ["n1"; "n3"; "n4"] ∧ out.2.2 = ["n2"]
  ∧ others_same Model.Member (fed members_app) (fed out.1)
  ∧ others_same Local (fed members_app) (fed (adopt_local_record local true members_wanted members_app).1).
Proof.
  intros local out. split; [vm_compute; reflexivity|]. split; [vm_compute; reflexivity|].
  assert (nodes_named (fed members_app)) as Hn.
  { change (map_Forall (λ k n, nc_name (config n) = k) (nodes (fed members_app))).
    apply (bool_decide_eq_true_1 _). vm_compute. reflexivity. }
  assert (NoDup (map nc_name members_wanted)) as Hnd by (apply (bool_decide_eq_true_1 _); vm_compute; reflexivity).
  pose proof (adoption_spec local true members_wanted members_app Hn Hnd) as Hs.
  split; [apply (proj1 Hs)|apply (proj2 Hs)].
Defined.
End example.
