(* ===== verification/Snapshots.v ===== *)
(** * Snapshots, group snapshots and clones (src/api/snapshots.rs)

    Everything here is taken on the node that serves a volume's data and
    refers to the volume that holds it: a snapshot by its parent and its
    source, a clone by its parent, a group by its members. Shown: a request
    handled alone keeps every such reference to a record that is there, each
    name to one thing; the same request again changes nothing; and two ways
    it goes wrong: a delete of the volume beside a snapshot of it, and a
    group one of whose volumes was promoted elsewhere. *)

From stdpp Require Import relations.
From S2P Require Import Prelude F64 Config Model Placement Events Refusal Async Json Inventory Sync.
From S2P Require Import Recovery App Engine Publish Replace Fencing Backups.
From stdpp Require Import options.

Local Open Scope string_scope.

(** /v1's [GroupSnapshot] shape ([group_view]): the members in full. *)
Record GroupView := MkGroupView {
  gv_id : string;
  gv_name : string;
  gv_snapshots : list Snapshot;
  gv_ready : bool;
  gv_created_at_ms : Z;
  gv_node : string;
}.
Definition group_members (fd : FedState) (g : GroupSnapshot) : list Snapshot := omap (λ m, snapshots fd !! m) (gs_members g).
Definition group_view (fd : FedState) (g : GroupSnapshot) : GroupView :=
  {| gv_id := gs_id g; gv_name := gs_name g; gv_snapshots := group_members fd g; gv_ready := gs_ready g;
     gv_created_at_ms := gs_created_at_ms g; gv_node := gs_node g |}.

(** [list_snapshots], [get_snapshot], [list_groups], [get_group]. *)
Definition list_snapshots (by_name by_source : option string) (fd : FedState) : list Snapshot :=
  List.filter (λ x, map_or true (λ n, snap_name x == n) by_name && map_or true (λ v, source_volume_id x == v) by_source)
    (bt_values (snapshots fd)).
Definition get_snapshot (id : string) (fd : FedState) : result Snapshot ApiError :=
  ok_or (snapshots fd !! id) (ApiNotFound ("snapshot " +:+ debug_str id)).
Definition list_groups (by_name : option string) (fd : FedState) : list GroupView :=
  map (group_view fd) (List.filter (λ g, map_or true (λ n, gs_name g == n) by_name) (bt_values (group_snapshots fd))).
Definition get_group (id : string) (fd : FedState) : result GroupView ApiError :=
  ok_or (group_view fd <$> group_snapshots fd !! id) (ApiNotFound ("group snapshot " +:+ debug_str id)).

(** Volumes and snapshots share one namespace. *)
Definition name_free (fd : FedState) (nm : string) : result unit ApiError :=
  if nm == "" then Err (ApiBadRequest "name required")
  else if ends_with MIRROR_SUFFIX nm then
    Err (ApiBadRequest ("names ending in " +:+ debug_str MIRROR_SUFFIX +:+ " are reserved for served mirrors"))
  else if is_some (volumes fd !! nm) then Err (ApiConflict (debug_str nm +:+ " is a volume"))
  else if is_some (snapshots fd !! nm) then Err (ApiConflict (debug_str nm +:+ " is a snapshot"))
  else if is_some_and source_deleted (backups fd !! nm) then
    Err (ApiConflict (debug_str nm +:+ " names a deleted volume's backups (#46)"))
  else Ok tt.

(** A loop that pushes what each round gives and stops at an error. *)
Fixpoint try_map {A B X : Type} (f : A → result B X) (l : list A) : result (list B) X :=
  match l with
  | [] => Ok []
  | x :: l => let? y := f x in let? ys := try_map f l in Ok (y :: ys)
  end.

Definition get_i64 {J : Type} `{Json J} (k : string) (v : J) : option Z := j_get k v ≫= j_i64.

Section snapshots.
Context {J : Type} `{Json J} `{HttpShow}.
Context `{Deserialize J EngineVolume} `{Deserialize J Slab} `{Deserialize J Discovery}.
Context (engine_token : NodeConfig → option string) (admin_credential : string → option string).
Abbreviation api A := (handler J (result A ApiError)).

(** [healthy]. *)
Definition node_answers (node : string) : api unit :=
  let! ok := reads (λ s, map_or false (λ n, healthy (status n)) (nodes (fed s) !! node)) in
  Ret (if ok : bool then Ok tt
       else Err (ApiConflict (node +:+ " is unreachable — it holds the data; try again when it answers"))).
(** [commit]. *)
Definition snap_commit (subject msg : string) : handler J unit :=
  publish_change ;! event_of "snapshot" subject Info msg.
(** [unwrap_or_else(now_ms)]. *)
Definition ms_or_now (o : option Z) : handler J Z :=
  match o with
  | Some z => Ret z
  | None => let! now := invoke Now in Ret (now_ms now)
  end.
Definition data_of (fd : FedState) (vol : DistVolume) : result DataAt ApiError :=
  map_err (λ e, ApiConflict (err_text e)) (data_at engine_token admin_credential fd vol).
Definition upstream {A : Type} (pre : string) (r : result A EngineError) : result A ApiError :=
  map_err (λ e, ApiUpstream (pre +:+ err_text e)) r.

(** ** One snapshot *)

(** What the first lock section finds: the snapshot taken already, or where
    to take it. *)
Definition snapshot_reading (nm volume_id : string) (s : App) : result (Snapshot + DataAt) ApiError :=
  match snapshots (fed s) !! nm with
  | Some existing =>
      if source_volume_id existing == volume_id then Ok (inl existing)
      else Err (ApiConflict ("snapshot " +:+ debug_str nm +:+ " exists for volume " +:+ debug_str (source_volume_id existing)))
  | None =>
      let? _ := name_free (fed s) nm in
      let? vol := ok_or (volumes (fed s) !! volume_id) (ApiNotFound ("volume " +:+ debug_str volume_id)) in
      let? at_ := data_of (fed s) vol in
      Ok (inr at_)
  end.
Definition snapshot_of (nm volume_id : string) (at_ : DataAt) (size created : Z) (r : J) : Snapshot :=
  {| snap_id := nm; snap_name := nm; source_volume_id := volume_id;
     snap_size_bytes := unwrap_or size (get_u64 "size_bytes" r);
     snap_ready := unwrap_or true (get_bool "ready" r);
     snap_created_at_ms := created; group_snapshot_id := None; snap_parent := da_parent at_;
     snap_node := da_node at_; snap_engine_name := nm; snap_engine_id := get_str "id" r |}.
Definition insert_snapshot (snap : Snapshot) (fd : FedState) : FedState :=
  bump (fd <| snapshots ::= <[snap_name snap := snap]> |>).
Definition create_snapshot (nm volume_id : string) : api Snapshot :=
  let!? at_ := reads (snapshot_reading nm volume_id) in
  match at_ with
  | inl existing => Ret (Ok existing)
  | inr at_ =>
      let!? _ := node_answers (da_node at_) in
      let! size := reads (λ s, map_or 0%Z size_bytes (volumes (fed s) !! volume_id)) in
      let! r := create_snapshot_call (da_engine at_) nm (engine_name at_) in
      let!? r := Ret (upstream (da_node at_ +:+ ": snapshot: ") r) in
      let! created := ms_or_now (get_i64 "created_at_ms" r) in
      let snap := snapshot_of nm volume_id at_ size created r in
      writes (λ s, s <| fed ::= insert_snapshot snap |>) ;!
      snap_commit volume_id (volume_id +:+ ": snapshot " +:+ nm +:+ " taken on " +:+ da_node at_) ;!
      Ret (Ok snap)
  end.

(** [snapshot_home]: the node that serves its parent. *)
Definition snapshot_home (fd : FedState) (snap : Snapshot) : result DataAt ApiError :=
  let? parent := ok_or (volumes fd !! snap_parent snap)
                   (ApiConflict (snap_name snap +:+ ": its volume " +:+ snap_parent snap +:+ " is gone")) in
  data_of fd parent.

(** [delete_by_name]: one name; one the node does not know is gone. *)
Definition delete_named (at_ : DataAt) (_ : unit) (n : string) : api unit :=
  let! r := local_volume_id (da_engine at_) n in
  match r with
  | Ok id =>
      let! d := delete_any_volume (da_engine at_) id in
      Ret (upstream (da_node at_ +:+ ": delete " +:+ n +:+ ": ") d)
  | Err e => Ret (if is_not_found e then Ok tt else Err (ApiUpstream (da_node at_ +:+ ": " +:+ err_text e)))
  end.
Definition delete_by_name (at_ : DataAt) (names : list string) : api unit := for_try (delete_named at_) tt names.

(** Through the engine's own record when it is on the node it was taken on,
    else by the names. *)
Definition delete_taken (at_ : DataAt) (taken_on path : string) (eid : option string) (names : list string) : api unit :=
  match eid, da_node at_ == taken_on with
  | Some eid, true =>
      let! r := delete_v1 (da_engine at_) (path +:+ eid) in
      Ret (upstream (da_node at_ +:+ ": ") r)
  | _, _ => delete_by_name at_ names
  end.

(** [delete_snapshot]; one that is not there is deleted. *)
Definition snapshot_to_delete (id : string) (s : App) : result (option (Snapshot * DataAt)) ApiError :=
  match snapshots (fed s) !! id with
  | None => Ok None
  | Some snap =>
      match group_snapshot_id snap with
      | Some g => Err (ApiConflict ("snapshot " +:+ debug_str id +:+ " belongs to group snapshot " +:+ debug_str g
                                    +:+ "; delete the group"))
      | None => let? at_ := snapshot_home (fed s) snap in Ok (Some (snap, at_))
      end
  end.
Definition delete_snapshot (id : string) : api unit :=
  let!? r := reads (snapshot_to_delete id) in
  match r with
  | None => Ret (Ok tt)
  | Some (snap, at_) =>
      let!? _ := node_answers (da_node at_) in
      let!? _ := delete_taken at_ (snap_node snap) "/v1/snapshots/" (snap_engine_id snap) [snap_engine_name snap] in
      writes (λ s, s <| fed ::= λ fd, bump (fd <| snapshots ::= delete id |>) |>) ;!
      snap_commit (source_volume_id snap) (source_volume_id snap +:+ ": snapshot " +:+ id +:+ " deleted") ;!
      Ret (Ok tt)
  end.

(** ** Groups *)

(** The closure [member]. *)
Definition member_name (group v : string) : string := group +:+ "-" +:+ v.
Definition group_volume (group : string) (fd : FedState) (v : string) : result DataAt ApiError :=
  let? _ := name_free fd (member_name group v) in
  let? vol := ok_or (volumes fd !! v) (ApiNotFound ("volume " +:+ debug_str v)) in
  data_of fd vol.
Definition sorted_names (l : list string) : list string := merge_sort String.le l.
Definition group_reading (nm : string) (ids : list string) (s : App) : result (GroupView + list DataAt) ApiError :=
  match group_snapshots (fed s) !! nm with
  | Some g =>
      if sorted_names (map (member_name nm) ids) == sorted_names (gs_members g) then Ok (inl (group_view (fed s) g))
      else Err (ApiConflict ("group snapshot " +:+ debug_str nm +:+ " exists for other volumes"))
  | None => let? ats := try_map (group_volume nm (fed s)) ids in Ok (inr ats)
  end.
(** One member; [en] is what the engine says of it, if it does. *)
Definition member_snapshot (nm : string) (created : Z) (v : string) (size : Z) (a : DataAt) (en : option J) : Snapshot :=
  {| snap_id := member_name nm v; snap_name := member_name nm v; source_volume_id := v;
     snap_size_bytes := unwrap_or size (mbind (M:=option) (get_u64 "size_bytes") en);
     snap_ready := unwrap_or true (mbind (M:=option) (get_bool "ready") en);
     snap_created_at_ms := created; group_snapshot_id := Some nm; snap_parent := da_parent a; snap_node := da_node a;
     snap_engine_name := nm +:+ "-" +:+ engine_name a;
     snap_engine_id := mbind (M:=option) (get_str "id") en |}.
(** The volumes, their sizes and where they are, side by side with the
    engine's list. *)
Fixpoint member_snapshots (nm : string) (created : Z) (l : list (string * Z * DataAt)) (ens : list J) : list Snapshot :=
  match l with
  | [] => []
  | (v, size, a) :: l =>
      member_snapshot nm created v size a (List.hd_error ens) :: member_snapshots nm created l (List.tl ens)
  end.
Definition group_of (nm : string) (created : Z) (ms : list Snapshot) (node : string) (r : J) : GroupSnapshot :=
  {| gs_id := nm; gs_name := nm; gs_members := map snap_name ms; gs_ready := forallb snap_ready ms;
     gs_created_at_ms := created; gs_node := node; gs_engine_id := get_str "id" r |}.
Definition insert_group (g : GroupSnapshot) (ms : list Snapshot) (fd : FedState) : FedState :=
  bump ((foldl (λ fd m, fd <| snapshots ::= <[snap_name m := m]> |>) fd ms) <| group_snapshots ::= <[gs_name g := g]> |>).
Definition take_group (nm : string) (ids : list string) (ats : list DataAt) (a0 : DataAt) : api GroupView :=
  let node := da_node a0 in
  if existsb (λ a, da_node a != node) ats then
    Ret (Err (ApiConflict ("a group snapshot is one point in time on one node; these are served from different nodes: "
      +:+ join ", " (zip_with (λ v a, v +:+ " on " +:+ da_node a) ids ats))))
  else
    let!? _ := node_answers node in
    let! r := create_group_snapshot_call (da_engine a0) nm (map engine_name ats) in
    let!? r := Ret (upstream (node +:+ ": group snapshot: ") r) in
    let! created := ms_or_now (get_i64 "created_at_ms" r) in
    let engine_snaps := unwrap_or [] (get_array "snapshots" r) in
    let! sizes := reads (λ s, map (λ v, map_or 0%Z size_bytes (volumes (fed s) !! v)) ids) in
    let ms := member_snapshots nm created (zip (zip ids sizes) ats) engine_snaps in
    let g := group_of nm created ms node r in
    let! view := atomic (λ s, let fd := insert_group g ms (fed s) in (s <| fed := fd |>, group_view fd g)) in
    snap_commit nm ("group snapshot " +:+ nm +:+ " of " +:+ join ", " ids +:+ " taken on " +:+ node) ;!
    Ret (Ok view).
Definition create_group (nm : string) (ids : list string) : api GroupView :=
  match ids with
  | [] => Ret (Err (ApiBadRequest "volume_ids required"))
  | _ =>
      if negb (length (dedup (sorted_names ids)) =? length ids)%nat then
        Ret (Err (ApiBadRequest "volume_ids repeats a volume"))
      else
        let!? r := reads (group_reading nm ids) in
        match r with
        | inl view => Ret (Ok view)
        | inr ats =>
            match ats with
            | a0 :: _ => take_group nm ids ats a0
            | [] => Ret (Err (ApiBadRequest "volume_ids required")) (* not for ids there are *)
            end
        end
  end.

(** [delete_group]. *)
Definition group_to_delete (id : string) (s : App)
    : result (option (GroupSnapshot * list Snapshot * option DataAt)) ApiError :=
  match group_snapshots (fed s) !! id with
  | None => Ok None
  | Some g =>
      let ms := group_members (fed s) g in
      match ms with
      | [] => Ok (Some (g, ms, None))
      | m :: _ => let? at_ := snapshot_home (fed s) m in Ok (Some (g, ms, Some at_))
      end
  end.
Definition drop_group (id : string) (g : GroupSnapshot) (fd : FedState) : FedState :=
  bump ((foldl (λ fd m, fd <| snapshots ::= delete m |>) fd (gs_members g)) <| group_snapshots ::= delete id |>).
Definition delete_group (id : string) : api unit :=
  let!? r := reads (group_to_delete id) in
  match r with
  | None => Ret (Ok tt)
  | Some (g, ms, at_) =>
      let!? _ := (match at_ with
        | None => Ret (Ok tt)
        | Some at_ =>
            let!? _ := node_answers (da_node at_) in
            delete_taken at_ (gs_node g) "/v1/group-snapshots/" (gs_engine_id g) (map snap_engine_name ms)
        end) in
      writes (λ s, s <| fed ::= drop_group id g |>) ;!
      snap_commit id ("group snapshot " +:+ id +:+ " deleted (" +:+ pretty (Z.of_nat (length ms)) +:+ " members)") ;!
      Ret (Ok tt)
  end.

(** ** Clones *)

(** What is cloned: the volume whose node it is on, the snapshot's engine
    name if it is one, and the least size. *)
Definition clone_origin (fd : FedState) (source : VolumeSource) : result (DistVolume * option string * Z) ApiError :=
  match source with
  | SrcVolume id =>
      let? v := ok_or (volumes fd !! id) (ApiNotFound ("volume " +:+ debug_str id)) in
      Ok (v, None, size_bytes v)
  | SrcSnapshot id =>
      let? sn := ok_or (snapshots fd !! id) (ApiNotFound ("snapshot " +:+ debug_str id)) in
      let? v := ok_or (volumes fd !! snap_parent sn)
                  (ApiConflict ("snapshot " +:+ debug_str id +:+ ": its volume " +:+ snap_parent sn +:+ " is gone")) in
      Ok (v, Some (snap_engine_name sn), snap_size_bytes sn)
  end.
Definition clone_reading (nm : string) (size : Z) (source : VolumeSource) (s : App)
    : result (DataAt * DistVolume * string) ApiError :=
  let? _ := name_free (fed s) nm in
  let? o := clone_origin (fed s) source in
  let '(vol, en, least) := o in
  if (size <? least)%Z then
    Err (ApiBadRequest ("a clone is at least its source's size (" +:+ pretty least +:+ " bytes), not " +:+ pretty size))
  else
    let? at_ := data_of (fed s) vol in
    (* [expect]: a record is kept under its name *)
    let? parent := ok_or (volumes (fed s) !! da_parent at_) (ApiUpstream "data_at found it") in
    Ok (at_, parent, unwrap_or (engine_name at_) en).
Definition clone_of_parent (nm : string) (size : Z) (source : VolumeSource) (hs : list HostServe) (at_ : DataAt)
    (parent : DistVolume) (id : string) (master : option string) (now : time) : DistVolume :=
  {| name := nm; size_bytes := size; vol_pool := vol_pool parent; Model.replicas := Model.replicas parent; rung := rung parent;
     legs := []; assembly := Clone; head := None; array_id := None; created_at := now; replacing := None;
     next_releg_after := None; next_assemble_after := None;
     export := Export_default <| ex_node := Some (da_node at_) |> <| ex_volume_id := Some id |>
       <| ex_master_node := master |> <| hosts := hs |> <| per_host := match hs with [] => false | _ => true end |>;
     epoch := first_epoch; fenced := false; bandwidth_class := bandwidth_class parent;
     extent_size_bytes := extent_size_bytes parent; rate_pending := false; dual_attach := None; migration := None;
     clone_of := Some {| clone_source := source; clone_parent := name parent |}; expanding := None |}.
Definition source_words (source : VolumeSource) : string :=
  match source with SrcVolume v => "volume " +:+ v | SrcSnapshot sn => "snapshot " +:+ sn end.
Definition create_clone (nm : string) (size : Z) (source : VolumeSource) (hs : list HostServe) : api (option View) :=
  let!? r := reads (clone_reading nm size source) in
  let '(at_, parent, source_engine) := r in
  let!? _ := node_answers (da_node at_) in
  let!? master := Ret (ok_or (da_master at_) (ApiConflict (name parent +:+ ": no /v1 node name known for " +:+ da_node at_
                       +:+ " — cannot place a clone there"))) in
  let! r := create_clone_call (da_engine at_) nm size master source_engine in
  let!? r := Ret (upstream (da_node at_ +:+ ": clone: ") r) in
  let!? id := Ret (ok_or (get_str "id" r) (ApiUpstream (da_node at_ +:+ ": clone answered without an id: " +:+ j_show r))) in
  let! now := invoke Now in
  insert_volume nm (clone_of_parent nm size source hs at_ parent id (opt_or (master_node_of r) (Some master)) now) ;!
  snap_commit nm (nm +:+ ": cloned from " +:+ source_words source +:+ " on " +:+ da_node at_ +:+ " (copy-on-write on "
                  +:+ name parent +:+ "'s data)") ;!
  publish engine_token admin_credential nm ;!
  reads (λ s, Ok (fmap (M:=option) (view_in (fed s) (heads s)) (volumes (fed s) !! nm))).
End snapshots.

Local Close Scope string_scope.

(** ** References *)

(** Every reference names a record that is there; a clone's and a snapshot's
    data is on a volume that is no clone; volumes and snapshots share no
    name; a group and its members name each other. *)
Record refs_ok (fd : FedState) : Prop := {
  rf_volume : ∀ k v, volumes fd !! k = Some v → name v = k;
  rf_snapshot : ∀ k sn, snapshots fd !! k = Some sn → snap_name sn = k;
  rf_apart : ∀ k v, volumes fd !! k = Some v → snapshots fd !! k = None;
  rf_clone : ∀ k v c, volumes fd !! k = Some v → clone_of v = Some c →
    ∃ p, volumes fd !! clone_parent c = Some p ∧ clone_of p = None;
  rf_parent : ∀ k sn, snapshots fd !! k = Some sn →
    (∃ p, volumes fd !! snap_parent sn = Some p ∧ clone_of p = None) ∧ is_Some (volumes fd !! source_volume_id sn);
  rf_group : ∀ g gs m, group_snapshots fd !! g = Some gs → m ∈ gs_members gs →
    ∃ sn, snapshots fd !! m = Some sn ∧ group_snapshot_id sn = Some g;
  rf_member : ∀ k sn g, snapshots fd !! k = Some sn → group_snapshot_id sn = Some g →
    ∃ gs, group_snapshots fd !! g = Some gs ∧ k ∈ gs_members gs;
}.

(** What exporting and reporting leaves. *)
Lemma refs_ok_export s s' : export_step s s' → refs_ok (fed s) → refs_ok (fed s').
Proof.
  intros (Hc & _ & _ & _ & _ & Hs & Hg) [H1 H2 H3 H4 H5 H6 H7].
  assert (∀ k, core <$> volumes (fed s') !! k = core <$> volumes (fed s) !! k) as Hk.
  { intros k. by rewrite <-!lookup_fmap, Hc. }
  assert (∀ k v, volumes (fed s') !! k = Some v →
    ∃ v0, volumes (fed s) !! k = Some v0 ∧ name v = name v0 ∧ clone_of v = clone_of v0) as Hb.
  { intros k v Hv. specialize (Hk k). rewrite Hv in Hk. destruct (volumes (fed s) !! k) as [v0|]; [|done].
    apply (inj Some) in Hk. exists v0. split; [done|]. split; [exact (f_equal name Hk)|exact (f_equal clone_of Hk)]. }
  assert (∀ k v0, volumes (fed s) !! k = Some v0 →
    ∃ v, volumes (fed s') !! k = Some v ∧ clone_of v = clone_of v0) as Hf.
  { intros k v0 Hv. specialize (Hk k). rewrite Hv in Hk. destruct (volumes (fed s') !! k) as [v|]; [|done].
    apply (inj Some) in Hk. exists v. split; [done|exact (f_equal clone_of Hk)]. }
  split; rewrite ?Hs, ?Hg; [|done|..|done|done].
  - intros k v (v0 & Hv & -> & _)%Hb. by apply H1.
  - intros k v (v0 & Hv & _)%Hb. by eapply H3.
  - intros k v c (v0 & Hv & _ & ->)%Hb Hcl. destruct (H4 k v0 c Hv Hcl) as (p & Hp & Hn).
    destruct (Hf _ _ Hp) as (p' & ? & E). exists p'. split; [done|congruence].
  - intros k sn Hsn. destruct (H5 k sn Hsn) as [(p & Hp & Hn) [v Hv]]. split.
    + destruct (Hf _ _ Hp) as (p' & ? & E). exists p'. split; [done|congruence].
    + destruct (Hf _ _ Hv) as (v' & -> & _). done.
Qed.

(** The data of a volume is on one that is no clone, kept under its name. *)
Lemma data_of_parent et ac fd vol at_ k : refs_ok fd → volumes fd !! k = Some vol →
  data_of et ac fd vol = Ok at_ →
  ∃ p, volumes fd !! da_parent at_ = Some p ∧ clone_of p = None.
Proof.
  intros Hr Hv. unfold data_of, data_at, parent_of.
  destruct (clone_of vol) as [c|] eqn:Hc.
  - destruct (rf_clone _ Hr _ _ _ Hv Hc) as (p & Hp & Hn). rewrite Hp. simpl. rewrite Hn. simpl.
    destruct (negb _); [done|]. destruct (serve_at _ _ fd p); [|done]. intros [= <-]. simpl.
    exists p. by rewrite (rf_volume _ Hr _ _ Hp).
  - simpl. rewrite Hc. simpl.
    destruct (negb _); [done|]. destruct (serve_at _ _ fd vol); [|done]. intros [= <-]. simpl.
    exists vol. by rewrite (rf_volume _ Hr _ _ Hv).
Qed.

Lemma name_free_Ok fd nm : name_free fd nm = Ok tt → volumes fd !! nm = None ∧ snapshots fd !! nm = None.
Proof.
  unfold name_free. destruct (nm == _); [done|]. destruct (ends_with _ _); [done|].
  destruct (volumes fd !! nm); [done|]. by destruct (snapshots fd !! nm).
Qed.

(** New snapshots under free names, each with its references. *)
Lemma refs_ok_insert_snapshots fd (ms : list Snapshot) (gs' : gmap string GroupSnapshot) rev :
  refs_ok fd → NoDup (map snap_name ms) →
  (∀ m, m ∈ ms → volumes fd !! snap_name m = None ∧ snapshots fd !! snap_name m = None
     ∧ (∃ p, volumes fd !! snap_parent m = Some p ∧ clone_of p = None) ∧ is_Some (volumes fd !! source_volume_id m)
     ∧ ∀ g, group_snapshot_id m = Some g → ∃ x, gs' !! g = Some x ∧ snap_name m ∈ gs_members x) →
  (∀ g x, group_snapshots fd !! g = Some x → gs' !! g = Some x) →
  (∀ g x m, gs' !! g = Some x → group_snapshots fd !! g = None → m ∈ gs_members x →
     ∃ sn, sn ∈ ms ∧ snap_name sn = m ∧ group_snapshot_id sn = Some g) →
  refs_ok (fd <| snapshots := foldl (λ m sn, <[snap_name sn := sn]> m) (snapshots fd) ms |>
              <| group_snapshots := gs' |> <| revision := rev |>).
Proof.
  intros Hr Hnd Hms Hgs Hnew. set (m' := foldl _ _ _).
  assert (∀ k sn, m' !! k = Some sn ↔ snapshots fd !! k = Some sn ∨ (sn ∈ ms ∧ snap_name sn = k)) as Hm'.
  { unfold m'. clear Hnew. revert Hnd Hms. generalize (snapshots fd) as m. induction ms as [|x ms IH]; intros m Hnd Hms k sn; simpl.
    - split; [by left|]. intros [?|[[]%not_elem_of_nil _]]. done.
    - apply NoDup_cons in Hnd as [Hx Hnd]. rewrite IH; [|done|].
      + rewrite elem_of_cons. destruct (decide (snap_name x = k)) as [<-|Hne].
        * rewrite lookup_insert_eq. destruct (Hms x) as (_ & Hf & _); [by left|]. rewrite Hf.
          split; [intros [[= <-]|[? ?]]; auto|]. intros [?|[[->|?] ?]]; [done|auto|auto].
        * rewrite lookup_insert_ne by done. split; [intros [?|[? ?]]; auto|].
          intros [?|[[->|?] ?]]; [auto|done|auto].
      + intros y Hy. destruct (Hms y) as (H1 & H2 & H3); [by right|]. split; [done|]. split; [|done].
        rewrite lookup_insert_ne; [done|]. intros E. apply Hx. rewrite E. by apply list_elem_of_fmap_2. }
  destruct Hr as [H1 H2 H3 H4 H5 H6 H7].
  split; cbn [volumes snapshots group_snapshots set_field].
  - exact H1.
  - intros k sn [?|[_ ?]]%Hm'; auto.
  - intros k v Hv. destruct (m' !! k) as [sn|] eqn:E; [|done]. apply Hm' in E as [E|[Hi <-]].
    + rewrite (H3 k v Hv) in E. done.
    + destruct (Hms sn Hi) as (E & _). congruence.
  - exact H4.
  - intros k sn [E|[Hi _]]%Hm'; [by apply (H5 k)|]. by destruct (Hms sn Hi) as (_ & _ & ? & ? & _).
  - intros g x m Hg Hm. destruct (group_snapshots fd !! g) as [x0|] eqn:E.
    + pose proof (Hgs _ _ E). assert (x0 = x) as -> by congruence. destruct (H6 g x m E Hm) as (sn & Hsn & ?).
      exists sn. split; [apply Hm'; auto|done].
    + destruct (Hnew g x m Hg E Hm) as (sn & ? & ? & ?). exists sn. split; [apply Hm'; auto|done].
  - intros k sn g [E|[Hi <-]]%Hm' Hsg.
    + destruct (H7 k sn g E Hsg) as (x & ? & ?). eauto.
    + by destruct (Hms sn Hi) as (_ & _ & _ & _ & Hx); apply Hx.
Qed.

(** Snapshots go that no group left names. *)
Lemma refs_ok_remove fd (dead : string → bool) (gs' : gmap string GroupSnapshot) (sn' : gmap string Snapshot) rev :
  refs_ok fd →
  (∀ k, sn' !! k = if dead k then None else snapshots fd !! k) →
  (∀ g x, gs' !! g = Some x → group_snapshots fd !! g = Some x) →
  (∀ g x m, gs' !! g = Some x → m ∈ gs_members x → dead m = false) →
  (∀ k sn g x, snapshots fd !! k = Some sn → dead k = false → group_snapshot_id sn = Some g →
     group_snapshots fd !! g = Some x → gs' !! g = Some x) →
  refs_ok (fd <| snapshots := sn' |> <| group_snapshots := gs' |> <| revision := rev |>).
Proof.
  intros [H1 H2 H3 H4 H5 H6 H7] Hsn Hgs Hlive Hkeep.
  assert (∀ k sn, sn' !! k = Some sn → dead k = false ∧ snapshots fd !! k = Some sn) as Hs.
  { intros k sn. rewrite Hsn. by destruct (dead k). }
  split; cbn [volumes snapshots group_snapshots set_field].
  - exact H1.
  - intros k sn [_ ?]%Hs. auto.
  - intros k v Hv. rewrite Hsn. destruct (dead k); eauto.
  - exact H4.
  - intros k sn [_ ?]%Hs. eauto.
  - intros g x m Hg Hm. destruct (H6 g x m (Hgs _ _ Hg) Hm) as (sn & ? & ?). exists sn. split; [|done].
    by rewrite Hsn, (Hlive g x m).
  - intros k sn g [Hd Hk]%Hs Hg. destruct (H7 k sn g Hk Hg) as (x & Hx & ?). exists x. eauto.
Qed.

Lemma refs_ok_insert_volume fd nm v rev :
  refs_ok fd → volumes fd !! nm = None → snapshots fd !! nm = None → name v = nm →
  (∀ c, clone_of v = Some c → ∃ p, volumes fd !! clone_parent c = Some p ∧ clone_of p = None) →
  refs_ok (fd <| volumes ::= <[nm := v]> |> <| revision := rev |>).
Proof.
  intros [H1 H2 H3 H4 H5 H6 H7] Hv Hs Hn Hc.
  assert (∀ k x, volumes fd !! k = Some x → <[nm := v]> (volumes fd) !! k = Some x) as Hi.
  { intros k x Hk. rewrite lookup_insert_ne; [done|]. intros ->. congruence. }
  split; cbn [volumes snapshots group_snapshots set_field]; [|exact H2|..|exact H6|exact H7].
  - intros k x [[<- <-]|[? ?]]%lookup_insert_Some; auto.
  - intros k x [[<- <-]|[? ?]]%lookup_insert_Some; eauto.
  - intros k x c [[<- <-]|[? Hk]]%lookup_insert_Some Hxc.
    + destruct (Hc c Hxc) as (p & ? & ?). eauto.
    + destruct (H4 k x c Hk Hxc) as (p & ? & ?). eauto.
  - intros k sn Hk. destruct (H5 k sn Hk) as [(p & ? & ?) [y ?]]. split; eauto.
Qed.

(** Sorted, a list is shortened by [dedup] exactly when it repeats. *)
Lemma dedup_head x l : ∃ t, dedup (x :: l) = x :: t.
Proof.
  simpl. destruct (dedup l) as [|y t]; [eauto|]. destruct (x == y) eqn:E; [|eauto].
  apply eqb_prop in E as ->. eauto.
Qed.
Lemma dedup_length l : length (dedup l) ≤ length l.
Proof.
  induction l as [|x l IH]; simpl; [done|]. destruct (dedup l) as [|y t]; simpl in *; [lia|].
  destruct (x == y); simpl; lia.
Qed.
Lemma dedup_sorted l : StronglySorted String.le l → length (dedup l) = length l → NoDup l.
Proof.
  induction 1 as [|x l Hs IH Hx]; [by constructor|]. destruct l as [|y l]; [intros _; apply NoDup_singleton|].
  destruct (dedup_head y l) as [t Et]. pose proof (dedup_length (y :: l)) as Hle. intros Hlen.
  cbn [dedup] in Hlen. fold dedup in Hlen. change (match dedup l with [] => [y] | y0 :: t0 => if y == y0 then y0 :: t0 else y :: y0 :: t0 end)
    with (dedup (y :: l)) in Hlen. rewrite Et in *.
  destruct (x == y) eqn:E; cbn [length] in *; [lia|]. constructor; [|apply IH; lia].
  apply eqb_nprop in E. intros Hin. apply E. apply (anti_symm String.le).
  - by inversion Hx.
  - apply elem_of_cons in Hin as [->|Hin]; [done|]. apply StronglySorted_inv in Hs as [_ Hy].
    by apply (proj1 (Forall_forall _ _) Hy).
Qed.
(** The names asked for are all different. *)
Lemma names_distinct ids : (length (dedup (sorted_names ids)) =? length ids)%nat = true → NoDup ids.
Proof.
  intros Hl%Nat.eqb_eq. assert (sorted_names ids ≡ₚ ids) as Hp by apply merge_sort_Permutation.
  rewrite <-(Permutation_length Hp) in Hl. rewrite <-Hp. apply dedup_sorted; [|done].
  apply StronglySorted_merge_sort; apply _.
Qed.

Section alone.
Context {J : Type} `{Json J} `{HttpShow}.
Context `{Deserialize J EngineVolume} `{Deserialize J Slab} `{Deserialize J Discovery}.
Context (engine_token : NodeConfig → option string) (admin_credential : string → option string).

Definition intact {A : Type} (_ : A) (s : App) : Prop := refs_ok (fed s).

(** From a state whose references hold, exporting and reporting. *)
Lemma intact_export {A} (p : handler J A) s : guar export_step p → refs_ok (fed s) → alone p intact s.
Proof.
  intros Hg Hs. eapply (guar_wp_any export_step (λ _, True)); [apply _..|exact Hg|apply yields_True|].
  intros a s' He _. by apply (refs_ok_export s).
Qed.
Lemma snap_commit_guar subj msg : guar export_step (snap_commit (J:=J) subj msg).
Proof. unfold snap_commit. apply guar_bind; [apply quiet|intros _; apply guar_event_of]. Qed.
#[local] Instance delete_named_quiet at_ u n : Quiet (delete_named (J:=J) at_ u n).
Proof. unfold delete_named. apply _. Qed.
#[local] Instance delete_taken_quiet at_ t p e l : Quiet (delete_taken (J:=J) at_ t p e l).
Proof. unfold delete_taken, delete_by_name. apply _. Qed.
#[local] Instance ms_or_now_quiet o : Quiet (ms_or_now (J:=J) o).
Proof. unfold ms_or_now. apply _. Qed.
Lemma node_answers_guar G node : Reflexive G → guar G (node_answers (J:=J) node).
Proof. intros HR. unfold node_answers. apply guar_bind_reads; [done|]. intros s. apply quiet. Qed.
(** Behind the check that the node answers. *)
Lemma alone_answers {A} node (k : unit → handler J (result A ApiError)) Q s :
  alone (k tt) Q s → (∀ e, Q (Err e) s) → alone (bind_ok (node_answers node) k) Q s.
Proof.
  intros Hk He. unfold node_answers, bind_ok. apply wp_bind, wp_bind, wp_reads; [by intros ?|].
  destruct (map_or _ _ _); cbn; [exact Hk|apply He].
Qed.

Lemma create_snapshot_alone nm vid s : refs_ok (fed s) →
  alone (create_snapshot engine_token admin_credential nm vid) intact s.
Proof.
  intros Hr. unfold create_snapshot. apply wp_reads_ok; [|done]. intros [ex|at_] Hread; [done|].
  apply alone_answers; [|done]. apply wp_bind, wp_reads; [by intros ?|].
  apply wp_waits; [apply _|]. intros r. apply wp_waits_ok; [apply _| |done]. intros v.
  apply wp_waits; [apply _|]. intros created. apply wp_bind, wp_writes; [done|].
  apply intact_export; [apply guar_bind; [apply snap_commit_guar|done]|].
  unfold snapshot_reading in Hread. destruct (snapshots (fed s) !! nm) eqn:Hs; [by destruct (_ == _)|].
  destruct (name_free (fed s) nm) as [[]|] eqn:Hf; [|done]. simpl in Hread.
  destruct (volumes (fed s) !! vid) as [vol|] eqn:Hvol; [|done]. simpl in Hread.
  destruct (data_of _ _ _ vol) as [a|] eqn:Ha; [|done]. injection Hread as ->.
  apply name_free_Ok in Hf as [Hf1 Hf2]. pose proof (data_of_parent _ _ _ _ _ _ Hr Hvol Ha) as Hp.
  set (sn := snapshot_of nm vid at_ _ created v).
  apply (refs_ok_insert_snapshots (fed s) [sn] (group_snapshots (fed s))); [done|apply NoDup_singleton|..]; [|auto|].
  - intros m ->%list_elem_of_singleton. simpl. split_and!; [done|done|done|by rewrite Hvol|done].
  - intros g x m Hg Hn. congruence.
Qed.

Lemma delete_snapshot_alone id s : refs_ok (fed s) →
  alone (delete_snapshot (J:=J) engine_token admin_credential id) intact s.
Proof.
  intros Hr. unfold delete_snapshot. apply wp_reads_ok; [|done]. intros [[snap at_]|] Hread; [|done].
  apply alone_answers; [|done]. apply wp_waits_ok; [apply _| |done]. intros _. apply wp_bind, wp_writes; [done|].
  apply intact_export; [apply guar_bind; [apply snap_commit_guar|done]|].
  unfold snapshot_to_delete in Hread. destruct (snapshots (fed s) !! id) as [sn|] eqn:Hs; [|done].
  destruct (group_snapshot_id sn) as [|] eqn:Hg; [done|].
  apply (refs_ok_remove (fed s) (λ k, k == id) (group_snapshots (fed s)) (delete id (snapshots (fed s)))); [done|..].
  - intros k. destruct (k == id) eqn:E.
    + apply eqb_prop in E as ->. apply lookup_delete_eq.
    + apply eqb_nprop in E. by apply lookup_delete_ne.
  - done.
  - intros g x m Hx Hm. destruct (rf_group _ Hr g x m Hx Hm) as (y & Hy & Hyg). apply eqb_false. intros ->. congruence.
  - done.
Qed.

Lemma foldl_insert_snapshots fd ms :
  foldl (λ fd m, fd <| snapshots ::= <[snap_name m := m]> |>) fd ms
  = fd <| snapshots := foldl (λ m sn, <[snap_name sn := sn]> m) (snapshots fd) ms |>.
Proof. revert fd. induction ms as [|m ms IH]; intros fd; simpl; [by destruct fd|]. by rewrite IH. Qed.
Lemma foldl_delete_snapshots fd ms :
  foldl (λ fd m, fd <| snapshots ::= delete m |>) fd ms
  = fd <| snapshots := foldl (λ m k, delete k m) (snapshots fd) ms |>.
Proof. revert fd. induction ms as [|m ms IH]; intros fd; simpl; [by destruct fd|]. by rewrite IH. Qed.
Lemma foldl_delete_lookup {V} (m : gmap string V) ks k :
  foldl (λ m k, delete k m) m ks !! k = if existsb (λ x, x == k) ks then None else m !! k.
Proof.
  revert m. induction ks as [|x ks IH]; intros m; simpl; [done|]. rewrite IH.
  destruct (x == k) eqn:E; simpl.
  - apply eqb_prop in E as ->. rewrite lookup_delete_eq. by destruct (existsb _ _).
  - apply eqb_nprop in E. by rewrite lookup_delete_ne.
Qed.

Lemma member_snapshots_names nm created l ens :
  map snap_name (member_snapshots (J:=J) nm created l ens) = map (λ x, member_name nm x.1.1) l.
Proof. revert ens. induction l as [|[[v z] a] l IH]; intros ens; simpl; [done|]. by rewrite IH. Qed.
Lemma member_snapshots_elem nm created l ens m : m ∈ member_snapshots (J:=J) nm created l ens →
  ∃ v z a, (v, z, a) ∈ l ∧ snap_name m = member_name nm v ∧ source_volume_id m = v ∧ snap_parent m = da_parent a
    ∧ group_snapshot_id m = Some nm.
Proof.
  revert ens. induction l as [|[[v z] a] l IH]; intros ens; simpl; [by intros ?%not_elem_of_nil|].
  rewrite elem_of_cons. intros [->|Hm].
  - exists v, z, a. split; [by left|done].
  - destruct (IH _ Hm) as (v' & z' & a' & ? & ?). exists v', z', a'. split; [by right|done].
Qed.

Lemma try_map_Ok {A B X} (f : A → result B X) l bs : try_map f l = Ok bs → Forall2 (λ a b, f a = Ok b) l bs.
Proof.
  revert bs. induction l as [|a l IH]; intros bs; simpl; [by intros [= <-]|].
  destruct (f a) eqn:E; [|done]. simpl. destruct (try_map f l) eqn:El; [|done]. simpl. intros [= <-].
  constructor; auto.
Qed.

Lemma member_name_inj nm : Inj (=) (=) (member_name nm).
Proof. intros v w E. unfold member_name in E. by apply (inj (String.append _)) in E; apply (inj (String.append _)) in E. Qed.

Lemma group_volume_Ok fd nm v a : refs_ok fd → group_volume engine_token admin_credential nm fd v = Ok a →
  volumes fd !! member_name nm v = None ∧ snapshots fd !! member_name nm v = None ∧ is_Some (volumes fd !! v)
  ∧ ∃ p, volumes fd !! da_parent a = Some p ∧ clone_of p = None.
Proof.
  intros Hr. unfold group_volume. destruct (name_free fd _) as [[]|] eqn:Hf; [|done]. simpl.
  destruct (volumes fd !! v) as [vol|] eqn:Hv; [|done]. simpl. intros Ha.
  apply name_free_Ok in Hf as [? ?]. split_and!; [done..|by eapply data_of_parent].
Qed.

Lemma insert_group_ok fd nm ids ats sizes ens created node r :
  refs_ok fd → NoDup ids → group_snapshots fd !! nm = None → length sizes = length ids →
  Forall2 (λ v a, group_volume engine_token admin_credential nm fd v = Ok a) ids ats →
  let ms := member_snapshots (J:=J) nm created (zip (zip ids sizes) ats) ens in
  refs_ok (insert_group (group_of nm created ms node r) ms fd).
Proof.
  intros Hr Hnd Hg Hsz Hats ms. unfold insert_group, bump. rewrite foldl_insert_snapshots.
  assert (map snap_name ms = map (member_name nm) ids) as Hn.
  { unfold ms. rewrite member_snapshots_names. pose proof (Forall2_length _ _ _ Hats) as Hla.
    rewrite <-(map_map (λ x : string * Z * DataAt, x.1.1) (member_name nm)). f_equal.
    rewrite <-(map_map fst fst). change (map fst (map fst (zip (zip ids sizes) ats)) = ids).
    change (map (@fst (string * Z) DataAt)) with (fmap (M:=list) (@fst (string * Z) DataAt)).
    rewrite fst_zip by (rewrite length_zip_with; lia).
    change (map (@fst string Z)) with (fmap (M:=list) (@fst string Z)). apply fst_zip. lia. }
  apply (refs_ok_insert_snapshots fd ms (<[nm := group_of nm created ms node r]> (group_snapshots fd))).
  - done.
  - rewrite Hn. by apply (NoDup_fmap_2 _).
  - intros m Hm. pose proof (member_snapshots_elem nm created _ ens m Hm) as (v & z & a & Hin & -> & -> & -> & Hgm).
    assert (group_volume engine_token admin_credential nm fd v = Ok a) as Hv.
    { apply list_elem_of_lookup in Hin as [i Hi]. apply lookup_zip_Some in Hi as [Hi1 Hi2].
      apply lookup_zip_Some in Hi1 as [Hi1 _]. exact (Forall2_lookup_lr _ _ _ _ _ _ Hats Hi1 Hi2). }
    destruct (group_volume_Ok fd nm v a Hr Hv) as (H4 & H5 & H6 & H7). split_and!; [done..|].
    rewrite Hgm. intros g [= <-]. eexists. rewrite lookup_insert_eq. split; [done|].
    cbn [gs_members group_of]. rewrite Hn. apply list_elem_of_fmap_2. apply list_elem_of_lookup in Hin as [i Hi].
    apply lookup_zip_Some in Hi as [Hi1 _]. apply lookup_zip_Some in Hi1 as [Hi1 _]. by eapply list_elem_of_lookup_2.
  - intros g x Hx. rewrite lookup_insert_ne; [done|]. intros <-. congruence.
  - intros g x m [[<- <-]|[? Hx]]%lookup_insert_Some Hno Hm; [|congruence].
    cbn [gs_members group_of] in Hm. apply list_elem_of_fmap in Hm as (sn & -> & Hsn).
    exists sn. split; [done|]. split; [done|].
    by destruct (member_snapshots_elem nm created _ ens sn Hsn) as (? & ? & ? & _ & _ & _ & _ & ?).
Qed.

Lemma create_group_alone nm ids s : refs_ok (fed s) →
  alone (create_group engine_token admin_credential nm ids) intact s.
Proof.
  intros Hr. unfold create_group. destruct ids as [|i0 l]; [done|]. set (ids := i0 :: l).
  destruct (length (dedup (sorted_names ids)) =? length ids)%nat eqn:Hd; cbn [negb]; [|done].
  apply names_distinct in Hd. apply wp_reads_ok; [|done]. intros [view|ats] Hread; [done|].
  destruct ats as [|a0 ats']; [done|]. set (ats := a0 :: ats') in *. unfold take_group.
  destruct (existsb _ ats); [done|].
  apply alone_answers; [|done]. apply wp_waits; [apply _|]. intros r. apply wp_waits_ok; [apply _| |done]. intros v.
  apply wp_waits; [apply _|]. intros created. apply wp_bind, wp_reads; [by intros ?|].
  apply wp_bind, wp_atomic; [done|].
  apply intact_export; [apply guar_bind; [apply snap_commit_guar|done]|].
  unfold group_reading in Hread. destruct (group_snapshots (fed s) !! nm) eqn:Hg; [by destruct (_ == _)|].
  destruct (try_map _ ids) as [ats0|] eqn:Ha; [|done]. injection Hread as ->. apply try_map_Ok in Ha.
  apply insert_group_ok; [done..|by rewrite length_map|done].
Qed.

Lemma delete_group_alone id s : refs_ok (fed s) →
  alone (delete_group (J:=J) engine_token admin_credential id) intact s.
Proof.
  intros Hr. unfold delete_group. apply wp_reads_ok; [|done]. intros [[[g ms] at_]|] Hread; [|done].
  apply wp_bind. eapply wp_mono with (Q := λ _ s', s' = s).
  { destruct at_ as [at_|]; [|done]. apply alone_answers; [|done].
    eapply (guar_wp_any eq (λ _, True)); [apply _..|apply quiet|apply yields_True|]. by intros ? ? <- _. }
  intros [[]|e] s' ->; [|done]. apply wp_bind, wp_writes; [done|].
  apply intact_export; [apply guar_bind; [apply snap_commit_guar|done]|].
  unfold group_to_delete in Hread. destruct (group_snapshots (fed s) !! id) as [g'|] eqn:Hg; [|done].
  assert (g' = g) as ->.
  { destruct (group_members (fed s) g') as [|m ms']; [by injection Hread|].
    destruct (snapshot_home _ _ _ m); [|done]. by injection Hread. }
  clear Hread. cbn [fed set_field]. unfold drop_group, bump. rewrite foldl_delete_snapshots.
  apply (refs_ok_remove (fed s) (λ k, existsb (λ x, x == k) (gs_members g)) (delete id (group_snapshots (fed s)))); [done|..].
  - intros k. apply foldl_delete_lookup.
  - intros h x [_ ?]%lookup_delete_Some. done.
  - intros h x m [Hne Hx]%lookup_delete_Some Hm. apply existsb_false. intros y Hy. apply eqb_false. intros ->.
    destruct (rf_group _ Hr _ _ _ Hg Hy) as (sn & Hsn & Hi). destruct (rf_group _ Hr _ _ _ Hx Hm) as (sn' & Hsn' & Hi').
    congruence.
  - intros k sn h x Hk Hd Hh Hx. rewrite lookup_delete_ne; [done|]. intros ->.
    destruct (rf_member _ Hr _ _ _ Hk Hh) as (y & Hy & Hin). assert (y = g) as -> by congruence.
    assert (existsb (λ x, x == k) (gs_members g) = true) as Ht; [|congruence].
    apply existsb_true. exists k. split; [done|apply eqb_refl].
Qed.

Lemma create_clone_alone nm size source hs s : refs_ok (fed s) →
  alone (create_clone engine_token admin_credential nm size source hs) intact s.
Proof.
  intros Hr. unfold create_clone. apply wp_reads_ok; [|done]. intros [[at_ parent] en] Hread.
  apply alone_answers; [|done]. apply wp_waits_ok; [apply _| |done]. intros master.
  apply wp_waits; [apply _|]. intros r. apply wp_waits_ok; [apply _| |done]. intros v.
  apply wp_waits_ok; [apply _| |done]. intros id. apply wp_waits; [apply _|]. intros now.
  unfold insert_volume. apply wp_bind, wp_writes; [done|].
  apply intact_export.
  { apply guar_bind; [apply snap_commit_guar|intros _]. apply guar_bind; [apply publish_guar|intros _].
    apply guar_reads. done. }
  unfold clone_reading in Hread. destruct (name_free (fed s) nm) as [[]|] eqn:Hf; [|done].
  apply name_free_Ok in Hf as [Hf1 Hf2]. simpl in Hread.
  destruct (clone_origin (fed s) source) as [[[vol o] least]|] eqn:Ho; [|done]. simpl in Hread.
  destruct (size <? least)%Z; [done|].
  destruct (data_of _ _ _ vol) as [a|] eqn:Ha; [|done]. simpl in Hread.
  destruct (volumes (fed s) !! da_parent a) as [p|] eqn:Hp; [|done]. injection Hread as <- <- <-.
  assert (∃ k, volumes (fed s) !! k = Some vol) as [k Hk].
  { unfold clone_origin in Ho. destruct source as [sid|vid].
    - destruct (snapshots (fed s) !! sid) as [sn|]; [|done]. simpl in Ho.
      destruct (volumes (fed s) !! snap_parent sn) as [v0|] eqn:E; [|done]. injection Ho as -> <- <-. eauto.
    - destruct (volumes (fed s) !! vid) as [v0|] eqn:E; [|done]. injection Ho as -> <- <-. eauto. }
  destruct (data_of_parent _ _ _ _ _ _ Hr Hk Ha) as (p' & Hp' & Hnc). assert (p' = p) as -> by congruence.
  apply refs_ok_insert_volume; [done..|]. intros c [= <-]. exists p. cbn [clone_parent].
  by rewrite (rf_volume _ Hr _ _ Hp).
Qed.
End alone.

(** ** A group one of whose volumes moved *)

Section example.
#[local] Existing Instances no_text no_volume no_slab no_discovery.
Local Open Scope string_scope.
(** An engine that does what it is asked, and the URLs it was asked at. *)
Definition logging_env (R : Type) (c : Call Tree R) (w : list string) : R * list string :=
  match c in Call _ R return R * list string with
  | Http _ u _ _ _ => (Ok (200%Z, Some TNull), (w ++ [u])%list)
  | HttpText _ _ => (Err "no route", w)
  | Now => (7%Z, w)
  | PushToPeers | Persist | Sleep _ => (tt, w)
  end.
Definition grouped (nm v : string) : Snapshot := MkSnapshot nm nm v 1024 true 1 (Some "g") v "n1" nm (Some ("id-" +:+ v)).
Definition served_on (n v : string) : DistVolume := new_volume v 1024 None 1 "node" [new_leg n (Some ("v-" +:+ v)) None] 0 [] None None.
(** [g] was taken on [n1]; [b] is served from [n2] by now. *)
Definition group_app : App :=
  App_new (FedState_default
    <| nodes := {["n1" := lone_node "n1" true; "n2" := lone_node "n2" true]} |>
    <| volumes := {["a" := served_on "n1" "a"; "b" := served_on "n2" "b"]} |>
    <| snapshots := {["g-a" := grouped "g-a" "a"; "g-b" := grouped "g-b" "b"]} |>
    <| group_snapshots := {["g" := MkGroupSnapshot "g" "g" ["g-a"; "g-b"] true 1 "n1" (Some "gid")]} |>) None.
(** Deleting the group asks the first member's node alone, and forgets both
    members. *)
Example group_delete_asks_one_node :
  let p := delete_group (J:=Tree) (λ _, None) (λ _, None) "g" in
  is_ok (run_value logging_env p group_app []) = true
  ∧ bt_keys (snapshots (fed (run_state logging_env p group_app []))) = []
  ∧ run_world logging_env p group_app [] = ["http://n1:9000/v1/group-snapshots/gid"].
Proof. intros p. split; [vm_compute; reflexivity|]. split; vm_compute; reflexivity. Qed.
End example.
