(* ===== verification/Volumes.v ===== *)
(** * Volumes over the API (src/api/mod.rs)

    The plan of a placement, creating a volume (its legs, the rollback, the
    assembly, the export), deleting one (its backups, its export, its array,
    its legs, orphans for what cannot be reached), its export and its hosts,
    retrying its assembly. Shown: what a create leaves when it succeeds and
    when it fails; that a delete drops the record only with every leg deleted
    or on a list to reap; that requests handled one at a time keep every
    reference of snapshots and clones; and what two at a time can break. *)

From stdpp Require Import relations.
From S2P Require Import Prelude F64 Config Model Placement Events Refusal Async Json Inventory Sync.
From S2P Require Import Recovery App Engine Publish Replace Fencing Migrate Backups Snapshots.
From stdpp Require Import options.

Local Open Scope string_scope.

(** ** Requests *)

Record PlanRequest := MkPlanRequest {
  pr_pool : option string;
  pr_size_bytes : Z;
  pr_replicas : option Z;
  pr_rung : option string;
  pr_tier : option string;
  pr_prefer_node : option string;
  pr_raid : option RaidProfile;
}.
Record ResolvedPlan := MkResolvedPlan { rp_replicas : Z; rp_rung : string; rp_candidates : list Candidate }.
Record HostRequest := MkHostRequest { hr_host_nqn : string; hr_dhchap : bool }.
Record CreateVolumeRequest := MkCreateVolumeRequest {
  cv_name : string;
  cv_size_bytes : Z;
  cv_pool : option string;
  cv_replicas : option Z;
  cv_rung : option string;
  cv_tier : option string;
  cv_bandwidth_class : option BandwidthClass;
  cv_prefer_node : option string;
  cv_hosts : list HostRequest;
  cv_extent_size_bytes : option Z;
  cv_raid : option RaidProfile;
  cv_source : option VolumeSource;
  cv_encrypted : bool;
  cv_qos_class : option string;
}.
#[export] Instance CreateVolumeRequest_eta : Eta CreateVolumeRequest := λ r,
  MkCreateVolumeRequest (cv_name r) (cv_size_bytes r) (cv_pool r) (cv_replicas r) (cv_rung r) (cv_tier r)
    (cv_bandwidth_class r) (cv_prefer_node r) (cv_hosts r) (cv_extent_size_bytes r) (cv_raid r) (cv_source r)
    (cv_encrypted r) (cv_qos_class r).
Record ExportBody := MkExportBody { eb_hosts : list HostRequest; eb_recreate : bool }.
Definition ExportBody_default : ExportBody := MkExportBody [] false.

(** [host_records]: one record per host; a secret asked for once is asked
    for. *)
Definition host_record (out : list HostServe) (h : HostRequest) : result (list HostServe) ApiError :=
  let nqn := trim (hr_host_nqn h) in
  if negb (valid_host_nqn nqn) then
    Err (ApiBadRequest (debug_str nqn +:+ " is not a host NQN (nqn.…, at most 223 bytes)"))
  else Ok (if existsb (λ x, hs_host_nqn x == nqn) out
           then update_first (λ x, hs_host_nqn x == nqn) (λ x, x <| dhchap ::= λ d, d || hr_dhchap h |>) out
           else (out ++ [HostServe_new nqn (hr_dhchap h)])%list).
Fixpoint host_records_from (out : list HostServe) (hs : list HostRequest) : result (list HostServe) ApiError :=
  match hs with
  | [] => Ok out
  | h :: hs => let? out := host_record out h in host_records_from out hs
  end.
Definition host_records (hs : list HostRequest) : result (list HostServe) ApiError := host_records_from [] hs.

(** The requests a clone's source decides. *)
Definition asks_for_legs (r : CreateVolumeRequest) : bool :=
  is_some (cv_raid r) || is_some (cv_replicas r) || is_some (cv_pool r) || is_some (cv_extent_size_bytes r)
  || is_some (cv_rung r) || is_some (cv_tier r) || is_some (cv_prefer_node r).
Definition reserved_name : ApiError :=
  ApiBadRequest ("names ending in " +:+ debug_str MIRROR_SUFFIX +:+ " are reserved for served mirrors").

(** How making the legs ends early: a picked node that is gone by then, or
    an engine that did not make its leg. *)
Inductive LegsEnd :=
  | LegsGone (e : ApiError)
  | LegsFailed (made : list Leg) (why : string).

Record Created := MkCreated { created_view : option View; prefer_node_honored : option bool }.

Section volumes.
Context {J : Type} `{Json J} `{HttpShow}.
Context `{Deserialize J EngineVolume} `{Deserialize J Slab} `{Deserialize J Discovery}.
Context (cfg : Config) (engine_token : NodeConfig → option string) (admin_credential : string → option string).
Abbreviation engine_for := (engine_for engine_token admin_credential).
Abbreviation api A := (handler J (result A ApiError)).

Definition volume_event (subj : string) (sev : Severity) (msg : string) : handler J unit := event_of "volume" subj sev msg.
Definition as_conflict {A : Type} (r : result A EngineError) : result A ApiError :=
  map_err (λ e, ApiConflict (err_text e)) r.

(** ** Placing *)

Definition parity_error (r : RaidProfile) (m : string) : ApiError :=
  match r with Parity1 | Parity2 => ApiNotImplemented m | _ => ApiBadRequest m end.
Definition plan_candidates (fd : FedState) (p : option PoolConfig) (tier : option string) : list Candidate :=
  map candidate_of
    (List.filter (λ n, map_or true (λ t, nc_tier (config n) == Some t) tier)
      (List.filter (λ n, map_or true (λ p, matches (pool_selector p) (config n)) p)
        (List.filter (λ n, healthy (status n)) (bt_values (nodes fd))))).
Definition resolve_plan (req : PlanRequest) (fd : FedState) : result ResolvedPlan ApiError :=
  let? p := (match pr_pool req with
    | Some n => let? p := ok_or (pool (pools cfg) n) (ApiNotFound ("pool " +:+ debug_str n)) in Ok (Some p)
    | None => Ok None
    end) in
  let? n := (match pr_raid req with
    | Some r => map_err (parity_error r) (RaidProfile_replicas r (pr_replicas req) (fmap (M:=option) pool_replicas p))
    | None => Ok (Z.max (unwrap_or 1%Z (opt_or (pr_replicas req) (fmap (M:=option) pool_replicas p))) 1)
    end) in
  let rg := unwrap_or "node" (opt_or (pr_rung req) (fmap (M:=option) pool_rung p)) in
  if negb (existsb (λ x, x == rg) (rungs cfg)) then Err (ApiBadRequest ("rung " +:+ debug_str rg +:+ " not in federation.rungs"))
  else Ok {| rp_replicas := n; rp_rung := rg; rp_candidates := plan_candidates fd p (pr_tier req) |}.
Definition pick_nodes (req : PlanRequest) (fd : FedState) : result (ResolvedPlan * list string * bool) ApiError :=
  let? rp := resolve_plan req fd in
  let? picked := map_err ApiConflict (plan_preferring (rp_candidates rp) (rungs cfg) (rp_rung rp) (rp_replicas rp)
                                       (pr_size_bytes req) (io_weight cfg) (pr_prefer_node req)) in
  Ok (rp, picked.1, picked.2).
(** [plan_dry_run]: replicas, rung, legs and whether the preference held. *)
Definition plan_dry_run (req : PlanRequest) : api (Z * string * list string * option bool) :=
  let!? r := reads (λ s, pick_nodes req (fed s)) in
  let '(rp, picks, honored) := r in
  Ret (Ok (rp_replicas rp, rp_rung rp, picks, (λ _, honored) <$> pr_prefer_node req)).

(** ** Creating *)

(** Before anything is asked of an engine. *)
Definition create_checks (r : CreateVolumeRequest) (fd : FedState) : result unit ApiError :=
  if is_some (volumes fd !! cv_name r) then Err (ApiConflict ("volume " +:+ debug_str (cv_name r) +:+ " exists"))
  else if is_some (snapshots fd !! cv_name r) then Err (ApiConflict (debug_str (cv_name r) +:+ " is a snapshot"))
  else if is_some_and source_deleted (backups fd !! cv_name r) then
    Err (ApiConflict (debug_str (cv_name r)
      +:+ ": backups of a deleted volume of that name exist — restore from them or purge them (DELETE /api/v1/volumes/"
      +:+ cv_name r +:+ "/backup?purge=true)"))
  else Ok tt.
Definition plan_request (r : CreateVolumeRequest) : PlanRequest :=
  {| pr_pool := cv_pool r; pr_size_bytes := cv_size_bytes r; pr_replicas := cv_replicas r; pr_rung := cv_rung r;
     pr_tier := cv_tier r; pr_prefer_node := cv_prefer_node r; pr_raid := cv_raid r |}.
(** One leg of the loop over the picks. *)
Definition create_leg (r : CreateVolumeRequest) (made : list Leg) (node : string) : handler J (result (list Leg) LegsEnd) :=
  let! e := reads (λ s, fmap (M:=option) engine_for (nodes (fed s) !! node)) in
  match e with
  | None => Ret (Err (LegsGone (ApiNotFound ("node " +:+ debug_str node))))
  | Some e =>
      let! c := create_volume e (cv_name r) (cv_size_bytes r) (cv_extent_size_bytes r) in
      Ret (match c with
           | Ok v => Ok (made ++ [new_leg node (get_str "id" v) (master_node_of v)])%list
           | Err x => Err (LegsFailed made (node +:+ ": " +:+ err_text x))
           end)
  end.
(** Roll back what was created. *)
Definition roll_back (l : Leg) : handler J unit :=
  match leg_volume_id l with
  | None => Ret tt
  | Some id =>
      let! e := reads (λ s, fmap (M:=option) engine_for (nodes (fed s) !! leg_node l)) in
      match e with
      | Some e => delete_volume e id ;! Ret tt
      | None => Ret tt
      end
  end.
Definition create_legs (r : CreateVolumeRequest) (picks : list string) : api (list Leg) :=
  let! ls := for_try (create_leg r) [] picks in
  match ls with
  | Ok ls => Ret (Ok ls)
  | Err (LegsGone e) => Ret (Err e)
  | Err (LegsFailed made why) =>
      for_each roll_back made ;! Ret (Err (ApiUpstream ("leg create failed: " +:+ why)))
  end.
Definition not_preferred (prefer : option string) (honored : bool) : string :=
  match prefer, honored with
  | Some p, false => " — preferred node " +:+ p +:+ " not used (unhealthy, outside the pool or tier, or no room)"
  | _, _ => ""
  end.
(** Wire the legs; a failure is told and leaves the volume pending. *)
Definition assemble_created (nm : string) : handler J bool :=
  let! r := assemble cfg engine_token admin_credential nm in
  match r with
  | Ok _ => Ret true
  | Err e =>
      event_of "assemble" nm Error (nm +:+ ": assembly failed, legs kept; retried automatically once every leg's node is healthy (after "
        +:+ pretty (cooldown_secs (recovery cfg)) +:+ "s), or POST /api/v1/volumes/" +:+ nm +:+ "/assemble: " +:+ err_text e) ;!
      Ret false
  end.
(** The record is made: from here the request succeeds. *)
Definition created_volume (r : CreateVolumeRequest) (rp : ResolvedPlan) (ls : list Leg) (hs : list HostServe) (now : time)
    : DistVolume :=
  new_volume (cv_name r) (cv_size_bytes r) (cv_pool r) (rp_replicas rp) (rp_rung rp) ls now hs (cv_bandwidth_class r)
    (cv_extent_size_bytes r).
Definition record_created (r : CreateVolumeRequest) (rp : ResolvedPlan) (picks : list string) (honored : bool)
    (ls : list Leg) (hs : list HostServe) : api Created :=
  let nm := cv_name r in
  let! now := invoke Now in
  insert_volume nm (created_volume r rp ls hs now) ;!
  invoke PushToPeers ;!
  volume_event nm Info (nm +:+ ": created, " +:+ pretty (rp_replicas rp) +:+ " leg(s) across rung " +:+ debug_str (rp_rung rp)
    +:+ " on [" +:+ join ", " picks +:+ "]" +:+ not_preferred (cv_prefer_node r) honored) ;!
  invoke Persist ;!
  let! assembled := (if (1 <? length ls)%nat then assemble_created nm else Ret true) in
  (if assembled : bool then publish engine_token admin_credential nm ;! Ret tt else Ret tt) ;!
  let! view := reads (λ s, fmap (M:=option) (view_in (fed s) (heads s)) (volumes (fed s) !! nm)) in
  Ret (Ok {| created_view := view;
             prefer_node_honored := if is_some (cv_prefer_node r) && is_some view then Some honored else None |}).
Definition create_with_legs (r : CreateVolumeRequest) (hs : list HostServe) : api Created :=
  let!? _ := reads (λ s, create_checks r (fed s)) in
  let!? picked := reads (λ s, pick_nodes (plan_request r) (fed s)) in
  let '(rp, picks, honored) := picked in
  let!? ls := create_legs r picks in
  record_created r rp picks honored ls hs.
Definition create_from_source (r : CreateVolumeRequest) (source : VolumeSource) (hs : list HostServe) : api Created :=
  if asks_for_legs r then
    Ret (Err (ApiBadRequest "a clone lives on its source's array (or leg): raid, replicas, pool, rung, tier, prefer_node and extent_size_bytes are its source's"))
  else if ends_with MIRROR_SUFFIX (cv_name r) then Ret (Err reserved_name)
  else
    let!? v := create_clone engine_token admin_credential (cv_name r) (cv_size_bytes r) source hs in
    Ret (Ok {| created_view := v; prefer_node_honored := None |}).
(** [create_volume]. *)
Definition create_volume_request (r : CreateVolumeRequest) : api Created :=
  if (cv_name r == "") || (cv_size_bytes r =? 0)%Z then Ret (Err (ApiBadRequest "name and size_bytes required"))
  else
    let!? hs := Ret (host_records (cv_hosts r)) in
    if cv_encrypted r || is_some (cv_qos_class r) then
      Ret (Err (ApiNotImplemented "encrypted and qos_class are not applied by the engine yet (stormblock#319): refused rather than recorded, so no volume claims an encryption or a QoS class it does not have"))
    else match cv_source r with
    | Some source => create_from_source r source hs
    | None =>
        match opt_filter (λ e, negb (valid_extent_size e)) (cv_extent_size_bytes r) with
        | Some e => Ret (Err (ApiBadRequest ("extent_size_bytes " +:+ pretty e +:+ ": a power of two of 4096 or more")))
        | None =>
            if ends_with MIRROR_SUFFIX (cv_name r) then Ret (Err reserved_name) else create_with_legs r hs
        end
    end.

(** ** Deleting *)

(** What a delete finds, and what it refuses. *)
Definition delete_reading (nm : string) (s : App) : result DistVolume ApiError :=
  let fd := fed s in
  let? vol := ok_or (volumes fd !! nm) (ApiNotFound ("volume " +:+ debug_str nm)) in
  match dependents_of fd nm with
  | _ :: _ as deps => Err (ApiConflict (nm +:+ ": " +:+ join ", " deps +:+ " still on its data — delete them first"))
  | [] =>
      if is_some (clone_of vol) then
        let node := unwrap_or "" (ex_node (export vol)) in
        if node_healthy fd node then Ok vol
        else Err (ApiConflict (nm +:+ ": " +:+ node +:+ " holds the clone and is unreachable"))
      else Ok vol
  end.
Definition orphan_of (nm : string) (l : Leg) (id : string) (now : time) : Orphan :=
  {| orphan_node := leg_node l; orphan_volume_id := id; orphan_master_node := leg_master_node l; of_volume := nm;
     orphan_reason := "volume deleted while its node was unreachable"; orphan_since := now |}.
(** One leg: deleted, to be reaped later, or an error. *)
Definition delete_leg (nm : string) (acc : list Orphan * list string) (l : Leg) : handler J (list Orphan * list string) :=
  match leg_volume_id l with
  | None => Ret acc
  | Some id =>
      let! e := reads (λ s, fmap (M:=option) (λ n, (engine_for n, healthy (status n))) (nodes (fed s) !! leg_node l)) in
      match e with
      | Some (_, false) => let! now := invoke Now in Ret (acc.1 ++ [orphan_of nm l id now], acc.2)%list
      | Some (e, true) =>
          let! r := delete_volume e id in
          Ret (acc.1, match r with Ok _ => acc.2 | Err x => acc.2 ++ [leg_node l +:+ ": " +:+ err_text x] end)%list
      | None => Ret (acc.1, acc.2 ++ [leg_node l +:+ ": node no longer known"])%list
      end
  end.
Definition forget_volume (nm : string) (os : list Orphan) (fd : FedState) : FedState :=
  bump (fd <| volumes ::= delete nm |> <| orphans ::= λ l, (l ++ os)%list |>).
Definition delete_volume_request (nm : string) : api unit :=
  let!? vol := reads (delete_reading nm) in
  let!? _ := on_volume_delete engine_token admin_credential nm in
  let! r := revoke engine_token admin_credential vol in
  match r with
  | Err e => Ret (Err (ApiUpstream ("export not revoked: " +:+ err_text e +:+ " — volume record kept")))
  | Ok _ =>
      let! errors := teardown engine_token admin_credential vol in
      (match errors with
       | [] => Ret tt
       | _ => volume_event nm Warning (nm +:+ ": teardown issues: " +:+ join "; " errors)
       end) ;!
      let! done := for_fold (delete_leg nm) ([], []) (all_legs vol) in
      let '(os, errors) := done in
      match errors with
      | _ :: _ => Ret (Err (ApiUpstream ("legs not deleted: " +:+ join "; " errors +:+ " — volume record kept")))
      | [] =>
          writes (λ s, s <| fed ::= forget_volume nm os |>) ;!
          invoke PushToPeers ;!
          volume_event nm Info (match os with
            | [] => nm +:+ ": deleted (" +:+ pretty (Z.of_nat (length (legs vol))) +:+ " legs)"
            | _ => nm +:+ ": deleted (" +:+ pretty (Z.of_nat (length (legs vol))) +:+ " legs; " +:+ pretty (Z.of_nat (length os))
                   +:+ " on unreachable nodes left to reap)"
            end) ;!
          invoke Persist ;!
          Ret (Ok tt)
      end
  end.

(** ** Serving *)

(** The body: none when it is all ASCII white space. *)
Definition export_body (parse : string → result ExportBody string) (body : string) : result ExportBody ApiError :=
  if all_chars is_ascii_whitespace body then Ok ExportBody_default
  else map_err (λ e, ApiBadRequest ("body: " +:+ e)) (parse body).
Definition add_host_record (l : list HostServe) (h : HostServe) : list HostServe :=
  if existsb (λ x, hs_host_nqn x == hs_host_nqn h) l
  then update_first (λ x, hs_host_nqn x == hs_host_nqn h) (λ x, x <| dhchap ::= λ d, d || dhchap h |>) l
  else (l ++ [h])%list.
Definition add_hosts (add : list HostServe) (ex : Export) : Export :=
  ex <| per_host ::= λ p, p || (match add with [] => false | _ => true end) |> <| hosts ::= λ l, foldl add_host_record l add |>.
(** The revision is not counted. *)
Definition export_hosts (nm : string) (add : list HostServe) (s : App) : App * result unit ApiError :=
  match volumes (fed s) !! nm with
  | None => (s, Err (ApiNotFound ("volume " +:+ debug_str nm)))
  | Some _ => (s <| fed ::= λ fd, update_volume fd nm (λ v, v <| export ::= add_hosts add |>) |>, Ok tt)
  end.
Definition export_volume (parse : string → result ExportBody string) (nm body : string) : api Export :=
  let!? b := Ret (export_body parse body) in
  let!? add := Ret (host_records (eb_hosts b)) in
  let!? _ := atomic (export_hosts nm add) in
  let! r := (if eb_recreate b then recreate_export engine_token admin_credential nm
             else publish engine_token admin_credential nm) in
  Ret (as_conflict r).
Definition known_volume (nm : string) : api unit :=
  reads (λ s, if is_some (volumes (fed s) !! nm) then Ok tt else Err (ApiNotFound ("volume " +:+ debug_str nm))).
Definition serve_export_host (nm : string) (h : HostRequest) : api (HostServe * option string) :=
  let!? _ := known_volume nm in
  if negb (valid_host_nqn (hr_host_nqn h)) then
    Ret (Err (ApiBadRequest (debug_str (hr_host_nqn h) +:+ " is not a host NQN (nqn.…, at most 223 bytes)")))
  else
    let! r := serve_host engine_token admin_credential nm (hr_host_nqn h) (hr_dhchap h) in
    Ret (as_conflict r).
Definition withdraw_export_host (nm host_nqn : string) : api (string * Withdrawn) :=
  let!? _ := known_volume nm in
  let! r := withdraw_host engine_token admin_credential nm host_nqn in
  Ret (let? w := as_conflict r in Ok (trim host_nqn, w)).

(** [assemble_volume]. *)
Definition assemble_check (nm : string) (show_assembly : AssemblyState → string) (s : App) : result unit ApiError :=
  let? v := ok_or (volumes (fed s) !! nm) (ApiNotFound ("volume " +:+ debug_str nm)) in
  if assembly v != PendingEngineSupport then
    Err (ApiConflict (nm +:+ ": not pending (assembly " +:+ show_assembly (assembly v) +:+ ") — nothing to assemble"))
  else if (length (legs v) <? 2)%nat then Err (ApiConflict (nm +:+ ": single leg — nothing to assemble"))
  else Ok tt.
Definition assemble_volume (show_assembly : AssemblyState → string) (nm : string) : api (option DistVolume) :=
  let!? _ := reads (assemble_check nm show_assembly) in
  let! r := assemble cfg engine_token admin_credential nm in
  match r with
  | Err e =>
      if contains "busy" (err_text e) then Ret (Err (ApiConflict (err_text e)))
      else
        event_of "assemble" nm Error (nm +:+ ": assembly retry failed: " +:+ err_text e) ;!
        Ret (Err (ApiUpstream (err_text e)))
  | Ok _ =>
      publish engine_token admin_credential nm ;!
      reads (λ s, Ok (volumes (fed s) !! nm))
  end.

(** [move_volume_leg], [migrate_volume], [cancel_migration]. *)
Definition move_volume_leg (fuel : nat) (nm from : string) (to : option string) : api (string * string) :=
  let! r := move_leg cfg engine_token admin_credential fuel nm from to in
  Ret (let? target := as_conflict r in Ok (from, target)).
Definition migrate_refusal (r : MigrateRefusal) : ApiError :=
  match r with MNotFound m => ApiNotFound m | MConflict m => ApiConflict m end.
Definition migrate_volume (nm to : string) : api Migration :=
  let! r := migrate_start cfg nm to in Ret (map_err migrate_refusal r).
Definition cancel_migration (nm : string) : api bool :=
  let! r := migrate_cancel nm in Ret (map_err migrate_refusal r).
End volumes.

Local Close Scope string_scope.

(** ** Facts: deleting *)

Section delete_facts.
Context {J : Type} `{Json J} `{HttpShow}.
Context `{Deserialize J EngineVolume} `{Deserialize J Slab} `{Deserialize J Discovery}.
Context (engine_token : NodeConfig → option string) (admin_credential : string → option string).
Context {W : Type} (env : ∀ R, Call J R → W → R * W).
Abbreviation engine_for := (engine_for engine_token admin_credential).
Abbreviation run p := (runs env p).

Lemma runs_exports {A B} (p : handler J A) (k : A → handler J B) Q s w :
  guar export_step p → (∀ a s' w', export_step s s' → run (k a) Q s' w') → run (bind p k) Q s w.
Proof.
  intros Hg Hk. apply runs_bind. eapply runs_mono; [by apply (runs_guar env export_step); [apply _..|exact Hg]|].
  intros a s' w' Hs. by apply Hk.
Qed.
Lemma runs_quiet_value {A} (p : handler J A) s w :
  Quiet p → run p (λ r s' _, s' = s ∧ r = run_value env p s w) s w.
Proof.
  intros Hq. split; [|done]. symmetry. by apply (runs_guar env eq p s w); [apply _..|apply Hq].
Qed.

#[local] Instance drop_snapshot_quiet' e n i : Quiet (drop_snapshot (J:=J) e n i).
Proof. unfold drop_snapshot. apply _. Qed.
#[local] Instance drop_base_quiet nm u x : Quiet (drop_base (J:=J) nm u x).
Proof. unfold drop_base. destruct x as [[e|] snap]; apply _. Qed.
Lemma on_volume_delete_guar nm : guar export_step (on_volume_delete (J:=J) engine_token admin_credential nm).
Proof.
  unfold on_volume_delete. apply guar_bind_reads; [done|]. intros s.
  destruct (fmap _ _) as [[b serving]|]; [|done]. apply guar_bind_ok; [apply quiet|intros _].
  apply guar_bind; [by apply guar_writes|intros _]. apply guar_bind; [apply guar_event_of|done].
Qed.
Lemma teardown_guar vol : guar export_step (teardown (J:=J) engine_token admin_credential vol).
Proof.
  unfold teardown. apply guar_bind_reads; [done|]. intros s. apply guar_bind; [|intros errors].
  - unfold close_leg_drive. repeat case_match; apply quiet.
  - apply guar_for_fold. intros es l. unfold detach_leg. repeat case_match; apply quiet.
Qed.

(** The engine was asked to delete it and said it is gone. *)
Definition gone_from (e : Engine) (id : string) : Prop := ∃ s w, run_value env (delete_volume e id) s w = Ok tt.
(** A leg nothing is left of to look after: its node is known and, when it
    answers, has let go of it. *)
Definition leg_handled (fd : FedState) (l : Leg) : Prop :=
  ∀ id, leg_volume_id l = Some id →
    ∃ n, nodes fd !! leg_node l = Some n ∧ (healthy (status n) = true → gone_from (engine_for n) id).
(** One whose node does not answer: where it is and what it is. *)
Definition left_behind (fd : FedState) (l : Leg) : option (string * string) :=
  match leg_volume_id l, nodes fd !! leg_node l with
  | Some id, Some n => if healthy (status n) then None else Some (leg_node l, id)
  | _, _ => None
  end.
Definition orphan_key (o : Orphan) : string * string := (orphan_node o, orphan_volume_id o).

Definition legs_deleted (fd : FedState) (acc : list Orphan * list string) (ls : list Leg) (r : list Orphan * list string) : Prop :=
  ∃ os es, r = (acc.1 ++ os, acc.2 ++ es)%list ∧ map orphan_key os = omap (left_behind fd) ls
    ∧ (es = [] → Forall (leg_handled fd) ls).

Lemma delete_leg_runs nm l acc s w :
  run (delete_leg engine_token admin_credential nm acc l) (λ r s' _, s' = s ∧ legs_deleted (fed s) acc [l] r) s w.
Proof.
  unfold delete_leg. unfold legs_deleted. destruct (leg_volume_id l) as [id|] eqn:Hid.
  2:{ apply runs_ret. split; [done|]. exists [], []. rewrite !app_nil_r. simpl. unfold left_behind. rewrite Hid.
      split; [by destruct acc|]. split; [done|]. intros _. constructor; [|done]. unfold leg_handled. congruence. }
  apply runs_bind, runs_reads. destruct (nodes (fed s) !! leg_node l) as [n|] eqn:Hn; cbn [fmap option_fmap option_map].
  - destruct (healthy (status n)) eqn:Hh.
    + apply runs_bind. eapply runs_mono; [apply runs_quiet_value; apply _|]. intros r s' w' [-> ->]. apply runs_ret.
      split; [done|]. cbv beta. destruct (run_value env (delete_volume _ id) s w) as [[]|x] eqn:Ev.
      * exists [], []. rewrite !app_nil_r. split; [by destruct acc|]. simpl. unfold left_behind. rewrite Hid, Hn, Hh.
        split; [done|]. intros _. constructor; [|done]. intros id' Hid'. rewrite Hid in Hid'. injection Hid' as <-. exists n. split; [done|]. intros _. by exists s, w.
      * exists [], [(leg_node l +:+ ": " +:+ err_text x)%string]. rewrite app_nil_r. split; [done|]. simpl.
        unfold left_behind. rewrite Hid, Hn, Hh. by split.
    + apply runs_bind, runs_invoke, runs_ret. split; [done|]. eexists [_], []. rewrite app_nil_r. split; [done|].
      simpl. unfold left_behind. rewrite Hid, Hn, Hh. split; [done|]. intros _. constructor; [|done].
      intros id' Hid'. rewrite Hid in Hid'. injection Hid' as <-. exists n. split; [done|]. congruence.
  - apply runs_ret. split; [done|]. exists [], [(leg_node l +:+ ": node no longer known")%string]. rewrite app_nil_r.
    split; [done|]. simpl. unfold left_behind. rewrite Hid, Hn. by split.
Qed.
Lemma delete_legs_runs nm ls acc s w :
  run (for_fold (delete_leg engine_token admin_credential nm) acc ls) (λ r s' _, s' = s ∧ legs_deleted (fed s) acc ls r) s w.
Proof.
  revert acc w. induction ls as [|l ls IH]; intros acc w.
  { apply runs_ret. split; [done|]. exists [], []. rewrite !app_nil_r. split; [by destruct acc|]. split; [done|]. by intros _. }
  cbn [for_fold]. apply runs_bind. eapply runs_mono; [apply delete_leg_runs|]. intros acc' s' w' [-> (os & es & -> & Ho & He)].
  eapply runs_mono; [apply IH|]. intros r s' w'' [-> (os' & es' & -> & Ho' & He')]. split; [done|].
  exists (os ++ os')%list, (es ++ es')%list. cbn [fst snd]. rewrite !app_assoc. split; [done|]. split.
  - rewrite map_app, Ho, Ho'. cbn [omap list_omap]. simpl. by destruct (left_behind (fed s) l).
  - intros [-> ->]%app_eq_nil. apply Forall_cons. split; [|by apply He'].
    specialize (He eq_refl). by inversion He.
Qed.

(** What a delete leaves. *)
Definition deleted (nm : string) (s s' : App) : Prop :=
  ∃ vol os, volumes (fed s) !! nm = Some vol ∧ dependents_of (fed s) nm = []
    ∧ core <$> volumes (fed s') = core <$> delete nm (volumes (fed s))
    ∧ snapshots (fed s') = snapshots (fed s) ∧ group_snapshots (fed s') = group_snapshots (fed s)
    ∧ orphans (fed s') = (orphans (fed s) ++ os)%list
    ∧ map orphan_key os = omap (left_behind (fed s)) (all_legs vol)
    ∧ Forall (leg_handled (fed s)) (all_legs vol).

Lemma delete_reading_Ok nm s vol : delete_reading nm s = Ok vol →
  volumes (fed s) !! nm = Some vol ∧ dependents_of (fed s) nm = [].
Proof.
  unfold delete_reading. destruct (volumes (fed s) !! nm) as [v|] eqn:Hv; [|done]. simpl.
  destruct (dependents_of (fed s) nm) eqn:Hd; [|done].
  destruct (is_some (clone_of v)); [destruct (node_healthy _ _)|]; intros Hr; try done; by injection Hr as ->.
Qed.

Lemma forget_deleted nm vol os s s1 s' :
  volumes (fed s) !! nm = Some vol → dependents_of (fed s) nm = [] →
  export_step s s1 → export_step (s1 <| fed ::= forget_volume nm os |>) s' →
  map orphan_key os = omap (left_behind (fed s1)) (all_legs vol) → Forall (leg_handled (fed s1)) (all_legs vol) →
  deleted nm s s'.
Proof.
  intros Hv Hd (Hc & Hn & _ & Ho & _ & Hs & Hg) (Hc' & _ & _ & Ho' & _ & Hs' & Hg') Hos Hls.
  exists vol, os. split; [done|]. split; [done|]. split; [|split; [|split; [|split; [|split]]]].
  - rewrite Hc'. cbn [volumes fed set_field forget_volume bump]. rewrite !fmap_delete. by rewrite Hc.
  - rewrite Hs'. exact Hs.
  - rewrite Hg'. exact Hg.
  - rewrite Ho'. cbn. by rewrite Ho.
  - rewrite Hos. unfold left_behind. by rewrite Hn.
  - eapply Forall_impl; [exact Hls|]. unfold leg_handled. by rewrite Hn.
Qed.

Definition delete_post (nm : string) (s : App) (r : result unit ApiError) (s' : App) : Prop :=
  match r with Err _ => export_step s s' | Ok _ => deleted nm s s' end.
Lemma delete_runs nm s w :
  run (delete_volume_request engine_token admin_credential nm) (λ r s' _, delete_post nm s r s') s w.
Proof.
  unfold delete_volume_request. apply runs_bind_ok, runs_reads.
  destruct (delete_reading nm s) as [vol|e] eqn:Hread; [|by unfold delete_post].
  apply delete_reading_Ok in Hread as [Hv Hd].
  apply runs_exports; [apply on_volume_delete_guar|]. intros [[]|e] s1 w1 E1; [|by apply runs_ret].
  apply runs_exports; [apply revoke_guar|]. intros [[]|e] s2 w2 E2; [|apply runs_ret; simpl; by transitivity s1].
  apply runs_exports; [apply teardown_guar|]. intros errors s3 w3 E3.
  apply runs_exports; [destruct errors; [done|apply guar_event_of]|]. intros _ s4 w4 E4.
  assert (export_step s s4) as Hs by (by do 3 (etrans; [eassumption|])).
  apply runs_bind. eapply runs_mono; [apply delete_legs_runs|]. intros [os es] s5 w5 [-> (os' & es' & [= -> ->] & Ho & Hl)].
  cbn [app]. destruct es' as [|e es']; [|by apply runs_ret].
  apply runs_bind, runs_writes.
  apply runs_exports; [done|]. intros _ s6 w6 E6. apply runs_exports; [apply guar_event_of|]. intros _ s7 w7 E7.
  apply runs_exports; [done|]. intros _ s8 w8 E8. apply runs_ret.
  apply (forget_deleted nm vol os' s s4); [done..| |done|by apply Hl].
  by do 2 (etrans; [eassumption|]).
Qed.
End delete_facts.

(** C11: Deleting a volume, whatever the engines answer. When it fails the
    record is kept: every volume is there with its legs, size, head and
    epoch, and no leg is on the list to reap. When it succeeds no snapshot or
    clone was on the volume, its record is gone and no other is touched;
    every leg, the new one of a replacement in flight too, is on a node that
    is known, and either that node's engine was asked to delete it and said
    it is gone, or the node does not answer and the leg is put on the list to
    reap, once. *)
Theorem delete_volume_spec {J} `{Json J} `{HttpShow} `{Deserialize J EngineVolume} `{Deserialize J Slab} `{Deserialize J Discovery}
    engine_token admin_credential {W} (env : ∀ R, Call J R → W → R * W) nm s w :
  let p := delete_volume_request engine_token admin_credential nm in
  delete_post engine_token admin_credential env nm s (run_value env p s w) (run_state env p s w).
Proof. exact (delete_runs engine_token admin_credential env nm s w). Qed.

(** ** Facts: references *)

(** A volume nothing is on goes. *)
Lemma refs_ok_delete_volume fd nm os rev : refs_ok fd → dependents_of fd nm = [] →
  refs_ok (fd <| volumes ::= delete nm |> <| orphans := os |> <| revision := rev |>).
Proof.
  intros [H1 H2 H3 H4 H5 H6 H7] [Hc Hs]%dependents_of_nil.
  split; cbn [volumes snapshots group_snapshots set_field]; [|exact H2|..|exact H6|exact H7].
  - intros k v [_ ?]%lookup_delete_Some. auto.
  - intros k v [_ ?]%lookup_delete_Some. eauto.
  - intros k v c [_ Hk]%lookup_delete_Some Hvc. destruct (H4 k v c Hk Hvc) as (p & ? & ?). exists p.
    rewrite lookup_delete_ne; [done|]. intros E. by apply (Hc k v c Hk Hvc).
  - intros k sn Hk. destruct (H5 k sn Hk) as [(p & ? & ?) [y ?]]. destruct (Hs k sn Hk) as [Hp Hsrc]. split.
    + exists p. rewrite lookup_delete_ne; [done|]. congruence.
    + rewrite lookup_delete_ne; [eauto|]. congruence.
Qed.

(** The references only read what [core] keeps of a volume. *)
Lemma refs_ok_core fd fd' :
  core <$> volumes fd' = core <$> volumes fd → snapshots fd' = snapshots fd → group_snapshots fd' = group_snapshots fd →
  refs_ok fd → refs_ok fd'.
Proof.
  intros Hc Hs Hg Hr.
  pose (s := App_new fd None). pose (s' := App_new (fd' <| nodes := nodes fd |> <| orphans := orphans fd |> <| stale_heads := stale_heads fd |>) None).
  assert (export_step s s') as He by (by repeat split).
  pose proof (refs_ok_export s s' He Hr) as [? ? ? ? ? ? ?]. by split.
Qed.

Lemma deleted_refs {J} `{Json J} `{HttpShow} et ac {W} (env : ∀ R, Call J R → W → R * W) nm s s' :
  deleted et ac env nm s s' → refs_ok (fed s) → refs_ok (fed s').
Proof.
  intros (vol & os & Hv & Hd & Hc & Hs & Hg & _) Hr.
  eapply (refs_ok_core ((fed s) <| volumes ::= delete nm |>)); [exact Hc|exact Hs|exact Hg|].
  pose proof (refs_ok_delete_volume (fed s) nm (orphans (fed s)) (revision (fed s)) Hr Hd) as [? ? ? ? ? ? ?]. by split.
Qed.

(** ** Facts: creating *)

Section create_facts.
Context {J : Type} `{Json J} `{HttpShow}.
Context `{Deserialize J EngineVolume} `{Deserialize J Slab} `{Deserialize J Discovery}.
Context (cfg : Config) (engine_token : NodeConfig → option string) (admin_credential : string → option string).

(** A change of one volume's record that keeps what it is and where its legs
    are. *)
Definition kept (v v' : DistVolume) : Prop :=
  name v' = name v ∧ clone_of v' = clone_of v ∧ size_bytes v' = size_bytes v ∧ vol_pool v' = vol_pool v
  ∧ rung v' = rung v ∧ epoch v' = epoch v ∧ map leg_node (legs v') = map leg_node (legs v)
  ∧ map leg_volume_id (legs v') = map leg_volume_id (legs v).
#[local] Instance kept_refl : Reflexive kept.
Proof. by repeat split. Qed.
#[local] Instance kept_trans : Transitive kept.
Proof. intros ??? (?&?&?&?&?&?&?&?) (?&?&?&?&?&?&?&?). repeat split; congruence. Qed.

Lemma walk_kept {A B X} (R : A → A → Prop) (f : A → handler J (A * result B X)) l :
  Reflexive R → (∀ a, yields (λ x, R a x.1) (f a)) → yields (λ x, Forall2 R l x.1) (walk f l).
Proof.
  intros HR Hf. induction l as [|a l IH]; simpl; [done|].
  eapply yields_bind; [apply Hf|]. intros [a' [b|e]] Ha; simpl.
  - eapply yields_bind; [apply IH|]. intros [l' r] Hl. simpl. by constructor.
  - constructor; [done|]. reflexivity.
Qed.
Definition same_leg (l l' : Leg) : Prop := leg_node l' = leg_node l ∧ leg_volume_id l' = leg_volume_id l.
#[local] Instance same_leg_refl : Reflexive same_leg.
Proof. done. Qed.
Lemma export_leg_same engines h l : yields (λ x, same_leg l x.1) (export_leg (J:=J) cfg engines h l).
Proof. unfold export_leg. destruct (export_kept _ _ _); [done|]. destruct (engines !! _); [|done]. yield_step. by destruct a. Qed.
Lemma open_leg_same h he l : yields (λ x, same_leg l x.1) (open_leg (J:=J) h he l).
Proof. unfold open_leg. yield_step. by destruct a. Qed.
Lemma note_member_same uris ls ls' im : Forall2 same_leg ls ls' → Forall2 same_leg ls (note_member (J:=J) uris ls' im).
Proof.
  intros Hl. unfold note_member. destruct im as [i m]. destruct (get_str _ m) as [u|]; [|done].
  set (j := unwrap_or i _). clearbody j. clear i m. revert j. induction Hl as [|x y ls ls' [Hx1 Hx2] Hl IH]; intros j; [done|].
  destruct j as [|j]; cbn [alter list_alter]; constructor; try done.
Qed.
Lemma members_noted_same uris arr ls : Forall2 same_leg ls (note_members (J:=J) uris arr ls).
Proof.
  unfold note_members. set (ms := imap _ _). clearbody ms.
  assert (∀ ms ls', Forall2 same_leg ls ls' → Forall2 same_leg ls (foldl (note_member (J:=J) uris) ls' ms)) as Hf.
  { clear ms. induction ms as [|m ms IH]; intros ls' Hl; [done|]. by apply IH, note_member_same. }
  apply Hf. reflexivity.
Qed.
Lemma same_legs_kept v ls : Forall2 same_leg (legs v) ls → kept v (v <| legs := ls |>).
Proof.
  intros Hl. repeat split; cbn [legs set_field].
  - induction Hl as [|x y ? ? [??] ? IH]; simpl; [done|]. by f_equal.
  - induction Hl as [|x y ? ? [??] ? IH]; simpl; [done|]. by f_equal.
Qed.

Lemma assemble_inner_kept vol engines h he : yields (λ x, kept vol x.1) (assemble_inner cfg (J:=J) vol engines h he).
Proof.
  unfold assemble_inner. eapply yields_bind; [apply (walk_kept same_leg); [apply _|apply export_leg_same]|].
  intros [ls r] Hl. cbn [fst] in Hl. pose proof (same_legs_kept vol ls Hl) as Hk1. set (v1 := vol <| legs := ls |>) in *.
  destruct r as [u|e]; [|done].
  eapply yields_bind; [apply (walk_kept same_leg); [apply _|apply open_leg_same]|].
  intros [ls2 r2] Hl2. cbn [fst] in Hl2. pose proof (same_legs_kept v1 ls2 Hl2) as Hk2. set (v2 := v1 <| legs := ls2 |>) in *.
  assert (kept vol v2) as Hk by (by transitivity v1).
  destruct r2 as [drives|e]; [|done]. eapply yields_bind; [apply yields_True|]. intros [arr|e] _; [|done].
  destruct (get_str "id" arr) as [aid|]; [|done].
  eapply yields_bind; [apply yields_True|]. intros _ _. eapply yields_bind; [apply yields_True|]. intros _ _. simpl.
  transitivity v2; [done|]. exact (same_legs_kept v2 _ (members_noted_same _ arr (legs v2))).
Qed.
Lemma event_report subj sev msg : guar (E:=Call J) report_step (event subj sev msg).
Proof. apply event_of_report. Qed.
Lemma find_or_create_report vol h he drives uris : guar report_step (find_or_create (J:=J) vol h he drives uris).
Proof. unfold find_or_create, assembled_array. repeat first [apply quiet | guar_step | apply event_report]. Qed.
Lemma assemble_inner_report vol engines h he : guar report_step (assemble_inner cfg (J:=J) vol engines h he).
Proof.
  unfold assemble_inner, export_leg, open_leg.
  repeat first [apply quiet | apply find_or_create_report | apply event_report | guar_step].
Qed.

(** Every record kept, snapshots as they were. *)
Definition keep_step (s s' : App) : Prop :=
  (∀ k, option_Forall2 kept (volumes (fed s) !! k) (volumes (fed s') !! k))
  ∧ snapshots (fed s') = snapshots (fed s) ∧ group_snapshots (fed s') = group_snapshots (fed s).
#[local] Instance keep_step_refl : Reflexive keep_step.
Proof. intros s. split; [|done]. intros k. by apply option_Forall2_refl. Qed.
#[local] Instance keep_step_trans : Transitive keep_step.
Proof.
  intros s1 s2 s3 (Ha & ? & ?) (Hb & ? & ?). split; [|split; congruence]. intros k.
  specialize (Ha k). specialize (Hb k). inversion Ha as [x y Hxy Hx Hy|Hx Hy]; rewrite <-Hy in Hb.
  - inversion Hb as [y' z Hyz|]; subst. constructor. by transitivity y.
  - by inversion Hb.
Qed.
Lemma keep_export s s' : export_step s s' → keep_step s s'.
Proof.
  intros (Hc & _ & _ & _ & _ & Hs & Hg). split; [|done]. intros k.
  assert (core <$> volumes (fed s') !! k = core <$> volumes (fed s) !! k) as Hk by (by rewrite <-!lookup_fmap, Hc).
  destruct (volumes (fed s) !! k) as [v|], (volumes (fed s') !! k) as [v'|]; try done; constructor.
  apply (inj Some) in Hk. repeat split.
  - exact (f_equal name Hk).
  - exact (f_equal clone_of Hk).
  - exact (f_equal size_bytes Hk).
  - exact (f_equal vol_pool Hk).
  - exact (f_equal rung Hk).
  - exact (f_equal epoch Hk).
  - apply (f_equal (λ v, map leg_node (legs v))) in Hk. cbn [legs core set_field] in Hk. by rewrite !map_map in Hk.
  - apply (f_equal (λ v, map leg_volume_id (legs v))) in Hk. cbn [legs core set_field] in Hk. by rewrite !map_map in Hk.
Qed.
Lemma keep_report s s' : report_step s s' → keep_step s s'.
Proof. intros [Hf _]. unfold keep_step. rewrite Hf. apply keep_step_refl. Qed.

Lemma alone_keep {A} (p : handler J A) s : guar export_step p → alone p (λ _ s', keep_step s s') s.
Proof.
  intros Hg. eapply (guar_wp_any export_step (λ _, True)); [apply _..|exact Hg|apply yields_True|].
  intros a s' He _. by apply keep_export.
Qed.

Lemma keep_frame s s' : fed s' = fed s → keep_step s s'.
Proof. intros Hf. unfold keep_step. rewrite Hf. apply keep_step_refl. Qed.
Lemma assemble_alone nm s :
  alone (assemble cfg engine_token admin_credential nm) (λ _ s', keep_step s s') s.
Proof.
  unfold assemble, claim. apply wp_bind, wp_atomic; [done|]. cbn [fst snd].
  destruct (bool_decide (nm ∉ claims s)); cbn [negb]; [|by apply keep_frame].
  set (s1 := s <| claims ::= _ |>). assert (fed s1 = fed s) as Hs1 by done.
  apply wp_bind. eapply wp_mono with (Q := λ _ s', keep_step s s').
  2:{ intros r s2 Hk. unfold release. apply wp_bind, wp_writes; [done|]. simpl.
      transitivity s2; [done|by apply keep_frame]. }
  unfold assemble_claimed. apply wp_reads_ok; [|by intros; apply keep_frame]. intros [[[vol engines] h] he] Hread.
  assert (volumes (fed s) !! nm = Some vol) as Hv.
  { unfold assemble_reading in Hread. rewrite Hs1 in Hread. destruct (volumes (fed s) !! nm) as [v|]; [|done]. simpl in Hread.
    repeat (destruct (_ : bool); [done|]). destruct (all_engines _ _ _ _ _) as [m|]; [|done]. simpl in Hread.
    destruct (engine_of _ _ _ _) as [x|]; [|done]. by injection Hread as ->. }
  apply wp_bind. eapply (guar_wp_any report_step); [apply _..|apply assemble_inner_report|apply assemble_inner_kept|].
  intros [vol' r] s2 [Hf2 _] Hk. cbn [fst] in Hk. apply wp_waits; [apply _|]. intros now.
  apply wp_bind, wp_writes; [done|].
  eapply (guar_wp_any report_step (λ _, True)); [apply _..| |apply yields_True|].
  { destruct (is_ok r); repeat guar_step. }
  intros _ s3 [Hf3 _] _. split; [|by rewrite Hf3; destruct (is_ok r); cbn; rewrite Hf2].
  intros k. rewrite Hf3. set (vol2 := vol' <| next_assemble_after := _ |>).
  assert (kept vol vol2) as Hk2 by done. clearbody vol2.
  assert (∀ fd', volumes fd' = <[nm := vol2]> (volumes (fed s)) → option_Forall2 kept (volumes (fed s) !! k) (volumes fd' !! k)) as Hgoal.
  { intros fd' ->. destruct (decide (nm = k)) as [<-|Hne].
    - rewrite lookup_insert_eq, Hv. by constructor.
    - rewrite lookup_insert_ne by done. by apply option_Forall2_refl. }
  apply Hgoal. cbn [fed set_field]. destruct (is_ok r); cbn; by rewrite Hf2.
Qed.

Lemma create_legs_nodes r picks :
  yields (λ x, match x with Ok ls => map leg_node ls = picks | Err _ => True end)
    (create_legs (J:=J) engine_token admin_credential r picks).
Proof.
  unfold create_legs.
  assert (∀ picks made, yields (λ x, match x with Ok ls => map leg_node ls = (map leg_node made ++ picks)%list | Err _ => True end)
            (for_try (create_leg (J:=J) engine_token admin_credential r) made picks)) as Hf.
  { clear picks. induction picks as [|p picks IH]; intros made; [simpl; by rewrite app_nil_r|].
    cbn [for_try]. unfold bind_ok. eapply yields_bind with (P := λ x, match x with Ok ls => map leg_node ls = (map leg_node made ++ [p])%list | Err _ => True end).
    - unfold create_leg. intros s. cbn [snd bind reads]. destruct (nodes (fed s) !! p) as [n|]; cbn [fmap option_fmap option_map]; [|done].
      eapply yields_bind; [apply yields_True|]. intros [v|x] _; simpl; [|done]. by rewrite map_app.
    - intros [ls|e] Hls; [|done]. specialize (IH ls). rewrite Hls, <-app_assoc in IH. exact IH. }
  eapply yields_bind; [apply (Hf picks [])|]. intros [ls|[e|made why]] Hls; simpl; [done|done|].
  eapply yields_bind; [apply yields_True|done].
Qed.
Lemma create_legs_eq r picks G : Reflexive G → guar G (create_legs (J:=J) engine_token admin_credential r picks).
Proof.
  intros HR. unfold create_legs, create_leg, roll_back.
  repeat first [apply quiet | guar_step]; done.
Qed.

(** A node that may get a leg: healthy, in the pool and the tier, with room. *)
Definition may_hold (fd : FedState) (r : CreateVolumeRequest) (nm : string) : Prop :=
  ∃ k n, nodes fd !! k = Some n ∧ nc_name (config n) = nm ∧ healthy (status n) = true
    ∧ (∀ p, mbind (M:=option) (pool (pools cfg)) (cv_pool r) = Some p → matches (pool_selector p) (config n) = true)
    ∧ (∀ t, cv_tier r = Some t → nc_tier (config n) = Some t)
    ∧ (cv_size_bytes r ≤ free_bytes (status n))%Z.
(** A placement of the volume's legs. *)
Definition placed (fd : FedState) (r : CreateVolumeRequest) (rp : ResolvedPlan) (ns : list string) : Prop :=
  length ns = Z.to_nat (rp_replicas rp) ∧ rp_rung rp ∈ rungs cfg
  ∧ Forall (may_hold fd r) ns
  ∧ ∃ cs, ns = map cand_name cs ∧ NoDup (domain_of (rungs cfg) (rp_rung rp) <$> cs).

Lemma pick_nodes_placed r fd rp picks honored :
  pick_nodes cfg (plan_request r) fd = Ok (rp, picks, honored) → placed fd r rp picks.
Proof.
  unfold pick_nodes. destruct (resolve_plan cfg (plan_request r) fd) as [rp'|] eqn:Hrp; [|done]. cbn [result_bind].
  destruct (plan_preferring _ _ _ _ _ _ _) as [[ps led]|] eqn:Hp; [|done]. cbn. intros [= -> -> ->].
  apply plan_preferring_spreads in Hp as [(cs & -> & [Hl Hf Hd]) _].
  unfold resolve_plan in Hrp. cbn [pr_pool plan_request] in Hrp.
  destruct (match cv_pool r with Some n => _ | None => Ok None end) as [p|] eqn:Hpool; [|done]. cbn [result_bind] in Hrp.
  destruct (match pr_raid _ with Some _ => _ | None => _ end) as [n|]; [|done]. cbn [result_bind] in Hrp.
  destruct (existsb _ (rungs cfg)) eqn:Hrg; [|done]. cbn [negb] in Hrp. injection Hrp as <-.
  cbn [rp_replicas rp_rung rp_candidates] in *.
  split; [by rewrite length_map|]. split; [apply existsb_true in Hrg as (x & Hx & Ex%eqb_prop); subst x; exact Hx|]. split; [|by exists cs].
  apply Forall_map. eapply Forall_impl; [exact Hf|]. intros c [Hc Hfree]. cbv beta.
  unfold plan_candidates in Hc. apply list_elem_of_fmap in Hc as (nd & -> & Hnd).
  apply elem_of_filterb in Hnd as [Hnd Htier]. apply elem_of_filterb in Hnd as [Hnd Hsel].
  apply elem_of_filterb in Hnd as [Hnd Hhealthy]. apply elem_of_bt_values in Hnd as [k Hk].
  exists k, nd. split_and!; [done|done|done| | |done].
  - intros q Hq. destruct (cv_pool r) as [pn|]; [|done]. cbn [mbind option_bind] in Hq. rewrite Hq in Hpool. cbn in Hpool.
    injection Hpool as <-. exact Hsel.
  - intros t Ht. cbn [pr_tier plan_request] in Htier. rewrite Ht in Htier. by apply eqb_prop in Htier.
Qed.

Definition created_post (r : CreateVolumeRequest) (s : App) (res : result Created ApiError) (s' : App) : Prop :=
  match res with
  | Err _ => fed s' = fed s
  | Ok _ => ∃ rp v, volumes (fed s) !! cv_name r = None ∧ snapshots (fed s) !! cv_name r = None
      ∧ placed (fed s) r rp (map leg_node (legs v))
      ∧ volumes (fed s') !! cv_name r = Some v
      ∧ name v = cv_name r ∧ size_bytes v = cv_size_bytes r ∧ vol_pool v = cv_pool r ∧ rung v = rp_rung rp
      ∧ epoch v = 1%Z ∧ clone_of v = None
      ∧ (∀ k, k ≠ cv_name r → option_Forall2 kept (volumes (fed s) !! k) (volumes (fed s') !! k))
      ∧ snapshots (fed s') = snapshots (fed s) ∧ group_snapshots (fed s') = group_snapshots (fed s)
  end.

Lemma create_with_legs_alone r hs s :
  alone (create_with_legs cfg engine_token admin_credential r hs) (created_post r s) s.
Proof.
  unfold create_with_legs. apply wp_reads_ok; [|done]. intros [] Hck. apply wp_reads_ok; [|done].
  intros [[rp picks] honored] Hpk. apply pick_nodes_placed in Hpk as Hplaced.
  apply wp_bind. eapply (guar_wp_any eq); [apply _..|by apply create_legs_eq|apply create_legs_nodes|].
  intros [ls|e] s1 <- Hls; [|done]. unfold record_created. apply wp_waits; [apply _|]. intros now.
  unfold insert_volume. apply wp_bind, wp_writes; [done|].
  set (v0 := created_volume r rp ls hs now). set (s1 := s <| fed ::= _ |>).
  apply wp_mono with (Q := λ res s', is_ok res = true ∧ keep_step s1 s').
  { apply wp_waits; [apply _|]. intros _.
    apply wp_bind. eapply (guar_wp_any report_step (λ _, True)); [apply _..|apply event_of_report|apply yields_True|].
    intros _ s2 Hs2%keep_report _. apply wp_waits; [apply _|]. intros _.
    apply wp_bind. eapply wp_mono with (Q := λ _ s', keep_step s1 s').
    { destruct (1 <? length ls)%nat; [|done]. unfold assemble_created. apply wp_bind.
      eapply wp_mono; [apply assemble_alone|]. intros [[]|e] s3 Hs3; [simpl; by transitivity s2|]. apply wp_bind.
      eapply (guar_wp_any report_step (λ _, True)); [apply _..|apply event_of_report|apply yields_True|].
      intros _ s4 Hs4%keep_report _. simpl. transitivity s2; [done|]. by transitivity s3. }
    intros assembled s3 Hs3. apply wp_bind. eapply wp_mono with (Q := λ _ s', keep_step s1 s').
    { destruct assembled; [|done]. apply wp_bind. eapply wp_mono; [apply alone_keep, publish_guar|].
      intros ? s4 Hs4. simpl. by transitivity s3. }
    intros _ s4 Hs4. apply wp_bind, wp_reads; [by intros ?|]. by split. }
  intros res s' [Hok (Hv & Hsn & Hg)]. destruct res as [c|]; [|done].
  assert (volumes (fed s) !! cv_name r = None ∧ snapshots (fed s) !! cv_name r = None) as [Hn Hns].
  { unfold create_checks in Hck. destruct (volumes (fed s) !! cv_name r); [done|]. by destruct (snapshots (fed s) !! cv_name r). }
  pose proof (Hv (cv_name r)) as Hmine. cbn in Hmine. rewrite lookup_insert_eq in Hmine.
  inversion Hmine as [x v (K1 & K2 & K3 & K4 & K5 & K6 & K7 & _) Ex Ev|]. subst x.
  exists rp, v. split; [done|]. split; [done|]. split; [by rewrite K7, <-Hls in *|]. split; [done|].
  split; [done|]. split; [done|]. split; [done|]. split; [done|]. split; [done|]. split; [done|].
  split; [|by rewrite Hsn, Hg]. intros k Hk. specialize (Hv k). cbn in Hv. by rewrite lookup_insert_ne in Hv.
Qed.
End create_facts.

(** C10: Creating a volume (no clone), whatever the engines answer. When it
    fails the records are as they were. When it succeeds the name was free,
    and the new volume, at epoch 1, has its legs placed: exactly as many as
    the plan says, in pairwise different failure domains of the rung, each on
    a node that was healthy, in the asked pool and tier and with room for it;
    every other volume keeps its name, size, epoch and legs, assembled and
    served or not. *)
Theorem create_volume_spec {J} `{Json J} `{HttpShow} `{Deserialize J EngineVolume} `{Deserialize J Slab} `{Deserialize J Discovery}
    cfg engine_token admin_credential {W} (env : ∀ R, Call J R → W → R * W) r s w (Hsrc : cv_source r = None) :
  let p := create_volume_request cfg engine_token admin_credential r in
  created_post cfg r s (run_value env p s w) (run_state env p s w).
Proof.
  intros p. apply (wp_run env (λ _ _, True)). unfold p, create_volume_request.
  destruct (_ || _); [done|]. destruct (host_records (cv_hosts r)) as [hs|e]; [|done]. cbn [bind_ok bind].
  destruct (_ || _); [done|]. rewrite Hsrc. destruct (opt_filter _ _); [done|].
  destruct (ends_with _ _); [done|]. apply create_with_legs_alone.
Qed.

(** ** Requests one at a time *)

Section requests.
Context {J : Type} `{Json J} `{HttpShow}.
Context `{Deserialize J EngineVolume} `{Deserialize J Slab} `{Deserialize J Discovery}.
Context (cfg : Config) (engine_token : NodeConfig → option string) (admin_credential : string → option string).

Inductive volume_request : handler J unit → Prop :=
  | req_create r : volume_request (create_volume_request cfg engine_token admin_credential r ;! Ret tt)
  | req_delete nm : volume_request (delete_volume_request engine_token admin_credential nm ;! Ret tt)
  | req_snapshot nm v : volume_request (create_snapshot engine_token admin_credential nm v ;! Ret tt)
  | req_drop_snapshot id : volume_request (delete_snapshot engine_token admin_credential id ;! Ret tt)
  | req_group nm ids : volume_request (create_group engine_token admin_credential nm ids ;! Ret tt)
  | req_drop_group id : volume_request (delete_group engine_token admin_credential id ;! Ret tt).

(** Each request after the one before is answered. *)
Definition one_by_one {W} (env : ∀ R, Call J R → W → R * W) (ps : list (handler J unit)) (s : App) (w : W) : App * W :=
  foldl (λ sw p, (run_state env p sw.1 sw.2, run_world env p sw.1 sw.2)) (s, w) ps.

Lemma refs_ok_kept fd fd' : (∀ k, option_Forall2 kept (volumes fd !! k) (volumes fd' !! k)) →
  snapshots fd' = snapshots fd → group_snapshots fd' = group_snapshots fd → refs_ok fd → refs_ok fd'.
Proof.
  intros Hk Hs Hg [R1 R2 R3 R4 R5 R6 R7].
  assert (∀ k v, volumes fd' !! k = Some v → ∃ v0, volumes fd !! k = Some v0 ∧ name v = name v0 ∧ clone_of v = clone_of v0) as Hb.
  { intros k v Hv. specialize (Hk k). rewrite Hv in Hk. inversion Hk as [v0 ? (? & ? & _) E|]; subst. eauto. }
  assert (∀ k v0, volumes fd !! k = Some v0 → ∃ v, volumes fd' !! k = Some v ∧ clone_of v = clone_of v0) as Hf.
  { intros k v0 Hv. specialize (Hk k). rewrite Hv in Hk. inversion Hk as [? v (? & ? & _) E|]; subst. eauto. }
  split; rewrite ?Hs, ?Hg; [|done|..|done|done].
  - intros k v (v0 & Hv & -> & _)%Hb. by apply R1.
  - intros k v (v0 & Hv & _)%Hb. by eapply R3.
  - intros k v c (v0 & Hv & _ & ->)%Hb Hcl. destruct (R4 k v0 c Hv Hcl) as (p & Hp & Hn).
    destruct (Hf _ _ Hp) as (p' & ? & E). exists p'. split; [done|congruence].
  - intros k sn Hsn. destruct (R5 k sn Hsn) as [(p & Hp & Hn) [v Hv]]. split.
    + destruct (Hf _ _ Hp) as (p' & ? & E). exists p'. split; [done|congruence].
    + destruct (Hf _ _ Hv) as (v' & -> & _). done.
Qed.
Lemma created_refs r s res s' : created_post cfg r s res s' → refs_ok (fed s) → refs_ok (fed s').
Proof.
  intros Hp Hr. destruct res as [c|e]; [|by rewrite Hp].
  destruct Hp as (rp & v & Hn & Hns & _ & Hv & Hname & _ & _ & _ & _ & Hcl & Hk & Hs & Hg).
  apply (refs_ok_kept ((fed s) <| volumes ::= <[cv_name r := v]> |> <| revision := 0%Z |>)); [|done|done|].
  - intros k. cbn. destruct (decide (k = cv_name r)) as [->|Hne].
    + rewrite lookup_insert_eq, Hv. constructor. by repeat split.
    + rewrite lookup_insert_ne by done. by apply Hk.
  - apply refs_ok_insert_volume; [done..|]. intros c'. rewrite Hcl. done.
Qed.
Lemma create_request_alone r s : refs_ok (fed s) →
  alone (create_volume_request cfg engine_token admin_credential r) intact s.
Proof.
  intros Hr. unfold create_volume_request.
  destruct (_ || _); [done|]. destruct (host_records (cv_hosts r)) as [hs|e]; [|done]. cbn [bind_ok bind].
  destruct (_ || _); [done|]. destruct (cv_source r) as [source|].
  - unfold create_from_source. destruct (asks_for_legs r); [done|]. destruct (ends_with _ _); [done|].
    apply wp_bind. eapply wp_mono; [by apply create_clone_alone|]. by intros [v|e] s'.
  - destruct (opt_filter _ _); [done|]. destruct (ends_with _ _); [done|].
    eapply wp_mono; [apply create_with_legs_alone|]. intros res s' Hp. by eapply created_refs.
Qed.
Lemma request_refs {W} (env : ∀ R, Call J R → W → R * W) p s w :
  volume_request p → refs_ok (fed s) → refs_ok (fed (run_state env p s w)).
Proof.
  intros Hp Hr.
  assert (∀ A (q : handler J A), alone q intact s → refs_ok (fed (run_state env (q ;! Ret tt) s w))) as Ha.
  { intros A q Hq. apply (wp_run env (λ _ _, True) (q ;! Ret tt) (λ _ s, refs_ok (fed s))). apply wp_bind.
    eapply wp_mono; [exact Hq|]. by intros a s'. }
  destruct Hp; [by apply Ha, create_request_alone| |by apply Ha, create_snapshot_alone
    |by apply Ha, delete_snapshot_alone|by apply Ha, create_group_alone|by apply Ha, delete_group_alone].
  rewrite run_state_bind. pose proof (delete_runs engine_token admin_credential env nm s w) as Hd.
  unfold runs, delete_post in Hd. destruct (run_value env _ s w).
  - by eapply deleted_refs.
  - by eapply refs_ok_export.
Qed.
End requests.

(** C12: Volumes, clones, snapshots and group snapshots created and deleted
    one request at a time, in any order and whatever the engines answer: no
    snapshot, clone or group ever refers to something that is not there. A
    snapshot's and a clone's parent is a volume of its own (no clone), a
    snapshot's source a volume, a group's members are snapshots that name the
    group and the other way round, and no name is both a volume's and a
    snapshot's. *)
Theorem requests_keep_refs {J} `{Json J} `{HttpShow} `{Deserialize J EngineVolume} `{Deserialize J Slab} `{Deserialize J Discovery}
    cfg engine_token admin_credential {W} (env : ∀ R, Call J R → W → R * W) ps s w
    (Hps : Forall (volume_request cfg engine_token admin_credential) ps) (Hs : refs_ok (fed s)) :
  refs_ok (fed (one_by_one env ps s w).1).
Proof.
  unfold one_by_one. revert s w Hs. induction Hps as [|p ps Hp Hps IH]; intros s w Hs; [done|].
  apply IH. by eapply request_refs.
Qed.

Lemma delete_snapshot_refused {J} `{Json J} `{HttpShow} `{Deserialize J EngineVolume} `{Deserialize J Slab} `{Deserialize J Discovery}
    et ac {W} (env : ∀ R, Call J R → W → R * W) id s w :
  is_err (snapshot_to_delete et ac id s) = true →
  let p := delete_snapshot (J:=J) et ac id in is_err (run_value env p s w) = true ∧ run_state env p s w = s.
Proof.
  unfold delete_snapshot, run_value, run_state. cbn [bind_ok bind reads run].
  by destruct (snapshot_to_delete et ac id s).
Qed.

(** ** Two at a time *)

Section example.
#[local] Existing Instances no_text no_volume no_slab no_discovery.
Local Open Scope string_scope.

(** Three nodes with room, one volume of one leg. *)
Definition roomy (n : string) (up : bool) : Node :=
  (lone_node n up) <| status ::= λ s, s <| total_bytes := 8192%Z |> <| free_bytes := 4096%Z |> |>.
Definition kept_a : DistVolume :=
  new_volume "a" 1024 None 1 "node" [new_leg "n1" (Some "v-a") (Some "m1")] 0 [] None None.
Definition volumes_app : App :=
  App_new (FedState_default
    <| nodes := {["n1" := roomy "n1" true; "n2" := roomy "n2" true; "n3" := roomy "n3" false]} |>
    <| volumes := {["a" := kept_a]} |>) None.
Definition create_b : CreateVolumeRequest :=
  MkCreateVolumeRequest "b" 2048 None (Some 2%Z) None None None (Some "n2") [] None None None false None.
Definition clone_c : CreateVolumeRequest :=
  MkCreateVolumeRequest "c" 1024 None None None None None None [] None None (Some (SrcVolume "a")) false None.
Lemma volumes_app_refs : refs_ok (fed volumes_app).
Proof.
  assert (∀ k v, volumes (fed volumes_app) !! k = Some v → k = "a" ∧ v = kept_a) as Hv.
  { intros k v Hk. change (({["a" := kept_a]} : gmap string DistVolume) !! k = Some v) in Hk.
    apply lookup_singleton_Some in Hk as [<- <-]. done. }
  assert (∀ k (sn : Snapshot), snapshots (fed volumes_app) !! k = Some sn → False) as Hs by (intros k sn Hk; discriminate Hk).
  assert (∀ k (g : GroupSnapshot), group_snapshots (fed volumes_app) !! k = Some g → False) as Hg by (intros k g Hk; discriminate Hk).
  split.
  - by intros k v [-> ->]%Hv.
  - by intros k sn ?%Hs.
  - intros k v _. destruct (snapshots (fed volumes_app) !! k) eqn:E; [by apply Hs in E|done].
  - intros k v c [-> ->]%Hv. done.
  - by intros k sn ?%Hs.
  - by intros g gs m ?%Hg.
  - by intros k sn g ?%Hs.
Qed.

Lemma create_volume_spec_witness :
  let p := create_volume_request example_cfg (λ _, None) (λ _, None) create_b in
  let s' := run_state race_env p volumes_app tt in
  fmap (M:=option) (λ v, map leg_node (legs v)) (volumes (fed s') !! "b") = Some ["n2"; "n1"]
  ∧ created_post example_cfg create_b volumes_app (run_value race_env p volumes_app tt) s'.
Proof.
  intros p s'. split; [vm_compute; reflexivity|].
  pose proof (create_volume_spec example_cfg (λ _, None) (λ _, None) race_env create_b volumes_app tt eq_refl) as Hp.
  cbv zeta in Hp. exact Hp.
Defined.

Definition some_requests : list (handler Tree unit) :=
  [create_volume_request example_cfg (λ _, None) (λ _, None) create_b ;! Ret tt;
   create_volume_request example_cfg (λ _, None) (λ _, None) clone_c ;! Ret tt;
   create_snapshot (λ _, None) (λ _, None) "s" "a" ;! Ret tt;
   delete_volume_request (λ _, None) (λ _, None) "a" ;! Ret tt;
   create_group (λ _, None) (λ _, None) "g" ["a"; "c"] ;! Ret tt].
Lemma requests_keep_refs_witness :
  let s' := (one_by_one race_env some_requests volumes_app tt).1 in
  bt_keys (volumes (fed s')) = ["a"; "b"; "c"] ∧ bt_keys (snapshots (fed s')) = ["g-a"; "g-c"; "s"]
  ∧ refs_ok (fed s').
Proof.
  intros s'. split; [vm_compute; reflexivity|]. split; [vm_compute; reflexivity|].
  refine (requests_keep_refs example_cfg (λ _, None) (λ _, None) race_env some_requests volumes_app tt _ volumes_app_refs).
  repeat (constructor; [constructor|]). constructor.
Defined.

(** The snapshot has been asked of the engine when the delete comes. *)
Definition snap_tasks : list (handler Tree unit) :=
  [create_snapshot (λ _, None) (λ _, None) "s" "a" ;! Ret tt; delete_volume_request (λ _, None) (λ _, None) "a" ;! Ret tt].
Definition snap_end := sched race_env ([0; 0; 0]%nat ++ repeat 1%nat 40 ++ repeat 0%nat 20)%list (volumes_app, tt, snap_tasks).
(** A volume deleted while a snapshot of it is being taken: the delete
    found nothing on the volume, the snapshot found the volume. Both succeed,
    and the snapshot that is left names a volume that is gone: whatever the
    engines answer, deleting it is refused from then on and changes
    nothing. *)
Theorem snapshot_outlives_volume : ∃ s ps,
  refs_ok (fed volumes_app)
  ∧ pool_steps (volumes_app, snap_tasks) (s, ps) ∧ ps = [Ret tt; Ret tt]
  ∧ volumes (fed s) !! "a" = None
  ∧ fmap (M:=option) snap_parent (snapshots (fed s) !! "s") = Some "a"
  ∧ ∀ W (env : ∀ R, Call Tree R → W → R * W) w,
      let p := delete_snapshot (J:=Tree) (λ _, None) (λ _, None) "s" in
      is_err (run_value env p s w) = true ∧ run_state env p s w = s.
Proof.
  exists snap_end.1.1, snap_end.2. split; [exact volumes_app_refs|]. split; [apply (sched_sound race_env)|].
  split; [vm_compute; reflexivity|]. split; [vm_compute; reflexivity|]. split; [vm_compute; reflexivity|].
  intros W env w. apply delete_snapshot_refused. vm_compute. reflexivity.
Qed.
End example.
