(* ===== verification/StateFile.v ===== *)
(** * The state on disk (src/model.rs, [FedState::save] and [load_state])

    The service keeps its federation in [state.json]: a save writes a
    temporary file, syncs it, keeps the file it replaces as [.prev], renames
    over it and syncs the directory; the start reads it back and sets a file
    that does not parse aside. [Disk] is the part of the file system the code
    uses: inodes whose content is or is not on the platter, and the versions
    of the one directory since it was last synced. A power cut keeps any one
    of those versions (renames and links are atomic and reach the platter in
    order, as a journaled file system has it) and leaves anything in a file
    that was not synced. Shown: whatever saves run at once, whichever of
    their system calls fail and whenever the power goes, the next start
    finds a state one of them wrote or the one there before, and needs no
    recovery; what a save returned [Ok] for is what every later start finds;
    and what the start does with a file that does not parse: text is set
    aside, bytes that are not UTF-8 stop it. *)

From stdpp Require Import relations.
From S2P Require Import Prelude F64 Config Model Events Refusal Async Json Inventory Kube Sync App Engine Replicate Base64 Records Store.
From stdpp Require Import options.

Local Open Scope string_scope.

(** ** The file system *)

(** A file's content, and whether it is on the platter. *)
Record Ino := MkIno { data : string; synced : bool }.
#[export] Instance Ino_eta : Eta Ino := λ r, MkIno (data r) (synced r).
Abbreviation Dir := (gmap string nat).

(** [latest] is the directory as the processes see it, [older] its versions
    since the last sync, the newest first. [save_seq] is the process's
    counter of saves ([SEQ]). *)
Record Disk := MkDisk { inodes : gmap nat Ino; next_ino : nat; latest : Dir; older : list Dir; save_seq : Z }.
#[export] Instance Disk_eta : Eta Disk := λ r,
  MkDisk (inodes r) (next_ino r) (latest r) (older r) (save_seq r).
Definition versions (d : Disk) : list Dir := latest d :: older d.

(** A change of the directory: the old version is still what a power cut may
    find. *)
Definition commit_dir (v : Dir) (d : Disk) : Disk := d <| older := versions d |> <| latest := v |>.

(** The system calls, each with what it does when nothing is wrong with the
    device. [File::create]: an old file of that name is emptied. *)
Definition do_create (p : string) (d : Disk) : Disk * result nat string :=
  match latest d !! p with
  | Some i => (d <| inodes ::= <[i := MkIno "" false]> |>, Ok i)
  | None =>
      let i := next_ino d in
      (commit_dir (<[p := i]> (latest d)) d <| inodes ::= <[i := MkIno "" false]> |> <| next_ino := S i |>, Ok i)
  end.
Definition do_append (i : nat) (t : string) (d : Disk) : Disk :=
  d <| inodes ::= alter (λ f, MkIno (data f +:+ t) false) i |>.
Definition do_sync (i : nat) (d : Disk) : Disk := d <| inodes ::= alter (λ f, f <| synced := true |>) i |>.
Definition do_remove (p : string) (d : Disk) : Disk * result unit string :=
  match latest d !! p with
  | Some _ => (commit_dir (delete p (latest d)) d, Ok tt)
  | None => (d, Err "No such file or directory (os error 2)")
  end.
Definition do_link (a b : string) (d : Disk) : Disk * result unit string :=
  match latest d !! a, latest d !! b with
  | Some i, None => (commit_dir (<[b := i]> (latest d)) d, Ok tt)
  | Some _, Some _ => (d, Err "File exists (os error 17)")
  | None, _ => (d, Err "No such file or directory (os error 2)")
  end.
(** Two names of one file: [rename] does nothing. *)
Definition do_rename (a b : string) (d : Disk) : Disk * result unit string :=
  match latest d !! a with
  | Some i => if decide (latest d !! b = Some i) then (d, Ok tt)
              else (commit_dir (<[b := i]> (delete a (latest d))) d, Ok tt)
  | None => (d, Err "No such file or directory (os error 2)")
  end.
Definition do_sync_dir (d : Disk) : Disk := d <| older := [] |>.
Definition read_text (p : string) (d : Disk) : option string := data <$> (latest d !! p ≫= λ i, inodes d !! i).

(** What else the code asks: whether a call fails on the device, how far a
    write came that failed, the clock. *)
Inductive FsCall : Type → Type :=
  | Fault (what : string) : FsCall (option string)
  | WriteFault (t : string) : FsCall (option (string * string))
  | FsNow : FsCall time
  | UnixSecs : FsCall Z.

Abbreviation files A := (prog FsCall Disk A).

Definition sys {A} (what : string) (f : Disk → Disk * result A string) : files (result A string) :=
  let! e := invoke (Fault what) in
  match e with Some e => Ret (Err e) | None => atomic f end.
Definition create (p : string) : files (result nat string) := sys ("create " +:+ p) (do_create p).
Definition write_all (i : nat) (t : string) : files (result unit string) :=
  let! e := invoke (WriteFault t) in
  match e with
  | Some (part, e) => writes (do_append i part) ;! Ret (Err e)
  | None => writes (do_append i t) ;! Ret (Ok tt)
  end.
Definition sync_all (i : nat) : files (result unit string) := sys "fsync" (λ d, (do_sync i d, Ok tt)).
Definition remove_file (p : string) : files (result unit string) := sys ("unlink " +:+ p) (do_remove p).
Definition hard_link (a b : string) : files (result unit string) := sys ("link " +:+ a) (do_link a b).
Definition rename (a b : string) : files (result unit string) := sys ("rename " +:+ a) (do_rename a b).
Definition sync_dir : files (result unit string) := sys "fsync dir" (λ d, (do_sync_dir d, Ok tt)).
(** [read_to_string]: [None] is [NotFound]; bytes that are no UTF-8 are an
    error ([InvalidData]). *)
Definition is_utf8 (t : string) : bool := valid_utf8 (as_bytes t).
Definition NOT_UTF8 : string := "stream did not contain valid UTF-8".
Definition read_to_string (p : string) : files (result (option string) string) :=
  sys ("read " +:+ p) (λ d, (d, match read_text p d with
    | Some t => if is_utf8 t then Ok (Some t) else Err NOT_UTF8
    | None => Ok None
    end)).

(** ** Saving *)

Definition sibling (path suffix : string) : string := path +:+ suffix.

(** [Path::parent], unless it is empty: whether there is a directory to
    make and to sync. *)
Definition parent_dir (path : string) : option string :=
  match rsplit_once slash path with
  | Some (d, _) => if d == "" then Some "/" else Some d
  | None => None
  end.

(** A state file that did not parse, and what was done. *)
Record StateRecovery := MkStateRecovery {
  rec_error : string;
  rec_kept_as : option string;
  started_from : string;
  rec_at : time;
}.

Definition StateRecovery_message (r : StateRecovery) : string :=
  let kept := match rec_kept_as r with
              | Some p => "kept as " +:+ p
              | None => "could not be set aside"
              end in
  let from := if started_from r == "previous"
              then "started from the previous copy; changes since it are lost"
              else "no good previous copy: started empty; volumes, snapshots and backups recorded here are missing until re-imported" in
  "state file did not parse (" +:+ rec_error r +:+ "); " +:+ kept +:+ "; " +:+ from.

Section state_file.
Context `{Serde FedState} (pid : Z) (path : string).

Definition tmp_name (n : Z) : string := path +:+ (".tmp." +:+ (pretty pid +:+ ("." +:+ pretty n))).
Definition prev_name : string := sibling path ".prev".
Definition prev_tmp_name (n : Z) : string := sibling path (".prev.tmp." +:+ (pretty pid +:+ ("." +:+ pretty n))).

Definition write_tmp (tmp : string) (fd : FedState) : files (result unit string) :=
  let!? f := create tmp in
  match ser fd with
  | Some t => let!? _ := write_all f t in sync_all f
  | None => Ret (Err "the state does not serialize")
  end.

(** The previous copy: best effort. *)
Definition keep_previous (n : Z) : files unit :=
  let! l := hard_link path (prev_tmp_name n) in
  if is_ok l then
    let! r := rename (prev_tmp_name n) prev_name in
    if is_err r then remove_file (prev_tmp_name n) ;! Ret tt else Ret tt
  else Ret tt.

(** A save once it has its number. *)
Definition save_as (n : Z) (fd : FedState) : files (result unit string) :=
  let tmp := tmp_name n in
  let! written := write_tmp tmp fd in
  match written with
  | Err e => remove_file tmp ;! Ret (Err e)
  | Ok _ =>
      keep_previous n ;!
      let!? _ := rename tmp path in
      match parent_dir path with
      | Some _ => let!? _ := sys "open dir" (λ d, (d, Ok tt)) in sync_dir
      | None => Ret (Ok tt)
      end
  end.

(** [FedState::save]. *)
Definition save (fd : FedState) : files (result unit string) :=
  let!? _ := match parent_dir path with
             | Some dir => sys ("mkdir " +:+ dir) (λ d, (d, Ok tt))
             | None => Ret (Ok tt)
             end in
  let! n := atomic (λ d, (d <| save_seq ::= λ n, u64_add n 1 |>, save_seq d)) in
  save_as n fd.

(** ** Reading *)

(** [FedState::load]. *)
Definition load (p : string) : files (result FedState string) :=
  let!? t := read_to_string p in
  match t with
  | Some t => Ret (de t)
  | None => Ret (Ok FedState_default)
  end.

Definition load_previous : files (FedState * string) :=
  let! r := read_to_string prev_name in
  Ret match r with
      | Ok (Some t) => match de t with Ok fd => (fd, "previous") | Err _ => (FedState_default, "empty") end
      | _ => (FedState_default, "empty")
      end.

(** [load_state]. *)
Definition load_state : files (result (FedState * option StateRecovery) string) :=
  let!? text := read_to_string path in
  match text with
  | None => let! r := load prev_name in
            Ret (Ok (match r with Ok fd => fd | Err _ => FedState_default end, None))
  | Some text =>
      match de text with
      | Ok fd => Ret (Ok (fd, None))
      | Err e =>
          let! secs := invoke UnixSecs in
          let bad := sibling path (".bad-" +:+ pretty secs) in
          let! r := rename path bad in
          let kept_as := if is_ok r then Some bad else None in
          let! previous := load_previous in
          let! now := invoke FsNow in
          Ret (Ok (previous.1, Some {| rec_error := e; rec_kept_as := kept_as;
                                       started_from := previous.2; rec_at := now |}))
      end
  end.
End state_file.

(** [AppState::persist_file]: a failure is only logged. *)
Definition persist_file `{Serde FedState} (pid : Z) (state_path : option string) (fd : FedState) : files unit :=
  match state_path with
  | Some path => save pid path fd ;! Ret tt
  | None => Ret tt
  end.

(** ** The start (src/main.rs) *)

(** [Path::join] of a plain name. *)
Definition path_join (dir f : string) : string :=
  if dir == "" then f else if ends_with "/" dir then dir +:+ f else dir +:+ "/" +:+ f.

(** What [main] hands to the tasks: the state of the handlers, and the
    recovery that is on record. *)
Record Started := MkStarted { st_app : App; state_recovery : option StateRecovery }.

(** [AppState::note_state_recovery]. *)
Definition note_state_recovery (now : time) (s : App) (r : StateRecovery) : Started :=
  {| st_app := s <| events ::= λ e, (push e now None Error "state" (StateRecovery_message r)).1 |>;
     state_recovery := Some r |}.

(** [main], up to its tasks; [configured] are the nodes of the file,
    [leads] whether it leads a fleet store if it has one. *)
Definition start `{Serde FedState} (data_dir : option string) (configured : list NodeConfig) (store_ : option bool)
    : files (result Started string) :=
  let!? loaded := match data_dir with
                  | Some d => load_state (path_join d "state.json")
                  | None => Ret (Ok (FedState_default, None))
                  end in
  let s := App_new (apply_config_nodes loaded.1 configured) store_ in
  match loaded.2 with
  | None => Ret (Ok {| st_app := s; state_recovery := None |})
  | Some r => let! now := invoke FsNow in Ret (Ok (note_state_recovery now s r))
  end.

(** [AppState::conditions]: what [/api/v1/health] reports. *)
Section conditions.
Context {J : Type} `{Json J} (time_json : time → J).
Definition opt_json (s : option string) : J := match s with Some s => of_str s | None => j_null end.
Definition conditions (r : option StateRecovery) (st : option StoreStatus) : list J :=
  match r with
  | Some r => [of_object [("type", of_str "state_recovered"); ("severity", of_str "error");
      ("message", of_str (StateRecovery_message r)); ("error", of_str (rec_error r));
      ("kept_as", opt_json (rec_kept_as r)); ("started_from", of_str (started_from r)); ("at", time_json (rec_at r))]]
  | None => []
  end ++
  match st ≫= displaced with
  | Some d => [of_object [("type", of_str "store_displaced_volumes"); ("severity", of_str "error");
      ("message", of_str (Displaced_message d)); ("volumes", of_array (map of_str (dp_volumes d)));
      ("kept_as", opt_json (kept_as d)); ("at", time_json (dp_at d))]]
  | None => []
  end.
End conditions.

(** ** Names *)

Lemma append_nil_inv (p s : string) : p +:+ s = p → s = "".
Proof. induction p as [|c p IH]; intros Hp; [done|]. injection Hp. exact IH. Qed.

Section names.
Context `{Serde FedState} (pid : Z) (path : string).
(** A temporary file of some save; the state file and its previous copies. *)
Definition is_tmp (nm : string) : Prop := ∃ s, nm = path +:+ (".tmp." +:+ s).
Definition is_kept (nm : string) : Prop := nm = path ∨ ∃ s, nm = path +:+ (".prev" +:+ s).

Lemma tmp_not_kept nm : is_tmp nm → ¬ is_kept nm.
Proof.
  intros [s ->] [Hk|[s' Hk]].
  - by apply append_nil_inv in Hk.
  - by apply (inj (String.append path)) in Hk.
Qed.
Lemma tmp_name_tmp n : is_tmp (tmp_name pid path n).
Proof. by eexists. Qed.
Lemma tmp_name_inj n m : tmp_name pid path n = tmp_name pid path m → n = m.
Proof.
  unfold tmp_name. intros Ht. apply (inj (String.append path)) in Ht. apply (inj (String.append ".tmp.")) in Ht.
  apply (inj (String.append (pretty pid))) in Ht. apply (inj (String.append ".")) in Ht. by apply (inj pretty) in Ht.
Qed.
Lemma path_kept : is_kept path.
Proof. by left. Qed.
Lemma prev_kept : is_kept (prev_name path).
Proof. right. by exists "". Qed.
Lemma prev_tmp_kept n : is_kept (prev_tmp_name pid path n).
Proof. right. by eexists. Qed.
Lemma prev_tmp_ne_path n : prev_tmp_name pid path n ≠ path.
Proof. intros Hp. by apply append_nil_inv in Hp. Qed.
Lemma prev_ne_path : prev_name path ≠ path.
Proof. intros Hp. by apply append_nil_inv in Hp. Qed.
End names.

(** ** What a power cut can leave *)

(** One version of the directory, what was synced, and anything in the
    rest. *)
Inductive power_cut (d : Disk) : Disk → Prop :=
  | cut v inos seq_ :
      v ∈ versions d →
      (∀ i f, inodes d !! i = Some f → synced f = true → inos !! i = Some f) →
      power_cut d (MkDisk inos (next_ino d) v [] seq_).

Section crash.
Context `{Serde FedState} (pid : Z) (path : string).
(** The texts the state file may hold, and those being saved. *)
Context (T X : string → Prop) (HX : ∀ t, X t → T t).

Definition holds_text (Y : string → Prop) (d : Disk) (i : nat) : Prop :=
  ∃ t, inodes d !! i = Some (MkIno t true) ∧ Y t.
(** A temporary name's file has no other name, in this version or an older
    one. *)
Definition owns (v u : Dir) : Prop := ∀ t nm i, is_tmp path t → v !! t = Some i → u !! nm = Some i → nm = t.
Fixpoint owned (vs : list Dir) : Prop :=
  match vs with [] => True | v :: vs' => Forall (owns v) vs ∧ owned vs' end.

(** The invariant of the disk. *)
Record sound (d : Disk) : Prop := {
  sound_kept : ∀ v nm i, v ∈ versions d → is_kept path nm → v !! nm = Some i → holds_text T d i;
  sound_next : ∀ v nm i, v ∈ versions d → v !! nm = Some i → i < next_ino d;
  sound_tmp : owned (versions d);
}.
(** Every one of these versions has the state file, with a text of [Y]. *)
Definition settled (Y : string → Prop) (vs : list Dir) (d : Disk) : Prop :=
  ∀ v, v ∈ vs → ∃ i, v !! path = Some i ∧ holds_text Y d i.

(** What a step leaves alone: the temporary files that are not [mine], and
    a state file that is there. *)
Record leaves (mine : string → Prop) (d d' : Disk) : Prop := {
  leaves_sound : sound d';
  leaves_tmp : ∀ t, is_tmp path t → ¬ mine t → latest d' !! t = latest d !! t ∧
    ∀ i, latest d !! t = Some i → inodes d' !! i = inodes d !! i;
  leaves_all : ∀ Y : string → Prop, (∀ t, X t → Y t) → settled Y (versions d) d → settled Y (versions d') d';
  leaves_latest : ∀ Y : string → Prop, (∀ t, X t → Y t) → settled Y [latest d] d → settled Y [latest d'] d';
}.
Definition step_ok (mine : string → Prop) (d d' : Disk) : Prop := sound d → leaves mine d d'.

Lemma step_ok_refl mine d : step_ok mine d d.
Proof. intros Hs. by constructor. Qed.
Lemma step_ok_mono (mine mine' : string → Prop) d d' :
  (∀ t, mine t → mine' t) → step_ok mine d d' → step_ok mine' d d'.
Proof. intros Hm Hst Hs. destruct (Hst Hs) as [Hs' Ht Ha Hl]. constructor; auto. Qed.
Lemma step_ok_trans mine : Transitive (step_ok mine).
Proof.
  intros d1 d2 d3 H1 H2 Hs. destruct (H1 Hs) as [Hs2 Ht2 Ha2 Hl2], (H2 Hs2) as [Hs3 Ht3 Ha3 Hl3].
  constructor; [done| |by auto|by auto]. intros t Ht Hm.
  destruct (Ht2 t Ht Hm) as [E2 I2], (Ht3 t Ht Hm) as [E3 I3]. split; [by rewrite E3|].
  intros i Hi. rewrite I3 by (by rewrite E2). by apply I2.
Qed.
Lemma owned_latest d v : sound d → v ∈ versions d → owns (latest d) v.
Proof. intros Hs Hv. destruct (sound_tmp d Hs) as [Hf _]. rewrite Forall_forall in Hf. by apply Hf. Qed.
Lemma owned_self vs v : owned vs → v ∈ vs → owns v v.
Proof.
  induction vs as [|u vs IH]; intros Ho Hv; [by apply elem_of_nil in Hv|].
  destruct Ho as [Hf Ho]. apply elem_of_cons in Hv as [->|Hv]; [|by apply IH].
  by apply Forall_cons in Hf as [Hf _].
Qed.
(** A power cut keeps the invariant. *)
Lemma power_cut_sound d d' : sound d → power_cut d d' → sound d'.
Proof.
  intros Hs Hc. destruct Hc as [v inos sq Hv Hi]. constructor; simpl.
  - intros u nm i Hu Hk Hn. apply list_elem_of_singleton in Hu as ->.
    destruct (sound_kept d Hs v nm i Hv Hk Hn) as (t & Ht & HT). exists t. by split; [apply Hi|].
  - intros u nm i Hu Hn. apply list_elem_of_singleton in Hu as ->. by eapply sound_next.
  - split; [|done]. apply Forall_singleton. eapply owned_self; [by apply sound_tmp|done].
Qed.

(** *** What the system calls leave alone *)

(** A new version of the directory. *)
Lemma commit_ok mine (v : Dir) d :
  (∀ nm i, is_kept path nm → v !! nm = Some i → latest d !! nm = Some i ∨ holds_text T d i) →
  (∀ nm i, v !! nm = Some i → i < next_ino d ∨ latest d !! nm = Some i) →
  (∀ t i, is_tmp path t → v !! t = Some i → ∀ nm, (∃ u, u ∈ v :: versions d ∧ u !! nm = Some i) → nm = t) →
  (∀ t, is_tmp path t → ¬ mine t → v !! t = latest d !! t) →
  (∀ i, latest d !! path = Some i → v !! path = Some i ∨ ∃ j, v !! path = Some j ∧ holds_text X d j) →
  step_ok mine d (commit_dir v d).
Proof.
  intros Hkept Hfrom Htmp Hmine Hpath Hs.
  assert (Hset : ∀ Y : string → Prop, (∀ t, X t → Y t) → settled Y [latest d] d → settled Y [v] d).
  { intros Y HY Hp u Hu. apply list_elem_of_singleton in Hu as ->.
    destruct (Hp (latest d)) as (i & Hi & Hh); [by apply list_elem_of_singleton|].
    destruct (Hpath i Hi) as [Hv|(j & Hv & t & Ht & HXt)]; [by exists i|].
    exists j. split; [done|]. exists t. auto. }
  constructor.
  - constructor; simpl.
    + intros u nm i Hu Hk Hn. apply elem_of_cons in Hu as [->|Hu]; [|by eapply (sound_kept d Hs)].
      destruct (Hkept nm i Hk Hn) as [Hl|Hh]; [|done]. eapply (sound_kept d Hs); [by left|done|done].
    + intros u nm i Hu Hn. apply elem_of_cons in Hu as [->|Hu]; [|by eapply (sound_next d Hs)].
      destruct (Hfrom nm i Hn) as [Hl|Hl]; [done|]. eapply (sound_next d Hs); [by left|exact Hl].
    + split; [|by apply (sound_tmp d Hs)]. rewrite Forall_forall. intros u Hu t nm i Ht Hvt Hn.
      eapply Htmp; eauto.
  - simpl. intros t Ht Hm. split; [by apply Hmine|done].
  - intros Y HY Hp u Hu. simpl in Hu. apply elem_of_cons in Hu as [->|Hu]; [|by apply Hp].
    apply (Hset Y HY); [|by left]. intros w Hw. apply Hp. apply list_elem_of_singleton in Hw as ->. by left.
  - intros Y HY. exact (Hset Y HY).
Qed.

(** The content of a file that no name has but, maybe, my temporary one. *)
Lemma content_ok (mine : string → Prop) j (inos : gmap nat Ino) (n : nat) d :
  (sound d → ∀ v nm, v ∈ versions d → v !! nm = Some j → is_tmp path nm ∧ mine nm) →
  (∀ i, i ≠ j → inos !! i = inodes d !! i) → (next_ino d ≤ n)%nat →
  step_ok mine d (d <| inodes := inos |> <| next_ino := n |>).
Proof.
  intros Hmy Hi Hn Hs. specialize (Hmy Hs).
  assert (Hset : ∀ (Y : string → Prop) vs, (∀ v, v ∈ vs → v ∈ versions d) →
    settled Y vs d → settled Y vs (d <| inodes := inos |> <| next_ino := n |>)).
  { intros Y vs Hvs Hp v Hv. destruct (Hp v Hv) as (i & Hpi & x & Hx & HY). exists i. split; [done|].
    exists x. simpl. split; [|done]. rewrite Hi; [done|]. intros ->.
    eapply tmp_not_kept; [eapply Hmy; [|exact Hpi]; auto|apply path_kept]. }
  constructor.
  - constructor; simpl; [| |by apply (sound_tmp d Hs)].
    + intros v nm i Hv Hk Hni. destruct (sound_kept d Hs v nm i Hv Hk Hni) as (x & Hx & HT).
      exists x. simpl. split; [|done]. rewrite Hi; [done|]. intros ->.
      eapply tmp_not_kept; [eapply Hmy; [exact Hv|exact Hni]|done].
    + intros v nm i Hv Hni. enough (i < next_ino d) by lia. by eapply (sound_next d Hs).
  - simpl. intros t' Ht' Hm'. split; [done|]. intros i Hni. apply Hi. intros ->.
    apply Hm'. eapply (Hmy (latest d)); [by left|done].
  - intros Y _. by apply Hset.
  - intros Y _. apply Hset. intros v Hv. apply list_elem_of_singleton in Hv as ->. by left.
Qed.
Lemma tmp_content_ok (mine : string → Prop) t j (inos : gmap nat Ino) d :
  is_tmp path t → mine t → latest d !! t = Some j → (∀ i, i ≠ j → inos !! i = inodes d !! i) →
  step_ok mine d (d <| inodes := inos |>).
Proof.
  intros Ht Hm Hj Hi. apply (content_ok mine j inos (next_ino d) d); [|done|done].
  intros Hs v nm Hv Hn. by rewrite (owned_latest d v Hs Hv t nm j Ht Hj Hn).
Qed.

Lemma create_ok (mine : string → Prop) t d :
  is_tmp path t → mine t → step_ok mine d (do_create t d).1.
Proof.
  intros Ht Hm. unfold do_create. destruct (latest d !! t) as [j|] eqn:Hj; simpl.
  { eapply (tmp_content_ok mine t j (<[j:=MkIno "" false]> (inodes d))); [done|done|done|].
    intros i Hne. by rewrite lookup_insert_ne. }
  intros Hs. set (i0 := next_ino d).
  assert (Hold : ∀ v nm, v ∈ versions d → v !! nm ≠ Some i0).
  { intros v nm Hv Hn. pose proof (sound_next d Hs v nm i0 Hv Hn). unfold i0 in *. lia. }
  set (d1 := d <| inodes := <[i0 := MkIno "" false]> (inodes d) |> <| next_ino := S i0 |>).
  assert (H1 : step_ok mine d d1).
  { apply (content_ok mine i0); [|intros i Hne; by rewrite lookup_insert_ne|unfold i0; lia].
    intros _ v nm Hv Hn. by destruct (Hold v nm Hv). }
  revert Hs. change (step_ok mine d (commit_dir (<[t := i0]> (latest d1)) d1)).
  eapply step_ok_trans; [exact H1|].
  intros Hs1. apply commit_ok; [| | | | |done].
  - intros nm i Hk Hn. left. rewrite lookup_insert_ne in Hn; [done|]. intros ->. by eapply tmp_not_kept.
  - intros nm i Hn. apply lookup_insert_Some in Hn as [[_ <-]|[_ Hn]]; [left; simpl; lia|by right].
  - intros t' i Ht' Hn nm (u & Hu & Hnu). apply lookup_insert_Some in Hn as [[<- <-]|[Hne Hn]].
    + apply elem_of_cons in Hu as [->|Hu]; [|by destruct (Hold u nm Hu)].
      apply lookup_insert_Some in Hnu as [[<- _]|[_ Hnu]]; [done|]. by destruct (Hold (latest d) nm); [left|].
    + apply elem_of_cons in Hu as [->|Hu]; [|by eapply (owned_latest d1 u Hs1)].
      apply lookup_insert_Some in Hnu as [[<- <-]|[_ Hnu]]; [by destruct (Hold (latest d) t'); [left|]|].
      eapply (owned_latest d1 (latest d1) Hs1); [by left|exact Ht'|exact Hn|exact Hnu].
  - intros t' Ht' Hm'. rewrite lookup_insert_ne; [done|]. by intros ->.
  - intros i Hn. left. rewrite lookup_insert_ne; [done|]. intros ->. eapply tmp_not_kept; [done|apply path_kept].
Qed.

(** A version made by moving names of the latest one. *)
Lemma move_ok mine (v : Dir) d :
  (∀ nm i, v !! nm = Some i → latest d !! nm = Some i ∨
     is_kept path nm ∧ ∃ a, latest d !! a = Some i ∧ (is_kept path a ∨ v !! a = None ∧ holds_text T d i)) →
  (∀ t, is_tmp path t → ¬ mine t → v !! t = latest d !! t) →
  (∀ i, latest d !! path = Some i → v !! path = Some i ∨ ∃ j, v !! path = Some j ∧ holds_text X d j) →
  step_ok mine d (commit_dir v d).
Proof.
  intros Hfrom Hmine Hpath Hs. apply commit_ok; [| | |done|done|done].
  - intros nm i Hk Hn. destruct (Hfrom nm i Hn) as [Hl|(_ & a & Ha & [Hka|[_ Hh]])]; [by left| |by right].
    right. eapply (sound_kept d Hs); [by left|exact Hka|exact Ha].
  - intros nm i Hn. destruct (Hfrom nm i Hn) as [Hl|(_ & a & Ha & _)]; [by right|].
    left. eapply (sound_next d Hs); [by left|exact Ha].
  - intros t i Ht Hn nm (u & Hu & Hnu).
    assert (Hl : latest d !! t = Some i).
    { destruct (Hfrom t i Hn) as [Hl|[Hk _]]; [done|]. by destruct (tmp_not_kept path t Ht). }
    apply elem_of_cons in Hu as [->|Hu]; [|by eapply (owned_latest d u Hs)].
    pose proof (owned_latest d (latest d) Hs) as Ho.
    destruct (Hfrom nm i Hnu) as [Hl'|(_ & a & Ha & Hor)]; [eapply Ho; [by left|done|done|done]|].
    assert (a = t) as -> by (eapply Ho; [by left|done|done|done]).
    destruct Hor as [Hk|[Hv _]]; [by destruct (tmp_not_kept path t Ht)|congruence].
Qed.

Lemma sync_dir_ok mine d : step_ok mine d (do_sync_dir d).
Proof.
  intros Hs. constructor; [| |intros Y _ Hp v Hv|done].
  - constructor; simpl.
    + intros v nm i Hv. apply (sound_kept d Hs). apply list_elem_of_singleton in Hv as ->. by left.
    + intros v nm i Hv. apply (sound_next d Hs). apply list_elem_of_singleton in Hv as ->. by left.
    + split; [|done]. apply Forall_singleton. apply (owned_latest d); [done|by left].
  - done.
  - apply list_elem_of_singleton in Hv as ->. apply Hp. by left.
Qed.
Lemma remove_ok (mine : string → Prop) a d :
  a ≠ path → (is_tmp path a → mine a) → step_ok mine d (do_remove a d).1.
Proof.
  intros Ha Hm. unfold do_remove. destruct (latest d !! a) as [j|] eqn:Hj; [|apply step_ok_refl]. simpl.
  apply move_ok.
  - intros nm i Hn. left. by apply lookup_delete_Some in Hn as [_ Hn].
  - intros t Ht Hmt. rewrite lookup_delete_ne; [done|]. by intros ->; apply Hmt, Hm.
  - intros i Hi. left. by rewrite lookup_delete_ne.
Qed.
Lemma link_ok mine b d : is_kept path b → step_ok mine d (do_link path b d).1.
Proof.
  intros Hb. unfold do_link. destruct (latest d !! path) as [j|] eqn:Hj; [|apply step_ok_refl].
  destruct (latest d !! b) eqn:Hbl; [apply step_ok_refl|]. simpl. apply move_ok.
  - intros nm i Hn. apply lookup_insert_Some in Hn as [[<- <-]|[_ Hn]]; [right|by left].
    split; [done|]. exists path. split; [done|]. left. apply path_kept.
  - intros t Ht _. rewrite lookup_insert_ne; [done|]. intros ->. by eapply tmp_not_kept.
  - intros i Hi. left. rewrite lookup_insert_ne; [congruence|]. intros ->. congruence.
Qed.
Lemma rename_kept_ok mine a b d :
  is_kept path a → is_kept path b → a ≠ path → b ≠ path → step_ok mine d (do_rename a b d).1.
Proof.
  intros Ha Hb Hap Hbp. unfold do_rename. destruct (latest d !! a) as [j|] eqn:Hj; [|apply step_ok_refl].
  destruct (decide _) as [E|Hne]; [apply step_ok_refl|]. simpl. apply move_ok.
  - intros nm i Hn. apply lookup_insert_Some in Hn as [[<- <-]|[_ Hn]].
    + right. split; [done|]. exists a. by split; [|left].
    + left. by apply lookup_delete_Some in Hn as [_ Hn].
  - intros t Ht _. rewrite lookup_insert_ne, lookup_delete_ne; [done|..]; intros ->; by eapply tmp_not_kept.
  - intros i Hi. left. by rewrite lookup_insert_ne, lookup_delete_ne.
Qed.
Lemma rename_tmp_ok (mine : string → Prop) t i d :
  is_tmp path t → mine t → latest d !! t = Some i → holds_text X d i → step_ok mine d (do_rename t path d).1.
Proof using HX.
  intros Ht Hm Hi Hh. unfold do_rename. rewrite Hi.
  destruct (decide _) as [E|Hne]; [apply step_ok_refl|]. simpl. apply move_ok.
  - intros nm j Hn. apply lookup_insert_Some in Hn as [[<- <-]|[_ Hn]].
    + right. split; [apply path_kept|]. exists t. split; [done|]. right. split.
      * rewrite lookup_insert_ne; [apply lookup_delete_eq|]. intros <-. eapply tmp_not_kept; [done|apply path_kept].
      * destruct Hh as (x & Hx & HXx). exists x. auto.
    + left. by apply lookup_delete_Some in Hn as [_ Hn].
  - intros t' Ht' Hm'. rewrite lookup_insert_ne, lookup_delete_ne; [done|by intros ->|].
    intros <-. eapply tmp_not_kept; [done|apply path_kept].
  - intros j Hj. right. exists i. split; [apply lookup_insert_eq|done].
Qed.

(** *** A save among others *)

Section one_save.
Context (t : string) (Ht : is_tmp path t) (Rl : relation Disk).
Let mine (t' : string) : Prop := t' = t.
Let others (t' : string) : Prop := t' ≠ t.
Context (HRl : ∀ d d', Rl d d' → step_ok others d d').

(** My temporary file, and its content. *)
Definition my_file (i : nat) (f : Ino) (d : Disk) : Prop :=
  sound d ∧ latest d !! t = Some i ∧ inodes d !! i = Some f.
Lemma my_file_stable i f d d' : step_ok others d d' → my_file i f d → my_file i f d'.
Proof using Ht.
  intros Hst (Hs & Hi & Hf). destruct (Hst Hs) as [Hs' Htmp _ _].
  destruct (Htmp t Ht) as [E1 E2]; [intros Hn; by apply Hn|]. split; [done|]. split; [by rewrite E1|].
  by rewrite (E2 i Hi).
Qed.
Lemma step_ok_none mine' d d' : step_ok (λ _, False) d d' → step_ok mine' d d'.
Proof.
  intros Hst Hs. destruct (Hst Hs) as [Hs' Htmp Ha Hl]. constructor; [done| |done|done]. intros t' Ht' _.
  by apply Htmp; [|intros []].
Qed.
(** A call from a state with [P], which the others keep. *)
Lemma wp_sys {A} (P : Disk → Prop) what (f : Disk → Disk * result A string) (Q : result A string → Disk → Prop) d :
  (∀ d d', step_ok others d d' → P d → P d') → P d →
  (∀ d, P d → step_ok mine d (f d).1 ∧ Q (f d).2 (f d).1) → (∀ e, Q (Err e) d) →
  wp Rl (step_ok mine) (sys what f) Q d.
Proof using HRl.
  intros HP Hd Hf He [e|]; simpl; [apply He|]. intros d' HR. apply Hf. eapply HP; [by apply HRl|done].
Qed.
Lemma sound_stable mine' d d' : step_ok mine' d d' → sound d → sound d'.
Proof. intros Hst Hs. by destruct (Hst Hs). Qed.

Lemma wp_create d :
  sound d → wp Rl (step_ok mine) (create t) (λ r d', match r with
    | Ok i => my_file i (MkIno "" false) d' | Err _ => sound d' end) d.
Proof using HRl Ht.
  intros Hs. apply (wp_sys sound); [by apply sound_stable|done| |done].
  intros d1 Hs1. pose proof (create_ok mine t d1 Ht eq_refl) as Hok. split; [done|].
  pose proof (Hok Hs1) as [Hs2 _ _ _]. clear Hok. unfold do_create in *.
  destruct (latest d1 !! t) as [j|] eqn:Hj; simpl in *.
  - split; [done|]. split; [done|]. apply lookup_insert_eq.
  - split; [done|]. split; apply lookup_insert_eq.
Qed.
Lemma append_ok i f x d : my_file i f d → step_ok mine d (do_append i x d).
Proof using Ht.
  intros (Hs & Hi & Hf). apply (tmp_content_ok mine t i); [done|done|done|].
  intros j Hj. by rewrite lookup_alter_ne.
Qed.
Lemma wp_write_all i f x d :
  my_file i f d → wp Rl (step_ok mine) (write_all i x) (λ r d', match r with
    | Ok _ => my_file i (MkIno (data f +:+ x) false) d' | Err _ => sound d' end) d.
Proof using HRl Ht.
  intros Hm [[part e]|]; simpl; intros d1 HR;
    apply HRl in HR; apply (my_file_stable _ _ _ _ HR) in Hm; pose proof Hm as (Hs & Hi & Hf).
  - pose proof (append_ok i f part d1 Hm) as Hok. split; [done|]. by eapply sound_stable.
  - pose proof (append_ok i f x d1 Hm) as Hok. split; [done|]. split; [by eapply sound_stable|].
    split; [done|]. simpl. by rewrite lookup_alter_eq, Hf.
Qed.
Lemma wp_sync_all i x d :
  my_file i (MkIno x false) d → wp Rl (step_ok mine) (sync_all i) (λ r d', match r with
    | Ok _ => my_file i (MkIno x true) d' | Err _ => sound d' end) d.
Proof using HRl Ht.
  intros Hm. apply (wp_sys (my_file i (MkIno x false))); [apply my_file_stable|done| |by destruct Hm].
  clear d Hm. intros d Hm. pose proof Hm as (Hs & Hi & Hf).
  assert (Hok : step_ok mine d (do_sync i d)).
  { apply (tmp_content_ok mine t i); [done|done|done|]. intros j Hj. by rewrite lookup_alter_ne. }
  split; [done|]. split; [by eapply sound_stable|]. split; [done|]. simpl. by rewrite lookup_alter_eq, Hf.
Qed.
Lemma wp_write_tmp (fd : FedState) x d :
  ser fd = Some x → sound d →
  wp Rl (step_ok mine) (write_tmp t fd) (λ r d', match r with
    | Ok _ => ∃ i, my_file i (MkIno x true) d' | Err _ => sound d' end) d.
Proof using HRl Ht.
  intros Hser Hs. apply wp_bind. eapply wp_mono; [by apply wp_create|]. intros [i|e] d1; [|done].
  intros Hm. rewrite Hser. apply wp_bind. eapply wp_mono; [by apply wp_write_all|]. intros [[]|e] d2; [|done].
  intros Hm2. eapply wp_mono; [by apply wp_sync_all|]. intros [[]|e] d3; [|done]. intros Hm3. by exists i.
Qed.
Lemma keep_previous_guar n : guar (step_ok (λ _, False)) (keep_previous pid path n).
Proof.
  unfold keep_previous, hard_link, rename, remove_file, sys. guar_auto.
  - apply link_ok, prev_tmp_kept.
  - apply rename_kept_ok; [apply prev_tmp_kept|apply prev_kept|apply prev_tmp_ne_path|apply prev_ne_path].
  - apply remove_ok; [apply prev_tmp_ne_path|]. intros Hp. destruct (tmp_not_kept path _ Hp (prev_tmp_kept pid path n)).
Qed.
Lemma others_none d d' : step_ok (λ _, False) d d' → step_ok others d d'.
Proof. apply step_ok_none. Qed.

Lemma wp_commit i x d :
  X x → my_file i (MkIno x true) d →
  wp Rl (step_ok mine) (rename t path) (λ r d', sound d' ∧ (is_ok r = true → settled X [latest d'] d')) d.
Proof using HRl Ht HX.
  intros HXx Hm. apply (wp_sys (my_file i (MkIno x true))); [apply my_file_stable|done| |by destruct Hm].
  clear d Hm. intros d (Hs & Hi & Hf).
  assert (Hh : holds_text X d i) by by exists x.
  pose proof (rename_tmp_ok mine t i d Ht eq_refl Hi Hh) as Hok. split; [done|]. split; [by eapply sound_stable|].
  intros _ v Hv. apply list_elem_of_singleton in Hv as ->. exists i.
  unfold do_rename. rewrite Hi. destruct (decide _) as [E|Hne]; simpl; [done|]. by rewrite lookup_insert_eq.
Qed.

Lemma settled_latest_stable mine' d d' :
  step_ok mine' d d' → sound d ∧ settled X [latest d] d → sound d' ∧ settled X [latest d'] d'.
Proof. intros Hst [Hs Hl]. destruct (Hst Hs) as [Hs' _ _ Hl']. split; [done|]. by apply Hl'. Qed.
Lemma wp_sync_dir d :
  sound d ∧ settled X [latest d] d →
  wp Rl (step_ok mine) (let!? _ := sys "open dir" (λ d, (d, Ok tt)) in sync_dir)
    (λ r d', sound d' ∧ (is_ok r = true → settled X (versions d') d')) d.
Proof using HRl.
  intros Hd. apply wp_bind.
  eapply wp_mono; [apply (wp_sys (λ d, sound d ∧ settled X [latest d] d) "open dir" (λ d, (d, Ok tt))
    (λ _ d, sound d ∧ settled X [latest d] d))|].
  - apply settled_latest_stable.
  - done.
  - intros d1 H1. split; [apply step_ok_refl|done].
  - done.
  - intros [[]|e] d1 H1; [|by split; [apply H1|]].
    apply (wp_sys (λ d, sound d ∧ settled X [latest d] d)); [apply settled_latest_stable|done| |by split; [apply H1|]].
    intros d2 [Hs2 Hl2]. split; [apply sync_dir_ok|]. split; [by apply (sync_dir_ok mine)|]. intros _. exact Hl2.
Qed.
Lemma wp_remove d :
  sound d → wp Rl (step_ok mine) (remove_file t) (λ _ d', sound d') d.
Proof using HRl Ht.
  intros Hs. apply (wp_sys sound); [by apply sound_stable|done| |done].
  intros d1 Hs1. assert (Hok : step_ok mine d1 (do_remove t d1).1).
  { apply remove_ok; [|done]. intros ->. eapply tmp_not_kept; [done|apply path_kept]. }
  split; [done|]. by eapply sound_stable.
Qed.
End one_save.

(** A save keeps the disk sound whatever fails and whoever else saves; when
    it returns [Ok] and synced a directory, every version of the directory a
    power cut can find has one of the texts being saved. *)
Lemma save_as_wp (n : Z) (fd : FedState) x (Rl : relation Disk) d :
  (∀ d d', Rl d d' → step_ok (λ t, t ≠ tmp_name pid path n) d d') →
  ser fd = Some x → X x → sound d →
  wp Rl (step_ok (λ t, t = tmp_name pid path n)) (save_as pid path n fd)
    (λ r d', sound d' ∧ (is_ok r = true → parent_dir path ≠ None → settled X (versions d') d')) d.
Proof using HX.
  intros HRl Hser HXx Hs. pose proof (tmp_name_tmp pid path n) as Ht.
  apply wp_bind. eapply wp_mono; [by apply wp_write_tmp|]. intros [[]|e] d1.
  - intros [i Hm]. apply wp_bind. eapply wp_mono.
    { apply (guar_wp_rely (step_ok (λ _, False)) Rl _ (step_ok (λ t, t ≠ tmp_name pid path n)));
        [intros ?; apply step_ok_refl|apply step_ok_trans|intros ??; apply step_ok_none..|done|apply keep_previous_guar]. }
    intros ? d2 H2. cbv beta in H2. apply (my_file_stable _ Ht _ _ _ _ H2) in Hm. apply wp_bind.
    eapply wp_mono; [by eapply wp_commit|]. intros [[]|e] d3 [Hs3 H3]; [|by split].
    specialize (H3 eq_refl). destruct (parent_dir path) as [p|]; [|by split].
    eapply wp_mono; [by apply wp_sync_dir|]. intros r d4 [Hs4 H4]. by split; [|intros Hr _; apply H4].
  - intros Hs1. apply wp_bind. eapply wp_mono; [by apply wp_remove|]. intros [[]|e'] d2 Hs2; by split.
Qed.
Lemma save_as_spawnless n fd : spawnless (save_as pid path n fd).
Proof.
  assert (Hsys : ∀ A w (f : Disk → Disk * result A string), spawnless (sys w f)) by (intros A w f [e|]; simpl; auto).
  unfold save_as, write_tmp, keep_previous, create, sync_all, remove_file, hard_link, rename, sync_dir.
  repeat first [apply Hsys | exact I | apply spawnless_bind_ok | apply spawnless_bind
    | match goal with |- spawnless (match ?x with _ => _ end) => destruct x end | intros ?].
Qed.
End crash.

(** ** The next start *)

Section next_start.
Context `{Serde FedState} (pid : Z) (path : string) (now : time) (secs : Z).

(** A device on which no call fails. *)
Definition device (R : Type) (c : FsCall R) (w : unit) : R * unit :=
  match c with
  | Fault _ => (None, tt)
  | WriteFault _ => (None, tt)
  | FsNow => (now, tt)
  | UnixSecs => (secs, tt)
  end.
(** What [load_state] finds on a disk. *)
Definition found (d : Disk) : result (FedState * option StateRecovery) string :=
  run_value device (load_state path) d tt.

(** The texts of the states of [K]. *)
Definition text_of (K : FedState → Prop) (t : string) : Prop := is_utf8 t = true ∧ ∃ fd, K fd ∧ de t = Ok fd.
(** The state is written, as text, and reads back. *)
Definition writes_as (fd : FedState) (t : string) : Prop := ser fd = Some t ∧ is_utf8 t = true ∧ de t = Ok fd.

Lemma found_sound K d :
  sound path (text_of K) d →
  ∃ fd, found d = Ok (fd, None) ∧ (K fd ∨ fd = FedState_default ∧ latest d !! path = None).
Proof.
  intros Hs. unfold found, run_value, load_state, read_to_string, sys, load, read_text. simpl.
  destruct (latest d !! path) as [i|] eqn:Hi; simpl.
  - destruct (sound_kept path _ d Hs (latest d) path i) as (t & Ht & Hu & fd & HK & Hde); [by left|apply path_kept|done|].
    rewrite Ht. simpl. rewrite Hu. simpl. rewrite Hde. exists fd. by split; [|left].
  - unfold read_to_string, sys, read_text. simpl.
    destruct (latest d !! prev_name path) as [i|] eqn:Hp; simpl.
    + destruct (sound_kept path _ d Hs (latest d) (prev_name path) i) as (t & Ht & Hu & fd & HK & Hde);
        [by left|apply prev_kept|done|].
      rewrite Ht. simpl. rewrite Hu. simpl. rewrite Hde. exists fd. by split; [|left].
    + exists FedState_default. split; [done|]. by right.
Qed.
Lemma found_settled (K : FedState → Prop) d :
  settled path (text_of K) [latest d] d → ∃ fd, found d = Ok (fd, None) ∧ K fd.
Proof.
  intros Hl. destruct (Hl (latest d)) as (i & Hi & t & Ht & Hu & fd & HK & Hde); [by left|].
  exists fd. split; [|done]. unfold found, run_value, load_state, read_to_string, sys, read_text. simpl.
  rewrite Hi. simpl. rewrite Ht. simpl. rewrite Hu. simpl. by rewrite Hde.
Qed.
Lemma power_cut_settled Y d d' : settled path Y (versions d) d → power_cut d d' → settled path Y [latest d'] d'.
Proof.
  intros Hp Hc. destruct Hc as [v inos sq Hv Hi]. intros u Hu. apply list_elem_of_singleton in Hu as ->. simpl.
  destruct (Hp v Hv) as (i & Hn & t & Ht & HY). exists i. split; [done|]. exists t. by split; [apply Hi|].
Qed.

(** *** A device that does not fail *)

Lemma keep_previous_tmp n d :
  latest (run_state device (keep_previous pid path n) d tt) !! tmp_name pid path n = latest d !! tmp_name pid path n.
Proof.
  assert (Hne : ∀ nm, is_kept path nm → nm ≠ tmp_name pid path n).
  { intros nm Hk ->. eapply tmp_not_kept; [apply tmp_name_tmp|done]. }
  pose proof (Hne _ (prev_tmp_kept pid path n)). pose proof (Hne _ (prev_kept path)).
  unfold run_state, keep_previous, hard_link, rename, remove_file, sys. simpl. unfold do_link.
  destruct (latest d !! path) as [i|]; [|done].
  destruct (latest d !! prev_tmp_name pid path n) eqn:Hp; [done|]. simpl.
  unfold do_rename. simpl. rewrite lookup_insert_eq.
  destruct (decide _); simpl; by repeat first [rewrite lookup_insert_ne by done | rewrite lookup_delete_ne by done].
Qed.
Lemma write_tmp_succeeds fd t tmp d :
  ser fd = Some t → runs device (write_tmp tmp fd) (λ r d _, r = Ok tt ∧ is_Some (latest d !! tmp)) d tt.
Proof.
  intros Hser. unfold write_tmp. apply runs_bind_ok. unfold runs, run_value, run_state, run_world. simpl.
  unfold do_create. destruct (latest d !! tmp) eqn:Hl; simpl; rewrite Hser; simpl; split; [done| |done|].
  - by rewrite Hl.
  - by rewrite lookup_insert_eq.
Qed.
Lemma save_succeeds fd t d : ser fd = Some t → run_value device (save pid path fd) d tt = Ok tt.
Proof.
  intros Hser. unfold save. set (Q := λ (r : result unit string) (_ : Disk) (_ : unit), r = Ok tt).
  enough (Hr : runs device (save pid path fd) Q d tt) by exact Hr. unfold save.
  apply runs_bind_ok. eapply (runs_mono device _ (λ r _ _, r = Ok tt)); [by destruct (parent_dir path)|].
  intros r d1 [] ->. apply runs_bind, runs_atomic. simpl. set (d2 := d1 <| save_seq ::= λ n, u64_add n 1 |>).
  set (n := save_seq d1). set (tmp := tmp_name pid path n).
  apply runs_bind. eapply (runs_mono device _ (λ r d _, r = Ok tt ∧ is_Some (latest d !! tmp))).
  { by eapply write_tmp_succeeds. }
  intros ? d3 [] [-> [i Hi]]. apply runs_bind.
  eapply (runs_mono device _ (λ _ d _, latest d !! tmp = Some i)).
  { unfold runs. cbv beta. by rewrite (keep_previous_tmp n d3 : _ !! tmp = _). }
  intros [] d4 [] Hi4. apply runs_bind_ok.
  eapply (runs_mono device _ (λ r _ _, r = Ok tt)).
  { unfold runs, run_value, rename, sys. simpl. unfold do_rename. fold tmp. rewrite Hi4. by destruct (decide _). }
  intros ? d5 [] ->. by destruct (parent_dir path).
Qed.

(** *** Several saves at once *)

Section together.
Context (T X : string → Prop) (HX : ∀ t, X t → T t) (jobs : list (Z * FedState)).
Context (Hnumbers : NoDup jobs.*1) (Hjobs : ∀ n fd, (n, fd) ∈ jobs → ∃ t, ser fd = Some t ∧ X t).
Definition mine_at (i : nat) (t : string) : Prop := ∃ n fd, jobs !! i = Some (n, fd) ∧ t = tmp_name pid path n.
Definition tasks : list (files unit) := map (λ '(n, fd), save_as pid path n fd ;! Ret tt) jobs.

Lemma mine_at_inj i j t : mine_at i t → mine_at j t → i = j.
Proof using Hnumbers.
  intros (n & fd & Hi & ->) (m & fd' & Hj & E). apply tmp_name_inj in E as <-.
  eapply (NoDup_lookup _ _ _ n Hnumbers); rewrite list_lookup_fmap; [by rewrite Hi|by rewrite Hj].
Qed.
Lemma together_ok d d' ps :
  sound path T d → pool_steps (d, tasks) (d', ps) →
  rtc (step_ok path T X (λ _, True)) d d'.
Proof using HX Hnumbers Hjobs.
  intros Hs Hp.
  destruct (pool_parallel (E:=FsCall) (λ i, step_ok path T X (λ t, ¬ mine_at i t)) (λ i, step_ok path T X (mine_at i))) with d tasks d' ps
    as [Hr _]; [intros i; apply step_ok_trans|intros i d0; apply step_ok_refl| |done| |].
  - intros i j d1 d2 Hne Hst Hs1. destruct (Hst Hs1) as [Hs2 Ht Ha Hl]. constructor; [done| |done|done].
    intros t Htmp Hm. apply Ht; [done|]. intros Hi. apply Hm. intros Hj. apply Hne. by eapply mine_at_inj.
  - intros i p Hi. unfold tasks in Hi. rewrite list_lookup_fmap in Hi.
    apply fmap_Some in Hi as ([n fd] & Hi & ->). split.
    + destruct (Hjobs n fd) as (t & Hser & HXt); [by eapply list_elem_of_lookup_2|].
      apply wp_bind. eapply wp_mono; [eapply (wp_weaken _ (step_ok path T X (λ t, t = tmp_name pid path n)))|].
      * intros d1 d2. apply step_ok_mono. intros ? ->. by exists n, fd.
      * eapply (save_as_wp pid path T X HX n fd t); [|done|done|done].
        intros d1 d2. apply step_ok_mono. intros t' Hm ->. apply Hm. by exists n, fd.
      * done.
    + apply spawnless_bind; [apply save_as_spawnless|done].
  - eapply rtc_subrel; [|exact Hr]. intros d1 d2 (i & _ & Hst). eapply step_ok_mono; [|exact Hst]. done.
Qed.
Lemma steps_leave d d' :
  rtc (step_ok path T X (λ _, True)) d d' → sound path T d →
  sound path T d' ∧ ∀ Y : string → Prop, (∀ t, X t → Y t) → settled path Y (versions d) d → settled path Y (versions d') d'.
Proof.
  induction 1 as [d|d d1 d2 Hst _ IH]; intros Hs; [done|]. destruct (Hst Hs) as [Hs1 _ Ha _].
  destruct (IH Hs1) as [Hs2 H2]. split; [done|]. auto.
Qed.
End together.

(** C5: However many saves run at once, whichever of their system calls fail
    and whenever the power goes: the next start finds, with no recovery, a
    state that one of them was saving or that was on the disk before (the
    empty one only if some version of the directory had no state file), and
    a disk on which the same holds of the saves to come. *)
Theorem saves_survive_power_cut (K : FedState → Prop) (jobs : list (Z * FedState)) d ps d1 d2 :
  sound path (text_of K) d → NoDup jobs.*1 →
  (∀ n fd, (n, fd) ∈ jobs → K fd ∧ ∃ t, writes_as fd t) →
  pool_steps (d, tasks jobs) (d1, ps) → power_cut d1 d2 →
  sound path (text_of K) d2 ∧
  ∃ fd, found d2 = Ok (fd, None) ∧
    (K fd ∨ fd = FedState_default ∧ ¬ ∀ v, v ∈ versions d → is_Some (v !! path)).
Proof.
  intros Hs Hn Hj Hp Hc.
  pose proof (together_ok (text_of K) (text_of K) (λ t Ht, Ht) jobs Hn) as Ht.
  destruct (steps_leave (text_of K) (text_of K) d d1) as [Hs1 Ha]; [eapply Ht; [|done|done]|done|].
  { intros n fd Hin. destruct (Hj n fd Hin) as (HK & t & Hser & Hu & Hde). exists t. split; [done|]. split; [done|]. by exists fd. }
  pose proof (power_cut_sound path _ _ _ Hs1 Hc) as Hs2. split; [done|].
  destruct (found_sound K d2 Hs2) as (fd & Hf & [HK|[-> Hnone]]); [by exists fd; eauto|].
  exists FedState_default. split; [done|]. right. split; [done|]. intros Hall.
  destruct (power_cut_settled (text_of K) d1 d2) with (latest d2) as (i & Hi & _); [|done|by left|congruence].
  apply (Ha (text_of K) (λ t Ht, Ht)). intros v Hv. destruct (Hall v Hv) as [i Hi]. exists i. split; [done|].
  eapply (sound_kept path _ d Hs); [done|apply path_kept|done].
Qed.

(** C26: What a save returned [Ok] for is what every later start finds, the
    power cut included, when the state file is in a directory it can sync;
    and on a device where no call fails it returns [Ok]. *)
Theorem saved_is_found (K : FedState → Prop) fd t d :
  sound path (text_of K) d → K fd → writes_as fd t → parent_dir path ≠ None →
  alone (save pid path fd) (λ r d1, r = Ok tt →
    found d1 = Ok (fd, None) ∧ ∀ d2, power_cut d1 d2 → found d2 = Ok (fd, None)) d ∧
  run_value device (save pid path fd) d tt = Ok tt.
Proof.
  intros Hs HK Hw Hdir. pose proof Hw as (Hser & Hu & Hde). split; [|by eapply save_succeeds].
  assert (Hsettled : ∀ d1, settled path (λ t', t' = t) [latest d1] d1 → found d1 = Ok (fd, None)).
  { intros d1 Hl. destruct (found_settled (λ fd', fd' = fd) d1) as (fd' & Hf & ->); [|done].
    intros v Hv. destruct (Hl v Hv) as (i & Hi & x & Hx & ->). exists i. split; [done|]. exists t.
    split; [done|]. split; [done|]. by exists fd. }
  unfold save. destruct (parent_dir path) as [dir|] eqn:Hp; [|done]. clear Hdir.
  set (d1 := d <| save_seq ::= λ n, u64_add n 1 |>).
  apply wp_bind. intros [e|]; [by intros ?|]. intros d0 <-. split; [done|].
  apply wp_bind. intros d0 <-. split; [done|].
  change (alone (save_as pid path (save_seq d) fd) (λ r d1, r = Ok tt →
    found d1 = Ok (fd, None) ∧ ∀ d2, power_cut d1 d2 → found d2 = Ok (fd, None)) d1).
  assert (Hs1 : sound path (text_of K) d1) by (destruct Hs; by constructor).
  assert (HX : ∀ t', t' = t → text_of K t') by (intros ? ->; split; [done|]; by exists fd).
  eapply wp_mono.
  { eapply (wp_weaken eq (step_ok path (text_of K) (λ t', t' = t) (λ t, t = tmp_name pid path (save_seq d)))); [done|].
    eapply (save_as_wp pid path _ _ HX); [intros ?? <-; apply step_ok_refl|exact Hser|done|done]. }
  intros r d2 [_ Hr] ->. specialize (Hr eq_refl). rewrite Hp in Hr. specialize (Hr ltac:(done)). split.
  - apply Hsettled. intros v Hv. apply Hr. apply list_elem_of_singleton in Hv as ->. by left.
  - intros d3 Hc. apply Hsettled. by eapply power_cut_settled.
Qed.

(** *** A file that does not parse *)

Definition bad_name : string := sibling path (".bad-" +:+ pretty secs).
Lemma bad_ne_path : bad_name ≠ path.
Proof. intros Hb. by apply append_nil_inv in Hb. Qed.
Lemma bad_ne_prev : bad_name ≠ prev_name path.
Proof. intros Hb. by apply (inj (String.append path)) in Hb. Qed.

Definition from_previous (d : Disk) (r : FedState * string) : Prop :=
  r.2 = "previous" ∧ (∃ t, read_text (prev_name path) d = Some t ∧ de t = Ok r.1) ∨
  r.2 = "empty" ∧ r.1 = FedState_default.
Lemma load_previous_run (env : ∀ R, FsCall R → unit → R * unit) d :
  ∃ r, run env (load_previous path) d tt = (r, d, tt, []) ∧ from_previous d r.
Proof.
  unfold load_previous, read_to_string, from_previous. cbn -[String.append read_text].
  destruct (env _ (Fault _) tt) as [[e|] []]; cbn -[String.append read_text]; [eexists; split; [done|by right]|].
  destruct (read_text (prev_name path) d) as [t|]; [|eexists; split; [done|by right]].
  destruct (is_utf8 t); cbn -[String.append read_text]; [|eexists; split; [done|by right]].
  destruct (de t) as [fd|e] eqn:Hd; eexists; (split; [done|]); [left|by right]. split; [done|]. by exists t.
Qed.
Lemma set_aside d i f :
  latest d !! path = Some i → inodes d !! i = Some f → latest d !! bad_name ≠ Some i →
  (do_rename path bad_name d).2 = Ok tt ∧
  let d' := (do_rename path bad_name d).1 in
  read_text bad_name d' = Some (data f) ∧ read_text path d' = None ∧
  read_text (prev_name path) d' = read_text (prev_name path) d.
Proof.
  intros Hi Hf Hbad. unfold do_rename. rewrite Hi. destruct (decide _) as [|_]; [done|]. split; [done|].
  unfold read_text. simpl. split; [|split].
  - rewrite lookup_insert_eq. simpl. by rewrite Hf.
  - rewrite lookup_insert_ne by apply bad_ne_path. by rewrite lookup_delete_eq.
  - rewrite lookup_insert_ne, lookup_delete_ne; [done|apply not_eq_sym, prev_ne_path|apply bad_ne_prev].
Qed.

(** C27: A state file that is text but does not parse never stops the start,
    whatever else fails: it is set aside under its own name with its content
    (or, if that fails, left where it is), the start is from the previous
    copy when that parses and else empty, and the record says which. A state
    file that is not UTF-8, though, as one cut short in a character or
    overwritten is, does stop it: the read fails, and nothing is set aside. *)
Theorem bad_state_file_set_aside (env : ∀ R, FsCall R → unit → R * unit) d i f :
  (env _ (Fault ("read " +:+ path)) tt).1 = None → (env _ UnixSecs tt).1 = secs →
  latest d !! path = Some i → inodes d !! i = Some f → latest d !! bad_name ≠ Some i →
  (is_utf8 (data f) = false →
     run env (load_state path) d tt = (Err "stream did not contain valid UTF-8", d, tt, []))
  ∧ ∀ e, is_utf8 (data f) = true → de (data f) = Err e →
    ∃ fd r d', run env (load_state path) d tt = (Ok (fd, Some r), d', tt, []) ∧ rec_error r = e ∧
    match rec_kept_as r with
    | Some b => b = bad_name ∧ read_text b d' = Some (data f) ∧ read_text path d' = None
    | None => d' = d
    end ∧
    (started_from r = "previous" ∧ (∃ t, read_text (prev_name path) d = Some t ∧ de t = Ok fd) ∨
     started_from r = "empty" ∧ fd = FedState_default).
Proof.
  intros Hread Hsecs Hi Hf Hbad.
  assert (E1 : env _ (Fault ("read " +:+ path)) tt = (None, tt)).
  { destruct (env _ _ _) as [? []]. simpl in Hread. by subst. }
  assert (E2 : env _ UnixSecs tt = (secs, tt)).
  { destruct (env _ UnixSecs _) as [? []]. simpl in Hsecs. by subst. }
  assert (Ht : read_text path d = Some (data f)) by (unfold read_text; rewrite Hi; simpl; by rewrite Hf).
  unfold load_state. unfold read_to_string at 1. cbn -[String.append do_rename read_text load_previous].
  rewrite E1. cbn -[String.append do_rename read_text load_previous]. rewrite Ht.
  split; [by intros ->|]. intros e -> Hde.
  cbn -[String.append do_rename read_text load_previous]. rewrite Hde.
  cbn -[String.append do_rename read_text load_previous]. rewrite E2. fold bad_name.
  destruct (env _ (Fault ("rename " +:+ path)) tt) as [[e3|] []];
    cbn -[String.append do_rename read_text load_previous].
  - destruct (load_previous_run env d) as (pr & Hrun & Hpr). rewrite run_bind, Hrun.
    cbn -[String.append]. destruct (env _ FsNow tt) as [nw []]. by repeat esplit.
  - destruct (set_aside d i f Hi Hf Hbad) as (Hok & Hb & Hn & Hp).
    destruct (do_rename path bad_name d) as [d' r]. simpl in Hok, Hb, Hn, Hp. subst r.
    cbn -[String.append do_rename read_text load_previous].
    destruct (load_previous_run env d') as (pr & Hrun & Hpr). rewrite run_bind, Hrun.
    cbn -[String.append]. destruct (env _ FsNow tt) as [nw []]. eexists _, _, _. split; [done|].
    unfold from_previous in Hpr. rewrite Hp in Hpr. done.
Qed.
End next_start.

(** ** Examples *)

Section examples.
(** States told apart by their revision, written as its digits. *)
Definition at_revision (r : Z) : FedState := FedState_default <| revision := r |>.
Definition digits : Serde FedState := {|
  ser fd := Some (pretty (revision fd));
  de t := if t == "1" then Ok (at_revision 1) else if t == "2" then Ok (at_revision 2)
          else Err "EOF while parsing a value at line 1 column 0" |}.
#[local] Existing Instance digits.
Let path := "/var/lib/stormstorage/state.json".
(** Revision 1 on the disk. *)
Definition disk1 (t : string) : Disk := MkDisk {[0%nat := MkIno t true]} 1 {[path := 0%nat]} [] 0.
Let any (fd : FedState) : Prop := fd = at_revision 1 ∨ fd = at_revision 2.

Lemma disk1_lookup t nm i : latest (disk1 t) !! nm = Some i → nm = path ∧ i = 0.
Proof.
  intros Hn. change (({[path := 0%nat]} : Dir) !! nm = Some i) in Hn. by apply lookup_singleton_Some in Hn as [<- <-].
Qed.
Lemma disk1_sound : sound path (text_of any) (disk1 "1").
Proof.
  constructor.
  - intros v nm i Hv _ Hn. apply list_elem_of_singleton in Hv as ->. apply disk1_lookup in Hn as [_ ->].
    exists "1". split; [done|]. split; [done|]. exists (at_revision 1). split; [by left|done].
  - intros v nm i Hv Hn. apply list_elem_of_singleton in Hv as ->. apply disk1_lookup in Hn as [_ ->]. simpl. lia.
  - split; [|done]. apply Forall_singleton. intros t nm i Ht H1 _. apply disk1_lookup in H1 as [-> _].
    destruct (tmp_not_kept path path Ht (path_kept path)).
Qed.

(** Two saves of revision 2 at once, the first as far as its rename, the
    second in the middle of its write; then the power goes. *)
Definition two_saves : list (Z * FedState) := [(0%Z, at_revision 2); (1%Z, at_revision 2)].
Definition midway := sched (device 0 0) (repeat 1 3 ++ repeat 0 14) (disk1 "1", tt, tasks 7 path two_saves).
Definition after_cut : Disk :=
  let d := midway.1.1 in MkDisk (<[1%nat := MkIno "garbage" false]> (inodes d)) (next_ino d) (latest d) [] 0.
Lemma cut_midway : power_cut midway.1.1 after_cut.
Proof.
  unfold after_cut. constructor; [by left|]. intros i f Hi Hs. rewrite lookup_insert_ne; [done|].
  intros <-. vm_compute in Hi. by injection Hi as <-.
Qed.
Lemma saves_survive_power_cut_witness :
  ∃ fd, found path 0 0 after_cut = Ok (fd, None) ∧
    (any fd ∨ fd = FedState_default ∧ ¬ ∀ v, v ∈ versions (disk1 "1") → is_Some (v !! path)).
Proof.
  refine (proj2 (saves_survive_power_cut 7 path 0 0 any two_saves (disk1 "1") midway.2 midway.1.1 after_cut _ _ _ _ _)).
  - apply disk1_sound.
  - apply (bool_decide_unpack _). by vm_compute.
  - intros n fd Hin. assert (fd = at_revision 2) as ->.
    { apply elem_of_cons in Hin as [[= _ ->]|Hin]; [done|]. by apply list_elem_of_singleton in Hin as [= _ ->]. }
    split; [by right|]. exists "2". done.
  - apply (sched_sound (device 0 0)).
  - apply cut_midway.
Defined.
Example cut_finds_the_new_state : found path 0 0 after_cut = Ok (at_revision 2, None).
Proof. by vm_compute. Qed.

Lemma saved_is_found_witness :
  alone (save 7 path (at_revision 2)) (λ r d1, r = Ok tt →
    found path 0 0 d1 = Ok (at_revision 2, None) ∧
    ∀ d2, power_cut d1 d2 → found path 0 0 d2 = Ok (at_revision 2, None)) (disk1 "1") ∧
  run_value (device 0 0) (save 7 path (at_revision 2)) (disk1 "1") tt = Ok tt.
Proof.
  apply (saved_is_found 7 path 0 0 any (at_revision 2) "2");
    [apply disk1_sound|by right|done|by apply (bool_decide_unpack _); vm_compute].
Defined.

(** A truncated file, with no previous copy; one overwritten with a byte
    that starts no character. *)
Lemma bad_state_file_set_aside_witness :
  let junk := of_codes [255]%nat in
  run (device 0 5) (load_state path) (disk1 junk) tt = (Err "stream did not contain valid UTF-8", disk1 junk, tt, []) ∧
  ∃ fd r d', run (device 0 5) (load_state path) (disk1 "{") tt = (Ok (fd, Some r), d', tt, []) ∧
    rec_error r = "EOF while parsing a value at line 1 column 0" ∧
    match rec_kept_as r with
    | Some b => b = bad_name path 5 ∧ read_text b d' = Some "{" ∧ read_text path d' = None
    | None => d' = disk1 "{"
    end ∧
    (started_from r = "previous" ∧ (∃ t, read_text (prev_name path) (disk1 "{") = Some t ∧ de t = Ok fd) ∨
     started_from r = "empty" ∧ fd = FedState_default).
Proof.
  intros junk. split.
  - refine (proj1 (bad_state_file_set_aside path 5 (device 0 5) (disk1 junk) 0 (MkIno junk true) _ _ _ _ _) _);
      [done|done|by vm_compute|done|by vm_compute|by vm_compute].
  - refine (proj2 (bad_state_file_set_aside path 5 (device 0 5) (disk1 "{") 0 (MkIno "{" true) _ _ _ _ _) _ _ _);
      [done|done|by vm_compute|done|by vm_compute|by vm_compute|done].
Defined.

(** Two saves that overlap leave a link behind: the second finds [.prev]
    to be the file it links, and renaming one name of a file over another
    does nothing, so its [.prev.tmp] name stays when both have finished. *)
Example overlapping_saves_leave_a_link :
  let d := (sched (device 0 0) (repeat 0 10 ++ repeat 1 10 ++ repeat 0 8 ++ repeat 1 8)
              (disk1 "1", tt, tasks 7 path two_saves)) in
  latest d.1.1 !! prev_tmp_name 7 path 1 = Some 0 ∧ latest d.1.1 !! prev_name path = Some 0 ∧
  found path 0 0 d.1.1 = Ok (at_revision 2, None) ∧ map (λ p, match p with Ret _ => true | _ => false end) d.2 = [true; true].
Proof. by vm_compute. Qed.
End examples.
