(* ===== verification/Components.v ===== *)
(** * The components feed (src/components.rs)

    What consoles render and drive: one [ComponentSummary] per node, pool,
    slab, tier, volume, engine volume and live migration, with relations that
    name other components by id. The types of the stormview crate are its
    interface: a summary is the record the code fills in (its [link] is
    always absent), a metric or a relation is made by the crate's
    constructors ([Stormview]); floats in a text are [FloatText]. Shown: the
    ids of a feed are distinct, every relation of the feed names a component
    that is in it, a policy pool and its volumes name each other, and what
    health the feed gives a volume and the whole. *)

From S2P Require Import Prelude F64 Config Model Inventory Kube Sync App.
From stdpp Require Import options.

Local Open Scope string_scope.

(** ** The interface of stormview *)

Inductive FeedHealth := HOk | HWarn | HError | HIdle | HUnknown.
#[export] Instance FeedHealth_eq_dec : EqDecision FeedHealth.
Proof. solve_decision. Defined.

Class Stormview := {
  Metric : Type;
  Relation : Type;
  metric : string → string → Metric;
  tone : string → Metric → Metric;
  belongs_to : string → string → Relation;
  has_many : string → list string → Relation;
  format_bytes : Z → string;
}.
(** The ids a relation names. *)
Class StormviewLaws `{Stormview} := {
  targets : Relation → list string;
  targets_belongs_to k t : targets (belongs_to k t) = [t];
  targets_has_many k ts : targets (has_many k ts) = ts;
}.

(** [{:.0}], [{:.1}] and [{:.2}] of a float. *)
Class FloatText := { fixed : nat → f64 → string }.

Record Action := MkAction {
  act_id : string; act_label : string; act_method : string; act_path : string; act_enabled : bool; act_danger : bool
}.
Record ComponentSummary `{Stormview} := MkComponentSummary {
  c_id : string;
  c_kind : string;
  c_label : string;
  c_health : FeedHealth;
  c_detail : string;
  c_metrics : list Metric;
  c_actions : list Action;
  c_relations : list Relation;
}.

(** ** Ids *)

Definition slab_pool_id (node slab : string) : string := "pool:" +:+ (node +:+ ("/" +:+ slab)).
Definition node_volume_id (node vol : string) : string := "nvol:" +:+ (node +:+ ("/" +:+ vol)).
(** [format!("node:{name}")] and its kin. *)
Definition node_id (n : string) : string := "node:" +:+ n.
Definition pool_id (p : string) : string := "pool:" +:+ p.
Definition tier_id (t : string) : string := "tier:" +:+ t.
Definition volume_id (v : string) : string := "volume:" +:+ v.
Definition vmmig_id (m : string) : string := "vmmig:" +:+ m.

(** [id.get(..8).unwrap_or(id)]: whole when it is shorter or the cut is
    inside a character. *)
Definition continuation (c : Ascii.ascii) : bool :=
  let n := Ascii.nat_of_ascii c in (128 <=? n)%nat && (n <? 192)%nat.
Definition short (id : string) : string :=
  if (String.length id <? 8)%nat || is_some_and continuation (String.get 8 id) then id
  else String.substring 0 8 id.

Section feed.
Context `{Stormview} `{FloatText}.
Definition sep : string := " · ".
Definition count (n : nat) : string := pretty (Z.of_nat n).

(** ** Components *)

Definition slab_component (node : Node) (inv : NodeInventory) (slab : Slab) : ComponentSummary :=
  let nm := nc_name (config node) in
  let vols := map (λ v, node_volume_id nm (ev_id (pv_volume v))) (volumes_on inv (slab_id slab)) in
  let free_ratio := if (slab_total_bytes slab =? 0)%Z then f0
                    else fdiv (of_u64 (slab_free_bytes slab)) (of_u64 (slab_total_bytes slab)) in
  {| c_id := slab_pool_id nm (slab_id slab);
     c_kind := "pool";
     c_label := nm +:+ " " +:+ slab_role slab +:+ " " +:+ slab_tier slab +:+ " (" +:+ short (slab_id slab) +:+ ")";
     c_health := if negb (healthy (status node)) then HError
                 else if flt free_ratio (fdiv (of_u64 1) (of_u64 10)) then HWarn else HOk;
     c_detail := format_bytes (slab_free_bytes slab) +:+ " of " +:+ format_bytes (slab_total_bytes slab) +:+ " free"
       +:+ sep +:+ format_bytes (allocated_bytes slab) +:+ " used" +:+ sep +:+ count (length vols) +:+ " volumes"
       +:+ sep +:+ "tier " +:+ slab_tier slab +:+ sep +:+ "role " +:+ slab_role slab
       +:+ sep +:+ match slab_drive slab with Some d => "drive " +:+ drive_describe d | None => slab_domain slab end;
     c_metrics := [metric "free" (format_bytes (slab_free_bytes slab));
       tone "muted" (metric "total" (format_bytes (slab_total_bytes slab)));
       metric "used" (format_bytes (allocated_bytes slab));
       tone "accent" (metric "vols" (count (length vols)));
       metric "tier" (slab_tier slab);
       metric "role" (slab_role slab);
       tone "muted" (metric "drive" (map_or "?" drive_describe (slab_drive slab)))];
     c_actions := [];
     c_relations := [belongs_to "node" (node_id nm); belongs_to "tier" (tier_id (slab_tier slab));
                     has_many "volumes" vols] |}.

Definition tier_component (t : TierRollup) : ComponentSummary :=
  {| c_id := tier_id (tr_tier t);
     c_kind := "tier";
     c_label := "tier " +:+ tr_tier t;
     c_health := HOk;
     c_detail := format_bytes (tr_free_bytes t) +:+ " of " +:+ format_bytes (tr_total_bytes t) +:+ " free"
       +:+ sep +:+ count (length (tr_slabs t)) +:+ " slab(s) on " +:+ count (length (tr_nodes t)) +:+ " node(s)"
       +:+ sep +:+ pretty (tr_volumes t) +:+ " volumes";
     c_metrics := [metric "free" (format_bytes (tr_free_bytes t));
       tone "muted" (metric "total" (format_bytes (tr_total_bytes t)));
       metric "used" (format_bytes (tr_allocated_bytes t));
       tone "accent" (metric "vols" (pretty (tr_volumes t)))];
     c_actions := [];
     c_relations := [has_many "pools" (map pool_id (tr_slabs t))] |}.

(** [!p.rebuild.is_empty() && p.rebuild != "none"]. *)
Definition rebuilding (p : Placement) : bool := (pl_rebuild p != "none") && (pl_rebuild p != "").
Definition node_volume_health (v : EngineVolume) : FeedHealth :=
  let h := if ev_health v == "healthy" then HOk
           else if ev_health v == "degraded" then HWarn
           else if ev_health v == "failed" then HError
           else HUnknown in
  if ((h == HOk) || (h == HUnknown))
     && is_some_and (λ p, (0 <? bad_slabs p)%nat || (0 <? partners_down p)%nat || rebuilding p) (ev_placement v)
  then HWarn else h.
Definition claim_text (pv : VolumeClaim) : string :=
  match vc_claim pv with
  | Some c => if cr_bound c then claim_describe pv
              else if is_none (cr_phase c) then claim_describe pv +:+ " (missing)"
              else claim_describe pv +:+ " (not bound)"
  | None => claim_describe pv
  end.
Definition claim_metrics (pv : VolumeClaim) : list Metric :=
  let tn := if complete pv then "ok" else "warn" in
  [tone tn (metric "pv" (vc_pv pv +:+ " " +:+ vc_phase pv)); tone tn (metric "claim" (claim_text pv))]
  ++ match volume_kind pv with
     | Some k => [tone "muted" (metric "holds" (match vc_component pv with Some c => k +:+ " of " +:+ c | None => k end))]
     | None => []
     end.
Definition node_volume_metrics (v : PlacedVolume) : list Metric :=
  let ev := pv_volume v in
  let drives := map_or [] (λ p, map (λ d, drive_describe (dp_drive d) +:+ "@" +:+ dp_node d) (pl_drives p)) (ev_placement ev) in
  let partners := map_or [] (λ p, map (λ m, drive_describe (am_drive m) +:+ "@" +:+ am_node m +:+ " " +:+ am_state m)
                                      (concat (map ap_members (pl_arrays p)))) (ev_placement ev) in
  [metric "size" (format_bytes (virtual_size_bytes ev)); metric "used" (format_bytes (ev_allocated_bytes ev));
   metric "role" (ev_role ev)]
  ++ (if sealed ev then [tone "muted" (metric "sealed" "yes")] else [])
  ++ match ev_kind ev with Some k => [tone "muted" (metric "kind" k)] | None => [] end
  ++ match in_use ev with
     | Some true => [tone "accent" (metric "in use" (join "+" (map transport (attachments ev))))]
     | Some false => [tone "muted" (metric "in use" "no")]
     | None => []
     end
  ++ match drives with [] => [] | _ => [metric "drives" (join " " drives)] end
  ++ match partners with
     | [] => []
     | _ => [tone (if (0 <? map_or 0 partners_down (ev_placement ev))%nat then "warn" else "ok")
                  (metric "partners" (join " " partners))]
     end
  ++ match opt_filter rebuilding (ev_placement ev) with
     | Some p => [tone "warn" (metric "rebuild" (pl_rebuild p))]
     | None => []
     end
  ++ match pv_pv v with Some pv => claim_metrics pv | None => [] end.
Definition node_volume_component (node : string) (v : PlacedVolume) : ComponentSummary :=
  let ev := pv_volume v in
  let consumer_ := match consumer ev with
                   | Some o => owner_describe o
                   | None => if sealed ev then "sealed" else "unowned"
                   end in
  let placed := match placed_by v with
                | Unknown => "slab unknown"
                | _ => "on " +:+ join "+" (map short (pv_slabs v))
                end in
  {| c_id := node_volume_id node (ev_id ev);
     c_kind := "volume";
     c_label := ev_name ev;
     c_health := node_volume_health ev;
     c_detail := format_bytes (virtual_size_bytes ev) +:+ sep +:+ node +:+ sep
       +:+ (if redundancy ev == "" then "none" else redundancy ev) +:+ sep +:+ placed +:+ sep +:+ consumer_;
     c_metrics := node_volume_metrics v;
     c_actions := [];
     c_relations := belongs_to "node" (node_id node)
       :: match pv_slabs v with [] => [] | l => [has_many "pools" (map (slab_pool_id node) l)] end |}.

Definition node_component (n : Node) (inv : option NodeInventory) : ComponentSummary :=
  let nm := nc_name (config n) in
  let st := status n in
  {| c_id := node_id nm;
     c_kind := "node";
     c_label := nm;
     c_health := if healthy st then HOk else HError;
     c_detail := join sep ([nc_engine_url (config n)]
       ++ match nc_tier (config n) with Some t => ["tier " +:+ t] | None => [] end
       ++ [if healthy st then "reachable" else "unreachable"]);
     c_metrics := [metric "free" (format_bytes (free_bytes st)); tone "muted" (metric "total" (format_bytes (total_bytes st)));
                   metric "vols" (pretty (ns_volumes st))]
       ++ match io st with
          | Some l => [tone "muted" (metric "io" (fixed 0 (iops l) +:+ " iops, " +:+ fixed 2 (Model.busy l) +:+ " busy"))]
          | None => []
          end;
     c_actions := [];
     c_relations := [belongs_to "system" "system";
       has_many "pools" (map_or [] (λ i, map (λ s, slab_pool_id nm (slab_id s)) (inv_slabs i)) inv)] |}.

(** *** A distributed volume *)

Definition lost_legs (v : DistVolume) : list string :=
  map leg_node (List.filter (λ l, leg_state l == Lost) (legs v)).
Definition head_lost (v : DistVolume) : bool :=
  map_or false (λ h, existsb (λ n, n == h) (lost_legs v)) (head v).
Definition volume_health (v : DistVolume) : FeedHealth :=
  if existsb (λ l, leg_state l == LegFailed) (legs v) || head_lost v then HError
  else if negb (match lost_legs v with [] => true | _ => false end) || is_some (replacing v) then HWarn
  else HOk.
Definition assembly_metrics (v : DistVolume) : list Metric :=
  match assembly v with
  | Assembled => [tone "ok" (metric "assembly" "raid1")]
  | PendingEngineSupport => [tone "warn" (metric "assembly" "pending")]
  | Degraded => [tone "warn" (metric "assembly" "degraded")]
  | SingleLeg => []
  | Clone => [tone "accent" (metric "clone of" (map_or "?" clone_parent (clone_of v)))]
  end.
Definition export_metrics (v : DistVolume) : list Metric :=
  match ex_state (export v) with
  | Published => [tone (if coordinates_changed (export v) then "warn" else "ok") (metric "export" "published")]
  | ExFailed => if gone (export v) then [tone "error" (metric "export" "gone")] else [tone "error" (metric "export" "failed")]
  | Revoking => [tone "warn" (metric "export" "revoking")]
  | ExNone => []
  end.
Definition resync_of (r : Replica) : option (string * f32) :=
  match rp_sync r with Resyncing pct _ => Some (rp_node r, pct) | _ => None end.
Definition sync_metrics (v : DistVolume) (reading : option ArrayReading) : list Metric :=
  if (length (legs v) <=? 1)%nat then [] else
  let reps := Sync.replicas v reading in
  let in_sync := length (List.filter is_in_sync reps) in
  [tone (if (Model.replicas v <=? Z.of_nat in_sync)%Z then "ok" else "warn")
        (metric "in sync" (count in_sync +:+ "/" +:+ count (length reps)))]
  ++ (if is_some_and (λ r, ar_source r == SrcSuperblock) reading
      then [tone "warn" (metric "sync from" "leg superblocks")] else [])
  ++ match omap resync_of reps with
     | (node, pct) :: _ => [tone "warn" (metric "resync" (node +:+ " " +:+ fixed 1 pct +:+ "%"))]
     | [] => []
     end.
Definition volume_metrics (v : DistVolume) (reading : option ArrayReading) : list Metric :=
  [metric "size" (format_bytes (size_bytes v)); tone "accent" (metric "legs" (count (length (legs v))))]
  ++ assembly_metrics v
  ++ export_metrics v
  ++ match migration v with
     | Some m => [tone (if (mig_state m == WaitingHandover) || is_some (mig_message m) then "warn" else "accent")
                       (metric "migrating" ("→ " +:+ to_pool m))]
     | None => []
     end
  ++ (if per_host (export v)
      then [tone (if existsb (λ h, is_some (hs_message h)) (hosts (export v)) then "error" else "ok")
                 (metric "hosts" (count (length (hosts (export v)))))]
      else [])
  ++ match replacing v with
     | Some r => [tone "warn" (metric "rebuilding" (rep_from r +:+ " → " +:+ leg_node (rep_leg r)))]
     | None => []
     end
  ++ sync_metrics v reading
  ++ (if (1 <? epoch v)%Z || fenced v
      then [tone (if fenced v then "warn" else "accent")
                 (metric "epoch" (pretty (epoch v) +:+ (if fenced v then " fenced" else "")))]
      else []).
Definition export_detail (v : DistVolume) : string :=
  match ex_state (export v), ex_coordinates (export v) with
  | Published, Some c => " · served at " +:+ drive_uri c
  | ExFailed, _ => " · export failed: " +:+ unwrap_or "" (ex_message (export v))
  | Revoking, _ => " · delete unfinished (retry it): " +:+ unwrap_or "" (ex_message (export v))
  | _, _ => ""
  end.
Definition volume_detail (v : DistVolume) : string :=
  format_bytes (size_bytes v) +:+ sep +:+ count (length (legs v)) +:+ " leg(s) at rung " +:+ debug_str (rung v)
  +:+ map_or "" (λ p, " · pool " +:+ p) (vol_pool v)
  +:+ match lost_legs v with
      | [] => ""
      | l => if head_lost v then " · head " +:+ join ", " l +:+ " lost (promote a surviving leg's node)"
             else " · lost: " +:+ join ", " l
      end
  +:+ map_or "" (λ r, " · re-leg " +:+ rep_from r +:+ " → " +:+ leg_node (rep_leg r) +:+ " (" +:+ rep_reason r +:+ ")")
        (replacing v)
  +:+ export_detail v.
Definition volume_actions (v : DistVolume) : list Action :=
  [{| act_id := "export";
      act_label := match ex_state (export v) with Published => "Republish" | _ => "Publish" end;
      act_method := "POST"; act_path := "/api/v1/volumes/" +:+ name v +:+ "/export";
      act_enabled := assembly v != PendingEngineSupport; act_danger := false |};
   {| act_id := "assemble"; act_label := "Assemble"; act_method := "POST";
      act_path := "/api/v1/volumes/" +:+ name v +:+ "/assemble";
      act_enabled := (assembly v == PendingEngineSupport) && (2 <=? length (legs v))%nat; act_danger := false |};
   {| act_id := "delete"; act_label := "Delete"; act_method := "DELETE"; act_path := "/api/v1/volumes/" +:+ name v;
      act_enabled := true; act_danger := true |}].
Definition volume_component (v : DistVolume) (reading : option ArrayReading) : ComponentSummary :=
  {| c_id := volume_id (name v);
     c_kind := "volume";
     c_label := name v;
     c_health := volume_health v;
     c_detail := volume_detail v;
     c_metrics := volume_metrics v reading;
     c_actions := volume_actions v;
     c_relations := has_many "legs" (map (λ l, node_id (leg_node l)) (all_legs v))
       :: match vol_pool v with Some p => [belongs_to "pool" (pool_id p)] | None => [] end |}.

(** *** A live migration *)

Definition vm_state_text (s : VmMigrationState) : string :=
  match s with
  | Starting => "starting" | Copying => "copying" | Synced => "synced" | CutOver => "cut_over"
  | Completed => "completed" | Aborted => "aborted" | VmFailed => "failed"
  end.
Definition vm_migration_component (m : VmMigration) : ComponentSummary :=
  {| c_id := vmmig_id (vm_id m);
     c_kind := "migration";
     c_label := source_name m +:+ " → " +:+ vm_target_node m;
     c_health := match vm_state m with
                 | VmFailed => HError
                 | Starting | Copying => HWarn
                 | _ => if aborting m then HWarn else HOk
                 end;
     c_detail := vm_source_node m +:+ " " +:+ source_name m +:+ " → " +:+ vm_target_node m +:+ " " +:+ target_name m
       +:+ map_or "" (λ x, " · " +:+ x) (vm_message m);
     c_metrics := [tone "accent" (metric "state" (vm_state_text (vm_state m) +:+ (if aborting m then " (aborting)" else "")));
                   metric "size" (format_bytes (vm_size_bytes m))]
       ++ match vm_state m with
          | Copying | Synced => [metric "to copy" (format_bytes (bytes_remaining m))]
          | _ => []
          end;
     c_actions := [];
     c_relations := [has_many "volumes" (node_volume_id (vm_source_node m) (source_volume_id_ m)
         :: map (node_volume_id (vm_target_node m)) (option_list (target_local_id m)));
       has_many "nodes" [node_id (vm_source_node m); node_id (vm_target_node m)]] |}.

(** *** Policy pools and the whole *)

Definition healthy_nodes (l : list Node) : list Node := List.filter (λ n, healthy (status n)) l.
Definition sum_of (f : Node → Z) (l : list Node) : Z := foldl u64_add 0%Z (map f l).
Definition pool_members (p : PoolConfig) (fd : FedState) : list Node :=
  List.filter (λ n, matches (pool_selector p) (config n)) (bt_values (nodes fd)).
Definition pool_volumes (p : PoolConfig) (fd : FedState) : list string :=
  map (λ v, volume_id (name v)) (List.filter (λ v, vol_pool v == Some (pool_name p)) (bt_values (volumes fd))).
(** Warn when some of [total] answer and some do not, error when none. *)
Definition rollup_health (idle : FeedHealth) (total up : nat) : FeedHealth :=
  if (total =? 0)%nat then idle else if (up =? 0)%nat then HError
  else if (up <? total)%nat then HWarn else HOk.
Definition pool_component (fd : FedState) (p : PoolConfig) : ComponentSummary :=
  let members := pool_members p fd in
  let up := length (healthy_nodes members) in
  let free := sum_of (λ n, free_bytes (status n)) (healthy_nodes members) in
  let vols := pool_volumes p fd in
  {| c_id := pool_id (pool_name p);
     c_kind := "pool";
     c_label := pool_name p;
     c_health := rollup_health HError (length members) up;
     c_detail := count up +:+ "/" +:+ count (length members) +:+ " nodes" +:+ sep +:+ "replicas " +:+ pretty (pool_replicas p)
       +:+ " at rung " +:+ debug_str (pool_rung p) +:+ sep +:+ format_bytes free +:+ " free";
     c_metrics := [metric "nodes" (count up +:+ "/" +:+ count (length members));
                   tone "accent" (metric "volumes" (count (length vols))); metric "free" (format_bytes free)];
     c_actions := [];
     c_relations := [has_many "nodes" (map (λ n, node_id (nc_name (config n))) members); has_many "volumes" vols] |}.

Context (cfg : Config).
Definition slab_pools (inventory : gmap string NodeInventory) : list string :=
  concat (map (λ '(n, i), map (λ s, slab_pool_id n (slab_id s)) (inv_slabs i)) (bt_list inventory)).
Definition system_component (fd : FedState) (inventory : gmap string NodeInventory) : ComponentSummary :=
  let all := bt_values (nodes fd) in
  let up := length (healthy_nodes all) in
  let vols := length (bt_values (volumes fd)) + sum_list_with (λ i, length (inv_volumes i)) (bt_values inventory) in
  let pools_ := length (pools cfg) + length (slab_pools inventory) in
  let free := sum_of (λ n, free_bytes (status n)) (healthy_nodes all) in
  {| c_id := "system";
     c_kind := "storage";
     c_label := "stormstorage";
     c_health := rollup_health HIdle (length all) up;
     c_detail := count up +:+ "/" +:+ count (length all) +:+ " nodes" +:+ sep +:+ count pools_ +:+ " pools" +:+ sep
       +:+ count vols +:+ " volumes" +:+ sep +:+ format_bytes free +:+ " free"
       +:+ match orphans fd with
           | [] => ""
           | l => " · " +:+ count (length l) +:+ " orphaned leg(s) to reap"
           end
       +:+ sep +:+ "rev " +:+ pretty (revision fd);
     c_metrics := [metric "nodes" (count up +:+ "/" +:+ count (length all)); metric "pools" (count pools_);
                   tone "accent" (metric "volumes" (count vols)); metric "free" (format_bytes free)];
     c_actions := [];
     c_relations := [has_many "nodes" (map node_id (bt_keys (nodes fd)));
       has_many "pools" (map (λ p, pool_id (pool_name p)) (pools cfg) ++ slab_pools inventory);
       has_many "tiers" (map (λ t, tier_id (tr_tier t)) (tiers inventory))] |}.

(** A node and the slabs of its inventory. *)
Definition node_and_slabs (inventory : gmap string NodeInventory) (n : Node) : list ComponentSummary :=
  let inv := inventory !! nc_name (config n) in
  node_component n inv :: map_or [] (λ i, map (slab_component n i) (inv_slabs i)) inv.

(** [build]. *)
Definition build (fd : FedState) (inventory : gmap string NodeInventory) (heads_ : gmap string ArrayReading)
    : list ComponentSummary :=
  [system_component fd inventory]
  ++ map (pool_component fd) (pools cfg)
  ++ map tier_component (tiers inventory)
  ++ concat (map (node_and_slabs inventory) (bt_values (nodes fd)))
  ++ map (λ v, volume_component v (heads_ !! name v)) (bt_values (volumes fd))
  ++ concat (map (λ '(node, inv), map (node_volume_component node) (inv_volumes inv)) (bt_list inventory))
  ++ map vm_migration_component (bt_values (vm_migrations fd)).
(** [collect]: of one state. *)
Definition collect (s : App) : list ComponentSummary := build (fed s) (inventory s) (heads s).
End feed.

(** ** Facts: the ids *)

Lemma map_concat_map {A B C} (f : B → C) (g : A → list B) (l : list A) :
  map f (concat (map g l)) = concat (map (λ x, map f (g x)) l).
Proof. by rewrite concat_map, map_map. Qed.
Lemma perm_of_eq {A} (l l' : list A) : l = l' → l ≡ₚ l'.
Proof. by intros ->. Qed.
Definition no_slash (s : string) : Prop := slash ∉ String.list_ascii_of_string s.

Section feed_facts.
Context `{Stormview} `{FloatText} (cfg : Config) (fd : FedState) (inv : gmap string NodeInventory)
  (heads_ : gmap string ArrayReading).
Let feed := build cfg fd inv heads_.
Definition feed_ids : list string := map c_id (build cfg fd inv heads_).

(** The ids, a group per kind of component. *)
Definition node_ids : list string := map (λ n, node_id (nc_name (config n))) (bt_values (nodes fd)).
Definition slab_ids_of (n : Node) : list string :=
  map_or [] (λ i, map (λ s, slab_pool_id (nc_name (config n)) (slab_id s)) (inv_slabs i)) (inv !! nc_name (config n)).
Definition policy_ids : list string := map (λ p, pool_id (pool_name p)) (pools cfg).
Definition slab_ids : list string := concat (map slab_ids_of (bt_values (nodes fd))).
Definition tier_ids : list string := map (λ t, tier_id (tr_tier t)) (tiers inv).
Definition volume_ids : list string := map (λ v, volume_id (name v)) (bt_values (volumes fd)).
Definition nvol_ids : list string :=
  concat (map (λ '(n, i), map (λ v, node_volume_id n (ev_id (pv_volume v))) (inv_volumes i)) (bt_list inv)).
Definition vmmig_ids : list string := map (λ m, vmmig_id (vm_id m)) (bt_values (vm_migrations fd)).

(** What tells the groups apart. *)
Definition id_tag (s : string) : option Ascii.ascii * option Ascii.ascii * option bool :=
  (String.get 0 s, String.get 1 s, (λ r, is_some (split_once slash r)) <$> strip_prefix "pool:" s).
Definition id_groups : list (option Ascii.ascii * option Ascii.ascii * option bool * list string) :=
  [(id_tag "system", ["system"]); (id_tag "pool:", policy_ids); (id_tag "tier:", tier_ids);
   (id_tag "node:", node_ids); (id_tag "pool:/", slab_ids); (id_tag "volume:", volume_ids);
   (id_tag "nvol:", nvol_ids); (id_tag "vmmig:", vmmig_ids)].

Lemma feed_ids_perm : feed_ids ≡ₚ concat id_groups.*2.
Proof.
  unfold feed_ids, build. rewrite !map_app, !map_concat_map, !map_map. simpl. constructor.
  rewrite app_nil_r. do 2 apply Permutation_app_head. rewrite (app_assoc node_ids). apply Permutation_app.
  - unfold node_ids, slab_ids. rewrite <-concat_cons_perm. apply perm_of_eq. f_equal. apply map_ext.
    intros n. unfold node_and_slabs, slab_ids_of. simpl. f_equal. destruct (inv !! _) as [i|]; simpl; [|done].
    by rewrite map_map.
  - apply Permutation_app_head, Permutation_app_tail, perm_of_eq. unfold nvol_ids. f_equal. apply map_ext. intros [n i]. by rewrite map_map.
Qed.

(** The inputs are keyed by their names and told apart as far as a file
    and an engine tell them apart. *)
Record feed_wf : Prop := {
  fw_fed : fed_wf fd;
  fw_vm : ∀ k m, vm_migrations fd !! k = Some m → vm_id m = k;
  fw_pools : NoDup (map pool_name (pools cfg)) ∧ ∀ p, p ∈ pools cfg → no_slash (pool_name p);
  fw_nodes : ∀ n, is_Some (nodes fd !! n) ∨ is_Some (inv !! n) → no_slash n;
  fw_slabs : ∀ n i, inv !! n = Some i → NoDup (map slab_id (inv_slabs i));
  fw_volumes : ∀ n i, inv !! n = Some i → NoDup (map (λ v, ev_id (pv_volume v)) (inv_volumes i));
}.

Lemma NoDup_prefixed {A} (pre : string) (f : A → string) (l : list A) :
  NoDup (map f l) → NoDup (map (λ x, pre +:+ f x) l).
Proof. intros Hn. rewrite <-(map_map f (String.append pre)). by apply (NoDup_fmap_2 (String.append pre)). Qed.
Lemma keyed_NoDup {V} (m : gmap string V) (f : V → string) :
  (∀ k v, m !! k = Some v → f v = k) → NoDup (map f (bt_values m)).
Proof.
  intros Hk. unfold bt_values. enough (map f (bt_list m).*2 = bt_keys m) as -> by apply bt_keys_NoDup.
  unfold bt_keys. rewrite map_map. apply map_ext_in. intros [k v] Hin%list_elem_of_In.
  apply elem_of_bt_list in Hin. by apply Hk.
Qed.
Lemma node_in n : feed_wf → n ∈ bt_values (nodes fd) → nodes fd !! nc_name (config n) = Some n ∧ no_slash (nc_name (config n)).
Proof.
  intros Hw (k & Hk)%elem_of_bt_values. pose proof (wf_nodes _ (fw_fed Hw) k n Hk) as <-. split; [done|].
  apply (fw_nodes Hw). by left.
Qed.
Lemma slashed_inj pre n n' s s' :
  no_slash n → no_slash n' → pre +:+ (n +:+ ("/" +:+ s)) = pre +:+ (n' +:+ ("/" +:+ s')) → n = n' ∧ s = s'.
Proof.
  intros Hn Hn' E%(inj (String.append pre)). apply (f_equal (split_once slash)) in E.
  rewrite !split_once_slash in E by done. by injection E.
Qed.
Lemma slashed_NoDup {A} pre n (f : A → string) (l : list A) :
  NoDup (map f l) → NoDup (map (λ x, pre +:+ (n +:+ ("/" +:+ f x))) l).
Proof. intros Hl. apply NoDup_prefixed, (NoDup_prefixed n), (NoDup_prefixed "/"). done. Qed.

Lemma tag_of_slab n s : no_slash n → id_tag (slab_pool_id n s) = id_tag "pool:/".
Proof.
  intros Hn. pose proof (split_once_slash n s Hn) as E. unfold id_tag, slab_pool_id.
  change (strip_prefix "pool:" ("pool:" +:+ (n +:+ ("/" +:+ s)))) with (Some (n +:+ ("/" +:+ s))).
  change ((λ r, is_some (split_once slash r)) <$> Some (n +:+ ("/" +:+ s)))
    with (Some (is_some (split_once slash (n +:+ ("/" +:+ s))))). by rewrite E.
Qed.

(** No two components of a feed have the same id. *)
Theorem feed_ids_distinct : feed_wf → NoDup feed_ids.
Proof.
  intros Hw. rewrite feed_ids_perm. apply (NoDup_tagged id_tag).
  { by apply (bool_decide_unpack _); vm_compute. }
  pose proof (fw_pools Hw) as [Hp Hps].
  assert (Htag : ∀ (A : Type) (f : A → string) (l : list A) t, (∀ x, x ∈ l → id_tag (f x) = t) → ∀ x, x ∈ map f l → id_tag x = t).
  { intros A f l t Hf x Hx. apply list_elem_of_fmap in Hx as (y & -> & Hy). by apply Hf. }
  repeat (apply Forall_cons; split); [..|done]; simpl; (split; [|try by apply Htag]).
  - apply NoDup_singleton.
  - by intros x ->%list_elem_of_singleton.
  - by apply NoDup_prefixed.
  - apply Htag. intros p Hin. unfold id_tag. simpl. by rewrite split_once_none by by apply Hps.
  - apply NoDup_prefixed. by destruct (tiers_partition inv) as (_ & _ & ?).
  - apply (NoDup_prefixed "node:"), keyed_NoDup, (fw_fed Hw).
  - apply NoDup_concat_map.
    + apply (NoDup_fmap_1 (λ n, nc_name (config n))). apply keyed_NoDup, (fw_fed Hw).
    + intros n Hn. unfold slab_ids_of. destruct (inv !! _) as [i|] eqn:Hi; [|constructor]. simpl.
      apply (slashed_NoDup "pool:"). by eapply fw_slabs.
    + intros n n' b Hn Hn' Hb Hb'. destruct (node_in n Hw Hn) as [Hl Hs], (node_in n' Hw Hn') as [Hl' Hs'].
      unfold slab_ids_of in Hb, Hb'. destruct (inv !! nc_name (config n)); [|by apply not_elem_of_nil in Hb].
      destruct (inv !! nc_name (config n')); [|by apply not_elem_of_nil in Hb']. simpl in Hb, Hb'.
      apply list_elem_of_fmap in Hb as (x & -> & _). apply list_elem_of_fmap in Hb' as (x' & E & _).
      apply slashed_inj in E as [E _]; [|done|done]. congruence.
  - intros b (n & Hn & Hb)%elem_of_concat_map. destruct (node_in n Hw Hn) as [_ Hs]. unfold slab_ids_of in Hb.
    destruct (inv !! _); [|by apply not_elem_of_nil in Hb]. apply list_elem_of_fmap in Hb as (x & -> & _).
    by rewrite (tag_of_slab (nc_name (config n)) (slab_id x) Hs).
  - apply (NoDup_prefixed "volume:"), keyed_NoDup, (fw_fed Hw).
  - apply NoDup_concat_map.
    + apply (NoDup_fmap_1 fst). apply bt_list_NoDup.
    + intros [n i] Hin%elem_of_bt_list. apply (slashed_NoDup "nvol:"). by eapply fw_volumes.
    + intros [n i] [n' i'] b Hn%elem_of_bt_list Hn'%elem_of_bt_list Hb Hb'.
      apply list_elem_of_fmap in Hb as (x & -> & _). apply list_elem_of_fmap in Hb' as (x' & E & _).
      apply slashed_inj in E as [<- _]; [congruence|apply (fw_nodes Hw); eauto..].
  - intros b ([n i] & _ & Hb)%elem_of_concat_map. by apply list_elem_of_fmap in Hb as (x & -> & _).
  - apply (NoDup_prefixed "vmmig:"), keyed_NoDup, (fw_vm Hw).
Qed.

(** *** Relations *)

Context `{!StormviewLaws}.
(** Some relation of the component names [id]. *)
Definition names (c : ComponentSummary) (id : string) : Prop := ∃ r, r ∈ c_relations c ∧ id ∈ targets r.

(** What the records refer to is there: nodes that are known, pools of the
    file, slabs and volumes of the inventories. *)
Record feed_refs : Prop := {
  fr_inv : ∀ n i, inv !! n = Some i → is_Some (nodes fd !! n);
  fr_slabs : ∀ n i v s, inv !! n = Some i → v ∈ inv_volumes i → s ∈ pv_slabs v → ∃ sl, sl ∈ inv_slabs i ∧ slab_id sl = s;
  fr_legs : ∀ k v l, volumes fd !! k = Some v → l ∈ all_legs v → is_Some (nodes fd !! leg_node l);
  fr_pools : ∀ k v p, volumes fd !! k = Some v → vol_pool v = Some p → ∃ pc, pc ∈ pools cfg ∧ pool_name pc = p;
  fr_vm : ∀ k m, vm_migrations fd !! k = Some m →
    is_Some (nodes fd !! vm_source_node m) ∧ is_Some (nodes fd !! vm_target_node m)
    ∧ ∀ n id, (n, id) ∈ (vm_source_node m, source_volume_id_ m) :: map (pair (vm_target_node m)) (option_list (target_local_id m)) →
        ∃ i v, inv !! n = Some i ∧ v ∈ inv_volumes i ∧ ev_id (pv_volume v) = id;
}.

Lemma in_feed g id : g ∈ id_groups → id ∈ g.2 → id ∈ feed_ids.
Proof.
  intros Hg Hid. rewrite feed_ids_perm. clear -Hg Hid. induction id_groups as [|g' gs IH]; [by apply not_elem_of_nil in Hg|].
  simpl. apply elem_of_app. apply elem_of_cons in Hg as [->|Hg]; [by left|]. right. by apply IH.
Qed.
Ltac in_group := unfold id_groups; repeat first [apply list_elem_of_here | apply list_elem_of_further].
Lemma policy_in p : p ∈ pools cfg → pool_id (pool_name p) ∈ feed_ids.
Proof. intros Hp. eapply (in_feed (_, policy_ids)); [in_group|]. by apply (list_elem_of_fmap_2 (λ p, pool_id (pool_name p))). Qed.
Lemma tier_in t : t ∈ tiers inv → tier_id (tr_tier t) ∈ feed_ids.
Proof. intros Ht. eapply (in_feed (_, tier_ids)); [in_group|]. by apply (list_elem_of_fmap_2 (λ t, tier_id (tr_tier t))). Qed.
Lemma node_in_feed n : feed_wf → is_Some (nodes fd !! n) → node_id n ∈ feed_ids.
Proof.
  intros Hw [x Hx]. eapply (in_feed (_, node_ids)); [in_group|]. unfold node_ids.
  rewrite <-(wf_nodes _ (fw_fed Hw) _ _ Hx). apply (list_elem_of_fmap_2 (λ n, node_id (nc_name (config n)))).
  apply elem_of_bt_values. by exists n.
Qed.
Lemma slab_in n i s : feed_wf → feed_refs → inv !! n = Some i → s ∈ inv_slabs i → slab_pool_id n (slab_id s) ∈ feed_ids.
Proof.
  intros Hw Hr Hi Hs. destruct (fr_inv Hr n i Hi) as [x Hx]. eapply (in_feed (_, slab_ids)); [in_group|].
  apply elem_of_concat_map. exists x. split; [apply elem_of_bt_values; by exists n|].
  unfold slab_ids_of. rewrite (wf_nodes _ (fw_fed Hw) _ _ Hx), Hi. by apply (list_elem_of_fmap_2 (λ s, slab_pool_id n (slab_id s))).
Qed.
Lemma volume_in k v : volumes fd !! k = Some v → volume_id (name v) ∈ feed_ids.
Proof.
  intros Hv. eapply (in_feed (_, volume_ids)); [in_group|]. apply (list_elem_of_fmap_2 (λ v, volume_id (name v))).
  apply elem_of_bt_values. by exists k.
Qed.
Lemma nvol_in n i v : inv !! n = Some i → v ∈ inv_volumes i → node_volume_id n (ev_id (pv_volume v)) ∈ feed_ids.
Proof.
  intros Hi Hv. eapply (in_feed (_, nvol_ids)); [in_group|]. apply elem_of_concat_map. exists (n, i).
  split; [by apply elem_of_bt_list|]. by apply (list_elem_of_fmap_2 (λ v, node_volume_id n (ev_id (pv_volume v)))).
Qed.
Lemma system_in : "system" ∈ feed_ids.
Proof. eapply (in_feed (_, ["system"])); [in_group|left]. Qed.

(** Every target of the relations is in the feed. *)
Definition closed (rs : list Relation) : Prop := ∀ r id, r ∈ rs → id ∈ targets r → id ∈ feed_ids.
Lemma closed_nil : closed [].
Proof. by intros r id ?%not_elem_of_nil. Qed.
Lemma closed_belongs k t rs : t ∈ feed_ids → closed rs → closed (belongs_to k t :: rs).
Proof.
  intros Ht Hrs r id [->|Hr]%elem_of_cons Hid; [|by eapply Hrs].
  rewrite targets_belongs_to in Hid. by apply list_elem_of_singleton in Hid as ->.
Qed.
Lemma closed_many k ts rs : (∀ t, t ∈ ts → t ∈ feed_ids) → closed rs → closed (has_many k ts :: rs).
Proof.
  intros Ht Hrs r id [->|Hr]%elem_of_cons Hid; [|by eapply Hrs]. rewrite targets_has_many in Hid. by apply Ht.
Qed.
Lemma closed_map {A} k (f : A → string) (l : list A) rs :
  (∀ x, x ∈ l → f x ∈ feed_ids) → closed rs → closed (has_many k (map f l) :: rs).
Proof.
  intros Hf. apply closed_many. intros t (x & -> & Hx)%list_elem_of_fmap. by apply Hf.
Qed.

Lemma tier_slab t n_s : t ∈ tiers inv → n_s ∈ tr_slabs t →
  ∃ n i s, inv !! n = Some i ∧ s ∈ inv_slabs i ∧ n_s = n +:+ ("/" +:+ slab_id s).
Proof.
  intros Ht Hin. destruct (tiers_partition inv) as (Hsum & _ & _). specialize (Hsum t Ht). unfold tier_sums in Hsum.
  destruct (of_tier _ _) as [|q l] eqn:E; [done|]. apply (inj Some) in Hsum.
  assert (tr_slabs t = map (λ p, p.1 +:+ "/" +:+ slab_id p.2) (q :: l)) as Es.
  { change (tr_slabs t) with (tr_slabs (no_volumes t)). by rewrite <-Hsum. }
  rewrite Es, <-E in Hin. apply list_elem_of_fmap in Hin as ([n s] & -> & Hin).
  apply elem_of_filterb in Hin as [Hin _]. unfold all_slabs in Hin.
  apply elem_of_concat_map in Hin as ([n' i] & Hi%elem_of_bt_list & Hs). simpl in Hs.
  apply list_elem_of_fmap in Hs as (s' & [= -> ->] & Hs). by exists n', i, s'.
Qed.
Lemma slab_tier_in n i s : inv !! n = Some i → s ∈ inv_slabs i → tier_id (slab_tier s) ∈ feed_ids.
Proof.
  intros Hi Hs. destruct (tiers_partition inv) as (_ & Hall & _). destruct (Hall n s) as (t & Ht & <- & _).
  { apply elem_of_concat_map. exists (n, i). split; [by apply elem_of_bt_list|]. by apply (list_elem_of_fmap_2 (pair n)). }
  by apply tier_in.
Qed.

Section closing.
Context (Hw : feed_wf) (Hr : feed_refs).
Lemma slab_closed n node i s :
  nodes fd !! n = Some node → inv !! n = Some i → s ∈ inv_slabs i → closed (c_relations (slab_component node i s)).
Proof using Hw.
  intros Hn Hi Hs. simpl. rewrite (wf_nodes _ (fw_fed Hw) _ _ Hn).
  apply closed_belongs; [apply node_in_feed; [done|by exists node]|].
  apply closed_belongs; [by eapply slab_tier_in|]. apply closed_map; [|apply closed_nil].
  intros v Hv. apply elem_of_filterb in Hv as [Hv _]. by eapply nvol_in.
Qed.
Lemma node_closed n node : nodes fd !! n = Some node → closed (c_relations (node_component node (inv !! n))).
Proof using Hw Hr.
  intros Hn. simpl. apply closed_belongs; [apply system_in|]. rewrite (wf_nodes _ (fw_fed Hw) _ _ Hn).
  apply closed_many; [|apply closed_nil]. destruct (inv !! n) as [i|] eqn:Hi; [|by intros t ?%not_elem_of_nil].
  intros t (s & -> & Hs)%list_elem_of_fmap. by eapply slab_in.
Qed.
Lemma volume_closed k v r : volumes fd !! k = Some v → closed (c_relations (volume_component v r)).
Proof using Hw Hr.
  intros Hv. simpl. apply closed_map.
  - intros l Hl. apply node_in_feed; [done|]. by eapply fr_legs.
  - destruct (vol_pool v) as [p|] eqn:Hp; [|apply closed_nil]. apply closed_belongs; [|apply closed_nil].
    destruct (fr_pools Hr k v p Hv Hp) as (pc & Hpc & <-). by apply policy_in.
Qed.
Lemma nvol_closed n i v : inv !! n = Some i → v ∈ inv_volumes i → closed (c_relations (node_volume_component n v)).
Proof using Hw Hr.
  intros Hi Hv. simpl. apply closed_belongs; [apply node_in_feed; [done|by eapply fr_inv]|].
  destruct (pv_slabs v) as [|s0 l] eqn:El; [apply closed_nil|].
  apply (closed_map "pools" (slab_pool_id n) (s0 :: l)); [|apply closed_nil].
  intros s Hs. rewrite <-El in Hs. destruct (fr_slabs Hr n i v s Hi Hv Hs) as (sl & Hsl & <-). by eapply slab_in.
Qed.
Lemma vm_closed k m : vm_migrations fd !! k = Some m → closed (c_relations (vm_migration_component m)).
Proof using Hw Hr.
  intros Hm. destruct (fr_vm Hr k m Hm) as (Hs & Ht & Hv). simpl. apply closed_many.
  - assert (∀ n id, (n, id) ∈ (vm_source_node m, source_volume_id_ m) :: map (pair (vm_target_node m)) (option_list (target_local_id m)) →
      node_volume_id n id ∈ feed_ids) as Hin.
    { intros n id Hin. destruct (Hv n id Hin) as (i & v & Hi & Hvi & <-). by eapply nvol_in. }
    intros t [->|(x & -> & Hx)%list_elem_of_fmap]%elem_of_cons; apply Hin; [by left|right].
    by apply (list_elem_of_fmap_2 (pair (vm_target_node m))).
  - apply closed_many; [|apply closed_nil].
    intros t [->|[->|[]%not_elem_of_nil]%elem_of_cons]%elem_of_cons; by apply node_in_feed.
Qed.
Lemma pool_closed p : closed (c_relations (pool_component fd p)).
Proof using Hw.
  simpl. apply closed_map.
  - intros n Hn. apply elem_of_filterb in Hn as [Hn _]. destruct (node_in n Hw Hn) as [Hl _].
    apply node_in_feed; [done|by exists n].
  - apply closed_map; [|apply closed_nil]. intros v Hv. apply elem_of_filterb in Hv as [(k & Hk)%elem_of_bt_values _].
    by eapply volume_in.
Qed.
Lemma tier_closed t : t ∈ tiers inv → closed (c_relations (tier_component t)).
Proof using Hw Hr.
  intros Ht. simpl. apply closed_map; [|apply closed_nil]. intros x Hx.
  destruct (tier_slab t x Ht Hx) as (n & i & s & Hi & Hs & ->). by eapply slab_in.
Qed.
Lemma system_closed : closed (c_relations (system_component cfg fd inv)).
Proof using Hw Hr.
  simpl. apply closed_map; [intros n Hn; apply node_in_feed; [done|by apply elem_of_bt_keys]|].
  apply closed_many; [|apply closed_map; [intros t; apply tier_in|apply closed_nil]].
  intros t [(p & -> & Hp)%list_elem_of_fmap|Hs]%elem_of_app; [by apply policy_in|].
  unfold slab_pools in Hs. apply elem_of_concat_map in Hs as ([n i] & Hi%elem_of_bt_list & Hs).
  apply list_elem_of_fmap in Hs as (s & -> & Hs). by eapply slab_in.
Qed.
End closing.

(** C37: A relation of the feed never dangles: when the records are well
    formed (each kept under its own name, node names without a slash) and
    refer only to nodes, pools, slabs and volumes that are there, every id a
    relation names is the id of a component of the same feed; and a policy
    pool lists a volume exactly when the volume says it belongs to the
    pool. *)
Theorem feed_relations_closed :
  feed_wf → feed_refs →
  (∀ c id, c ∈ build cfg fd inv heads_ → names c id → ∃ c', c' ∈ build cfg fd inv heads_ ∧ c_id c' = id) ∧
  (∀ p k v, p ∈ pools cfg → volumes fd !! k = Some v →
     names (pool_component fd p) (volume_id (name v)) ↔ names (volume_component v (heads_ !! name v)) (pool_id (pool_name p))).
Proof.
  intros Hw Hr. split.
  - intros c id Hc (r & Hrel & Hid).
    assert (closed (c_relations c)) as Hcl.
    { unfold build in Hc. rewrite !elem_of_app in Hc. destruct Hc as [Hc|[Hc|[Hc|[Hc|[Hc|[Hc|Hc]]]]]].
      - apply list_elem_of_singleton in Hc as ->. by apply system_closed.
      - apply list_elem_of_fmap in Hc as (p & -> & _). by apply pool_closed.
      - apply list_elem_of_fmap in Hc as (t & -> & Ht). by apply tier_closed.
      - apply elem_of_concat_map in Hc as (n & Hn & Hc). destruct (node_in n Hw Hn) as [Hl _].
        apply elem_of_cons in Hc as [->|Hc]; [by apply node_closed|].
        destruct (inv !! _) as [i|] eqn:Hi; [|by apply not_elem_of_nil in Hc].
        apply list_elem_of_fmap in Hc as (s & -> & Hs). by eapply slab_closed.
      - apply list_elem_of_fmap in Hc as (v & -> & (k & Hk)%elem_of_bt_values). by eapply volume_closed.
      - apply elem_of_concat_map in Hc as ([n i] & Hi%elem_of_bt_list & Hc).
        apply list_elem_of_fmap in Hc as (v & -> & Hv). by eapply nvol_closed.
      - apply list_elem_of_fmap in Hc as (m & -> & (k & Hk)%elem_of_bt_values). by eapply vm_closed. }
    specialize (Hcl r id Hrel Hid). by apply list_elem_of_fmap in Hcl as (c' & -> & Hc'); exists c'.
  - intros p k v Hp Hv. pose proof (wf_volumes _ (fw_fed Hw)) as Hkey. split.
    + intros (r & Hrel & Hid). simpl in Hrel.
      apply elem_of_cons in Hrel as [->|[->|[]%not_elem_of_nil]%elem_of_cons]; rewrite targets_has_many in Hid.
      { by apply list_elem_of_fmap in Hid as (n & E & _). }
      apply list_elem_of_fmap in Hid as (v' & E%(inj (String.append "volume:")) & Hv').
      apply elem_of_filterb in Hv' as [(k' & Hk')%elem_of_bt_values Hpool%eqb_prop].
      assert (v' = v) as -> by (apply Hkey in Hk' as E1; apply Hkey in Hv as E2; congruence).
      exists (belongs_to "pool" (pool_id (pool_name p))). simpl. rewrite Hpool, targets_belongs_to.
      split; [right; left|left].
    + intros (r & Hrel & Hid). simpl in Hrel. apply elem_of_cons in Hrel as [->|Hrel].
      { rewrite targets_has_many in Hid. by apply list_elem_of_fmap in Hid as (l & E & _). }
      destruct (vol_pool v) as [q|] eqn:Hq; [|by apply not_elem_of_nil in Hrel].
      apply list_elem_of_singleton in Hrel as ->. rewrite targets_belongs_to in Hid.
      apply list_elem_of_singleton in Hid as E%(inj (String.append "pool:")). subst q.
      exists (has_many "volumes" (pool_volumes p fd)). split; [simpl; right; left|]. rewrite targets_has_many.
      apply (list_elem_of_fmap_2 (λ v, volume_id (name v))). apply elem_of_filterb.
      split; [apply elem_of_bt_values; by exists k|]. rewrite Hq. apply eqb_refl.
Qed.
End feed_facts.

(** ** An example *)

Section examples.
#[local] Instance plain_stormview : Stormview := {|
  Metric := string * string * string; Relation := string * list string;
  metric k v := (k, v, ""); tone t m := (m.1.1, m.1.2, t);
  belongs_to k t := (k, [t]); has_many k ts := (k, ts); format_bytes n := pretty n +:+ " B" |}.
#[local] Instance plain_laws : StormviewLaws := {|
  targets r := r.2; targets_belongs_to _ _ := eq_refl; targets_has_many _ _ := eq_refl |}.
#[local] Instance no_floats : FloatText := {| fixed _ _ := "0" |}.

Let n1 : Node := MkNode (MkNodeConfig "n1" "http://n1:9090" None None None ∅ None) ((NodeStatus_new Static) <| healthy := true |>).
Let fast : PoolConfig := MkPoolConfig "fast" Selector_default 1 "node" None None 1.
Let cfg : Config := MkConfig RecoveryConfig_default PollConfig_default ["node"] f0 [fast] "" [].
Let s1 : Slab := MkSlab "abcdefghij" "nvme" "data" "d1" None 4096 10 4 6 40960 16384.
Let v1 : PlacedVolume := MkPlacedVolume (MkEngineVolume "v-1" "root" 4096 0 0 None true "data" "healthy" "" None None None
  (Some false) [] None None) ["abcdefghij"] BySlots None.
Let inv : gmap string NodeInventory := {["n1" := MkNodeInventory [s1] [v1] None None]}.
Let db : DistVolume := new_volume "db" 1024 (Some "fast") 1 "node" [new_leg "n1" (Some "v-1") None] 0 [] None None.
Let fd : FedState := FedState_default <| nodes := {["n1" := n1]} |> <| volumes := {["db" := db]} |>.

Lemma single_lookup {V} (k k' : string) (v v' : V) : ({[k := v]} : gmap string V) !! k' = Some v' → k' = k ∧ v' = v.
Proof. intros Hl. by apply lookup_singleton_Some in Hl as [<- <-]. Qed.
Lemma example_wf : feed_wf cfg fd inv.
Proof.
  assert (Hn : no_slash "n1") by (apply (bool_decide_unpack _); by vm_compute).
  constructor.
  - constructor.
    + by intros k n [-> ->]%single_lookup.
    + by intros k v [-> ->]%single_lookup.
  - intros k m Hm. by apply (lookup_empty_Some (M:=gmap string) k m) in Hm.
  - split; [apply NoDup_singleton|]. intros p ->%list_elem_of_singleton. apply (bool_decide_unpack _). by vm_compute.
  - by intros n [[x [-> _]%single_lookup]|[x [-> _]%single_lookup]].
  - intros n i [-> ->]%single_lookup. apply NoDup_singleton.
  - intros n i [-> ->]%single_lookup. apply NoDup_singleton.
Qed.
Lemma feed_ids_distinct_witness : NoDup (feed_ids cfg fd inv ∅) ∧ feed_ids cfg fd inv ∅ =
  ["system"; "pool:fast"; "tier:nvme"; "node:n1"; "pool:n1/abcdefghij"; "volume:db"; "nvol:n1/v-1"].
Proof. split; [apply feed_ids_distinct, example_wf|by vm_compute]. Defined.
Lemma example_refs : feed_refs cfg fd inv.
Proof.
  constructor.
  - intros n i [-> ->]%single_lookup. by eexists.
  - intros n i v s [-> ->]%single_lookup ->%list_elem_of_singleton ->%list_elem_of_singleton.
    exists s1. split; [left|done].
  - intros k v l [-> ->]%single_lookup Hl. vm_compute in Hl. apply list_elem_of_singleton in Hl as ->. by eexists.
  - intros k v p [-> ->]%single_lookup [= <-]. exists fast. split; [left|done].
  - intros k m Hm. by apply (lookup_empty_Some (M:=gmap string) k m) in Hm.
Qed.
Lemma feed_relations_closed_witness :
  (∀ c id, c ∈ build cfg fd inv ∅ → names c id → ∃ c', c' ∈ build cfg fd inv ∅ ∧ c_id c' = id) ∧
  (∀ p k v, p ∈ pools cfg → volumes fd !! k = Some v →
     names (pool_component fd p) (volume_id (name v)) ↔
     names (volume_component v ((∅ : gmap string ArrayReading) !! name v)) (pool_id (pool_name p))).
Proof. apply (feed_relations_closed cfg fd inv ∅ example_wf example_refs). Defined.

(** A policy pool may be named as a slab's pool: two components with one id. *)
Example pool_named_as_a_slab :
  let cfg := MkConfig RecoveryConfig_default PollConfig_default ["node"] f0
    [MkPoolConfig "n1/abcdefghij" Selector_default 1 "node" None None 1] "" [] in
  List.filter (λ i, i == "pool:n1/abcdefghij") (feed_ids cfg fd inv ∅) = ["pool:n1/abcdefghij"; "pool:n1/abcdefghij"].
Proof. by vm_compute. Qed.
End examples.
