(* ===== verification/Auth.v ===== *)
(** * Who may change what (src/api/auth.rs, the router of src/api/mod.rs)

    A request passes two layers before its handler: [forward_writes] sends a
    follower's writes to the leader, [require_token] asks for the API token.
    [routes] is the router's table, [serve] one instance, [deliver] a request
    among several instances. Handlers are names here ([Endpoint]); what they
    do is in the other files. Shown: nothing but an enrollment changes state
    without the token; a request is handled by at most one instance, after at
    most one hop, and a write only by one that leads; the byte comparison is
    equality. The matching of a path against a pattern is axum's, written out
    here segment by segment. *)

From S2P Require Import Prelude F64 Config Model Events Refusal Async Json Inventory Kube Sync App Engine Replicate Base64 Records Store.
From stdpp Require Import options.

Local Open Scope string_scope.

(** ** Requests *)

Inductive Verb := VGet | VHead | VOptions | VPost | VPut | VPatch | VDelete.
#[export] Instance Verb_eq_dec : EqDecision Verb.
Proof. solve_decision. Defined.

(** [rq_auth]: the Authorization header when it is text. [rq_forwarded]: the
    [x-stormstorage-forwarded] header is there. *)
Record Request := MkRequest {
  rq_verb : Verb;
  rq_path : string;
  rq_query : string;
  rq_auth : option string;
  rq_forwarded : bool;
  rq_length : Z;
}.

(** ** The token (src/api/auth.rs) *)

Definition OPEN_WRITES : list string :=
  ["/api/v1/placement/plan"; "/api/v1/storage/register"; "/api/v1/storage/deregister"].
Definition reads_only (m : Verb) : bool := match m with VGet | VHead | VOptions => true | _ => false end.
(** [guarded]. *)
Definition guarded (m : Verb) (path : string) : bool :=
  negb (reads_only m) && negb (existsb (λ p, p == path) OPEN_WRITES).

(** [same]: no early return on the first difference. *)
Definition same (a b : list Z) : bool :=
  (length a =? length b)%nat && (foldl (λ acc '(x, y), Z.lor acc (Z.lxor x y)) 0 (zip a b) =? 0)%Z.

Definition presented (r : Request) : option string := trim <$> (rq_auth r ≫= strip_prefix "Bearer ").

(** [require_token]: [None] is the 401. *)
Definition require_token {A} (api_token : string) (r : Request) (next : A) : option A :=
  if (api_token == "") || negb (guarded (rq_verb r) (rq_path r)) then Some next
  else match presented r with
       | Some t => if same (as_bytes t) (as_bytes api_token) then Some next else None
       | None => None
       end.

(** ** The router (src/api/mod.rs) *)

Inductive Endpoint :=
  | UiIndex | HealthOf | ComponentsFeed | WsComponents | ReceiveReplication | ReplicationStatus
  | ListNodes | NodeInventoryOf | Topology | ListPools | PoolRebalance | PlanDryRun
  | VmStart | VmList | VmGet | VmCutover | VmComplete | VmAbort | VmRetry
  | ListVolumes | CreateVolume | GetVolume | DeleteVolume | MoveLeg | MigrateVolume | CancelMigration
  | ExportVolume | ServeHost | WithdrawHost | AssembleVolume | VolumeReplicas | FenceVolume | PromoteVolume
  | PrestageVolume | PutBandwidthClass | ExpandVolume | OpenDualAttach | CloseDualAttach
  | CreateSnapshot | ListSnapshots | GetSnapshot | DeleteSnapshot | CreateGroup | ListGroups | GetGroup | DeleteGroup
  | ListBackups | GetBackup | PutPolicy | StopBackups | DeletePoint | RestorePoint
  | ListStaleHeads | ListOrphans | ListEvents | SummaryOf | RegisterNode | DeregisterNode | StoreStatusOf.
#[export] Instance Endpoint_eq_dec : EqDecision Endpoint.
Proof. solve_decision. Defined.

Definition routes : list (string * list (Verb * Endpoint)) :=
  [("/", [(VGet, UiIndex)]); ("/ui", [(VGet, UiIndex)]); ("/ui/", [(VGet, UiIndex)]);
   ("/api/v1/health", [(VGet, HealthOf)]);
   ("/api/v1/components", [(VGet, ComponentsFeed)]);
   ("/ws/components", [(VGet, WsComponents)]);
   ("/api/v1/replicate", [(VPost, ReceiveReplication)]);
   ("/api/v1/replication/status", [(VGet, ReplicationStatus)]);
   ("/api/v1/nodes", [(VGet, ListNodes)]);
   ("/api/v1/nodes/{name}/inventory", [(VGet, NodeInventoryOf)]);
   ("/api/v1/nodes/{name}/volumes/{id}/migrate", [(VPost, VmStart)]);
   ("/api/v1/migrations", [(VGet, VmList)]);
   ("/api/v1/migrations/{id}", [(VGet, VmGet)]);
   ("/api/v1/migrations/{id}/cutover", [(VPost, VmCutover)]);
   ("/api/v1/migrations/{id}/complete", [(VPost, VmComplete)]);
   ("/api/v1/migrations/{id}/abort", [(VPost, VmAbort)]);
   ("/api/v1/migrations/{id}/retry", [(VPost, VmRetry)]);
   ("/api/v1/topology", [(VGet, Topology)]);
   ("/api/v1/pools", [(VGet, ListPools)]);
   ("/api/v1/pools/{name}/rebalance", [(VGet, PoolRebalance)]);
   ("/api/v1/placement/plan", [(VPost, PlanDryRun)]);
   ("/api/v1/volumes", [(VGet, ListVolumes); (VPost, CreateVolume)]);
   ("/api/v1/volumes/{name}", [(VGet, GetVolume); (VDelete, DeleteVolume)]);
   ("/api/v1/volumes/{name}/move", [(VPost, MoveLeg)]);
   ("/api/v1/volumes/{name}/migrate", [(VPost, MigrateVolume); (VDelete, CancelMigration)]);
   ("/api/v1/volumes/{name}/export", [(VPost, ExportVolume)]);
   ("/api/v1/volumes/{name}/export/hosts", [(VPost, ServeHost)]);
   ("/api/v1/volumes/{name}/export/hosts/{host_nqn}", [(VDelete, WithdrawHost)]);
   ("/api/v1/volumes/{name}/assemble", [(VPost, AssembleVolume)]);
   ("/api/v1/volumes/{name}/replicas", [(VGet, VolumeReplicas)]);
   ("/api/v1/volumes/{name}/fence", [(VPost, FenceVolume)]);
   ("/api/v1/volumes/{name}/promote", [(VPost, PromoteVolume)]);
   ("/api/v1/volumes/{name}/prestage", [(VPost, PrestageVolume)]);
   ("/api/v1/volumes/{name}/bandwidth-class", [(VPut, PutBandwidthClass)]);
   ("/api/v1/volumes/{name}/expand", [(VPost, ExpandVolume)]);
   ("/api/v1/volumes/{name}/dual-attach", [(VPost, OpenDualAttach)]);
   ("/api/v1/volumes/{name}/dual-attach/close", [(VPost, CloseDualAttach)]);
   ("/api/v1/snapshots", [(VPost, CreateSnapshot); (VGet, ListSnapshots)]);
   ("/api/v1/snapshots/{id}", [(VGet, GetSnapshot); (VDelete, DeleteSnapshot)]);
   ("/api/v1/group-snapshots", [(VPost, CreateGroup); (VGet, ListGroups)]);
   ("/api/v1/group-snapshots/{id}", [(VGet, GetGroup); (VDelete, DeleteGroup)]);
   ("/api/v1/backups", [(VGet, ListBackups)]);
   ("/api/v1/volumes/{name}/backup", [(VGet, GetBackup); (VPut, PutPolicy); (VDelete, StopBackups)]);
   ("/api/v1/volumes/{name}/backup/points/{point}", [(VDelete, DeletePoint)]);
   ("/api/v1/volumes/{name}/backup/points/{point}/restore", [(VPost, RestorePoint)]);
   ("/api/v1/stale-heads", [(VGet, ListStaleHeads)]);
   ("/api/v1/orphans", [(VGet, ListOrphans)]);
   ("/api/v1/events", [(VGet, ListEvents)]);
   ("/api/v1/summary", [(VGet, SummaryOf)]);
   ("/api/v1/storage/register", [(VPost, RegisterNode)]);
   ("/api/v1/storage/deregister", [(VPost, DeregisterNode)]);
   ("/api/v1/store", [(VGet, StoreStatusOf)])].

(** Whether the handler changes the state of the service. *)
Definition changes (e : Endpoint) : bool :=
  match e with
  | ReceiveReplication | VmStart | VmCutover | VmComplete | VmAbort | VmRetry
  | CreateVolume | DeleteVolume | MoveLeg | MigrateVolume | CancelMigration
  | ExportVolume | ServeHost | WithdrawHost | AssembleVolume | FenceVolume | PromoteVolume
  | PrestageVolume | PutBandwidthClass | ExpandVolume | OpenDualAttach | CloseDualAttach
  | CreateSnapshot | DeleteSnapshot | CreateGroup | DeleteGroup
  | PutPolicy | StopBackups | DeletePoint | RestorePoint | RegisterNode | DeregisterNode => true
  | _ => false
  end.
(** The heartbeat of an engine, which sends no token. *)
Definition enrolls (e : Endpoint) : bool := match e with RegisterNode | DeregisterNode => true | _ => false end.

Fixpoint split_all (c : Ascii.ascii) (s : string) : list string :=
  match s with
  | EmptyString => [""]
  | String x s =>
      if Ascii.eqb x c then "" :: split_all c s
      else match split_all c s with h :: t => String x h :: t | [] => [String x ""] end
  end.
Definition segments (path : string) : list string := split_all slash path.
(** A pattern's segment in braces stands for any one that is not empty. *)
Definition is_param (p : string) : bool := starts_with "{" p && ends_with "}" p.
Definition segment_fits (p s : string) : bool := if is_param p then s != "" else p == s.
Fixpoint all2 {A B} (f : A → B → bool) (l : list A) (k : list B) : bool :=
  match l, k with
  | [], [] => true
  | x :: l, y :: k => f x y && all2 f l k
  | _, _ => false
  end.
Definition path_fits (pattern path : string) : bool := all2 segment_fits (segments pattern) (segments path).

Inductive Routed := To (e : Endpoint) | NoRoute | NotAllowed.
(** A HEAD is answered by the GET handler. *)
Definition verb_of (v : Verb) : Verb := match v with VHead => VGet | _ => v end.
Definition route (v : Verb) (path : string) : Routed :=
  match find_first (λ p, path_fits p.1 path) routes with
  | None => NoRoute
  | Some (_, ms) =>
      match find_first (λ m, m.1 == verb_of v) ms with
      | Some (_, e) => To e
      | None => NotAllowed
      end
  end.

(** ** One instance, and several *)

Record Instance_ := MkInstance { i_fleet : option Fleet; i_token : string }.

Inductive Answer :=
  | Handled (e : Endpoint)
  | NotFoundHere
  | MethodNotAllowed
  | Unauthorized
  | NotServed (code : string)
  | TooLarge
  | Relay (leader : string) (r : Request).

Definition MAX_FORWARD : Z := Z.shiftl 16 20.
Definition leads_or_alone (i : Instance_) : bool := map_or true is_leader (i_fleet i).

Definition answer_of (r : Routed) : Answer :=
  match r with To e => Handled e | NoRoute => NotFoundHere | NotAllowed => MethodNotAllowed end.

(** The layers, the outer first. *)
Definition serve (i : Instance_) (r : Request) : Answer :=
  match forward_writes (i_fleet i) (reads_only (rq_verb r)) (rq_path r +:+ rq_query r) (rq_forwarded r) with
  | Here => unwrap_or Unauthorized (require_token (i_token i) r (answer_of (route (rq_verb r) (rq_path r))))
  | Unavailable code => NotServed code
  | ToLeader _ =>
      if (MAX_FORWARD <? rq_length r)%Z then TooLarge
      else match i_fleet i ≫= leader_url with
           | Some l => Relay l {| rq_verb := rq_verb r; rq_path := rq_path r; rq_query := rq_query r;
                                  rq_auth := rq_auth r; rq_forwarded := true; rq_length := rq_length r |}
           | None => NotServed "no_leader"
           end
  end.

(** What becomes of a request sent to [url]: the answer, and the instance
    that gave it; [None] where nothing answers (at a relay, a 502). *)
Inductive Outcome := Answered (url : string) (a : Answer) | Unreachable (url : string) | StillTravelling.
Fixpoint deliver (hops : nat) (net : gmap string Instance_) (url : string) (r : Request) : Outcome :=
  match net !! url with
  | None => Unreachable url
  | Some i =>
      match serve i r with
      | Relay l r' => match hops with S hops => deliver hops net l r' | O => StillTravelling end
      | a => Answered url a
      end
  end.

(** ** Facts: the comparison *)

Lemma lor_fold l acc :
  foldl (λ acc '(x, y), Z.lor acc (Z.lxor x y)) acc l = 0%Z ↔ acc = 0%Z ∧ Forall (λ '(x, y), x = y) l.
Proof.
  revert acc. induction l as [|[x y] l IH]; intros acc; simpl; [by split; [|intros [? _]]|].
  rewrite IH, Z.lor_eq_0_iff, Z.lxor_eq_0_iff, Forall_cons. tauto.
Qed.
Lemma same_eq a b : same a b = true ↔ a = b.
Proof.
  unfold same. rewrite andb_true_iff, Nat.eqb_eq, Z.eqb_eq, lor_fold. split; [|intros ->].
  - intros [Hl [_ Hf]]. revert b Hl Hf. induction a as [|x a IH]; intros [|y b] Hl Hf; simpl in *; try lia; [done|].
    apply Forall_cons in Hf as [-> Hf]. f_equal. by apply IH; [lia|].
  - split; [done|]. split; [done|]. induction b as [|x b IH]; simpl; [constructor|]. by constructor.
Qed.
Lemma same_text a b : same (as_bytes a) (as_bytes b) = true ↔ a = b.
Proof.
  rewrite same_eq. split; [|by intros ->]. unfold as_bytes. revert b.
  induction a as [|x a IH]; intros [|y b]; simpl; intros E; try done. injection E as Ex Eb. f_equal; [|by apply IH].
  unfold byte_of in Ex. apply Nat2Z.inj in Ex. by rewrite <-(Ascii.ascii_nat_embedding x), Ex, Ascii.ascii_nat_embedding.
Qed.
Lemma require_token_Some {A} tok r (next a : A) :
  require_token tok r next = Some a → a = next ∧ (tok = "" ∨ guarded (rq_verb r) (rq_path r) = false ∨ presented r = Some tok).
Proof.
  unfold require_token. destruct (tok == "") eqn:Et; simpl; [apply eqb_prop in Et; intros [= ->]; auto|].
  destruct (guarded _ _); simpl; [|intros [= ->]; auto].
  destruct (presented r) as [t|]; [|done]. destruct (same _ _) eqn:Es; [|done].
  apply same_text in Es as ->. intros [= ->]. auto.
Qed.

(** ** Facts: the routes *)

Lemma split_all_join c s : join (String c "") (split_all c s) = s.
Proof.
  induction s as [|x s IH]; [done|]. simpl. destruct (Ascii.eqb_spec x c) as [->|Hne].
  - destruct (split_all c s) as [|h t] eqn:E; [by destruct s as [|y s]; simpl in E; [|repeat case_match]|].
    change (String c (join (String c "") (h :: t)) = String c s). by rewrite IH.
  - destruct (split_all c s) as [|h t]; [by rewrite <-IH|]. rewrite <-IH. by destruct t.
Qed.

(** What a line of the table that changes something looks like: not a read;
    under [/api/v1/]; no open write fits it, an enrollment apart. *)
Definition line_ok (pattern : string) (m : Verb * Endpoint) : bool :=
  negb (changes m.2)
  || (negb (reads_only m.1)
      && (enrolls m.2 || forallb (λ op, negb (path_fits pattern op)) OPEN_WRITES)
      && match segments pattern with a :: b :: _ :: _ => (a == "") && (b == "api") | _ => false end).
Lemma table_ok : forallb (λ p, forallb (line_ok p.1) p.2) routes = true.
Proof. by vm_compute. Qed.
(** No path fits two patterns, so the first that fits is the one. *)
Definition segments_meet (p q : string) : bool := is_param p || is_param q || (p == q).
Lemma routes_apart :
  forallb (λ i, forallb (λ j, (i =? j)%nat || negb (all2 segments_meet
    (segments (unwrap_or ("", []) (routes !! i)).1) (segments (unwrap_or ("", []) (routes !! j)).1)))
    (List.seq 0 (length routes))) (List.seq 0 (length routes)) = true.
Proof. by vm_compute. Qed.

Lemma fits_no_open pat path l :
  path_fits pat path = true → forallb (λ op, negb (path_fits pat op)) l = true → existsb (λ p, p == path) l = false.
Proof.
  intros Hf Hl. apply existsb_false. intros op Hop. rewrite forallb_forall in Hl.
  specialize (Hl op ltac:(by apply list_elem_of_In)). destruct (op == path) eqn:E; [|done].
  apply eqb_prop in E as ->. by rewrite Hf in Hl.
Qed.
Lemma route_changes v path e :
  route v path = To e → changes e = true →
  reads_only v = false ∧ starts_with "/api/" path = true ∧ (enrolls e = true ∨ guarded v path = true).
Proof.
  unfold route. destruct (find_first _ routes) as [[pat ms]|] eqn:Ep; [|done].
  destruct (find_first _ ms) as [[v' e']|] eqn:Em; [|done]. intros [= ->] Hc.
  apply find_first_Some in Ep as [Hin Hfit]. apply find_first_Some in Em as [Hm Hv]. simpl in Hfit, Hv.
  pose proof table_ok as Ht. rewrite forallb_forall in Ht.
  specialize (Ht (pat, ms) ltac:(by apply list_elem_of_In)). simpl in Ht. rewrite forallb_forall in Ht.
  specialize (Ht (v', e) ltac:(by apply list_elem_of_In)). unfold line_ok in Ht. simpl in Ht. rewrite Hc in Ht. simpl in Ht.
  apply andb_true_iff in Ht as [Ht Hseg]. apply andb_true_iff in Ht as [Hr Hopen].
  apply eqb_prop in Hv as ->. assert (reads_only v = false) as Hrv by (destruct v; try done; by simpl in Hr).
  split; [done|]. split.
  - destruct (segments pat) as [|a [|b [|c0 l]]] eqn:Es; try done. apply andb_true_iff in Hseg as [->%eqb_prop ->%eqb_prop].
    unfold path_fits in Hfit. rewrite Es in Hfit. rewrite <-(split_all_join slash path). fold (segments path).
    destruct (segments path) as [|x [|y [|z k]]]; simpl in Hfit; rewrite ?andb_false_r in Hfit; try done.
    apply andb_true_iff in Hfit as [<-%eqb_prop Hfit]. apply andb_true_iff in Hfit as [<-%eqb_prop _].
    by destruct k.
  - apply orb_true_iff in Hopen as [He|Hopen]; [by left|right]. unfold guarded. rewrite Hrv.
    by rewrite (fits_no_open pat path OPEN_WRITES Hfit Hopen : existsb _ _ = _).
Qed.

(** ** The token *)

(** C18: Whoever reaches a handler that changes state either enrolls a node
    (register, deregister), or runs against an instance with no token set,
    or presented that instance's token; and a read is answered by any
    instance, with or without a token. *)
Theorem writes_need_the_token (i : Instance_) (r : Request) (e : Endpoint) :
  (serve i r = Handled e → changes e = true →
     enrolls e = true ∨ i_token i = "" ∨ presented r = Some (i_token i)) ∧
  (reads_only (rq_verb r) = true → serve i r = answer_of (route (rq_verb r) (rq_path r))).
Proof.
  unfold serve, forward_writes. split.
  - intros Hs Hc.
    assert (∃ a, require_token (i_token i) r (answer_of (route (rq_verb r) (rq_path r))) = Some a ∧ a = Handled e) as (a & Ha & ->).
    { destruct (i_fleet i) as [f|]; simpl in Hs.
      2:{ destruct (require_token _ _ _) as [a|]; [by exists a|done]. }
      destruct (_ || _ || _); [destruct (require_token _ _ _) as [a|]; [by exists a|done]|].
      destruct (rq_forwarded r); [done|]. destruct (leader_url f); [|done]. by destruct (_ <? _)%Z. }
    apply require_token_Some in Ha as [Hroute [Ht|[Hg|Hp]]]; [auto| |auto].
    unfold answer_of in Hroute. destruct (route _ _) as [e'| |] eqn:Er; try done. injection Hroute as ->.
    destruct (route_changes _ _ _ Er Hc) as (_ & _ & [He|Hg']); [auto|congruence].
  - intros Hr. assert (require_token (i_token i) r (answer_of (route (rq_verb r) (rq_path r))) =
      Some (answer_of (route (rq_verb r) (rq_path r)))) as E.
    { unfold require_token, guarded. rewrite Hr. simpl. by rewrite orb_true_r. }
    rewrite Hr. simpl. destruct (i_fleet i); by rewrite E.
Qed.

(** ** Several instances *)

Lemma serve_relay i r l r' :
  serve i r = Relay l r' → leads_or_alone i = false ∧ i_fleet i ≫= leader_url = Some l ∧ rq_forwarded r = false ∧
  reads_only (rq_verb r) = false ∧ rq_forwarded r' = true ∧ rq_auth r' = rq_auth r ∧ rq_verb r' = rq_verb r ∧ rq_path r' = rq_path r.
Proof.
  assert (Hroute : ∀ o l r', unwrap_or Unauthorized (require_token (i_token i) r (answer_of o)) ≠ Relay l r').
  { intros o l0 r0. unfold require_token. destruct (_ || _); simpl; [by destruct o|].
    destruct (presented r); simpl; [|done]. destruct (same _ _); [by destruct o|done]. }
  unfold serve, forward_writes, leads_or_alone. destruct (i_fleet i) as [f|]; simpl; [|intros E; by apply Hroute in E].
  destruct (reads_only (rq_verb r)); simpl; [intros E; by apply Hroute in E|].
  destruct (negb _) eqn:Hp; simpl; [intros E; by apply Hroute in E|].
  destruct (is_leader f) eqn:Hl; [intros E; by apply Hroute in E|].
  destruct (rq_forwarded r) eqn:Hf; [done|]. destruct (leader_url f) as [u|]; [|done].
  destruct (_ <? _)%Z; [done|]. by intros [= <- <-].
Qed.
Lemma deliver_more h net url r : deliver (S h) net url r = deliver 1 net url r.
Proof.
  simpl. destruct (net !! url) as [i|]; [|done]. destruct (serve i r) as [| | | | | |l r'] eqn:E; try done.
  apply serve_relay in E as (_ & _ & _ & _ & Hf & _). destruct h as [|h]; [done|]. simpl.
  destruct (net !! l) as [j|]; [|done]. destruct (serve j r') eqn:E'; try done.
  apply serve_relay in E' as (_ & _ & Hn & _). congruence.
Qed.

(** C19: A request is answered after at most one hop, whatever instance it is
    sent to and whoever each instance takes for the leader; the handler
    that answers it runs on the instance it was sent to or on the one that
    instance takes for the leader, and a handler that changes state runs
    only on an instance that leads or has no fleet store, with the token of
    that instance if one is set (enrollment apart). *)
Theorem request_handled_once (net : gmap string Instance_) (url : string) (r : Request) (hops : nat) :
  (1 ≤ hops)%nat →
  deliver hops net url r = deliver 1 net url r ∧ deliver hops net url r ≠ StillTravelling ∧
  ∀ u e, deliver hops net url r = Answered u (Handled e) →
    ∃ i, net !! u = Some i ∧
      (u = url ∨ ∃ i0, net !! url = Some i0 ∧ leads_or_alone i0 = false ∧ i_fleet i0 ≫= leader_url = Some u) ∧
      (changes e = true → leads_or_alone i = true ∧
         (enrolls e = true ∨ i_token i = "" ∨ presented r = Some (i_token i))).
Proof.
  intros Hh. destruct hops as [|h]; [lia|]. rewrite deliver_more. split; [done|]. simpl.
  destruct (net !! url) as [i|] eqn:Hi; [|done].
  assert (Hhere : ∀ j (r' : Request) e, serve j r' = Handled e → changes e = true → leads_or_alone j = true ∧
    (enrolls e = true ∨ i_token j = "" ∨ presented r' = Some (i_token j))).
  { intros j r' e Hs Hc. split; [|by apply writes_need_the_token]. revert Hs. unfold serve, forward_writes, leads_or_alone.
    destruct (i_fleet j) as [f|]; simpl; [|done].
    destruct (reads_only (rq_verb r') || negb (starts_with "/api/" (rq_path r' +:+ rq_query r')) || is_leader f) eqn:Eh.
    2:{ destruct (rq_forwarded r'); [done|]. destruct (leader_url f); [|done]. by destruct (_ <? _)%Z. }
    intros Hs. destruct (require_token _ _ _) as [a|] eqn:Er; simpl in Hs; [|done]. subst a.
    apply require_token_Some in Er as [Er _]. unfold answer_of in Er.
    destruct (route _ _) as [e'| |] eqn:Ero; try done. injection Er as <-.
    destruct (route_changes _ _ _ Ero Hc) as (Hro & Hapi & _). rewrite Hro in Eh.
    assert (starts_with "/api/" (rq_path r' +:+ rq_query r') = true) as Hq.
    { revert Hapi. generalize (rq_path r'), (rq_query r'), "/api/". intros p q. unfold starts_with. induction p as [|c p IH]; intros [|x pre]; simpl; try done.
      case_match; [|done]. apply IH. }
    by rewrite Hq in Eh. }
  destruct (serve i r) as [e| | | | | |l r'] eqn:Es; try (split; [done|]; intros u e' [= <- <-]; exists i; split; [done|]; split; [by left|by apply Hhere]);
    try (by split; [|intros u e']).
  destruct (serve_relay _ _ _ _ Es) as (Hl & Hlead & _ & _ & Hf & Ha & _).
  destruct (net !! l) as [j|] eqn:Hj; [|done].
  destruct (serve j r') as [e| | | | | |l2 r2] eqn:Es2; try (by split; [|intros u e']).
  - split; [done|]. intros u e' [= <- <-]. exists j. split; [done|]. split; [by right; exists i|]. intros Hc.
    assert (presented r' = presented r) as <- by (unfold presented; by rewrite Ha). by apply Hhere.
  - apply serve_relay in Es2 as (_ & _ & Hn & _). congruence.
Qed.

(** A token with space around it lets no guarded request through: the
    presented one is trimmed before it is compared. *)
Lemma spaced_token_locks_out {A} tok r (next : A) :
  (∀ s, trim s ≠ tok) → tok ≠ "" → guarded (rq_verb r) (rq_path r) = true → require_token tok r next = None.
Proof.
  intros Ht Hne Hg. destruct (require_token tok r next) as [a|] eqn:E; [|done].
  apply require_token_Some in E as [_ [?|[?|Hp]]]; [done|congruence|]. unfold presented in Hp.
  apply fmap_Some in Hp as (t & _ & Hp). by destruct (Ht t).
Qed.

(** ** An example: a follower and its leader *)

Section examples.
Let fleet_of (r : StoreRole) (l : string) : Fleet :=
  MkFleet (App_new FedState_default (Some true))
    (StoreStatus_default <| role := r |> <| leader := Some (MkLeaderInfo "b" l) |>) ∅ 0.
Let net : gmap string Instance_ :=
  {["http://a" := MkInstance (Some (fleet_of RFollower "http://b")) "s3cret";
    "http://b" := MkInstance (Some (fleet_of RLeader "http://b")) "s3cret"]}.
Let delete_db (auth : option string) : Request := MkRequest VDelete "/api/v1/volumes/db" "" auth false 0.

Example delete_at_the_leader :
  deliver 1 net "http://a" (delete_db (Some "Bearer s3cret")) = Answered "http://b" (Handled DeleteVolume) ∧
  deliver 1 net "http://a" (delete_db None) = Answered "http://b" Unauthorized ∧
  deliver 1 net "http://a" (MkRequest VGet "/api/v1/volumes/db" "" None false 0) = Answered "http://a" (Handled GetVolume) ∧
  deliver 1 net "http://a" (MkRequest VPost "/api/v1/storage/register" "" None false 0) = Answered "http://b" (Handled RegisterNode).
Proof. by vm_compute. Qed.

Lemma writes_need_the_token_witness :
  let b := MkInstance (Some (fleet_of RLeader "http://b")) "s3cret" in
  let r := delete_db (Some "Bearer  s3cret ") in
  serve b r = Handled DeleteVolume ∧ (enrolls DeleteVolume = true ∨ i_token b = "" ∨ presented r = Some (i_token b)).
Proof.
  split; [by vm_compute|].
  apply (proj1 (writes_need_the_token (MkInstance (Some (fleet_of RLeader "http://b")) "s3cret")
    (delete_db (Some "Bearer  s3cret ")) DeleteVolume)); by vm_compute.
Defined.
Lemma request_handled_once_witness :
  deliver 7 net "http://a" (delete_db (Some "Bearer s3cret")) = deliver 1 net "http://a" (delete_db (Some "Bearer s3cret")).
Proof. apply (request_handled_once net "http://a" (delete_db (Some "Bearer s3cret")) 7). lia. Defined.
End examples.
