(* ===== verification/Views.v ===== *)
(** * What the API answers (src/api/mod.rs, the views; src/api/backups.rs and src/api/vmmigrations.rs, the listings)

    The status and body of every refusal, the handlers that only hand a call
    on, and the readings of the state: nodes, topology, pools, volumes,
    events, the summary. Bodies are built with the JSON interface ([Json]);
    the derived form of a record is [ToJson]; a websocket is the messages
    sent to it. Shown: a refusal has the status
    and code its kind has; what the pools listing, the summary and the
    components feed say of the same nodes agrees; a push from a peer is
    refused by an instance with a fleet store. *)

From S2P Require Import Prelude F64 Config Model Placement Events Refusal Async Json Inventory Kube Sync.
From S2P Require Import Recovery App Engine Publish Replace Head Promote Replicate Base64 Records Store Rebalance Expand.
From S2P Require Import VmMigrate StateFile Components.
From stdpp Require Import options.

Local Open Scope string_scope.

(** ** Errors *)

Definition api_status (e : ApiError) : Z :=
  match e with
  | ApiNotFound _ => 404 | ApiBadRequest _ => 400 | ApiConflict _ => 409 | ApiNotImplemented _ => 501 | ApiUpstream _ => 502
  end.
Definition api_code (e : ApiError) : string :=
  match e with
  | ApiNotFound _ => "not_found" | ApiBadRequest _ => "bad_request" | ApiConflict _ => "conflict"
  | ApiNotImplemented _ => "not_implemented" | ApiUpstream _ => "engine"
  end.
Definition api_message (e : ApiError) : string :=
  match e with ApiNotFound m | ApiBadRequest m | ApiConflict m | ApiNotImplemented m | ApiUpstream m => m end.

(** The derived JSON of a record. *)
Class ToJson (J A : Type) := to_value : A → J.

Section views.
Context {J : Type} `{Json J}.
Definition obj (l : list (string * J)) : J := of_object l.
Definition arr {A} (f : A → J) (l : list A) : J := of_array (map f l).
Definition opt {A} (f : A → J) (o : option A) : J := match o with Some a => f a | None => j_null end.
Definition nat_json (n : nat) : J := of_num (Z.of_nat n).

(** [IntoResponse for ApiError]: status and body. *)
Definition error_response (e : ApiError) : Z * J :=
  (api_status e, obj [("error", of_str (api_message e)); ("code", of_str (api_code e))]).

(** [refusal]: /v1's envelope. *)
Definition refusal_kind (r : Sync.Refusal) : Z * string * option Z :=
  match r with
  | NotFound _ => (404, "not_found", None)
  | StaleEpoch c => (412, "stale_epoch", Some c)
  | Conflict _ => (409, "conflict", None)
  | Upstream _ => (502, "engine", None)
  end%Z.
Definition refusal (r : Sync.Refusal) : Z * J :=
  let '(status, code, current) := refusal_kind r in
  let msg := of_str (Refusal_show r) in
  (status, obj ([("error", msg); ("message", msg); ("code", of_str code)]
    ++ match current with Some c => [("current_epoch", of_num c)] | None => [] end)).
(** The answer of a replication handler. *)
Definition respond {A} (f : A → J) (r : result A Sync.Refusal) : Z * J :=
  match r with Ok a => (200%Z, f a) | Err e => refusal e end.

Context `{!ToJson J NodeStatus} `{!ToJson J (gmap string string)} `{!ToJson J NodeInventory} `{!ToJson J View}.
Context `{!ToJson J DriveRef} `{!ToJson J RMove} `{!ToJson J Backup} `{!ToJson J VmMigration} `{!ToJson J Orphan}.
Context `{!ToJson J StaleHead} `{!ToJson J Event} `{!ToJson J StoreStatus} `{!ToJson J DualAttach} `{!ToJson J RaidProfile}.
Context `{!ToJson J BandwidthClass} `{!ToJson J Expansion} `{!ToJson J f64} `{!ToJson J Replica} `{!ToJson J Health}.
Context `{!ToJson J SyncSource} `{!ToJson J Payload} `{!ToJson J RateApplied} `{!ToJson J LeaderInfo} `{!ToJson J PublishStatus}.
(** [put_key] is serde_json's assignment to a key of a value. *)
Context (time_json : time → J) (version : string) (put_key : string → J → J → J).

(** ** The handlers that hand a call on *)

Section calls.
Context `{HttpShow} `{Deserialize J EngineVolume} (cfg : Config).
Context (engine_token : NodeConfig → option string) (admin_credential : string → option string).

Definition fence_json (f : Fenced) : J :=
  obj [("epoch", of_num (f_epoch f));
       ("legs_fenced", arr (λ '(n, e), obj [("node", of_str n); ("epoch", of_num e)]) (f_legs f));
       ("legs_not_fenced", arr (λ '(n, e), obj [("node", of_str n); ("error", of_str e)]) (not_fenced f))].
Definition fence_volume (nm : string) (expected_epoch : Z) : handler J (Z * J) :=
  let! r := fence engine_token admin_credential nm expected_epoch in Ret (respond fence_json r).
Definition promote_volume (nm target_node : string) (fenced_epoch : Z) : handler J (Z * J) :=
  let! r := promote cfg engine_token admin_credential nm target_node fenced_epoch in Ret (respond (opt to_value) r).
Definition prestage_volume (fuel : nat) (nm : string) (body : option (option string * option string * option BandwidthClass))
    : handler J (Z * J) :=
  let '(node, from, class) := unwrap_or (None, None, None) body in
  let! r := prestage cfg engine_token admin_credential fuel nm node from class in
  Ret (respond (λ '(from, to, c), obj [("replacing", of_str from); ("to", of_str to); ("bandwidth_class", to_value c)]) r).
Definition put_bandwidth_class (nm : string) (class : BandwidthClass) : handler J (Z * J) :=
  let! r := set_bandwidth_class cfg engine_token admin_credential nm class in
  Ret (respond (λ '(v, rate), put_key "rebuild_cap" (opt to_value rate) (opt to_value v)) r).
Definition expand_volume (nm : string) (size_bytes : Z) : handler J (Z * J) :=
  let! r := expand engine_token admin_credential nm size_bytes in Ret (respond (opt to_value) r).
Definition open_dual_attach (nm target : string) (ttl_secs : Z) : handler J (Z * J) :=
  let! r := open_window cfg nm target ttl_secs in
  Ret (respond (λ w, obj [("volume_id", of_str nm); ("epoch", of_num (da_epoch w)); ("target_node", of_str (target_node w));
                          ("expires_at_ms", of_num (expires_at w / 10 ^ 6)%Z)]) r).
Definition close_dual_attach (nm : string) (epoch_ : Z) (outcome : Head.Outcome) : handler J (Z * J) :=
  let! r := close_window cfg engine_token admin_credential nm epoch_ outcome in Ret (respond (opt to_value) r).

(** [receive_replication]. *)
Definition receive_replication (payload : Payload) : handler J (result J ApiError) :=
  let! stored := reads store_leads in
  if is_some stored then
    Ret (Err (ApiConflict ("this instance keeps its state in the fleet etcd ([store] backend = "
      +:+ debug_str "etcd" +:+ "); peer replication is off")))
  else
    let! applied := apply payload in
    let! local := reads (λ s, revision (fed s)) in
    Ret (Ok (obj [("applied", of_bool applied); ("incoming", of_num (pl_revision payload)); ("revision", of_num local)])).

(** ** Readings *)

Definition replication_status (s : App) : J :=
  obj [("revision", of_num (revision (fed s))); ("peers", arr of_str (peers cfg))].
Definition node_row (n : Node) : J :=
  obj [("name", of_str (nc_name (config n))); ("engine_url", of_str (nc_engine_url (config n)));
       ("tier", opt of_str (nc_tier (config n))); ("labels", to_value (labels n)); ("status", to_value (status n))].
Definition list_nodes (s : App) : J := obj [("nodes", arr node_row (bt_values (nodes (fed s))))].
Definition chain_of (n : Node) : list (string * string) :=
  omap (λ r, (λ v, (r, v)) <$> labels n !! r) (rungs cfg).
Definition topology (s : App) : J :=
  obj [("rungs", arr of_str (rungs cfg));
       ("nodes", arr (λ n, obj [("name", of_str (nc_name (config n)));
                                ("chain", arr (λ '(r, v), obj [("rung", of_str r); ("value", of_str v)]) (chain_of n));
                                ("tier", opt of_str (nc_tier (config n)));
                                ("healthy", of_bool (healthy (status n)))]) (bt_values (nodes (fed s))))].

(** [pool_rollup]: one pass over the nodes, counting as it goes. *)
Record Rollup := MkRollup {
  ru_total : Z; ru_free : Z; ru_matched : Z; ru_healthy : Z; ru_names : list string
}.
Definition rollup_step (p : PoolConfig) (r : Rollup) (n : Node) : Rollup :=
  if matches (pool_selector p) (config n) then
    let up := healthy (status n) in
    {| ru_total := if up then u64_add (ru_total r) (total_bytes (status n)) else ru_total r;
       ru_free := if up then u64_add (ru_free r) (free_bytes (status n)) else ru_free r;
       ru_matched := u32_add (ru_matched r) 1;
       ru_healthy := if up then u32_add (ru_healthy r) 1 else ru_healthy r;
       ru_names := ru_names r ++ [nc_name (config n)] |}
  else r.
Definition pool_counts (p : PoolConfig) (fd : FedState) : Rollup :=
  foldl (rollup_step p) (MkRollup 0 0 0 0 []) (bt_values (nodes fd)).
Definition pool_rollup (p : PoolConfig) (fd : FedState) : J :=
  let r := pool_counts p fd in
  obj [("name", of_str (pool_name p)); ("kind", of_str "policy"); ("replicas", of_num (pool_replicas p));
       ("rung", of_str (pool_rung p)); ("nodes", arr of_str (ru_names r)); ("matched", of_num (ru_matched r));
       ("healthy", of_num (ru_healthy r)); ("total_bytes", of_num (ru_total r)); ("free_bytes", of_num (ru_free r))].
Definition slab_row (node : string) (ni : NodeInventory) (s : Slab) : J :=
  obj [("name", of_str (node +:+ "/" +:+ slab_id s)); ("kind", of_str "slab"); ("node", of_str node);
       ("slab", of_str (slab_id s)); ("tier", of_str (slab_tier s)); ("role", of_str (slab_role s));
       ("domain", of_str (slab_domain s)); ("drive", opt to_value (slab_drive s));
       ("total_bytes", of_num (slab_total_bytes s)); ("free_bytes", of_num (slab_free_bytes s));
       ("allocated_bytes", of_num (allocated_bytes s)); ("volumes", nat_json (length (volumes_on ni (slab_id s))))].
Definition tier_row (t : TierRollup) : J :=
  obj [("name", of_str ("tier:" +:+ tr_tier t)); ("kind", of_str "tier"); ("tier", of_str (tr_tier t));
       ("nodes", arr of_str (tr_nodes t)); ("slabs", arr of_str (tr_slabs t));
       ("total_bytes", of_num (tr_total_bytes t)); ("free_bytes", of_num (tr_free_bytes t));
       ("allocated_bytes", of_num (tr_allocated_bytes t)); ("volumes", of_num (tr_volumes t))].
Definition list_pools (s : App) : J :=
  obj [("pools", of_array (map (λ p, pool_rollup p (fed s)) (pools cfg)
    ++ concat (map (λ '(node, ni), map (slab_row node ni) (inv_slabs ni)) (bt_list (inventory s)))
    ++ map tier_row (tiers (inventory s))))].
Definition pool_rebalance `{FloatShow} (nm : string) : handler J (result J ApiError) :=
  match pool (pools cfg) nm with
  | None => Ret (Err (ApiNotFound ("pool " +:+ debug_str nm)))
  | Some p =>
      let! now := invoke Now in
      let! plan := reads (λ s, rebalance_plan (fed s) (rungs cfg) (io_weight cfg) (App.busy s) now [p]) in
      Ret (Ok (obj [("pool", of_str nm); ("enabled", of_bool (is_some (high_watermark p) && is_some (low_watermark p)));
        ("high_watermark", opt to_value (high_watermark p)); ("low_watermark", opt to_value (low_watermark p));
        ("max_moves", of_num (max_moves p)); ("moves", arr to_value (moves plan));
        ("held", arr of_str (map held_why (held plan)))]))
  end.
Definition node_inventory (s : App) (nm : string) : result J ApiError :=
  match nodes (fed s) !! nm with
  | None => Err (ApiNotFound ("node " +:+ debug_str nm))
  | Some _ => Ok (to_value (unwrap_or NodeInventory_default (inventory s !! nm)))
  end.

Definition list_volumes (s : App) : J :=
  obj [("volumes", arr (λ v, to_value (view_in (fed s) (heads s) v)) (bt_values (volumes (fed s))))].
Definition get_volume (s : App) (nm : string) : result J ApiError :=
  let? v := ok_or (volumes (fed s) !! nm) (ApiNotFound ("volume " +:+ debug_str nm)) in
  Ok (to_value (view_in (fed s) (heads s) v)).
Definition volume_replicas (s : App) (nm : string) : Z * J :=
  match volumes (fed s) !! nm with
  | None => refusal (NotFound ("volume " +:+ debug_str nm))
  | Some v =>
      let reading := heads s !! nm in
      let reps := Sync.replicas v reading in
      (200%Z, obj [("id", of_str (name v)); ("name", of_str (name v)); ("size_bytes", of_num (size_bytes v));
        ("epoch", of_num (epoch v)); ("fenced", of_bool (fenced v)); ("health", to_value (health v reps));
        ("raid", to_value (RaidProfile_of v)); ("replicas", arr to_value reps);
        ("bandwidth_class", to_value (bandwidth_class v)); ("extent_size_bytes", opt of_num (extent_size_bytes v));
        ("expanding", opt to_value (expanding v)); ("head", opt of_str (Model.head v));
        ("dual_attach", opt to_value (dual_attach v)); ("sync_read_at", opt time_json (read_at <$> reading));
        ("sync_source", opt to_value (ar_source <$> reading)); ("head_read_at", opt time_json (reading ≫= head_read_at));
        ("rebuild_bytes_per_sec", opt of_num (reading ≫= rebuild_bytes_per_sec))])
  end.
Definition list_stale_heads (s : App) : J := obj [("stale_heads", arr to_value (stale_heads (fed s)))].
Definition list_orphans (s : App) : J := obj [("orphans", arr to_value (orphans (fed s)))].
Definition list_events (s : App) (since_ : Z) : J :=
  obj [("latest_seq", of_num (latest_seq (events s))); ("events", arr to_value (Events.since (events s) since_))].

(** [src/api/backups.rs] and [src/api/vmmigrations.rs]. *)
Definition get_backup (s : App) (nm : string) : result Backup ApiError :=
  ok_or (backups (fed s) !! nm) (ApiNotFound ("no backups of " +:+ debug_str nm)).
Definition list_backups (s : App) : J := obj [("backups", arr to_value (bt_values (backups (fed s))))].
(** [v[target] = ...]. *)
Definition vm_view (m : VmMigration) : J :=
  put_key "target" (obj [("node", of_str (vm_target_node m)); ("name", of_str (target_name m));
                         ("id", opt of_str (target_local_id m))]) (to_value m).
Definition vm_list (s : App) : J := obj [("migrations", arr vm_view (bt_values (vm_migrations (fed s))))].
Definition vm_get (id : string) : handler J (result J ApiError) :=
  let! m := reads (λ s, vm_migrations (fed s) !! id) in
  match m with
  | None => Ret (Err (ApiNotFound ("migration " +:+ debug_str id)))
  | Some m => let! now := live engine_token admin_credential m in Ret (Ok (vm_view now))
  end.

(** *** Health, the store, the summary *)

Definition role_text (r : StoreRole) : string :=
  match r with RStarting => "starting" | RLeader => "leader" | RFollower => "follower" end.
Definition health_view (rec : option StateRecovery) (store : option StoreStatus) : J :=
  obj ([("status", of_str "ok"); ("version", of_str version)]
    ++ match conditions time_json rec store with [] => [] | c => [("conditions", of_array c)] end
    ++ match store with
       | Some st => [("store", obj [("backend", of_str "etcd"); ("role", of_str (role_text (role st)));
                                    ("leader", opt to_value (leader st)); ("publish", opt to_value (publish_ st))])]
       | None => []
       end).
Definition store_status (rec : option StateRecovery) (path : option string) (sp : StoreParams) (f : option Fleet) : J :=
  match f with
  | None => obj [("backend", of_str "file"); ("path", opt of_str path); ("leads", of_bool true);
                 ("conditions", of_array (conditions time_json rec None))]
  | Some f => obj [("backend", of_str "etcd"); ("endpoints", arr of_str (endpoints sp)); ("prefix", of_str (sprefix sp));
                   ("instance", of_str (instance_name sp)); ("advertise_url", of_str (advertise_url sp));
                   ("lease_ttl_secs", of_num (ttl sp)); ("leads", of_bool (is_leader f)); ("status", to_value (sstatus f))]
  end.

Context `{FloatText}.
(** [human]: divided by 1024 while it is at least that, up to PiB. *)
Fixpoint scale_units (v : f64) (u : string) (rest : list string) : f64 * string :=
  match rest with
  | [] => (v, u)
  | u' :: rest => if fle (of_u64 1024) v then scale_units (fdiv v (of_u64 1024)) u' rest else (v, u)
  end.
Definition human (b : Z) : string :=
  let '(v, u) := scale_units (of_u64 b) "B" ["KiB"; "MiB"; "GiB"; "TiB"; "PiB"] in
  if u == "B" then pretty b +:+ " B" else fixed 1 v +:+ " " +:+ u.

Definition summary_health (fd : FedState) : string :=
  let all := bt_values (nodes fd) in
  let total := length all in
  let up := length (healthy_nodes all) in
  let degraded := length (List.filter (λ v, assembly v == Degraded) (bt_values (volumes fd))) in
  if (total =? 0)%nat then "idle"
  else if (up <? total)%nat then (if (up =? 0)%nat then "error" else "warn")
  else if (0 <? degraded)%nat then "warn" else "ok".
Definition summary (s : App) : J :=
  let fd := fed s in
  let all := bt_values (nodes fd) in
  let total := length all in
  let up := length (healthy_nodes all) in
  let free := sum_of (λ n, free_bytes (status n)) (healthy_nodes all) in
  let cap_ := sum_of (λ n, total_bytes (status n)) (healthy_nodes all) in
  let vols := bt_values (volumes fd) in
  let engine_volumes := sum_list_with (λ i, length (inv_volumes i)) (bt_values (inventory s)) in
  let slabs_ := sum_list_with (λ i, length (inv_slabs i)) (bt_values (inventory s)) in
  let pending_ := length (List.filter (λ v, assembly v == PendingEngineSupport) vols) in
  let degraded := length (List.filter (λ v, assembly v == Degraded) vols) in
  let metric_ l v := [("label", of_str l); ("value", of_str v)] in
  let nodes_ := count up +:+ "/" +:+ count total in
  obj [("health", of_str (summary_health fd));
       ("detail", of_str (nodes_ +:+ " nodes, " +:+ count slabs_ +:+ " slab pools, " +:+ count engine_volumes
          +:+ " node volumes, " +:+ count (length vols) +:+ " distributed (" +:+ count pending_ +:+ " pending assembly, "
          +:+ count degraded +:+ " degraded), " +:+ human free +:+ " free"));
       ("metrics", of_array [
          obj (metric_ "Nodes" nodes_ ++ [("tone", of_str (if (up <? total)%nat then "warn" else "ok"))]);
          obj (metric_ "Pools" (count slabs_));
          obj (metric_ "Volumes" (count engine_volumes) ++ [("tone", of_str "accent")]);
          obj (metric_ "Distributed" (count (length vols)));
          obj (metric_ "Free" (human free));
          obj (metric_ "Capacity" (human cap_) ++ [("tone", of_str "muted")])])].
End calls.

(** [components_feed]. *)
Definition components_feed `{Stormview, FloatText, ToJson J (list ComponentSummary)} (cfg : Config) (s : App) : J :=
  to_value (Components.collect cfg s).
End views.

(** [ws_components]: each round's feed as text and whether a message sent
    then would arrive; the messages sent. The loop ends at one that fails. *)
Fixpoint ws_components (last : string) (rounds : list (string * bool)) : list string :=
  match rounds with
  | [] => []
  | (json, up) :: rounds =>
      if json != last then json :: (if up then ws_components json rounds else [])
      else ws_components last rounds
  end.

(** ** Facts *)

(** A stale epoch is the only refusal that names the epoch, as a 412. *)
Lemma refusal_stale (r : Sync.Refusal) :
  (refusal_kind r).1.1 = 412%Z ↔ ∃ c, r = StaleEpoch c ∧ refusal_kind r = (412%Z, "stale_epoch", Some c).
Proof.
  destruct r as [m|c|m|m]; simpl; split; intros Hr; try done; try by destruct Hr as (c' & [=] & _).
  by exists c.
Qed.

(** A push is refused by an instance with a fleet store, and changes
    nothing there. *)
Lemma pushes_refused {J} `{Json J} (p : Payload) (s : App) :
  is_Some (store_leads s) →
  alone (receive_replication p) (λ r s', s' = s ∧ ∃ m, r = Err (ApiConflict m)) s.
Proof.
  intros [l Hl]. apply wp_bind. intros s' <-. split; [done|]. simpl. rewrite Hl. simpl. split; [done|]. by eexists.
Qed.

Lemma sum_of_snoc f l n : sum_of f (l ++ [n]) = u64_add (sum_of f l) (f n).
Proof. unfold sum_of. rewrite map_app. simpl. by rewrite foldl_snoc. Qed.
Lemma as_u32_succ n : u32_add (as_u32 (Z.of_nat n)) 1 = as_u32 (Z.of_nat (S n)).
Proof. unfold u32_add, as_u32. rewrite Zplus_mod_idemp_l. f_equal. lia. Qed.
Lemma healthy_nodes_snoc l n :
  healthy_nodes (l ++ [n]) = (healthy_nodes l ++ if healthy (status n) then [n] else [])%list.
Proof. unfold healthy_nodes. rewrite List.filter_app. simpl. by destruct (healthy (status n)). Qed.

Definition rollup_of (ms : list Node) : Rollup :=
  let up := healthy_nodes ms in
  {| ru_total := sum_of (λ n, total_bytes (status n)) up; ru_free := sum_of (λ n, free_bytes (status n)) up;
     ru_matched := as_u32 (Z.of_nat (length ms)); ru_healthy := as_u32 (Z.of_nat (length up));
     ru_names := map (λ n, nc_name (config n)) ms |}.
Lemma rollup_step_of p ms n :
  rollup_step p (rollup_of ms) n = rollup_of (ms ++ if matches (pool_selector p) (config n) then [n] else []).
Proof.
  unfold rollup_step. destruct (matches _ _); [|by rewrite app_nil_r].
  unfold rollup_of. rewrite healthy_nodes_snoc, map_app. destruct (healthy (status n)); simpl.
  - by rewrite !sum_of_snoc, !length_app, !Nat.add_1_r, !as_u32_succ.
  - by rewrite app_nil_r, !length_app, !Nat.add_1_r, !as_u32_succ.
Qed.

(** What the readings of the API say of the same nodes agrees: the one
    pass of the pools listing counts, names and sums exactly the members the
    components feed lists for the pool, those that answer apart; the summary
    is idle or in error exactly when the feed's system is, and when the
    summary is ok the feed is. *)
Theorem views_agree (p : PoolConfig) (fd : FedState) :
  pool_counts p fd = rollup_of (pool_members p fd) ∧
  let all := bt_values (nodes fd) in
  let feed := rollup_health HIdle (length all) (length (healthy_nodes all)) in
  (summary_health fd = "idle" ↔ feed = HIdle) ∧ (summary_health fd = "error" ↔ feed = HError) ∧
  (feed = HWarn → summary_health fd = "warn") ∧ (summary_health fd = "ok" → feed = HOk).
Proof.
  split.
  - unfold pool_counts, pool_members. change (MkRollup 0 0 0 0 []) with (rollup_of []).
    change (rollup_of (List.filter ?f ?l)) with (rollup_of ([] ++ List.filter f l)). generalize (@nil Node) as ms.
    induction (bt_values (nodes fd)) as [|n l IH]; intros ms; simpl; [by rewrite app_nil_r|].
    rewrite rollup_step_of, IH, <-app_assoc. by destruct (matches _ _).
  - unfold rollup_health, summary_health. set (all := bt_values (nodes fd)).
    destruct (length all =? 0)%nat eqn:E0; [by repeat split|].
    destruct (length (healthy_nodes all) =? 0)%nat eqn:Eu.
    + apply Nat.eqb_eq in Eu. rewrite Eu. apply Nat.eqb_neq in E0.
      rewrite (proj2 (Nat.ltb_lt 0 (length all))) by lia. by repeat split.
    + destruct (_ <? length all)%nat; [by repeat split|]. by destruct (0 <? _)%nat; repeat split.
Qed.

Lemma last_cons_default {A} (l : list A) (x d : A) : List.last (x :: l) d = List.last l x.
Proof. revert x d. induction l as [|y l IH]; intros x d; [done|].
  change (List.last (y :: l) d = List.last (y :: l) x). by rewrite !IH.
Qed.
(** A console that got every message shows the feed of the last round, and
    no message repeats the one before. *)
Lemma ws_components_current rounds last :
  Forall (λ r, r.2 = true) rounds →
  List.last (ws_components last rounds) last = List.last rounds.*1 last
  ∧ ∀ i a b, (last :: ws_components last rounds) !! i = Some a → (last :: ws_components last rounds) !! S i = Some b → a ≠ b.
Proof.
  revert last. induction rounds as [|[json up] rounds IH]; intros last Hup.
  { split; [done|]. by intros [|i] a b _ Hb. }
  apply Forall_cons in Hup as [Hu Hup]. simpl in Hu. subst up.
  change (((json, true) :: rounds).*1) with (json :: rounds.*1). rewrite last_cons_default. simpl.
  unfold eqb. case_bool_decide as E; cbn [negb].
  - subst json. by apply IH.
  - destruct (IH json Hup) as [Hl Hd]. rewrite last_cons_default. split; [exact Hl|].
    intros [|i] a b; [|apply Hd]. simpl. by intros [= <-] [= <-].
Qed.

(** [human] on the boundaries of its units. *)
Example human_units :
  let text : FloatText := {| fixed _ _ := "n" |} in
  map human [0; 1023; 1024; 2 ^ 20; 2 ^ 50; 2 ^ 64 - 1]%Z = ["0 B"; "1023 B"; "n KiB"; "n MiB"; "n PiB"; "n PiB"].
Proof. by vm_compute. Qed.
