(* ===== verification/Connections.v ===== *)
(** * The clients of the service and their certificates (src/engine.rs,
    src/store.rs, src/kube.rs)

    [is_plain], [read_ca], [client_for], [note_ca_problem] and [Engine::new]
    of engine.rs; [tls_stamp], [Etcd::new], [refresh_tls] and [client] of
    store.rs; [client] of kube.rs; [advertise_addr] of store.rs. The files
    are read one after the other while others write them: a function here
    takes the files as they are at every moment and the moment it starts at,
    and each of its accesses is one moment later. The TLS library is an
    interface: it parses certificates and identities, and says when a client
    cannot be built and to which server a client sends.

    Shown: an https engine is sent nothing unless a certificate of its own CA
    file verifies it, a redirect included, and a client is always made; the
    client of the store is the one of the files it has, one round after they
    stop changing, when they did not change while the service started; the
    address published is one other nodes can reach. *)

From S2P Require Import Prelude Config Model App Settings.
From stdpp Require Import options.

Local Open Scope string_scope.

(** ** The files *)

Abbreviation bytes := (list Z).
(** What [metadata] and [read] say of a path: its modification time and
    length, its content or why it cannot be read. *)
Record FileEntry := MkFileEntry { f_meta : option (Z * Z); f_data : result bytes string }.
Abbreviation Files := (string → FileEntry).

(** A computation that reads files, one moment for each access. *)
Definition reading (A : Type) : Type := (nat → Files) → nat → A * nat.
Definition pure {A} (a : A) : reading A := λ _ t, (a, t).
Definition and_then {A B} (m : reading A) (k : A → reading B) : reading B :=
  λ fs t, let '(a, t) := m fs t in k a fs t.
Notation "'let@' x := m 'in' k" := (and_then m (λ x, k))
  (at level 10, x pattern, m at level 200, k at level 200) : storm_scope.
Definition fs_read (path : string) : reading (result bytes string) := λ fs t, (f_data (fs t path), S t).
Definition fs_meta (path : string) : reading (option (Z * Z)) := λ fs t, (f_meta (fs t path), S t).

(** ** The TLS library *)

Record ClientConfig (Certificate Identity : Type) := MkClientConfig {
  timeout : option Z;
  connect_timeout : option Z;
  built_in_roots : bool;
  roots : list Certificate;
  accept_invalid : bool;
  https_only : bool;
  identity : option Identity;
}.
Arguments MkClientConfig {_ _}.
Arguments timeout {_ _}.
Arguments connect_timeout {_ _}.
Arguments built_in_roots {_ _}.
Arguments roots {_ _}.
Arguments accept_invalid {_ _}.
Arguments https_only {_ _}.
Arguments identity {_ _}.
#[export] Instance ClientConfig_eta Certificate Identity : Eta (ClientConfig Certificate Identity) := λ r,
  MkClientConfig (timeout r) (connect_timeout r) (built_in_roots r) (roots r) (accept_invalid r) (https_only r) (identity r).

(** What the library makes of files, and why it builds no client. *)
Class Tls (Certificate Identity : Type) := {
  from_pem_bundle : bytes → result (list Certificate) string;
  from_pem : bytes → result Identity string;
  build_error : ClientConfig Certificate Identity → option string;
}.

Section clients.
Context {Certificate Identity : Type} `{Tls Certificate Identity}.
Local Abbreviation Client := (ClientConfig Certificate Identity).

(** [Client::builder()] and [build]. *)
Definition builder : Client :=
  {| timeout := None; connect_timeout := None; built_in_roots := true; roots := []; accept_invalid := false;
     https_only := false; identity := None |}.
Definition build (b : Client) : result Client string :=
  match build_error b with Some e => Err e | None => Ok b end.
Definition add_root_certificate (b : Client) (c : Certificate) : Client := b <| roots ::= λ rs, (rs ++ [c])%list |>.

(** ** Engines (src/engine.rs) *)

Definition READ_TIMEOUT : Z := secs 5.
Definition MUTATE_TIMEOUT : Z := secs 300.

Definition is_plain (u : string) : bool := eq_ignore_ascii_case (String.substring 0 7 u) "http://".

Definition read_ca (ca_file : option string) : reading (result (list Certificate) string) :=
  match ca_file with
  | None => pure (Err "no CA configured ([engine_tls] ca_file)")
  | Some path =>
      let why := λ e, "CA file " +:+ path +:+ ": " +:+ e in
      let@ pem := fs_read path in
      pure (let? pem := map_err why pem in
            let? certs := map_err why (from_pem_bundle pem) in
            match certs with
            | [] => Err ("CA file " +:+ path +:+ ": no certificate in it")
            | _ => Ok certs
            end)
  end.

(** The problems already reported, by URL, and the warnings logged. *)
Record CaNotes := MkCaNotes { seen : gmap string string; warned : list (string * string) }.
Definition note_ca_problem (u : string) (problem : option string) (n : CaNotes) : CaNotes :=
  match problem with
  | None => {| seen := delete u (seen n); warned := warned n |}
  | Some p =>
      if seen n !! u == Some p then n
      else {| seen := <[u := p]> (seen n); warned := (warned n ++ [(u, p)])%list |}
  end.

Definition plain_builder : Client := builder <| timeout := Some READ_TIMEOUT |>.
Definition verifying_builder : Client := plain_builder <| built_in_roots := false |> <| https_only := true |>.
(** [None] is a panic of [expect]. *)
Definition expect (r : result Client string) : option Client := match r with Ok c => Some c | Err _ => None end.
Definition client_for (u : string) (ca_file : option string) (n : CaNotes) : reading (option Client * CaNotes) :=
  if is_plain u then pure (expect (build plain_builder), n)
  else
    let@ certs := read_ca ca_file in
    let built := (let? certs := certs in
                  map_err (λ e, "CA file " +:+ unwrap_or "" ca_file +:+ ": " +:+ e)
                    (build (foldl add_root_certificate verifying_builder certs))) in
    pure (match built with
          | Ok c => (Some c, note_ca_problem u None n)
          | Err e => (expect (build verifying_builder), note_ca_problem u (Some e) n)
          end).
(** [Engine::new]: the client, and the base URL and token of [App.Engine]. *)
Definition Engine_new (u : string) (tok : option string) (ca_file : option string) (n : CaNotes) :
    reading (option (Client * Engine) * CaNotes) :=
  let u := trim_end_matches slash u in
  let@ r := client_for u ca_file n in
  pure ((λ http, (http, {| url := u; token := tok; admin := None |})) <$> r.1, r.2).

(** ** The fleet store (src/store.rs) *)

Abbreviation TlsStamp := (list (option (Z * Z))).
(** The files of the configuration, those that are set. *)
Definition tls_files (cfg : StoreConfig) : list string :=
  (option_list (sc_ca_file cfg) ++ option_list (sc_cert_file cfg) ++ option_list (sc_key_file cfg))%list.
Fixpoint stamps (files : list string) : reading TlsStamp :=
  match files with
  | [] => pure []
  | f :: files => let@ m := fs_meta f in let@ ms := stamps files in pure (m :: ms)
  end.
Definition tls_stamp (cfg : StoreConfig) : reading TlsStamp := stamps (tls_files cfg).

Definition newline : Z := 10.
Definition with_ca (cfg : StoreConfig) (b : Client) : reading (result Client string) :=
  match sc_ca_file cfg with
  | None => pure (Ok b)
  | Some ca =>
      let@ pem := fs_read ca in
      pure (let? pem := map_err (λ e, "store.ca_file " +:+ ca +:+ ": " +:+ e) pem in
            let? certs := from_pem_bundle pem in
            Ok (foldl add_root_certificate b certs))
  end.
Definition with_identity (cfg : StoreConfig) (b : Client) : reading (result Client string) :=
  match sc_cert_file cfg, sc_key_file cfg with
  | Some c, Some k =>
      let@ cert := fs_read c in
      match cert with
      | Err e => pure (Err ("store.cert_file " +:+ c +:+ ": " +:+ e))
      | Ok cert =>
          let@ key := fs_read k in
          pure (let? key := map_err (λ e, "store.key_file " +:+ k +:+ ": " +:+ e) key in
                let? id := from_pem (cert ++ newline :: key)%list in
                Ok (b <| identity := Some id |>))
      end
  | _, _ => pure (Ok b)
  end.
(** [Etcd::client]. *)
Definition store_client (cfg : StoreConfig) : reading (result Client string) :=
  let@ b := with_ca cfg (builder <| timeout := Some (secs 5) |> <| connect_timeout := Some (secs 3) |>) in
  match b with
  | Err e => pure (Err e)
  | Ok b => let@ b := with_identity cfg b in pure (let? b := b in build b)
  end.

(** The pair under [Etcd::http]'s lock. *)
Record EtcdHttp := MkEtcdHttp { http : Client; stamp : TlsStamp }.
(** [Etcd::new]: the client first, then the stamp. *)
Definition Etcd_new (cfg : StoreConfig) : reading (result EtcdHttp string) :=
  let@ c := store_client cfg in
  match c with
  | Err e => pure (Err e)
  | Ok c => let@ st := tls_stamp cfg in pure (Ok {| http := c; stamp := st |})
  end.
Definition refresh_tls (cfg : StoreConfig) (e : EtcdHttp) : reading EtcdHttp :=
  let@ now := tls_stamp cfg in
  if stamp e == now then pure e
  else
    let@ c := store_client cfg in
    pure (match c with Ok c => {| http := c; stamp := now |} | Err _ => e end).

(** ** The apiserver (src/kube.rs) *)

Definition KUBE_TIMEOUT : Z := secs 5.
Definition kube_client (cfg : KubeConfig) : reading (result Client string) :=
  let b := builder <| timeout := Some KUBE_TIMEOUT |> <| accept_invalid := skip_tls_verify cfg |> in
  match opt_filter (λ p, trim p != "") (kc_ca_file cfg) with
  | None => pure (build b)
  | Some ca =>
      let@ pem := fs_read ca in
      pure (let? pem := map_err (λ e, "ca_file " +:+ ca +:+ ": " +:+ e) pem in
            let? certs := from_pem_bundle pem in
            build (foldl add_root_certificate b certs))
  end.
End clients.

(** ** The address other nodes reach (src/store.rs) *)

(** A parsed URL: its host as [host_str] gives it and its port, the
    scheme's where it has one. *)
Record Url := MkUrl { host_str : option string; port_or_default : option Z }.
Record Ip := MkIp { ip_text : string; is_loopback : bool; is_unspecified : bool }.
(** The URL and address parsers and the resolver. *)
Class Names := {
  url_parse : string → result Url string;
  ip_parse : string → option Ip;
  lookup_host : string → Z → result (list Ip) string;
}.

Definition is_bracket (c : Ascii.ascii) : bool := (Ascii.nat_of_ascii c =? 91)%nat || (Ascii.nat_of_ascii c =? 93)%nat.
Fixpoint drop_while {A} (p : A → bool) (l : list A) : list A :=
  match l with x :: l' => if p x then drop_while p l' else l | [] => [] end.
(** [trim_matches(['[', ']'])]. *)
Definition trim_brackets (s : string) : string :=
  String.string_of_list_ascii
    (rev (drop_while is_bracket (rev (drop_while is_bracket (String.list_ascii_of_string s))))).

Section address.
Context `{Names}.

Definition others_reach (ip : Ip) : bool := negb (is_loopback ip) && negb (is_unspecified ip).
Definition advertise_addr (advertised : string) : result (string * Z) string :=
  let? u := map_err (λ e, "advertise_url " +:+ debug_str advertised +:+ ": " +:+ e) (url_parse advertised) in
  let port := unwrap_or 9093%Z (port_or_default u) in
  let host := trim_brackets (unwrap_or "" (host_str u)) in
  let? ips := match ip_parse host with Some ip => Ok [ip] | None => lookup_host host port end in
  ok_or ((λ ip, (ip_text ip, port)) <$> find_first others_reach ips)
    ("advertise_url " +:+ debug_str advertised +:+ " is not an address other nodes can reach: set [store] advertise_url or $STORMSTORAGE_STORE_ADVERTISE_URL to this node's address").
End address.

(** ** Facts: what an engine's client sends to *)

Section engines.
Context {Certificate Identity : Type} `{Tls Certificate Identity}.
Local Abbreviation Client := (ClientConfig Certificate Identity).

Lemma add_roots_spec (certs : list Certificate) (b : Client) :
  let c := foldl add_root_certificate b certs in
  roots c = (roots b ++ certs)%list ∧ built_in_roots c = built_in_roots b ∧ https_only c = https_only b
  ∧ accept_invalid c = accept_invalid b ∧ identity c = identity b.
Proof.
  revert b. induction certs as [|x certs IH]; intros b; simpl.
  { by rewrite app_nil_r. }
  destruct (IH (add_root_certificate b x)) as (Hr & Hrest). split; [|exact Hrest]. rewrite Hr. unfold add_root_certificate. simpl. by rewrite <-app_assoc.
Qed.
Lemma build_Ok (b c : Client) : build b = Ok c → c = b.
Proof. unfold build. destruct (build_error b); [done|]. by intros [= ->]. Qed.
Lemma map_err_Ok {T E F} (f : E → F) (r : result T E) v : map_err f r = Ok v ↔ r = Ok v.
Proof. destruct r; simpl; split; by intros [= ->]. Qed.
Lemma bind_Ok {T U E} (r : result T E) (k : T → result U E) v : result_bind r k = Ok v ↔ ∃ x, r = Ok x ∧ k x = Ok v.
Proof. destruct r as [x|e]; simpl; split; [by exists x|by intros (? & [= ->] & ?)|done|by intros (? & ? & ?)]. Qed.

Lemma read_ca_Ok ca fs t certs t' :
  read_ca ca fs t = (Ok certs, t') →
  ∃ path data, ca = Some path ∧ f_data (fs t path) = Ok data ∧ from_pem_bundle data = Ok certs ∧ certs ≠ [].
Proof.
  destruct ca as [path|]; cbn; [|done]. intros [E _]%pair_equal_spec.
  apply bind_Ok in E as (data & Ed%map_err_Ok & E). apply bind_Ok in E as (cs & Ec%map_err_Ok & E).
  exists path, data. destruct cs; [done|]. injection E as <-. by split_and!.
Qed.

(** The client library as its documentation has it: [goes c u s] is whether
    client [c] sends a request for [u] to server [s]. A client restricted to
    https sends to no plain URL, wherever a redirect leads; without the
    built-in roots an https server is sent to only when a root the client
    was given verifies it; a client without roots or identity of its own can
    be built. *)
Context {Server : Type} (goes : Client → string → Server → bool) (signs : Certificate → Server → Prop).
Context (https_only_law : ∀ c u s, https_only c = true → is_plain u = true → goes c u s = false).
Context (roots_law : ∀ c u s, is_plain u = false → built_in_roots c = false → accept_invalid c = false →
  goes c u s = true → ∃ r, r ∈ roots c ∧ signs r s).
Context (build_law : ∀ b : Client, roots b = [] → identity b = None → build_error b = None).

Lemma verifying_goes certs u s :
  goes (foldl add_root_certificate verifying_builder certs) u s = true →
  is_plain u = false ∧ ∃ r, r ∈ certs ∧ signs r s.
Proof using https_only_law roots_law.
  set (c := foldl _ _ _). destruct (add_roots_spec certs (verifying_builder (Identity:=Identity))) as (Hr & Hb & Hh & Ha & _).
  fold c in Hr, Hb, Hh, Ha. intros Hg. destruct (is_plain u) eqn:Hp.
  - by rewrite (https_only_law c u s Hh Hp) in Hg.
  - split; [done|]. destruct (roots_law c u s Hp Hb Ha Hg) as (r & Hin & Hs). exists r. by rewrite Hr in Hin.
Qed.

(** C20: An engine that is not over plain HTTP always gets a client, and that
    client sends to no plain URL and to no server that a certificate of the
    CA file, as it was when the client was made, does not verify: with no CA
    configured, or one that cannot be used, it sends nothing at all. *)
Theorem engine_reached_verified u tok ca n fs t :
  is_plain (trim_end_matches slash u) = false →
  ∃ c e n' t', Engine_new u tok ca n fs t = ((Some (c, e), n'), t')
    ∧ url e = trim_end_matches slash u ∧ token e = tok
    ∧ ∀ v s, goes c v s = true →
        is_plain v = false ∧ ∃ path data certs r, ca = Some path ∧ f_data (fs t path) = Ok data
          ∧ from_pem_bundle data = Ok certs ∧ r ∈ certs ∧ signs r s.
Proof using https_only_law roots_law build_law.
  intros Hp. unfold Engine_new, client_for. rewrite Hp. unfold and_then, pure.
  destruct (read_ca ca fs t) as [r t'] eqn:Er. simpl.
  assert (build (H:=H) verifying_builder = Ok verifying_builder) as Hv by (unfold build; by rewrite build_law).
  assert (∀ v s, goes verifying_builder v s = true → False) as Hno.
  { intros v s Hg. destruct (verifying_goes [] v s Hg) as (_ & r' & Hr & _). by apply elem_of_nil in Hr. }
  destruct (result_bind r _) as [c|e] eqn:Eb; simpl.
  - apply bind_Ok in Eb as (certs & -> & ->%map_err_Ok%build_Ok).
    destruct (read_ca_Ok _ _ _ _ _ Er) as (path & data & -> & Hd & Hc & _).
    do 4 eexists. split; [done|]. split_and!; [done..|]. intros v s Hg.
    destruct (verifying_goes certs v s Hg) as (Hpv & r' & Hin & Hs). split; [done|]. by exists path, data, certs, r'.
  - rewrite Hv. simpl. do 4 eexists. split; [done|]. split_and!; [done..|]. intros v s Hg. by destruct (Hno v s Hg).
Qed.

(** A plain engine's client is made without looking at a file, and nothing is
    noted. *)
Lemma plain_engine_reads_nothing u ca n fs t :
  is_plain u = true → client_for u ca n fs t = ((Some plain_builder, n), t).
Proof using build_law. intros Hp. unfold client_for. rewrite Hp. unfold build, pure. by rewrite build_law. Qed.

(** The engine the service calls is the one [Engine::new] makes. *)
Lemma engine_for_new (tk : NodeConfig → option string) (adm : string → option string) (nd : Node) ca n fs t c e n' t' :
  Engine_new (nc_engine_url (config nd)) (tk (config nd)) ca n fs t = ((Some (c, e), n'), t') →
  engine_for tk adm nd
  = {| url := url e; token := token e; admin := opt_filter (λ t, trim t != "") (adm (nc_engine_url (config nd))) |}.
Proof.
  unfold Engine_new, and_then. destruct (client_for _ ca n fs t) as [[[c'|] m] t1]; simpl; [|done].
  by intros [= <- <- <- <-].
Qed.
End engines.

(** Warnings: one for each change of an engine's problem. *)
Lemma note_ca_problem_seen u p n :
  seen (note_ca_problem u p n) !! u = p
  ∧ warned (note_ca_problem u p n) = (warned n ++ match p with
       | Some e => if seen n !! u == Some e then [] else [(u, e)] | None => [] end)%list.
Proof.
  destruct p as [e|]; simpl.
  - destruct (seen n !! u == Some e) eqn:E; simpl; [|by rewrite lookup_insert_eq].
    apply eqb_prop in E. by rewrite app_nil_r.
  - by rewrite lookup_delete_eq, app_nil_r.
Qed.

(** ** Facts: the store's client *)

Local Close Scope string_scope.

Section store.
Context {Certificate Identity : Type} `{Tls Certificate Identity}.
Context (cfg : StoreConfig).

(** The files the client is made of, and the client they make when nobody
    writes them. *)
Definition read_files : list string :=
  (option_list (sc_ca_file cfg) ++ match sc_cert_file cfg, sc_key_file cfg with Some c, Some k => [c; k] | _, _ => [] end)%list.
Definition client_of (F : Files) : result (ClientConfig Certificate Identity) string := (store_client cfg (λ _, F) 0).1.

Lemma read_files_stamped f : f ∈ read_files → f ∈ tls_files cfg.
Proof.
  unfold read_files, tls_files. intros Hf. apply elem_of_app in Hf as [Hf|Hf]; apply elem_of_app; [by left|right].
  destruct (sc_cert_file cfg), (sc_key_file cfg); simpl in *; set_solver.
Qed.

Definition agree (fs : nat → Files) (F : Files) (t t' : nat) : Prop :=
  ∀ f u, f ∈ read_files → t ≤ u → u < t' → f_data (fs u f) = f_data (F f).
Lemma with_ca_local b fs t r t' :
  with_ca cfg b fs t = (r, t') → t ≤ t' ∧ ∀ F k, agree fs F t t' → r = (with_ca cfg b (λ _, F) k).1.
Proof.
  unfold with_ca, agree, read_files. destruct (sc_ca_file cfg) as [ca|]; cbn; intros [= <- <-]; split; try lia; [|done].
  intros F k Ha. rewrite (Ha ca t); [done|set_solver|lia|lia].
Qed.
Lemma with_identity_local b fs t r t' :
  with_identity cfg b fs t = (r, t') → t ≤ t' ∧ ∀ F k, agree fs F t t' → r = (with_identity cfg b (λ _, F) k).1.
Proof.
  unfold with_identity, agree, read_files.
  destruct (sc_cert_file cfg) as [c|], (sc_key_file cfg) as [ky|]; cbn; try (intros [= <- <-]; split; [lia|done]).
  destruct (f_data (fs t c)) as [cert|e] eqn:Ec; cbn; intros [= <- <-]; (split; [lia|]); intros F k Ha;
    rewrite <-(Ha c t), Ec by (set_solver || lia); cbn; [|done].
  by rewrite (Ha ky (S t)) by (set_solver || lia).
Qed.
(** What a client is made of was read between its start and its end. *)
Lemma store_client_local fs t r t' :
  store_client cfg fs t = (r, t') → t ≤ t' ∧ ∀ F, agree fs F t t' → r = client_of F.
Proof.
  unfold client_of, store_client, and_then. set (b := builder <| _ := _ |> <| _ := _ |>).
  destruct (with_ca cfg b fs t) as [r1 t1] eqn:E1. apply with_ca_local in E1 as [Ht1 E1].
  assert (∀ F t2, t1 ≤ t2 → agree fs F t t2 → r1 = (with_ca cfg b (λ _, F) 0).1) as E1'.
  { intros F t2 Ht Ha. apply E1. intros f u Hf ??. apply Ha; [done|lia|lia]. }
  destruct r1 as [b1|e]; cbn.
  - destruct (with_identity cfg b1 fs t1) as [r2 t2] eqn:E2. apply with_identity_local in E2 as [Ht2 E2].
    intros [= <- <-]. split; [lia|]. intros F Ha. specialize (E1' F t2 Ht2 Ha).
    destruct (with_ca cfg b (λ _, F) 0) as [r1' k]. simpl in E1'. subst r1'.
    rewrite (E2 F k); [by destruct (with_identity cfg b1 (λ _, F) k)|]. intros f u Hf ??. apply Ha; [done|lia|lia].
  - intros [= <- <-]. split; [lia|]. intros F Ha. specialize (E1' F t1 ltac:(lia) Ha).
    destruct (with_ca cfg b (λ _, F) 0) as [r1' k]. simpl in E1'. by subst r1'.
Qed.
Lemma client_of_readable F c f : client_of F = Ok c → f ∈ read_files → ∃ d, f_data (F f) = Ok d.
Proof.
  unfold client_of, store_client, and_then, with_ca, with_identity, read_files. intros E Hf.
  apply elem_of_app in Hf as [Hf|Hf].
  - destruct (sc_ca_file cfg) as [ca|]; simpl in Hf; [|by apply elem_of_nil in Hf].
    apply list_elem_of_singleton in Hf as ->. cbn in E. destruct (f_data (F ca)) as [d|]; [by exists d|done].
  - destruct (sc_cert_file cfg) as [ce|]; [|by apply elem_of_nil in Hf].
    destruct (sc_key_file cfg) as [ky|]; [|by apply elem_of_nil in Hf].
    destruct (match sc_ca_file cfg with _ => _ end _ _) as [[b|e] k]; cbn in E; [|done].
    destruct (f_data (F ce)) as [d|] eqn:Ec; cbn in E; [|done].
    destruct (f_data (F ky)) as [d'|] eqn:Ek; cbn in E; [|done].
    repeat (apply elem_of_cons in Hf as [->|Hf]; [by eexists|]). by apply elem_of_nil in Hf.
Qed.
Lemma stamps_spec files fs t :
  stamps files fs t = (imap (λ i f, f_meta (fs (t + i) f)) files, t + length files).
Proof.
  revert t. induction files as [|f files IH]; intros t; simpl; [by rewrite Nat.add_0_r|].
  unfold and_then. simpl. rewrite IH. unfold pure. f_equal; [|lia]. f_equal; [by rewrite Nat.add_0_r|].
  apply imap_ext. intros i g _. simpl. do 3 f_equal. lia.
Qed.
Lemma tls_stamp_lookup fs t i f : tls_files cfg !! i = Some f → (tls_stamp cfg fs t).1 !! i = Some (f_meta (fs (t + i) f)).
Proof. intros Hi. unfold tls_stamp. rewrite stamps_spec. simpl. by rewrite list_lookup_imap, Hi. Qed.
Lemma tls_stamp_time fs t : (tls_stamp cfg fs t).2 = t + length (tls_files cfg).
Proof. unfold tls_stamp. by rewrite stamps_spec. Qed.

(** The client in use was made of files no older than the stamp. *)
Definition fresh (fs : nat → Files) (e : EtcdHttp) (t : nat) : Prop :=
  ∃ t1 t2, store_client cfg fs t1 = (Ok (http e), t2) ∧ t2 ≤ t
    ∧ ∀ i f, tls_files cfg !! i = Some f → ∃ v, v ≤ t1 ∧ stamp e !! i = Some (f_meta (fs v f)).

(** The pairs the service can have: after a start that no write of the files
    overlapped, then after any number of refreshes. *)
Inductive kept (fs : nat → Files) : EtcdHttp → nat → Prop :=
  | kept_new t0 t e : (∀ u, t0 ≤ u → u ≤ t → fs u = fs t0) → Etcd_new cfg fs t0 = (Ok e, t) → kept fs e t
  | kept_refresh e t u e' t' : kept fs e t → t ≤ u → refresh_tls cfg e fs u = (e', t') → kept fs e' t'.

Lemma refresh_cases fs e u :
  (stamp e = (tls_stamp cfg fs u).1 ∧ refresh_tls cfg e fs u = (e, (tls_stamp cfg fs u).2))
  ∨ stamp e ≠ (tls_stamp cfg fs u).1 ∧
    refresh_tls cfg e fs u = (match (store_client cfg fs (tls_stamp cfg fs u).2).1 with
      | Ok c => {| http := c; stamp := (tls_stamp cfg fs u).1 |} | Err _ => e end,
      (store_client cfg fs (tls_stamp cfg fs u).2).2).
Proof.
  unfold refresh_tls, and_then, pure. destruct (tls_stamp cfg fs u) as [st t1]. simpl.
  unfold eqb. case_bool_decide as E; [by left|right]. split; [done|]. by destruct (store_client cfg fs t1) as [[]].
Qed.
Lemma kept_fresh fs e t : kept fs e t → fresh fs e t.
Proof.
  induction 1 as [t0 t e Hq Hn|e t u e' t' _ IH Hu Hr].
  - unfold Etcd_new, and_then in Hn. destruct (store_client cfg fs t0) as [[c|?] t1] eqn:Ec; [|done].
    destruct (tls_stamp cfg fs t1) as [st t2] eqn:Es. injection Hn as <- <-.
    apply store_client_local in Ec as Hloc. destruct Hloc as [Ht _].
    pose proof (tls_stamp_time fs t1) as Htm. rewrite Es in Htm. simpl in Htm.
    exists t0, t1. split; [exact Ec|]. split; [lia|]. intros i f Hi. exists t0. split; [lia|]. simpl.
    pose proof (tls_stamp_lookup fs t1 i f Hi) as Hl. rewrite Es in Hl. simpl in Hl. rewrite Hl.
    apply lookup_lt_Some in Hi. by rewrite (Hq (t1 + i)) by lia.
  - destruct IH as (t1 & t2 & Hc & Ht & Hs). destruct (refresh_cases fs e u) as [[_ E]|[_ E]]; rewrite E in Hr.
    + injection Hr as <- <-. exists t1, t2. rewrite tls_stamp_time. split_and!; [done|lia|done].
    + rewrite tls_stamp_time in Hr. destruct (store_client cfg fs (u + _)) as [r k] eqn:Ec. simpl in Hr.
      apply store_client_local in Ec as Hloc. destruct Hloc as [Hk _]. destruct r as [c|]; injection Hr as <- <-.
      * exists (u + length (tls_files cfg)), k. split_and!; [done|lia|]. intros i f Hi. exists (u + i).
        split; [apply lookup_lt_Some in Hi; lia|by apply tls_stamp_lookup].
      * exists t1, t2. split_and!; [done|lia|done].
Qed.

(** A time and a length tell a file's content: between two moments that have
    the same ones, the second readable, the file did not change. *)
Definition stamps_tell (fs : nat → Files) : Prop :=
  ∀ f t t' d, t ≤ t' → f_meta (fs t f) = f_meta (fs t' f) → f_data (fs t' f) = Ok d →
    ∀ u, t ≤ u → u ≤ t' → f_data (fs u f) = Ok d.

(** C36: However often the TLS files of the store are written while the service
    runs, also half way through a refresh: one refresh after they stop
    changing the client in use is the one they make, or, when they make none,
    the client is left as it was. The files must not be written while
    [Etcd::new] runs. *)
Theorem renewed_tls_is_used fs e t u :
  stamps_tell fs → kept fs e t → t ≤ u → (∀ v, u ≤ v → fs v = fs u) →
  match client_of (fs u) with
  | Ok c => http (refresh_tls cfg e fs u).1 = c
  | Err _ => (refresh_tls cfg e fs u).1 = e
  end.
Proof.
  intros Htell (t1 & t2 & Hc & Ht & Hs)%kept_fresh Hu Hquiet.
  destruct (refresh_cases fs e u) as [[Est E]|[_ E]]; rewrite E; simpl.
  - destruct (client_of (fs u)) as [c|] eqn:Eu; [|done].
    apply store_client_local in Hc as [_ Hc]. specialize (Hc (fs u)). rewrite Eu in Hc.
    enough (agree fs (fs u) t1 t2) as Ha by (specialize (Hc Ha); congruence). intros f v Hf Hv1 Hv2. destruct (client_of_readable _ _ f Eu Hf) as [d Hd].
    apply read_files_stamped, list_elem_of_lookup in Hf as [i Hi]. destruct (Hs i f Hi) as (w & Hw & Hst).
    rewrite Est, (tls_stamp_lookup fs u i f Hi) in Hst. apply (inj Some) in Hst.
    rewrite (Hquiet (u + i)) in Hst by lia. rewrite Hd. apply (Htell f w u d); [lia|by symmetry|done|lia|lia].
  - rewrite tls_stamp_time. destruct (store_client cfg fs (u + _)) as [r k] eqn:Ec. simpl.
    apply store_client_local in Ec as [_ Ec]. rewrite <-(Ec (fs u)); [by destruct r|].
    intros f v _ Hv _. by rewrite (Hquiet v) by lia.
Qed.
End store.

(** ** Examples *)

Local Open Scope string_scope.

(** Certificates that are bytes: a bundle is its certificates. *)
Definition bytes_tls : Tls Z bytes :=
  {| from_pem_bundle := λ d, Ok d; from_pem := λ d, Ok d; build_error := λ _, None |}.
Definition one_file (name : string) (m : Z) (d : bytes) : Files :=
  λ f, if f == name then MkFileEntry (Some (m, Z.of_nat (length d))) (Ok d) else MkFileEntry None (Err "not found").
(** A server is verified by the certificate with its number. *)
Definition sends (c : ClientConfig Z bytes) (u : string) (s : Z) : bool :=
  if is_plain u then negb (https_only c) else built_in_roots c || accept_invalid c || existsb (Z.eqb s) (roots c).

Lemma engine_reached_verified_witness :
  is_plain "https://n1:8443" = false ∧
  ∃ c e n' t', @Engine_new Z bytes bytes_tls "https://n1:8443/" None (Some "/ca.crt") (MkCaNotes ∅ [])
      (λ _, one_file "/ca.crt" 1 [7%Z]) 0 = ((Some (c, e), n'), t')
    ∧ url e = "https://n1:8443" ∧ token e = None
    ∧ ∀ v s, sends c v s = true → is_plain v = false ∧ ∃ path data certs r, Some "/ca.crt" = Some path
        ∧ f_data (one_file "/ca.crt" 1 [7%Z] path) = Ok data ∧ (Ok data : result bytes string) = Ok certs ∧ r ∈ certs ∧ r = s.
Proof.
  split; [reflexivity|].
  apply (@engine_reached_verified Z bytes bytes_tls Z sends eq) with (u := "https://n1:8443/") (tok := None)
    (ca := Some "/ca.crt") (n := MkCaNotes ∅ []) (fs := λ _, one_file "/ca.crt" 1 [7%Z]) (t := 0).
  - intros c u s Hh Hp. unfold sends. by rewrite Hp, Hh.
  - intros c u s Hp Hb Ha. unfold sends. rewrite Hp, Hb, Ha. simpl. intros (r & Hr & E)%existsb_exists.
    exists r. split; [by apply list_elem_of_In|]. by apply Z.eqb_eq in E.
  - done.
  - reflexivity.
Defined.

(** The CA of the store is replaced between two moments. *)
Definition store_ca : StoreConfig := StoreConfig_default <| sc_ca_file := Some "/ca" |>.
Definition replaced_at (k : nat) : nat → Files :=
  λ t, if (t <? k)%nat then one_file "/ca" 1 [7%Z] else one_file "/ca" 2 [8%Z].
Local Close Scope string_scope.
Lemma replaced_tells k : stamps_tell (replaced_at k).
Proof.
  intros f t t' d Ht Hm Hd u Hu Hu'. revert Hm Hd. unfold replaced_at.
  destruct (Nat.ltb_spec t k), (Nat.ltb_spec t' k), (Nat.ltb_spec u k); try lia; unfold one_file;
    destruct (f == _); simpl; congruence.
Qed.
Lemma replaced_after k v : k ≤ v → replaced_at k v = one_file "/ca" 2 [8%Z].
Proof. intros Hv. unfold replaced_at. by rewrite (proj2 (Nat.ltb_ge v k)). Qed.

Lemma renewed_tls_is_used_witness :
  ∃ e, kept (H := bytes_tls) store_ca (replaced_at 5) e 2
    ∧ roots (http e) = [7%Z]
    ∧ roots (http (@refresh_tls Z bytes bytes_tls store_ca e (replaced_at 5) 10).1) = [8%Z].
Proof.
  destruct (@Etcd_new Z bytes bytes_tls store_ca (replaced_at 5) 0) as [[e|] t] eqn:E; [|by vm_compute in E].
  assert (t = 2) as -> by (vm_compute in E; congruence).
  assert (kept (H := bytes_tls) store_ca (replaced_at 5) e 2) as Hk.
  { apply kept_new with (t0 := 0); [|exact E]. intros u _ Hu. unfold replaced_at.
    by rewrite (proj2 (Nat.ltb_lt u 5)) by lia. }
  exists e. split; [exact Hk|]. split; [vm_compute in E; by injection E as <-|].
  pose proof (@renewed_tls_is_used Z bytes bytes_tls store_ca (replaced_at 5) e 2 10 (replaced_tells 5) Hk ltac:(lia)) as Hr.
  rewrite Hr; [reflexivity|]. intros v Hv. by rewrite !replaced_after by lia.
Defined.

(** A CA replaced while [Etcd::new] runs, after it was read and before the
    stamp was taken, is not taken up by any later refresh: the pair has the
    old client and the new stamp. *)
Lemma renewal_missed_at_start :
  ∃ e, @Etcd_new Z bytes bytes_tls store_ca (replaced_at 1) 0 = (Ok e, 2) ∧ roots (http e) = [7%Z]
    ∧ (∀ u, 2 ≤ u → (@refresh_tls Z bytes bytes_tls store_ca e (replaced_at 1) u).1 = e)
    ∧ ∃ c, @client_of Z bytes bytes_tls store_ca (replaced_at 1 2) = Ok c ∧ roots c = [8%Z].
Proof.
  eexists. split; [by vm_compute|]. split; [done|]. split; [|eexists; by split; [vm_compute|]].
  intros u Hu. unfold refresh_tls, and_then, tls_stamp, stamps. simpl.
  unfold fs_meta, pure. by rewrite replaced_after by lia.
Qed.

(** ** Facts: the address *)

(** What is published is one of the addresses of the URL's host, with its
    port, and one other nodes can reach. *)
Lemma advertise_addr_spec `{Names} advertised a port :
  advertise_addr advertised = Ok (a, port) →
  ∃ u ip ips, url_parse advertised = Ok u ∧ port = unwrap_or 9093%Z (port_or_default u) ∧ ip ∈ ips ∧ a = ip_text ip
    ∧ is_loopback ip = false ∧ is_unspecified ip = false
    ∧ (ip_parse (trim_brackets (unwrap_or "" (host_str u))) = Some ip
       ∨ lookup_host (trim_brackets (unwrap_or "" (host_str u))) port = Ok ips).
Proof.
  unfold advertise_addr. intros (u & Hu%map_err_Ok & E)%bind_Ok. apply bind_Ok in E as (ips & Hips & E).
  destruct (find_first others_reach ips) as [ip|] eqn:Ef; [|done]. injection E as <- <-.
  apply find_first_Some in Ef as [Hin Hr]. unfold others_reach in Hr.
  apply andb_true_iff in Hr as [Hl%negb_true_iff Hs%negb_true_iff].
  exists u, ip, ips. split_and!; try done. destruct (ip_parse _) as [ip'|]; [left|by right].
  injection Hips as <-. by apply list_elem_of_singleton in Hin as ->.
Qed.
